(* ===== verification/_CoqProject ===== *)
-Q . S2P
Prelude.v
RecordCodec.v
Crc32.v
Float64.v
Versions.v
SkipList.v
SkipListRefine.v
MemTable.v
MemTableClaims.v
Wal.v
Volume.v
Manifest.v
Bloom.v
BlockCache.v
Compression.v
Block.v
BlockLayout.v
Index.v
Writer.v
TableLayout.v
SSTable.v
TableRead.v
TableRefs.v
Resources.v
TableClaims.v
TableFits.v
Heap.v
KMerge.v
Merge.v
MergeRefine.v
CompactionClaims.v
Picker.v
Segments.v
FileLock.v
History.v
DbState.v
Db.v
DbOpen.v
DbIterator.v
DbInv.v
DbReads.v
DbWrites.v
DbFlush.v
DbCompact.v
DbCompactPlan.v
DbCompactRun.v
DbReaders.v
DbRounds.v
DbSystem.v
DbSpec.v
DbPrefix.v
DbScan.v
DbScanOpen.v
DbSim.v
DbSimReaders.v
DbSimWorkers.v
DbLiveness.v
DbClose.v
DbBatch.v
Base64.v
Service.v
ServiceSpec.v
ServiceScan.v
ServicePages.v
DbDurable.v
DbClaims.v
DbRecovery.v
Api.v
ApiClients.v
ApiClaims.v
Processes.v
ServiceClaims.v
Incidents.v
