(* ===== verification/Prelude.v ===== *)
(** * HyphaDB: a verification development

    HyphaDB is an embedded key-value store written in Go: a log-structured
    merge tree with a write-ahead log, memtables on a skip list, sorted tables
    with blocks, index, Bloom filter and block cache, levelled compaction,
    snapshots and iterators, and a gRPC service.  This library models the
    program and proves it correct, from the bytes of a record to the
    interleavings of its goroutines.

    ** The program and the files that model it

    Paths are under [src/].  Integers are [Z] with the wrap-around of their
    width written out ([u32], [u64], [i32]); strings and byte slices are lists
    of bytes (references in Api); a Go [(value, error)] is a [result]; [None] of an [option] around
    it is a panic, or too little fuel.

    - Prelude: results, machine integers, bytes, little-endian codecs,
      [io.ReadFull], the order of keys with its decision procedure, [sort.Search],
      the tactics and hint databases that the other files share.
    - RecordCodec: [internal/record] (records and their encoding).  Crc32 and
      Float64: [hash/crc32] and the binary64 operations the program uses.
    - Versions, History: versions of a key, the newest visible one, reads of a
      history; the vocabulary of the specifications.
    - SkipList, SkipListRefine: [internal/skiplist], nodes in an arena linked by
      index as the pointers are; every operation refines a sorted list.
      MemTable, MemTableClaims: [internal/memtable] with both iterators.
    - Segments, Wal: [internal/wal], the names and listing of segments, framing,
      batches, replay with truncation of a torn tail.
    - FileLock, Processes: [internal/filelock], the lock of the data directory
      over the open file descriptions of the operating system, and how [Open]
      and [Close] of [internal/db] use it: processes that share a disk.
    - Volume, Manifest: [internal/manifest], its codec and its atomic publication.
      [Write_calls] lists the calls of [Write] to the operating system under
      arbitrary faults; Volume says what they do to the files a process sees
      ([fs_call]) and what they leave on a disk that loses power, where contents
      and directory changes that were not synced may be lost ([survives]).
    - Bloom, BlockCache, Compression: [internal/bloom], [internal/blockcache],
      [internal/compression].  The cache is a class ([Cache]) with the LRU cache
      as its instance; readers are proved against the class.
    - Block, BlockLayout, Index, Writer, TableLayout, SSTable, TableRead,
      TableRefs, Resources, TableClaims, TableFits: [internal/sstable], the encoder, both
      block formats and their cursor, index and footer, lookups and iteration
      through a shared cache, reference counts; TableFits bounds what fits into
      the limits of a reader; Resources follows the references and files that
      iterators and merges take and give back.
    - Heap, KMerge, Merge, MergeRefine, CompactionClaims, Picker:
      [container/heap] and [internal/compaction], the k-way merge with its
      retention rules and the choice of tables.  KMerge is the merge invariant
      that compaction and the database iterator share.
    - DbState, Db, DbOpen, DbIterator: [internal/db], the [DB] struct with the
      files of its directory, every operation of [db.go], [batch.go],
      [snapshot.go] and [iterator.go], with an environment [env] that decides
      which calls to the operating system fail.
    - DbSystem: the database with its goroutines.  A step is a critical section
      of [db.mu], a section of the flush worker outside of it, a call of a
      client, or a step of [Close]; a run is any list of such events.
    - DbInv, DbReads, DbWrites, DbFlush, DbCompact, DbCompactPlan, DbCompactRun,
      DbReaders, DbRounds: the invariant of the database and that every
      operation keeps it.  A ghost history of all records written ties
      memtables, tables and reads together.
    - DbSpec: the abstract database, a map with a copy for every snapshot and
      the list of entries to come for every iterator, and the answers it allows.
      DbPrefix, DbScan, DbScanOpen: prefix ranges and the merge of the iterator.
      DbSim, DbSimReaders, DbSimWorkers: the simulation between the two.
      DbLiveness, DbClose: wake-ups are not lost, [Close] returns.  DbBatch:
      limits of batches.  DbClaims: the theorems about runs.
    - DbDurable, DbRecovery: what the files of the directory say about the
      running database, that every step keeps it, and that [Open] of these files
      gives a database with the same map.
    - Api, ApiClients, ApiClaims: [hyphadb.go], the functions clients call.  Byte
      slices are references into one memory that clients and the database share;
      ApiClients shows that the copies separate the two, ApiClaims carries the
      specification of the database over to the API, with batches that are filled
      call by call and the current entry of an iterator.
    - Base64, Service, ServiceSpec, ServiceScan, ServicePages, ServiceClaims:
      [service.go] and [grpc_service.go].  A handler is a program over the
      events of DbSystem among other goroutines; its weakest precondition is
      taken against the specification DbSpec, and adequacy carries it over to
      the running database.
    - Incidents: runs outside the hypotheses of the theorems on which the
      database loses or brings back data, loses a wake-up, or refuses a write it
      has applied, executed.

    ** What the theorems show

    - Bytes: records, manifests, filters and blocks decode exactly from their
      encodings; a changed byte is detected; truncated input is rejected;
      sizes and offsets stay within their bounds; cursors never index out of
      range.
    - Components: the skip list and the memtable refine sorted lists, the cache
      refines a list in recency order, the reference count an abstract counter;
      tables answer lookups and iterate as the records they were written from,
      through any coherent cache; the merge keeps what every active reader can
      see; the picker keeps levels disjoint.
    - The database ([database_correct]): every tame interleaving answers what the
      abstract map allows, and nothing panics; every state that a tame run
      reaches is well-formed ([reachable_wellformed]).  On tame runs flushes
      complete, compaction terminates, [Close] returns.
    - The public API ([api_correct], [api_isolated]): every call answers what the
      abstract database promises, whatever clients write to their own arrays.
    - Processes ([lock_exclusive], [directory_ownership]): a directory has at most
      one owner, and a database is answered as if it had its files for itself,
      which is what the model of [internal/db] assumes; the one exception, an
      explicit compaction after [Close], is executed in Incidents.
    - Resources ([readers_balanced]): references and open files are those of the
      open iterators.
    - Durability ([recovery_correct]): wherever a tame and bearable run from an
      empty directory stops, between two steps, one [Open] succeeds and the
      database goes on with the map it had; the exceptions are listed below.
      Replay applies exactly the complete frames, and batches as a whole or not
      at all; manifests are published atomically, also when the power fails in
      the middle ([manifest_publish_atomic]).
    - The service: pages and streams show the map at one moment, following page
      tokens is complete, batches of mutations are atomic.

    ** Bounds and fuel

    Loops without a structural argument take fuel.  The theorems prove that it
    suffices: [fuel] exceeds the number of records written in a run, the rounds
    of the compaction worker are bounded by twice the number of tables and one,
    the other bounds are lengths of the data at hand.  [fits_trace] bounds what
    a run writes so that every table stays readable: the number of records, the
    sizes of their keys, and the Bloom filter sizes ([sizing_fits]) for a given
    logarithm.  [tame] excludes three kinds of events that the code does not
    survive: counters that overflow; a write that rotates the memtable while the
    operating system refuses to open the new log or to close the old one; and a
    failed flush that gives back an identifier while a compaction has taken later
    ones.  Incidents executes the last two kinds.  When the new log cannot be
    opened, later writes are lost ([failed_rotation_loses_writes]).  When the old
    one cannot be closed, [rotateMemtable] leaves before [signalFlush]: the write
    is reported as failed although it has been applied, and the flush worker is
    not woken ([failed_log_close_loses_wakeup], [refused_batch_applied]).  What
    an explicit compaction reports is left open: the specification allows any
    result, and says that the map does not change.
    [bearable_run] excludes what recovery does not survive: writes after a torn
    one, a batch whose sync fails, and segments that outlive their memtable.
    For the last reason the moment between the publication of a flushed
    memtable and the removal of its segment is left out, and so is a second
    crash: recovery replays several segments into one memtable, of which the
    flush removes only the last.

    ** What is outside

    The hash xxh3, [math.Log], the conversion of a large float to an integer and
    the lz4 codec are parameters; lz4 has its round-trip law, and the witnesses
    instantiate all of them.  Files of a database are byte strings in a map and
    writes reach them at once: loss of data that was not synced is modelled for
    the publication of a manifest (Volume), for a segment of the log
    ([synced_batch_survives]), and as torn writes.  Directory creation, logging, the generated
    protocol code, the gRPC runtime and the benchmarks have no state of their
    own here.  Inside [internal/db] values are immutable; in Api the arrays
    they stand for are, while nobody writes to them.  What closing the files of
    an iterator reports is left out.  Reader locks inside a table serialise what
    is one step here. *)

From Stdlib Require Export ZArith Lia Strings.Byte Orders OrdersTac.
From stdpp Require Export base list gmap numbers option sorting.

#[export] Set Default Goal Selector "!".
#[export] Set Warnings "-clear-no-such-hyp".
#[global] Open Scope Z_scope.

(** ** Results: Go's [(value, error)] returns *)

Inductive result (E A : Type) : Type :=
| Ok (a : A)
| Err (e : E).
Arguments Ok {E A} _.
Arguments Err {E A} _.

Global Instance result_bind {E} : MBind (result E) := fun A B f r =>
  match r with Ok a => f a | Err e => Err e end.
Global Instance result_ret {E} : MRet (result E) := fun A a => Ok a.

(** An [if err then return error] guard. *)
Definition guard_err {E} (b : bool) (e : E) : result E unit :=
  if b then Err e else Ok tt.

Definition map_err {E F A} (f : E -> F) (r : result E A) : result F A :=
  match r with Ok a => Ok a | Err e => Err (f e) end.

Definition is_Ok {E A} (r : result E A) : Prop := exists a, r = Ok a.

Lemma Ok_inj {E A} (a b : A) : Ok (E := E) a = Ok b -> a = b.
Proof. congruence. Qed.

Lemma bind_Ok {E A B} (a : A) (f : A -> result E B) : (Ok a ≫= f) = f a.
Proof. reflexivity. Qed.

Lemma bind_Ok_inv {E A B} (r : result E A) (f : A -> result E B) b :
  (r ≫= f) = Ok b -> exists a, r = Ok a /\ f a = Ok b.
Proof. destruct r; simpl; [eauto | discriminate]. Qed.

Lemma guard_err_false {E} (e : E) b : b = false -> guard_err b e = Ok tt.
Proof. by intros ->. Qed.

Lemma guard_err_Ok {E} (e : E) b u : guard_err b e = Ok u -> b = false.
Proof. by destruct b. Qed.

Lemma map_err_Ok {E F A} (f : E -> F) (r : result E A) a : map_err f r = Ok a -> r = Ok a.
Proof. destruct r; simpl; congruence. Qed.

(** One step of a run whose head is a value. *)
Ltac bind_step := cbn [mbind result_bind map_err fst snd].

(** Takes a successful run of binds apart: one hypothesis per step, guards as
    boolean equations. *)
Ltac bind_inv H :=
  repeat (cbv zeta in H;
  match type of H with
  | (_ ≫= _) = Ok _ =>
      let a := fresh "x" in let Ha := fresh "Hx" in
      apply bind_Ok_inv in H as (a & Ha & H);
      match type of Ha with
      | guard_err _ _ = _ => apply guard_err_Ok in Ha; clear a
      | map_err _ _ = _ => apply map_err_Ok in Ha
      | _ => idtac
      end
  | (let '(_, _) := ?p in _) = Ok _ => destruct p
  end).

(** ** Machine integers: values of a [w]-bit unsigned type are [Z] in range *)

Definition u8_max : Z := 255.
Definition u32_max : Z := 4294967295.
Definition u64_max : Z := 18446744073709551615.
Definition u32 (z : Z) : Z := z mod 4294967296.
Definition u64 (z : Z) : Z := z mod 18446744073709551616.
Definition is_u32 (z : Z) : Prop := 0 <= z <= u32_max.
Definition is_u64 (z : Z) : Prop := 0 <= z <= u64_max.

Lemma u32_id z : is_u32 z -> u32 z = z.
Proof. unfold is_u32, u32_max, u32. intros. apply Z.mod_small. lia. Qed.

Lemma u64_id z : is_u64 z -> u64 z = z.
Proof. unfold is_u64, u64_max, u64. intros. apply Z.mod_small. lia. Qed.

Lemma u64_range z : is_u64 (u64 z).
Proof.
  unfold is_u64, u64, u64_max.
  pose proof (Z.mod_pos_bound z 18446744073709551616). lia.
Qed.

(** ** Bytes *)

Abbreviation bytes := (list byte).

Definition b2z (b : byte) : Z := Z.of_N (Byte.to_N b).
Definition z2b (z : Z) : byte :=
  match Byte.of_N (Z.to_N (z mod 256)) with Some b => b | None => x00 end.

Global Instance byte_eq_dec : EqDecision byte := Byte.byte_eq_dec.

Lemma b2z_range b : 0 <= b2z b < 256.
Proof. unfold b2z. pose proof (Byte.to_N_bounded b). lia. Qed.

Lemma b2z_z2b z : b2z (z2b z) = z mod 256.
Proof.
  unfold z2b, b2z. pose proof (Z.mod_pos_bound z 256 ltac:(lia)) as Hb.
  destruct (Byte.of_N _) as [b|] eqn:E.
  - apply Byte.to_of_N in E. rewrite E. lia.
  - apply Byte.of_N_None_iff in E. lia.
Qed.

Lemma b2z_inj a b : b2z a = b2z b -> a = b.
Proof.
  unfold b2z. intros H. apply N2Z.inj in H.
  assert (Hs : Byte.of_N (Byte.to_N a) = Byte.of_N (Byte.to_N b)) by congruence.
  rewrite !Byte.of_to_N in Hs. congruence.
Qed.

Lemma z2b_b2z b : z2b (b2z b) = b.
Proof. apply b2z_inj. rewrite b2z_z2b. apply Z.mod_small, b2z_range. Qed.

Global Program Instance byte_countable : Countable byte :=
  inj_countable Byte.to_N Byte.of_N _.
Next Obligation. intros b. apply Byte.of_to_N. Qed.

(** Lengths as Go [int]s. *)
Definition len {A} (l : list A) : Z := Z.of_nat (length l).

Lemma len_nonneg {A} (l : list A) : 0 <= len l.
Proof. unfold len. lia. Qed.

Lemma len_cons {A} (x : A) l : len (x :: l) = 1 + len l.
Proof. unfold len. simpl. lia. Qed.

Lemma len_app {A} (l k : list A) : len (l ++ k) = len l + len k.
Proof. unfold len. rewrite length_app. lia. Qed.

Lemma list_filter_nil {A} (P : A -> Prop) `{!forall x, Decision (P x)} (l : list A) :
  Forall (fun x => ~ P x) l -> filter P l = [].
Proof. induction 1; [done |]. by rewrite filter_cons_False. Qed.

Lemma list_filter_all {A} (P : A -> Prop) `{!forall x, Decision (P x)} (l : list A) :
  Forall P l -> filter P l = l.
Proof. induction 1; [done |]. rewrite filter_cons_True by done. congruence. Qed.

Lemma list_filter_iff_in {A} (P Q : A -> Prop) `{!forall x, Decision (P x), !forall x, Decision (Q x)}
    (l : list A) : (forall x, x ∈ l -> P x <-> Q x) -> filter P l = filter Q l.
Proof.
  intros Hpq. induction l as [|a l IH]; [done |]. rewrite !filter_cons.
  rewrite IH by (intros; apply Hpq; by right). pose proof (Hpq a ltac:(left)).
  destruct (decide (P a)), (decide (Q a)); tauto.
Qed.

(** [buf[lo:hi]] *)
Definition slice {A} (lo hi : nat) (buf : list A) : list A := take (hi - lo) (drop lo buf).

(** [buf[lo:hi]] with the run-time check; [None] is the panic. *)
Definition go_slice {A} (lo hi : Z) (buf : list A) : option (list A) :=
  if (0 <=? lo) && (lo <=? hi) && (hi <=? len buf)
  then Some (slice (Z.to_nat lo) (Z.to_nat hi) buf) else None.

(** ** [encoding/binary.LittleEndian] *)

Fixpoint le_bytes (n : nat) (z : Z) : bytes :=
  match n with
  | O => []
  | S n => z2b z :: le_bytes n (z / 256)
  end.

Fixpoint le_Z (bs : bytes) : Z :=
  match bs with
  | [] => 0
  | b :: r => b2z b + 256 * le_Z r
  end.

Definition PutUint32 (z : Z) : bytes := le_bytes 4 z.
Definition PutUint64 (z : Z) : bytes := le_bytes 8 z.

(** [LittleEndian.Uint32(b)] and [Uint64(b)] read the first 4 and 8 bytes. *)
Definition Uint32 (bs : bytes) : Z := le_Z (take 4 bs).
Definition Uint64 (bs : bytes) : Z := le_Z (take 8 bs).

Lemma length_le_bytes n z : length (le_bytes n z) = n.
Proof. revert z. induction n; simpl; auto. Qed.

Lemma le_Z_range bs : 0 <= le_Z bs < 256 ^ len bs.
Proof.
  unfold len. induction bs as [|b r IH]; simpl le_Z; [simpl; lia |].
  pose proof (b2z_range b). rewrite length_cons, Nat2Z.inj_succ, Z.pow_succ_r by lia. lia.
Qed.

Lemma le_Z_le_bytes n z : le_Z (le_bytes n z) = z mod 256 ^ Z.of_nat n.
Proof.
  revert z. induction n as [|n IH]; intros z; simpl le_bytes; simpl le_Z.
  - by rewrite Z.mod_1_r.
  - rewrite b2z_z2b, IH, Nat2Z.inj_succ, Z.pow_succ_r by lia.
    rewrite Z.rem_mul_r by lia. lia.
Qed.

Lemma le_bytes_le_Z bs : le_bytes (length bs) (le_Z bs) = bs.
Proof.
  induction bs as [|b r IH]; [done |]. simpl.
  pose proof (b2z_range b).
  assert (Hd : (b2z b + 256 * le_Z r) / 256 = le_Z r).
  { rewrite (Z.mul_comm 256), Z.div_add by lia.
    rewrite Z.div_small by lia. lia. }
  rewrite Hd, IH. f_equal. apply b2z_inj.
  rewrite b2z_z2b, Z.mul_comm, Z.mod_add by lia. by apply Z.mod_small.
Qed.

Lemma Uint32_PutUint32 z rest : is_u32 z -> Uint32 (PutUint32 z ++ rest) = z.
Proof.
  intros Hz. unfold Uint32, PutUint32.
  rewrite take_app_le, take_ge by (rewrite length_le_bytes; lia).
  rewrite le_Z_le_bytes. by apply u32_id.
Qed.

Lemma Uint64_PutUint64 z rest : is_u64 z -> Uint64 (PutUint64 z ++ rest) = z.
Proof.
  intros Hz. unfold Uint64, PutUint64.
  rewrite take_app_le, take_ge by (rewrite length_le_bytes; lia).
  rewrite le_Z_le_bytes. by apply u64_id.
Qed.

Lemma Uint32_range bs : is_u32 (Uint32 bs).
Proof.
  unfold Uint32, is_u32, u32_max. pose proof (le_Z_range (take 4 bs)) as [H1 H2].
  assert (256 ^ len (take 4 bs) <= 256 ^ 4).
  { apply Z.pow_le_mono_r; [lia |]. unfold len. rewrite length_take. lia. }
  lia.
Qed.

Lemma Uint64_range bs : is_u64 (Uint64 bs).
Proof.
  unfold Uint64, is_u64, u64_max. pose proof (le_Z_range (take 8 bs)) as [H1 H2].
  assert (256 ^ len (take 8 bs) <= 256 ^ 8).
  { apply Z.pow_le_mono_r; [lia |]. unfold len. rewrite length_take. lia. }
  lia.
Qed.

Lemma PutUint32_Uint32 bs : (4 <= length bs)%nat -> PutUint32 (Uint32 bs) = take 4 bs.
Proof.
  intros H. unfold PutUint32, Uint32.
  rewrite <- (le_bytes_le_Z (take 4 bs)) at 2. by rewrite length_take_le.
Qed.

Lemma PutUint64_Uint64 bs : (8 <= length bs)%nat -> PutUint64 (Uint64 bs) = take 8 bs.
Proof.
  intros H. unfold PutUint64, Uint64.
  rewrite <- (le_bytes_le_Z (take 8 bs)) at 2. by rewrite length_take_le.
Qed.

Lemma length_PutUint32 z : length (PutUint32 z) = 4%nat.
Proof. apply length_le_bytes. Qed.

Lemma length_PutUint64 z : length (PutUint64 z) = 8%nat.
Proof. apply length_le_bytes. Qed.

Lemma len_PutUint32 z : len (PutUint32 z) = 4.
Proof. unfold len. by rewrite length_PutUint32. Qed.

Lemma len_PutUint64 z : len (PutUint64 z) = 8.
Proof. unfold len. by rewrite length_PutUint64. Qed.

(** [LittleEndian.Uint32(b)] with the run-time check. *)
Definition go_Uint32 (b : bytes) : option Z :=
  if (length b <? 4)%nat then None else Some (Uint32 b).

Lemma go_slice_Some {A} lo hi (buf : list A) :
  0 <= lo <= hi -> hi <= len buf ->
  go_slice lo hi buf = Some (slice (Z.to_nat lo) (Z.to_nat hi) buf).
Proof.
  intros H1 H2. unfold go_slice. destruct (Z.leb_spec 0 lo), (Z.leb_spec lo hi), (Z.leb_spec hi (len buf)); lia || done.
Qed.

Lemma length_slice {A} lo hi (buf : list A) :
  (lo <= hi <= length buf)%nat -> length (slice lo hi buf) = (hi - lo)%nat.
Proof. intros H. unfold slice. rewrite length_take, length_drop. lia. Qed.

Lemma go_Uint32_Some b : (4 <= length b)%nat -> go_Uint32 b = Some (Uint32 b).
Proof. intros H. unfold go_Uint32. destruct (Nat.ltb_spec (length b) 4); [lia | done]. Qed.

(** ** [io.Reader] over an in-memory source

    A reader is the list of bytes still to be read. *)

Inductive io_error : Type := EOF | ErrUnexpectedEOF.

(** [io.ReadFull(r, buf)] with [len(buf) = n]. *)
Definition ReadFull (n : nat) (r : bytes) : result io_error (bytes * bytes) :=
  if (n =? 0)%nat then Ok ([], r)
  else match r with
       | [] => Err EOF
       | _ => if (length r <? n)%nat then Err ErrUnexpectedEOF
              else Ok (take n r, drop n r)
       end.

Lemma ReadFull_app n a b : length a = n -> ReadFull n (a ++ b) = Ok (a, b).
Proof.
  intros <-. unfold ReadFull. destruct a as [|x a]; [done |]. simpl.
  rewrite length_app. destruct (Nat.ltb_spec (S (length a + length b)) (S (length a))); [lia |].
  by rewrite take_app_length, drop_app_length.
Qed.

Lemma ReadFull_enough n r : (n <= length r)%nat -> ReadFull n r = Ok (take n r, drop n r).
Proof.
  intros H. rewrite <- (take_drop n r) at 1. apply ReadFull_app. rewrite length_take. lia.
Qed.

Lemma ReadFull_Ok n r a b : ReadFull n r = Ok (a, b) -> r = a ++ b /\ length a = n.
Proof.
  unfold ReadFull. destruct (Nat.eqb_spec n 0) as [-> | Hn]; [by intros [= <- <-] |].
  destruct r as [|x r]; [done |].
  destruct (Nat.ltb_spec (length (x :: r)) n); [done |]. intros [= <- <-].
  by rewrite take_drop, length_take_le.
Qed.

Lemma ReadFull_short n r e :
  ReadFull n r = Err e <->
  (length r < n)%nat /\ e = match r with [] => EOF | _ => ErrUnexpectedEOF end.
Proof.
  unfold ReadFull. destruct (Nat.eqb_spec n 0) as [-> | Hn]; [split; [done | lia] |].
  destruct r as [|x r].
  - split; [intros [= <-]; split; [simpl; lia | done] | by intros [_ ->]].
  - destruct (Nat.ltb_spec (length (x :: r)) n); split; try done; try lia.
    + by intros [= <-].
    + by intros [_ ->].
Qed.

(** ** Key order: Go's string comparison, byte-lexicographic *)

Fixpoint bytes_cmp (a b : bytes) : comparison :=
  match a, b with
  | [], [] => Eq
  | [], _ :: _ => Lt
  | _ :: _, [] => Gt
  | x :: a, y :: b =>
      match b2z x ?= b2z y with
      | Eq => bytes_cmp a b
      | c => c
      end
  end.

Definition key_ltb (a b : bytes) : bool :=
  match bytes_cmp a b with Lt => true | _ => false end.
Definition key_leb (a b : bytes) : bool :=
  match bytes_cmp a b with Gt => false | _ => true end.
Definition key_eqb (a b : bytes) : bool :=
  match bytes_cmp a b with Eq => true | _ => false end.

Definition key_lt (a b : bytes) : Prop := key_ltb a b = true.
Definition key_le (a b : bytes) : Prop := key_leb a b = true.

Declare Scope key_scope.
Delimit Scope key_scope with key.
Infix "<" := key_lt : key_scope.
Infix "<=" := key_le : key_scope.
Infix "<?" := key_ltb : key_scope.
Infix "<=?" := key_leb : key_scope.
Infix "=?" := key_eqb : key_scope.

Lemma bytes_cmp_refl a : bytes_cmp a a = Eq.
Proof. induction a; simpl; [done |]. by rewrite Z.compare_refl. Qed.

Lemma bytes_cmp_eq a b : bytes_cmp a b = Eq -> a = b.
Proof.
  revert b. induction a as [|x a IH]; intros [|y b]; simpl; try done.
  destruct (Z.compare_spec (b2z x) (b2z y)) as [H | |]; try done.
  intros ?%IH. apply b2z_inj in H. congruence.
Qed.

Lemma bytes_cmp_antisym a b : bytes_cmp b a = CompOpp (bytes_cmp a b).
Proof.
  revert b. induction a as [|x a IH]; intros [|y b]; simpl; try done.
  rewrite (Z.compare_antisym (b2z x) (b2z y)).
  destruct (Z.compare_spec (b2z x) (b2z y)); simpl; auto.
Qed.

Lemma bytes_cmp_trans a b c :
  bytes_cmp a b = Lt -> bytes_cmp b c = Lt -> bytes_cmp a c = Lt.
Proof.
  revert b c. induction a as [|x a IH]; intros [|y b] [|z c]; simpl; try done.
  destruct (Z.compare_spec (b2z x) (b2z y)), (Z.compare_spec (b2z y) (b2z z)),
    (Z.compare_spec (b2z x) (b2z z)); try done; try lia; eauto.
Qed.

Lemma key_ltb_lt a b : key_ltb a b = true <-> (a < b)%key.
Proof. done. Qed.
Lemma key_leb_le a b : key_leb a b = true <-> (a <= b)%key.
Proof. done. Qed.

Lemma key_le_lteq a b : (a <= b)%key <-> (a < b)%key \/ a = b.
Proof.
  unfold key_le, key_lt, key_leb, key_ltb.
  destruct (bytes_cmp a b) eqn:E; split; try tauto.
  - intros _. right. by apply bytes_cmp_eq.
  - by intros [| ->]; [| rewrite bytes_cmp_refl in E].
Qed.

Lemma key_ltb_ge a b : key_ltb a b = false <-> (b <= a)%key.
Proof.
  unfold key_le, key_ltb, key_leb. rewrite (bytes_cmp_antisym a b).
  by destruct (bytes_cmp a b).
Qed.

Lemma key_leb_gt a b : key_leb a b = false <-> (b < a)%key.
Proof.
  unfold key_lt, key_ltb, key_leb. rewrite (bytes_cmp_antisym a b).
  by destruct (bytes_cmp a b).
Qed.

Lemma key_eqb_eq a b : key_eqb a b = true <-> a = b.
Proof.
  unfold key_eqb. destruct (bytes_cmp a b) eqn:E; split; try done.
  - intros _. by apply bytes_cmp_eq.
  - intros ->. by rewrite bytes_cmp_refl in E.
  - intros ->. by rewrite bytes_cmp_refl in E.
Qed.

Lemma key_eqb_neq a b : key_eqb a b = false <-> a <> b.
Proof. rewrite <- key_eqb_eq. by destruct (key_eqb a b). Qed.

Lemma key_eqb_refl a : key_eqb a a = true.
Proof. by apply key_eqb_eq. Qed.

Global Instance key_lt_strorder : StrictOrder key_lt.
Proof.
  split.
  - intros a. unfold complement, key_lt, key_ltb. by rewrite bytes_cmp_refl.
  - intros a b c. unfold key_lt, key_ltb.
    destruct (bytes_cmp a b) eqn:E1; try done.
    destruct (bytes_cmp b c) eqn:E2; try done.
    by rewrite (bytes_cmp_trans a b c).
Qed.

Lemma key_lt_total a b : (a < b)%key \/ a = b \/ (b < a)%key.
Proof.
  unfold key_lt, key_ltb. rewrite (bytes_cmp_antisym a b).
  destruct (bytes_cmp a b) eqn:E; auto using bytes_cmp_eq.
Qed.

(** The order packaged for the [order] decision procedure of the Standard
    Library. *)
Module KeyTO.
Definition t := bytes.
Definition eq := @Logic.eq bytes.
Definition lt := key_lt.
Definition le := key_le.
Definition eq_equiv : Equivalence eq := eq_equivalence.
Definition lt_strorder : StrictOrder lt := key_lt_strorder.
Definition lt_compat : Proper (eq ==> eq ==> iff) lt.
Proof. by intros ? ? -> ? ? ->. Qed.
Definition le_lteq := key_le_lteq.
Definition lt_total := key_lt_total.
End KeyTO.
Module KeyOrder := MakeOrderTac KeyTO KeyTO.

(** Turns every boolean key comparison into its proposition. *)
Ltac key_reflect :=
  repeat match goal with
  | H : context [negb (key_ltb ?a ?b) = true] |- _ => rewrite negb_true_iff in H
  | H : key_ltb _ _ = true |- _ => rewrite key_ltb_lt in H
  | H : key_ltb _ _ = false |- _ => rewrite key_ltb_ge in H
  | H : key_leb _ _ = true |- _ => rewrite key_leb_le in H
  | H : key_leb _ _ = false |- _ => rewrite key_leb_gt in H
  | H : key_eqb _ _ = true |- _ => rewrite key_eqb_eq in H
  | H : key_eqb _ _ = false |- _ => rewrite key_eqb_neq in H
  | |- key_ltb _ _ = true => rewrite key_ltb_lt
  | |- key_ltb _ _ = false => rewrite key_ltb_ge
  | |- key_leb _ _ = true => rewrite key_leb_le
  | |- key_leb _ _ = false => rewrite key_leb_gt
  | |- key_eqb _ _ = true => rewrite key_eqb_eq
  | |- key_eqb _ _ = false => rewrite key_eqb_neq
  end.

(** Solves goals that follow from the total order on keys. *)
Ltac key_order :=
  key_reflect;
  change key_lt with KeyTO.lt in *; change key_le with KeyTO.le in *;
  solve [KeyOrder.order | exfalso; KeyOrder.order].

Lemma key_ltb_spec a b : BoolSpec (a < b)%key (b <= a)%key (key_ltb a b).
Proof. destruct (key_ltb a b) eqn:E; constructor; by key_reflect. Qed.
Lemma key_leb_spec a b : BoolSpec (a <= b)%key (b < a)%key (key_leb a b).
Proof. destruct (key_leb a b) eqn:E; constructor; by key_reflect. Qed.
Lemma key_eqb_spec a b : BoolSpec (a = b) (a <> b) (key_eqb a b).
Proof. destruct (key_eqb a b) eqn:E; constructor; by key_reflect. Qed.

(** ** Lists *)

Lemma elem_of_concat {A} (x : A) (ls : list (list A)) : x ∈ concat ls <-> exists l, x ∈ l /\ l ∈ ls.
Proof.
  rewrite list_elem_of_In, in_concat. setoid_rewrite list_elem_of_In. split; intros (l & H1 & H2); by exists l.
Qed.

(** Lengths of encoded pieces: [len_simpl] rewrites with the database and
    leaves linear arithmetic. *)
Create HintDb hypha.
Create Rewrite HintDb hypha.
#[export] Hint Rewrite @length_app @length_cons @length_nil @length_fmap
  length_PutUint32 length_PutUint64 @length_take @length_drop : hypha.
#[export] Hint Resolve Uint32_range Uint64_range u64_range len_nonneg : hypha.

Ltac len_simpl := unfold len in *; autorewrite with hypha in *.
Ltac len_lia := len_simpl; lia.

Arguments slice : simpl never.
Arguments Uint32 : simpl never.
Arguments Uint64 : simpl never.
Arguments PutUint32 : simpl never.
Arguments PutUint64 : simpl never.
Arguments ReadFull : simpl never.
Arguments guard_err : simpl never.
Arguments le_Z : simpl never.
Arguments le_bytes : simpl never.

(** ** [sort.Search] *)

(** [for i < j { h := (i+j)/2; if !f(h) { i = h+1 } else { j = h } }] *)
Fixpoint Search_loop (fuel i j : nat) (f : nat -> bool) : nat :=
  match fuel with
  | O => i
  | S fuel =>
      if (i <? j)%nat then
        let h := ((i + j) / 2)%nat in
        if negb (f h) then Search_loop fuel (h + 1) j f else Search_loop fuel i h f
      else i
  end.

(** The interval shrinks at every step, so [n] steps are enough. *)
Definition Search (n : nat) (f : nat -> bool) : nat := Search_loop n 0 n f.

Lemma Search_loop_spec fuel i j n (f : nat -> bool) :
  (forall a b, (a <= b < n)%nat -> f a = true -> f b = true) ->
  (i <= j <= n)%nat -> (j - i <= fuel)%nat ->
  (forall a, (a < i)%nat -> f a = false) -> (forall a, (j <= a < n)%nat -> f a = true) ->
  let k := Search_loop fuel i j f in
  (k <= n)%nat /\ (forall a, (a < k)%nat -> f a = false) /\ (forall a, (k <= a < n)%nat -> f a = true).
Proof.
  intros Hm. revert i j. induction fuel as [|fuel IH]; intros i j Hij Hf Hlo Hhi.
  - simpl. split_and!; [lia | done |]. intros a Ha. apply Hhi. lia.
  - cbn [Search_loop]. destruct (Nat.ltb_spec i j).
    + pose proof (Nat.div_mod (i + j) 2 ltac:(lia)) as Hd.
      pose proof (Nat.mod_upper_bound (i + j) 2 ltac:(lia)).
      set (h := ((i + j) / 2)%nat) in *. cbv zeta. destruct (f h) eqn:E; cbn [negb].
      * apply IH; [lia | lia | done |]. intros a Ha. apply (Hm h); [lia | done].
      * apply IH; [lia | lia | | done]. intros a Ha. destruct (f a) eqn:Ea; [| done].
        rewrite (Hm a h) in E; [done | lia | done].
    + split_and!; [lia | done |]. intros a Ha. apply Hhi. lia.
Qed.

(** On a monotone predicate [sort.Search] returns the first index at which it
    holds, [n] when there is none. *)
Lemma Search_spec n (f : nat -> bool) :
  (forall a b, (a <= b < n)%nat -> f a = true -> f b = true) ->
  (Search n f <= n)%nat /\ (forall a, (a < Search n f)%nat -> f a = false) /\
  (forall a, (Search n f <= a < n)%nat -> f a = true).
Proof. intros Hm. apply Search_loop_spec; auto; lia. Qed.
