(* ===== verification/RecordCodec.v ===== *)
(** * Records and their binary encoding

    Models [internal/record]: the [Record] struct with its embedded [Entry]
    and batch tags, and the little-endian codec of [codec.go].  A Go [string]
    or [[]byte] is the list of its bytes (a nil slice and an empty slice are
    the same list).  The key and value byte writers of the code never fail on
    the [bytes.Buffer]s it uses, so [EncodeBinary] is a total function;
    [DecodeBinary] keeps every error of the source. *)

From S2P Require Import Prelude.

(** [record.BatchKind] is a [uint8] with four named values. *)
Definition BatchNone : Z := 0.
Definition BatchBegin : Z := 1.
Definition BatchOperation : Z := 2.
Definition BatchCommit : Z := 3.

Record Entry := mkEntry {
  Value : bytes;
  Deleted : bool;
}.

Record record := mkRecord {
  Key : bytes;
  Seq : Z;
  rEntry : Entry;
  BatchID : Z;
  BatchKind : Z;
}.

(** Reduces record projections only. *)
Ltac rec_simpl :=
  cbn [Key Seq rEntry BatchID BatchKind Value Deleted fst snd] in *.

Definition rValue (r : record) : bytes := Value (rEntry r).
Definition rDeleted (r : record) : bool := Deleted (rEntry r).

(** The zero value [Record{}]. *)
Definition zero_record : record := mkRecord [] 0 (mkEntry [] false) 0 BatchNone.

(** [rec.BatchID = id; rec.BatchKind = k]. *)
Definition set_batch (id k : Z) (r : record) : record :=
  mkRecord (Key r) (Seq r) (rEntry r) id k.

Global Instance Entry_eq_dec : EqDecision Entry.
Proof. solve_decision. Defined.
Global Instance record_eq_dec : EqDecision record.
Proof. solve_decision. Defined.

Definition FlagDeleted : Z := 1.
Definition HeaderSize : nat := 17.
Definition MaxKeySize : Z := 65536.
Definition MaxValueSize : Z := 67108864.

Definition EncodedSize (rec : record) : Z :=
  Z.of_nat HeaderSize + len (Key rec) + len (rValue rec).

Definition EncodeBinary (rec : record) : bytes :=
  PutUint32 (u32 (len (Key rec))) ++
  PutUint32 (u32 (len (rValue rec))) ++
  PutUint64 (Seq rec) ++
  [if rDeleted rec then z2b FlagDeleted else z2b 0] ++
  Key rec ++
  (if 0 <? len (rValue rec) then rValue rec else []).

Inductive decode_error : Type :=
| DecodeIO (e : io_error)
| UnknownFlags (flags : Z)
| KeyTooLong (n : Z)
| ValueTooLong (n : Z)
| PayloadTooShort (required remaining : Z).

(** [DecodeBinary(r)]; [hasLen] tells whether the reader implements [Len()],
    as [bytes.Reader] does. *)
Definition DecodeBinary (hasLen : bool) (r : bytes) : result decode_error (record * bytes) :=
  '(header, r) ← map_err DecodeIO (ReadFull HeaderSize r);
  let keyLen := Uint32 (slice 0 4 header) in
  let valueLen := Uint32 (slice 4 8 header) in
  let seq := Uint64 (slice 8 16 header) in
  let flags := le_Z (slice 16 17 header) in
  _ ← guard_err (negb (Z.ldiff flags FlagDeleted =? 0)) (UnknownFlags flags);
  _ ← guard_err (keyLen >? MaxKeySize) (KeyTooLong keyLen);
  _ ← guard_err (valueLen >? MaxValueSize) (ValueTooLong valueLen);
  _ ← guard_err (hasLen && (keyLen + valueLen >? len r))
        (PayloadTooShort (keyLen + valueLen) (len r));
  '(key, r) ← map_err DecodeIO (ReadFull (Z.to_nat keyLen) r);
  '(value, r) ← map_err DecodeIO (ReadFull (Z.to_nat valueLen) r);
  Ok (mkRecord key seq (mkEntry value (negb (Z.land flags FlagDeleted =? 0))) 0 BatchNone, r).

(** A record the engine accepts: sequence and batch identifier are [uint64]s
    and the sizes are within the codec's limits. *)
Definition wf_record (r : record) : Prop :=
  len (Key r) <= MaxKeySize /\ len (rValue r) <= MaxValueSize /\
  is_u64 (Seq r) /\ is_u64 (BatchID r) /\ BatchNone <= BatchKind r <= BatchCommit.

(** What survives an encoding: the batch tags are not part of it. *)
Definition strip_batch (r : record) : record := set_batch 0 BatchNone r.

Lemma wf_key_u32 r : wf_record r -> is_u32 (len (Key r)).
Proof.
  intros (H & _). pose proof (len_nonneg (Key r)).
  unfold is_u32, u32_max, MaxKeySize in *. lia.
Qed.

Lemma wf_value_u32 r : wf_record r -> is_u32 (len (rValue r)).
Proof.
  intros (_ & H & _). pose proof (len_nonneg (rValue r)).
  unfold is_u32, u32_max, MaxValueSize in *. lia.
Qed.

(** The header of an encoded record, its 17 bytes. *)
Definition record_header (kl vl seq : Z) (flag : byte) : bytes :=
  PutUint32 kl ++ PutUint32 vl ++ PutUint64 seq ++ [flag].

Lemma length_record_header kl vl seq flag :
  length (record_header kl vl seq flag) = HeaderSize.
Proof.
  unfold record_header. rewrite !length_app, !length_PutUint32, length_PutUint64. done.
Qed.

Lemma record_header_fields kl vl seq flag rest :
  is_u32 kl -> is_u32 vl -> is_u64 seq ->
  let h := record_header kl vl seq flag ++ rest in
  Uint32 (slice 0 4 h) = kl /\ Uint32 (slice 4 8 h) = vl /\
  Uint64 (slice 8 16 h) = seq /\ slice 16 17 h = [flag].
Proof.
  intros Hk Hv Hs. unfold record_header, slice. cbn zeta.
  rewrite <- !app_assoc. simpl Nat.sub.
  pose proof (length_PutUint32 kl) as L1. pose proof (length_PutUint32 vl) as L2.
  pose proof (length_PutUint64 seq) as L3.
  split_and!.
  - rewrite drop_0, take_app_length' by done.
    rewrite <- (app_nil_r (PutUint32 kl)). by apply Uint32_PutUint32.
  - rewrite drop_app_length', take_app_length' by done.
    rewrite <- (app_nil_r (PutUint32 vl)). by apply Uint32_PutUint32.
  - rewrite app_assoc, drop_app_length', take_app_length' by (rewrite ?length_app; lia).
    rewrite <- (app_nil_r (PutUint64 seq)). by apply Uint64_PutUint64.
  - rewrite 2!app_assoc, drop_app_length' by (rewrite !length_app; lia). done.
Qed.

Lemma guarded_value (v : bytes) : (if 0 <? len v then v else []) = v.
Proof. destruct v; [done |]. unfold len. by destruct (Z.ltb_spec 0 (Z.of_nat (length (b :: v)))); [| simpl in *; lia]. Qed.

Lemma EncodeBinary_eq r :
  EncodeBinary r =
  record_header (u32 (len (Key r))) (u32 (len (rValue r))) (Seq r)
    (z2b (if rDeleted r then 1 else 0)) ++ Key r ++ rValue r.
Proof.
  unfold EncodeBinary, record_header. rewrite guarded_value, <- !app_assoc.
  by destruct (rDeleted r).
Qed.

(** The computed size is the size written. *)
Lemma EncodedSize_length r : EncodedSize r = len (EncodeBinary r).
Proof.
  rewrite EncodeBinary_eq. unfold EncodedSize. rewrite !len_app.
  unfold len at 3. rewrite length_record_header. lia.
Qed.

(** Decoding once the 17 header bytes are split off. *)
Lemma DecodeBinary_header hasLen kl vl seq flag payload :
  is_u32 kl -> is_u32 vl -> is_u64 seq -> Z.ldiff (b2z flag) FlagDeleted = 0 ->
  kl <= MaxKeySize -> vl <= MaxValueSize ->
  kl + vl <= len payload ->
  DecodeBinary hasLen (record_header kl vl seq flag ++ payload) =
  Ok (mkRecord (take (Z.to_nat kl) payload) seq
        (mkEntry (take (Z.to_nat vl) (drop (Z.to_nat kl) payload))
           (negb (Z.land (b2z flag) FlagDeleted =? 0))) 0 BatchNone,
      drop (Z.to_nat vl) (drop (Z.to_nat kl) payload)).
Proof.
  intros Hk Hv Hs Hf Hkm Hvm Hlen. unfold DecodeBinary.
  rewrite ReadFull_app by apply length_record_header. simpl.
  pose proof (record_header_fields kl vl seq flag [] Hk Hv Hs) as Hh.
  rewrite app_nil_r in Hh. destruct Hh as (E1 & E2 & E3 & E4).
  rewrite E1, E2, E3, E4. clear E1 E2 E3 E4.
  replace (le_Z [flag]) with (b2z flag) by (unfold le_Z; lia). rewrite Hf.
  assert (Hl : len payload = Z.of_nat (length payload)) by done.
  unfold is_u32 in *.
  rewrite !guard_err_false by (destruct hasLen; simpl; lia).
  simpl. rewrite <- (take_drop (Z.to_nat kl) payload) at 1.
  rewrite ReadFull_app by (rewrite length_take; lia). simpl.
  rewrite <- (take_drop (Z.to_nat vl) (drop (Z.to_nat kl) payload)) at 1.
  rewrite ReadFull_app by (rewrite length_take, length_drop; lia). done.
Qed.

(** Encoding then decoding gives back the record without its batch tags, and
    leaves the rest of the input unread. *)
Lemma DecodeBinary_EncodeBinary hasLen r rest :
  wf_record r -> DecodeBinary hasLen (EncodeBinary r ++ rest) = Ok (strip_batch r, rest).
Proof.
  intros Hwf. pose proof (wf_key_u32 _ Hwf). pose proof (wf_value_u32 _ Hwf).
  destruct Hwf as (Hkm & Hvm & Hs & _).
  rewrite EncodeBinary_eq, !u32_id, <- !app_assoc by done.
  assert (Hk : Z.to_nat (len (Key r)) = length (Key r)) by (unfold len; lia).
  assert (Hv : Z.to_nat (len (rValue r)) = length (rValue r)) by (unfold len; lia).
  rewrite DecodeBinary_header; try done.
  - rewrite Hk, Hv, drop_app_length, !take_app_length, drop_app_length.
    destruct r as [k s [v d] id bk]. unfold strip_batch, set_batch, rDeleted, rValue. simpl.
    by destruct d.
  - by destruct (rDeleted r).
  - rewrite !len_app. pose proof (len_nonneg rest). lia.
Qed.

Lemma flag_canonical b :
  Z.ldiff (b2z b) FlagDeleted = 0 ->
  b = z2b (if negb (Z.land (b2z b) FlagDeleted =? 0) then 1 else 0).
Proof. destruct b; vm_compute; done. Qed.

Lemma header_rebuild h :
  length h = HeaderSize ->
  exists flag, le_Z (slice 16 17 h) = b2z flag /\
    h = record_header (Uint32 (slice 0 4 h)) (Uint32 (slice 4 8 h)) (Uint64 (slice 8 16 h)) flag.
Proof.
  intros Hlen. unfold HeaderSize in Hlen.
  do 17 (destruct h as [|? h]; [done |]). destruct h; [| done].
  match goal with |- context [slice 16 17 ?l] =>
    let x := eval cbv in (nth 16 l x00) in exists x end.
  split; [unfold slice; simpl; unfold le_Z; lia |]. unfold record_header.
  rewrite !PutUint32_Uint32, PutUint64_Uint64 by (cbv; lia). done.
Qed.

(** Everything that decodes is the encoding of the decoded record: the format
    is canonical, and a decoded record is within the limits. *)
Lemma DecodeBinary_sound hasLen bs r rest :
  DecodeBinary hasLen bs = Ok (r, rest) ->
  bs = EncodeBinary r ++ rest /\ wf_record r /\ strip_batch r = r.
Proof.
  unfold DecodeBinary. intros H.
  apply bind_Ok_inv in H as ([h r0] & Hh & H).
  destruct (ReadFull HeaderSize bs) as [[h' r0']|] eqn:E; [| done].
  injection Hh as -> ->. apply ReadFull_Ok in E as [-> Hlen].
  destruct (header_rebuild h Hlen) as (flag & Hflag & Hrb).
  pose proof (Uint32_range (slice 0 4 h)) as Rk. pose proof (Uint32_range (slice 4 8 h)) as Rv.
  pose proof (Uint64_range (slice 8 16 h)) as Rs.
  cbv zeta in H. rewrite Hflag in H.
  set (kl := Uint32 (slice 0 4 h)) in *. set (vl := Uint32 (slice 4 8 h)) in *.
  set (seq := Uint64 (slice 8 16 h)) in *. clearbody kl vl seq.
  apply bind_Ok_inv in H as (? & Hg1%guard_err_Ok & H).
  apply bind_Ok_inv in H as (? & Hg2%guard_err_Ok & H).
  apply bind_Ok_inv in H as (? & Hg3%guard_err_Ok & H).
  apply bind_Ok_inv in H as (? & _ & H).
  apply bind_Ok_inv in H as ([k r1] & Hk & H).
  destruct (ReadFull (Z.to_nat kl) r0) as [[]|] eqn:E1; [| done]. injection Hk as -> ->.
  apply bind_Ok_inv in H as ([v r2] & Hv & H).
  destruct (ReadFull (Z.to_nat vl) r1) as [[]|] eqn:E2; [| done]. injection Hv as -> ->.
  injection H as <- <-. apply ReadFull_Ok in E1 as [-> L1], E2 as [-> L2].
  unfold is_u32 in *. apply negb_false_iff, Z.eqb_eq in Hg1.
  assert (Lk : len k = kl) by (unfold len; lia). assert (Lv : len v = vl) by (unfold len; lia).
  split_and!; [| | done].
  - rewrite EncodeBinary_eq. unfold rValue, rDeleted. rec_simpl.
    rewrite Lk, Lv, !u32_id, <- flag_canonical, <- Hrb, <- !app_assoc by done. done.
  - unfold wf_record, rValue, is_u64, BatchNone, BatchCommit, u64_max. simpl. rewrite Lk, Lv.
    unfold is_u64, u64_max in *. lia.
Qed.

(** C40: the record encoding is canonical.  Decoding succeeds with a record and
    some unread input exactly when the input is the encoding of that record
    followed by the unread part, and the record is within the size limits and
    carries no batch tags; this holds for readers with and without [Len]. *)
Theorem record_canonical hasLen bs r rest :
  DecodeBinary hasLen bs = Ok (r, rest) <->
  bs = EncodeBinary r ++ rest /\ wf_record r /\ strip_batch r = r.
Proof.
  split; [apply DecodeBinary_sound |]. intros (-> & Hwf & Hs).
  by rewrite DecodeBinary_EncodeBinary, Hs.
Qed.

(** A truncated record is rejected: no strict prefix of an encoding
    decodes. *)
Theorem record_truncated_rejected hasLen r p q :
  wf_record r -> EncodeBinary r = p ++ q -> q <> [] ->
  exists e, DecodeBinary hasLen p = Err e.
Proof.
  intros Hwf Heq Hq. destruct (DecodeBinary hasLen p) as [[r' rest']|e] eqn:E; [| eauto].
  apply DecodeBinary_sound in E as (-> & Hwf' & _).
  pose proof (DecodeBinary_EncodeBinary hasLen r [] Hwf) as H1.
  rewrite app_nil_r, Heq, <- app_assoc in H1.
  rewrite DecodeBinary_EncodeBinary in H1 by done. 
  assert (Hn : rest' ++ q = []) by congruence. apply app_eq_nil in Hn as [_ ?]. done.
Qed.

Lemma record_truncated_rejected_witness :
  let r := mkRecord [x61] 7 (mkEntry [x01; x02] false) 0 BatchNone in
  exists e, DecodeBinary false (take 19 (EncodeBinary r)) = Err e.
Proof.
  intros r. apply (record_truncated_rejected false r _ (drop 19 (EncodeBinary r))).
  - repeat split; vm_compute; congruence.
  - symmetry. apply take_drop.
  - vm_compute. congruence.
Defined.
