(* ===== verification/Crc32.v ===== *)
(** * CRC-32C

    Models the part of Go's [hash/crc32] that the WAL, the manifest and the
    SSTable blocks use: the Castagnoli table, [crc32.Update] and the running
    digest [crc32.New(table)] with its [Write]s.  The detection results hold
    for any data length: a checksum distinguishes two inputs that differ in
    exactly one byte. *)

From S2P Require Import Prelude.

Definition castagnoli : Z := 0x82F63B78.

(** One entry of [crc32.MakeTable(crc32.Castagnoli)]. *)
Definition crc_shift (c : Z) : Z :=
  if Z.testbit c 0 then Z.lxor (Z.shiftr c 1) castagnoli else Z.shiftr c 1.
Definition crc_table (i : Z) : Z := Nat.iter 8 crc_shift i.

Definition crc_mask : Z := 4294967295.

(** [crc = tab[byte(crc)^v] ^ (crc >> 8)] *)
Definition crc_step (c : Z) (v : byte) : Z :=
  Z.lxor (crc_table (Z.lxor (Z.land c 255) (b2z v))) (Z.shiftr c 8).

(** [crc32.Update(crc, table, p)]. *)
Definition crc_Update (crc : Z) (p : bytes) : Z :=
  Z.lxor (fold_left crc_step p (Z.lxor crc crc_mask)) crc_mask.

(** [crc32.Checksum(data, table)]. *)
Definition crc_Checksum (data : bytes) : Z := crc_Update 0 data.

Example crc_check_value :
  crc_Checksum (map z2b [49; 50; 51; 52; 53; 54; 55; 56; 57]) = 0xE3069283.
Proof. vm_compute. reflexivity. Qed.

Definition crc_range (c : Z) : Prop := 0 <= c < 4294967296.

Lemma crc_range_bits c :
  crc_range c <-> 0 <= c /\ forall i, 32 <= i -> Z.testbit c i = false.
Proof.
  unfold crc_range. split.
  - intros [H0 H1]. split; [done |]. intros i Hi.
    destruct (Z.eq_dec c 0) as [-> | Hc]; [apply Z.testbit_0_l |].
    apply Z.bits_above_log2; [done |].
    assert (Z.log2 c < 32) by (apply Z.log2_lt_pow2; lia). lia.
  - intros [H0 H1]. split; [done |].
    destruct (Z.eq_dec c 0) as [-> | Hc]; [done |].
    change 4294967296 with (2 ^ 32). apply Z.log2_lt_pow2; [lia |].
    destruct (Z.le_gt_cases 32 (Z.log2 c)) as [Hl | ?]; [| done].
    specialize (H1 _ Hl). rewrite Z.bit_log2 in H1 by lia. done.
Qed.

Lemma crc_range_lxor a b : crc_range a -> crc_range b -> crc_range (Z.lxor a b).
Proof.
  rewrite !crc_range_bits. intros [Ha Hb] [Hc Hd]. split.
  - apply Z.lxor_nonneg. tauto.
  - intros i Hi. rewrite Z.lxor_spec, Hb, Hd by done. done.
Qed.

Lemma crc_range_shiftr a n : 0 <= n -> crc_range a -> crc_range (Z.shiftr a n).
Proof.
  intros Hn. rewrite !crc_range_bits. intros [Ha Hb]. split.
  - by apply Z.shiftr_nonneg.
  - intros i Hi. rewrite Z.shiftr_spec by lia. apply Hb. lia.
Qed.

(** The 256 table indices, as a list to check a fact about all of them. *)
Definition all_indices : list Z := map Z.of_nat (seq 0 256).

Lemma all_indices_spec i : 0 <= i < 256 -> i ∈ all_indices.
Proof.
  intros Hi. unfold all_indices. apply list_elem_of_fmap.
  exists (Z.to_nat i). split; [lia |]. apply elem_of_seq. lia.
Qed.

Lemma forallb_indices (p : Z -> bool) i :
  forallb p all_indices = true -> 0 <= i < 256 -> p i = true.
Proof.
  rewrite forallb_forall. intros H Hi.
  apply H, list_elem_of_In, all_indices_spec, Hi.
Qed.

Lemma crc_table_range i : 0 <= i < 256 -> crc_range (crc_table i).
Proof.
  intros Hi.
  assert (H : (0 <=? crc_table i) && (crc_table i <? 4294967296) = true).
  { apply (forallb_indices (fun i => (0 <=? crc_table i) && (crc_table i <? 4294967296))); [| done].
    vm_compute. reflexivity. }
  unfold crc_range. lia.
Qed.

(** The top byte of a table entry determines its index: the 256 top bytes are
    pairwise distinct. *)
Definition crc_tops : list Z := (fun i => Z.shiftr (crc_table i) 24) <$> all_indices.

Lemma crc_tops_NoDup : NoDup crc_tops.
Proof. apply (bool_decide_unpack (NoDup crc_tops)). vm_compute. exact I. Qed.

Lemma all_indices_lookup i : 0 <= i < 256 -> all_indices !! Z.to_nat i = Some i.
Proof.
  intros Hi. unfold all_indices. rewrite list_lookup_fmap, lookup_seq_lt by lia.
  simpl. f_equal. lia.
Qed.

Lemma crc_top_inj i j :
  0 <= i < 256 -> 0 <= j < 256 ->
  Z.shiftr (crc_table i) 24 = Z.shiftr (crc_table j) 24 -> i = j.
Proof.
  intros Hi Hj He.
  assert (Z.to_nat i = Z.to_nat j); [| lia].
  apply (NoDup_lookup crc_tops _ _ (Z.shiftr (crc_table i) 24)); [apply crc_tops_NoDup | |].
  - unfold crc_tops. by rewrite list_lookup_fmap, all_indices_lookup.
  - unfold crc_tops. rewrite list_lookup_fmap, all_indices_lookup by done. simpl. by rewrite He.
Qed.

Lemma crc_index_range c v : 0 <= Z.lxor (Z.land c 255) (b2z v) < 256.
Proof.
  pose proof (b2z_range v) as Hv.
  assert (Hc : 0 <= Z.land c 255 < 256).
  { change 255 with (Z.ones 8). rewrite Z.land_ones by lia. apply Z.mod_pos_bound. lia. }
  split; [apply Z.lxor_nonneg; lia |].
  destruct (Z.eq_dec (Z.lxor (Z.land c 255) (b2z v)) 0) as [-> | Hne]; [lia |].
  change 256 with (2 ^ 8). apply Z.log2_lt_pow2.
  - assert (0 <= Z.lxor (Z.land c 255) (b2z v)) by (apply Z.lxor_nonneg; lia). lia.
  - eapply Z.le_lt_trans; [apply Z.log2_lxor; lia |].
    assert (forall x, 0 <= x < 256 -> Z.log2 x < 8).
    { intros x Hx. destruct (Z.eq_dec x 0) as [-> | ?]; [simpl; lia |].
      apply Z.log2_lt_pow2; lia. }
    apply Z.max_lub_lt; auto.
Qed.

Lemma crc_step_range c v : crc_range c -> crc_range (crc_step c v).
Proof.
  intros Hc. apply crc_range_lxor.
  - apply crc_table_range, crc_index_range.
  - by apply crc_range_shiftr.
Qed.

Lemma crc_step_top c v :
  crc_range c ->
  Z.shiftr (crc_step c v) 24 = Z.shiftr (crc_table (Z.lxor (Z.land c 255) (b2z v))) 24.
Proof.
  intros Hc. unfold crc_step. rewrite Z.shiftr_lxor, Z.shiftr_shiftr by lia.
  replace (Z.shiftr c (8 + 24)) with 0; [apply Z.lxor_0_r |].
  rewrite Z.shiftr_div_pow2 by lia. unfold crc_range in Hc.
  symmetry. apply Z.div_small. simpl. lia.
Qed.

Lemma crc_step_index c1 v1 c2 v2 :
  crc_range c1 -> crc_range c2 -> crc_step c1 v1 = crc_step c2 v2 ->
  Z.lxor (Z.land c1 255) (b2z v1) = Z.lxor (Z.land c2 255) (b2z v2) /\
  Z.shiftr c1 8 = Z.shiftr c2 8.
Proof.
  intros H1 H2 He.
  pose proof (crc_step_top c1 v1 H1) as T1. pose proof (crc_step_top c2 v2 H2) as T2.
  rewrite He in T1. rewrite T1 in T2.
  assert (Hi : Z.lxor (Z.land c1 255) (b2z v1) = Z.lxor (Z.land c2 255) (b2z v2)).
  { apply crc_top_inj; auto using crc_index_range. }
  split; [done |]. unfold crc_step in He. rewrite Hi in He.
  apply (f_equal (Z.lxor (crc_table (Z.lxor (Z.land c2 255) (b2z v2))))) in He.
  by rewrite <- !Z.lxor_assoc, Z.lxor_nilpotent, !Z.lxor_0_l in He.
Qed.

(** For a fixed input byte the state transition is injective. *)
Lemma crc_step_inj_state c1 c2 v :
  crc_range c1 -> crc_range c2 -> crc_step c1 v = crc_step c2 v -> c1 = c2.
Proof.
  intros H1 H2 He. destruct (crc_step_index _ _ _ _ H1 H2 He) as [Hi Hs].
  rewrite !(Z.lxor_comm _ (b2z v)) in Hi.
  apply (f_equal (Z.lxor (b2z v))) in Hi.
  rewrite <- !Z.lxor_assoc, Z.lxor_nilpotent, !Z.lxor_0_l in Hi.
  change 255 with (Z.ones 8) in Hi. rewrite !Z.land_ones in Hi by lia.
  rewrite !Z.shiftr_div_pow2 in Hs by lia.
  rewrite (Z.div_mod c1 (2 ^ 8)), (Z.div_mod c2 (2 ^ 8)) by lia. congruence.
Qed.

(** For a fixed state two different input bytes lead to different states. *)
Lemma crc_step_inj_byte c v1 v2 :
  crc_range c -> crc_step c v1 = crc_step c v2 -> v1 = v2.
Proof.
  intros Hc He. destruct (crc_step_index _ _ _ _ Hc Hc He) as [Hi _].
  apply (f_equal (Z.lxor (Z.land c 255))) in Hi.
  rewrite <- !Z.lxor_assoc, Z.lxor_nilpotent, !Z.lxor_0_l in Hi.
  by apply b2z_inj.
Qed.

Lemma crc_fold_range p c : crc_range c -> crc_range (fold_left crc_step p c).
Proof. revert c. induction p; simpl; auto using crc_step_range. Qed.

Lemma crc_fold_inj p c1 c2 :
  crc_range c1 -> crc_range c2 ->
  fold_left crc_step p c1 = fold_left crc_step p c2 -> c1 = c2.
Proof.
  revert c1 c2. induction p as [|v p IH]; simpl; intros c1 c2 H1 H2 He; [done |].
  apply (crc_step_inj_state c1 c2 v H1 H2).
  apply IH; [by apply crc_step_range .. | exact He].
Qed.

Lemma crc_Update_range c p : crc_range c -> crc_range (crc_Update c p).
Proof.
  intros Hc. assert (crc_range crc_mask) by (unfold crc_range, crc_mask; lia).
  apply crc_range_lxor; [apply crc_fold_range, crc_range_lxor |]; done.
Qed.

Lemma crc_Checksum_u32 p : is_u32 (crc_Checksum p).
Proof.
  assert (crc_range (crc_Checksum p)) as H by (apply crc_Update_range; unfold crc_range; lia).
  unfold crc_range, is_u32, u32_max in *. lia.
Qed.

(** Writing two pieces into a digest is writing their concatenation. *)
Lemma crc_Update_app c a b : crc_Update (crc_Update c a) b = crc_Update c (a ++ b).
Proof.
  unfold crc_Update. rewrite fold_left_app. f_equal. f_equal.
  by rewrite Z.lxor_assoc, Z.lxor_nilpotent, Z.lxor_0_r.
Qed.

Lemma crc_Update_inj_byte c a x y b :
  crc_range c -> crc_Update c (a ++ x :: b) = crc_Update c (a ++ y :: b) -> x = y.
Proof.
  intros Hc. unfold crc_Update. rewrite !fold_left_app. simpl. intros He.
  assert (crc_range crc_mask) as Hm by (unfold crc_range, crc_mask; lia).
  assert (Hs : crc_range (fold_left crc_step a (Z.lxor c crc_mask)))
    by (apply crc_fold_range, crc_range_lxor; done).
  rewrite !(Z.lxor_comm _ crc_mask) in He.
  apply (f_equal (Z.lxor crc_mask)) in He.
  rewrite <- !Z.lxor_assoc, Z.lxor_nilpotent, !Z.lxor_0_l in He.
  rewrite !(Z.lxor_comm crc_mask) in He.
  apply crc_fold_inj in He; [| by apply crc_step_range ..].
  exact (crc_step_inj_byte _ _ _ Hs He).
Qed.

(** CRC-32C detects the corruption of any single byte. *)
Lemma crc_Checksum_detects a x y b :
  x <> y -> crc_Checksum (a ++ x :: b) <> crc_Checksum (a ++ y :: b).
Proof.
  intros Hne He. apply Hne. eapply crc_Update_inj_byte; [| exact He].
  unfold crc_range. lia.
Qed.

(** ** A checksum stored inside what it protects

    The on-disk formats put the checksum between a fixed-size prefix and the
    rest, and compute it over both. *)
Definition enveloped (n : nat) (data : bytes) : Prop :=
  exists pre post, length pre = n /\
    data = pre ++ PutUint32 (crc_Checksum (pre ++ post)) ++ post.

(** Where a single difference between two concatenations can be. *)
Lemma app_diff_split {A} (u1 u2 v1 v2 a b : list A) x y :
  length u1 = length u2 -> u1 ++ v1 = a ++ x :: b -> u2 ++ v2 = a ++ y :: b ->
  (u1 = u2 /\ exists a', v1 = a' ++ x :: b /\ v2 = a' ++ y :: b) \/
  (v1 = v2 /\ exists b', u1 = a ++ x :: b' /\ u2 = a ++ y :: b').
Proof.
  revert u2 a. induction u1 as [|c u1 IH]; intros [|d u2] a Hl E1 E2; try done; simpl in *.
  - left. split; [done |]. exists a. by rewrite <- E1, <- E2.
  - injection Hl as Hl. destruct a as [|e a]; simpl in *.
    + injection E1 as -> <-. injection E2 as -> E2. right.
      apply app_inj_1 in E2 as [-> ->]; [| done]. eauto.
    + injection E1 as -> E1. injection E2 as -> E2.
      destruct (IH u2 a Hl E1 E2) as [(-> & H) | (-> & b' & -> & ->)]; [by left | right; eauto].
Qed.

(** Two such strings that differ in at most one byte are equal. *)
Lemma enveloped_detects n a x y b :
  enveloped n (a ++ x :: b) -> enveloped n (a ++ y :: b) -> x = y.
Proof.
  intros (p1 & q1 & L1 & E1) (p2 & q2 & L2 & E2). symmetry in E1, E2.
  destruct (decide (x = y)) as [| Hxy]; [done | exfalso].
  assert (Hcrc : PutUint32 (crc_Checksum (p1 ++ q1)) = PutUint32 (crc_Checksum (p2 ++ q2)) ->
    crc_Checksum (p1 ++ q1) = crc_Checksum (p2 ++ q2)).
  { intros H. rewrite <- (Uint32_PutUint32 _ [] (crc_Checksum_u32 (p1 ++ q1))).
    rewrite <- (Uint32_PutUint32 _ [] (crc_Checksum_u32 (p2 ++ q2))). by rewrite H. }
  destruct (app_diff_split _ _ _ _ _ _ _ _ (eq_trans L1 (eq_sym L2)) E1 E2)
    as [(-> & a' & F1 & F2) | (F & b' & -> & ->)].
  - assert (Hl : forall s t, length (PutUint32 s) = length (PutUint32 t))
      by (intros; by rewrite !length_PutUint32).
    destruct (app_diff_split _ _ _ _ _ _ _ _ (Hl _ _) F1 F2)
      as [(F & a'' & -> & ->) | (-> & b' & F & F')].
    + apply Hcrc in F. rewrite !app_assoc in F. by apply crc_Checksum_detects in F.
    + rewrite F in F'. apply app_inv_head in F'. congruence.
  - apply app_inj_1 in F as [F ->]; [| by rewrite !length_PutUint32].
    apply Hcrc in F. rewrite <- !app_assoc in F. simpl in F.
    by apply crc_Checksum_detects in F.
Qed.
