(* ===== verification/Float64.v ===== *)
(** * IEEE binary64 arithmetic

    The few [float64] operations the sizing code uses, on the Standard
    Library's executable specification of IEEE 754 with round to nearest even
    ([prec = 53], [emax = 1024]). *)

From Stdlib Require Export SpecFloat.
From S2P Require Import Prelude.

Abbreviation float64 := spec_float.

Definition f_mul (a b : float64) : float64 := SFmul 53 1024 a b.
Definition f_div (a b : float64) : float64 := SFdiv 53 1024 a b.
Definition f_neg (a : float64) : float64 := SFopp a.
Definition f_leb (a b : float64) : bool := SFleb a b.
Definition f_ltb (a b : float64) : bool := SFltb a b.

(** [float64(z)] *)
Definition f_of_Z (z : Z) : float64 := binary_normalize 53 1024 z 0 false.

(** [math.Ceil(f)] as an integer; [None] for infinities and NaN. *)
Definition f_ceil (f : float64) : option Z :=
  match f with
  | S754_zero _ => Some 0
  | S754_finite s m e =>
      let v := if s then Z.neg m else Z.pos m in
      Some (if 0 <=? e then v * 2 ^ e else - ((- v) / 2 ^ (- e)))
  | _ => None
  end.

(** [math.Round(f)]: half away from zero. *)
Definition f_round (f : float64) : option Z :=
  match f with
  | S754_zero _ => Some 0
  | S754_finite s m e =>
      let a := if 0 <=? e then Z.pos m * 2 ^ e else (2 * Z.pos m + 2 ^ (- e)) / (2 * 2 ^ (- e)) in
      Some (if s then - a else a)
  | _ => None
  end.

(** [math.Ln2] and the constant expression [math.Ln2 * math.Ln2], which the
    compiler evaluates exactly before rounding. *)
Definition f_Ln2 : float64 := S754_finite false 0x162e42fefa39ef (-53).
Definition f_Ln2_sq : float64 := S754_finite false 0x1ebfbdff82c58f (-54).
Definition f_zero : float64 := S754_zero false.
Definition f_one : float64 := f_of_Z 1.

(** Integers of at most 53 bits are represented exactly. *)
Example f_of_Z_round_trip :
  (f_ceil <$> (f_of_Z <$> [0; 1; 10; 4096; -7; 9007199254740991])) =
  Some <$> [0; 1; 10; 4096; -7; 9007199254740991].
Proof. reflexivity. Qed.
