(* ===== verification/Versions.v ===== *)
(** * Multi-version records: the abstract view of every table

    Every component that stores records - the skip list behind a memtable, an
    SSTable, a merge of several of them - keeps them in the order of
    [skiplist.less]: key ascending, sequence number descending.  This file
    holds that order, the sorted-list view that the components refine, and
    the abstract read [newest]: the version of a key with the greatest
    sequence number not above a bound. *)

From S2P Require Export Prelude RecordCodec.

(** [less(a, b)] of [skiplist.go]. *)
Definition less (a b : record) : bool :=
  if negb (key_eqb (Key a) (Key b)) then key_ltb (Key a) (Key b)
  else Seq b <? Seq a.

Definition rec_lt (a b : record) : Prop := less a b = true.

Lemma rec_lt_iff a b :
  rec_lt a b <-> (Key a < Key b)%key \/ Key a = Key b /\ Seq b < Seq a.
Proof.
  unfold rec_lt, less. destruct (key_eqb_spec (Key a) (Key b)) as [He | Hne]; simpl.
  - rewrite Z.ltb_lt. split; [tauto |]. intros [H | [_ H]]; [| done].
    rewrite He in H. key_order.
  - split; [by left |]. intros [H | [H _]]; [done | congruence].
Qed.

Lemma less_false_iff a b :
  less a b = false <-> (Key b < Key a)%key \/ Key a = Key b /\ Seq a <= Seq b.
Proof.
  rewrite <- not_true_iff_false. fold (rec_lt a b). rewrite rec_lt_iff.
  destruct (key_lt_total (Key a) (Key b)) as [H | [H | H]].
  - split; [intros Hn; tauto |]. intros [H' | [H' _]] _; key_order.
  - rewrite H. split.
    + intros Hn. right. split; [done |]. destruct (Z.le_gt_cases (Seq a) (Seq b)); [done |].
      exfalso. apply Hn. right. split; [done | lia].
    + intros [H' | [_ H']] [H'' | [_ H'']]; try lia; key_order.
  - split; [tauto |]. intros _ [H' | [H' _]]; key_order.
Qed.

Global Instance rec_lt_strorder : StrictOrder rec_lt.
Proof.
  split.
  - intros a H. apply rec_lt_iff in H as [H | [_ H]]; [key_order | lia].
  - intros a b c H1 H2. apply rec_lt_iff in H1, H2. apply rec_lt_iff.
    destruct H1 as [H1 | [E1 H1]], H2 as [H2 | [E2 H2]].
    + left. key_order.
    + left. key_order.
    + left. key_order.
    + right. split; [congruence | lia].
Qed.

Lemma rec_lt_total a b :
  rec_lt a b \/ (Key a = Key b /\ Seq a = Seq b) \/ rec_lt b a.
Proof.
  rewrite !rec_lt_iff. destruct (key_lt_total (Key a) (Key b)) as [H | [H | H]]; [tauto | | tauto].
  destruct (Z.lt_total (Seq a) (Seq b)) as [? | [? | ?]]; auto 6.
Qed.

(** [less] depends on the key and the sequence number only. *)
Lemma less_ext a a' b b' :
  Key a = Key a' -> Seq a = Seq a' -> Key b = Key b' -> Seq b = Seq b' ->
  less a b = less a' b'.
Proof. unfold less. by intros -> -> -> ->. Qed.

(** ** Sorted record lists *)

Abbreviation sorted := (StronglySorted rec_lt).

Section strongly_sorted.
Context {A : Type} (R : A -> A -> Prop).

Lemma StronglySorted_cons_iff a (l : list A) :
  StronglySorted R (a :: l) <-> StronglySorted R l /\ (forall y, y ∈ l -> R a y).
Proof.
  split.
  - intros H. inversion H as [| ? ? Hs Hf]; subst. rewrite Forall_forall in Hf. done.
  - intros [H1 H2]. constructor; [done |]. by apply Forall_forall.
Qed.

Lemma StronglySorted_filter (P : A -> Prop) `{!forall x, Decision (P x)} (l : list A) :
  StronglySorted R l -> StronglySorted R (filter P l).
Proof.
  induction 1 as [|a l Hs IH Hf]; [constructor |]. rewrite filter_cons.
  destruct (decide (P a)); [| done]. constructor; [done |].
  rewrite Forall_forall in *. intros x [_ Hx]%list_elem_of_filter. auto.
Qed.
End strongly_sorted.

(** ** The abstract read *)

(** A version of [key] visible at [maxSeq]. *)
Definition visible (key : bytes) (maxSeq : Z) (r : record) : Prop :=
  Key r = key /\ Seq r <= maxSeq.
Global Instance visible_dec key maxSeq r : Decision (visible key maxSeq r).
Proof. unfold visible. apply _. Defined.

(** Keep the candidate with the greater sequence number; the earlier one wins
    a tie. *)
Definition consider (best : option record) (r : record) : option record :=
  match best with
  | None => Some r
  | Some b => if Seq b <? Seq r then Some r else Some b
  end.

Definition newest (key : bytes) (maxSeq : Z) (l : list record) : option record :=
  foldl consider None (filter (visible key maxSeq) l).

(** [r] is a version of greatest sequence number among the visible ones. *)
Definition is_newest (key : bytes) (maxSeq : Z) (l : list record) (r : record) : Prop :=
  r ∈ l /\ visible key maxSeq r /\
  forall r', r' ∈ l -> visible key maxSeq r' -> Seq r' <= Seq r.

Lemma foldl_consider_spec l b :
  match foldl consider (Some b) l with
  | Some r => (r = b \/ r ∈ l) /\ Seq b <= Seq r /\ forall r', r' ∈ l -> Seq r' <= Seq r
  | None => False
  end.
Proof.
  revert b. induction l as [|a l IH]; intros b; simpl.
  - split_and!; [tauto | lia | intros ? []%not_elem_of_nil].
  - destruct (Z.ltb_spec (Seq b) (Seq a)) as [Hlt | Hge].
    + specialize (IH a). destruct (foldl consider (Some a) l) as [r|]; [| done].
      destruct IH as (H1 & H2 & H3). split_and!; [set_solver | lia |].
      intros r' [-> | Hr']%elem_of_cons; [lia | auto].
    + specialize (IH b). destruct (foldl consider (Some b) l) as [r|]; [| done].
      destruct IH as (H1 & H2 & H3). split_and!; [set_solver | lia |].
      intros r' [-> | Hr']%elem_of_cons; [lia | auto].
Qed.

Lemma newest_Some key maxSeq l r :
  newest key maxSeq l = Some r -> is_newest key maxSeq l r.
Proof.
  unfold newest, is_newest. intros H.
  assert (Hin : forall r', r' ∈ filter (visible key maxSeq) l <-> visible key maxSeq r' /\ r' ∈ l)
    by (intros; apply list_elem_of_filter).
  destruct (filter (visible key maxSeq) l) as [|a k] eqn:E; [done |]. simpl in H.
  pose proof (foldl_consider_spec k a) as Hs. rewrite H in Hs.
  destruct Hs as (H1 & H2 & H3).
  assert (Hr : r ∈ a :: k) by set_solver. apply Hin in Hr as [??].
  split_and!; [done.. |]. intros r' Hr' Hv.
  assert (r' ∈ a :: k) as [-> | ?]%elem_of_cons by (by apply Hin); auto.
Qed.

Lemma newest_None key maxSeq l :
  newest key maxSeq l = None <-> forall r, r ∈ l -> ~ visible key maxSeq r.
Proof.
  unfold newest. split.
  - intros H r Hr Hv.
    assert (Hin : r ∈ filter (visible key maxSeq) l) by (by apply list_elem_of_filter).
    destruct (filter (visible key maxSeq) l) as [|a k]; [set_solver |]. simpl in H.
    pose proof (foldl_consider_spec k a) as Hs. by rewrite H in Hs.
  - intros H. destruct (filter (visible key maxSeq) l) as [|a k] eqn:E; [done |].
    assert (a ∈ filter (visible key maxSeq) l) as [??]%list_elem_of_filter by (rewrite E; left).
    by destruct (H a).
Qed.

Lemma newest_app_none key maxSeq l1 l2 :
  Forall (fun r => Key r <> key) l1 -> newest key maxSeq (l1 ++ l2) = newest key maxSeq l2.
Proof.
  intros H. unfold newest. rewrite filter_app.
  replace (filter (visible key maxSeq) l1) with (@nil record); [done |].
  symmetry. apply list_filter_nil. rewrite Forall_forall in *. intros r Hr [Hk _]. by apply (H r).
Qed.

(** ** Weakly sorted lists

    A table may hold the same version twice (a replayed log): the writer
    accepts equal neighbours, so its order is the non-strict one. *)

Definition rec_le (a b : record) : Prop := less b a = false.
Abbreviation wsorted := (StronglySorted rec_le).

Lemma rec_le_iff a b :
  rec_le a b <-> (Key a < Key b)%key \/ Key a = Key b /\ Seq b <= Seq a.
Proof.
  unfold rec_le. rewrite less_false_iff. split; (intros [H | [H1 H2]]; [by left | by right]).
Qed.

Lemma rec_le_key a b : rec_le a b -> (Key a <= Key b)%key.
Proof. rewrite rec_le_iff, key_le_lteq. intros [H | [H _]]; auto. Qed.

Global Instance rec_le_trans : Transitive rec_le.
Proof.
  intros a b c. rewrite !rec_le_iff. intros [H1 | [E1 H1]] [H2 | [E2 H2]].
  - left. key_order.
  - left. key_order.
  - left. key_order.
  - right. split; [congruence | lia].
Qed.

Lemma rec_lt_le a b : rec_lt a b -> rec_le a b.
Proof. rewrite rec_lt_iff, rec_le_iff. intros [H | [E H]]; [by left | right; split; [done | lia]]. Qed.

Lemma sorted_wsorted l : sorted l -> wsorted l.
Proof.
  induction 1 as [|a l Hs IH Hf]; constructor; [done |].
  eapply Forall_impl; [exact Hf |]. intros. by apply rec_lt_le.
Qed.

Lemma newest_wsorted key maxSeq l :
  wsorted l -> newest key maxSeq l = head (filter (visible key maxSeq) l).
Proof.
  intros Hs. apply (StronglySorted_filter _ (visible key maxSeq)) in Hs. unfold newest.
  assert (Hv : Forall (visible key maxSeq) (filter (visible key maxSeq) l)).
  { apply Forall_forall. by intros r [? _]%list_elem_of_filter. }
  destruct Hs as [|a k Hs Ha]; [done |]. cbn [foldl consider head].
  apply Forall_cons in Hv as [[Hk _] Hv]. clear Hs.
  induction k as [|b k IH]; [done |]. cbn [foldl consider].
  apply Forall_cons in Hv as [[Hkb _] Hv]. apply Forall_cons in Ha as [Hab Ha].
  apply rec_le_iff in Hab as [Hab | [_ Hab]]; [rewrite Hk, Hkb in Hab; key_order |].
  destruct (Z.ltb_spec (Seq a) (Seq b)); [lia |]. by apply IH.
Qed.

(** In a sorted list the newest visible version comes first. *)
Lemma newest_sorted key maxSeq l :
  sorted l -> newest key maxSeq l = head (filter (visible key maxSeq) l).
Proof. intros Hs. by apply newest_wsorted, sorted_wsorted. Qed.
