(* ===== verification/SkipListRefine.v ===== *)
(** * The skip list refines a sorted list of records

    The representation invariant of [SkipList] and the proof that its
    operations implement the operations of a sorted list: every level of the
    skip list is the sublist of the bottom level made of the nodes tall enough
    to take part in it. *)

From S2P Require Import Versions SkipList.

(** ** The abstract sorted list *)

Definition same_version (a b : record) : bool :=
  key_eqb (Key a) (Key b) && (Seq a =? Seq b).

Fixpoint list_put (rec : record) (l : list record) : list record :=
  match l with
  | [] => [rec]
  | a :: l' =>
      if less a rec then a :: list_put rec l'
      else if same_version a rec then rec :: l'
      else rec :: a :: l'
  end.

(** The number of distinct keys. *)
Definition key_count (l : list record) : Z := len (remove_dups (Key <$> l)).

Definition put_tail (rec : record) (l2 : list record) : list record :=
  match l2 with
  | a :: l2' => if same_version a rec then rec :: l2' else rec :: a :: l2'
  | [] => [rec]
  end.

Lemma list_put_split rec l1 l2 :
  Forall (fun a => less a rec = true) l1 -> Forall (fun a => less a rec = false) l2 ->
  list_put rec (l1 ++ l2) = l1 ++ put_tail rec l2.
Proof.
  induction 1 as [|a l1 Ha _ IH]; intros H2; simpl.
  - destruct H2 as [|a l2 Ha H2]; simpl; [done |]. by rewrite Ha.
  - rewrite Ha. by rewrite IH.
Qed.

(** A predicate that holds of a prefix of every sorted list splits it. *)
Definition prefix_closed (q : record -> bool) : Prop :=
  forall a b, rec_lt a b -> q b = true -> q a = true.

Lemma sorted_split q l :
  prefix_closed q -> sorted l ->
  exists l1 l2, l = l1 ++ l2 /\ Forall (fun a => q a = true) l1 /\ Forall (fun a => q a = false) l2.
Proof.
  intros Hq. induction 1 as [|a l Hs IH Hf].
  - exists [], []. done.
  - destruct (q a) eqn:E.
    + destruct IH as (l1 & l2 & -> & H1 & H2). exists (a :: l1), l2. split_and!; auto.
    + exists [], (a :: l). split_and!; [done | done |]. constructor; [done |].
      rewrite Forall_forall in *. intros b Hb. destruct (q b) eqn:Eb; [| done].
      rewrite (Hq a b) in E; auto.
Qed.

Lemma less_prefix_closed rec : prefix_closed (fun a => less a rec).
Proof. intros a b H1 H2. change (rec_lt a rec). by transitivity b. Qed.

Lemma key_ltb_prefix_closed key : prefix_closed (fun a => key_ltb (Key a) key).
Proof.
  intros a b H1 H2. apply rec_lt_iff in H1 as [H1 | [H1 _]].
  - key_order.
  - by rewrite H1.
Qed.

Lemma same_version_spec a b :
  same_version a b = true <-> Key a = Key b /\ Seq a = Seq b.
Proof.
  unfold same_version. rewrite andb_true_iff, key_eqb_eq, Z.eqb_eq. done.
Qed.

Lemma less_false_neq a rec :
  less a rec = false -> same_version a rec = false -> rec_lt rec a.
Proof.
  intros H1 H2. destruct (rec_lt_total a rec) as [H | [H | H]]; [| | done].
  - unfold rec_lt in H. congruence.
  - apply same_version_spec in H. congruence.
Qed.

Lemma less_same a b rec : same_version a rec = true -> less a b = less rec b.
Proof. intros [H1 H2]%same_version_spec. by apply less_ext. Qed.

Lemma put_tail_sorted rec l2 :
  sorted l2 -> Forall (fun a => less a rec = false) l2 -> sorted (put_tail rec l2).
Proof.
  intros Hs Hf. destruct Hs as [|a l Hs Ha]; simpl; [repeat constructor |].
  inversion Hf as [| ? ? H1 H2]; subst.
  destruct (same_version a rec) eqn:E.
  - constructor; [done |]. eapply Forall_impl; [exact Ha |]. intros b Hb.
    unfold rec_lt in *. by rewrite <- (less_same a b rec E).
  - pose proof (less_false_neq _ _ H1 E) as Hlt.
    constructor; [by constructor |]. constructor; [done |].
    eapply Forall_impl; [exact Ha |]. intros b Hb. by transitivity a.
Qed.

Lemma list_put_sorted rec l : sorted l -> sorted (list_put rec l).
Proof.
  intros Hs. destruct (sorted_split (fun a => less a rec) l) as (l1 & l2 & -> & H1 & H2);
    [apply less_prefix_closed | done |].
  rewrite list_put_split by done. apply StronglySorted_app in Hs as (Hx & Hs1 & Hs2).
  apply StronglySorted_app. split_and!; [| done | by apply put_tail_sorted].
  intros a b Ha Hb. rewrite Forall_forall in H1. specialize (H1 a Ha).
  destruct l2 as [|c l2]; simpl in Hb.
  - apply list_elem_of_singleton in Hb as ->. done.
  - assert (rec_lt a rec) by done.
    destruct (same_version c rec); rewrite !elem_of_cons in Hb;
      [destruct Hb as [-> | Hb] | destruct Hb as [-> | Hb]]; try done.
    + apply Hx; [done |]. by right.
    + apply Hx; [done |]. by apply elem_of_cons.
Qed.

(** ** Chains *)

(** Following [next[i]] from [x] visits exactly [ys] and ends at [nil]. *)
Fixpoint links (mem : list node) (i x : nat) (ys : list nat) : Prop :=
  match ys with
  | [] => next_of mem x i = Some None
  | y :: ys => next_of mem x i = Some (Some y) /\ links mem i y ys
  end.

(** The node at [a] takes part in level [i]. *)
Definition tall (mem : list node) (i a : nat) : Prop :=
  match mem !! a with Some n => (i < length (nnext n))%nat | None => False end.
Global Instance tall_dec mem i a : Decision (tall mem i a).
Proof. unfold tall. destruct (mem !! a); apply _. Defined.

Abbreviation tower mem i A := (filter (tall mem i) (A : list nat)).

(** The last address of [h :: ys]. *)
Definition final (h : nat) (ys : list nat) : nat := default h (last ys).

Lemma final_cons h y ys : final h (y :: ys) = final y ys.
Proof. unfold final. rewrite last_cons. by destruct (last ys). Qed.

Lemma final_app h ys zs : final h (ys ++ zs) = final (final h ys) zs.
Proof. revert h. induction ys as [|y ys IH]; intros h; [done |]. simpl. by rewrite !final_cons. Qed.

Lemma final_elem h ys : final h ys ∈ h :: ys.
Proof.
  revert h. induction ys as [|y ys IH]; intros h; [by left |].
  rewrite final_cons. right. apply IH.
Qed.

Lemma links_head mem i x ys : links mem i x ys -> next_of mem x i = Some (hd_error ys).
Proof. destruct ys; simpl; [done | by intros [? _]]. Qed.

Lemma links_app mem i x ys zs :
  links mem i x (ys ++ zs) -> links mem i (final x ys) zs.
Proof.
  revert x. induction ys as [|y ys IH]; intros x; simpl; [done |].
  intros [_ H]. rewrite final_cons. auto.
Qed.

Lemma links_ext mem mem' i x ys :
  (forall a, a ∈ x :: ys -> next_of mem' a i = next_of mem a i) ->
  links mem i x ys -> links mem' i x ys.
Proof.
  revert x. induction ys as [|y ys IH]; intros x He; simpl.
  - rewrite He by left. done.
  - intros [H1 H2]. rewrite He by left. split; [done |].
    apply IH; [| done]. intros a Ha. apply He. by right.
Qed.

(** Inserting [new] after the last element of [x :: ys]. *)
Lemma links_insert mem mem' i new x ys zs :
  NoDup (x :: ys ++ zs) ->
  links mem i x (ys ++ zs) ->
  (forall a, a ∈ x :: ys ++ zs -> a <> final x ys -> next_of mem' a i = next_of mem a i) ->
  next_of mem' (final x ys) i = Some (Some new) ->
  next_of mem' new i = Some (hd_error zs) ->
  links mem' i x (ys ++ new :: zs).
Proof.
  revert x. induction ys as [|y ys IH]; intros x Hnd Hl He Hu Hn; simpl in *.
  - split; [done |]. apply NoDup_cons in Hnd as [Hx _].
    destruct zs as [|z zs]; simpl in *; [done |]. split; [done |].
    destruct Hl as [_ Hl]. eapply links_ext; [| exact Hl].
    intros a Ha. apply He; [by right |]. unfold final. simpl. congruence.
  - rewrite final_cons in *. destruct Hl as [H1 H2].
    apply NoDup_cons in Hnd as [Hx Hnd]. split.
    + rewrite He; [done | by left |]. intros ->. apply Hx.
      rewrite app_comm_cons. apply elem_of_app. left. apply final_elem.
    + apply IH; try done. intros a Ha. apply He. by right.
Qed.

(** ** Searching *)

Definition sat (mem : list node) (p : node -> bool) (b : bool) (a : nat) : Prop :=
  exists n, mem !! a = Some n /\ p n = b.

Lemma advance_spec mem p i x ys zs fuel :
  links mem i x (ys ++ zs) -> Forall (sat mem p true) ys -> Forall (sat mem p false) zs ->
  (length ys < fuel)%nat ->
  advance fuel mem p i x = Some (final x ys).
Proof.
  revert x fuel. induction ys as [|y ys IH]; intros x [|fuel] Hl Hy Hz Hf; simpl in *; try lia.
  - rewrite (links_head _ _ _ _ Hl). destruct Hz as [|z zs (n & Hn & Hp) _]; simpl; [done |].
    by rewrite Hn; simpl; rewrite Hp.
  - destruct Hl as [Hx Hl]. rewrite Hx. simpl.
    inversion Hy as [| ? ? (n & Hn & Hp) Hy']; subst. rewrite Hn. simpl. rewrite Hp.
    rewrite final_cons. apply IH; [done | done | done | lia].
Qed.

Lemma filter_last_split {A} (P : A -> Prop) `{!forall x, Decision (P x)} (l F : list A) a :
  filter P l = F ++ [a] ->
  exists B C, l = B ++ a :: C /\ P a /\ filter P C = [].
Proof.
  revert F. induction l as [|b l IH] using rev_ind; intros F HF; [by destruct F |].
  rewrite filter_app in HF. rewrite filter_cons, filter_nil in HF. destruct (decide (P b)) as [Hb | Hb].
  - apply app_inj_tail in HF as [_ ->]. exists l, []. done.
  - rewrite app_nil_r in HF. destruct (IH _ HF) as (B & C & -> & Ha & HC).
    exists B, (C ++ [b]). rewrite <- app_assoc. split_and!; [done | done |].
    rewrite filter_app, HC, filter_cons_False by done. done.
Qed.

Lemma Forall_filter_sub {A} (Q P : A -> Prop) `{!forall x, Decision (P x)} (l : list A) :
  Forall Q l -> Forall Q (filter P l).
Proof. rewrite !Forall_forall. intros HQ x [_ Hx]%list_elem_of_filter. auto. Qed.

Lemma tall_mono mem i j a : (i <= j)%nat -> tall mem j a -> tall mem i a.
Proof. unfold tall. destruct (mem !! a); [lia | done]. Qed.

Section search.
Context (mem : list node) (p : node -> bool) (h : nat) (A1 A2 : list nat) (ml : nat).
Hypothesis Hlinks : forall i, (i < ml)%nat -> links mem i h (tower mem i (A1 ++ A2)).
Hypothesis H1 : Forall (sat mem p true) A1.
Hypothesis H2 : Forall (sat mem p false) A2.
Hypothesis Hbound : (length A1 <= length mem)%nat.

(** The predecessor at level [i]. *)
Definition pred (i : nat) : nat := final h (tower mem i A1).

Lemma advance_pred i :
  (i < ml)%nat -> advance (S (length mem)) mem p i (pred (S i)) = Some (pred i).
Proof.
  intros Hi. pose proof (Hlinks i Hi) as Hl. rewrite filter_app in Hl.
  pose proof H1 as H1'. pose proof Hbound as Hb.
  assert (Hz : Forall (sat mem p false) (tower mem i A2)) by (by apply Forall_filter_sub).
  unfold pred. destruct (last (tower mem (S i) A1)) as [a|] eqn:E.
  - assert (final h (tower mem (S i) A1) = a) as -> by (unfold final; by rewrite E).
    apply last_Some in E as [F E].
    destruct (filter_last_split _ _ _ _ E) as (B & C & HA & Ha & HC).
    rewrite HA in Hl, H1', Hb |- *.
    rewrite filter_app, filter_cons_True in Hl |- * by (by eapply tall_mono, Ha; lia).
    rewrite final_app, final_cons.
    rewrite <- app_assoc in Hl. apply links_app in Hl. destruct Hl as [_ Hl].
    apply Forall_app in H1' as [_ H1']. apply Forall_cons in H1' as [_ H1'].
    apply advance_spec with (zs := tower mem i A2); [done | by apply Forall_filter_sub | done |].
    rewrite length_app in Hb. simpl in Hb.
    pose proof (length_filter (tall mem i) C). lia.
  - assert (final h (tower mem (S i) A1) = h) as -> by (unfold final; by rewrite E).
    apply advance_spec with (zs := tower mem i A2); [done | by apply Forall_filter_sub | done |].
    pose proof (length_filter (tall mem i) A1). lia.
Qed.

Lemma descend_pred i :
  (i <= ml)%nat -> descend i mem p (pred i) = Some (pred 0).
Proof.
  induction i as [|i IH]; intros Hi; [done |]. cbn [descend].
  rewrite advance_pred by lia. simpl. apply IH. lia.
Qed.

Lemma descend_update_pred i update :
  (i <= ml)%nat -> (i <= length update)%nat ->
  exists update',
    descend_update i mem p (pred i) update = Some (pred 0, update') /\
    length update' = length update /\
    (forall j, (j < i)%nat -> update' !! j = Some (Some (pred j))) /\
    (forall j, (i <= j)%nat -> update' !! j = update !! j).
Proof.
  revert update. induction i as [|i IH]; intros update Hi Hu.
  - exists update. split_and!; [done | done | lia | done].
  - cbn [descend_update]. rewrite advance_pred by lia. simpl.
    unfold store. destruct (Nat.ltb_spec i (length update)); [| lia]. simpl.
    destruct (IH (<[i:=Some (pred i)]> update)) as (u' & E & Hl & Hlt & Hge);
      [lia | rewrite length_insert; lia |].
    exists u'. rewrite length_insert in Hl. split_and!; [done | done | |].
    + intros j Hj. destruct (decide (j = i)) as [-> | Hne]; [| apply Hlt; lia].
      rewrite Hge by lia. by apply list_lookup_insert_eq.
    + intros j Hj. rewrite Hge by lia. apply list_lookup_insert_ne. lia.
Qed.
End search.

(** ** Splicing *)

(** What [splice] leaves alone: keys, records and heights. *)
Definition node_shape (n : node) : bytes * record * nat :=
  (nkey n, nrecord n, length (nnext n)).
Abbreviation shape mem := (node_shape <$> (mem : list node)).

Lemma shape_set_next i v (u : nat) (mem : list node) : shape (alter (set_next i v) u mem) = shape mem.
Proof.
  apply list_eq. intros a. rewrite !list_lookup_fmap, list_lookup_alter.
  case_decide; [subst u | done]. destruct (mem !! a) as [n|]; [| reflexivity].
  cbn. unfold node_shape, set_next. cbn. by rewrite length_insert.
Qed.

Lemma shape_lookup (mem mem' : list node) (a : nat) n :
  shape mem' = shape mem -> mem !! a = Some n ->
  exists n', mem' !! a = Some n' /\ node_shape n' = node_shape n.
Proof.
  intros Hs Ha. assert (H : (shape mem') !! a = Some (node_shape n)).
  { rewrite Hs, list_lookup_fmap, Ha. done. }
  rewrite list_lookup_fmap in H. destruct (mem' !! a) as [n'|]; [| done].
  exists n'. split; [done |]. simpl in H. congruence.
Qed.

Lemma shape_tall mem mem' i a : shape mem' = shape mem -> tall mem' i a <-> tall mem i a.
Proof.
  intros Hs. assert (H : (shape mem') !! a = (shape mem) !! a) by (by rewrite Hs).
  rewrite !list_lookup_fmap in H. unfold tall.
  destruct (mem' !! a), (mem !! a); simpl in H; try done.
  injection H. intros -> _ _. done.
Qed.

Lemma next_of_tall mem a i : tall mem i a <-> is_Some (next_of mem a i).
Proof.
  unfold tall, next_of. destruct (mem !! a) as [n|]; simpl.
  - by rewrite lookup_lt_is_Some.
  - split; [done | by intros [? ?]].
Qed.

Lemma next_of_set_next mem u i v a j :
  tall mem i u ->
  next_of (alter (set_next i v) u mem) a j =
  if decide (a = u /\ j = i) then Some v else next_of mem a j.
Proof.
  unfold tall, next_of. intros Hu. rewrite list_lookup_alter.
  destruct (decide (u = a)) as [-> | Hne].
  - destruct (mem !! a) as [n|]; [| done]. simpl.
    destruct (decide (j = i)) as [-> | Hj].
    + rewrite decide_True by done. by apply list_lookup_insert_eq.
    + rewrite decide_False by tauto. apply list_lookup_insert_ne. congruence.
  - rewrite decide_False by (intros [? _]; congruence). done.
Qed.

(** The splice loop, over the predecessor lists [L1] and the successor lists
    [L2] of each level. *)
Section splice.
Context (h new ml : nat) (L1 L2 : nat -> list nat) (update : list (option nat)).
Hypothesis Hnd : forall j, NoDup (h :: L1 j ++ L2 j).
Hypothesis Hnew : forall j, new ∉ h :: L1 j ++ L2 j.

Definition spliced (k : nat) (mem : list node) : Prop :=
  forall j, (j < ml)%nat ->
    links mem j h (L1 j ++ if (j <? k)%nat then new :: L2 j else L2 j).

Lemma splice_spec n i mem :
  (i + n <= ml)%nat ->
  (forall j, (j < i + n)%nat -> update !! j = Some (Some (final h (L1 j)))) ->
  (forall j, (j < i + n)%nat -> tall mem j new) ->
  spliced i mem ->
  exists mem', splice n i new update mem = Some mem' /\ shape mem' = shape mem /\
    spliced (i + n) mem'.
Proof.
  revert i mem. induction n as [|n IH]; intros i mem Hi Hu Ht Hsp.
  - exists mem. rewrite Nat.add_0_r. done.
  - cbn [splice]. rewrite Hu by lia. simpl.
    pose proof (Hsp i ltac:(lia)) as Hl. rewrite Nat.ltb_irrefl in Hl.
    pose proof (links_head _ _ _ _ (links_app _ _ _ _ _ Hl)) as Hnx. rewrite Hnx. simpl.
    set (u := final h (L1 i)) in *.
    set (mem1 := alter (set_next i (hd_error (L2 i))) new mem).
    set (mem2 := alter (set_next i (Some new)) u mem1).
    assert (Hs1 : shape mem1 = shape mem) by apply shape_set_next.
    assert (Hs2 : shape mem2 = shape mem) by (unfold mem2; by rewrite shape_set_next).
    assert (Hun : u <> new).
    { intros He. apply (Hnew i). rewrite <- He, app_comm_cons. apply elem_of_app. left. apply final_elem. }
    assert (Hnext : forall a j, next_of mem2 a j =
      if decide (a = u /\ j = i) then Some (Some new)
      else if decide (a = new /\ j = i) then Some (hd_error (L2 i)) else next_of mem a j).
    { intros a j. unfold mem2. rewrite next_of_set_next.
      - case_decide; [done |]. unfold mem1. by rewrite next_of_set_next by (apply Ht; lia).
      - apply (shape_tall _ _ _ _ Hs1), next_of_tall. by rewrite Hnx. }
    destruct (IH (S i) mem2) as (mem' & E & Hs' & Hsp').
    + lia.
    + intros j Hj. apply Hu. lia.
    + intros j Hj. apply (shape_tall _ _ _ _ Hs2), Ht. lia.
    + intros j Hj. destruct (decide (j = i)) as [-> | Hne].
      * destruct (Nat.ltb_spec i (S i)); [| lia].
        eapply links_insert; [apply Hnd | exact Hl | | |].
        -- intros a Ha Hau. fold u in Hau. rewrite Hnext, !decide_False; [done | | tauto].
           intros [-> _]. by apply (Hnew i).
        -- fold u. rewrite Hnext, decide_True by done. done.
        -- rewrite Hnext, decide_False, decide_True by (try tauto; intros [? _]; congruence). done.
      * specialize (Hsp j Hj).
        assert ((j <? S i)%nat = (j <? i)%nat) as ->.
        { destruct (Nat.ltb_spec j (S i)), (Nat.ltb_spec j i); lia || done. }
        eapply links_ext; [| exact Hsp]. intros a _.
        rewrite Hnext, !decide_False by tauto. done.
    + exists mem'. split_and!; [done | by rewrite Hs' | by rewrite <- Nat.add_succ_comm].
Qed.
End splice.

(** ** The representation invariant *)

Definition node_ok (mem : list node) (lvl a : nat) (r : record) : Prop :=
  exists n, mem !! a = Some n /\ nrecord n = r /\ nkey n = Key r /\
    (1 <= length (nnext n) <= lvl)%nat.

Record repr_at (s : SkipList) (A : list nat) (l : list record) : Prop := {
  r_nodes : Forall2 (node_ok (arena s) (level s)) A l;
  r_nodup : NoDup (head s :: A);
  r_head : exists n, arena s !! head s = Some n /\ length (nnext n) = maxLevel s;
  r_links : forall i, (i < maxLevel s)%nat -> links (arena s) i (head s) (tower (arena s) i A);
  r_level : (1 <= level s <= maxLevel s)%nat;
  r_sorted : sorted l;
  r_count : count s = len l;
  r_keyCount : keyCount s = key_count l;
}.

(** The skip list [s] holds exactly the records [l], in this order. *)
Definition repr (s : SkipList) (l : list record) : Prop := exists A, repr_at s A l.

Lemma NoDup_bounded (A : list nat) n : NoDup A -> Forall (fun a => (a < n)%nat) A -> (length A <= n)%nat.
Proof.
  intros Hnd Hf. rewrite <- (length_seq n 0). apply submseteq_length, NoDup_submseteq; [done |].
  intros a Ha. rewrite Forall_forall in Hf. apply elem_of_seq. specialize (Hf a Ha). lia.
Qed.

Lemma tower_all mem lvl A l i :
  Forall2 (node_ok mem lvl) A l -> i = 0%nat -> tower mem i A = A.
Proof.
  intros H ->. induction H as [|a r A l (n & Hn & _ & _ & Hl) _ IH]; [done |].
  rewrite filter_cons_True; [by rewrite IH |]. unfold tall. rewrite Hn. lia.
Qed.

Lemma tower_none mem lvl A l i :
  Forall2 (node_ok mem lvl) A l -> (lvl <= i)%nat -> tower mem i A = [].
Proof.
  intros H Hi. induction H as [|a r A l (n & Hn & _ & _ & Hl) _ IH]; [done |].
  rewrite filter_cons_False; [done |]. unfold tall. rewrite Hn. lia.
Qed.

Lemma nodes_sat mem lvl A l (p : node -> bool) (q : record -> bool) b :
  Forall2 (node_ok mem lvl) A l ->
  (forall n, nkey n = Key (nrecord n) -> p n = q (nrecord n)) ->
  Forall (fun r => q r = b) l -> Forall (sat mem p b) A.
Proof.
  intros H Hpq. induction H as [|a r A l (n & Hn & Hr & Hk & _) _ IH]; intros Hq; [done |].
  inversion Hq; subst. constructor; [| auto]. exists n. split; [done |].
  apply Hpq. done.
Qed.

(** Every search of the code ends at the last node whose record satisfies the
    searched condition. *)
Lemma search_repr s A l (p : node -> bool) (q : record -> bool) :
  repr_at s A l -> prefix_closed q ->
  (forall n, nkey n = Key (nrecord n) -> p n = q (nrecord n)) ->
  exists A1 A2 l1 l2,
    A = A1 ++ A2 /\ l = l1 ++ l2 /\
    Forall2 (node_ok (arena s) (level s)) A1 l1 /\ Forall2 (node_ok (arena s) (level s)) A2 l2 /\
    Forall (fun r => q r = true) l1 /\ Forall (fun r => q r = false) l2 /\
    descend (level s) (arena s) p (head s) = Some (final (head s) A1) /\
    next_of (arena s) (final (head s) A1) 0 = Some (hd_error A2) /\
    exists update,
      descend_update (level s) (arena s) p (head s) (replicate (maxLevel s) None) =
        Some (final (head s) A1, update) /\ length update = maxLevel s /\
      forall j, (j < level s)%nat ->
        update !! j = Some (Some (final (head s) (tower (arena s) j A1))).
Proof.
  intros Hr Hq Hpq. destruct (sorted_split q l Hq (r_sorted _ _ _ Hr)) as (l1 & l2 & -> & H1 & H2).
  destruct (proj1 (Forall2_app_inv_r _ _ _ _) (r_nodes _ _ _ Hr)) as (A1 & A2 & F1 & F2 & ->).
  pose proof (r_level _ _ _ Hr) as Hlv.
  assert (S1 : Forall (sat (arena s) p true) A1) by (eapply nodes_sat; eauto).
  assert (S2 : Forall (sat (arena s) p false) A2) by (eapply nodes_sat; eauto).
  assert (Hb : (length A1 <= length (arena s))%nat).
  { apply NoDup_bounded.
    - pose proof (r_nodup _ _ _ Hr) as Hnd. apply NoDup_cons in Hnd as [_ Hnd].
      by apply NoDup_app in Hnd as [? _].
    - eapply Forall_impl; [exact S1 |]. intros a (n & Hn & _). by eapply lookup_lt_Some. }
  assert (Htop : head s = pred (arena s) (head s) A1 (level s)).
  { unfold pred. by erewrite tower_none by (eauto; lia). }
  assert (Hbot : final (head s) A1 = pred (arena s) (head s) A1 0).
  { unfold pred. by erewrite tower_all by eauto. }
  exists A1, A2, l1, l2. split_and!; try done.
  - rewrite Htop at 1. rewrite Hbot. eapply descend_pred; eauto using r_links. lia.
  - pose proof (r_links _ _ _ Hr 0 ltac:(lia)) as Hl.
    erewrite tower_all in Hl by (eauto using r_nodes). by eapply links_head, links_app.
  - destruct (descend_update_pred (arena s) p (head s) A1 A2 (maxLevel s)
      (r_links _ _ _ Hr) S1 S2 Hb (level s) (replicate (maxLevel s) None))
      as (u & Eu & Lu & Hu & _); [lia | rewrite length_replicate; lia |].
    exists u. rewrite Htop at 1. rewrite Hbot, Eu. rewrite length_replicate in Lu. done.
Qed.

(** ** Counting keys *)

Lemma remove_dups_length_perm {A} `{!EqDecision A} (l k : list A) :
  (forall x, x ∈ l <-> x ∈ k) -> length (remove_dups l) = length (remove_dups k).
Proof.
  intros He. apply Permutation_length, NoDup_Permutation; [apply NoDup_remove_dups.. |].
  intros x. by rewrite !elem_of_remove_dups.
Qed.

Lemma key_count_insert l1 r l2 :
  key_count (l1 ++ r :: l2) =
  key_count (l1 ++ l2) + (if bool_decide (Key r ∈ Key <$> l1 ++ l2) then 0 else 1).
Proof.
  unfold key_count, len.
  rewrite (remove_dups_length_perm (Key <$> l1 ++ r :: l2) (Key r :: (Key <$> l1 ++ l2)))
    by (intros x; rewrite !fmap_app, fmap_cons; set_solver).
  cbn [remove_dups]. unfold bool_decide, decide_rel, decide.
  destruct (list_elem_of_dec _ _); [lia |]. rewrite length_cons. lia.
Qed.

Lemma key_count_replace l1 a r l2 :
  Key a = Key r -> key_count (l1 ++ a :: l2) = key_count (l1 ++ r :: l2).
Proof. intros H. unfold key_count. by rewrite !fmap_app, !fmap_cons, H. Qed.

(** In a sorted list a key that is present is present next to its position. *)
Lemma key_present rec l1 l2 :
  sorted (l1 ++ l2) ->
  Forall (fun r => less r rec = true) l1 -> Forall (fun r => less r rec = false) l2 ->
  Key rec ∈ Key <$> l1 ++ l2 <->
  (exists r, last l1 = Some r /\ Key r = Key rec) \/ (exists r, hd_error l2 = Some r /\ Key r = Key rec).
Proof.
  intros Hs F1 F2. rewrite Forall_forall in F1, F2. split.
  - intros (r & Hk & [Hr | Hr]%elem_of_app)%list_elem_of_fmap.
    + left. destruct l1 as [|m l1 _] using rev_ind; [set_solver |].
      exists m. rewrite last_snoc. split; [done |].
      assert (Hm : rec_lt m rec) by (apply F1; set_solver).
      apply elem_of_app in Hr as [Hr | ->%list_elem_of_singleton]; [| done].
      apply StronglySorted_app_1_l, StronglySorted_app in Hs as (Hx & _ & _).
      assert (Hrm : rec_lt r m) by (apply Hx; set_solver).
      apply rec_lt_iff in Hm as [Hm | [Hm _]]; [| done].
      apply rec_lt_iff in Hrm as [Hrm | [Hrm _]]; key_order.
    + right. destruct l2 as [|m l2]; [set_solver |]. exists m. split; [done |].
      assert (Hm : less m rec = false) by (apply F2; left).
      apply elem_of_cons in Hr as [-> | Hr]; [done |].
      apply StronglySorted_app in Hs as (_ & _ & Hs).
      apply StronglySorted_cons in Hs as [Hf _]. rewrite Forall_forall in Hf.
      specialize (Hf r Hr). apply rec_lt_iff in Hf. apply less_false_iff in Hm.
      destruct Hm as [Hm | [Hm _]]; [| done]. destruct Hf as [Hf | [Hf _]]; key_order.
  - rewrite fmap_app, elem_of_app, !list_elem_of_fmap.
    intros [(r & Hr & Hk) | (r & Hr & Hk)].
    + left. exists r. split; [done |]. apply last_Some in Hr as [k ->]. set_solver.
    + right. exists r. split; [done |]. destruct l2; [done |]. injection Hr as ->. left.
Qed.

(** ** [randomLevel] and the update array *)

Lemma randomLevel_loop_range fuel lvl ml r :
  (lvl <= ml)%nat -> (lvl <= fst (randomLevel_loop fuel lvl ml r) <= ml)%nat.
Proof.
  revert lvl r. induction fuel as [|fuel IH]; intros lvl r Hl; simpl; [lia |].
  destruct (Nat.ltb_spec lvl ml); [| simpl; lia].
  destruct (Z.land _ 1 =? 0); [| simpl; lia].
  pose proof (IH (S lvl) (mkRand (draws r) (S (drawn r))) ltac:(lia)). lia.
Qed.

(** A drawn level is a legal height: between one and [maxLevel]. *)
Lemma randomLevel_range s lvl r :
  (1 <= maxLevel s)%nat -> randomLevel s = (lvl, r) -> (1 <= lvl <= maxLevel s)%nat.
Proof.
  intros Hm E. unfold randomLevel in E.
  pose proof (randomLevel_loop_range (maxLevel s) 1 (maxLevel s) (rng s) Hm) as H.
  rewrite E in H. done.
Qed.

Lemma fill_update_spec n from h update :
  (from + n <= length update)%nat ->
  exists u', fill_update n from h update = Some u' /\ length u' = length update /\
    forall j, u' !! j = if decide (from <= j < from + n)%nat then Some (Some h) else update !! j.
Proof.
  revert from update. induction n as [|n IH]; intros from update Hl.
  - exists update. split_and!; [done | done |]. intros j. rewrite decide_False by lia. done.
  - cbn [fill_update]. unfold store. destruct (Nat.ltb_spec from (length update)); [| lia].
    simpl. destruct (IH (S from) (<[from:=Some h]> update)) as (u' & E & L & Hu);
      [rewrite length_insert; lia |].
    exists u'. rewrite length_insert in L. split_and!; [done | done |]. intros j. rewrite Hu.
    destruct (decide (j = from)) as [-> | Hne].
    + rewrite decide_False, decide_True by lia. by apply list_lookup_insert_eq.
    + rewrite list_lookup_insert_ne by congruence. repeat case_decide; lia || done.
Qed.

(** ** [Put] *)

Lemma node_ok_lt mem lvl A l a :
  Forall2 (node_ok mem lvl) A l -> a ∈ A -> (a < length mem)%nat.
Proof.
  intros H Ha. apply list_elem_of_lookup in Ha as [i Hi].
  destruct (Forall2_lookup_l _ _ _ _ _ H Hi) as (r & _ & n & Hn & _).
  by eapply lookup_lt_Some.
Qed.

Lemma next_of_app mem n a i :
  (a < length mem)%nat -> next_of (mem ++ [n]) a i = next_of mem a i.
Proof. intros Ha. unfold next_of. by rewrite lookup_app_l. Qed.

Lemma tall_app mem n i a : (a < length mem)%nat -> tall (mem ++ [n]) i a <-> tall mem i a.
Proof. intros Ha. unfold tall. by rewrite lookup_app_l. Qed.

Lemma tower_ext mem mem' i A :
  (forall a, a ∈ A -> tall mem' i a <-> tall mem i a) -> tower mem' i A = tower mem i A.
Proof.
  induction A as [|a A IH]; intros He; [done |]. rewrite !filter_cons.
  rewrite IH by (intros b Hb; apply He; by right).
  apply decide_ext, He. by left.
Qed.

Lemma node_ok_shape mem mem' lvl lvl' A l :
  shape mem' = shape mem -> (lvl <= lvl')%nat ->
  Forall2 (node_ok mem lvl) A l -> Forall2 (node_ok mem' lvl') A l.
Proof.
  intros Hs Hl HF. eapply Forall2_impl; [exact HF |]. intros a r (n & Hn & Hr & Hk & Hh).
  destruct (shape_lookup mem mem' a n Hs Hn) as (n' & Hn' & E). unfold node_shape in E.
  injection E as E1 E2 E3.
  exists n'. split_and!; [done | congruence | congruence | lia | lia].
Qed.

Lemma node_ok_app mem n lvl A l :
  Forall2 (node_ok mem lvl) A l -> Forall2 (node_ok (mem ++ [n]) lvl) A l.
Proof.
  intros HF. eapply Forall2_impl; [exact HF |]. intros a r (m & Hm & H). exists m.
  rewrite lookup_app_l by (by eapply lookup_lt_Some). done.
Qed.

Section insertion.
Context (rec : record) (s : SkipList) (A1 A2 : list nat) (l1 l2 : list record).
Context (Hr : repr_at s (A1 ++ A2) (l1 ++ l2)).
Local Abbreviation new := (length (arena s)).

Lemma new_addr a : a ∈ A1 ++ A2 -> (a < new)%nat.
Proof. intros Ha. eapply node_ok_lt; [apply Hr | done]. Qed.

Lemma new_head : (head s < new)%nat.
Proof. destruct (r_head _ _ _ Hr) as (n & Hn & _). by eapply lookup_lt_Some. Qed.

Lemma new_tower j : tower (arena s) j A1 ++ tower (arena s) j A2 = tower (arena s) j (A1 ++ A2).
Proof. by rewrite filter_app. Qed.

Lemma new_nodup : NoDup (head s :: A1 ++ new :: A2).
Proof.
  pose proof (r_nodup _ _ _ Hr) as Hnd. pose proof new_head as Hh. apply NoDup_cons in Hnd as [Hx Hnd]. apply NoDup_cons. split.
  - rewrite elem_of_app, elem_of_cons. rewrite elem_of_app in Hx. intuition lia.
  - apply NoDup_app in Hnd as (N1 & N2 & N3). apply NoDup_app. split_and!; [done | |].
    + intros a Ha [-> | Ha']%elem_of_cons; [| by apply (N2 a)].
      assert (new < new)%nat by (apply new_addr; set_solver). lia.
    + apply NoDup_cons. split; [| done]. intros Ha. assert (new < new)%nat by (apply new_addr; set_solver). lia.
Qed.

(** The predecessors on every level of the new node. *)
Lemma new_update update nl :
  length update = maxLevel s -> (nl <= maxLevel s)%nat ->
  (forall j, (j < level s)%nat -> update !! j = Some (Some (final (head s) (tower (arena s) j A1)))) ->
  Forall2 (node_ok (arena s) (level s)) A1 l1 ->
  exists u', (if (level s <? nl)%nat then fill_update (nl - level s) (level s) (head s) update else Some update) = Some u' /\
    forall j, (j < nl)%nat -> u' !! j = Some (Some (final (head s) (tower (arena s) j A1))).
Proof.
  intros Hlen Hnl Hu F1. destruct (Nat.ltb_spec (level s) nl).
  - destruct (fill_update_spec (nl - level s) (level s) (head s) update) as (u' & E & _ & Hu'); [lia |].
    exists u'. split; [done |]. intros j Hj. rewrite Hu'.
    destruct (decide (level s <= j < level s + (nl - level s))%nat); [| apply Hu; lia].
    erewrite tower_none by (eauto; lia). done.
  - exists update. split; [done |]. intros j Hj. apply Hu. lia.
Qed.

(** The splice loop on the arena with the new node. *)
Lemma new_splice nl u' :
  let nn := mkNode (Key rec) rec (replicate nl None) in
  (nl <= maxLevel s)%nat -> (forall j, (j < nl)%nat -> u' !! j = Some (Some (final (head s) (tower (arena s) j A1)))) ->
  exists mem', splice nl 0 new u' (arena s ++ [nn]) = Some mem' /\ shape mem' = shape (arena s ++ [nn]) /\
    forall j, (j < maxLevel s)%nat ->
      links mem' j (head s) (tower (arena s) j A1 ++ if (j <? nl)%nat then new :: tower (arena s) j A2 else tower (arena s) j A2).
Proof.
  intros nn Hnl Hu'. pose proof (r_nodup _ _ _ Hr) as Hnd. pose proof new_head as Hh.
  destruct (splice_spec (head s) new (maxLevel s) (fun j => tower (arena s) j A1) (fun j => tower (arena s) j A2) u') with
     (n := nl) (i := 0%nat) (mem := arena s ++ [nn]) as (mem' & E & Hsh & Hsp).
  - intros j. rewrite new_tower. apply NoDup_cons in Hnd as [Hx Hnd]. apply NoDup_cons. split.
    + intros [_ ?]%list_elem_of_filter. done.
    + by apply NoDup_filter.
  - intros j. rewrite new_tower. intros [He | [_ He]%list_elem_of_filter]%elem_of_cons; [lia |]. apply new_addr in He. lia.
  - lia.
  - intros j Hj. apply Hu'. lia.
  - intros j Hj. unfold tall. rewrite list_lookup_middle by done. simpl. rewrite length_replicate. lia.
  - intros j Hj. simpl. rewrite new_tower. eapply links_ext; [| by apply (r_links _ _ _ Hr)].
    intros a Ha. apply next_of_app. apply elem_of_cons in Ha as [-> | [_ Ha]%list_elem_of_filter]; [done |]. by apply new_addr.
  - by exists mem'.
Qed.

(** The towers of the arena after it. *)
Lemma new_towers nl mem' j :
  shape mem' = shape (arena s ++ [mkNode (Key rec) rec (replicate nl None)]) ->
  tower mem' j (A1 ++ new :: A2) = tower (arena s) j A1 ++ if (j <? nl)%nat then new :: tower (arena s) j A2 else tower (arena s) j A2.
Proof.
  intros Hsh. set (nn := mkNode _ _ _) in Hsh.
  assert (Htw : forall A, (forall a, a ∈ A -> (a < new)%nat) -> tower mem' j A = tower (arena s) j A).
  { intros A HA'. apply tower_ext. intros a Ha. rewrite (shape_tall (arena s ++ [nn])) by done. apply tall_app. auto. }
  rewrite filter_app, filter_cons, !Htw by (intros; apply new_addr; set_solver).
  assert (Hta : tall mem' j new <-> (j < nl)%nat).
  { rewrite (shape_tall (arena s ++ [nn])) by done. unfold tall. rewrite list_lookup_middle by done. simpl. by rewrite length_replicate. }
  destruct (decide (tall mem' j new)) as [Ht | Ht], (Nat.ltb_spec j nl); rewrite Hta in Ht; done || lia.
Qed.

(** The nodes of the arena after it. *)
Lemma new_nodes nl lvl mem' :
  shape mem' = shape (arena s ++ [mkNode (Key rec) rec (replicate nl None)]) -> (level s <= lvl)%nat -> (1 <= nl <= lvl)%nat ->
  Forall2 (node_ok (arena s) (level s)) A1 l1 -> Forall2 (node_ok (arena s) (level s)) A2 l2 ->
  Forall2 (node_ok mem' lvl) (A1 ++ new :: A2) (l1 ++ rec :: l2).
Proof.
  intros Hsh Hlv Hnl F1 F2. set (nn := mkNode _ _ _) in Hsh. apply (node_ok_shape (arena s ++ [nn]) mem' lvl); [done | done |].
  assert (Hok : forall A l, Forall2 (node_ok (arena s) (level s)) A l -> Forall2 (node_ok (arena s ++ [nn]) lvl) A l).
  { intros A l F. apply node_ok_app. eapply node_ok_shape; [done | | done]. lia. }
  apply Forall2_app; [by apply Hok |]. constructor; [| by apply Hok].
  exists nn. rewrite list_lookup_middle by done. unfold nn. simpl. rewrite length_replicate. split_and!; [done.. | lia | lia].
Qed.

Lemma Put_new_repr update keyExists :
  Forall2 (node_ok (arena s) (level s)) A1 l1 ->
  Forall2 (node_ok (arena s) (level s)) A2 l2 ->
  sorted (l1 ++ rec :: l2) ->
  length update = maxLevel s ->
  (forall j, (j < level s)%nat ->
    update !! j = Some (Some (final (head s) (tower (arena s) j A1)))) ->
  keyExists = bool_decide (Key rec ∈ Key <$> l1 ++ l2) ->
  exists s', Put_new rec s update keyExists = Some s' /\ repr s' (l1 ++ rec :: l2).
Proof.
  intros F1 F2 Hs Hlen Hu Hke. unfold Put_new.
  destruct (randomLevel s) as [nl r] eqn:El.
  pose proof (r_level _ _ _ Hr) as Hlv.
  apply randomLevel_range in El; [| lia].
  set (lvl' := if (level s <? nl)%nat then nl else level s).
  assert (Hlvl : (level s <= lvl' <= maxLevel s)%nat /\ (nl <= lvl')%nat)
    by (unfold lvl'; destruct (Nat.ltb_spec (level s) nl); lia).
  destruct (new_update update nl Hlen ltac:(lia) Hu F1) as (u' & -> & Hu'). cbn [mbind option_bind].
  destruct (new_splice nl u' ltac:(lia) Hu') as (mem' & -> & Hsh & Hsp).
  eexists. split; [reflexivity |]. exists (A1 ++ new :: A2). split; cbn [arena head level maxLevel count keyCount].
  - apply (new_nodes nl); done || lia.
  - apply new_nodup.
  - destruct (r_head _ _ _ Hr) as (n & Hn & Hl).
    destruct (shape_lookup _ mem' (head s) n Hsh) as (n' & Hn' & E); [by rewrite lookup_app_l by apply new_head |].
    exists n'. split; [done |]. injection E. intros. congruence.
  - intros j Hj. rewrite (new_towers nl) by done. by apply Hsp.
  - lia.
  - done.
  - rewrite (r_count _ _ _ Hr). unfold len. rewrite !length_app, length_cons. lia.
  - rewrite key_count_insert, <- Hke, (r_keyCount _ _ _ Hr). destruct keyExists; lia.
Qed.

End insertion.

(** The key test of [Put] looks at the two neighbours of the position only. *)
Lemma keyExists_spec rec s A1 A2 l1 l2 xn nxn :
  repr_at s (A1 ++ A2) (l1 ++ l2) ->
  Forall2 (node_ok (arena s) (level s)) A1 l1 ->
  Forall2 (node_ok (arena s) (level s)) A2 l2 ->
  Forall (fun r => less r rec = true) l1 -> Forall (fun r => less r rec = false) l2 ->
  arena s !! final (head s) A1 = Some xn ->
  (hd_error A2 ≫= fun y => arena s !! y) = nxn ->
  (negb (final (head s) A1 =? head s)%nat && key_eqb (nkey xn) (Key rec)) ||
    (match nxn with None => false | Some n => key_eqb (nkey n) (Key rec) end) =
  bool_decide (Key rec ∈ Key <$> l1 ++ l2).
Proof.
  intros Hr F1 F2 Q1 Q2 Hx Hn.
  apply eq_bool_prop_intro. rewrite !Is_true_true, bool_decide_eq_true, orb_true_iff.
  rewrite (key_present rec l1 l2 (r_sorted _ _ _ Hr) Q1 Q2). f_equiv.
  - rewrite andb_true_iff, negb_true_iff, Nat.eqb_neq, key_eqb_eq.
    destruct A1 as [|a A1 _] using rev_ind.
    + inversion F1; subst. split; [by intros [? _] | by intros (? & ? & _)].
    + unfold final in *. rewrite last_snoc in *. simpl in *.
      apply Forall2_app_inv_l in F1 as (l1' & lr & _ & F1 & ->).
      inversion F1 as [| ? r ? ? (n & En & Er & Ek & _) F1']; subst. inversion F1'; subst.
      rewrite last_snoc. assert (n = xn) as -> by congruence. rewrite Ek. split.
      * intros [_ He]. eauto.
      * intros (r & [= <-] & He). split; [| done]. intros ->.
        pose proof (r_nodup _ _ _ Hr) as Hnd. apply NoDup_cons in Hnd as [Hnd _]. set_solver.
  - destruct F2 as [|a r A2 l2 (n & En & Er & Ek & _) F2]; simpl in Hn; subst.
    + split; [done | by intros (? & ? & _)].
    + rewrite En, key_eqb_eq, Ek. simpl.
      split; [eauto |]. intros (r & [= <-] & He). done.
Qed.

Lemma final_node s A1 A2 l :
  repr_at s (A1 ++ A2) l -> exists xn, arena s !! final (head s) A1 = Some xn.
Proof.
  intros Hr. apply lookup_lt_is_Some_2.
  pose proof (final_elem (head s) A1) as [-> | Ha]%elem_of_cons.
  - destruct (r_head _ _ _ Hr) as (n & Hn & _). by eapply lookup_lt_Some.
  - eapply node_ok_lt; [apply Hr |]. set_solver.
Qed.

Lemma Put_replace_repr rec s A1 a A2 l1 r l2 :
  repr_at s (A1 ++ a :: A2) (l1 ++ r :: l2) -> length A1 = length l1 ->
  same_version r rec = true -> sorted (l1 ++ rec :: l2) ->
  repr (mkSkipList (alter (fun n => mkNode (nkey n) rec (nnext n)) a (arena s))
     (head s) (level s) (maxLevel s) (rng s) (count s) (keyCount s)) (l1 ++ rec :: l2).
Proof.
  intros Hr Hlen [Hk Hq]%same_version_spec Hs. exists (A1 ++ a :: A2).
  set (upd := fun n => mkNode (nkey n) rec (nnext n)).
  assert (Hnext : forall b i, next_of (alter upd a (arena s)) b i = next_of (arena s) b i).
  { intros b i. unfold next_of. rewrite list_lookup_alter. case_decide; [subst b | done].
    by destruct (arena s !! a). }
  assert (Htall : forall b i, tall (alter upd a (arena s)) i b <-> tall (arena s) i b)
    by (intros b i; by rewrite !next_of_tall, Hnext).
  pose proof (r_nodup _ _ _ Hr) as Hnd.
  split; cbn [arena head level maxLevel count keyCount]; try apply Hr; try done.
  - pose proof (r_nodes _ _ _ Hr) as F.
    apply Forall2_app_inv in F as [F1 F2]; [| done]. inversion F2 as [| ? ? ? ? Ho F2']; subst.
    assert (Hother : forall A l, a ∉ A -> Forall2 (node_ok (arena s) (level s)) A l ->
      Forall2 (node_ok (alter upd a (arena s)) (level s)) A l).
    { intros A l Ha F. induction F as [|b r' A l (n & Hn & Hrest) F IH]; constructor.
      - exists n. rewrite list_lookup_alter_ne by (intros ->; apply Ha; left). done.
      - apply IH. intros ?. apply Ha. by right. }
    apply NoDup_cons in Hnd as [_ Hnd]. apply NoDup_app in Hnd as (_ & N2 & N3).
    apply NoDup_cons in N3 as [N3 _].
    apply Forall2_app; [apply Hother; [intros Ha; apply (N2 a Ha); left | done] |].
    constructor; [| by apply Hother].
    destruct Ho as (n & Hn & Hr' & Hk' & Hl). exists (upd n).
    rewrite list_lookup_alter_eq, Hn. unfold upd. simpl. split_and!; congruence || lia.
  - destruct (r_head _ _ _ Hr) as (n & Hn & Hl). exists n.
    rewrite list_lookup_alter_ne; [done |]. intros ->.
    apply NoDup_cons in Hnd as [Hnd _]. apply Hnd, elem_of_app. right. by left.
  - intros i Hi. rewrite (tower_ext (arena s)) by auto.
    eapply links_ext; [| by apply (r_links _ _ _ Hr)]. auto.
  - rewrite (r_count _ _ _ Hr). unfold len. by rewrite !length_app, !length_cons.
  - rewrite (r_keyCount _ _ _ Hr). by apply key_count_replace.
Qed.

(** [Put] never panics on a well-formed skip list and implements insertion
    into the sorted list, a record with an existing key and sequence number
    replacing the stored one. *)
Lemma Put_repr rec s l :
  repr s l -> exists s', Put rec s = Some s' /\ repr s' (list_put rec l).
Proof.
  intros [A Hr].
  destruct (search_repr s A l (fun n => less (nrecord n) rec) (fun r => less r rec) Hr)
    as (A1 & A2 & l1 & l2 & -> & -> & F1 & F2 & Q1 & Q2 & _ & Hn & update & Eu & Lu & Hu);
    [apply less_prefix_closed | done |].
  unfold Put. rewrite Eu. cbn [mbind option_bind]. rewrite Hn. cbn [mbind option_bind].
  destruct (final_node _ _ _ _ Hr) as [xn Hx]. rewrite Hx. cbn [mbind option_bind].
  pose proof (keyExists_spec rec s A1 A2 l1 l2 xn _ Hr F1 F2 Q1 Q2 Hx eq_refl) as Hke.
  pose proof (list_put_sorted rec _ (r_sorted _ _ _ Hr)) as Hs.
  rewrite list_put_split in Hs |- * by done.
  destruct F2 as [|a r A2 l2 Ho F2]; simpl in Hke |- *.
  - rewrite Hke. eapply Put_new_repr; eauto.
  - destruct Ho as (n & En & Er & Ek & El). rewrite En in Hke |- *. cbn [fmap option_fmap option_map mbind option_bind].
    simpl in Hs. rewrite Er, Ek. fold (same_version r rec). destruct (same_version r rec) eqn:Esv.
    + eexists. split; [reflexivity |]. eapply Put_replace_repr; eauto.
      by eapply Forall2_length.
    + simpl in Hke. rewrite Ek in Hke. rewrite Hke. eapply Put_new_repr; eauto.
      constructor; [| done]. exists n. done.
Qed.

(** ** Reads *)

Lemma lowerBound_repr s A l key :
  repr_at s A l ->
  exists A1 A2 l1 l2, A = A1 ++ A2 /\ l = l1 ++ l2 /\
    Forall2 (node_ok (arena s) (level s)) A2 l2 /\
    Forall (fun r => Key r < key)%key l1 /\ Forall (fun r => key <= Key r)%key l2 /\
    lowerBound s key = Some (hd_error A2) /\
    links (arena s) 0 (final (head s) A1) A2.
Proof.
  intros Hr.
  destruct (search_repr s A l (fun n => key_ltb (nkey n) key) (fun r => key_ltb (Key r) key) Hr)
    as (A1 & A2 & l1 & l2 & -> & -> & F1 & F2 & Q1 & Q2 & Ed & Hn & _);
    [apply key_ltb_prefix_closed | by intros n -> |].
  exists A1, A2, l1, l2. split_and!; try done.
  - eapply Forall_impl; [exact Q2 |]. simpl. intros r ?. by key_reflect.
  - unfold lowerBound. rewrite Ed. simpl. by rewrite Hn.
  - pose proof (r_level _ _ _ Hr). pose proof (r_links _ _ _ Hr 0 ltac:(lia)) as Hl.
    erewrite tower_all in Hl by (eauto using r_nodes). by eapply links_app.
Qed.

Lemma GetAt_loop_spec mem lvl key maxSeq x A l fuel :
  Forall2 (node_ok mem lvl) A l -> links mem 0 x A -> sorted l ->
  Forall (fun r => key <= Key r)%key l -> (length A < fuel)%nat ->
  GetAt_loop fuel mem key maxSeq (hd_error A) = Some (newest key maxSeq l).
Proof.
  intros F. revert x fuel.
  induction F as [|a r A l (n & Hn & Hr & Hk & Hh) F IH]; intros x [|fuel] Hl Hs Hge Hf; simpl in *; try lia.
  - done.
  - destruct Hl as [_ Hl]. rewrite Hn. simpl. rewrite Hk, Hr.
    pose proof (links_head _ _ _ _ Hl) as Hnx. unfold next_of in Hnx. rewrite Hn in Hnx. simpl in Hnx.
    rewrite newest_sorted by done.
    apply StronglySorted_cons in Hs as [Hlt Hs]. apply Forall_cons in Hge as [Hr' Hge].
    destruct (key_eqb_spec (Key r) key) as [He | Hne].
    + destruct (Z.leb_spec (Seq r) maxSeq).
      * rewrite filter_cons_True by done. done.
      * rewrite filter_cons_False by (intros [_ ?]; lia). rewrite <- newest_sorted by done.
        rewrite Hnx. simpl. eapply IH; eauto. lia.
    + rewrite filter_cons_False by (by intros [? _]).
      replace (filter (visible key maxSeq) l) with (@nil record); [done |].
      symmetry. apply list_filter_nil. rewrite Forall_forall in *. intros b Hb [Hkb _].
      specialize (Hlt b Hb). apply rec_lt_iff in Hlt as [Hlt | [Hlt _]]; [key_order | congruence].
Qed.

Lemma repr_length s A l : repr_at s A l -> (length A < S (length (arena s)))%nat.
Proof.
  intros Hr. enough (length A <= length (arena s))%nat by lia. apply NoDup_bounded.
  - pose proof (r_nodup _ _ _ Hr) as Hnd. by apply NoDup_cons in Hnd as [_ ?].
  - apply Forall_forall. intros a Ha. eapply node_ok_lt; [apply Hr | done].
Qed.

(** [GetAt] returns the newest version of the key at or below the bound. *)
Lemma GetAt_repr s l key maxSeq :
  repr s l -> GetAt s key maxSeq = Some (newest key maxSeq l).
Proof.
  intros [A Hr]. destruct (lowerBound_repr s A l key Hr) as (A1 & A2 & l1 & l2 & -> & -> & F & Q1 & Q2 & E & Hl).
  unfold GetAt. rewrite E. cbn [mbind option_bind].
  rewrite newest_app_none by (eapply Forall_impl; [exact Q1 |]; simpl; intros r ? ?; key_order).
  pose proof (repr_length _ _ _ Hr) as Hlen. rewrite length_app in Hlen.
  eapply GetAt_loop_spec; eauto; [| lia].
  by eapply StronglySorted_app_1_r, r_sorted.
Qed.

(** [Get] returns the first record of the key, its newest version. *)
Lemma Get_repr s l key : repr s l -> Get s key = Some (hd_error (filter (fun r => Key r = key) l)).
Proof.
  intros [A Hr]. destruct (lowerBound_repr s A l key Hr) as (A1 & A2 & l1 & l2 & -> & -> & F & Q1 & Q2 & E & Hl).
  unfold Get. rewrite E. cbn [mbind option_bind]. rewrite filter_app.
  replace (filter (fun r => Key r = key) l1) with (@nil record); cycle 1.
  { symmetry. apply list_filter_nil. eapply Forall_impl; [exact Q1 |]. simpl. intros r ? ?. key_order. }
  destruct F as [|a r A2 l2 (n & Hn & Er & Ek & _) F]; simpl; [done |].
  rewrite Hn. simpl. rewrite Ek, Er. rewrite filter_cons.
  destruct (key_eqb_spec (Key r) key) as [He | Hne].
  - rewrite decide_True by done. done.
  - rewrite decide_False by done. f_equal.
    replace (filter (fun r => Key r = key) l2) with (@nil record); [done |].
    symmetry. apply list_filter_nil. rewrite Forall_forall. intros b Hb Hkb.
    pose proof (StronglySorted_app_1_r _ _ _ (r_sorted _ _ _ Hr)) as Hs.
    apply StronglySorted_cons in Hs as [Hlt _]. apply Forall_cons in Q2 as [Q2 _].
    rewrite Forall_forall in Hlt. specialize (Hlt b Hb).
    apply rec_lt_iff in Hlt as [Hlt | [Hlt _]]; [key_order | congruence].
Qed.

Lemma Len_repr s l : repr s l -> Len s = key_count l.
Proof. intros [A Hr]. apply Hr. Qed.

Lemma Records_loop_spec s lvl x A l fuel :
  Forall2 (node_ok (arena s) lvl) A l -> links (arena s) 0 x A -> (length A < fuel)%nat ->
  Records_loop fuel (mkIterator s (hd_error A)) = Some l.
Proof.
  intros F. revert x fuel.
  induction F as [|a r A l (n & Hn & Hr & _) F IH]; intros x [|fuel] Hl Hf; simpl in *; try lia.
  - done.
  - destruct Hl as [_ Hl]. unfold Iterator_Record, Iterator_Next. simpl. rewrite Hn. simpl.
    rewrite (links_head _ _ _ _ Hl). simpl. erewrite IH by (eauto; lia). simpl. by rewrite Hr.
Qed.

(** Iterating the list yields its records in order. *)
Lemma Records_repr s l : repr s l -> Records s = Some l.
Proof.
  intros [A Hr]. pose proof (r_level _ _ _ Hr). pose proof (r_links _ _ _ Hr 0 ltac:(lia)) as Hl.
  erewrite tower_all in Hl by (eauto using r_nodes).
  unfold Records, Iterator_new. rewrite (links_head _ _ _ _ Hl). cbn [mbind option_bind].
  eapply Records_loop_spec; eauto using r_nodes, repr_length.
Qed.

(** A new skip list is empty and well-formed. *)
Lemma New_repr r ml : 0 < ml -> exists s, NewWithMaxLevel r ml = Some s /\ repr s [].
Proof.
  intros Hm. unfold NewWithMaxLevel. destruct (Z.leb_spec ml 0); [lia |].
  eexists. split; [reflexivity |]. exists [].
  split; cbn [arena head level maxLevel count keyCount]; try constructor.
  - set_solver.
  - constructor.
  - eexists. split; [done |]. simpl. by rewrite length_replicate.
  - intros i Hi. apply (lookup_replicate_2 _ (@None nat)). done.
  - lia.
  - lia.
Qed.
