(* ===== verification/MemTable.v ===== *)
(** * The memtable

    Models [internal/memtable], which delegates to the skip list, and states
    the two interfaces the rest of the engine is built on: what a versioned
    table promises ([VersionedTable]) and what an iterator over records
    promises ([RecordIterator], Go's [record.Iterator] and
    [record.SeekableIterator]). *)

From S2P Require Export Versions.
From S2P Require Import SkipList SkipListRefine.

(** ** Interfaces *)

(** A multi-version in-memory table.  A [None] result is a panic; the laws say
    that there is none and relate every operation to the sorted list of the
    records stored. *)
Class VersionedTable (T : Type) := {
  vt_new : rand -> option T;
  vt_put : record -> T -> option T;
  vt_getAt : T -> bytes -> Z -> option (option record);
  vt_len : T -> Z;
  vt_records : T -> option (list record);
  vt_repr : T -> list record -> Prop;
  vt_new_ok r : exists t, vt_new r = Some t /\ vt_repr t [];
  vt_put_ok rec t l : vt_repr t l -> exists t', vt_put rec t = Some t' /\ vt_repr t' (list_put rec l);
  vt_getAt_ok t l key maxSeq : vt_repr t l -> vt_getAt t key maxSeq = Some (newest key maxSeq l);
  vt_len_ok t l : vt_repr t l -> vt_len t = key_count l;
  vt_records_ok t l : vt_repr t l -> vt_records t = Some l;
  vt_sorted t l : vt_repr t l -> sorted l;
}.

(** Go's [record.Iterator] with [Seek]: [Next] reports whether a record is
    available, [Err] is consulted after a [false]. *)
Class RecordIterator (E I : Type) := {
  it_next : I -> option (bool * I);
  it_record : I -> record;
  it_err : I -> option E;
  it_seek : bytes -> I -> option (option E * I);
}.

(** [it] yields exactly the records [l] and then stops without error. *)
Inductive yields {E I} `{!RecordIterator E I} : I -> list record -> Prop :=
| yields_nil it it' : it_next it = Some (false, it') -> it_err it' = None -> yields it []
| yields_cons it it' r l :
    it_next it = Some (true, it') -> it_record it' = r -> yields it' l -> yields it (r :: l).

(** ** [MemTable] *)

Record MemTable := mkMemTable { data : SkipList }.

Record ImmutableMemTable := mkImmutable { imMemTable : MemTable; imWalID : Z }.

Definition MemTable_New (r : rand) : option MemTable := s ← New r; Some (mkMemTable s).
Definition MemTable_Get (m : MemTable) (key : bytes) : option (option record) := Get (data m) key.
Definition MemTable_GetAt (m : MemTable) (key : bytes) (maxSeq : Z) : option (option record) :=
  GetAt (data m) key maxSeq.
Definition MemTable_Put (rec : record) (m : MemTable) : option MemTable :=
  s ← Put rec (data m); Some (mkMemTable s).
Definition MemTable_Len (m : MemTable) : Z := Len (data m).

(** ** [memtable.Iterator] *)

Record MIterator := mkMIterator { mit : SkipList.Iterator; mcurrent : record }.

Definition MemTable_Iterator (m : MemTable) : option MIterator :=
  it ← Iterator_new (data m); Some (mkMIterator it zero_record).

Definition MIterator_Seek (key : bytes) (it : MIterator) : option (option Empty_set * MIterator) :=
  i ← Iterator_Seek (mit it) key; Some (None, mkMIterator i (mcurrent it)).

Definition MIterator_Next (it : MIterator) : option (bool * MIterator) :=
  if negb (Iterator_Valid (mit it)) then Some (false, it)
  else r ← Iterator_Record (mit it);
       i ← Iterator_Next (mit it);
       Some (true, mkMIterator i r).

Global Instance MIterator_iterator : RecordIterator Empty_set MIterator := {|
  it_next := MIterator_Next;
  it_record := mcurrent;
  it_err := fun _ => None;
  it_seek := MIterator_Seek;
|}.

(** [for it.Next() { records = append(records, it.Record()) }] *)
Fixpoint drain {E I} `{!RecordIterator E I} (fuel : nat) (it : I) : option (list record) :=
  match fuel with
  | O => None
  | S fuel =>
      '(ok, it) ← it_next it;
      if (ok : bool) then rs ← drain fuel it; Some (it_record it :: rs) else Some []
  end.

Definition MemTable_Records (m : MemTable) : option (list record) :=
  it ← MemTable_Iterator m; drain (S (length (arena (data m)))) it.

(** ** [memtable.SnapshotIterator] *)

Record SnapshotIterator := mkSnapshot {
  srecords : list record;
  sindex : Z;
  scurrent : record;
}.

(** The records are copied value by value, so the snapshot is independent of
    later writes; as lists the copy is the list itself. *)
Definition MemTable_SnapshotIterator (m : MemTable) : option SnapshotIterator :=
  rs ← MemTable_Records m; Some (mkSnapshot rs (-1) zero_record).

Definition Snapshot_Seek (key : bytes) (it : SnapshotIterator)
    : option (option Empty_set * SnapshotIterator) :=
  let ge i := match srecords it !! i with Some r => key_leb key (Key r) | None => false end in
  Some (None, mkSnapshot (srecords it) (Z.of_nat (Search (length (srecords it)) ge) - 1) (scurrent it)).

Definition Snapshot_Next (it : SnapshotIterator) : option (bool * SnapshotIterator) :=
  let i := sindex it + 1 in
  if len (srecords it) <=? i then Some (false, mkSnapshot (srecords it) i (scurrent it))
  else r ← srecords it !! Z.to_nat i; Some (true, mkSnapshot (srecords it) i r).

Global Instance Snapshot_iterator : RecordIterator Empty_set SnapshotIterator := {|
  it_next := Snapshot_Next;
  it_record := scurrent;
  it_err := fun _ => None;
  it_seek := Snapshot_Seek;
|}.

(** ** Laws *)

Lemma drain_yields {E I} `{!RecordIterator E I} (it : I) l fuel :
  yields it l -> (length l < fuel)%nat -> drain fuel it = Some l.
Proof.
  intros H. revert fuel. induction H as [it it' Hn _ | it it' r l Hn Hr H IH]; intros [|fuel] Hf;
    simpl in *; try lia; rewrite Hn; simpl; [done |].
  rewrite IH by lia. simpl. by rewrite Hr.
Qed.

Lemma yields_det {E I} `{!RecordIterator E I} (it : I) l l' :
  yields it l -> yields it l' -> l = l'.
Proof.
  intros H. revert l'. induction H as [it it' Hn _ | it it' r l Hn Hr H IH]; intros l' H';
    inversion H'; subst; try congruence.
  assert (it'0 = it') as -> by congruence. f_equal. auto.
Qed.

(** The records at or after a key. *)
Abbreviation from_key key l := (filter (fun r => key_leb key (Key r) = true) (l : list record)).

Lemma from_key_split key l1 l2 :
  Forall (fun r => Key r < key)%key l1 -> Forall (fun r => key <= Key r)%key l2 ->
  from_key key (l1 ++ l2) = l2.
Proof.
  intros H1 H2. rewrite filter_app, list_filter_nil.
  - simpl. induction H2; [done |]. rewrite filter_cons_True by done. congruence.
  - eapply Forall_impl; [exact H1 |]. simpl. intros r ? ?. key_order.
Qed.

Lemma MIterator_yields s lvl x A l rec :
  Forall2 (node_ok (arena s) lvl) A l -> links (arena s) 0 x A ->
  yields (mkMIterator (mkIterator s (hd_error A)) rec) l.
Proof.
  intros F. revert x rec. induction F as [|a r A l (n & Hn & Hr & _) F IH]; intros x rec Hl.
  - by eapply yields_nil.
  - destruct Hl as [_ Hl]. simpl.
    eapply (yields_cons (E := Empty_set) _ (mkMIterator (mkIterator s (hd_error A)) r)); [| done | eauto].
    simpl. unfold MIterator_Next. simpl. unfold Iterator_Record, Iterator_Next. simpl.
    rewrite Hn. simpl. rewrite (links_head _ _ _ _ Hl). simpl. by rewrite Hr.
Qed.

Lemma MemTable_Iterator_yields m l :
  repr (data m) l -> exists it, MemTable_Iterator m = Some it /\ yields it l.
Proof.
  intros [A Hr]. pose proof (r_level _ _ _ Hr). pose proof (r_links _ _ _ Hr 0 ltac:(lia)) as Hl.
  erewrite tower_all in Hl by (eauto using r_nodes).
  unfold MemTable_Iterator, Iterator_new. rewrite (links_head _ _ _ _ Hl). simpl.
  eexists. split; [reflexivity |]. eapply MIterator_yields; eauto using r_nodes.
Qed.

(** After [Seek] the iterator yields the records at or after the key. *)
Lemma MIterator_Seek_yields m l it key :
  repr (data m) l -> itList (mit it) = data m ->
  exists it', MIterator_Seek key it = Some (None, it') /\ yields it' (from_key key l).
Proof.
  intros [A Hr] Hit.
  destruct (lowerBound_repr _ _ _ key Hr) as (A1 & A2 & l1 & l2 & -> & -> & F & Q1 & Q2 & E & Hl).
  unfold MIterator_Seek, Iterator_Seek. rewrite Hit. simpl. rewrite E. simpl.
  eexists. split; [reflexivity |]. rewrite from_key_split by done.
  eapply MIterator_yields; eauto.
Qed.

Lemma Snapshot_yields rs i cur :
  -1 <= i -> yields (mkSnapshot rs i cur) (drop (Z.to_nat (i + 1)) rs).
Proof.
  intros Hi. remember (drop (Z.to_nat (i + 1)) rs) as l eqn:El. revert i cur Hi El.
  induction l as [|r l IH]; intros i cur Hi El.
  - eapply yields_nil; [| done]. simpl. unfold Snapshot_Next. simpl.
    assert (Hl : (length rs <= Z.to_nat (i + 1))%nat).
    { assert (H0 : length (drop (Z.to_nat (i + 1)) rs) = 0%nat) by (by rewrite <- El).
      rewrite length_drop in H0. lia. }
    destruct (Z.leb_spec (len rs) (i + 1)); [done | unfold len in *; lia].
  - assert (Hr : rs !! Z.to_nat (i + 1) = Some r).
    { rewrite <- (Nat.add_0_r (Z.to_nat (i + 1))), <- lookup_drop, <- El. done. }
    eapply (yields_cons (E := Empty_set) _ (mkSnapshot rs (i + 1) r)).
    + simpl. unfold Snapshot_Next. simpl. apply lookup_lt_Some in Hr as Hlt.
      destruct (Z.leb_spec (len rs) (i + 1)); [unfold len in *; lia |]. by rewrite Hr.
    + done.
    + apply IH; [lia |]. replace (Z.to_nat (i + 1 + 1)) with (S (Z.to_nat (i + 1))) by lia.
      symmetry in El. rewrite <- Nat.add_1_r, <- drop_drop, El. done.
Qed.

Lemma Snapshot_Seek_yields rs i cur key :
  sorted rs -> exists it', Snapshot_Seek key (mkSnapshot rs i cur) = Some (None, it') /\
    yields it' (from_key key rs).
Proof.
  intros Hs. unfold Snapshot_Seek. cbn [srecords scurrent].
  destruct (sorted_split (fun r => key_ltb (Key r) key) rs (key_ltb_prefix_closed key) Hs)
    as (l1 & l2 & -> & Q1 & Q2).
  set (ge := fun i => match (l1 ++ l2) !! i with Some r => key_leb key (Key r) | None => false end).
  assert (Hlo : forall a, (a < length l1)%nat -> ge a = false).
  { intros a Ha. unfold ge. rewrite lookup_app_l by done.
    destruct (l1 !! a) as [r|] eqn:E; [| done]. rewrite Forall_lookup in Q1.
    specialize (Q1 _ _ E). simpl in Q1. by key_reflect. }
  assert (Hhi : forall a, (length l1 <= a < length (l1 ++ l2))%nat -> ge a = true).
  { intros a Ha. unfold ge. rewrite length_app in Ha. rewrite lookup_app_r by lia.
    destruct (l2 !! (a - length l1)%nat) as [r|] eqn:E; [| apply lookup_ge_None in E; lia].
    rewrite Forall_lookup in Q2. specialize (Q2 _ _ E). simpl in Q2. by key_reflect. }
  destruct (Search_spec (length (l1 ++ l2)) ge) as (K1 & K2 & K3).
  { intros a b Hab Ha. destruct (Nat.lt_ge_cases a (length l1)); [by rewrite Hlo in Ha |].
    apply Hhi. lia. }
  set (k := Search (length (l1 ++ l2)) ge) in *.
  assert (k = length l1) as ->.
  { destruct (Nat.lt_trichotomy k (length l1)) as [Hk | [Hk | Hk]]; [| done |].
    - rewrite length_app in *. specialize (K3 k ltac:(lia)). by rewrite Hlo in K3.
    - specialize (K2 (length l1) Hk). rewrite Hhi in K2; [done | lia]. }
  eexists. split; [reflexivity |].
  rewrite from_key_split; [| done |].
  - pose proof (Snapshot_yields (l1 ++ l2) (Z.of_nat (length l1) - 1) cur ltac:(lia)) as Hy.
    replace (Z.to_nat (Z.of_nat (length l1) - 1 + 1)) with (length l1) in Hy by lia.
    by rewrite drop_app_length in Hy.
  - eapply Forall_impl; [exact Q2 |]. simpl. intros r ?. by key_reflect.
Qed.

Lemma repr_arena_length s l : repr s l -> (length l < S (length (arena s)))%nat.
Proof.
  intros [A Hr]. pose proof (repr_length _ _ _ Hr).
  by rewrite <- (Forall2_length _ _ _ (r_nodes _ _ _ Hr)).
Qed.

Lemma MemTable_Records_repr m l : repr (data m) l -> MemTable_Records m = Some l.
Proof.
  intros Hr. destruct (MemTable_Iterator_yields m l Hr) as (it & E & Hy).
  unfold MemTable_Records. rewrite E. cbn [mbind option_bind].
  by eapply drain_yields, repr_arena_length.
Qed.

(** The memtable implements a versioned table. *)
Global Program Instance MemTable_table : VersionedTable MemTable := {|
  vt_new := MemTable_New;
  vt_put := MemTable_Put;
  vt_getAt := MemTable_GetAt;
  vt_len := MemTable_Len;
  vt_records := MemTable_Records;
  vt_repr := fun m l => repr (data m) l;
|}.
Next Obligation.
  intros r. destruct (New_repr r defaultMaxLevel) as (s & E & Hr); [done |].
  unfold MemTable_New, New. rewrite E. simpl. eauto.
Qed.
Next Obligation.
  intros rec m l Hr. destruct (Put_repr rec _ _ Hr) as (s' & E & Hr').
  unfold MemTable_Put. rewrite E. simpl. eauto.
Qed.
Next Obligation. intros m l key maxSeq Hr. by apply GetAt_repr. Qed.
Next Obligation. intros m l Hr. by apply Len_repr. Qed.
Next Obligation. intros m l Hr. by apply MemTable_Records_repr. Qed.
Next Obligation. intros m l [A Hr]. apply Hr. Qed.

(** The specification is itself a versioned table: the sorted list of its
    records. *)
Definition SpecTable : Type := list record.

Global Program Instance SpecTable_table : VersionedTable SpecTable := {|
  vt_new := fun _ => Some [];
  vt_put := fun rec l => Some (list_put rec l);
  vt_getAt := fun l key maxSeq => Some (newest key maxSeq l);
  vt_len := key_count;
  vt_records := Some;
  vt_repr := fun t l => t = l /\ sorted l;
|}.
Next Obligation. intros r. exists []. split; [done |]. split; [done | constructor]. Qed.
Next Obligation. intros rec t l [-> Hs]. eauto using list_put_sorted. Qed.
Next Obligation. by intros t l key maxSeq [-> _]. Qed.
Next Obligation. by intros t l [-> _]. Qed.
Next Obligation. by intros t l [-> _]. Qed.
Next Obligation. by intros t l [-> Hs]. Qed.
