(* ===== verification/MemTableClaims.v ===== *)
(** * Properties of the memtable

    The memtable and the skip list behind it, from [New] through any sequence
    of writes: what is stored, what lookups and [Len] answer, what the two
    iterators yield. *)

From S2P Require Export Versions SkipList SkipListRefine MemTable.

(** ** The specification: the last write of every version *)

(** [r] was written and no later write has its key and sequence number. *)
Definition last_written (rs : list record) (r : record) : Prop :=
  exists rs1 rs2, rs = rs1 ++ r :: rs2 /\ Forall (fun r' => same_version r r' = false) rs2.

Lemma same_version_sym a b : same_version a b = same_version b a.
Proof.
  apply eq_true_iff_eq. rewrite !same_version_spec. split; by intros [-> ->].
Qed.

Lemma last_written_snoc rs r x :
  last_written (rs ++ [r]) x <-> x = r \/ last_written rs x /\ same_version x r = false.
Proof.
  split.
  - intros (rs1 & rs2 & E & F). destruct rs2 as [|z rs2' _] using rev_ind.
    + apply app_inj_tail in E as [_ <-]. by left.
    + rewrite app_comm_cons, app_assoc in E. apply app_inj_tail in E as [-> <-].
      apply Forall_app in F as [F F']. right. split; [by exists rs1, rs2' |].
      by apply Forall_cons in F' as [? _].
  - intros [-> | [(rs1 & rs2 & -> & F) Hx]]; [by exists rs, [] |].
    exists rs1, (rs2 ++ [r]). rewrite <- app_assoc. split; [done |]. apply Forall_app. split; [done |].
    by apply Forall_cons.
Qed.

Lemma rec_lt_not_same a b : rec_lt a b -> same_version a b = false.
Proof.
  intros H. apply not_true_iff_false. intros [E1 E2]%same_version_spec.
  apply rec_lt_iff in H as [H | [_ H]]; [rewrite E1 in H; key_order | lia].
Qed.

Lemma elem_of_list_put rec l x :
  sorted l -> x ∈ list_put rec l <-> x = rec \/ x ∈ l /\ same_version x rec = false.
Proof.
  intros Hs. induction Hs as [|a l Hs IH Ha]; simpl.
  - rewrite list_elem_of_singleton. split; [by left |]. intros [? | [[]%not_elem_of_nil _]]; done.
  - rewrite Forall_forall in Ha. destruct (less a rec) eqn:El; [| destruct (same_version a rec) eqn:Es].
    + rewrite !elem_of_cons, IH. split; [| tauto]. intros [-> | H]; [| tauto].
      right. split; [by left | by apply rec_lt_not_same].
    + assert (Hl : forall y, y ∈ l -> same_version y rec = false).
      { intros y Hy. rewrite same_version_sym. apply rec_lt_not_same.
        unfold rec_lt. rewrite <- (less_same a y rec Es). by apply Ha. }
      rewrite !elem_of_cons. split; [intros [-> | H]; auto |].
      intros [-> | [[-> | H] Hx]]; [by left | congruence | by right].
    + assert (Hlt : rec_lt rec a) by (by apply less_false_neq).
      assert (Hl : forall y, y ∈ l -> same_version y rec = false).
      { intros y Hy. rewrite same_version_sym. apply rec_lt_not_same. transitivity a; auto. }
      rewrite !elem_of_cons. split; [| tauto]. intros [-> | [-> | H]]; auto.
Qed.

(** ** Any versioned table *)

Section table.
Context {T : Type} `{!VersionedTable T}.

Definition put_writes (rs : list record) (t : T) : option T :=
  foldl (fun t r => t ← t; vt_put r t) (Some t) rs.

Lemma put_writes_repr rs t :
  vt_repr t [] -> exists t' l, put_writes rs t = Some t' /\ vt_repr t' l /\
    forall x, x ∈ l <-> last_written rs x.
Proof.
  intros Ht. induction rs as [|r rs IH] using rev_ind.
  - exists t, []. split; [done |]. split; [done |]. intros x. split; [by intros ?%not_elem_of_nil |].
    intros (rs1 & rs2 & E & _). by destruct rs1.
  - destruct IH as (t1 & l & E & Hr & Hl). destruct (vt_put_ok r t1 l Hr) as (t2 & E2 & Hr2).
    exists t2, (list_put r l). unfold put_writes in *. rewrite foldl_app, E. split; [done |]. split; [done |].
    intros x. by rewrite elem_of_list_put, last_written_snoc, Hl by (by eapply vt_sorted).
Qed.
End table.

(** Two versions of the same key and sequence number that are both the last
    one written are the same record. *)
Lemma last_written_unique rs a b :
  last_written rs a -> last_written rs b -> same_version a b = true -> a = b.
Proof.
  induction rs as [|r rs IH] using rev_ind; [by intros ([] & ? & ? & _) |].
  rewrite !last_written_snoc. intros [-> | [Ha Ea]] [-> | [Hb Eb]] E; [done | | | auto].
  - rewrite same_version_sym in E. congruence.
  - congruence.
Qed.

(** The bound that admits every sequence number. *)
Definition allSeqs : Z := u64_max.

Lemma Get_newest l key :
  sorted l -> Forall (fun r => Seq r <= u64_max) l ->
  hd_error (filter (fun r => Key r = key) l) = newest key allSeqs l.
Proof.
  intros Hs Hf. rewrite newest_sorted by done. replace (filter (fun r => Key r = key) l)
    with (filter (visible key allSeqs) l); [by destruct (filter (visible key allSeqs) l) |].
  apply list_filter_iff_in. intros r Hr. rewrite Forall_forall in Hf. unfold visible, allSeqs.
  split; [by intros [? _] |]. intros ?. split; [done | by apply Hf].
Qed.

(** ** The memtable *)

(** C25: the memtable is a multi-version map.  From [New], for every seed of the
    level generator and every sequence of writes, no operation panics; the
    table holds, in key and descending sequence order, exactly the last write
    of every key and sequence number; [GetAt] answers the newest version at or
    below the bound, and [Len] the number of distinct keys. *)
Theorem memtable_contents (r : rand) (rs : list record) :
  exists m0 m l, MemTable_New r = Some m0 /\ put_writes rs m0 = Some m /\
    MemTable_Records m = Some l /\ sorted l /\
    (forall x, x ∈ l <-> last_written rs x) /\
    (forall key maxSeq, MemTable_GetAt m key maxSeq = Some (newest key maxSeq l)) /\
    MemTable_Len m = len (remove_dups (Key <$> l)).
Proof.
  destruct (vt_new_ok (T := MemTable) r) as (m0 & E0 & H0).
  destruct (put_writes_repr rs m0 H0) as (m & l & E & Hr & Hl).
  exists m0, m, l. split; [exact E0 |]. split; [exact E |].
  split; [exact (vt_records_ok m l Hr) |]. split; [by apply (vt_sorted m l) |]. split; [exact Hl |].
  split; [intros; exact (vt_getAt_ok m l _ _ Hr) | exact (vt_len_ok m l Hr)].
Qed.

(** [Get] is the read at the largest sequence number, for writes whose
    sequence numbers are 64-bit. *)
Theorem memtable_get_latest (r : rand) (rs : list record) key :
  Forall (fun x => Seq x <= u64_max) rs ->
  exists m0 m, MemTable_New r = Some m0 /\ put_writes rs m0 = Some m /\
    MemTable_Get m key = MemTable_GetAt m key u64_max.
Proof.
  intros Hf. destruct (vt_new_ok (T := MemTable) r) as (m0 & E0 & H0).
  destruct (put_writes_repr rs m0 H0) as (m & l & E & Hr & Hl).
  exists m0, m. split; [exact E0 |]. split; [exact E |]. unfold MemTable_Get, MemTable_GetAt.
  rewrite (Get_repr (data m) l) by exact Hr. rewrite (GetAt_repr (data m) l) by exact Hr. f_equal.
  apply Get_newest; [by apply (vt_sorted m l) |]. apply Forall_forall. intros x Hx.
  rewrite Forall_forall in Hf. apply Hf. apply Hl in Hx as (rs1 & rs2 & -> & _). set_solver.
Qed.

Definition put_example : list record :=
  [mkRecord [x62] 1 (mkEntry [x01] false) 0 BatchNone; mkRecord [x61] 2 (mkEntry [x02] false) 0 BatchNone;
   mkRecord [x61] 5 (mkEntry [] true) 0 BatchNone; mkRecord [x61] 2 (mkEntry [x03] false) 0 BatchNone].

Lemma memtable_get_latest_witness :
  exists m0 m, MemTable_New (mkRand (fun n => Z.of_nat n) 0) = Some m0 /\ put_writes put_example m0 = Some m /\
    MemTable_Get m [x61] = MemTable_GetAt m [x61] u64_max.
Proof.
  refine (memtable_get_latest (mkRand (fun n => Z.of_nat n) 0) put_example [x61] _).
  repeat constructor; vm_compute; congruence.
Defined.

(** Both iterators agree with the table.  After any writes, the live
    iterator and the snapshot iterator yield the sorted contents; after
    [Seek(key)] they yield exactly the records at or after the key, wherever
    they stood before. *)
Theorem memtable_iterators (r : rand) (rs : list record) key :
  exists m0 m l it it' sn sn', MemTable_New r = Some m0 /\ put_writes rs m0 = Some m /\
    MemTable_Records m = Some l /\
    MemTable_Iterator m = Some it /\ yields it l /\
    MIterator_Seek key it = Some (None, it') /\ yields it' (from_key key l) /\
    MemTable_SnapshotIterator m = Some sn /\ yields sn l /\
    Snapshot_Seek key sn = Some (None, sn') /\ yields sn' (from_key key l).
Proof.
  destruct (vt_new_ok (T := MemTable) r) as (m0 & E0 & H0).
  destruct (put_writes_repr rs m0 H0) as (m & l & E & Hr & Hl).
  destruct (MemTable_Iterator_yields m l Hr) as (it & E1 & Y1).
  destruct (MIterator_Seek_yields m l it key Hr) as (it' & E2 & Y2).
  { unfold MemTable_Iterator, Iterator_new in E1. destruct (next_of _ _ _); simpl in E1; [| done].
    by injection E1 as <-. }
  destruct (Snapshot_Seek_yields l (-1) zero_record key) as (sn' & E3 & Y3); [by apply (vt_sorted m l) |].
  exists m0, m, l, it, it', (mkSnapshot l (-1) zero_record), sn'.
  unfold MemTable_SnapshotIterator. rewrite (MemTable_Records_repr m l Hr).
  do 3 (split; [done |]). do 5 (split; [done |]).
  split; [apply (Snapshot_yields l (-1)); lia | done].
Qed.

Definition put_example_answers : option (list Z * Z) :=
  m0 ← MemTable_New (mkRand (fun n => Z.of_nat n) 0);
  m ← put_writes put_example m0;
  l ← MemTable_Records m;
  Some (map Seq l, MemTable_Len m).

Example put_example_contents : put_example_answers = Some ([5; 2; 1], 2).
Proof. vm_compute. reflexivity. Qed.
