(* ===== verification/Wal.v ===== *)
(** * The write-ahead log

    Models [internal/wal]: a segment file is its list of bytes, a 12-byte
    header followed by frames [length | CRC-32C | payload].  Appending never
    fails here (the calls to the operating system that the code wraps return
    their error to the caller); every other error of the source is kept.
    Replay is generic in the table it fills, through [VersionedTable]. *)

From S2P Require Import Crc32 MemTable SkipListRefine SkipList.

Definition walVersion : Z := 1.
Definition walHeaderSize : nat := 12.
Definition frameHeaderSize : nat := 8.
Definition batchMetadataSize : nat := 9.
Definition maxFramePayload : Z :=
  Z.of_nat batchMetadataSize + Z.of_nat HeaderSize + MaxKeySize + MaxValueSize.

(** ['H' 'Y' 'P' 'H' 'A' 'W' 'A' 'L'] *)
Definition walMagic : bytes := map z2b [72; 89; 80; 72; 65; 87; 65; 76].

Inductive wal_error : Type :=
| WalHeaderRead          (** [ErrCorruptWAL: read header] *)
| WalBadMagic            (** [ErrCorruptWAL: invalid file magic] *)
| WalBadVersion (v : Z)  (** [ErrCorruptWAL: unsupported version] *)
| WalFrameTooLong (n : Z)
| WalChecksum (offset : Z)
| WalDecode (offset : Z)
| WalKeyTooLong (n : Z)
| WalValueTooLong (n : Z)
| WalBadKind (k : Z)
| WalPayloadTooSmall
| WalRecord (e : decode_error)
| WalTrailing (n : Z).

Definition writeWALHeader : bytes := walMagic ++ PutUint32 walVersion.

(** [r.ReadAt(header, 0)] fails when fewer than 12 bytes are there. *)
Definition validateWALHeader (file : bytes) : result wal_error unit :=
  '(header, _) ← map_err (fun _ => WalHeaderRead) (ReadFull walHeaderSize file);
  _ ← guard_err (negb (bool_decide (slice 0 8 header = walMagic))) WalBadMagic;
  let version := Uint32 (slice 8 12 header) in
  guard_err (negb (version =? walVersion)) (WalBadVersion version).

(** [NewSegmentInDir] on the content of the segment file, empty when it has
    just been created: the content after opening it for appending. *)
Definition NewSegment (file : bytes) : result wal_error bytes :=
  if len file =? 0 then Ok (file ++ writeWALHeader)
  else _ ← validateWALHeader file; Ok file.

Definition encodeRecord (rec : record) : result wal_error bytes :=
  _ ← guard_err (len (Key rec) >? MaxKeySize) (WalKeyTooLong (len (Key rec)));
  _ ← guard_err (len (rValue rec) >? MaxValueSize) (WalValueTooLong (len (rValue rec)));
  _ ← guard_err (BatchKind rec >? BatchCommit) (WalBadKind (BatchKind rec));
  Ok ([z2b (BatchKind rec)] ++ PutUint64 (BatchID rec) ++ EncodeBinary rec).

Definition decodeRecord (payload : bytes) : result wal_error record :=
  _ ← guard_err (len payload <? Z.of_nat (batchMetadataSize + HeaderSize)) WalPayloadTooSmall;
  let kind := le_Z (slice 0 1 payload) in
  _ ← guard_err (kind >? BatchCommit) (WalBadKind kind);
  let batchID := Uint64 (slice 1 9 payload) in
  '(rec, r) ← map_err WalRecord (DecodeBinary true (drop batchMetadataSize payload));
  _ ← guard_err (negb (len r =? 0)) (WalTrailing (len r));
  Ok (set_batch batchID kind rec).

Definition frameChecksum (length_ payload : bytes) : Z :=
  crc_Update (crc_Update 0 length_) payload.

(** The frame [WriteRecord] appends. *)
Definition frame (rec : record) : result wal_error bytes :=
  payload ← encodeRecord rec;
  let length_ := PutUint32 (u32 (len payload)) in
  Ok (length_ ++ PutUint32 (frameChecksum length_ payload) ++ payload).

Definition WriteRecord (rec : record) (file : bytes) : option wal_error * bytes :=
  match frame rec with
  | Ok f => (None, file ++ f)
  | Err e => (Some e, file)
  end.

(** [WAL.Write]. *)
Definition WAL_Write (key : bytes) (seq : Z) (value : bytes) (file : bytes) : option wal_error * bytes :=
  WriteRecord (mkRecord key seq (mkEntry value false) 0 BatchNone) file.

Fixpoint WriteRecords (recs : list record) (file : bytes) : option wal_error * bytes :=
  match recs with
  | [] => (None, file)
  | rec :: recs =>
      match WriteRecord rec file with
      | (None, file) => WriteRecords recs file
      | err => err
      end
  end.

(** The records a batch is written as: a begin marker, the operations, a
    commit marker.  An error in the middle leaves the frames before it.  The
    sync that ends [WriteBatch] is part of [applyBatch], which has the
    environment that may fail it. *)
Definition batch_records (batchID : Z) (records : list record) : list record :=
  set_batch batchID BatchBegin zero_record ::
  (set_batch batchID BatchOperation <$> records) ++
  [set_batch batchID BatchCommit zero_record].

Definition WriteBatch (batchID : Z) (records : list record) (file : bytes) : option wal_error * bytes :=
  WriteRecords (batch_records batchID records) file.

(** ** Replay *)

Section replay.
Context {T : Type} `{!VersionedTable T}.

(** [for _, operation := range records { ...; mt.Put(operation) }] *)
Fixpoint put_all (recs : list record) (mt : T) : option T :=
  match recs with
  | [] => Some mt
  | rec :: recs => mt ← vt_put rec mt; put_all recs mt
  end.

Record replay_state := mkReplay {
  rp_offset : Z;                         (** validOffset *)
  rp_pending : gmap Z (list record);
  rp_max : Z;                            (** stats.MaxSequence *)
  rp_mt : T;
}.

(** The [switch rec.BatchKind]; [None] is a panic of the table. *)
Definition replay_record (rec : record) (pending : gmap Z (list record)) (mt : T)
    : option (gmap Z (list record) * T) :=
  if BatchKind rec =? BatchNone then
    mt ← vt_put rec mt; Some (pending, mt)
  else if BatchKind rec =? BatchBegin then
    Some (<[BatchID rec := []]> pending, mt)
  else if BatchKind rec =? BatchOperation then
    match pending !! BatchID rec with
    | Some ops => Some (<[BatchID rec := ops ++ [rec]]> pending, mt)
    | None => Some (pending, mt)
    end
  else if BatchKind rec =? BatchCommit then
    match pending !! BatchID rec with
    | Some ops =>
        mt ← put_all (set_batch 0 BatchNone <$> ops) mt;
        Some (delete (BatchID rec) pending, mt)
    | None => Some (pending, mt)
    end
  else Some (pending, mt).

Definition max_sequence (m : Z) (rec : record) : Z :=
  let m := if Seq rec >? m then Seq rec else m in
  if BatchID rec >? m then BatchID rec else m.

(** How the loop ends: at the end of the file, or at a torn frame, after
    which the file is truncated to the frames before it. *)
Inductive replay_end : Type := AtEOF | Torn.

Fixpoint replay_loop (fuel : nat) (rest : bytes) (st : replay_state)
    : option (result wal_error replay_end * replay_state) :=
  match fuel with
  | O => None
  | S fuel =>
      match ReadFull frameHeaderSize rest with
      | Err EOF => Some (Ok AtEOF, st)
      | Err ErrUnexpectedEOF => Some (Ok Torn, st)
      | Ok (header, rest) =>
          let payloadLen := Uint32 (slice 0 4 header) in
          if payloadLen >? maxFramePayload then Some (Err (WalFrameTooLong payloadLen), st)
          else
            match ReadFull (Z.to_nat payloadLen) rest with
            | Err _ => Some (Ok Torn, st)
            | Ok (payload, rest) =>
                let want := Uint32 (slice 4 8 header) in
                let got := frameChecksum (slice 0 4 header) payload in
                if negb (want =? got) then Some (Err (WalChecksum (rp_offset st)), st)
                else
                  match decodeRecord payload with
                  | Err _ => Some (Err (WalDecode (rp_offset st)), st)
                  | Ok rec =>
                      '(pending, mt) ← replay_record rec (rp_pending st) (rp_mt st);
                      replay_loop fuel rest
                        (mkReplay (rp_offset st + Z.of_nat frameHeaderSize + payloadLen)
                           pending (max_sequence (rp_max st) rec) mt)
                  end
            end
      end
  end.

(** [ReplayIntoWithStats]: the outcome, the statistics, the table and the
    content of the file afterwards.  [None] for [file] is a missing file.
    Every frame has at least 8 bytes, so one step per byte is enough. *)
Definition ReplayIntoWithStats (file : option bytes) (mt : T)
    : option (result wal_error Z * T * option bytes) :=
  match file with
  | None => Some (Ok 0, mt, None)
  | Some file =>
      if len file =? 0 then Some (Ok 0, mt, Some file)
      else
        match validateWALHeader file with
        | Err e => Some (Err e, mt, Some file)
        | Ok _ =>
            '(r, st) ← replay_loop (S (length file)) (drop walHeaderSize file)
                         (mkReplay (Z.of_nat walHeaderSize) ∅ 0 mt);
            match r with
            | Err e => Some (Err e, rp_mt st, Some file)
            | Ok AtEOF => Some (Ok (rp_max st), rp_mt st, Some file)
            | Ok Torn => Some (Ok (rp_max st), rp_mt st, Some (take (Z.to_nat (rp_offset st)) file))
            end
        end
  end.
End replay.

(** ** Frames *)

Definition payload_of (rec : record) : bytes :=
  [z2b (BatchKind rec)] ++ PutUint64 (BatchID rec) ++ EncodeBinary rec.

Definition frame_with (sum : Z) (payload : bytes) : bytes :=
  PutUint32 (len payload) ++ PutUint32 sum ++ payload.

Definition frame_of (rec : record) : bytes :=
  frame_with (frameChecksum (PutUint32 (len (payload_of rec))) (payload_of rec)) (payload_of rec).

Lemma frameChecksum_u32 a b : is_u32 (frameChecksum a b).
Proof. unfold frameChecksum. rewrite crc_Update_app. apply crc_Checksum_u32. Qed.

Lemma len_payload_of rec :
  len (payload_of rec) = Z.of_nat batchMetadataSize + Z.of_nat HeaderSize + len (Key rec) + len (rValue rec).
Proof.
  unfold payload_of. rewrite !len_app, <- EncodedSize_length. unfold EncodedSize.
  change (len [z2b (BatchKind rec)]) with 1.
  assert (len (PutUint64 (BatchID rec)) = 8) as -> by (unfold len; by rewrite length_PutUint64).
  unfold batchMetadataSize. lia.
Qed.

Lemma payload_bounds rec : wf_record rec -> 0 <= len (payload_of rec) <= maxFramePayload.
Proof.
  intros (Hk & Hv & _). rewrite len_payload_of. unfold maxFramePayload.
  pose proof (len_nonneg (Key rec)). pose proof (len_nonneg (rValue rec)). lia.
Qed.

Lemma payload_u32 rec : wf_record rec -> is_u32 (len (payload_of rec)).
Proof.
  intros H%payload_bounds. unfold is_u32, u32_max, maxFramePayload in *.
  unfold MaxKeySize, MaxValueSize, batchMetadataSize, HeaderSize in *. lia.
Qed.

Lemma encodeRecord_wf rec : wf_record rec -> encodeRecord rec = Ok (payload_of rec).
Proof.
  intros (Hk & Hv & _ & _ & Hb). unfold encodeRecord.
  rewrite !guard_err_false by lia. done.
Qed.

(** A record within the limits is always written, as [frame_of]. *)
Lemma frame_wf rec : wf_record rec -> frame rec = Ok (frame_of rec).
Proof.
  intros Hwf. unfold frame. rewrite encodeRecord_wf by done. cbn [mbind result_bind].
  by rewrite u32_id by (by apply payload_u32).
Qed.

Lemma payload_fields rec :
  wf_record rec ->
  le_Z (slice 0 1 (payload_of rec)) = BatchKind rec /\
  Uint64 (slice 1 9 (payload_of rec)) = BatchID rec /\
  drop batchMetadataSize (payload_of rec) = EncodeBinary rec.
Proof.
  intros (_ & _ & _ & Hid & Hk). unfold payload_of, slice, batchMetadataSize.
  pose proof (length_PutUint64 (BatchID rec)) as L. split_and!.
  - change (take (1 - 0) (drop 0 ?x)) with (take 1 x). rewrite take_app_length' by done.
    unfold le_Z. rewrite b2z_z2b, Z.mod_small; [lia |].
    unfold BatchNone, BatchCommit in Hk. lia.
  - rewrite drop_app_length' by done. change (9 - 1)%nat with 8%nat.
    rewrite take_app_length' by done.
    rewrite <- (app_nil_r (PutUint64 _)). by apply Uint64_PutUint64.
  - rewrite app_assoc, drop_app_length' by (by rewrite length_app, L). done.
Qed.

(** A frame's payload decodes to the record it was written for, batch tags
    included. *)
Lemma decodeRecord_payload rec : wf_record rec -> decodeRecord (payload_of rec) = Ok rec.
Proof.
  intros Hwf. destruct (payload_fields rec Hwf) as (E1 & E2 & E3). unfold decodeRecord.
  rewrite E1, E2, E3.
  pose proof (len_nonneg (Key rec)). pose proof (len_nonneg (rValue rec)).
  pose proof Hwf as (_ & _ & _ & _ & Hk).
  assert (Hl : (len (payload_of rec) <? Z.of_nat (batchMetadataSize + HeaderSize)) = false)
    by (rewrite len_payload_of; apply Z.ltb_ge; lia).
  assert (Hkb : (BatchKind rec >? BatchCommit) = false) by lia.
  rewrite Hl, Hkb, !guard_err_false by done.
  cbn [mbind result_bind]. rewrite <- (app_nil_r (EncodeBinary rec)), DecodeBinary_EncodeBinary by done.
  cbn [mbind result_bind map_err]. rewrite guard_err_false by done.
  by destruct rec.
Qed.

Lemma frame_header_split sum p rest :
  is_u32 (len p) -> is_u32 sum ->
  exists header, frame_with sum p ++ rest = header ++ p ++ rest /\ length header = frameHeaderSize /\
    slice 0 4 header = PutUint32 (len p) /\ Uint32 (slice 0 4 header) = len p /\
    Uint32 (slice 4 8 header) = sum.
Proof.
  intros Hl Hs. exists (PutUint32 (len p) ++ PutUint32 sum).
  pose proof (length_PutUint32 (len p)) as L1. pose proof (length_PutUint32 sum) as L2.
  unfold frame_with, frameHeaderSize, slice. rewrite <- !app_assoc, length_app, L1, L2.
  change (take (4 - 0) (drop 0 ?x)) with (take 4 x). rewrite take_app_length' by done.
  rewrite drop_app_length' by done. change (8 - 4)%nat with 4%nat.
  rewrite take_ge by lia. split_and!; try done.
  - rewrite <- (app_nil_r (PutUint32 _)). by apply Uint32_PutUint32.
  - rewrite <- (app_nil_r (PutUint32 _)). by apply Uint32_PutUint32.
Qed.

Lemma length_frame_with sum p : length (frame_with sum p) = (frameHeaderSize + length p)%nat.
Proof. unfold frame_with. rewrite !length_app, !length_PutUint32. done. Qed.

(** ** The abstract meaning of a log *)

(** The puts that one frame causes, and the batches still open after it. *)
Definition log_step (rec : record) (pending : gmap Z (list record))
    : list record * gmap Z (list record) :=
  if BatchKind rec =? BatchNone then ([rec], pending)
  else if BatchKind rec =? BatchBegin then ([], <[BatchID rec := []]> pending)
  else if BatchKind rec =? BatchOperation then
    match pending !! BatchID rec with
    | Some ops => ([], <[BatchID rec := ops ++ [rec]]> pending)
    | None => ([], pending)
    end
  else if BatchKind rec =? BatchCommit then
    match pending !! BatchID rec with
    | Some ops => (set_batch 0 BatchNone <$> ops, delete (BatchID rec) pending)
    | None => ([], pending)
    end
  else ([], pending).

Fixpoint log_run (recs : list record) (pending : gmap Z (list record))
    : list record * gmap Z (list record) :=
  match recs with
  | [] => ([], pending)
  | rec :: recs =>
      let '(puts, pending) := log_step rec pending in
      let '(puts', pending) := log_run recs pending in
      (puts ++ puts', pending)
  end.

(** The records a log makes visible, in the order they are put. *)
Definition log_puts (recs : list record) : list record := fst (log_run recs ∅).

(** Putting a list of records into a sorted list, in order. *)
Definition list_puts (puts : list record) (l : list record) : list record :=
  fold_left (fun l rec => list_put rec l) puts l.

Definition log_max (recs : list record) (m : Z) : Z := fold_left max_sequence recs m.

Definition frames (recs : list record) : bytes := concat (frame_of <$> recs).

Lemma log_run_app r1 r2 pending :
  log_run (r1 ++ r2) pending =
  let '(p1, pending) := log_run r1 pending in
  let '(p2, pending) := log_run r2 pending in (p1 ++ p2, pending).
Proof.
  revert pending. induction r1 as [|r r1 IH]; intros pending; simpl.
  - by destruct (log_run r2 pending).
  - destruct (log_step r pending) as [p0 pd0]. rewrite IH.
    destruct (log_run r1 pd0) as [p1 pd1]. destruct (log_run r2 pd1) as [p2 pd2].
    by rewrite app_assoc.
Qed.

Lemma log_max_spec recs m r :
  r ∈ recs -> Seq r <= log_max recs m /\ BatchID r <= log_max recs m.
Proof.
  assert (Hmono : forall recs m, m <= log_max recs m).
  { clear. intros recs. induction recs as [|r recs IH]; intros m; simpl; [lia |].
    specialize (IH (max_sequence m r)). unfold max_sequence in *. unfold log_max in *.
    destruct (Z.gtb_spec (Seq r) m), (Z.gtb_spec (BatchID r) m), (Z.gtb_spec (BatchID r) (Seq r)); lia. }
  revert m. induction recs as [|a recs IH]; intros m Hr; [set_solver |].
  apply elem_of_cons in Hr as [-> | Hr]; [| by apply IH].
  simpl. specialize (Hmono recs (max_sequence m a)). unfold log_max in *.
  unfold max_sequence in *.
  destruct (Z.gtb_spec (Seq a) m), (Z.gtb_spec (BatchID a) m), (Z.gtb_spec (BatchID a) (Seq a)); lia.
Qed.

Arguments replay_state : clear implicits.

Section replay_proofs.
Context {T : Type} `{!VersionedTable T}.

Lemma put_all_repr recs (mt : T) l :
  vt_repr mt l -> exists mt', put_all recs mt = Some mt' /\ vt_repr mt' (list_puts recs l).
Proof.
  revert mt l. induction recs as [|r recs IH]; intros mt l Hr; simpl; [eauto |].
  destruct (vt_put_ok r mt l Hr) as (mt1 & -> & Hr1). simpl. by apply IH.
Qed.

Lemma replay_record_repr rec pending (mt : T) l :
  vt_repr mt l ->
  exists mt', replay_record rec pending mt = Some (snd (log_step rec pending), mt') /\
    vt_repr mt' (list_puts (fst (log_step rec pending)) l).
Proof.
  intros Hr. unfold replay_record, log_step.
  destruct (BatchKind rec =? BatchNone).
  { destruct (vt_put_ok rec mt l Hr) as (mt1 & -> & Hr1). simpl. eauto. }
  destruct (BatchKind rec =? BatchBegin); [simpl; eauto |].
  destruct (BatchKind rec =? BatchOperation).
  { destruct (pending !! BatchID rec); simpl; eauto. }
  destruct (BatchKind rec =? BatchCommit); [| simpl; eauto].
  destruct (pending !! BatchID rec) as [ops|]; [| simpl; eauto].
  destruct (put_all_repr (set_batch 0 BatchNone <$> ops) mt l Hr) as (mt' & E & Hr').
  rewrite E. simpl. eauto.
Qed.

Definition advance_state (rec : record) (pending : gmap Z (list record)) (mt : T) (st : replay_state T) :=
  mkReplay (rp_offset st + len (frame_of rec)) pending (max_sequence (rp_max st) rec) mt.

(** One iteration of the loop on a well-formed frame. *)
Lemma replay_loop_frame fuel rec rest (st : replay_state T) :
  wf_record rec ->
  replay_loop (S fuel) (frame_of rec ++ rest) st =
  '(pending, mt) ← replay_record rec (rp_pending st) (rp_mt st);
  replay_loop fuel rest (advance_state rec pending mt st).
Proof.
  intros Hwf. pose proof (payload_u32 rec Hwf) as Hu. pose proof (payload_bounds rec Hwf) as Hb.
  destruct (frame_header_split (frameChecksum (PutUint32 (len (payload_of rec))) (payload_of rec))
    (payload_of rec) rest Hu (frameChecksum_u32 _ _)) as (h & Hh & Lh & S1 & U1 & U2).
  fold (frame_of rec) in Hh. cbn [replay_loop].
  rewrite Hh, ReadFull_app, U1 by done.
  destruct (Z.gtb_spec (len (payload_of rec)) maxFramePayload); [lia |].
  rewrite ReadFull_app by (unfold len; lia).
  rewrite U2, S1, Z.eqb_refl, decodeRecord_payload by done. cbn [negb].
  destruct (replay_record rec (rp_pending st) (rp_mt st)) as [[pd mt]|]; [| done].
  cbn [mbind option_bind]. unfold advance_state, frame_of.
  replace (len (frame_with (frameChecksum (PutUint32 (len (payload_of rec))) (payload_of rec)) (payload_of rec)))
    with (Z.of_nat frameHeaderSize + len (payload_of rec))
    by (unfold len; rewrite length_frame_with; lia).
  by rewrite Z.add_assoc.
Qed.

(** The loop on a sequence of well-formed frames. *)
Lemma replay_loop_frames recs (st : replay_state T) l :
  Forall wf_record recs -> vt_repr (rp_mt st) l ->
  exists mt', vt_repr mt' (list_puts (fst (log_run recs (rp_pending st))) l) /\
    forall rest fuel, replay_loop (length recs + fuel) (frames recs ++ rest) st =
    replay_loop fuel rest
      (mkReplay (rp_offset st + len (frames recs)) (snd (log_run recs (rp_pending st)))
         (log_max recs (rp_max st)) mt').
Proof.
  intros Hwf. revert st l. induction Hwf as [|rec recs Hrec Hwf IH]; intros st l Hr.
  - exists (rp_mt st). split; [done |]. intros rest fuel. simpl. rewrite Z.add_0_r. by destruct st.
  - destruct (replay_record_repr rec (rp_pending st) (rp_mt st) l Hr) as (mt1 & E & Hr1).
    destruct (IH (advance_state rec (snd (log_step rec (rp_pending st))) mt1 st) _ Hr1) as (mt' & Hr' & E').
    exists mt'. cbn [rp_pending rp_offset rp_max advance_state] in *.
    cbn [log_run]. destruct (log_step rec (rp_pending st)) as [p1 pd1] eqn:Es. cbn [fst snd] in *.
    destruct (log_run recs pd1) as [p2 pd2]. cbn [fst snd] in *. split.
    + unfold list_puts in *. by rewrite fold_left_app.
    + intros rest fuel. unfold frames. rewrite fmap_cons. cbn [concat].
      rewrite <- app_assoc. cbn [length Nat.add].
      rewrite replay_loop_frame, E by done. cbn [mbind option_bind].
      fold (frames recs). rewrite E'. rewrite len_app, Z.add_assoc. done.
Qed.
(** [p] is what a crash may leave of one frame: nothing, or a strict prefix. *)
Definition torn (p : bytes) : Prop :=
  p = [] \/ exists rec q, wf_record rec /\ frame_of rec = p ++ q /\ q <> [].

Lemma replay_loop_torn fuel p (st : replay_state T) :
  torn p ->
  replay_loop (S fuel) p st = Some (Ok (if decide (p = []) then AtEOF else Torn), st).
Proof.
  intros [-> | (rec & q & Hwf & Hf & Hq)]; [done |]. cbn [replay_loop].
  assert (Hlen : (length p < length (frame_of rec))%nat).
  { rewrite Hf, length_app. destruct q; [done | simpl; lia]. }
  destruct (ReadFull frameHeaderSize p) as [[h p']|e] eqn:E.
  - apply ReadFull_Ok in E as [-> Lh].
    pose proof (payload_u32 rec Hwf) as Hu. pose proof (payload_bounds rec Hwf) as Hb.
    destruct (frame_header_split _ (payload_of rec) [] Hu
      (frameChecksum_u32 (PutUint32 (len (payload_of rec))) (payload_of rec)))
      as (h' & Hh & Lh' & _ & U1 & _).
    fold (frame_of rec) in Hh. rewrite !app_nil_r in Hh.
    rewrite Hh, <- app_assoc in Hf. apply app_inj_1 in Hf as [<- Hp]; [| lia].
    rewrite U1. destruct (Z.gtb_spec (len (payload_of rec)) maxFramePayload); [lia |].
    destruct (ReadFull (Z.to_nat (len (payload_of rec))) p') as [[pl r]|e] eqn:E'.
    + apply ReadFull_Ok in E' as [-> L]. exfalso.
      apply (f_equal length) in Hp. rewrite !length_app in Hp. unfold len in L.
      destruct q; [done | rewrite length_cons in Hp; lia].
    + rewrite decide_False; [done |]. intros Hn%app_eq_nil. destruct Hn as [-> _]. done.
  - apply ReadFull_short in E as [_ ->]. by destruct p.
Qed.

Lemma frames_length recs : (length recs <= length (frames recs))%nat.
Proof.
  induction recs as [|r recs IH]; [simpl; lia |]. unfold frames in *.
  rewrite fmap_cons. cbn [concat length]. unfold frame_of at 1.
  rewrite length_app, length_frame_with. unfold frameHeaderSize. lia.
Qed.

Lemma validate_written rest : validateWALHeader (writeWALHeader ++ rest) = Ok tt.
Proof. unfold validateWALHeader. by rewrite ReadFull_app by done. Qed.

(** Replaying a log that ends in a torn frame: the records before it are
    applied, and the file is cut back to them. *)
Lemma replay_written recs (mt : T) l :
  Forall wf_record recs -> vt_repr mt l ->
  exists mt', vt_repr mt' (list_puts (log_puts recs) l) /\
    forall p, torn p -> ReplayIntoWithStats (Some (writeWALHeader ++ frames recs ++ p)) mt =
    Some (Ok (log_max recs 0), mt', Some (writeWALHeader ++ frames recs)).
Proof.
  intros Hwf Hr. set (st := mkReplay (Z.of_nat walHeaderSize) ∅ 0 mt).
  destruct (replay_loop_frames recs st l Hwf Hr) as (mt' & Hr' & E).
  exists mt'. split; [done |]. intros p Ht. unfold ReplayIntoWithStats.
  destruct (Z.eqb_spec (len (writeWALHeader ++ frames recs ++ p)) 0) as [He | _].
  { unfold len in He. rewrite length_app in He. simpl in He. lia. }
  rewrite validate_written. change (drop walHeaderSize ?x) with (drop (length writeWALHeader) x).
  rewrite drop_app_length. fold st.
  pose proof (frames_length recs) as Hfl.
  replace (S (length (writeWALHeader ++ frames recs ++ p))) with
    (length recs + S (length (writeWALHeader ++ frames recs ++ p) - length recs))%nat
    by (rewrite !length_app; lia).
  rewrite E, replay_loop_torn by done. cbn [mbind option_bind].
  destruct (decide (p = [])) as [-> | Hp]; [by rewrite app_nil_r |].
  cbn [rp_max rp_offset rp_mt]. do 3 f_equal.
  replace (Z.to_nat (rp_offset st + len (frames recs))) with (length (writeWALHeader ++ frames recs)).
  - rewrite app_assoc. apply take_app_length.
  - rewrite length_app. unfold st, len, walHeaderSize. simpl. lia.
Qed.
End replay_proofs.

(** ** Batches *)

Lemma WriteRecords_wf recs file :
  Forall wf_record recs -> WriteRecords recs file = (None, file ++ frames recs).
Proof.
  intros H. revert file. induction H as [|r recs Hr _ IH]; intros file.
  - unfold frames. simpl. by rewrite app_nil_r.
  - cbn [WriteRecords]. unfold WriteRecord. rewrite frame_wf by done. rewrite IH.
    unfold frames. rewrite fmap_cons. cbn [concat]. by rewrite app_assoc.
Qed.

Lemma wf_set_batch id k r :
  is_u64 id -> BatchNone <= k <= BatchCommit -> wf_record r -> wf_record (set_batch id k r).
Proof. unfold wf_record, rValue. simpl. tauto. Qed.

Lemma wf_zero_record : wf_record zero_record.
Proof. vm_compute. intuition congruence. Qed.

Lemma wf_batch_records id ops :
  is_u64 id -> Forall wf_record ops -> Forall wf_record (batch_records id ops).
Proof.
  intros Hid Hops. unfold batch_records, BatchBegin, BatchOperation.
  assert (Hz : forall k, BatchNone <= k <= BatchCommit -> wf_record (set_batch id k zero_record))
    by (intros; apply wf_set_batch; auto using wf_zero_record).
  unfold BatchNone, BatchCommit in *.
  constructor; [apply Hz; lia |]. apply Forall_app. split; [| constructor; [apply Hz; lia | done]].
  apply Forall_fmap. eapply Forall_impl; [exact Hops |]. intros r Hr.
  apply wf_set_batch; [done | unfold BatchNone, BatchCommit; lia | done].
Qed.

Lemma log_step_operation id r ops pending :
  pending !! id = Some ops ->
  log_step (set_batch id BatchOperation r) pending =
  ([], <[id := ops ++ [set_batch id BatchOperation r]]> pending).
Proof. unfold log_step. cbn [BatchKind BatchID set_batch]. intros ->. done. Qed.

Lemma log_step_commit id r ops pending :
  pending !! id = Some ops ->
  log_step (set_batch id BatchCommit r) pending =
  (set_batch 0 BatchNone <$> ops, delete id pending).
Proof. unfold log_step. cbn [BatchKind BatchID set_batch]. intros ->. done. Qed.

(** While a batch is open its operations are only remembered. *)
Lemma log_run_batch_open id ops pending :
  log_run (set_batch id BatchBegin zero_record :: (set_batch id BatchOperation <$> ops)) pending =
  ([], <[id := set_batch id BatchOperation <$> ops]> pending).
Proof.
  induction ops as [|r ops IH] using rev_ind; [done |].
  rewrite fmap_app, app_comm_cons, log_run_app, IH. rewrite fmap_cons, fmap_nil. cbn [log_run].
  erewrite log_step_operation by apply lookup_insert_eq. by rewrite insert_insert_eq.
Qed.

Lemma log_run_batch id ops pending :
  log_run (batch_records id ops) pending = (strip_batch <$> ops, delete id pending).
Proof.
  unfold batch_records. rewrite app_comm_cons, log_run_app, log_run_batch_open.
  cbn [log_run]. erewrite log_step_commit by apply lookup_insert_eq.
  rewrite app_nil_r, delete_insert_eq. f_equal. rewrite <- list_fmap_compose.
  by apply list_fmap_ext.
Qed.

(** Nothing of a batch is applied before its commit marker. *)
Lemma log_run_batch_prefix id ops r1 rec r2 pending :
  batch_records id ops = r1 ++ rec :: r2 -> fst (log_run r1 pending) = [].
Proof.
  intros He. destruct r1 as [|b r1]; [done |]. unfold batch_records in He. injection He as <- He.
  assert (exists k, r1 = set_batch id BatchOperation <$> k) as [k ->].
  { exists (take (length r1) ops). rewrite fmap_take.
    assert (Hlen : (length r1 <= length (set_batch id BatchOperation <$> ops))%nat).
    { apply (f_equal length) in He. rewrite !length_app, length_cons in He. simpl in He. lia. }
    rewrite <- (take_app_le _ [set_batch id BatchCommit zero_record]) by done.
    by rewrite He, take_app_length. }
  by rewrite log_run_batch_open.
Qed.

Lemma frames_app r1 r2 : frames (r1 ++ r2) = frames r1 ++ frames r2.
Proof. unfold frames. by rewrite fmap_app, concat_app. Qed.

(** A strict prefix of a sequence of frames ends inside one of them. *)
Lemma frames_prefix recs p q :
  frames recs = p ++ q -> q <> [] ->
  exists r1 rec r2 p' q', recs = r1 ++ rec :: r2 /\ p = frames r1 ++ p' /\
    frame_of rec = p' ++ q' /\ q' <> [].
Proof.
  revert p. induction recs as [|r recs IH]; intros p He Hq.
  - unfold frames in He. simpl in He. symmetry in He. apply app_eq_nil in He as [_ ?]. done.
  - unfold frames in He. rewrite fmap_cons in He. cbn [concat] in He. fold (frames recs) in He.
    assert (Hrec : forall k, p = frame_of r ++ k -> frames recs = k ++ q ->
      exists r1 rec r2 p' q', r :: recs = r1 ++ rec :: r2 /\ p = frames r1 ++ p' /\
        frame_of rec = p' ++ q' /\ q' <> []).
    { intros k -> Hk. destruct (IH k Hk Hq) as (r1 & rec & r2 & p' & q' & -> & -> & Hf & Hq').
      exists (r :: r1), rec, r2, p', q'. split_and!; try done.
      unfold frames. rewrite fmap_cons. cbn [concat]. by rewrite app_assoc. }
    apply app_eq_inv in He as [(k & Hk & ->) | (k & -> & Hk)].
    + destruct (decide (k = [])) as [-> | Hne].
      * apply (Hrec []); [by rewrite app_nil_r in Hk |- * | done].
      * exists [], r, recs, p, k. done.
    + by apply (Hrec k).
Qed.

Lemma torn_wf rec p q : wf_record rec -> frame_of rec = p ++ q -> q <> [] -> torn p.
Proof. intros. right. eauto. Qed.

(** What is left of a sequence of frames ends with at most one torn frame. *)
Lemma frames_cut recs n : Forall wf_record recs -> exists k p, take n (frames recs) = frames (take k recs) ++ p /\ torn p.
Proof.
  intros Hwf. destruct (decide (drop n (frames recs) = [])) as [Hd | Hd].
  - exists (length recs), []. split; [| by left]. rewrite firstn_all, app_nil_r. apply firstn_all2. apply (f_equal length) in Hd.
    rewrite length_drop in Hd. simpl in Hd. lia.
  - destruct (frames_prefix recs (take n (frames recs)) _ (eq_sym (take_drop n _)) Hd) as (r1 & rec & r2 & p & q & -> & Hp & Hf & Hq).
    exists (length r1), p. rewrite take_app_length. split; [done |]. apply Forall_app in Hwf as [_ Hwf]. apply Forall_cons in Hwf as [Hwf _].
    by eapply torn_wf.
Qed.

(** ** Corruption *)

Lemma le_Z_inj a b : length a = length b -> le_Z a = le_Z b -> a = b.
Proof.
  intros Hl He. rewrite <- (le_bytes_le_Z a), <- (le_bytes_le_Z b). congruence.
Qed.

(** One byte of a frame, after its length field, is changed: the checksum
    test fails. *)
Lemma frame_corrupt rec a x y b rest :
  wf_record rec -> frame_of rec = a ++ x :: b -> (4 <= length a)%nat -> x <> y ->
  exists header payload, a ++ y :: b ++ rest = header ++ payload ++ rest /\
    length header = frameHeaderSize /\ length payload = length (payload_of rec) /\
    Uint32 (slice 0 4 header) = len (payload_of rec) /\
    Uint32 (slice 4 8 header) <> frameChecksum (slice 0 4 header) payload.
Proof.
  intros Hwf Hf Ha Hxy. pose proof (payload_u32 rec Hwf) as Hu.
  set (p := payload_of rec) in *.
  set (ln := PutUint32 (len p)) in *. set (sum := frameChecksum ln p).
  assert (Hsu : is_u32 sum) by apply frameChecksum_u32.
  assert (Lln : length ln = 4%nat) by apply length_PutUint32.
  assert (Lsum : length (PutUint32 sum) = 4%nat) by apply length_PutUint32.
  unfold frame_of in Hf. fold p ln sum in Hf. unfold frame_with in Hf. fold ln in Hf.
  assert (exists a', a = ln ++ a') as [a' ->].
  { exists (drop 4 a). rewrite <- (take_drop 4 a) at 1. f_equal.
    apply (f_equal (take 4)) in Hf. rewrite take_app_length' in Hf by done.
    by rewrite take_app_le in Hf by done. }
  rewrite <- app_assoc in Hf. apply app_inv_head in Hf.
  assert (Hln : forall s, length s = 4%nat ->
    slice 0 4 (ln ++ s) = ln /\ Uint32 (slice 0 4 (ln ++ s)) = len p /\ slice 4 8 (ln ++ s) = s).
  { intros s Ls. unfold slice. change (take (4 - 0) (drop 0 ?z)) with (take 4 z).
    rewrite take_app_length', drop_app_length' by done. change (8 - 4)%nat with 4%nat.
    rewrite (take_ge s) by lia. split_and!; try done.
    rewrite <- (app_nil_r ln). by apply Uint32_PutUint32. }
  apply app_eq_inv in Hf as [(k & Hs & Hp) | (k & -> & Hp)].
  - (* the byte is in the checksum field, or is the first of the payload *)
    destruct k as [|z k].
    + rewrite app_nil_r in Hs. simpl in Hp. subst a'.
      destruct (Hln (PutUint32 sum) Lsum) as (S1 & U1 & S2).
      exists (ln ++ PutUint32 sum), (y :: b). rewrite U1, S1, S2.
      rewrite <- Hp. split_and!; [by rewrite <- app_assoc | by rewrite length_app, Lln, Lsum | done | done |].
      rewrite <- (app_nil_r (PutUint32 sum)), Uint32_PutUint32 by done.
      unfold sum, frameChecksum. rewrite <- Hp, !crc_Update_app.
      by apply (crc_Checksum_detects ln x y b).
    + injection Hp as <- ->.
      assert (Lk : (length a' + S (length k) = 4)%nat)
        by (rewrite <- Lsum, Hs, length_app; done).
      destruct (Hln (a' ++ y :: k)) as (S1 & U1 & S2); [rewrite length_app; simpl; lia |].
      exists (ln ++ a' ++ y :: k), p. rewrite U1, S1, S2.
      split_and!; [by rewrite <- !app_assoc; simpl; rewrite <- app_assoc
        | rewrite !length_app, length_cons, Lln; unfold frameHeaderSize; lia | done | done |].
      fold sum. unfold Uint32. rewrite take_ge by (rewrite length_app, length_cons; lia).
      rewrite <- (u32_id sum) by done. change (u32 sum) with (sum mod 256 ^ Z.of_nat 4).
      rewrite <- le_Z_le_bytes. fold (PutUint32 sum). rewrite Hs. intros He%le_Z_inj.
      * apply app_inv_head in He. congruence.
      * by rewrite !length_app, !length_cons.
  - (* the byte is in the payload *)
    destruct (Hln (PutUint32 sum) Lsum) as (S1 & U1 & S2).
    exists (ln ++ PutUint32 sum), (k ++ y :: b). rewrite U1, S1, S2.
    split_and!; [by rewrite <- !app_assoc | by rewrite length_app, Lln, Lsum
      | by rewrite Hp, !length_app, !length_cons | done |].
    rewrite <- (app_nil_r (PutUint32 sum)), Uint32_PutUint32 by done.
    unfold sum, frameChecksum. rewrite Hp, !crc_Update_app, !app_assoc.
    by apply (crc_Checksum_detects (ln ++ k) x y b).
Qed.

Lemma replay_loop_corrupt {T} `{!VersionedTable T} fuel rec a x y b rest (st : replay_state T) :
  wf_record rec -> frame_of rec = a ++ x :: b -> (4 <= length a)%nat -> x <> y ->
  replay_loop (S fuel) (a ++ y :: b ++ rest) st = Some (Err (WalChecksum (rp_offset st)), st).
Proof.
  intros Hwf Hf Ha Hxy. pose proof (payload_bounds rec Hwf).
  destruct (frame_corrupt rec a x y b rest Hwf Hf Ha Hxy) as (h & p & -> & Lh & Lp & U1 & Hne).
  cbn [replay_loop]. rewrite ReadFull_app by done. rewrite U1.
  destruct (Z.gtb_spec (len (payload_of rec)) maxFramePayload); [lia |].
  rewrite ReadFull_app by (unfold len; lia).
  destruct (Z.eqb_spec (Uint32 (slice 4 8 h)) (frameChecksum (slice 0 4 h) p)); done.
Qed.

(** ** Properties *)

(** C4: recovery.  Replaying a segment that holds the frames of [recs] and
    then whatever a crash left of one more frame succeeds: the table receives
    exactly the puts of the log (single records, and batches at their commit
    marker), the statistics bound every sequence number and batch identifier
    in the log, and the file is cut back to the complete frames - on which a
    second replay does the same. *)
Theorem wal_recovery {T} `{!VersionedTable T} recs p (mt : T) l :
  Forall wf_record recs -> torn p -> vt_repr mt l ->
  exists mt', vt_repr mt' (list_puts (log_puts recs) l) /\
    ReplayIntoWithStats (Some (writeWALHeader ++ frames recs ++ p)) mt =
      Some (Ok (log_max recs 0), mt', Some (writeWALHeader ++ frames recs)) /\
    ReplayIntoWithStats (Some (writeWALHeader ++ frames recs)) mt =
      Some (Ok (log_max recs 0), mt', Some (writeWALHeader ++ frames recs)) /\
    forall r, r ∈ recs -> Seq r <= log_max recs 0 /\ BatchID r <= log_max recs 0.
Proof.
  intros Hwf Ht Hr. destruct (replay_written recs mt l Hwf Hr) as (mt' & Hr' & E).
  exists mt'. split_and!; [done | by apply E | | apply log_max_spec].
  rewrite <- (app_nil_r (frames recs)) at 1. apply E. by left.
Qed.

Definition example_record (k s v : Z) : record :=
  mkRecord [z2b k] s (mkEntry [z2b v] false) 0 BatchNone.

Lemma wal_recovery_witness :
  let recs := [example_record 97 1 5; example_record 98 2 6] in
  let p := take 3 (frame_of (example_record 99 3 7)) in
  exists mt' : MemTable, vt_repr mt' (list_puts (log_puts recs) []).
Proof.
  destruct (vt_new_ok (T := MemTable) (mkRand (fun _ => 1) 0)) as (mt & _ & Hr).
  destruct (wal_recovery [example_record 97 1 5; example_record 98 2 6]
    (take 3 (frame_of (example_record 99 3 7))) mt []) as (mt' & Hr' & _).
  - repeat constructor; done.
  - right. exists (example_record 99 3 7), (drop 3 (frame_of (example_record 99 3 7))).
    split_and!; [repeat split; done | by rewrite take_drop | by vm_compute].
  - exact Hr.
  - exists mt'. exact Hr'.
Defined.

(** C17: batch atomicity.  Whatever prefix of a batch's bytes reaches the log
    after complete frames, replay applies the whole batch when all of it is
    there and none of it otherwise. *)
Theorem wal_batch_atomic {T} `{!VersionedTable T} recs id ops p q (mt : T) l :
  Forall wf_record recs -> is_u64 id -> Forall wf_record ops -> vt_repr mt l ->
  WriteBatch id ops [] = (None, p ++ q) ->
  exists mt' mx file', vt_repr mt'
      (if decide (q = []) then list_puts (strip_batch <$> ops) (list_puts (log_puts recs) l)
       else list_puts (log_puts recs) l) /\
    ReplayIntoWithStats (Some (writeWALHeader ++ frames recs ++ p)) mt = Some (Ok mx, mt', file').
Proof.
  intros Hwf Hid Hops Hr Hw. pose proof (wf_batch_records id ops Hid Hops) as Hb.
  unfold WriteBatch in Hw. rewrite WriteRecords_wf in Hw by done. simpl in Hw.
  injection Hw as Hw. destruct (decide (q = [])) as [-> | Hq].
  - rewrite app_nil_r in Hw. subst p.
    destruct (replay_written (recs ++ batch_records id ops) mt l) as (mt' & Hr' & E);
      [by apply Forall_app | done |].
    specialize (E [] (or_introl eq_refl)). rewrite app_nil_r, frames_app in E.
    exists mt'. do 2 eexists. split; [| exact E].
    unfold log_puts in *. rewrite log_run_app in Hr'.
    destruct (log_run recs ∅) as [p1 pd1]. rewrite log_run_batch in Hr'. simpl in *.
    unfold list_puts in *. by rewrite fold_left_app in Hr'.
  - destruct (frames_prefix _ _ _ Hw Hq) as (r1 & rec & r2 & p' & q' & Eb & -> & Hf & Hq').
    rewrite Eb in Hb. apply Forall_app in Hb as [Hb1 Hb2]. apply Forall_cons in Hb2 as [Hb2 _].
    destruct (replay_written (recs ++ r1) mt l) as (mt' & Hr' & E); [by apply Forall_app | done |].
    specialize (E p' (torn_wf _ _ _ Hb2 Hf Hq')). rewrite frames_app, <- app_assoc in E.
    exists mt'. do 2 eexists. split; [| exact E].
    unfold log_puts in *. rewrite log_run_app in Hr'.
    destruct (log_run recs ∅) as [p1 pd1]. simpl.
    pose proof (log_run_batch_prefix id ops r1 rec r2 pd1 Eb) as Hn.
    destruct (log_run r1 pd1) as [p2 pd2]. simpl in *. subst p2. by rewrite app_nil_r in Hr'.
Qed.

Lemma wal_batch_atomic_witness :
  let ops := [example_record 97 7 1; example_record 98 8 2] in
  exists mt' mx file', vt_repr (T := SpecTable) mt' [] /\
    ReplayIntoWithStats (Some (writeWALHeader ++ frames [] ++ take 60 (snd (WriteBatch 7 ops [])))) []
    = Some (Ok mx, mt', file').
Proof.
  intros ops.
  refine (wal_batch_atomic (T := SpecTable) [] 7 ops (take 60 (snd (WriteBatch 7 ops [])))
    (drop 60 (snd (WriteBatch 7 ops []))) [] [] _ _ _ _ _).
  - constructor.
  - done.
  - repeat constructor; done.
  - split; [done | constructor].
  - rewrite take_drop. vm_compute. reflexivity.
Defined.

(** C18: a synced batch survives a loss of power.  When a batch was appended and
    synced, and whatever was appended after it, a loss of power that keeps the
    synced bytes and any number of the later ones leaves a segment that replays:
    the table receives everything that was in the log at the sync, the batch as
    a whole and last, and then what the later complete frames put. *)
Theorem synced_batch_survives {T} `{!VersionedTable T} recs id ops synced more n (mt : T) l :
  Forall wf_record recs -> is_u64 id -> Forall wf_record ops -> Forall wf_record more -> vt_repr mt l ->
  WriteBatch id ops (writeWALHeader ++ frames recs) = (None, synced) -> (length synced <= n)%nat ->
  exists k mt' mx file' later, ReplayIntoWithStats (Some (take n (synced ++ frames more))) mt = Some (Ok mx, mt', file') /\
    log_puts (recs ++ batch_records id ops ++ take k more) = log_puts recs ++ (strip_batch <$> ops) ++ later /\
    vt_repr mt' (list_puts later (list_puts (strip_batch <$> ops) (list_puts (log_puts recs) l))).
Proof.
  intros Hwf Hid Hops Hmore Hr Hw Hn. pose proof (wf_batch_records id ops Hid Hops) as Hb.
  unfold WriteBatch in Hw. rewrite WriteRecords_wf in Hw by done. apply pair_eq in Hw as [_ Hw].
  destruct (frames_cut more (n - length synced) Hmore) as (k & p & Hp & Ht).
  assert (Hk : Forall wf_record (recs ++ batch_records id ops ++ take k more)) by (rewrite !Forall_app; split_and!; [done | done | by apply Forall_take]).
  destruct (replay_written _ mt l Hk Hr) as (mt' & Hr' & E). specialize (E p Ht).
  assert (Hputs : exists later, log_puts (recs ++ batch_records id ops ++ take k more) = log_puts recs ++ (strip_batch <$> ops) ++ later).
  { unfold log_puts. rewrite !log_run_app. destruct (log_run recs ∅) as [p1 pd1]. rewrite log_run_app, log_run_batch.
    destruct (log_run (take k more) _) as [p2 pd2]. by exists p2. }
  destruct Hputs as [later Hputs]. exists k, mt'. do 2 eexists. exists later. split; [| split; [exact Hputs |]].
  - rewrite take_app, (firstn_all2 _ Hn), Hp, <- Hw. rewrite !frames_app, <- !app_assoc in E. rewrite <- !app_assoc. exact E.
  - rewrite Hputs in Hr'. unfold list_puts in *. by rewrite !fold_left_app in Hr'.
Qed.

Lemma synced_batch_survives_witness :
  let ops := [example_record 97 7 1] in
  exists mt' mx file' later, ReplayIntoWithStats (T := SpecTable)
      (Some (take 130 (snd (WriteBatch 7 ops writeWALHeader) ++ frames [example_record 98 8 2; example_record 99 9 3]))) [] = Some (Ok mx, mt', file') /\
    vt_repr mt' (list_puts later (list_puts ops [])).
Proof.
  intros ops. destruct (synced_batch_survives (T := SpecTable) [] 7 ops (snd (WriteBatch 7 ops writeWALHeader))
    [example_record 98 8 2; example_record 99 9 3] 130 [] []) as (k & mt' & mx & file' & later & E & _ & Hr).
  - constructor.
  - done.
  - repeat constructor; done.
  - repeat constructor; done.
  - split; [done | constructor].
  - rewrite app_nil_r. vm_compute. reflexivity.
  - apply Nat.leb_le. vm_compute. reflexivity.
  - exists mt', mx, file', later. split; [exact E | exact Hr].
Defined.

(** C30: corruption.  When one byte of a frame after its length field differs
    from what was written, replay stops there with the checksum error that
    names the frame's offset, whatever follows it; the records before it have
    been applied and nothing else. *)
Theorem wal_corruption_detected {T} `{!VersionedTable T} recs rec a x y b rest (mt : T) l :
  Forall wf_record recs -> wf_record rec -> vt_repr mt l ->
  frame_of rec = a ++ x :: b -> (4 <= length a)%nat -> x <> y ->
  let file := writeWALHeader ++ frames recs ++ a ++ y :: b ++ rest in
  exists mt', vt_repr mt' (list_puts (log_puts recs) l) /\
    ReplayIntoWithStats (Some file) mt =
    Some (Err (WalChecksum (Z.of_nat walHeaderSize + len (frames recs))), mt', Some file).
Proof.
  intros Hwf Hrec Hr Hf Ha Hxy file.
  set (st := mkReplay (Z.of_nat walHeaderSize) ∅ 0 mt).
  destruct (replay_loop_frames recs st l Hwf Hr) as (mt' & Hr' & E).
  exists mt'. split; [done |]. unfold ReplayIntoWithStats, file.
  match goal with |- context [len ?f =? 0] => destruct (Z.eqb_spec (len f) 0) as [He | _] end.
  { unfold len in He. rewrite length_app in He. simpl in He. lia. }
  rewrite validate_written. change (drop walHeaderSize ?x) with (drop (length writeWALHeader) x).
  rewrite drop_app_length. fold st. pose proof (frames_length recs) as Hfl.
  match goal with |- context [replay_loop (S ?n)] =>
    replace (S n) with (length recs + S (n - length recs))%nat by (rewrite !length_app; lia) end.
  rewrite E. by erewrite replay_loop_corrupt.
Qed.

Lemma wal_corruption_detected_witness :
  let rec := example_record 97 7 1 in
  let file := writeWALHeader ++ frames [] ++ take 20 (frame_of rec) ++ x08 :: drop 21 (frame_of rec) ++ [] in
  exists mt', vt_repr (T := SpecTable) mt' [] /\
    ReplayIntoWithStats (Some file) [] = Some (Err (WalChecksum 12), mt', Some file).
Proof.
  refine (wal_corruption_detected (T := SpecTable) [] (example_record 97 7 1)
    (take 20 (frame_of (example_record 97 7 1))) x00 x08
    (drop 21 (frame_of (example_record 97 7 1))) [] [] [] _ _ _ _ _ _).
  - constructor.
  - repeat split; done.
  - split; [done | constructor].
  - vm_compute. reflexivity.
  - vm_compute. lia.
  - done.
Defined.
