(* ===== verification/Volume.v ===== *)
(** * A directory on a disk that loses power

    The file system below [internal/manifest], as POSIX promises it: the
    calls a program makes, what they do to the files it sees ([fs_call]), and
    what they leave on the disk ([vol_call]).  Contents that were not synced
    and changes of the directory that were not synced may or may not survive a
    crash ([survives]); [wf_volume] says that the temporary file a program
    works on is no other file. *)

From S2P Require Import Prelude.

(** A directory as the running process sees it: contents by path. *)
Abbreviation fs := (gmap bytes bytes).

(** The calls that took effect; a failed call is not listed. *)
Inductive os_call : Type :=
| OsCreate (path : bytes)
| OsWrite (path data : bytes)
| OsSync (path : bytes)
| OsClose (path : bytes)
| OsRename (oldpath newpath : bytes)
| OsRemove (path : bytes)
| OsSyncParent (path : bytes).

Definition fs_call (d : fs) (c : os_call) : fs :=
  match c with
  | OsCreate p => <[p := []]> d
  | OsWrite p data => match d !! p with Some old => <[p := old ++ data]> d | None => d end
  | OsRename p q => match d !! p with Some file => <[q := file]> (delete p d) | None => d end
  | OsRemove p => delete p d
  | OsSync _ | OsClose _ | OsSyncParent _ => d
  end.

Definition fs_calls : fs -> list os_call -> fs := foldl fs_call.

(** A file of the disk, and whether its contents were synced since they were
    written. *)
Record inode := mkNode { n_bytes : bytes; n_synced : bool }.

(** Changes of directory entries. *)
Inductive entry_change : Type :=
| Bind (p : bytes) (i : nat)
| Unbind (p : bytes)
| Move (p q : bytes) (i : nat).

Definition entry_apply (dir : gmap bytes nat) (c : entry_change) : gmap bytes nat :=
  match c with
  | Bind p i => <[p := i]> dir
  | Unbind p => delete p dir
  | Move p q i => <[q := i]> (delete p dir)
  end.

Definition entries : gmap bytes nat -> list entry_change -> gmap bytes nat := foldl entry_apply.

(** The files by number, the entries of the directory at its last sync, and
    the changes since then. *)
Record volume := mkVol {
  v_nodes : list inode;
  v_synced : gmap bytes nat;
  v_pending : list entry_change;
}.

Definition v_dir (v : volume) : gmap bytes nat := entries (v_synced v) (v_pending v).

(** What the running process sees. *)
Definition v_view (v : volume) : fs := omap (fun i => n_bytes <$> v_nodes v !! i) (v_dir v).

Definition set_node (i : nat) (n : inode) (v : volume) : volume :=
  mkVol (<[i := n]> (v_nodes v)) (v_synced v) (v_pending v).

Definition add_change (c : entry_change) (v : volume) : volume :=
  mkVol (v_nodes v) (v_synced v) (v_pending v ++ [c]).

(** The file at a path. *)
Definition node_at (v : volume) (p : bytes) : option (nat * inode) :=
  i ← v_dir v !! p; n ← v_nodes v !! i; Some (i, n).

Definition vol_call (v : volume) (c : os_call) : volume :=
  match c with
  | OsCreate p =>
      match node_at v p with
      | Some (i, _) => set_node i (mkNode [] false) v
      | None =>
          add_change (Bind p (length (v_nodes v)))
            (mkVol (v_nodes v ++ [mkNode [] false]) (v_synced v) (v_pending v))
      end
  | OsWrite p data =>
      match node_at v p with
      | Some (i, n) => set_node i (mkNode (n_bytes n ++ data) false) v
      | None => v
      end
  | OsSync p =>
      match node_at v p with
      | Some (i, n) => set_node i (mkNode (n_bytes n) true) v
      | None => v
      end
  | OsRename p q =>
      match node_at v p with
      | Some (i, _) => add_change (Move p q i) v
      | None => v
      end
  | OsRemove p => add_change (Unbind p) v
  | OsSyncParent _ => mkVol (v_nodes v) (v_dir v) []
  | OsClose _ => v
  end.

Definition vol_calls : volume -> list os_call -> volume := foldl vol_call.

(** A file after the crash: its contents when they were synced, and any
    contents when they were not. *)
Definition node_survives (v : volume) (entry : option nat) (file : option bytes) : Prop :=
  match entry with
  | Some i => exists n c, v_nodes v !! i = Some n /\ file = Some c /\ (n_synced n = true -> c = n_bytes n)
  | None => file = None
  end.

(** [d] may be the directory after a crash: some of the pending changes, in
    their order, have reached the disk. *)
Definition survives (v : volume) (d : fs) : Prop :=
  exists sub, sub `sublist_of` v_pending v /\
    forall p, node_survives v (entries (v_synced v) sub !! p) (d !! p).

(** The path may be bound to the file after a crash. *)
Definition bound (v : volume) (p : bytes) (i : nat) : Prop :=
  v_synced v !! p = Some i \/ Bind p i ∈ v_pending v \/ exists q, Move q p i ∈ v_pending v.

(** Entries point to files, and the file at [tmp] has no other name, not even
    after a crash. *)
Definition wf_volume (tmp : bytes) (v : volume) : Prop :=
  (forall p i, bound v p i -> (i < length (v_nodes v))%nat) /\
  (forall p i, v_dir v !! tmp = Some i -> p <> tmp -> ~ bound v p i).

(** The calls of a program that works on [tmp] alone, before it renames. *)
Definition works_on (tmp : bytes) (c : os_call) : Prop :=
  match c with
  | OsCreate p | OsWrite p _ | OsSync p | OsClose p | OsRemove p => p = tmp
  | OsRename _ _ | OsSyncParent _ => False
  end.

(** ** Entries *)

Lemma entries_app dir l1 l2 : entries dir (l1 ++ l2) = entries (entries dir l1) l2.
Proof. apply foldl_app. Qed.

Lemma entries_bound dir l p i :
  entries dir l !! p = Some i -> dir !! p = Some i \/ Bind p i ∈ l \/ exists q, Move q p i ∈ l.
Proof.
  induction l as [| c l IH] using rev_ind; [by left |]. rewrite entries_app. cbn.
  destruct c as [q j | q | q r j]; cbn; intros H.
  - apply lookup_insert_Some in H as [[<- <-] | [Hne H]]; [set_solver | destruct (IH H) as [| [| [? ?]]]; set_solver].
  - apply lookup_delete_Some in H as [_ H]. destruct (IH H) as [| [| [? ?]]]; set_solver.
  - apply lookup_insert_Some in H as [[<- <-] | [Hne H]]; [set_solver |].
    apply lookup_delete_Some in H as [_ H]. destruct (IH H) as [| [| [? ?]]]; set_solver.
Qed.

Lemma sublist_elem_of {A} (x : A) l k : x ∈ l -> l `sublist_of` k -> x ∈ k.
Proof. intros Hx Hs. induction Hs; [done | | right; auto]. apply elem_of_cons in Hx as [-> |]; [left | right; auto]. Qed.

Lemma sub_bound v sub p i :
  sub `sublist_of` v_pending v -> entries (v_synced v) sub !! p = Some i -> bound v p i.
Proof.
  intros Hs [H | [H | [q H]]]%entries_bound; [by left | right; left | right; right; exists q];
    by eapply sublist_elem_of.
Qed.

Lemma dir_bound v p i : v_dir v !! p = Some i -> bound v p i.
Proof. by apply sub_bound. Qed.

Lemma node_at_Some v p i n : node_at v p = Some (i, n) <-> v_dir v !! p = Some i /\ v_nodes v !! i = Some n.
Proof. unfold node_at. destruct (v_dir v !! p) as [j |]; cbn; [| naive_solver]. destruct (v_nodes v !! j) eqn:?; cbn; naive_solver. Qed.

Lemma node_at_None tmp v p : wf_volume tmp v -> node_at v p = None -> v_dir v !! p = None.
Proof.
  intros [H _]. unfold node_at. destruct (v_dir v !! p) as [i |] eqn:E; [| done]. cbn.
  apply dir_bound, H, lookup_lt_is_Some in E as [n ->]. done.
Qed.

Lemma view_lookup v p : v_view v !! p = (snd <$> node_at v p) ≫= fun n => Some (n_bytes n).
Proof. unfold v_view, node_at. rewrite lookup_omap. destruct (v_dir v !! p) as [i |]; cbn; [| done]. by destruct (v_nodes v !! i). Qed.

(** ** What the process sees *)

Lemma wf_other tmp v p i n j :
  wf_volume tmp v -> node_at v tmp = Some (i, n) -> p <> tmp -> bound v p j -> j <> i.
Proof. intros [_ H] [Hd _]%node_at_Some Hne Hb ->. by apply (H p i). Qed.

Lemma view_set_node tmp v i n n' :
  wf_volume tmp v -> node_at v tmp = Some (i, n) -> v_view (set_node i n' v) = <[tmp := n_bytes n']> (v_view v).
Proof.
  intros Hwf Hn. apply map_eq. intros p. rewrite view_lookup. unfold node_at, set_node, v_dir. cbn.
  fold (v_dir v). destruct (decide (p = tmp)) as [-> | Hne].
  - apply node_at_Some in Hn as [-> Hl]. cbn. rewrite lookup_insert_eq, list_lookup_insert_eq by (by eapply lookup_lt_Some). done.
  - rewrite lookup_insert_ne, view_lookup by done. unfold node_at. destruct (v_dir v !! p) as [j |] eqn:E; [| done]. cbn.
    rewrite list_lookup_insert_ne; [done |]. intros <-. by eapply (wf_other tmp v p i n i); [..| apply dir_bound |].
Qed.

(** Two directories that differ at most at the paths [ps]. *)
Definition off (ps : list bytes) (d d' : fs) : Prop := forall p, p ∉ ps -> d' !! p = d !! p.

Lemma not_in_one {A} (x y : A) : x ∉ [y] -> x <> y.
Proof. by rewrite list_elem_of_singleton. Qed.

(** What survives of [v'] survives of [v], but for the file at [tmp]. *)
Definition survives_off (tmp : bytes) (v v' : volume) : Prop :=
  forall d', survives v' d' -> exists d, survives v d /\ off [tmp] d d'.

(** An entry that can survive has contents that can survive. *)
Lemma node_survives_ex tmp v sub p :
  wf_volume tmp v -> sub `sublist_of` v_pending v ->
  exists file, node_survives v (entries (v_synced v) sub !! p) file.
Proof.
  intros [H _] Hs. destruct (entries (v_synced v) sub !! p) as [i |] eqn:E; [| by exists None].
  apply (sub_bound _ _ _ _ Hs), H, lookup_lt_is_Some in E as [n Hn].
  by exists (Some (n_bytes n)), n, (n_bytes n).
Qed.

(** Contents at the paths [ps] can be chosen to complete a surviving directory. *)
Lemma survives_patch tmp v sub ps d :
  wf_volume tmp v -> sub `sublist_of` v_pending v ->
  (forall p, p ∉ ps -> node_survives v (entries (v_synced v) sub !! p) (d !! p)) ->
  exists d0, survives v d0 /\ off ps d0 d.
Proof.
  intros Hwf Hs. revert d. induction ps as [| x ps IH]; intros d H.
  - exists d. split; [| done]. exists sub. split; [done |]. intros p. apply H, not_elem_of_nil.
  - destruct (node_survives_ex tmp v sub x Hwf Hs) as [file Hf].
    destruct (IH (partial_alter (fun _ => file) x d)) as (d0 & H0 & Ho).
    + intros p Hp. destruct (decide (p = x)) as [-> | Hne]; [by rewrite lookup_partial_alter_eq |].
      rewrite lookup_partial_alter_ne by done. apply H. set_solver.
    + exists d0. split; [done |]. intros p [Hne Hp]%not_elem_of_cons. rewrite <- (Ho p Hp).
      by rewrite lookup_partial_alter_ne.
Qed.

Lemma node_survives_nodes v v' e file :
  (forall i, e = Some i -> v_nodes v' !! i = v_nodes v !! i) -> node_survives v' e file -> node_survives v e file.
Proof. intros H. destruct e as [i |]; [| done]. cbn. by rewrite (H i eq_refl). Qed.

Lemma set_node_step tmp v i n n' :
  wf_volume tmp v -> node_at v tmp = Some (i, n) ->
  wf_volume tmp (set_node i n' v) /\ survives_off tmp v (set_node i n' v).
Proof.
  intros Hwf Hn. split.
  - destruct Hwf as [H1 H2]. split; [| exact H2]. intros p j Hb. cbn. rewrite length_insert. by apply (H1 p).
  - intros d' (sub & Hs & H). apply (survives_patch tmp v sub); [done.. |]. intros p Hne%not_in_one.
    eapply node_survives_nodes, H. intros j Hj. cbn. apply list_lookup_insert_ne. intros <-.
    by eapply (wf_other tmp v p i n i); [..| eapply sub_bound |].
Qed.

Lemma sublist_snoc {A} (x : A) l sub :
  sub `sublist_of` l ++ [x] -> sub `sublist_of` l \/ exists sub0, sub = sub0 ++ [x] /\ sub0 `sublist_of` l.
Proof.
  intros (s1 & s2 & -> & H1 & H2)%sublist_app_r. apply sublist_cons_r in H2 as [H2 | (s3 & -> & H2)];
    apply sublist_nil_r in H2 as ->; [left; by rewrite app_nil_r | right; by exists s1].
Qed.

(** A change of the entry of [tmp] alone. *)
Lemma change_step tmp v c :
  wf_volume tmp v -> (forall dir p, p <> tmp -> entry_apply dir c !! p = dir !! p) ->
  survives_off tmp v (add_change c v).
Proof.
  intros Hwf Hc d' (sub & Hs & H). cbn in *. apply sublist_snoc in Hs as [Hs | (s0 & -> & Hs)].
  - apply (survives_patch tmp v sub); [done.. |]. intros p _. apply H.
  - apply (survives_patch tmp v s0); [done.. |]. intros p Hne%not_in_one. specialize (H p).
    rewrite entries_app in H. cbn in H. by rewrite Hc in H.
Qed.

(** A file that has no name yet. *)
Definition add_node (n : inode) (v : volume) : volume := mkVol (v_nodes v ++ [n]) (v_synced v) (v_pending v).

Lemma add_node_step tmp v n : wf_volume tmp v -> wf_volume tmp (add_node n v) /\ forall d, survives (add_node n v) d -> survives v d.
Proof.
  intros [H1 H2]. split.
  - split; [| exact H2]. intros p i Hb. cbn. rewrite length_app. cbn. specialize (H1 p i Hb). lia.
  - intros d (sub & Hs & H). exists sub. split; [done |]. intros p. eapply node_survives_nodes, H.
    intros i Hi. cbn. apply lookup_app_l. by eapply H1, sub_bound.
Qed.

Lemma bound_add_change c v p i :
  bound (add_change c v) p i <-> bound v p i \/ c = Bind p i \/ exists q, c = Move q p i.
Proof.
  unfold bound, add_change. cbn. setoid_rewrite elem_of_app. setoid_rewrite list_elem_of_singleton. naive_solver.
Qed.

Lemma dir_add_change c v : v_dir (add_change c v) = entry_apply (v_dir v) c.
Proof. unfold v_dir, add_change. cbn. by rewrite entries_app. Qed.

Lemma unbind_step tmp v :
  wf_volume tmp v -> wf_volume tmp (add_change (Unbind tmp) v) /\ survives_off tmp v (add_change (Unbind tmp) v).
Proof.
  intros Hwf. split.
  - destruct Hwf as [H1 _]. split.
    + intros p i [Hb | [? | [? ?]]]%bound_add_change; [by eapply H1 | done..].
    + intros p i H. rewrite dir_add_change in H. cbn in H. by rewrite lookup_delete_eq in H.
  - apply change_step; [done |]. intros dir p Hne. by apply lookup_delete_ne.
Qed.

Lemma bind_step tmp v n (v' := add_change (Bind tmp (length (v_nodes v))) (add_node n v)) :
  wf_volume tmp v -> wf_volume tmp v' /\ survives_off tmp v v'.
Proof.
  intros Hwf. pose proof (add_node_step tmp v n Hwf) as [Hwf' Hs']. split.
  - destruct Hwf as [H1 _], Hwf' as [H1' _]. split.
    + intros p i [Hb | [[= -> <-] | [? ?]]]%bound_add_change; [by eapply H1' | | done].
      cbn. rewrite length_app. cbn. lia.
    + intros p i H Hne [Hb | [[= -> <-] | [? ?]]]%bound_add_change; [| done..].
      unfold v' in H. rewrite dir_add_change in H. cbn in H. rewrite lookup_insert_eq in H. injection H as <-.
      specialize (H1 p _ Hb). lia.
  - intros d' H. apply change_step with (tmp := tmp) in H as (d & H & Ho); [by exists d; auto | done |].
    intros dir p Hne. by apply lookup_insert_ne.
Qed.

(** One call on [tmp] changes nothing else, neither for the process nor for
    what a crash leaves. *)
Lemma works_on_step tmp v c :
  wf_volume tmp v -> works_on tmp c -> wf_volume tmp (vol_call v c) /\ survives_off tmp v (vol_call v c).
Proof.
  intros Hwf. assert (Hid : survives_off tmp v v) by (intros d' H; by exists d').
  destruct c as [p | p data | p | p | p q | p | p]; cbn; intros Hc; try done; subst p.
  - destruct (node_at v tmp) as [[i n] |] eqn:E; [by eapply set_node_step | by apply bind_step].
  - destruct (node_at v tmp) as [[i n] |] eqn:E; [by eapply set_node_step | done].
  - destruct (node_at v tmp) as [[i n] |] eqn:E; [by eapply set_node_step | done].
  - by apply unbind_step.
Qed.

Lemma view_lookup_tmp v tmp : v_view v !! tmp = n_bytes ∘ snd <$> node_at v tmp.
Proof. rewrite view_lookup. by destruct (node_at v tmp). Qed.

(** The process sees the call it made. *)
Lemma works_on_view tmp v c :
  wf_volume tmp v -> works_on tmp c -> v_view (vol_call v c) = fs_call (v_view v) c.
Proof.
  intros Hwf. pose proof (view_lookup_tmp v tmp) as Ht.
  destruct c as [p | p data | p | p | p q | p | p]; cbn; intros Hc; try done; subst p.
  - destruct (node_at v tmp) as [[i n] |] eqn:E; [by apply (view_set_node tmp v i n (mkNode [] false)) |].
    pose proof (node_at_None tmp v tmp Hwf E) as Hd.
    apply map_eq. intros p. unfold v_view. rewrite lookup_omap, dir_add_change. cbn.
    change (entries (v_synced v) (v_pending v)) with (v_dir v).
    destruct (decide (p = tmp)) as [-> | Hne].
    + rewrite !lookup_insert_eq. cbn. by rewrite lookup_app_r, Nat.sub_diag by lia.
    + rewrite !lookup_insert_ne, lookup_omap by done. destruct (v_dir v !! p) as [j |] eqn:Ej; [| done]. cbn.
      rewrite lookup_app_l; [done |]. by eapply Hwf, dir_bound.
  - destruct (node_at v tmp) as [[i n] |] eqn:E; rewrite Ht; cbn; [| done].
    by apply (view_set_node tmp v i n (mkNode _ false)).
  - destruct (node_at v tmp) as [[i n] |] eqn:E; [| done].
    rewrite (view_set_node tmp v i n (mkNode _ true)) by done. cbn. by apply insert_id.
  - change (v_view (add_change (Unbind tmp) v) = delete tmp (v_view v)).
    unfold v_view. rewrite dir_add_change. cbn. apply map_eq. intros p. rewrite lookup_omap.
    destruct (decide (p = tmp)) as [-> | Hne]; [by rewrite !lookup_delete_eq |].
    by rewrite !lookup_delete_ne, lookup_omap by done.
Qed.

Lemma works_on_steps tmp cs v :
  wf_volume tmp v -> Forall (works_on tmp) cs ->
  wf_volume tmp (vol_calls v cs) /\ survives_off tmp v (vol_calls v cs) /\
  v_view (vol_calls v cs) = fs_calls (v_view v) cs.
Proof.
  intros Hwf Hcs. revert v Hwf. induction Hcs as [| c cs Hc Hcs IH]; intros v Hwf.
  - split_and!; [done | by intros d' H; exists d' | done].
  - cbn. rewrite <- (works_on_view tmp) by done. apply works_on_step with (c := c) in Hwf as [Hwf Hs]; [| done].
    apply IH in Hwf as (H1 & H2 & H3). split_and!; [done | | done].
    intros d'' (d' & Hd & Ho)%H2. apply Hs in Hd as (d & Hd & Ho'). exists d. split; [done |].
    intros p Hp. rewrite (Ho p Hp). by apply Ho'.
Qed.

(** ** The life of a temporary file *)

Lemma node_at_set tmp v i n n' : node_at v tmp = Some (i, n) -> node_at (set_node i n' v) tmp = Some (i, n').
Proof.
  rewrite !node_at_Some. intros [H1 H2]. split; [done |]. cbn. apply list_lookup_insert_eq. by eapply lookup_lt_Some.
Qed.

Lemma node_at_create tmp v : exists i, node_at (vol_call v (OsCreate tmp)) tmp = Some (i, mkNode [] false).
Proof.
  cbn. destruct (node_at v tmp) as [[i n] |] eqn:E; [exists i; by eapply node_at_set |].
  exists (length (v_nodes v)). apply node_at_Some. rewrite dir_add_change. cbn.
  rewrite lookup_insert_eq, lookup_app_r, Nat.sub_diag by lia. done.
Qed.

Lemma node_at_write tmp v i n data :
  node_at v tmp = Some (i, n) -> node_at (vol_call v (OsWrite tmp data)) tmp = Some (i, mkNode (n_bytes n ++ data) false).
Proof. intros H. cbn. rewrite H. by eapply node_at_set. Qed.

Lemma node_at_sync tmp v i n :
  node_at v tmp = Some (i, n) -> node_at (vol_call v (OsSync tmp)) tmp = Some (i, mkNode (n_bytes n) true).
Proof. intros H. cbn. rewrite H. by eapply node_at_set. Qed.

(** Renaming a file whose contents were synced: after a crash the new path holds
    what it held or these contents. *)
Lemma rename_step tmp q v i data :
  wf_volume tmp v -> q <> tmp -> node_at v tmp = Some (i, mkNode data true) ->
  let v' := vol_call v (OsRename tmp q) in
  wf_volume tmp v' /\ v_view v' = fs_call (v_view v) (OsRename tmp q) /\
  node_at v' q = Some (i, mkNode data true) /\
  forall d', survives v' d' ->
    exists d, survives v d /\ off [tmp; q] d d' /\ (d' !! q = d !! q \/ d' !! q = Some data).
Proof.
  intros Hwf Hq Hn. cbn [vol_call fs_call]. rewrite Hn, view_lookup_tmp, Hn. cbn [fmap option_fmap option_map compose snd n_bytes].
  pose proof Hn as [Hd Hl]%node_at_Some. split_and!.
  - destruct Hwf as [H1 _]. split.
    + intros p j [Hb | [? | [r [= -> -> <-]]]]%bound_add_change; [by eapply H1 | done | by eapply H1, dir_bound].
    + intros p j H. rewrite dir_add_change in H. cbn in H. rewrite lookup_insert_ne, lookup_delete_eq in H by done. done.
  - unfold v_view. rewrite dir_add_change. cbn. apply map_eq. intros p. rewrite lookup_omap.
    destruct (decide (p = q)) as [-> | Hpq]; [by rewrite !lookup_insert_eq; cbn; rewrite Hl |].
    rewrite !lookup_insert_ne by done. destruct (decide (p = tmp)) as [-> | Hne]; [by rewrite !lookup_delete_eq |].
    by rewrite !lookup_delete_ne, lookup_omap by done.
  - apply node_at_Some. rewrite dir_add_change. cbn. by rewrite lookup_insert_eq.
  - intros d' (sub & Hs & H). cbn in Hs. apply sublist_snoc in Hs as [Hs | (s0 & -> & Hs)].
    + exists d'. split; [by exists sub |]. split; [done | by left].
    + destruct (survives_patch tmp v s0 [tmp; q] d') as (d & Hsv & Ho); [done.. | |].
      * intros p Hp. specialize (H p). rewrite entries_app in H. cbn in H.
        rewrite lookup_insert_ne, lookup_delete_ne in H by set_solver. done.
      * exists d. split_and!; [done.. | right]. specialize (H q). rewrite entries_app in H. cbn in H.
        rewrite lookup_insert_eq in H. cbn in H. destruct H as (n & c & H1 & -> & H2).
        rewrite Hl in H1. injection H1 as <-. by rewrite H2.
Qed.

(** The sync of the directory makes its entries durable. *)
Lemma sync_parent_step tmp p v :
  wf_volume tmp v ->
  let v' := vol_call v (OsSyncParent p) in
  wf_volume tmp v' /\ v_view v' = v_view v /\ (forall d, survives v' d -> survives v d) /\
  forall q i data d, node_at v q = Some (i, mkNode data true) -> survives v' d -> d !! q = Some data.
Proof.
  intros [H1 H2]. cbn. split_and!; [| done | |].
  - split.
    + intros q i [Hb | [Hb | [r Hb]]]; cbn in Hb; [by eapply H1, dir_bound | by apply elem_of_nil in Hb..].
    + intros q i Hd Hne [Hb | [Hb | [r Hb]]]; cbn in Hb; [| by apply elem_of_nil in Hb..].
      apply (H2 q i Hd Hne). by apply dir_bound.
  - intros d (sub & Hs & H). cbn in Hs. apply sublist_nil_r in Hs as ->. exists (v_pending v). by split.
  - intros q i data d [Hd Hl]%node_at_Some (sub & Hs & H). cbn in Hs. apply sublist_nil_r in Hs as ->.
    specialize (H q). cbn in H. rewrite Hd in H. cbn in H. destruct H as (n & c & Hn & -> & Hc).
    rewrite Hl in Hn. injection Hn as <-. by rewrite Hc.
Qed.

(** What the process sees may survive. *)
Lemma survives_view tmp v : wf_volume tmp v -> survives v (v_view v).
Proof.
  intros [H1 _]. exists (v_pending v). split; [done |]. intros p. rewrite view_lookup. unfold node_at. fold (v_dir v).
  destruct (v_dir v !! p) as [i |] eqn:E; [| done]. cbn.
  apply dir_bound, H1, lookup_lt_is_Some in E as [n Hn]. rewrite Hn. by exists n, (n_bytes n).
Qed.

(** ** Publication by renaming *)

(** After a crash the directory is one that could survive before, but for
    [tmp] and for [path], which may hold [data]. *)
Definition old_or_new (tmp path data : bytes) (v : volume) (d' : fs) : Prop :=
  exists d, survives v d /\ off [tmp; path] d d' /\ (d' !! path = d !! path \/ d' !! path = Some data).

Lemma off_at tmp path d d' : off [tmp] d d' -> path <> tmp -> d' !! path = d !! path.
Proof. intros H Hne. apply H. by rewrite list_elem_of_singleton. Qed.

Lemma off_trans tmp path d d1 d' : off [tmp] d d1 -> off [tmp; path] d1 d' -> off [tmp; path] d d'.
Proof.
  intros H1 H2 p Hp. rewrite (H2 p Hp). apply (off_at tmp); [done |]. by apply not_elem_of_cons in Hp as [Hp _].
Qed.

Lemma works_on_crash tmp path data cs v k d' :
  wf_volume tmp v -> path <> tmp -> Forall (works_on tmp) cs -> survives (vol_calls v (take k cs)) d' ->
  old_or_new tmp path data v d' /\ exists d, survives v d /\ d' !! path = d !! path.
Proof.
  intros Hwf Hne Hcs Hs. destruct (works_on_steps tmp (take k cs) v Hwf) as (_ & H & _); [by apply Forall_take |].
  apply H in Hs as (d & Hd & Ho). assert (Hp : d' !! path = d !! path) by by apply (off_at tmp).
  split; [| by exists d]. exists d. split_and!; [done | by apply (off_trans tmp path d d'); [|] | by left].
Qed.

(** The calls that write, sync and close a temporary file. *)
Definition written_calls (tmp data : bytes) : list os_call := [OsCreate tmp; OsWrite tmp data; OsSync tmp; OsClose tmp].

Lemma written_calls_node tmp v data :
  exists i, node_at (vol_calls v (written_calls tmp data)) tmp = Some (i, mkNode data true).
Proof.
  destruct (node_at_create tmp v) as [i H]. exists i.
  apply (node_at_write _ _ _ _ data), node_at_sync in H. exact H.
Qed.

Lemma publication_crash tmp path data v (cs := written_calls tmp data ++ [OsRename tmp path]) :
  wf_volume tmp v -> path <> tmp ->
  wf_volume tmp (vol_calls v cs) /\ v_view (vol_calls v cs) = fs_calls (v_view v) cs /\
  (exists i, node_at (vol_calls v cs) path = Some (i, mkNode data true)) /\
  forall k d', survives (vol_calls v (take k cs)) d' -> old_or_new tmp path data v d'.
Proof.
  intros Hwf Hne. assert (Hw : Forall (works_on tmp) (written_calls tmp data)) by by repeat constructor.
  destruct (works_on_steps tmp _ v Hwf Hw) as (Hwf' & Hs & Hv). destruct (written_calls_node tmp v data) as [i Hn].
  destruct (rename_step tmp path _ i data Hwf' Hne Hn) as (H1 & H2 & H3 & H4).
  unfold vol_calls, fs_calls, cs in *. rewrite !foldl_app. cbn [foldl] in *. rewrite <- Hv.
  split_and!; [done.. | by exists i |]. intros k d' Hd.
  destruct (decide (k <= 4)%nat) as [Hk |].
  - rewrite take_app_le in Hd by done. by eapply works_on_crash.
  - rewrite take_ge, foldl_app in Hd by (rewrite length_app; cbn; lia). apply H4 in Hd as (d1 & Hd1 & Ho1 & Hp1).
    apply Hs in Hd1 as (d & Hd & Ho). exists d. split; [done |].
    rewrite <- (off_at tmp path d d1) by done. split; [by eapply off_trans | done].
Qed.
