(* ===== verification/Manifest.v ===== *)
(** * The manifest

    Models [internal/manifest]: the table list that every open reads and every
    flush and compaction publishes.  The file format, its limits and every
    error path of [encode] and [decode] are here.  Which calls of [Write] to the
    operating system fail is given by an outcome record, so that every
    combination of failures is a value of the model; the calls that take effect
    are a list, whose effect on the files a process sees and on what survives a
    loss of power is that of Volume. *)

From S2P Require Import Prelude Crc32 Volume.

Record SSTableMetadata := mkMeta {
  ID : Z;
  Path : bytes;
  Level : Z;
  SizeBytes : Z;
  SmallestKey : bytes;
  LargestKey : bytes;
}.

Record Manifest := mkManifest {
  NextSSTableID : Z;
  NextWALSegmentID : Z;
  SSTables : list SSTableMetadata;
}.

Global Instance SSTableMetadata_eq_dec : EqDecision SSTableMetadata.
Proof. solve_decision. Defined.
Global Instance Manifest_eq_dec : EqDecision Manifest.
Proof. solve_decision. Defined.

Definition manifestVersion : Z := 1.
Definition manifestHeaderSize : Z := 20.
Definition manifestPayloadHeaderSize : Z := 20.
Definition sstableFixedSize : Z := 32.
Definition maxManifestPayloadSize : Z := 256 * 1024 * 1024.
Definition maxSSTableCount : Z := 1000000.
Definition maxMetadataStringSize : Z := 64 * 1024.

(** ['H' 'Y' 'P' 'H' 'A' 'M' 'A' 'N'] *)
Definition manifestMagic : bytes := map z2b [72; 89; 80; 72; 65; 77; 65; 78].

(** The names the error messages give to the string fields. *)
Inductive string_field : Type := FieldPath | FieldSmallestKey | FieldLargestKey.

Inductive string_error : Type :=
| StringIO (e : io_error)
| StringTooLong (n : Z)
| StringPastEnd (n remaining : Z).

Inductive table_error : Type :=
| TableIO (e : io_error)
| TableString (f : string_field) (e : string_error).

Inductive manifest_error : Type :=
| ManifestNil
| CountExceeds (n : Z)
| MetadataTooLong (i : Z) (f : string_field) (n : Z)
| PayloadExceeds
| FileTooSmall
| BadMagic
| UnsupportedVersion (v : Z)
| PayloadLength (n : Z)
| SizeMismatch (got want : Z)
| ChecksumMismatch
| PayloadTooSmall
| CorruptRead (e : io_error)
| EntriesCannotFit (n remaining : Z)
| CorruptTable (i : Z) (e : table_error)
| TrailingBytes (n : Z)
| IdentifiersExhausted
| FileTooLarge
| OSError.

(** ** Encoding *)

Definition writeUint32 (value : Z) : bytes := PutUint32 value.
Definition writeUint64 (value : Z) : bytes := PutUint64 value.
Definition writeString (value : bytes) : bytes := writeUint32 (u32 (len value)) ++ value.

(** [manifestChecksum]: the digest of the prefix and then the payload. *)
Definition manifestChecksum (prefix payload : bytes) : Z :=
  crc_Update (crc_Update 0 prefix) payload.

(** The loop over the three fields, with the running total. *)
Fixpoint strings_size (fields : list (string_field * bytes)) (total : Z)
    : result (string_field * Z) Z :=
  match fields with
  | [] => Ok total
  | (name, value) :: fields =>
      if len value >? maxMetadataStringSize then Err (name, len value)
      else strings_size fields (total + len value)
  end.

Definition metadataStringsSize (table : SSTableMetadata) : result (string_field * Z) Z :=
  strings_size [(FieldPath, Path table); (FieldSmallestKey, SmallestKey table);
                (FieldLargestKey, LargestKey table)] 0.

(** The size loop of [encode], from table [i] on. *)
Fixpoint payload_size (i : Z) (tables : list SSTableMetadata) (payloadSize : Z)
    : result manifest_error Z :=
  match tables with
  | [] => Ok payloadSize
  | table :: tables =>
      match metadataStringsSize table with
      | Err (f, n) => Err (MetadataTooLong i f n)
      | Ok stringsSize =>
          let payloadSize := payloadSize + (sstableFixedSize + stringsSize) in
          if payloadSize >? maxManifestPayloadSize then Err PayloadExceeds
          else payload_size (i + 1) tables payloadSize
      end
  end.

Definition encode_table (table : SSTableMetadata) : bytes :=
  writeUint64 (ID table) ++ writeUint32 (Level table) ++ writeUint64 (SizeBytes table) ++
  writeString (Path table) ++ writeString (SmallestKey table) ++ writeString (LargestKey table).

Definition encode_payload (m : Manifest) : bytes :=
  writeUint64 (NextSSTableID m) ++ writeUint64 (NextWALSegmentID m) ++
  writeUint32 (u32 (len (SSTables m))) ++ concat (encode_table <$> SSTables m).

(** [header[:16]] *)
Definition header_prefix (payloadLen : Z) : bytes :=
  manifestMagic ++ PutUint32 manifestVersion ++ PutUint32 payloadLen.

(** [None] is the nil pointer. *)
Definition encode (m : option Manifest) : result manifest_error bytes :=
  match m with
  | None => Err ManifestNil
  | Some m =>
      _ ← guard_err (len (SSTables m) >? maxSSTableCount) (CountExceeds (len (SSTables m)));
      _ ← payload_size 0 (SSTables m) manifestPayloadHeaderSize;
      let payload := encode_payload m in
      let prefix := header_prefix (u32 (len payload)) in
      Ok (prefix ++ PutUint32 (manifestChecksum prefix payload) ++ payload)
  end.

(** ** Decoding *)

Definition readUint32 (r : bytes) : result io_error (Z * bytes) :=
  '(encoded, r) ← ReadFull 4 r; Ok (Uint32 encoded, r).
Definition readUint64 (r : bytes) : result io_error (Z * bytes) :=
  '(encoded, r) ← ReadFull 8 r; Ok (Uint64 encoded, r).

Definition readString (r : bytes) : result string_error (bytes * bytes) :=
  '(length_, r) ← map_err StringIO (readUint32 r);
  _ ← guard_err (length_ >? maxMetadataStringSize) (StringTooLong length_);
  _ ← guard_err (length_ >? len r) (StringPastEnd length_ (len r));
  map_err StringIO (ReadFull (Z.to_nat length_) r).

Definition decodeSSTableMetadata (r : bytes) : result table_error (SSTableMetadata * bytes) :=
  '(id, r) ← map_err TableIO (readUint64 r);
  '(level, r) ← map_err TableIO (readUint32 r);
  '(sizeBytes, r) ← map_err TableIO (readUint64 r);
  '(path, r) ← map_err (TableString FieldPath) (readString r);
  '(smallestKey, r) ← map_err (TableString FieldSmallestKey) (readString r);
  '(largestKey, r) ← map_err (TableString FieldLargestKey) (readString r);
  Ok (mkMeta id path level sizeBytes smallestKey largestKey, r).

(** The [n] iterations from table [i] on. *)
Fixpoint decode_tables (n : nat) (i : Z) (r : bytes)
    : result manifest_error (list SSTableMetadata * bytes) :=
  match n with
  | O => Ok ([], r)
  | S n =>
      '(table, r) ← map_err (CorruptTable i) (decodeSSTableMetadata r);
      '(tables, r) ← decode_tables n (i + 1) r;
      Ok (table :: tables, r)
  end.

(** The part of [decode] that reads the payload. *)
Definition decode_payload (r : bytes) : result manifest_error Manifest :=
  _ ← guard_err (len r <? manifestPayloadHeaderSize) PayloadTooSmall;
  '(nextSSTableID, r) ← map_err CorruptRead (readUint64 r);
  '(nextWALSegmentID, r) ← map_err CorruptRead (readUint64 r);
  '(tableCount, r) ← map_err CorruptRead (readUint32 r);
  _ ← guard_err (tableCount >? maxSSTableCount) (CountExceeds tableCount);
  _ ← guard_err (u64 (tableCount * sstableFixedSize) >? len r)
        (EntriesCannotFit tableCount (len r));
  '(tables, r) ← decode_tables (Z.to_nat tableCount) 0 r;
  _ ← guard_err (negb (len r =? 0)) (TrailingBytes (len r));
  Ok (mkManifest nextSSTableID nextWALSegmentID tables).

Definition decode (data : bytes) : result manifest_error Manifest :=
  _ ← guard_err (len data <? manifestHeaderSize) FileTooSmall;
  _ ← guard_err (negb (bool_decide (slice 0 8 data = manifestMagic))) BadMagic;
  let version := Uint32 (slice 8 12 data) in
  _ ← guard_err (negb (version =? manifestVersion)) (UnsupportedVersion version);
  let payloadLen := Uint32 (slice 12 16 data) in
  _ ← guard_err (payloadLen >? maxManifestPayloadSize) (PayloadLength payloadLen);
  let wantSize := manifestHeaderSize + payloadLen in
  _ ← guard_err (negb (len data =? wantSize)) (SizeMismatch (len data) wantSize);
  let payload := drop 20 data in
  let wantChecksum := Uint32 (slice 16 20 data) in
  let gotChecksum := manifestChecksum (take 16 data) payload in
  _ ← guard_err (negb (wantChecksum =? gotChecksum)) ChecksumMismatch;
  decode_payload payload.

(** ** The file *)

(** The loop of [ensureSafeNextSSTableID]: [None] until a table is seen. *)
Definition max_id (tables : list SSTableMetadata) : option Z :=
  foldl (fun acc table =>
    match acc with
    | Some maxID => if ID table >? maxID then Some (ID table) else Some maxID
    | None => Some (ID table)
    end) None tables.

Definition ensureSafeNextSSTableID (m : Manifest) : result manifest_error Manifest :=
  match max_id (SSTables m) with
  | Some maxID =>
      if NextSSTableID m <=? maxID then
        if maxID =? u64_max then Err IdentifiersExhausted
        else Ok (mkManifest (maxID + 1) (NextWALSegmentID m) (SSTables m))
      else Ok m
  | None => Ok m
  end.

Definition emptyManifest : Manifest := mkManifest 0 0 [].

(** What opening and reading a path gives. *)
Inductive opened : Type :=
| NotExist
| OpenFailed
| ReadFailed
| Contents (file : bytes).

(** [io.ReadAll(io.LimitReader(file, n))] *)
Definition read_limited (n : Z) (file : bytes) : bytes :=
  if len file <=? n then file else take (Z.to_nat n) file.

Definition Read (file : opened) : result manifest_error Manifest :=
  match file with
  | NotExist => Ok emptyManifest
  | OpenFailed | ReadFailed => Err OSError
  | Contents file =>
      let data := read_limited (manifestHeaderSize + maxManifestPayloadSize + 1) file in
      _ ← guard_err (len data >? manifestHeaderSize + maxManifestPayloadSize) FileTooLarge;
      m ← decode data;
      ensureSafeNextSSTableID m
  end.

Abbreviation fs := Volume.fs.

Definition open_file (d : fs) (path : bytes) : opened :=
  match d !! path with Some file => Contents file | None => NotExist end.

(** Which of the calls [Write] makes fail.  A failed write leaves some prefix
    of the data in the file; a failed removal leaves the file. *)
Record os_faults := mkFaults {
  f_create : bool;
  f_write : option nat;
  f_sync : bool;
  f_close : bool;
  f_rename : bool;
  f_syncParent : bool;
  f_remove : bool;
}.
Definition no_faults : os_faults := mkFaults false None false false false false false.

Inductive write_error : Type :=
| WriteFailed (e : manifest_error)
| PublishError.

Definition IsPublished (err : option write_error) : bool :=
  match err with Some PublishError => true | _ => false end.

Definition os_Remove (o : os_faults) (path : bytes) : list os_call :=
  if f_remove o then [] else [OsRemove path].

(** [path + ".tmp"] *)
Definition tmp_path (path : bytes) : bytes := path ++ map z2b [46; 116; 109; 112].

(** [Write]: its error and the calls it makes that take effect, in their
    order.  The error paths that leave before [file.Close] is tried call it
    and ignore what it reports. *)
Definition Write_calls (o : os_faults) (path : bytes) (m : option Manifest)
    : option write_error * list os_call :=
  match encode m with
  | Err e => (Some (WriteFailed e), [])
  | Ok data =>
      let tmpPath := tmp_path path in
      if f_create o then (Some (WriteFailed OSError), [])
      else
        let calls := [OsCreate tmpPath] in
        match f_write o with
        | Some n =>
            (Some (WriteFailed OSError),
             calls ++ [OsWrite tmpPath (take n data); OsClose tmpPath] ++ os_Remove o tmpPath)
        | None =>
            let calls := calls ++ [OsWrite tmpPath data] in
            if f_sync o then (Some (WriteFailed OSError), calls ++ [OsClose tmpPath] ++ os_Remove o tmpPath)
            else
              let calls := calls ++ [OsSync tmpPath] in
              if f_close o then (Some (WriteFailed OSError), calls ++ os_Remove o tmpPath)
              else
                let calls := calls ++ [OsClose tmpPath] in
                if f_rename o then (Some (WriteFailed OSError), calls ++ os_Remove o tmpPath)
                else
                  let calls := calls ++ [OsRename tmpPath path] in
                  if f_syncParent o then (Some PublishError, calls)
                  else (None, calls ++ [OsSyncParent path])
        end
  end.

(** [Write] on the files as the process sees them. *)
Definition Write (o : os_faults) (path : bytes) (m : option Manifest) (d : fs)
    : option write_error * fs :=
  let '(err, calls) := Write_calls o path m in (err, fs_calls d calls).

(** ** Laws of the readers *)

Arguments readUint32 : simpl never.
Arguments readUint64 : simpl never.
Arguments readString : simpl never.
Arguments decodeSSTableMetadata : simpl never.

Lemma readUint32_app z rest : is_u32 z -> readUint32 (PutUint32 z ++ rest) = Ok (z, rest).
Proof.
  intros Hz. unfold readUint32. rewrite ReadFull_app by apply length_PutUint32. simpl.
  by rewrite <- (app_nil_r (PutUint32 z)), Uint32_PutUint32.
Qed.

Lemma readUint64_app z rest : is_u64 z -> readUint64 (PutUint64 z ++ rest) = Ok (z, rest).
Proof.
  intros Hz. unfold readUint64. rewrite ReadFull_app by apply length_PutUint64. simpl.
  by rewrite <- (app_nil_r (PutUint64 z)), Uint64_PutUint64.
Qed.

Lemma readUint32_Ok r z rest : readUint32 r = Ok (z, rest) -> r = PutUint32 z ++ rest /\ is_u32 z.
Proof.
  unfold readUint32. intros H. bind_inv H. apply ReadFull_Ok in Hx as [-> Hl].
  injection H as <- ->. rewrite PutUint32_Uint32, take_ge by lia. split; [done | apply Uint32_range].
Qed.

Lemma readUint64_Ok r z rest : readUint64 r = Ok (z, rest) -> r = PutUint64 z ++ rest /\ is_u64 z.
Proof.
  unfold readUint64. intros H. bind_inv H. apply ReadFull_Ok in Hx as [-> Hl].
  injection H as <- ->. rewrite PutUint64_Uint64, take_ge by lia. split; [done | apply Uint64_range].
Qed.

(** A string the format can hold. *)
Definition string_ok (v : bytes) : Prop := len v <= maxMetadataStringSize.

Lemma string_u32 v : string_ok v -> is_u32 (len v).
Proof.
  intros H. pose proof (len_nonneg v). unfold string_ok, maxMetadataStringSize, is_u32, u32_max in *. lia.
Qed.

Lemma readString_app v rest : string_ok v -> readString (writeString v ++ rest) = Ok (v, rest).
Proof.
  intros Hv. pose proof (string_u32 v Hv). unfold readString, writeString, writeUint32.
  rewrite u32_id, <- app_assoc, readUint32_app by done. simpl. pose proof (len_nonneg rest).
  unfold string_ok in Hv. rewrite !guard_err_false by (rewrite ?len_app; lia). simpl.
  by rewrite ReadFull_app by (unfold len; lia).
Qed.

Lemma readString_Ok r v rest :
  readString r = Ok (v, rest) -> r = writeString v ++ rest /\ string_ok v.
Proof.
  unfold readString. intros H. bind_inv H. apply readUint32_Ok in Hx as [-> Hu].
  apply map_err_Ok, ReadFull_Ok in H as [-> Hl]. unfold is_u32 in Hu.
  assert (z = len v) as -> by (unfold len; lia).
  unfold writeString, writeUint32, string_ok. rewrite u32_id, <- app_assoc by done.
  split; [done | lia].
Qed.

(** ** Table entries *)

Definition wf_meta (t : SSTableMetadata) : Prop :=
  is_u64 (ID t) /\ is_u32 (Level t) /\ is_u64 (SizeBytes t) /\
  string_ok (Path t) /\ string_ok (SmallestKey t) /\ string_ok (LargestKey t).

Lemma decodeSSTableMetadata_encode t rest :
  wf_meta t -> decodeSSTableMetadata (encode_table t ++ rest) = Ok (t, rest).
Proof.
  intros (H1 & H2 & H3 & H4 & H5 & H6). unfold decodeSSTableMetadata, encode_table.
  rewrite <- !app_assoc. unfold writeUint64, writeUint32.
  rewrite readUint64_app by done; bind_step. rewrite readUint32_app by done; bind_step.
  rewrite readUint64_app by done; bind_step. do 3 (rewrite readString_app by done; bind_step).
  by destruct t.
Qed.

Lemma decodeSSTableMetadata_Ok r t rest :
  decodeSSTableMetadata r = Ok (t, rest) -> r = encode_table t ++ rest /\ wf_meta t.
Proof.
  unfold decodeSSTableMetadata. intros H. bind_inv H.
  repeat match goal with
  | Hx : readUint64 _ = Ok _ |- _ => apply readUint64_Ok in Hx as [-> ?]
  | Hx : readUint32 _ = Ok _ |- _ => apply readUint32_Ok in Hx as [-> ?]
  | Hx : readString _ = Ok _ |- _ => apply readString_Ok in Hx as [-> ?]
  end.
  injection H as <- <-. unfold encode_table, wf_meta. cbn [ID Path Level SizeBytes SmallestKey LargestKey].
  rewrite <- !app_assoc. split; [reflexivity | tauto].
Qed.

Lemma decode_tables_encode ts i rest :
  Forall wf_meta ts ->
  decode_tables (length ts) i (concat (encode_table <$> ts) ++ rest) = Ok (ts, rest).
Proof.
  intros H. revert i. induction H as [|t ts Ht _ IH]; intros i; [done |].
  rewrite fmap_cons. cbn [length decode_tables concat].
  rewrite <- app_assoc, decodeSSTableMetadata_encode by done. bind_step. by rewrite IH.
Qed.

Lemma decode_tables_Ok n i r ts rest :
  decode_tables n i r = Ok (ts, rest) ->
  r = concat (encode_table <$> ts) ++ rest /\ Forall wf_meta ts /\ length ts = n.
Proof.
  revert i r ts. induction n as [|n IH]; intros i r ts H; simpl in H.
  - injection H as <- <-. done.
  - bind_inv H. injection H as <- <-. apply decodeSSTableMetadata_Ok in Hx as [-> Ht].
    apply IH in Hx0 as (-> & Hts & <-). rewrite fmap_cons. cbn [concat].
    rewrite <- app_assoc. split_and!; [done | by constructor | done].
Qed.

Lemma len_writeString v : len (writeString v) = 4 + len v.
Proof. unfold writeString, writeUint32. rewrite len_app. len_lia. Qed.

Lemma len_encode_table t :
  len (encode_table t) =
  sstableFixedSize + (len (Path t) + len (SmallestKey t) + len (LargestKey t)).
Proof.
  unfold encode_table, writeUint32, writeUint64. rewrite !len_app, !len_writeString.
  unfold len at 1 2 3. rewrite length_PutUint32, !length_PutUint64. unfold sstableFixedSize. lia.
Qed.

(** The size of the encoded tables is at least their fixed parts. *)
Lemma len_encode_tables ts :
  sstableFixedSize * len ts <= len (concat (encode_table <$> ts)).
Proof.
  induction ts as [|t ts IH]; [done |]. rewrite fmap_cons. cbn [concat]. rewrite len_app, len_encode_table.
  pose proof (len_nonneg (Path t)). pose proof (len_nonneg (SmallestKey t)).
  pose proof (len_nonneg (LargestKey t)). unfold len in *. simpl length. lia.
Qed.

Definition strings_ok (t : SSTableMetadata) : Prop :=
  string_ok (Path t) /\ string_ok (SmallestKey t) /\ string_ok (LargestKey t).

Lemma metadataStringsSize_Ok t n :
  metadataStringsSize t = Ok n <->
  strings_ok t /\ n = len (Path t) + len (SmallestKey t) + len (LargestKey t).
Proof.
  unfold metadataStringsSize, strings_ok, string_ok. simpl.
  repeat match goal with |- context [if ?a >? ?b then _ else _] => destruct (Z.gtb_spec a b) end;
    split; try (intros [= <-]); try (intros [? ->]); split_and?; try lia; try (f_equal; lia).
Qed.

(** The size loop computes the size of what is written, and fails only when a
    limit is exceeded. *)
Lemma payload_size_Ok i ts n k :
  payload_size i ts n = Ok k ->
  Forall strings_ok ts /\ k = n + len (concat (encode_table <$> ts)) /\
  (n <= maxManifestPayloadSize -> k <= maxManifestPayloadSize).
Proof.
  revert i n. induction ts as [|t ts IH]; intros i n H; simpl in H.
  - injection H as <-. split_and!; [constructor | unfold len; simpl; lia | done].
  - destruct (metadataStringsSize t) as [sz | []] eqn:E; [| done].
    apply metadataStringsSize_Ok in E as [Ht ->].
    destruct (Z.gtb_spec (n + (sstableFixedSize + (len (Path t) + len (SmallestKey t) + len (LargestKey t)))) maxManifestPayloadSize); [done |].
    apply IH in H as (Hts & -> & Hk). rewrite fmap_cons. cbn [concat]. rewrite len_app, len_encode_table.
    split_and!; [by constructor | lia | auto].
Qed.

Lemma payload_size_fits i ts n :
  Forall strings_ok ts -> n + len (concat (encode_table <$> ts)) <= maxManifestPayloadSize ->
  is_Ok (payload_size i ts n).
Proof.
  intros H. revert i n. induction H as [|t ts Ht _ IH]; intros i n Hn; simpl; [by eexists |].
  rewrite fmap_cons in Hn. cbn [concat] in Hn. rewrite len_app, len_encode_table in Hn.
  rewrite (proj2 (metadataStringsSize_Ok _ _) (conj Ht eq_refl)).
  pose proof (len_nonneg (concat (encode_table <$> ts))).
  destruct (Z.gtb_spec (n + (sstableFixedSize + (len (Path t) + len (SmallestKey t) + len (LargestKey t)))) maxManifestPayloadSize); [lia |].
  apply IH. lia.
Qed.

(** ** The whole file *)

Definition wf_manifest (m : Manifest) : Prop :=
  is_u64 (NextSSTableID m) /\ is_u64 (NextWALSegmentID m) /\ Forall wf_meta (SSTables m) /\
  len (SSTables m) <= maxSSTableCount /\ len (encode_payload m) <= maxManifestPayloadSize.

Lemma manifestChecksum_eq a b : manifestChecksum a b = crc_Checksum (a ++ b).
Proof. apply crc_Update_app. Qed.

Lemma wf_meta_strings t : wf_meta t -> strings_ok t.
Proof. unfold wf_meta, strings_ok. tauto. Qed.

Lemma len_encode_payload m :
  len (encode_payload m) = manifestPayloadHeaderSize + len (concat (encode_table <$> SSTables m)).
Proof.
  unfold encode_payload, writeUint32, writeUint64. rewrite !len_app. unfold len at 1 2 3.
  rewrite length_PutUint32, !length_PutUint64. unfold manifestPayloadHeaderSize. lia.
Qed.

Lemma count_u32 m : len (SSTables m) <= maxSSTableCount -> is_u32 (len (SSTables m)).
Proof. pose proof (len_nonneg (SSTables m)). unfold maxSSTableCount, is_u32, u32_max. lia. Qed.

Lemma decode_payload_encode m : wf_manifest m -> decode_payload (encode_payload m) = Ok m.
Proof.
  intros (H1 & H2 & Hts & Hc & Hp). unfold decode_payload. pose proof (len_encode_payload m) as Hl.
  pose proof (len_nonneg (concat (encode_table <$> SSTables m))).
  pose proof (len_encode_tables (SSTables m)). pose proof (count_u32 m Hc) as Hu.
  rewrite guard_err_false by lia. unfold encode_payload, writeUint32, writeUint64. bind_step.
  do 2 (rewrite readUint64_app by done; bind_step).
  rewrite u32_id, readUint32_app by done. bind_step.
  unfold is_u32, u32_max, sstableFixedSize in *.
  rewrite u64_id by (unfold is_u64, u64_max; lia). rewrite !guard_err_false by lia. bind_step.
  replace (Z.to_nat (len (SSTables m))) with (length (SSTables m)) by (unfold len; lia).
  rewrite <- (app_nil_r (concat _)), decode_tables_encode by done. by destruct m.
Qed.

Lemma decode_payload_Ok r m :
  decode_payload r = Ok m -> len r <= maxManifestPayloadSize -> r = encode_payload m /\ wf_manifest m.
Proof.
  unfold decode_payload. intros H Hr. bind_inv H.
  apply readUint64_Ok in Hx0 as [-> ?], Hx1 as [-> ?]. apply readUint32_Ok in Hx2 as [-> Hu].
  apply decode_tables_Ok in Hx5 as (-> & Hts & Hl). apply negb_false_iff, Z.eqb_eq in Hx6.
  destruct l3 as [|? l3]; [| clear -Hx6; len_lia]. rewrite app_nil_r in *. injection H as <-.
  unfold is_u32 in Hu. assert (z1 = len l2) as -> by (unfold len; lia).
  assert (He : forall m', SSTables m' = l2 -> NextSSTableID m' = z -> NextWALSegmentID m' = z0 ->
    PutUint64 z ++ PutUint64 z0 ++ PutUint32 (len l2) ++ concat (encode_table <$> l2) = encode_payload m').
  { intros m' E1 E2 E3. unfold encode_payload, writeUint32, writeUint64.
    by rewrite E1, E2, E3, u32_id. }
  erewrite (He (mkManifest z z0 l2)) in * by done. split; [done |].
  unfold wf_manifest. cbn [NextSSTableID NextWALSegmentID SSTables]. split_and!; try done. lia.
Qed.

Lemma length_header_prefix n : length (header_prefix n) = 16%nat.
Proof. unfold header_prefix. rewrite !length_app, !length_PutUint32. done. Qed.

Lemma header_prefix_fields n rest :
  is_u32 n -> let d := header_prefix n ++ rest in
  slice 0 8 d = manifestMagic /\ Uint32 (slice 8 12 d) = manifestVersion /\ Uint32 (slice 12 16 d) = n.
Proof.
  intros Hn. unfold header_prefix, slice. cbn zeta. rewrite <- !app_assoc. cbn [Nat.sub].
  split_and!.
  - done.
  - rewrite drop_app_length', take_app_length' by done. done.
  - rewrite app_assoc, drop_app_length', take_app_length' by (rewrite ?length_app, ?length_PutUint32; done).
    rewrite <- (app_nil_r (PutUint32 n)). by apply Uint32_PutUint32.
Qed.

(** The file of a payload. *)
Definition sealed (payload : bytes) : bytes :=
  let prefix := header_prefix (len payload) in
  prefix ++ PutUint32 (crc_Checksum (prefix ++ payload)) ++ payload.

Lemma manifest_payload_u32 (p : bytes) : len p <= maxManifestPayloadSize -> is_u32 (len p).
Proof. pose proof (len_nonneg p). unfold maxManifestPayloadSize, is_u32, u32_max. lia. Qed.

Lemma encode_Ok m data :
  encode (Some m) = Ok data <->
  Forall strings_ok (SSTables m) /\ len (SSTables m) <= maxSSTableCount /\
  len (encode_payload m) <= maxManifestPayloadSize /\ data = sealed (encode_payload m).
Proof.
  pose proof (len_encode_payload m) as Hl. unfold encode. split.
  - intros H. bind_inv H. apply payload_size_Ok in Hx0 as (Hs & -> & Hk). injection H as <-.
    specialize (Hk ltac:(done)). split_and!; [done | lia | lia |].
    rewrite manifestChecksum_eq, u32_id by (apply manifest_payload_u32; lia). done.
  - intros (Hs & Hc & Hp & ->). rewrite guard_err_false by lia. bind_step.
    destruct (payload_size_fits 0 (SSTables m) manifestPayloadHeaderSize Hs) as [k ->]; [lia |]. bind_step.
    by rewrite manifestChecksum_eq, u32_id by (by apply manifest_payload_u32).
Qed.

Lemma decode_sealed p :
  len p <= maxManifestPayloadSize -> decode (sealed p) = decode_payload p.
Proof.
  intros Hp. pose proof (manifest_payload_u32 p Hp) as Hu. unfold decode, sealed.
  set (pre := header_prefix (len p)).
  assert (Lpre : length pre = 16%nat) by apply length_header_prefix.
  set (sum := PutUint32 (crc_Checksum (pre ++ p))).
  assert (Lsum : length sum = 4%nat) by apply length_PutUint32.
  destruct (header_prefix_fields (len p) (sum ++ p) Hu) as (F1 & F2 & F3). fold pre in F1, F2, F3.
  assert (Hlen : len (pre ++ sum ++ p) = manifestHeaderSize + len p).
  { rewrite !len_app. unfold len at 1 2. rewrite Lpre, Lsum. unfold manifestHeaderSize. lia. }
  pose proof (len_nonneg p). cbv zeta. rewrite F1, F2, F3, Hlen.
  rewrite take_app_length' by done. rewrite (app_assoc pre).
  rewrite drop_app_length' by (rewrite length_app; lia). unfold slice.
  rewrite <- app_assoc, drop_app_length', take_app_length' by done.
  unfold sum. rewrite <- (app_nil_r (PutUint32 _)), Uint32_PutUint32 by apply crc_Checksum_u32.
  rewrite manifestChecksum_eq, Z.eqb_refl, bool_decide_true by done. unfold manifestHeaderSize.
  by rewrite !guard_err_false by (simpl; lia).
Qed.

(** Whatever decodes is sealed. *)
Lemma decode_Ok data m :
  decode data = Ok m ->
  exists p, data = sealed p /\ len p <= maxManifestPayloadSize /\ decode_payload p = Ok m.
Proof.
  unfold decode. intros H. bind_inv H. exists (drop 20 data).
  apply negb_false_iff, bool_decide_eq_true in Hx0. apply negb_false_iff, Z.eqb_eq in Hx1, Hx3, Hx4.
  unfold manifestHeaderSize in *. assert (Hl : (20 <= length data)%nat) by (unfold len in *; lia).
  assert (Hp : len (drop 20 data) = Uint32 (slice 12 16 data)) by (unfold len in *; rewrite length_drop; lia).
  assert (Hpre : take 16 data = header_prefix (len (drop 20 data))).
  { unfold header_prefix. rewrite Hp, <- Hx0, <- Hx1, !PutUint32_Uint32
      by (unfold slice; rewrite length_take, length_drop; lia).
    unfold slice. simpl Nat.sub. rewrite drop_0, !take_take. simpl Nat.min.
    rewrite app_assoc. change 16%nat with (12 + 4)%nat. rewrite <- take_take_drop. f_equal.
    change 12%nat with (8 + 4)%nat at 1. by rewrite <- take_take_drop. }
  split_and!; [| lia | done].
  unfold sealed. rewrite <- Hpre, <- manifestChecksum_eq, <- Hx4, PutUint32_Uint32
    by (unfold slice; rewrite length_take, length_drop; lia).
  unfold slice. rewrite take_take. simpl Nat.sub. simpl Nat.min.
  rewrite <- (take_drop 16 data) at 1. f_equal.
  by rewrite <- (take_drop 4 (drop 16 data)) at 1; rewrite drop_drop.
Qed.

(** The format is canonical: decoding and encoding are inverse on the
    manifests within the limits. *)
Lemma decode_encode_iff data m :
  decode data = Ok m <-> wf_manifest m /\ encode (Some m) = Ok data.
Proof.
  rewrite encode_Ok. split.
  - intros (p & -> & Hl & Hp)%decode_Ok. apply decode_payload_Ok in Hp as [-> Hwf]; [| done].
    split; [done |]. destruct Hwf as (_ & _ & Hm & Hc & _). split_and!; try done.
    eapply Forall_impl; [exact Hm | exact wf_meta_strings].
  - intros (Hwf & _ & _ & Hl & ->). rewrite decode_sealed by done. by apply decode_payload_encode.
Qed.

Lemma sealed_enveloped p : enveloped 16 (sealed p).
Proof. exists (header_prefix (len p)), p. split; [apply length_header_prefix | done]. Qed.

(** ** Identifiers *)

Lemma max_id_spec ts :
  match max_id ts with
  | Some k => (exists t, t ∈ ts /\ ID t = k) /\ forall t, t ∈ ts -> ID t <= k
  | None => ts = []
  end.
Proof.
  unfold max_id. induction ts as [|t ts IH] using rev_ind; [done |]. rewrite foldl_app.
  destruct (foldl _ None ts) as [k|]; simpl.
  - destruct IH as [(u & Hu & <-) Hle].
    destruct (Z.gtb_spec (ID t) (ID u)) as [Hgt | Hge].
    + split; [exists t; set_solver |]. intros v [Hv | ->%list_elem_of_singleton]%elem_of_app; [| lia].
      specialize (Hle v Hv). lia.
    + split; [exists u; set_solver |]. intros v [Hv | ->%list_elem_of_singleton]%elem_of_app; [auto | lia].
  - subst ts. split; [exists t; set_solver |]. intros v ->%list_elem_of_singleton. lia.
Qed.

(** Every table identifier in use is below the next one. *)
Definition next_id_safe (m : Manifest) : Prop :=
  Forall (fun t => ID t < NextSSTableID m) (SSTables m).

Lemma ensureSafe_spec m m' :
  ensureSafeNextSSTableID m = Ok m' ->
  next_id_safe m' /\ SSTables m' = SSTables m /\ NextWALSegmentID m' = NextWALSegmentID m /\
  NextSSTableID m <= NextSSTableID m' /\ (next_id_safe m -> m' = m) /\
  (wf_manifest m -> is_u64 (NextSSTableID m')).
Proof.
  unfold ensureSafeNextSSTableID, next_id_safe. pose proof (max_id_spec (SSTables m)) as Hm.
  rewrite !Forall_forall. destruct (max_id (SSTables m)) as [k|].
  - destruct Hm as [(u & Hu & <-) Hle].
    destruct (Z.leb_spec (NextSSTableID m) (ID u)) as [Hl | Hl].
    + destruct (Z.eqb_spec (ID u) u64_max); [done |]. intros [= <-].
      cbn [SSTables NextWALSegmentID NextSSTableID].
      split_and!; try done; try lia.
      * intros t Ht. specialize (Hle t Ht). lia.
      * intros Hs. specialize (Hs u Hu). lia.
      * intros (_ & _ & Hf & _). rewrite Forall_forall in Hf. destruct (Hf u Hu) as [[H0 H1] _].
        unfold is_u64 in *. lia.
    + intros [= <-]. split_and!; try done; [| by intros [? _]].
      intros t Ht. specialize (Hle t Ht). lia.
  - intros [= <-]. rewrite Hm. split_and!; try done; [| by intros [? _]].
    intros t []%not_elem_of_nil.
Qed.

Lemma read_limited_id n file : len file <= n -> read_limited n file = file.
Proof. intros H. unfold read_limited. by destruct (Z.leb_spec (len file) n); [| lia]. Qed.

Lemma Read_Contents file m :
  wf_manifest m -> encode (Some m) = Ok file -> Read (Contents file) = ensureSafeNextSSTableID m.
Proof.
  intros Hwf He. pose proof (proj2 (decode_encode_iff file m) (conj Hwf He)) as Hd.
  apply encode_Ok in He as (_ & _ & Hl & ->). unfold Read.
  assert (Hs : len (sealed (encode_payload m)) <= manifestHeaderSize + maxManifestPayloadSize).
  { unfold sealed. pose proof (length_header_prefix (len (encode_payload m))) as Hh.
    rewrite !len_app, len_PutUint32. unfold len at 1. rewrite Hh. unfold manifestHeaderSize. lia. }
  rewrite read_limited_id by lia. rewrite guard_err_false by lia. bind_step. by rewrite Hd.
Qed.

(** ** Properties *)

(** The manifest format is canonical.  A byte string decodes to a manifest
    exactly when that manifest is within the limits of the format and the
    string is its encoding: decoding inverts encoding, and nothing else is
    accepted. *)
Theorem manifest_canonical data m :
  decode data = Ok m <-> wf_manifest m /\ encode (Some m) = Ok data.
Proof. apply decode_encode_iff. Qed.

(** A manifest file with any one byte changed, header, checksum or payload,
    is rejected. *)
Theorem manifest_corruption_detected m a x y b :
  wf_manifest m -> encode (Some m) = Ok (a ++ x :: b) -> x <> y ->
  exists e, decode (a ++ y :: b) = Err e.
Proof.
  intros Hwf He Hxy. destruct (decode (a ++ y :: b)) as [m'|e] eqn:E; [| eauto].
  apply encode_Ok in He as (_ & _ & _ & He). apply decode_Ok in E as (p & E & _).
  exfalso. apply Hxy, (enveloped_detects 16 a x y b); [rewrite He | rewrite E]; apply sealed_enveloped.
Qed.

Definition example_manifest : Manifest :=
  mkManifest 3 2 [mkMeta 1 (map z2b [97]) 0 512 (map z2b [97]) (map z2b [122]);
                  mkMeta 7 (map z2b [98]) 1 1024 (map z2b [98]) (map z2b [121])].

Lemma example_manifest_wf : wf_manifest example_manifest.
Proof. unfold wf_manifest. split_and!; try done. repeat constructor; done. Qed.

Lemma manifest_corruption_detected_witness :
  exists a b, encode (Some example_manifest) = Ok (a ++ x03 :: b) /\
    exists e, decode (a ++ x04 :: b) = Err e.
Proof.
  destruct (encode (Some example_manifest)) as [d|] eqn:E; [| exfalso; vm_compute in E; discriminate].
  exists (take 20 d), (drop 21 d).
  assert (Hd : Ok (E := manifest_error) d = Ok (take 20 d ++ x03 :: drop 21 d)).
  { f_equal. vm_compute in E. injection E as <-. vm_compute. reflexivity. }
  split; [exact Hd |].
  apply (manifest_corruption_detected example_manifest _ x03); [apply example_manifest_wf | | done].
  rewrite E. exact Hd.
Defined.

(** C13: a manifest that was read never hands out the identifier of a table it
    lists: the next identifier is above all of them, it fits a [uint64], and
    the table list is the one in the file. *)
Theorem read_next_id_safe file m :
  Read (Contents file) = Ok m ->
  next_id_safe m /\ is_u64 (NextSSTableID m) /\
  exists m0, decode file = Ok m0 /\ SSTables m = SSTables m0 /\ NextSSTableID m0 <= NextSSTableID m.
Proof.
  unfold Read. intros H. bind_inv H.
  assert (Hrl : read_limited (manifestHeaderSize + maxManifestPayloadSize + 1) file = file).
  { revert Hx. unfold read_limited.
    destruct (Z.leb_spec (len file) (manifestHeaderSize + maxManifestPayloadSize + 1)) as [| Hgt]; [done |].
    unfold len in *. rewrite length_take.
    set (k := manifestHeaderSize + maxManifestPayloadSize) in *.
    assert (0 <= k) by (unfold k, manifestHeaderSize, maxManifestPayloadSize; lia).
    rewrite Nat.min_l, Z2Nat.id by lia. destruct (Z.gtb_spec (k + 1) k); [done | lia]. }
  rewrite Hrl in Hx0. pose proof Hx0 as [Hwf _]%decode_encode_iff.
  apply ensureSafe_spec in H as (H1 & H2 & _ & H4 & _ & H6). split_and!; eauto.
Qed.

Lemma read_next_id_safe_witness :
  exists file m, Read (Contents file) = Ok m /\ NextSSTableID m = 8 /\ next_id_safe m.
Proof.
  destruct (encode (Some example_manifest)) as [d|] eqn:E; [| exfalso; vm_compute in E; discriminate].
  assert (Hr : Read (Contents d) = Ok (mkManifest 8 2 (SSTables example_manifest))).
  { vm_compute in E. injection E as <-. vm_compute. reflexivity. }
  exists d, (mkManifest 8 2 (SSTables example_manifest)). split; [exact Hr |]. split; [done |].
  apply (read_next_id_safe d). exact Hr.
Defined.

Lemma tmp_path_ne path : tmp_path path <> path.
Proof. intros H. apply (f_equal length) in H. unfold tmp_path in H. rewrite length_app in H. simpl in H. lia. Qed.

(** [Write] as a function of the files. *)
Lemma Write_eq o path m d :
  Write o path m d =
  match encode m with
  | Err e => (Some (WriteFailed e), d)
  | Ok data =>
      let tmp := tmp_path path in
      let removed d := if f_remove o then d else delete tmp d in
      if f_create o then (Some (WriteFailed OSError), d)
      else
        match f_write o with
        | Some n => (Some (WriteFailed OSError), removed (<[tmp := take n data]> d))
        | None =>
            let d := <[tmp := data]> d in
            if f_sync o || f_close o || f_rename o then (Some (WriteFailed OSError), removed d)
            else (if f_syncParent o then Some PublishError else None, <[path := data]> (delete tmp d))
        end
  end.
Proof.
  unfold Write, Write_calls, os_Remove, fs_calls. destruct (encode m) as [data |]; [| done]. cbv zeta.
  generalize (tmp_path path). intros tmp.
  destruct (f_create o); [done |]. destruct (f_write o) as [n |].
  - destruct (f_remove o); cbn; rewrite lookup_insert_eq; cbn; by rewrite insert_insert_eq.
  - destruct (f_sync o), (f_close o), (f_rename o), (f_remove o), (f_syncParent o); cbn;
      rewrite lookup_insert_eq; cbn; rewrite insert_insert_eq, ?lookup_insert_eq; done.
Qed.

Lemma Write_faults o path m data d :
  encode m = Ok data ->
  let '(err, d') := Write o path m d in
  (forall p, p <> path -> p <> tmp_path path -> d' !! p = d !! p) /\
  match err with
  | None => f_syncParent o = false /\ d' !! path = Some data
  | Some PublishError => f_syncParent o = true /\ d' !! path = Some data
  | Some (WriteFailed _) => d' !! path = d !! path
  end /\
  (f_create o = false -> f_remove o = false -> d' !! tmp_path path = None).
Proof.
  intros He. rewrite Write_eq, He. cbv zeta. pose proof (tmp_path_ne path) as Hne.
  generalize dependent (tmp_path path). intros tmp Hne.
  destruct (f_create o); [done |].
  destruct (f_write o); [by destruct (f_remove o); split_and!; intros; simplify_map_eq |].
  destruct (f_sync o || f_close o || f_rename o); [by destruct (f_remove o); split_and!; intros; simplify_map_eq |].
  by destruct (f_syncParent o); split_and!; intros; simplify_map_eq.
Qed.

(** What is on the disk when the power fails after some of the calls. *)
Lemma Write_crashes o path m data v (tmp := tmp_path path) :
  encode m = Ok data -> wf_volume tmp v ->
  let '(err, calls) := Write_calls o path m in
  wf_volume tmp (vol_calls v calls) /\ v_view (vol_calls v calls) = fs_calls (v_view v) calls /\
  (forall k d', survives (vol_calls v (take k calls)) d' -> old_or_new tmp path data v d') /\
  forall d', survives (vol_calls v calls) d' ->
    match err with
    | None => d' !! path = Some data
    | Some PublishError => True
    | Some (WriteFailed _) => exists d, survives v d /\ d' !! path = d !! path
    end.
Proof.
  intros He Hwf. unfold Write_calls, os_Remove. rewrite He. fold tmp. cbv zeta.
  assert (Hne : path <> tmp) by (apply not_eq_sym, tmp_path_ne).
  assert (Hf : forall e cs, Forall (works_on tmp) cs -> 
    let '(err, calls) := (Some (WriteFailed e), cs) in
    wf_volume tmp (vol_calls v calls) /\ v_view (vol_calls v calls) = fs_calls (v_view v) calls /\
    (forall k d', survives (vol_calls v (take k calls)) d' -> old_or_new tmp path data v d') /\
    forall d', survives (vol_calls v calls) d' -> exists d, survives v d /\ d' !! path = d !! path).
  { intros e cs Hcs. destruct (works_on_steps tmp cs v Hwf Hcs) as (H1 & _ & H3). split_and!; [done.. | |].
    - intros k d' Hd. by eapply works_on_crash.
    - intros d' Hd. rewrite <- (firstn_all cs) in Hd. by eapply (works_on_crash tmp path data). }
  destruct (f_create o); [apply Hf; constructor |].
  destruct (f_write o); [apply Hf; destruct (f_remove o); by repeat constructor |].
  destruct (f_sync o); [apply Hf; destruct (f_remove o); by repeat constructor |].
  destruct (f_close o); [apply Hf; destruct (f_remove o); by repeat constructor |].
  destruct (f_rename o); [apply Hf; destruct (f_remove o); by repeat constructor |].
  destruct (publication_crash tmp path data v Hwf Hne) as (H1 & H2 & [i Hi] & H4).
  destruct (f_syncParent o); [by split_and! |].
  destruct (sync_parent_step tmp path _ H1) as (H5 & H6 & H7 & H8).
  match goal with |- context [vol_calls v (?c ++ [OsSyncParent path])] =>
    change (c ++ [OsSyncParent path]) with ((written_calls tmp data ++ [OsRename tmp path]) ++ [OsSyncParent path]) end.
  assert (Hall : forall c, vol_calls v ((written_calls tmp data ++ [OsRename tmp path]) ++ [c]) =
    vol_call (vol_calls v (written_calls tmp data ++ [OsRename tmp path])) c) by (intros c; apply foldl_app).
  rewrite !Hall. split_and!; [done | by rewrite H6, H2; unfold fs_calls; rewrite (foldl_app _ (_ ++ _)) | |].
  - intros k d' Hd. destruct (decide (k <= 5)%nat) as [Hk |].
    + rewrite take_app_le in Hd by done. by eapply H4.
    + rewrite take_ge, Hall in Hd by (cbn; lia). apply H7 in Hd. rewrite <- (firstn_all (_ ++ _)) in Hd. by eapply H4.
  - intros d' Hd. by eapply H8.
Qed.

(** C23: publication is atomic.  First, for the process that goes on: whatever
    combination of operating system calls fails, after [Write] the manifest path
    holds either what it held before, and then an error that is not a publish
    error is returned, or exactly the new manifest, which the next [Read] gives
    back, and then the result is success or a [PublishError].  No other file is
    touched but the temporary one, which is gone unless its removal failed.
    Second, for a disk on which the temporary file has no other name, as it is
    after [Write] again, and that loses power after any number of the calls, when
    contents and directory changes that were not synced may be lost: the
    manifest path holds what it could have held had the power failed before
    [Write], or the new manifest; it holds the new one once [Write] has
    succeeded, and what it could have held before when [Write] has failed
    otherwise than with a [PublishError]. *)
Theorem manifest_publish_atomic o path m :
  wf_manifest m ->
  (forall d,
    let '(err, d') := Write o path (Some m) d in
    (forall p, p <> path -> p <> tmp_path path -> d' !! p = d !! p) /\
    match err with
    | None => f_syncParent o = false /\ Read (open_file d' path) = ensureSafeNextSSTableID m
    | Some PublishError => f_syncParent o = true /\ Read (open_file d' path) = ensureSafeNextSSTableID m
    | Some (WriteFailed _) => open_file d' path = open_file d path
    end /\
    (f_create o = false -> f_remove o = false -> d' !! tmp_path path = None)) /\
  forall v, wf_volume (tmp_path path) v ->
    let '(err, calls) := Write_calls o path (Some m) in
    Write o path (Some m) (v_view v) = (err, v_view (vol_calls v calls)) /\
    wf_volume (tmp_path path) (vol_calls v calls) /\
    (forall k d', survives (vol_calls v (take k calls)) d' ->
      exists d, survives v d /\ (forall p, p <> path -> p <> tmp_path path -> d' !! p = d !! p) /\
        (open_file d' path = open_file d path \/ Read (open_file d' path) = ensureSafeNextSSTableID m)) /\
    forall d', survives (vol_calls v calls) d' ->
      match err with
      | None => Read (open_file d' path) = ensureSafeNextSSTableID m
      | Some PublishError => True
      | Some (WriteFailed _) => exists d, survives v d /\ open_file d' path = open_file d path
      end.
Proof.
  intros Hwf.
  assert (He : encode (Some m) = Ok (sealed (encode_payload m))).
  { apply encode_Ok. destruct Hwf as (_ & _ & Hm & Hc & Hl). split_and!; try done.
    eapply Forall_impl; [exact Hm | exact wf_meta_strings]. }
  pose proof (Read_Contents _ m Hwf He) as Hr. revert He Hr. generalize (sealed (encode_payload m)). intros data He Hr.
  assert (Hnew : forall d, d !! path = Some data -> Read (open_file d path) = ensureSafeNextSSTableID m).
  { intros d Hd. unfold open_file. by rewrite Hd. }
  assert (Hold : forall d d' : fs, d' !! path = d !! path -> open_file d' path = open_file d path).
  { intros d d' Hd. unfold open_file. by rewrite Hd. }
  split.
  - intros d. pose proof (Write_faults o path (Some m) data d He) as H. destruct (Write o path (Some m) d) as [err d'].
    destruct H as (H1 & H2 & H3). split_and!; [done | | done].
    destruct err as [[e |] |]; [by apply Hold | split; [apply H2 | apply Hnew, H2]..].
  - intros v Hv. pose proof (Write_crashes o path (Some m) data v He Hv) as H. unfold Write.
    destruct (Write_calls o path (Some m)) as [err calls]. destruct H as (H1 & H2 & H3 & H4).
    split_and!; [by rewrite H2 | done | |].
    + intros k d' (d & Hd & Ho & Hp)%H3. exists d. split_and!; [done | | naive_solver].
      intros p Hp1 Hp2. apply Ho. rewrite !not_elem_of_cons. split_and!; [done.. | apply not_elem_of_nil].
    + intros d' Hd%H4. destruct err as [[e |] |]; [naive_solver | done | by apply Hnew].
Qed.

(** A disk that holds the given file, and nothing that was not synced. *)
Definition kept_volume (path file : bytes) : volume := mkVol [mkNode file true] {[path := 0%nat]} [].

Lemma kept_wf tmp path file : path <> tmp -> wf_volume tmp (kept_volume path file).
Proof.
  intros Hne. split.
  - intros p i [H | [H | [q H]]]; cbn in H; [| by apply elem_of_nil in H..].
    apply lookup_singleton_Some in H as [_ <-]. cbn. lia.
  - intros p i H. unfold v_dir in H. cbn in H. by rewrite lookup_singleton_ne in H.
Qed.

Lemma kept_survives path file d : survives (kept_volume path file) d -> d = {[path := file]}.
Proof.
  intros (sub & Hs & H). cbn in Hs. apply sublist_nil_r in Hs as ->. apply map_eq. intros p. specialize (H p). cbn in H.
  destruct (decide (p = path)) as [-> | Hne].
  - rewrite lookup_singleton_eq. rewrite lookup_singleton_eq in H. cbn in H. destruct H as (n & c & [= <-] & -> & Hc). by rewrite Hc.
  - rewrite lookup_singleton_ne by done. by rewrite lookup_singleton_ne in H.
Qed.

(** An old manifest on the disk: whenever the power fails, the file at its path
    is the old one or the new manifest, and it is the new one at the end. *)
Lemma manifest_publish_atomic_witness :
  let '(err, d') := Write no_faults [x61] (Some example_manifest) ∅ in
  let '(_, calls) := Write_calls no_faults [x61] (Some example_manifest) in
  let v := kept_volume [x61] [x62] in
  err = None /\ Read (open_file d' [x61]) = ensureSafeNextSSTableID example_manifest /\
  (forall k d, survives (vol_calls v (take k calls)) d ->
    open_file d [x61] = Contents [x62] \/ Read (open_file d [x61]) = ensureSafeNextSSTableID example_manifest) /\
  (forall d, survives (vol_calls v calls) d -> Read (open_file d [x61]) = ensureSafeNextSSTableID example_manifest).
Proof.
  destruct (manifest_publish_atomic no_faults [x61] example_manifest example_manifest_wf) as [H1 H2].
  specialize (H1 ∅). specialize (H2 (kept_volume [x61] [x62]) (kept_wf _ _ _ (not_eq_sym (tmp_path_ne [x61])))).
  assert (E : fst (Write_calls no_faults [x61] (Some example_manifest)) = None) by (vm_compute; reflexivity).
  unfold Write in *. destruct (Write_calls no_faults [x61] (Some example_manifest)) as [err calls].
  cbn [fst] in E. subst err. destruct H2 as (_ & _ & H3 & H4). split_and!; [done | apply H1 | | exact H4].
  intros k d Hd. destruct (H3 k d Hd) as (d0 & ->%kept_survives & _ & [Ho | Hn]); [left | by right].
  rewrite Ho. unfold open_file. by rewrite lookup_singleton_eq.
Defined.
