(* ===== verification/Bloom.v ===== *)
(** * The Bloom filter

    Models [internal/bloom]: sizing, insertion and lookup with enhanced double
    hashing on wrapping 64-bit positions, and the encoded form stored in a
    table.  [xxh3.Hash128] is a parameter (any function from bytes to a pair
    of words), and so are [math.Log] and the implementation-dependent result
    of converting an out-of-range float to an integer.  A [None] is a panic:
    an index outside the bitset, or a division by a zero bit count. *)

From S2P Require Import Prelude Float64.

Record Filter := mkFilter {
  fbits : bytes;
  bitCount : Z;
  hashCount : Z;
}.

Global Instance Filter_eq_dec : EqDecision Filter.
Proof. solve_decision. Defined.

Inductive bloom_error : Type :=
| BadExpectedItems
| BadFalsePositiveRate
| NilFilter
| ZeroHashes
| BadBitCount (n : Z)
| MismatchedBits (got want : Z)
| BufferTooSmall
| BadFilterVersion (v : Z)
| BadHashAlgorithm (a : Z)
| BadProbeAlgorithm (a : Z)
| BadHashCount (n : Z)
| TooManyBits (n : Z).

(** ** Sizing *)

Section sizing.
Context (math_Log : float64 -> float64) (conv_undefined : float64 -> Z).

(** [uint64(math.Ceil(f))] *)
Definition uint64_ceil (f : float64) : Z :=
  match f_ceil f with
  | Some z => if (0 <=? z) && (z <=? u64_max) then z else u64 (conv_undefined f)
  | None => u64 (conv_undefined f)
  end.

(** [int(math.Round(f))] *)
Definition int_round (f : float64) : Z :=
  match f_round f with
  | Some z => if (- 2 ^ 63 <=? z) && (z <? 2 ^ 63) then z else conv_undefined f
  | None => conv_undefined f
  end.

Definition New (expectedItems : Z) (falsePositiveRate : float64) : result bloom_error Filter :=
  _ ← guard_err (expectedItems <=? 0) BadExpectedItems;
  _ ← guard_err (f_leb falsePositiveRate f_zero || f_leb f_one falsePositiveRate) BadFalsePositiveRate;
  let n := f_of_Z expectedItems in
  let p := falsePositiveRate in
  let bitCount := uint64_ceil (f_div (f_mul (f_neg n) (math_Log p)) f_Ln2_sq) in
  let hashCount := int_round (f_mul (f_div (f_of_Z bitCount) n) f_Ln2) in
  let hashCount := if hashCount <? 1 then 1 else hashCount in
  let hashCount := if hashCount >? 30 then 30 else hashCount in
  let byteCount := u64 (bitCount + 7) / 8 in
  let bitCount := u64 (byteCount * 8) in
  Ok (mkFilter (replicate (Z.to_nat byteCount) x00) bitCount hashCount).
End sizing.

(** ** Probing *)

(** [f.bits[bit/8] |= byte(1) << (bit % 8)] *)
Definition set_bit (bit : Z) (bits : bytes) : option bytes :=
  b ← bits !! Z.to_nat (bit / 8);
  Some (<[Z.to_nat (bit / 8) := z2b (Z.lor (b2z b) (Z.shiftl 1 (bit mod 8)))]> bits).

(** [f.bits[bit/8] & (byte(1) << (bit%8)) != 0] *)
Definition test_bit (bit : Z) (bits : bytes) : option bool :=
  b ← bits !! Z.to_nat (bit / 8);
  Some (negb (Z.land (b2z b) (Z.shiftl 1 (bit mod 8)) =? 0)).

(** [position % f.bitCount], which panics on zero. *)
Definition probe_bit (position bc : Z) : option Z :=
  if bc =? 0 then None else Some (position mod bc).

(** The loop of [Add] from iteration [i], with [n] iterations left. *)
Fixpoint add_loop (n : nat) (i position increment bc : Z) (bits : bytes) : option bytes :=
  match n with
  | O => Some bits
  | S n =>
      bit ← probe_bit position bc;
      bits ← set_bit bit bits;
      add_loop n (i + 1) (u64 (position + increment)) (u64 (increment + (i + 1))) bc bits
  end.

(** The loop of [MayContain]. *)
Fixpoint contain_loop (n : nat) (i position increment bc : Z) (bits : bytes) : option bool :=
  match n with
  | O => Some true
  | S n =>
      bit ← probe_bit position bc;
      isSet ← test_bit bit bits;
      if negb isSet then Some false
      else contain_loop n (i + 1) (u64 (position + increment)) (u64 (increment + (i + 1))) bc bits
  end.

Section hashing.
Context (Hash128 : bytes -> Z * Z).

(** [xxh3.Hash128] gives [(Hi, Lo)]; the pair returned is [(low, high)]. *)
Definition hashPair (key : bytes) : Z * Z :=
  let '(Hi, Lo) := Hash128 key in
  let high := if Hi =? 0 then 0x9e3779b97f4a7c15 else Hi in
  (Lo, high).

Definition Add (key : bytes) (f : Filter) : option Filter :=
  let '(h1, h2) := hashPair key in
  bits ← add_loop (Z.to_nat (hashCount f)) 0 h1 h2 (bitCount f) (fbits f);
  Some (mkFilter bits (bitCount f) (hashCount f)).

Fixpoint Add_all (keys : list bytes) (f : Filter) : option Filter :=
  match keys with
  | [] => Some f
  | key :: keys => f ← Add key f; Add_all keys f
  end.

(** A nil filter answers [true]. *)
Definition MayContain (f : option Filter) (key : bytes) : option bool :=
  match f with
  | None => Some true
  | Some f =>
      if bitCount f =? 0 then Some true
      else let '(h1, h2) := hashPair key in
           contain_loop (Z.to_nat (hashCount f)) 0 h1 h2 (bitCount f) (fbits f)
  end.
End hashing.

(** ** Encoding *)

Definition HashXXH3_128 : Z := 1.
Definition ProbeEnhancedDoubleHash : Z := 1.
Definition currentVersion : Z := 1.
Definition encodedHeaderSize : nat := 12.
Definition maxEncodedBitCount : Z := 256 * 2 ^ 20 * 8.

Definition Encode (f : option Filter) : result bloom_error bytes :=
  match f with
  | None => Err NilFilter
  | Some f =>
      _ ← guard_err (hashCount f =? 0) ZeroHashes;
      _ ← guard_err ((bitCount f =? 0) || negb (bitCount f mod 8 =? 0)) (BadBitCount (bitCount f));
      _ ← guard_err (negb (len (fbits f) =? bitCount f / 8))
            (MismatchedBits (len (fbits f)) (bitCount f / 8));
      Ok ([z2b currentVersion; z2b HashXXH3_128; z2b ProbeEnhancedDoubleHash; z2b (hashCount f)] ++
          PutUint64 (bitCount f) ++ fbits f)
  end.

Definition Decode (buf : bytes) : result bloom_error Filter :=
  _ ← guard_err (len buf <? Z.of_nat encodedHeaderSize) BufferTooSmall;
  let version := le_Z (slice 0 1 buf) in
  let hashAlgorithm := le_Z (slice 1 2 buf) in
  let probeAlgorithm := le_Z (slice 2 3 buf) in
  let hashCount := le_Z (slice 3 4 buf) in
  let bitCount := Uint64 (slice 4 12 buf) in
  _ ← guard_err (negb (version =? currentVersion)) (BadFilterVersion version);
  _ ← guard_err (negb (hashAlgorithm =? HashXXH3_128)) (BadHashAlgorithm hashAlgorithm);
  _ ← guard_err (negb (probeAlgorithm =? ProbeEnhancedDoubleHash)) (BadProbeAlgorithm probeAlgorithm);
  _ ← guard_err ((hashCount =? 0) || (hashCount >? 30)) (BadHashCount hashCount);
  _ ← guard_err ((bitCount =? 0) || negb (bitCount mod 8 =? 0)) (BadBitCount bitCount);
  _ ← guard_err (bitCount >? maxEncodedBitCount) (TooManyBits bitCount);
  let expectedBytes := bitCount / 8 in
  let actualBytes := len buf - Z.of_nat encodedHeaderSize in
  _ ← guard_err (negb (actualBytes =? expectedBytes)) (MismatchedBits actualBytes expectedBytes);
  Ok (mkFilter (drop encodedHeaderSize buf) bitCount hashCount).

(** ** The bitset *)

(** Bit [b] of the set. *)
Definition bit_at (bits : bytes) (b : Z) : bool :=
  match bits !! Z.to_nat (b / 8) with
  | Some x => Z.testbit (b2z x) (b mod 8)
  | None => false
  end.

(** What [New] and [Decode] produce and [Add] needs. *)
Definition wf_filter (f : Filter) : Prop :=
  0 < bitCount f /\ bitCount f = 8 * len (fbits f) /\ 1 <= hashCount f <= 30.

Lemma land_bit x k : 0 <= k -> negb (Z.land x (Z.shiftl 1 k) =? 0) = Z.testbit x k.
Proof.
  intros Hk. rewrite Z.shiftl_1_l. destruct (Z.testbit x k) eqn:E.
  - apply negb_true_iff, Z.eqb_neq. intros H. apply (f_equal (fun z => Z.testbit z k)) in H.
    rewrite Z.land_spec, E, Z.pow2_bits_true, Z.bits_0 in H by done. done.
  - apply negb_false_iff, Z.eqb_eq, Z.bits_inj_0. intros j. rewrite Z.land_spec.
    destruct (Z.eq_dec j k) as [-> |]; [by rewrite E |].
    by rewrite Z.pow2_bits_false, andb_false_r.
Qed.

Lemma bit_index (bits : bytes) b :
  0 <= b < 8 * len bits -> exists x, bits !! Z.to_nat (b / 8) = Some x.
Proof.
  intros Hb. apply lookup_lt_is_Some. pose proof (Z.div_pos b 8).
  assert (b / 8 < len bits) by (apply Z.div_lt_upper_bound; lia). unfold len in *. lia.
Qed.

Lemma test_bit_at bits b : 0 <= b < 8 * len bits -> test_bit b bits = Some (bit_at bits b).
Proof.
  intros Hb. unfold test_bit, bit_at. destruct (bit_index bits b Hb) as [x ->]. simpl.
  by rewrite land_bit by (apply Z.mod_pos_bound; lia).
Qed.

Lemma set_bit_at bits b :
  0 <= b < 8 * len bits ->
  exists bits', set_bit b bits = Some bits' /\ length bits' = length bits /\
    forall c, 0 <= c -> bit_at bits' c = (b =? c) || bit_at bits c.
Proof.
  intros Hb. unfold set_bit, bit_at. destruct (bit_index bits b Hb) as [x Hx]. rewrite Hx. simpl.
  eexists. split; [reflexivity |]. split; [apply length_insert |]. intros c Hc.
  pose proof (Z.mod_pos_bound b 8). pose proof (Z.mod_pos_bound c 8).
  pose proof (Z.div_mod b 8). pose proof (Z.div_mod c 8).
  pose proof (Z.div_pos b 8). pose proof (Z.div_pos c 8).
  destruct (decide (b / 8 = c / 8)) as [He | Hne].
  - rewrite <- He, Hx, list_lookup_insert_eq by (by apply lookup_lt_Some in Hx).
    rewrite b2z_z2b. change 256 with (2 ^ 8). rewrite Z.mod_pow2_bits_low by lia.
    rewrite Z.lor_spec, Z.shiftl_1_l, Z.pow2_bits_eqb, orb_comm by lia. f_equal.
    destruct (Z.eqb_spec b c), (Z.eqb_spec (b mod 8) (c mod 8)); try done; lia.
  - rewrite list_lookup_insert_ne by lia. destruct (Z.eqb_spec b c); [congruence | done].
Qed.

(** ** Probe sequences *)

(** The bits an iteration from [i] visits. *)
Fixpoint probes (n : nat) (i position increment bc : Z) : list Z :=
  match n with
  | O => []
  | S n => position mod bc ::
           probes n (i + 1) (u64 (position + increment)) (u64 (increment + (i + 1))) bc
  end.

Lemma probes_range n i p inc bc : 0 < bc -> Forall (fun b => 0 <= b < bc) (probes n i p inc bc).
Proof.
  intros Hb. revert i p inc. induction n; intros; simpl; constructor; auto.
  by apply Z.mod_pos_bound.
Qed.

Lemma add_loop_probes n i p inc bc bits :
  0 < bc -> bc = 8 * len bits ->
  exists bits', add_loop n i p inc bc bits = Some bits' /\ length bits' = length bits /\
    forall c, 0 <= c -> bit_at bits' c = existsb (Z.eqb c) (probes n i p inc bc) || bit_at bits c.
Proof.
  intros Hb. revert i p inc bits. induction n as [|n IH]; intros i p inc bits Hl.
  - exists bits. auto.
  - simpl. unfold probe_bit. destruct (Z.eqb_spec bc 0); [lia |]. simpl.
    destruct (set_bit_at bits (p mod bc)) as (bits1 & -> & L1 & H1).
    { rewrite <- Hl. by apply Z.mod_pos_bound. }
    simpl. destruct (IH (i + 1) (u64 (p + inc)) (u64 (inc + (i + 1))) bits1) as (bits2 & -> & L2 & H2).
    { unfold len in *. by rewrite L1. }
    exists bits2. split; [done |]. split; [congruence |]. intros c Hc.
    rewrite H2, H1, (Z.eqb_sym (p mod bc)) by done.
    by destruct (c =? p mod bc), (existsb _ _).
Qed.

Lemma contain_loop_probes n i p inc bc bits :
  0 < bc -> bc = 8 * len bits ->
  contain_loop n i p inc bc bits = Some (forallb (bit_at bits) (probes n i p inc bc)).
Proof.
  intros Hb Hl. revert i p inc. induction n as [|n IH]; intros i p inc; [done |].
  simpl. unfold probe_bit. destruct (Z.eqb_spec bc 0); [lia |]. simpl.
  rewrite test_bit_at by (rewrite <- Hl; by apply Z.mod_pos_bound). simpl.
  destruct (bit_at bits (p mod bc)); simpl; auto.
Qed.

Lemma u64_add_l a b : u64 (u64 a + b) = u64 (a + b).
Proof. unfold u64. apply Zplus_mod_idemp_l. Qed.

Lemma u64_add_mul a j k : u64 (a + j * u64 k) = u64 (a + j * k).
Proof.
  unfold u64. rewrite Zplus_mod, (Zmult_mod j (_ mod _)), Zmod_mod, <- Zmult_mod, <- Zplus_mod. done.
Qed.

(** The recurrence in closed form: iteration [j] from [i] is at
    [p + j * inc + i * j (j - 1) / 2 + (j^3 - j) / 6], modulo 2^64. *)
Lemma probes_lookup n i p inc bc j t q :
  is_u64 p -> (j < n)%nat -> 2 * t = Z.of_nat j * (Z.of_nat j - 1) ->
  6 * q = Z.of_nat j ^ 3 - Z.of_nat j ->
  probes n i p inc bc !! j = Some (u64 (p + Z.of_nat j * inc + i * t + q) mod bc).
Proof.
  intros Hp. revert n i p inc t q Hp. induction j as [|j IH]; intros [|n] i p inc t q Hp Hj Ht Hq;
    try lia; simpl.
  - assert (t = 0) as -> by lia. assert (q = 0) as -> by lia.
    replace (p + Z.of_nat 0 * inc + i * 0 + 0) with p by lia. by rewrite u64_id.
  - rewrite (IH n (i + 1) _ _ (t - Z.of_nat j) (q - t)); [| apply u64_range | lia | lia |].
    + do 2 f_equal. set (k := u64 (inc + (i + 1))).
      replace (u64 (p + inc) + Z.of_nat j * k + (i + 1) * (t - Z.of_nat j) + (q - t))
        with (u64 (p + inc) + (Z.of_nat j * k + (i + 1) * (t - Z.of_nat j) + (q - t))) by ring.
      rewrite u64_add_l.
      replace (p + inc + (Z.of_nat j * k + (i + 1) * (t - Z.of_nat j) + (q - t)))
        with (p + inc + (i + 1) * (t - Z.of_nat j) + (q - t) + Z.of_nat j * k) by ring.
      unfold k. rewrite u64_add_mul. f_equal. rewrite Nat2Z.inj_succ. ring.
    + replace (6 * (q - t)) with (6 * q - 3 * (2 * t)) by ring. rewrite Hq, Ht, Nat2Z.inj_succ. ring.
Qed.

(** ** Filters *)

(** The bits of a key in a filter of a given shape. *)
Definition key_probes (Hash128 : bytes -> Z * Z) (f : Filter) (key : bytes) : list Z :=
  let '(h1, h2) := hashPair Hash128 key in
  probes (Z.to_nat (hashCount f)) 0 h1 h2 (bitCount f).

Section filter_proofs.
Context (Hash128 : bytes -> Z * Z).

Lemma Add_wf key f :
  wf_filter f ->
  exists f', Add Hash128 key f = Some f' /\ wf_filter f' /\
    bitCount f' = bitCount f /\ hashCount f' = hashCount f /\
    forall c, 0 <= c ->
      bit_at (fbits f') c = existsb (Z.eqb c) (key_probes Hash128 f key) || bit_at (fbits f) c.
Proof.
  intros (Hb & Hl & Hh). unfold Add, key_probes. destruct (hashPair Hash128 key) as [h1 h2].
  destruct (add_loop_probes (Z.to_nat (hashCount f)) 0 h1 h2 _ _ Hb Hl) as (bits' & -> & L & H).
  simpl. eexists. split; [reflexivity |]. split_and!; try done. split_and!; try done; simpl; try lia.
  unfold len in *. by rewrite L.
Qed.

Lemma MayContain_wf f key :
  wf_filter f ->
  MayContain Hash128 (Some f) key = Some (forallb (bit_at (fbits f)) (key_probes Hash128 f key)).
Proof.
  intros (Hb & Hl & Hh). unfold MayContain, key_probes.
  destruct (Z.eqb_spec (bitCount f) 0); [lia |]. destruct (hashPair Hash128 key) as [h1 h2].
  by apply contain_loop_probes.
Qed.

Lemma key_probes_range f key b : wf_filter f -> b ∈ key_probes Hash128 f key -> 0 <= b < bitCount f.
Proof.
  intros (Hb & _). unfold key_probes. destruct (hashPair Hash128 key) as [h1 h2].
  pose proof (probes_range (Z.to_nat (hashCount f)) 0 h1 h2 _ Hb) as H.
  rewrite Forall_forall in H. apply H.
Qed.

Lemma key_probes_shape f f' key :
  bitCount f' = bitCount f -> hashCount f' = hashCount f ->
  key_probes Hash128 f' key = key_probes Hash128 f key.
Proof. unfold key_probes. by intros -> ->. Qed.

Lemma Add_all_wf keys f :
  wf_filter f ->
  exists f', Add_all Hash128 keys f = Some f' /\ wf_filter f' /\
    bitCount f' = bitCount f /\ hashCount f' = hashCount f /\
    forall c, 0 <= c -> bit_at (fbits f') c =
      existsb (fun key => existsb (Z.eqb c) (key_probes Hash128 f key)) keys || bit_at (fbits f) c.
Proof.
  revert f. induction keys as [|key keys IH]; intros f Hf; simpl; [by eauto 10 |].
  destruct (Add_wf key f Hf) as (f1 & -> & Hf1 & Hb1 & Hh1 & H1). simpl.
  destruct (IH f1 Hf1) as (f2 & -> & Hf2 & Hb2 & Hh2 & H2).
  exists f2. split_and!; try done; try congruence. intros c Hc. rewrite H2, H1 by done.
  assert (E : existsb (fun key => existsb (Z.eqb c) (key_probes Hash128 f1 key)) keys =
              existsb (fun key => existsb (Z.eqb c) (key_probes Hash128 f key)) keys).
  { clear -Hb1 Hh1. induction keys as [|k keys IH]; [done |]. simpl. rewrite IH.
    by rewrite (key_probes_shape f f1 k). }
  rewrite E, orb_assoc. f_equal. apply orb_comm.
Qed.

Lemma Add_all_contains keys f f' key :
  wf_filter f -> Add_all Hash128 keys f = Some f' -> key ∈ keys ->
  MayContain Hash128 (Some f') key = Some true.
Proof.
  intros Hf Ha Hk. destruct (Add_all_wf keys f Hf) as (f2 & E & Hf2 & Hb & Hh & H).
  rewrite E in Ha. injection Ha as <-. rewrite MayContain_wf by done. f_equal.
  apply forallb_forall. intros b Hb'%list_elem_of_In.
  pose proof (key_probes_range _ _ _ Hf2 Hb') as Hr. rewrite (key_probes_shape f f2) in Hb' by done.
  rewrite H by lia. apply orb_true_iff. left. apply existsb_exists. exists key.
  split; [by apply list_elem_of_In |]. apply existsb_exists. exists b.
  split; [by apply list_elem_of_In | apply Z.eqb_refl].
Qed.
End filter_proofs.

(** ** The encoded form *)

(** A filter [Decode] accepts. *)
Definition wf_encoded (f : Filter) : Prop :=
  wf_filter f /\ bitCount f <= maxEncodedBitCount.

Lemma le_Z_byte x : le_Z [x] = b2z x.
Proof. unfold le_Z. lia. Qed.

Lemma Encode_Ok f buf :
  wf_filter f ->
  Encode (Some f) = Ok buf <->
  buf = [x01; x01; x01; z2b (hashCount f)] ++ PutUint64 (bitCount f) ++ fbits f.
Proof.
  intros (H1 & H2 & H3). unfold Encode.
  assert (E : bitCount f / 8 = len (fbits f)) by (rewrite H2, Z.mul_comm; apply Z.div_mul; lia).
  assert (Em : bitCount f mod 8 = 0) by (rewrite H2, Z.mul_comm; apply Z.mod_mul; lia).
  rewrite E, Em, Z.eqb_refl. rewrite !guard_err_false by (simpl; lia). bind_step.
  split; [by intros [= <-] | by intros ->].
Qed.

Lemma Decode_Encode f buf : wf_encoded f -> Encode (Some f) = Ok buf -> Decode buf = Ok f.
Proof.
  intros [Hwf Hmax] He. apply Encode_Ok in He; [| done]. subst buf. destruct Hwf as (H1 & H2 & H3).
  unfold Decode. set (tail := PutUint64 (bitCount f) ++ fbits f).
  assert (E4 : Uint64 (slice 4 12 ([x01; x01; x01; z2b (hashCount f)] ++ tail)) = bitCount f).
  { unfold slice. change (drop 4 _) with tail. unfold tail.
    rewrite take_app_length' by (by rewrite length_PutUint64).
    rewrite <- (app_nil_r (PutUint64 _)). apply Uint64_PutUint64.
    unfold is_u64, u64_max, maxEncodedBitCount in *. lia. }
  assert (Ed : drop encodedHeaderSize ([x01; x01; x01; z2b (hashCount f)] ++ tail) = fbits f).
  { unfold tail, encodedHeaderSize. rewrite app_assoc, drop_app_length'; [done |].
    by rewrite length_app, length_PutUint64. }
  assert (El : len ([x01; x01; x01; z2b (hashCount f)] ++ tail) = 12 + len (fbits f)).
  { unfold tail. rewrite !len_app, len_PutUint64. unfold len. simpl. lia. }
  rewrite E4, Ed, El.
  change (slice 0 1 _) with [x01]. change (slice 1 2 _) with [x01]. change (slice 2 3 _) with [x01].
  change (slice 3 4 _) with [z2b (hashCount f)]. rewrite !le_Z_byte, b2z_z2b. rewrite (Z.mod_small (hashCount f)) by lia.
  assert (E : bitCount f / 8 = len (fbits f)) by (rewrite H2, Z.mul_comm; apply Z.div_mul; lia).
  assert (Em : bitCount f mod 8 = 0) by (rewrite H2, Z.mul_comm; apply Z.mod_mul; lia).
  pose proof (len_nonneg (fbits f)). rewrite E, Em. change (b2z x01) with 1. cbv zeta.
  unfold encodedHeaderSize, currentVersion, HashXXH3_128, ProbeEnhancedDoubleHash.
  clear E4 Ed El E Em. clearbody tail. change (Z.of_nat 12) with 12. simpl negb.
  rewrite !guard_err_false by lia.
  by destruct f.
Qed.

Lemma Decode_Ok buf f : Decode buf = Ok f -> wf_encoded f /\ Encode (Some f) = Ok buf.
Proof.
  unfold Decode. intros H. bind_inv H. injection H as <-.
  apply negb_false_iff, Z.eqb_eq in Hx0, Hx1, Hx2, Hx6.
  apply orb_false_iff in Hx3 as [Ha Hb]. apply orb_false_iff in Hx4 as [Hc Hd].
  apply negb_false_iff, Z.eqb_eq in Hd. unfold encodedHeaderSize in *.
  change (Z.of_nat 12) with 12 in *.
  pose proof (Uint64_range (slice 4 12 buf)) as Hu. unfold is_u64 in Hu.
  assert (Hl : (12 <= length buf)%nat) by (unfold len in *; lia).
  assert (Eh : exists a b c d tl, buf = a :: b :: c :: d :: tl /\ (8 <= length tl)%nat).
  { do 4 (destruct buf as [|? buf]; [simpl in Hl; lia |]). simpl in Hl. eauto 10 with lia. }
  destruct Eh as (a & b & c & d & tl & -> & Htl).
  change (slice 0 1 _) with [a] in *. change (slice 1 2 _) with [b] in *.
  change (slice 2 3 _) with [c] in *. change (slice 3 4 _) with [d] in *.
  change (slice 4 12 _) with (take 8 tl) in *. change (drop 12 _) with (drop 8 tl) in *.
  rewrite !le_Z_byte in *.
  apply (b2z_inj a x01) in Hx0. apply (b2z_inj b x01) in Hx1. apply (b2z_inj c x01) in Hx2. subst a b c.
  pose proof (b2z_range d). set (bc := Uint64 (take 8 tl)) in *.
  assert (Hbc : bc = 8 * len (drop 8 tl)).
  { pose proof (Z.div_mod bc 8). unfold len in *. rewrite length_drop. rewrite !length_cons in *. lia. }
  assert (Hwf : wf_filter (mkFilter (drop 8 tl) bc (b2z d))) by (unfold wf_filter; cbn [hashCount bitCount fbits]; lia).
  split; [split; [done | cbn [bitCount]; lia] |]. apply Encode_Ok; [done |].
  cbn [hashCount bitCount fbits app]. rewrite z2b_b2z. unfold bc.
  rewrite PutUint64_Uint64 by (rewrite length_take; lia). by rewrite take_take, take_drop.
Qed.

(** ** Properties *)

(** C36: no false negatives, and no surprise.  Inserting any keys into a
    well-formed filter succeeds and keeps it well-formed; afterwards every
    inserted key is reported as possibly present, and any key is reported so
    exactly when each of its probe bits was set before or is a probe bit of an
    inserted key. *)
Theorem bloom_no_false_negatives (Hash128 : bytes -> Z * Z) keys f :
  wf_filter f ->
  exists f', Add_all Hash128 keys f = Some f' /\ wf_filter f' /\
    (forall key, key ∈ keys -> MayContain Hash128 (Some f') key = Some true) /\
    (forall key, MayContain Hash128 (Some f') key =
       Some (forallb (fun b => existsb (fun k => existsb (Z.eqb b) (key_probes Hash128 f k)) keys
                               || bit_at (fbits f) b) (key_probes Hash128 f key))).
Proof.
  intros Hf. destruct (Add_all_wf Hash128 keys f Hf) as (f' & E & Hf' & Hb & Hh & H).
  exists f'. split_and!; [done | done | intros key Hk; exact (Add_all_contains Hash128 keys f f' key Hf E Hk) |].
  intros key. rewrite MayContain_wf by done. f_equal.
  rewrite (key_probes_shape Hash128 f f') by done. pose proof (key_probes_range Hash128 f key) as Hr.
  induction (key_probes Hash128 f key) as [|b bs IH]; [done |]. cbn [forallb].
  rewrite H, IH; [done | |].
  - intros c Hc Hin. apply Hr; [done | by right].
  - assert (0 <= b < bitCount f) by (apply Hr; [done | by left]). lia.
Qed.

(** A stand-in hash for the examples. *)
Definition sum_hash (key : bytes) : Z * Z := (7 + 3 * le_Z key, 11 + 5 * le_Z key).

Lemma bloom_no_false_negatives_witness :
  let f := mkFilter (replicate 4 x00) 32 3 in
  exists f', Add_all sum_hash [[x61]; [x62]] f = Some f' /\
    MayContain sum_hash (Some f') [x61] = Some true.
Proof.
  intros f. destruct (bloom_no_false_negatives sum_hash [[x61]; [x62]] f) as (f' & E & _ & H & _).
  - unfold wf_filter. vm_compute. repeat split; congruence.
  - exists f'. split; [exact E |]. apply H. set_solver.
Defined.

(** The probe sequence is the enhanced double hashing it is documented to
    be: probe [j] is bit [h1 + j*h2 + (j^3-j)/6] modulo 2^64 and the bit
    count, whatever overflow occurs on the way. *)
Theorem bloom_probe_closed_form (Hash128 : bytes -> Z * Z) f key j :
  is_u64 (fst (hashPair Hash128 key)) -> (j < Z.to_nat (hashCount f))%nat ->
  key_probes Hash128 f key !! j =
  Some (u64 (fst (hashPair Hash128 key) + Z.of_nat j * snd (hashPair Hash128 key) +
             (Z.of_nat j ^ 3 - Z.of_nat j) / 6) mod bitCount f).
Proof.
  unfold key_probes. destruct (hashPair Hash128 key) as [h1 h2]. simpl fst. simpl snd. intros Hh Hj.
  assert (Hd : forall k, exists t q, 2 * t = Z.of_nat k * (Z.of_nat k - 1) /\ 6 * q = Z.of_nat k ^ 3 - Z.of_nat k).
  { induction k as [|k (t & q & Ht & Hq)]; [by exists 0, 0 |].
    exists (t + Z.of_nat k), (q + t + Z.of_nat k). rewrite Nat2Z.inj_succ. split; [lia |].
    replace (6 * (q + t + Z.of_nat k)) with (6 * q + 3 * (2 * t) + 6 * Z.of_nat k) by ring.
    rewrite Hq, Ht. ring. }
  destruct (Hd j) as (t & q & Ht & Hq). rewrite (probes_lookup _ 0 _ _ _ j t q) by done.
  replace ((Z.of_nat j ^ 3 - Z.of_nat j) / 6) with q by (rewrite <- Hq, Z.mul_comm, Z.div_mul; lia).
  by replace (0 * t) with 0 by lia; rewrite Z.add_0_r.
Qed.

Lemma bloom_probe_closed_form_witness :
  key_probes sum_hash (mkFilter (replicate 4 x00) 32 7) [x61] !! 5%nat =
  Some (u64 (496 + 5 * 298 + (5 ^ 3 - 5) / 6) mod 32).
Proof.
  refine (bloom_probe_closed_form sum_hash (mkFilter (replicate 4 x00) 32 7) [x61] 5 _ _).
  - vm_compute. split; congruence.
  - vm_compute. lia.
Defined.

(** The encoded filter is canonical: a buffer decodes to a filter exactly
    when the filter is within the limits and the buffer is its encoding. *)
Theorem bloom_canonical buf f :
  Decode buf = Ok f <-> wf_encoded f /\ Encode (Some f) = Ok buf.
Proof.
  split; [apply Decode_Ok |]. intros [Hf He]. by apply Decode_Encode.
Qed.

(** Sizing.  [New] fails exactly on a non-positive item count or a rate
    outside (0, 1); otherwise, as long as the number of bits the formula asks
    for is between 1 and 2^64-8, the filter is well-formed and empty, has that
    number of bits rounded up to a whole byte, and between 1 and 30 hash
    functions. *)
Theorem bloom_New_ok math_Log conv n p :
  let bits := uint64_ceil conv (f_div (f_mul (f_neg (f_of_Z n)) (math_Log p)) f_Ln2_sq) in
  1 <= bits <= u64_max - 7 ->
  if (n <=? 0) || f_leb p f_zero || f_leb f_one p then exists e, New math_Log conv n p = Err e
  else exists f, New math_Log conv n p = Ok f /\ wf_filter f /\ bits <= bitCount f < bits + 8 /\
       forall b, bit_at (fbits f) b = false.
Proof.
  intros bits Hb. unfold New. fold bits. destruct (Z.leb_spec n 0); simpl orb; [by eexists |].
  cbn [guard_err mbind result_bind]. destruct (f_leb p f_zero || f_leb f_one p); [by eexists |].
  rewrite guard_err_false by done. bind_step. cbv zeta.
  assert (Hq : u64 (bits + 7) / 8 = (bits + 7) / 8) by (rewrite u64_id; [done | unfold is_u64; lia]).
  rewrite Hq. pose proof (Z.div_mod (bits + 7) 8 ltac:(lia)) as Hdm.
  pose proof (Z.mod_pos_bound (bits + 7) 8 ltac:(lia)) as Hm. set (k := (bits + 7) / 8) in *.
  rewrite (u64_id (k * 8)) by (unfold is_u64, u64_max in *; lia).
  eexists. split; [reflexivity |]. unfold wf_filter. cbn [bitCount hashCount fbits].
  set (hc := int_round _ _). split_and!; try lia.
  - unfold len. rewrite length_replicate. lia.
  - destruct (Z.ltb_spec hc 1); [done |]. destruct (Z.gtb_spec hc 30); lia.
  - destruct (Z.ltb_spec hc 1); [done |]. destruct (Z.gtb_spec hc 30); lia.
  - intros b. unfold bit_at. destruct (replicate (Z.to_nat k) x00 !! Z.to_nat (b / 8)) as [x|] eqn:E; [| done].
    apply lookup_replicate in E as [-> _]. apply Z.bits_0.
Qed.

(** The rate 0.01 and its logarithm. *)
Definition f_hundredth : float64 := S754_finite false 0x147ae147ae147b (-59).
Definition log_hundredth (_ : float64) : float64 := S754_finite true 0x126bb1bbb55515 (-50).

Lemma bloom_New_ok_witness :
  exists f, New log_hundredth (fun _ => 0) 10 f_hundredth = Ok f /\ wf_filter f /\
    96 <= bitCount f < 104 /\ (forall b, bit_at (fbits f) b = false) /\ hashCount f = 7.
Proof.
  pose proof (bloom_New_ok log_hundredth (fun _ => 0) 10 f_hundredth) as H.
  change (uint64_ceil _ _) with 96 in H.
  destruct H as (f & E & Hw & Hb & Hz); [vm_compute; split; congruence |].
  exists f. split; [exact E |]. split; [exact Hw |]. split; [exact Hb |]. split; [exact Hz |].
  vm_compute in E. injection E as <-. reflexivity.
Defined.
