(* ===== verification/BlockCache.v ===== *)
(** * The block cache

    Models [internal/blockcache]: the LRU cache of decoded blocks.  The code
    keeps a map from block keys to elements of a doubly linked list
    ([container/list]) whose values are shared [*entry] pointers; here the
    elements live in a heap, the map and the list hold their addresses, and
    the list is the sequence of addresses from front to back.  [None] is a nil
    dereference or an exhausted loop, which the proofs exclude.  The methods
    hold the cache's mutex for their whole body, so they are atomic steps.
    [usedBytes] never exceeds twice the capacity, so it stays within [int].

    The specification is a list of keys and blocks, most recently used
    first. *)

From S2P Require Import Prelude.

Record Key := mkKey { TableID : Z; Offset : Z }.

Global Instance Key_eq_dec : EqDecision Key.
Proof. solve_decision. Defined.
Global Program Instance Key_countable : Countable Key :=
  inj_countable (fun k => (TableID k, Offset k)) (fun p => Some (mkKey p.1 p.2)) _.
Next Obligation. by intros []. Qed.

Record entry := mkEntry { ekey : Key; eblock : bytes; esize : Z }.

Record LRU := mkLRU {
  capacityBytes : Z;
  usedBytes : Z;
  entries : gmap Key nat;
  order : list nat;
  elems : gmap nat entry;
}.

Definition NewLRU (capacityBytes : Z) : LRU :=
  let capacityBytes := if capacityBytes <=? 0 then 0 else capacityBytes in
  mkLRU capacityBytes 0 ∅ [] ∅.

(** [order.Remove(elem)] and [order.MoveToFront(elem)] on the addresses. *)
Definition list_remove (e : nat) (o : list nat) : list nat := filter (fun x => x <> e) o.
Definition MoveToFront (e : nat) (o : list nat) : list nat :=
  if decide (e ∈ o) then e :: list_remove e o else o.

Definition Get (key : Key) (c : LRU) : option (option bytes * LRU) :=
  match entries c !! key with
  | None => Some (None, c)
  | Some elem =>
      item ← elems c !! elem;
      Some (Some (eblock item),
            mkLRU (capacityBytes c) (usedBytes c) (entries c) (MoveToFront elem (order c)) (elems c))
  end.

(** The three statements that take an element out of the cache. *)
Definition removeElem (key : Key) (elem : nat) (item : entry) (c : LRU) : LRU :=
  mkLRU (capacityBytes c) (usedBytes c - esize item) (delete key (entries c))
    (list_remove elem (order c)) (elems c).

Definition deleteLocked (key : Key) (c : LRU) : option LRU :=
  match entries c !! key with
  | None => Some c
  | Some elem => item ← elems c !! elem; Some (removeElem key elem item c)
  end.

Fixpoint evict_loop (fuel : nat) (c : LRU) : option LRU :=
  match fuel with
  | O => None
  | S fuel =>
      if usedBytes c >? capacityBytes c then
        match last (order c) with
        | None => Some c
        | Some elem =>
            item ← elems c !! elem;
            evict_loop fuel (removeElem (ekey item) elem item c)
        end
      else Some c
  end.

(** Every iteration shortens the list. *)
Definition evictLocked (c : LRU) : option LRU := evict_loop (S (length (order c))) c.

Definition Set_ (key : Key) (block : bytes) (c : LRU) : option LRU :=
  if len block =? 0 then Some c
  else
    let size := len block in
    if (capacityBytes c =? 0) || (size >? capacityBytes c) then deleteLocked key c
    else
      c ← match entries c !! key with
          | Some elem =>
              item ← elems c !! elem;
              Some (mkLRU (capacityBytes c) (usedBytes c - esize item + size) (entries c)
                      (MoveToFront elem (order c))
                      (<[elem := mkEntry (ekey item) block size]> (elems c)))
          | None =>
              let elem := fresh (dom (elems c)) in
              Some (mkLRU (capacityBytes c) (usedBytes c + size) (<[key := elem]> (entries c))
                      (elem :: order c) (<[elem := mkEntry key block size]> (elems c)))
          end;
      evictLocked c.

Definition Delete (key : Key) (c : LRU) : option LRU := deleteLocked key c.

(** The body of the [range] loop, over the entries in the order the runtime
    chooses. *)
Fixpoint purge_loop (tableID : Z) (iter : list (Key * nat)) (c : LRU) : option LRU :=
  match iter with
  | [] => Some c
  | (key, elem) :: iter =>
      if negb (TableID key =? tableID) then purge_loop tableID iter c
      else
        item ← elems c !! elem;
        purge_loop tableID iter (removeElem key elem item c)
  end.

Definition Len (c : LRU) : Z := Z.of_nat (size (entries c)).

(** ** Specification *)

Abbreviation cached := (list (Key * bytes)).

Fixpoint total (l : cached) : Z :=
  match l with [] => 0 | (_, b) :: l => len b + total l end.

Definition without (k : Key) (l : cached) : cached := filter (fun kb => kb.1 <> k) l.

Fixpoint assoc (k : Key) (l : cached) : option bytes :=
  match l with
  | [] => None
  | (k', b) :: l => if decide (k' = k) then Some b else assoc k l
  end.

(** The longest prefix that fits. *)
Fixpoint keep (cap : Z) (l : cached) : cached :=
  match l with
  | [] => []
  | (k, b) :: l => if len b <=? cap then (k, b) :: keep (cap - len b) l else []
  end.

Inductive op : Type :=
| OGet (k : Key)
| OSet (k : Key) (b : bytes)
| ODelete (k : Key)
| OPurge (t : Z).

(** The result of the operation ([None] for those that return nothing and for
    a miss) and the new state. *)
Definition spec_op (cap : Z) (o : op) (l : cached) : option bytes * cached :=
  match o with
  | OGet k => match assoc k l with
              | Some b => (Some b, (k, b) :: without k l)
              | None => (None, l)
              end
  | OSet k b => (None, if len b =? 0 then l
                       else if (cap =? 0) || (len b >? cap) then without k l
                       else keep cap ((k, b) :: without k l))
  | ODelete k => (None, without k l)
  | OPurge t => (None, filter (fun kb => TableID kb.1 <> t) l)
  end.

Fixpoint spec_run (cap : Z) (ops : list op) (l : cached) : list (option bytes) * cached :=
  match ops with
  | [] => ([], l)
  | o :: ops => let '(r, l) := spec_op cap o l in
                let '(rs, l) := spec_run cap ops l in (r :: rs, l)
  end.

(** What a client that never evicts would remember. *)
Definition remember (o : op) (m : gmap Key bytes) : gmap Key bytes :=
  match o with
  | OGet _ => m
  | OSet k b => if len b =? 0 then m else <[k := b]> m
  | ODelete k => delete k m
  | OPurge t => filter (fun kb => TableID kb.1 <> t) m
  end.

(** Element [e] of the list is the entry of a key and its block. *)
Definition linked (es : gmap nat entry) (en : gmap Key nat) (e : nat) (kb : Key * bytes) : Prop :=
  es !! e = Some (mkEntry kb.1 kb.2 (len kb.2)) /\ en !! kb.1 = Some e.

(** The elements, keys and sizes agree. *)
Record repr (c : LRU) (l : cached) : Prop := mkRepr {
  r_order : NoDup (order c);
  r_keys : NoDup l.*1;
  r_elems : Forall2 (linked (elems c) (entries c)) (order c) l;
  r_dom : forall k e, entries c !! k = Some e -> k ∈ l.*1;
  r_used : usedBytes c = total l;
}.

(** ** Facts on the specification *)

Lemma total_app l k : total (l ++ k) = total l + total k.
Proof. induction l as [|[] l IH]; simpl; [done | lia]. Qed.

Lemma total_nonneg l : 0 <= total l.
Proof. induction l as [|[k b] l IH]; simpl; [done |]. pose proof (len_nonneg b). lia. Qed.

Lemma keep_all cap l : total l <= cap -> keep cap l = l.
Proof.
  revert cap. induction l as [|[k b] l IH]; intros cap H; simpl in *; [done |].
  pose proof (total_nonneg l). destruct (Z.leb_spec (len b) cap); [| lia].
  by rewrite IH by lia.
Qed.

Lemma keep_snoc cap l x : cap < total (l ++ [x]) -> keep cap (l ++ [x]) = keep cap l.
Proof.
  revert cap. induction l as [|[k b] l IH]; intros cap H; simpl in *.
  - destruct x as [k b]. simpl in H. destruct (Z.leb_spec (len b) cap); [lia | done].
  - destruct (Z.leb_spec (len b) cap); [| done]. by rewrite IH by lia.
Qed.

Lemma keep_total cap l : 0 <= cap -> total (keep cap l) <= cap.
Proof.
  revert cap. induction l as [|[k b] l IH]; intros cap H; simpl; [done |].
  destruct (Z.leb_spec (len b) cap); simpl; [| done]. specialize (IH (cap - len b)). lia.
Qed.

Lemma keep_prefix cap l : exists k, l = keep cap l ++ k.
Proof.
  revert cap. induction l as [|[k b] l IH]; intros cap; simpl; [by exists [] |].
  destruct (Z.leb_spec (len b) cap); [| by eexists]. destruct (IH (cap - len b)) as [r Hr].
  exists r. simpl. by f_equal.
Qed.

Lemma assoc_None k l : assoc k l = None <-> k ∉ l.*1.
Proof.
  induction l as [|[k' b] l IH]; simpl; [set_solver |]. destruct (decide (k' = k)) as [-> |]; set_solver.
Qed.

Lemma assoc_elem k b l : NoDup l.*1 -> (k, b) ∈ l -> assoc k l = Some b.
Proof.
  induction l as [|[k' b'] l IH]; simpl; [set_solver |]. rewrite NoDup_cons. intros [Hn Hd] Hin.
  apply elem_of_cons in Hin as [[= <- <-] | Hin]; [by rewrite decide_True |].
  destruct (decide (k' = k)) as [-> |]; [| auto].
  exfalso. apply Hn. apply list_elem_of_fmap. by exists (k, b).
Qed.

Lemma assoc_Some k b l : assoc k l = Some b -> (k, b) ∈ l.
Proof.
  induction l as [|[k' b'] l IH]; simpl; [done |]. destruct (decide (k' = k)) as [-> |].
  - intros [= ->]. left.
  - intros H. right. auto.
Qed.

Lemma without_none k l : k ∉ l.*1 -> without k l = l.
Proof.
  intros H. unfold without. induction l as [|[k' b] l IH]; [done |].
  rewrite filter_cons_True by (simpl; set_solver). rewrite IH by set_solver. done.
Qed.

Lemma without_split k b l1 l2 :
  NoDup (l1 ++ (k, b) :: l2).*1 -> without k (l1 ++ (k, b) :: l2) = l1 ++ l2.
Proof.
  rewrite fmap_app, fmap_cons. intros Hd. apply NoDup_app in Hd as (_ & Hx & Hd).
  apply NoDup_cons in Hd as [Hk _]. unfold without. rewrite filter_app.
  rewrite filter_cons_False by (simpl; congruence).
  fold (without k l1) (without k l2). rewrite !without_none; [done | done |].
  intros H. apply (Hx k H). left.
Qed.

Lemma list_remove_split e o1 o2 : NoDup (o1 ++ e :: o2) -> list_remove e (o1 ++ e :: o2) = o1 ++ o2.
Proof.
  intros Hd. apply NoDup_app in Hd as (_ & Hx & Hd). apply NoDup_cons in Hd as [Hk _].
  unfold list_remove. rewrite filter_app, filter_cons_False by congruence.
  rewrite !(list_filter_all _ o1), !(list_filter_all _ o2); [done | |].
  - apply Forall_forall. intros x Hx' ->. done.
  - apply Forall_forall. intros x Hx' ->. by apply (Hx e Hx'); left.
Qed.

(** ** The representation *)

(** An entry of the map is somewhere in the list. *)
Lemma repr_split c l key e :
  repr c l -> entries c !! key = Some e ->
  exists l1 b l2 o1 o2, l = l1 ++ (key, b) :: l2 /\ order c = o1 ++ e :: o2 /\
    length o1 = length l1 /\ elems c !! e = Some (mkEntry key b (len b)).
Proof.
  intros Hr He. pose proof (r_dom _ _ Hr _ _ He) as Hin.
  apply list_elem_of_fmap in Hin as ([k b] & ? & Hin). simpl in *. subst k.
  apply list_elem_of_lookup in Hin as [i Hi].
  destruct (Forall2_lookup_r _ _ _ _ _ (r_elems _ _ Hr) Hi) as (e' & Ho & Hm & Hk).
  simpl in *. assert (e' = e) as -> by congruence.
  exists (take i l), b, (drop (S i) l), (take i (order c)), (drop (S i) (order c)).
  split_and!; try done.
  - symmetry. by apply take_drop_middle.
  - symmetry. by apply take_drop_middle.
  - pose proof (Forall2_length _ _ _ (r_elems _ _ Hr)).
    apply lookup_lt_Some in Hi, Ho. rewrite !length_take. lia.
Qed.

Lemma repr_none c l key : repr c l -> entries c !! key = None -> key ∉ l.*1.
Proof.
  intros Hr He ([k b] & -> & Hin)%list_elem_of_fmap. apply list_elem_of_lookup in Hin as [i Hi].
  destruct (Forall2_lookup_r _ _ _ _ _ (r_elems _ _ Hr) Hi) as (e' & _ & _ & Hk). simpl in *. congruence.
Qed.

Lemma linked_delete es en key o l :
  key ∉ l.*1 -> Forall2 (linked es en) o l -> Forall2 (linked es (delete key en)) o l.
Proof.
  intros Hk H. induction H as [|e [k b] o l [H1 H2] H IH]; constructor; [| set_solver].
  split; [done |]. rewrite lookup_delete_ne; [done |]. set_solver.
Qed.

(** Entries for other keys and elements do not matter. *)
Lemma linked_insert es en key e item o l :
  key ∉ l.*1 -> e ∉ o -> Forall2 (linked es en) o l ->
  Forall2 (linked (<[e := item]> es) (<[key := e]> en)) o l.
Proof.
  intros Hk He H. induction H as [|e' [k b] o l [H1 H2] H IH]; constructor; [| set_solver].
  split; rewrite lookup_insert_ne; try done; set_solver.
Qed.

(** Taking an element out. *)
Lemma removeElem_repr c l1 key b l2 o1 e o2 :
  repr c (l1 ++ (key, b) :: l2) -> order c = o1 ++ e :: o2 -> length o1 = length l1 ->
  repr (removeElem key e (mkEntry key b (len b)) c) (l1 ++ l2) /\
  order (removeElem key e (mkEntry key b (len b)) c) = o1 ++ o2.
Proof.
  intros [Ho Hk He Hd Hu] Eo Hl. rewrite Eo in Ho, He. unfold removeElem. cbn [order].
  rewrite Eo, list_remove_split by done. split; [| done].
  apply Forall2_app_inv in He as [He1 He2]; [| done].
  apply Forall2_cons in He2 as [[Hx Hy] He2]. simpl in Hx, Hy.
  pose proof Hk as Hk'. rewrite fmap_app, fmap_cons in Hk'. simpl in Hk'.
  apply NoDup_app in Hk' as (Hk1 & Hkx & Hk2). apply NoDup_cons in Hk2 as [Hkn Hk2].
  constructor; cbn [order entries elems usedBytes].
  - apply NoDup_app in Ho as (Ho1 & Hox & [_ Ho2]%NoDup_cons). apply NoDup_app. split_and!; try done.
    intros x H1 H2. apply (Hox x H1). by right.
  - rewrite fmap_app. apply NoDup_app. split_and!; try done. intros x H1 H2. apply (Hkx x H1). by right.
  - apply Forall2_app.
    + apply linked_delete; [| done]. intros Hin. apply (Hkx key); [done | left].
    + by apply linked_delete.
  - intros k e' [Hne Hl']%lookup_delete_Some. apply Hd in Hl'. rewrite fmap_app, fmap_cons in *.
    simpl in *. set_solver.
  - simpl. rewrite Hu, !total_app. simpl. lia.
Qed.

Lemma deleteLocked_repr c l key :
  repr c l -> exists c', deleteLocked key c = Some c' /\ repr c' (without key l) /\
    capacityBytes c' = capacityBytes c.
Proof.
  intros Hr. unfold deleteLocked. destruct (entries c !! key) as [e|] eqn:E.
  - destruct (repr_split _ _ _ _ Hr E) as (l1 & b & l2 & o1 & o2 & -> & Eo & Hl & Hm). rewrite Hm. simpl.
    eexists. split; [reflexivity |]. split; [| done]. rewrite without_split by apply Hr.
    by apply (removeElem_repr _ _ _ _ _ o1 e o2).
  - exists c. rewrite without_none by (exact (repr_none _ _ _ Hr E)). done.
Qed.

(** Eviction keeps the longest prefix that fits. *)
Lemma evict_loop_repr fuel c l :
  repr c l -> (length l < fuel)%nat -> 0 <= capacityBytes c ->
  exists c', evict_loop fuel c = Some c' /\ repr c' (keep (capacityBytes c) l) /\
    capacityBytes c' = capacityBytes c.
Proof.
  revert c l. induction fuel as [|fuel IH]; intros c l Hr Hf Hc; [lia |]. cbn [evict_loop].
  pose proof (r_used _ _ Hr) as Hu. pose proof (Forall2_length _ _ _ (r_elems _ _ Hr)) as Hlen.
  destruct (Z.gtb_spec (usedBytes c) (capacityBytes c)) as [Hgt | Hle].
  - destruct l as [|[key b] l _] using rev_ind; [simpl in *; lia |].
    destruct (order c) as [|e o _] eqn:Eo using rev_ind; [rewrite length_app in Hlen; simpl in *; lia |].
    rewrite last_snoc. pose proof (r_elems _ _ Hr) as He. rewrite Eo in He.
    rewrite !length_app in Hlen. simpl in Hlen.
    apply Forall2_app_inv in He as [_ He]; [| lia]. apply Forall2_cons in He as [[Hm _] _].
    simpl in Hm. rewrite Hm. simpl.
    destruct (removeElem_repr c l key b [] o e []) as [Hr' _]; [done | done | lia |].
    rewrite app_nil_r in Hr'. rewrite length_app in Hf. simpl in Hf.
    destruct (IH _ _ Hr') as (c' & E & Hr'' & Hcap); [lia | done |].
    exists c'. split; [exact E |]. rewrite keep_snoc by lia. done.
  - exists c. rewrite keep_all by lia. done.
Qed.

Lemma MoveToFront_repr c l1 key b l2 o1 e o2 (c' := mkLRU (capacityBytes c) (usedBytes c) (entries c)
    (MoveToFront e (order c)) (elems c)) :
  repr c (l1 ++ (key, b) :: l2) -> order c = o1 ++ e :: o2 -> length o1 = length l1 ->
  repr c' ((key, b) :: l1 ++ l2).
Proof.
  intros [Ho Hk He Hd Hu] Eo Hl. rewrite Eo in Ho, He. unfold c', MoveToFront.
  rewrite decide_True by (rewrite Eo; set_solver). rewrite Eo, list_remove_split by done.
  apply Forall2_app_inv in He as [He1 He2]; [| done]. apply Forall2_cons in He2 as [He0 He2].
  assert (Pl : l1 ++ (key, b) :: l2 ≡ₚ (key, b) :: l1 ++ l2) by (by rewrite Permutation_middle).
  constructor; cbn [order entries elems usedBytes].
  - eapply (NoDup_Permutation_proper _ (o1 ++ e :: o2)); [| done]. by rewrite Permutation_middle.
  - by rewrite <- Pl.
  - constructor; [done |]. by apply Forall2_app.
  - intros k e' H%Hd. by rewrite <- Pl.
  - rewrite Hu, !total_app. simpl. rewrite total_app. lia.
Qed.

Lemma lru_Get_repr c l key :
  repr c l -> exists c', Get key c = Some ((spec_op (capacityBytes c) (OGet key) l).1, c') /\
    repr c' (spec_op (capacityBytes c) (OGet key) l).2 /\ capacityBytes c' = capacityBytes c.
Proof.
  intros Hr. unfold Get. cbn [spec_op]. destruct (entries c !! key) as [e|] eqn:E.
  - destruct (repr_split _ _ _ _ Hr E) as (l1 & b & l2 & o1 & o2 & -> & Eo & Hl & Hm). rewrite Hm.
    rewrite (assoc_elem key b) by (apply Hr || set_solver). rewrite without_split by apply Hr.
    eexists. split; [reflexivity |]. split; [| done]. by apply (MoveToFront_repr c l1 key b l2 o1 e o2).
  - rewrite (proj2 (assoc_None key l)) by (exact (repr_none _ _ _ Hr E)). by exists c.
Qed.

(** A new block in the element at the front. *)
Lemma update_repr c key b b' l e o :
  repr c ((key, b) :: l) -> order c = e :: o ->
  repr (mkLRU (capacityBytes c) (usedBytes c - len b + len b') (entries c) (order c)
          (<[e := mkEntry key b' (len b')]> (elems c))) ((key, b') :: l).
Proof.
  intros [Ho Hk He Hd Hu] Eo. rewrite Eo in *. simpl in *.
  apply Forall2_cons in He as [[Hx Hy] He]. simpl in *.
  apply NoDup_cons in Hk as [Hk1 Hk2]. apply NoDup_cons in Ho as [Ho1 Ho2].
  constructor; cbn [order entries elems usedBytes]; try done.
  - by apply NoDup_cons.
  - by apply NoDup_cons.
  - constructor; [split; [by simplify_map_eq | done] |].
    rewrite <- (insert_id (entries c) key e) by done. by apply linked_insert.
  - simpl. lia.
Qed.

Lemma push_repr c key b l e :
  repr c l -> key ∉ l.*1 -> elems c !! e = None ->
  repr (mkLRU (capacityBytes c) (usedBytes c + len b) (<[key := e]> (entries c)) (e :: order c)
          (<[e := mkEntry key b (len b)]> (elems c))) ((key, b) :: l).
Proof.
  intros [Ho Hk He Hd Hu] Hn Hf.
  assert (Heo : e ∉ order c).
  { intros Hin. apply list_elem_of_lookup in Hin as [i Hi].
    destruct (Forall2_lookup_l _ _ _ _ _ He Hi) as (kb & _ & Hm & _). congruence. }
  constructor; cbn [order entries elems usedBytes].
  - by apply NoDup_cons.
  - by apply NoDup_cons.
  - constructor; [split; by simplify_map_eq |]. by apply linked_insert.
  - intros k e' H. simpl. apply lookup_insert_Some in H as [[<- _] | [_ H]]; [left | right; eauto].
  - simpl. lia.
Qed.

Lemma Set_repr c l key b :
  repr c l -> 0 <= capacityBytes c ->
  exists c', Set_ key b c = Some c' /\ repr c' (spec_op (capacityBytes c) (OSet key b) l).2 /\
    capacityBytes c' = capacityBytes c.
Proof.
  intros Hr Hc. unfold Set_. cbn [spec_op snd]. destruct (len b =? 0); [by exists c |].
  destruct ((capacityBytes c =? 0) || (len b >? capacityBytes c)); [by apply deleteLocked_repr |].
  assert (Hev : forall c1 l1, repr c1 l1 -> capacityBytes c1 = capacityBytes c ->
    exists c', evictLocked c1 = Some c' /\ repr c' (keep (capacityBytes c) l1) /\
      capacityBytes c' = capacityBytes c).
  { intros c1 l1 Hr1 Hc1. rewrite <- Hc1. apply evict_loop_repr; [done | | lia].
    rewrite (Forall2_length _ _ _ (r_elems _ _ Hr1)). lia. }
  destruct (entries c !! key) as [e|] eqn:E.
  - destruct (repr_split _ _ _ _ Hr E) as (l1 & b0 & l2 & o1 & o2 & -> & Eo & Hl & Hm). rewrite Hm.
    rewrite without_split by apply Hr.
    cbn [mbind option_bind ekey esize]. apply Hev; [| done].
    pose proof (MoveToFront_repr _ _ _ _ _ _ _ _ Hr Eo Hl) as Hr1.
    apply (update_repr _ _ _ b _ e (list_remove e (order c))) in Hr1; [exact Hr1 |].
    simpl. unfold MoveToFront. rewrite decide_True by (rewrite Eo; set_solver). done.
  - rewrite without_none by (exact (repr_none _ _ _ Hr E)).
    cbn [mbind option_bind]. apply Hev; [| done].
    apply push_repr; [done | exact (repr_none _ _ _ Hr E) |].
    apply not_elem_of_dom, is_fresh.
Qed.

(** One key of a purge, as a filter. *)
Lemma purge_step t k l :
  (if negb (TableID k =? t) then l else without k l) =
  filter (fun kb => ~ (TableID kb.1 = t /\ kb.1 = k)) l.
Proof.
  destruct (Z.eqb_spec (TableID k) t) as [Ht | Ht]; simpl.
  - unfold without. apply list_filter_iff. intros [k' b]. simpl. naive_solver.
  - symmetry. apply list_filter_all, Forall_forall. intros [k' b] _. simpl. intros [H1 H2]. congruence.
Qed.

Lemma purge_loop_repr t iter c l :
  repr c l -> NoDup iter.*1 -> (forall k e, (k, e) ∈ iter -> entries c !! k = Some e) ->
  exists c', purge_loop t iter c = Some c' /\
    repr c' (filter (fun kb => ~ (TableID kb.1 = t /\ kb.1 ∈ iter.*1)) l) /\
    capacityBytes c' = capacityBytes c.
Proof.
  revert c l. induction iter as [|[k e] iter IH]; intros c l Hr Hd He; cbn [purge_loop].
  - exists c. rewrite list_filter_all; [done |]. apply Forall_forall. simpl. set_solver.
  - apply NoDup_cons in Hd as [Hk Hd].
    assert (Hstep : exists c1, (if negb (TableID k =? t) then Some c
        else item ← elems c !! e; Some (removeElem k e item c)) = Some c1 /\
      repr c1 (if negb (TableID k =? t) then l else without k l) /\
      capacityBytes c1 = capacityBytes c /\ forall k' e', (k', e') ∈ iter -> entries c1 !! k' = Some e').
    { destruct (negb (TableID k =? t)).
      - exists c. split_and!; try done. intros k' e' Hin. apply He. by right.
      - pose proof (He k e ltac:(left)) as Hke.
        destruct (repr_split _ _ _ _ Hr Hke) as (l1 & b0 & l2 & o1 & o2 & -> & Eo & Hl & Hm). rewrite Hm.
        rewrite without_split by apply Hr. eexists. split; [reflexivity |]. split_and!; try done.
        + by apply (removeElem_repr _ _ _ _ _ o1 e o2).
        + intros k' e' Hin. simpl. rewrite lookup_delete_ne; [apply He; by right |].
          intros <-. apply Hk. apply list_elem_of_fmap. by exists (k, e'). }
    destruct Hstep as (c1 & E1 & Hr1 & Hc1 & He1).
    destruct (IH c1 _ Hr1 Hd He1) as (c' & E2 & Hr2 & Hc2). exists c'. split_and!.
    + destruct (negb (TableID k =? t)); [congruence |].
      destruct (elems c !! e); [| done]. simpl in *. congruence.
    + rewrite purge_step, list_filter_filter in Hr2.
      erewrite list_filter_iff; [exact Hr2 |]. intros [k' b']. simpl. set_solver.
    + congruence.
Qed.

(** ** Sequences of operations *)

Section runs.
(** The order in which [range] visits a map: every entry exactly once. *)
Context (range_order : gmap Key nat -> list (Key * nat)).

Definition PurgeTable (tableID : Z) (c : LRU) : option LRU :=
  purge_loop tableID (range_order (entries c)) c.

Definition run_op (o : op) (c : LRU) : option (option bytes * LRU) :=
  match o with
  | OGet k => Get k c
  | OSet k b => c ← Set_ k b c; Some (None, c)
  | ODelete k => c ← Delete k c; Some (None, c)
  | OPurge t => c ← PurgeTable t c; Some (None, c)
  end.

Fixpoint run (ops : list op) (c : LRU) : option (list (option bytes) * LRU) :=
  match ops with
  | [] => Some ([], c)
  | o :: ops => '(r, c) ← run_op o c; '(rs, c) ← run ops c; Some (r :: rs, c)
  end.

Context (range_order_perm : forall m, range_order m ≡ₚ map_to_list m).

Lemma PurgeTable_repr t c l :
  repr c l -> exists c', PurgeTable t c = Some c' /\
    repr c' (filter (fun kb => TableID kb.1 <> t) l) /\ capacityBytes c' = capacityBytes c.
Proof.
  intros Hr. destruct (purge_loop_repr t (range_order (entries c)) c l Hr) as (c' & E & Hr' & Hc).
  - rewrite range_order_perm. apply NoDup_fst_map_to_list.
  - intros k e Hin. rewrite range_order_perm in Hin. by apply elem_of_map_to_list in Hin.
  - exists c'. split_and!; try done. erewrite list_filter_iff_in; [exact Hr' |].
    intros [k b] Hin. simpl. split; [naive_solver |]. intros Hn Ht. apply Hn. split; [done |].
    rewrite range_order_perm. apply list_elem_of_lookup in Hin as [i Hi].
    destruct (Forall2_lookup_r _ _ _ _ _ (r_elems _ _ Hr) Hi) as (e & _ & _ & He). simpl in He.
    apply list_elem_of_fmap. exists (k, e). split; [done |]. by apply elem_of_map_to_list.
Qed.

Lemma run_op_repr o c l :
  repr c l -> 0 <= capacityBytes c ->
  exists c', run_op o c = Some ((spec_op (capacityBytes c) o l).1, c') /\
    repr c' (spec_op (capacityBytes c) o l).2 /\ capacityBytes c' = capacityBytes c.
Proof.
  intros Hr Hc. destruct o as [k | k b | k | t]; unfold run_op.
  - by apply lru_Get_repr.
  - destruct (Set_repr c l k b Hr Hc) as (c' & -> & H). eauto.
  - destruct (deleteLocked_repr c l k Hr) as (c' & E & H). unfold Delete. rewrite E. eauto.
  - destruct (PurgeTable_repr t c l Hr) as (c' & -> & H). eauto.
Qed.

Lemma run_repr ops c l :
  repr c l -> 0 <= capacityBytes c ->
  exists c', run ops c = Some ((spec_run (capacityBytes c) ops l).1, c') /\
    repr c' (spec_run (capacityBytes c) ops l).2 /\ capacityBytes c' = capacityBytes c.
Proof.
  revert c l. induction ops as [|o ops IH]; intros c l Hr Hc; [by exists c |]. cbn [run spec_run].
  destruct (run_op_repr o c l Hr Hc) as (c1 & E1 & Hr1 & Hc1). rewrite E1.
  destruct (spec_op (capacityBytes c) o l) as [r l1]. cbn [fst snd] in *.
  destruct (IH c1 l1 Hr1 ltac:(lia)) as (c2 & E2 & Hr2 & Hc2). rewrite Hc1 in *.
  destruct (spec_run (capacityBytes c) ops l1) as [rs l2]. cbn [fst snd mbind option_bind] in *.
  rewrite E2. exists c2. split_and!; try done.
Qed.
End runs.

Lemma NewLRU_repr cap : repr (NewLRU cap) [].
Proof. constructor; simpl; try done; try constructor. Qed.

Lemma NewLRU_capacity cap : capacityBytes (NewLRU cap) = Z.max 0 cap.
Proof. unfold NewLRU. simpl. destruct (Z.leb_spec cap 0); lia. Qed.

(** The specification only ever holds what was last set. *)
Definition coherent (l : cached) (m : gmap Key bytes) : Prop := forall k b, assoc k l = Some b -> m !! k = Some b.

Lemma assoc_without k k' l : assoc k (without k' l) = if decide (k = k') then None else assoc k l.
Proof.
  unfold without. induction l as [|[j b] l IH]; [by destruct (decide _) |]. rewrite filter_cons. simpl.
  destruct (decide (j = k')) as [-> | Hne].
  - rewrite decide_False by naive_solver. rewrite IH. destruct (decide (k = k')); [done |].
    by rewrite decide_False.
  - rewrite decide_True by done. simpl. rewrite IH. destruct (decide (j = k)) as [-> |]; [| done].
    by rewrite decide_False.
Qed.

Lemma assoc_app k l1 l2 : assoc k (l1 ++ l2) = match assoc k l1 with Some b => Some b | None => assoc k l2 end.
Proof. induction l1 as [|[j b] l1 IH]; simpl; [done |]. by destruct (decide (j = k)). Qed.

Lemma assoc_keep k cap l b : assoc k (keep cap l) = Some b -> assoc k l = Some b.
Proof. destruct (keep_prefix cap l) as [r Hr]. intros H. rewrite Hr, assoc_app, H. done. Qed.

Lemma assoc_filter_table k t l :
  assoc k (filter (fun kb => TableID kb.1 <> t) l) = if decide (TableID k = t) then None else assoc k l.
Proof.
  induction l as [|[j b] l IH]; [by destruct (decide _) |]. rewrite filter_cons. simpl.
  destruct (decide (TableID j = t)) as [Hj | Hj].
  - rewrite decide_False by naive_solver. rewrite IH. destruct (decide (TableID k = t)); [done |].
    rewrite decide_False; [done | congruence].
  - rewrite decide_True by done. simpl. rewrite IH. destruct (decide (j = k)) as [-> |]; [| done].
    by rewrite decide_False.
Qed.

Lemma spec_op_coherent cap o l m :
  coherent l m -> coherent (spec_op cap o l).2 (remember o m) /\
  forall k b, o = OGet k -> (spec_op cap o l).1 = Some b -> m !! k = Some b.
Proof.
  intros H. unfold coherent in *. split.
  - intros k b. destruct o as [k' | k' b' | k' | t]; cbn [spec_op remember snd].
    + destruct (assoc k' l) as [b'|] eqn:E; cbn [snd assoc]; [| auto].
      destruct (decide (k' = k)) as [-> | Hne]; [intros [= <-]; auto |].
      rewrite assoc_without, decide_False by congruence. auto.
    + destruct (len b' =? 0); [auto |].
      destruct ((cap =? 0) || (len b' >? cap)).
      * rewrite assoc_without. destruct (decide (k = k')); [done |].
        intros Hk. rewrite lookup_insert_ne by congruence. auto.
      * intros Hk%assoc_keep. cbn [assoc] in Hk.
        destruct (decide (k' = k)) as [-> | Hne]; [injection Hk as <-; by rewrite lookup_insert_eq |].
        rewrite assoc_without, decide_False in Hk by congruence. rewrite lookup_insert_ne by done. auto.
    + rewrite assoc_without. destruct (decide (k = k')); [done |].
      rewrite lookup_delete_ne by congruence. auto.
    + rewrite assoc_filter_table. destruct (decide (TableID k = t)); [done |].
      intros Hk. apply map_lookup_filter_Some. auto.
  - intros k b -> Hb. cbn [spec_op] in Hb. destruct (assoc k l) eqn:E; [| done].
    apply H. simpl in Hb. congruence.
Qed.

Lemma total_filter (P : Key * bytes -> Prop) `{!forall x, Decision (P x)} l :
  total (filter P l) <= total l.
Proof.
  induction l as [|[k b] l IH]; [done |]. rewrite filter_cons. pose proof (len_nonneg b).
  destruct (decide _); simpl; lia.
Qed.

Lemma total_without k b l : assoc k l = Some b -> len b + total (without k l) <= total l.
Proof.
  unfold without. induction l as [|[j b'] l IH]; [done |]. simpl assoc. rewrite filter_cons. simpl.
  pose proof (len_nonneg b'). pose proof (total_filter (fun kb => kb.1 <> k) l).
  destruct (decide (j = k)) as [-> | Hne].
  - intros [= ->]. rewrite decide_False by naive_solver. lia.
  - intros H1%IH. rewrite decide_True by done. simpl. lia.
Qed.

Lemma spec_op_total cap o l : 0 <= cap -> total l <= cap -> total (spec_op cap o l).2 <= cap.
Proof.
  intros Hc Ht. destruct o as [k | k b | k | t]; cbn [spec_op snd].
  - destruct (assoc k l) as [b|] eqn:E; cbn [snd total]; [| done].
    pose proof (total_without k b l E). lia.
  - destruct (len b =? 0); [done |]. destruct ((cap =? 0) || (len b >? cap)).
    + unfold without. pose proof (total_filter (fun kb => kb.1 <> k) l). lia.
    + by apply keep_total.
  - unfold without. pose proof (total_filter (fun kb => kb.1 <> k) l). lia.
  - pose proof (total_filter (fun kb => TableID kb.1 <> t) l). lia.
Qed.

(** ** Properties *)

(** C14: the cache refines its specification.  Every sequence of operations on
    a new cache runs to the end without a nil dereference, whatever order the
    runtime visits the map in; the results of its lookups are those of the
    list that keeps the most recently used blocks first and the longest prefix
    that fits, and afterwards the byte count is the total size of that list,
    within the capacity, and the map has one entry per block. *)
Theorem lru_refines (range_order : gmap Key nat -> list (Key * nat)) cap ops :
  (forall m, range_order m ≡ₚ map_to_list m) ->
  let '(outs, l) := spec_run (Z.max 0 cap) ops [] in
  exists c, run range_order ops (NewLRU cap) = Some (outs, c) /\ repr c l /\
    usedBytes c = total l /\ capacityBytes c = Z.max 0 cap.
Proof.
  intros Hp. destruct (run_repr range_order Hp ops (NewLRU cap) []) as (c & E & Hr & Hc);
    [apply NewLRU_repr | rewrite NewLRU_capacity; lia |].
  rewrite NewLRU_capacity in *. destruct (spec_run (Z.max 0 cap) ops []) as [outs l].
  exists c. split_and!; [exact E | exact Hr | apply (r_used _ _ Hr) | done].
Qed.

Lemma lru_refines_witness :
  let k n := mkKey n 0 in
  exists c, run map_to_list [OSet (k 1) [x01; x02]; OSet (k 2) [x03]; OGet (k 1);
                             OSet (k 3) [x04]; OGet (k 2); OGet (k 1)] (NewLRU 3)
    = Some ([None; None; Some [x01; x02]; None; None; Some [x01; x02]], c) /\ usedBytes c = 3.
Proof.
  intros k.
  destruct (lru_refines map_to_list 3 [OSet (k 1) [x01; x02]; OSet (k 2) [x03]; OGet (k 1);
    OSet (k 3) [x04]; OGet (k 2); OGet (k 1)]) as (c & E & _ & Hu & _); [done |].
  exists c. split; [exact E | exact Hu].
Defined.

(** The cache never returns stale data and never exceeds its capacity:
    after any operations a lookup gives nothing or the block last set for that
    key and not deleted or purged since, and the bytes in use are at most the
    capacity. *)
Theorem lru_coherent (range_order : gmap Key nat -> list (Key * nat)) cap ops k r c c' outs :
  (forall m, range_order m ≡ₚ map_to_list m) ->
  run range_order ops (NewLRU cap) = Some (outs, c) -> Get k c = Some (r, c') ->
  (r = None \/ r = foldl (fun m o => remember o m) ∅ ops !! k) /\
  0 <= usedBytes c <= Z.max 0 cap.
Proof.
  intros Hp E Hg. destruct (run_repr range_order Hp ops (NewLRU cap) []) as (c1 & E1 & Hr & Hc);
    [apply NewLRU_repr | rewrite NewLRU_capacity; lia |]. rewrite NewLRU_capacity in *.
  assert (c1 = c) as -> by congruence.
  assert (Hinv : forall ops l m, coherent l m -> total l <= Z.max 0 cap ->
    coherent (spec_run (Z.max 0 cap) ops l).2 (foldl (fun m o => remember o m) m ops) /\
    total (spec_run (Z.max 0 cap) ops l).2 <= Z.max 0 cap).
  { clear. intros ops. induction ops as [|o ops IH]; intros l m Hco Ht; [done |]. cbn [spec_run foldl].
    destruct (spec_op_coherent (Z.max 0 cap) o l m Hco) as [Hco' _].
    pose proof (spec_op_total (Z.max 0 cap) o l ltac:(lia) Ht) as Ht'.
    destruct (spec_op (Z.max 0 cap) o l) as [x l1]. specialize (IH l1 _ Hco' Ht').
    by destruct (spec_run (Z.max 0 cap) ops l1). }
  destruct (Hinv ops [] ∅) as [Hco Ht]; [done | simpl; lia |].
  rewrite (r_used _ _ Hr). split; [| split; [apply total_nonneg | done]].
  destruct (lru_Get_repr c _ k Hr) as (c2 & E2 & _). rewrite Hg in E2.
  pose proof (proj2 (spec_op_coherent (capacityBytes c) (OGet k) _ _ Hco) k) as Hk.
  destruct (spec_op (capacityBytes c) (OGet k) (spec_run (Z.max 0 cap) ops []).2) as [x lx].
  cbn [fst] in *. assert (r = x) as -> by congruence.
  destruct x as [b|]; [right | by left]. symmetry. by apply Hk.
Qed.

Lemma lru_coherent_witness :
  let k n := mkKey n 0 in
  exists r c c' outs, run map_to_list [OSet (k 1) [x01]; OSet (k 2) [x03]; OSet (k 1) [x02]] (NewLRU 2)
      = Some (outs, c) /\ Get (k 1) c = Some (r, c') /\ r = Some [x02] /\
    (r = None \/ r = foldl (fun m o => remember o m) ∅ [OSet (k 1) [x01]; OSet (k 2) [x03]; OSet (k 1) [x02]] !! k 1) /\
    usedBytes c <= 2.
Proof.
  intros k.
  destruct (run map_to_list [OSet (k 1) [x01]; OSet (k 2) [x03]; OSet (k 1) [x02]] (NewLRU 2))
    as [[outs c]|] eqn:E; [| exfalso; vm_compute in E; discriminate].
  destruct (Get (k 1) c) as [[r c']|] eqn:G;
    [| exfalso; vm_compute in E; injection E as <- <-; vm_compute in G; discriminate].
  exists r, c, c', outs. split; [done |]. split; [exact G |].
  assert (Hr : r = Some [x02]).
  { vm_compute in E. injection E as <- <-. vm_compute in G. congruence. }
  split; [exact Hr |].
  destruct (lru_coherent map_to_list 2 _ (k 1) r c c' outs (fun m => reflexivity _) E G) as [H1 H2].
  split; [exact H1 | apply H2].
Defined.
