(* ===== verification/Compression.v ===== *)
(** * Block compression

    Models [internal/compression].  The LZ4 library is a parameter: a class
    with its two block functions, and a class with the law the code relies on
    (decompressing a compressed block into a buffer of the original size gives
    the original).  [CompressBlock] is given by the bytes it leaves in the
    destination, none when it reports the source as incompressible. *)

From S2P Require Import Prelude.

(** [compression.Type] is a byte. *)
Definition None_ : Z := 0.
Definition LZ4 : Z := 1.

Inductive lz4_error : Type := Lz4Error.

Class LZ4Codec := {
  CompressBlock : bytes -> result lz4_error bytes;
  UncompressBlock : bytes -> Z -> result lz4_error bytes;
}.

Class LZ4Laws `{!LZ4Codec} : Prop := {
  uncompress_compress src c :
    CompressBlock src = Ok c -> c <> [] -> UncompressBlock c (len src) = Ok src;
}.

Inductive compression_error : Type :=
| CompressFailed (e : lz4_error)
| DecompressFailed (e : lz4_error)
| RawLengthMismatch (got want : Z)
| DecompressedLength (got want : Z)
| UnknownCodec (t : Z).

Section compression.
Context {lz : LZ4Codec}.

Definition compressLZ4 (src : bytes) : result compression_error bytes :=
  if len src =? 0 then Ok src
  else
    dst ← map_err CompressFailed (CompressBlock src);
    if len dst =? 0 then Ok src else Ok dst.

Definition decompressLZ4 (src : bytes) (rawLen : Z) : result compression_error bytes :=
  dst ← map_err DecompressFailed (UncompressBlock src rawLen);
  _ ← guard_err (negb (len dst =? rawLen)) (DecompressedLength (len dst) rawLen);
  Ok dst.

Definition Compress (src : bytes) (requested : Z) : result compression_error bytes :=
  if requested =? None_ then Ok src
  else if requested =? LZ4 then compressLZ4 src
  else Err (UnknownCodec requested).

Definition Decompress (src : bytes) (rawLen codec : Z) : result compression_error bytes :=
  if codec =? None_ then
    _ ← guard_err (negb (u32 (len src) =? rawLen)) (RawLengthMismatch (len src) rawLen);
    Ok src
  else if codec =? LZ4 then decompressLZ4 src rawLen
  else Err (UnknownCodec codec).

Lemma Decompress_None src : is_u32 (len src) -> Decompress src (len src) None_ = Ok src.
Proof.
  intros Hu. unfold Decompress. simpl. rewrite u32_id by done.
  by rewrite guard_err_false by (rewrite Z.eqb_refl; done).
Qed.

(** A block that became smaller decompresses to what it was. *)
Lemma Decompress_Compress `{!LZ4Laws} src codec c :
  Compress src codec = Ok c -> len c < len src -> Decompress c (len src) codec = Ok src.
Proof.
  unfold Compress, Decompress. destruct (Z.eqb_spec codec None_); [intros [= <-]; lia |].
  destruct (Z.eqb_spec codec LZ4); [| done]. unfold compressLZ4, decompressLZ4.
  destruct (Z.eqb_spec (len src) 0); [intros [= <-]; lia |].
  destruct (CompressBlock src) as [dst|] eqn:E; simpl; [| done].
  destruct (Z.eqb_spec (len dst) 0); [intros [= <-]; lia |]. intros [= <-] _.
  rewrite (uncompress_compress src dst E) by (by intros ->). simpl.
  by rewrite guard_err_false by (rewrite Z.eqb_refl; done).
Qed.
End compression.

(** A codec that satisfies the law, for the examples: a run of one byte
    becomes that byte, anything else is incompressible. *)
Definition run_compress (src : bytes) : result lz4_error bytes :=
  match src with
  | [] => Ok []
  | b :: _ => if bool_decide (src = replicate (length src) b) then Ok [b] else Ok []
  end.
Definition run_uncompress (c : bytes) (n : Z) : result lz4_error bytes :=
  match c with b :: _ => Ok (replicate (Z.to_nat n) b) | [] => Err Lz4Error end.
Definition run_codec : LZ4Codec :=
  {| CompressBlock := run_compress; UncompressBlock := run_uncompress |}.

Lemma run_codec_laws : @LZ4Laws run_codec.
Proof.
  split. intros src c. simpl. unfold run_compress, run_uncompress. destruct src as [|b src]; [by intros [= <-] |].
  case_bool_decide as H; [| by intros [= <-]]. intros [= <-] _. rewrite H at 2. do 2 f_equal. unfold len. lia.
Qed.
