(* ===== verification/Block.v ===== *)
(** * SSTable blocks

    Models [internal/sstable/block.go].  A physical block is
    [codec | raw length | payload | CRC-32C]; a logical block is
    [count | records | restart offsets | restart interval | restart count],
    without the last three parts in the legacy format.  The cursor works on
    arbitrary bytes; a [None] is a slice expression out of range or an
    exhausted loop, which the proofs exclude for every input. *)

From S2P Require Export Prelude RecordCodec Compression.
From S2P Require Import Crc32 Float64.

Definition blockHeaderSize : Z := 5.
Definition blockTrailerSize : Z := 4.
Definition maxBlockSize : Z := 256 * 1024 * 1024.
Definition legacyFormatVersion : Z := 2.
Definition currentFormatVersion : Z := 3.

Inductive view_error : Type :=
| ViewIO (e : io_error)
| ViewFlags (flags : Z)
| ViewKeyLength (n : Z)
| ViewValueLength (n : Z)
| ViewPayload (required remaining : Z).

(** Every constructor is an [ErrCorruptSSTable]. *)
Inductive block_error : Type :=
| BlockTooLarge (n : Z)
| BlockCompress (e : compression_error)
| BlockTooSmall
| BlockChecksum
| BlockRawLength (n : Z)
| BlockDecompress (e : compression_error)
| BlockMissingCount
| RestartTooSmall
| RestartMetadata
| RestartIntervalZero
| RestartCount (restartCount count interval : Z)
| RestartOffset (offset : Z)
| RestartFirst (offset : Z)
| RestartOrder
| BlockVersion (v : Z)
| RecordCountFit (count remaining : Z)
| SeekRecord (e : view_error)
| TrailingRecordBytes (n : Z)
| BlockRecord (index : Z) (e : view_error).

(** ** Physical blocks *)

Definition shouldCompress (rawSize compressedSize : Z) (minSavingsRate : float64) : bool :=
  if (rawSize <=? 0) || (compressedSize >=? rawSize) then false
  else
    let savingsRate := f_div (f_of_Z (rawSize - compressedSize)) (f_of_Z rawSize) in
    f_leb minSavingsRate savingsRate.

Section physical.
Context {lz : LZ4Codec}.

Definition encodePhysicalBlock (logical : bytes) (reqCodec : Z) (minSavingsRate : float64)
    : result block_error bytes :=
  _ ← guard_err (len logical >? maxBlockSize) (BlockTooLarge (len logical));
  '(storedPayload, actualCodec) ←
    (if negb (reqCodec =? None_) then
       compressed ← map_err BlockCompress (Compress logical reqCodec);
       if shouldCompress (len logical) (len compressed) minSavingsRate
       then Ok (compressed, reqCodec) else Ok (logical, None_)
     else Ok (logical, None_));
  let body := [z2b actualCodec] ++ PutUint32 (u32 (len logical)) ++ storedPayload in
  Ok (body ++ PutUint32 (crc_Checksum body)).

Definition decodePhysicalBlock (physical : bytes) : result block_error bytes :=
  _ ← guard_err (len physical <? blockHeaderSize + blockTrailerSize) BlockTooSmall;
  let checksumOffset := (length physical - 4)%nat in
  let wantChecksum := Uint32 (drop checksumOffset physical) in
  let gotChecksum := crc_Checksum (take checksumOffset physical) in
  _ ← guard_err (negb (wantChecksum =? gotChecksum)) BlockChecksum;
  let codec := le_Z (slice 0 1 physical) in
  let rawLen := Uint32 (slice 1 5 physical) in
  _ ← guard_err (rawLen >? maxBlockSize) (BlockRawLength rawLen);
  let storedPayload := slice 5 checksumOffset physical in
  map_err BlockDecompress (Decompress storedPayload rawLen codec).
End physical.

(** ** Records in place *)

Definition decodeRecordView (buf : bytes) : result view_error (record * Z) :=
  _ ← guard_err (len buf <? Z.of_nat HeaderSize) (ViewIO ErrUnexpectedEOF);
  let keyLen := Uint32 (slice 0 4 buf) in
  let valueLen := Uint32 (slice 4 8 buf) in
  let seq := Uint64 (slice 8 16 buf) in
  let flags := le_Z (slice 16 17 buf) in
  _ ← guard_err (negb (Z.ldiff flags FlagDeleted =? 0)) (ViewFlags flags);
  _ ← guard_err (keyLen >? MaxKeySize) (ViewKeyLength keyLen);
  _ ← guard_err (valueLen >? MaxValueSize) (ViewValueLength valueLen);
  let payloadLen := u64 (keyLen + valueLen) in
  _ ← guard_err (payloadLen >? len buf - Z.of_nat HeaderSize)
        (ViewPayload payloadLen (len buf - Z.of_nat HeaderSize));
  let keyStart := Z.of_nat HeaderSize in
  let keyEnd := keyStart + keyLen in
  let valueEnd := keyEnd + valueLen in
  let key := slice (Z.to_nat keyStart) (Z.to_nat keyEnd) buf in
  let value := if valueLen >? 0 then slice (Z.to_nat keyEnd) (Z.to_nat valueEnd) buf else [] in
  Ok (mkRecord key seq (mkEntry value (negb (Z.land flags FlagDeleted =? 0))) 0 BatchNone, valueEnd).

(** ** The cursor *)

Record cursor := mkCursor {
  cdata : bytes;
  ccount : Z;
  cindex : Z;
  coffset : Z;
  crecordsEnd : Z;
  crestartInterval : Z;
  crestartOffsets : bytes;
  cerr : option block_error;
}.

(** [logicalBlockCursor{}] *)
Definition zero_cursor : cursor := mkCursor [] 0 0 0 0 0 [] None.

(** The validation loop over the restart offsets from [i], [n] left. *)
Fixpoint check_restarts (n : nat) (i previous recordsEnd : Z) (restartOffsets : bytes)
    : option (result block_error unit) :=
  match n with
  | O => Some (Ok tt)
  | S n =>
      at_i ← go_slice (u32 (i * 4)) (len restartOffsets) restartOffsets;
      offset ← go_Uint32 at_i;
      if (offset <? 4) || (offset >=? recordsEnd) then Some (Err (RestartOffset offset))
      else if (i =? 0) && negb (offset =? 4) then Some (Err (RestartFirst offset))
      else if (i >? 0) && (offset <=? previous) then Some (Err RestartOrder)
      else check_restarts n (i + 1) offset recordsEnd restartOffsets
  end.

(** The check of the record count and the cursor at the first record. *)
Definition start_cursor (buf : bytes) (count recordsEnd restartInterval : Z) (restartOffsets : bytes)
    : result block_error cursor :=
  let remaining := recordsEnd - 4 in
  _ ← guard_err (count >? remaining / Z.of_nat HeaderSize) (RecordCountFit count remaining);
  Ok (mkCursor buf count 0 4 recordsEnd restartInterval restartOffsets None).

Definition newLogicalBlockCursorForVersion (buf : bytes) (formatVersion : Z)
    : option (result block_error cursor) :=
  if len buf <? 4 then Some (Err BlockMissingCount)
  else
    let count := Uint32 (slice 0 4 buf) in
    if formatVersion =? legacyFormatVersion then Some (start_cursor buf count (len buf) 0 [])
    else if formatVersion =? currentFormatVersion then
      if len buf <? 12 then Some (Err RestartTooSmall)
      else
        last4 ← go_slice (len buf - 4) (len buf) buf;
        let restartCount := Uint32 last4 in
        let metadataSize := u64 (restartCount * 4 + 8) in
        if metadataSize >? len buf - 4 then Some (Err RestartMetadata)
        else
          let recordsEnd := len buf - metadataSize in
          restartOffsets ← go_slice recordsEnd (len buf - 8) buf;
          interval4 ← go_slice (len buf - 8) (len buf - 4) buf;
          let restartInterval := Uint32 interval4 in
          if restartInterval =? 0 then Some (Err RestartIntervalZero)
          else
            let expectedRestarts :=
              if count >? 0 then (count + restartInterval - 1) / restartInterval else 0 in
            if negb (restartCount =? expectedRestarts)
            then Some (Err (RestartCount restartCount count restartInterval))
            else
              checked ← check_restarts (Z.to_nat restartCount) 0 0 recordsEnd restartOffsets;
              match checked with
              | Err e => Some (Err e)
              | Ok _ => Some (start_cursor buf count recordsEnd restartInterval restartOffsets)
              end
    else Some (Err (BlockVersion formatVersion)).

Definition newLogicalBlockCursor (buf : bytes) : option (result block_error cursor) :=
  newLogicalBlockCursorForVersion buf currentFormatVersion.

Definition restartOffset (c : cursor) (index : nat) : option Z :=
  let start := Z.of_nat index * 4 in
  b ← go_slice start (start + 4) (crestartOffsets c); go_Uint32 b.

(** [sort.Search] with the closure of [seek]: it reports the error of the last
    failing probe. *)
Fixpoint search_loop (fuel i j : nat) (probe : nat -> option (result view_error bool))
    (searchErr : option view_error) : option (nat * option view_error) :=
  match fuel with
  | O => if (i <? j)%nat then None else Some (i, searchErr)
  | S fuel =>
      if (i <? j)%nat then
        let h := ((i + j) / 2)%nat in
        r ← probe h;
        match r with
        | Err e => search_loop fuel i h probe (Some e)
        | Ok b => if negb b then search_loop fuel (h + 1) j probe searchErr
                  else search_loop fuel i h probe searchErr
        end
      else Some (i, searchErr)
  end.

Definition seek_probe (c : cursor) (key : bytes) (i : nat) : option (result view_error bool) :=
  offset ← restartOffset c i;
  buf ← go_slice offset (crecordsEnd c) (cdata c);
  Some (match decodeRecordView buf with
        | Err e => Err e
        | Ok (rec, _) => Ok (key_leb key (Key rec))
        end).

Definition set_err (e : block_error) (c : cursor) : cursor :=
  mkCursor (cdata c) (ccount c) (cindex c) (coffset c) (crecordsEnd c) (crestartInterval c)
    (crestartOffsets c) (Some e).
Definition set_position (index offset : Z) (c : cursor) : cursor :=
  mkCursor (cdata c) (ccount c) index offset (crecordsEnd c) (crestartInterval c)
    (crestartOffsets c) (cerr c).

Definition cursor_seek (key : bytes) (c : cursor) : option (option block_error * cursor) :=
  match cerr c with
  | Some e => Some (Some e, c)
  | None =>
      if len (crestartOffsets c) =? 0 then Some (None, c)
      else
        let restartCount := Z.to_nat (len (crestartOffsets c) / 4) in
        '(i, searchErr) ← search_loop restartCount 0 restartCount (seek_probe c key) None;
        match searchErr with
        | Some e => Some (Some (SeekRecord e), set_err (SeekRecord e) c)
        | None =>
            let i := if (i =? restartCount)%nat then (restartCount - 1)%nat
                     else if (0 <? i)%nat then (i - 1)%nat else i in
            offset ← restartOffset c i;
            Some (None, set_position (u32 (u32 (Z.of_nat i) * crestartInterval c)) offset c)
        end
  end.

Definition cursor_next (c : cursor) : option (option record * cursor) :=
  match cerr c with
  | Some _ => Some (None, c)
  | None =>
      if cindex c =? ccount c then
        if negb (coffset c =? crecordsEnd c)
        then Some (None, set_err (TrailingRecordBytes (crecordsEnd c - coffset c)) c)
        else Some (None, c)
      else
        buf ← go_slice (coffset c) (crecordsEnd c) (cdata c);
        match decodeRecordView buf with
        | Err e => Some (None, set_err (BlockRecord (cindex c) e) c)
        | Ok (rec, size) =>
            Some (Some rec, set_position (u32 (cindex c + 1)) (coffset c + size) c)
        end
  end.

(** [for { rec, ok := cursor.next(); if !ok { break }; ... }] *)
Fixpoint cursor_drain (fuel : nat) (c : cursor) : option (list record * cursor) :=
  match fuel with
  | O => None
  | S fuel =>
      '(r, c) ← cursor_next c;
      match r with
      | None => Some ([], c)
      | Some rec => '(rs, c) ← cursor_drain fuel c; Some (rec :: rs, c)
      end
  end.

(** Every iteration but the last decodes a record and moves the index towards
    the count. *)
Definition decodeLogicalBlock (buf : bytes) : option (result block_error (list record)) :=
  r ← newLogicalBlockCursor buf;
  match r with
  | Err e => Some (Err e)
  | Ok c =>
      '(records, c) ← cursor_drain (S (Z.to_nat (ccount c))) c;
      Some (match cerr c with Some e => Err e | None => Ok records end)
  end.

Definition decodeBlock `{!LZ4Codec} (physical : bytes) : option (result block_error (list record)) :=
  match decodePhysicalBlock physical with
  | Err e => Some (Err e)
  | Ok logical => decodeLogicalBlock logical
  end.

(** ** Physical blocks round trip *)

(** What [encodePhysicalBlock] writes around a payload. *)
Definition physical_block (codec rawLen : Z) (payload : bytes) : bytes :=
  let body := [z2b codec] ++ PutUint32 rawLen ++ payload in
  body ++ PutUint32 (crc_Checksum body).

Lemma shouldCompress_smaller a b r : shouldCompress a b r = true -> b < a.
Proof.
  unfold shouldCompress. destruct (Z.leb_spec a 0), (Z.geb_spec b a); simpl; done || lia.
Qed.

Lemma block_u32 (l : bytes) : len l <= maxBlockSize -> is_u32 (len l).
Proof. pose proof (len_nonneg l). unfold maxBlockSize, is_u32, u32_max. lia. Qed.

Lemma decodePhysicalBlock_physical `{!LZ4Codec} codec rawLen payload :
  0 <= codec < 256 -> 0 <= rawLen <= maxBlockSize ->
  decodePhysicalBlock (physical_block codec rawLen payload) =
  map_err BlockDecompress (Decompress payload rawLen codec).
Proof.
  intros Hc Hr. unfold decodePhysicalBlock, physical_block.
  set (body := [z2b codec] ++ PutUint32 rawLen ++ payload).
  set (sum := PutUint32 (crc_Checksum body)).
  assert (Lsum : length sum = 4%nat) by apply length_PutUint32.
  assert (Lbody : length body = (5 + length payload)%nat)
    by (unfold body; rewrite !length_app, length_PutUint32; done).
  replace (length (body ++ sum) - 4)%nat with (length body) by (rewrite length_app; lia). cbv zeta.
  rewrite take_app_length, drop_app_length.
  assert (Esum : Uint32 sum = crc_Checksum body).
  { unfold sum. rewrite <- (app_nil_r (PutUint32 _)). apply Uint32_PutUint32, crc_Checksum_u32. }
  assert (E0 : le_Z (slice 0 1 (body ++ sum)) = codec).
  { change (slice 0 1 (body ++ sum)) with [z2b codec]. unfold le_Z. rewrite b2z_z2b, Z.mod_small; lia. }
  assert (E1 : Uint32 (slice 1 5 (body ++ sum)) = rawLen).
  { change (slice 1 5 (body ++ sum)) with (PutUint32 rawLen).
    rewrite <- (app_nil_r (PutUint32 _)). apply Uint32_PutUint32.
    unfold is_u32, u32_max, maxBlockSize in *. lia. }
  assert (E2 : slice 5 (length body) (body ++ sum) = payload).
  { unfold slice. rewrite drop_app_le by lia. change (drop 5 body) with payload.
    by rewrite take_app_length' by lia. }
  rewrite Esum, E0, E1, E2, Z.eqb_refl.
  assert (El : len (body ++ sum) = 9 + len payload).
  { unfold len. rewrite length_app, Lbody, Lsum. lia. }
  pose proof (len_nonneg payload). rewrite El. unfold blockHeaderSize, blockTrailerSize.
  by rewrite !guard_err_false by (simpl; lia).
Qed.

Lemma physical_roundtrip `{!LZ4Codec, !LZ4Laws} logical codec rate physical :
  encodePhysicalBlock logical codec rate = Ok physical -> decodePhysicalBlock physical = Ok logical.
Proof.
  unfold encodePhysicalBlock. intros He. bind_inv He. pose proof (len_nonneg logical) as Hnn.
  assert (Hu : is_u32 (len logical)) by (apply block_u32; lia).
  rename Hx0 into Hp. rename l into payload. rename z into actual.
  injection He as <-. rewrite u32_id by done.
  change (decodePhysicalBlock (physical_block actual (len logical) payload) = Ok logical).
  assert (Hd : 0 <= actual < 256 /\ Decompress payload (len logical) actual = Ok logical).
  { destruct (negb (codec =? None_)).
    - bind_inv Hp. destruct (shouldCompress _ _ _) eqn:E; injection Hp as <- <-.
      + apply shouldCompress_smaller in E. split; [| by apply Decompress_Compress].
        revert Hx0. unfold Compress, None_, LZ4. destruct (Z.eqb_spec codec 0); [lia |].
        destruct (Z.eqb_spec codec 1); [lia | done].
      + split; [done | by apply Decompress_None].
    - injection Hp as <- <-. split; [done | by apply Decompress_None]. }
  destruct Hd as [Ha Hd]. rewrite decodePhysicalBlock_physical by lia. by rewrite Hd.
Qed.

(** Whatever decodes carries its checksum. *)
Lemma decodePhysicalBlock_enveloped `{!LZ4Codec} physical logical :
  decodePhysicalBlock physical = Ok logical -> enveloped (length physical - 4) physical.
Proof.
  unfold decodePhysicalBlock. intros Hd. bind_inv Hd. apply negb_false_iff, Z.eqb_eq in Hx0.
  unfold blockHeaderSize, blockTrailerSize in *.
  assert (Hl : (9 <= length physical)%nat) by (unfold len in *; lia).
  set (n := (length physical - 4)%nat) in *. exists (take n physical), [].
  split; [rewrite length_take; lia |].
  rewrite !app_nil_r, <- Hx0, PutUint32_Uint32 by (rewrite length_drop; lia).
  rewrite (take_ge (drop n physical)) by (rewrite length_drop; lia). by rewrite take_drop.
Qed.

(** ** Records in place *)

Lemma slice_take {A} lo hi n (l : list A) :
  (hi <= n)%nat -> slice lo hi (take n l) = slice lo hi l.
Proof.
  intros H. unfold slice. rewrite skipn_firstn_comm, take_take. f_equal. lia.
Qed.

(** The errors of the two decoders, one to one. *)
Definition view_of_decode (e : decode_error) : view_error :=
  match e with
  | DecodeIO e => ViewIO e
  | UnknownFlags f => ViewFlags f
  | KeyTooLong n => ViewKeyLength n
  | ValueTooLong n => ViewValueLength n
  | PayloadTooShort a b => ViewPayload a b
  end.

Lemma decodeRecordView_nonempty buf :
  buf <> [] ->
  decodeRecordView buf =
  match DecodeBinary true buf with
  | Ok (r, rest) => Ok (r, len buf - len rest)
  | Err e => Err (view_of_decode e)
  end.
Proof.
  intros Hne. unfold decodeRecordView, DecodeBinary. destruct (Nat.lt_ge_cases (length buf) HeaderSize) as [Hs | Hs].
  - unfold guard_err at 1. destruct (Z.ltb_spec (len buf) (Z.of_nat HeaderSize)); [| unfold len in *; lia].
    assert (E : ReadFull HeaderSize buf = Err ErrUnexpectedEOF) by (apply ReadFull_short; by destruct buf).
    by rewrite E.
  - rewrite (guard_err_false (ViewIO ErrUnexpectedEOF)) by (unfold len; lia). bind_step.
    rewrite (ReadFull_enough HeaderSize) by done. bind_step.
    rewrite !(slice_take _ _ HeaderSize) by (unfold HeaderSize; lia). cbv zeta.
    set (kl := Uint32 (slice 0 4 buf)). set (vl := Uint32 (slice 4 8 buf)).
    set (fl := le_Z (slice 16 17 buf)).
    pose proof (Uint32_range (slice 0 4 buf)) as Hk. pose proof (Uint32_range (slice 4 8 buf)) as Hv.
    fold kl in Hk. fold vl in Hv. unfold is_u32, u32_max in Hk, Hv.
    rewrite (u64_id (kl + vl)) by (unfold is_u64, u64_max; lia).
    assert (Hd : len (drop HeaderSize buf) = len buf - Z.of_nat HeaderSize)
      by (unfold len; rewrite length_drop; lia). rewrite Hd.
    unfold guard_err.
    destruct (negb (Z.ldiff fl FlagDeleted =? 0)); [done |]. bind_step.
    destruct (kl >? MaxKeySize); [done |]. bind_step.
    destruct (vl >? MaxValueSize); [done |]. bind_step. cbn [andb].
    destruct (Z.gtb_spec (kl + vl) (len buf - Z.of_nat HeaderSize)) as [| Hf]; [done |]. bind_step.
    set (body := drop HeaderSize buf) in *.
    rewrite ReadFull_enough by (unfold len in *; lia). bind_step.
    rewrite ReadFull_enough by (rewrite length_drop; unfold len in *; lia). bind_step.
    f_equal. unfold slice. f_equal.
    + f_equal; [| f_equal].
      * rewrite Nat2Z.id. fold body. f_equal. lia.
      * destruct (Z.gtb_spec vl 0).
        -- unfold body. rewrite drop_drop. f_equal; [lia |]. f_equal. lia.
        -- by replace (Z.to_nat vl) with 0%nat by lia.
    + unfold body, len in *. rewrite !length_drop. lia.
Qed.

(** The in-place decoder has only one error of its own for input that ends. *)
Lemma decodeRecordView_not_EOF buf : decodeRecordView buf <> Err (ViewIO EOF).
Proof. unfold decodeRecordView, guard_err. cbv zeta. repeat case_match; done. Qed.

Lemma DecodeBinary_EOF buf : DecodeBinary true buf = Err (DecodeIO EOF) <-> buf = [].
Proof.
  split; [| by intros ->]. intros H. destruct (decide (buf = [])) as [| Hne]; [done |].
  destruct (decodeRecordView_not_EOF buf). by rewrite decodeRecordView_nonempty, H.
Qed.

(** The in-place decoder and the stream decoder on every input: they differ in
    the error for the empty one. *)
Lemma decodeRecordView_DecodeBinary buf :
  decodeRecordView buf =
  match DecodeBinary true buf with
  | Ok (r, rest) => Ok (r, len buf - len rest)
  | Err (DecodeIO EOF) => Err (ViewIO ErrUnexpectedEOF)
  | Err e => Err (view_of_decode e)
  end.
Proof.
  destruct (decide (buf = [])) as [-> | Hne]; [done |]. rewrite decodeRecordView_nonempty by done.
  destruct (DecodeBinary true buf) as [| [[]| | | |]] eqn:E; try done. by apply DecodeBinary_EOF in E.
Qed.

Lemma decodeRecordView_encode r rest :
  wf_record r -> decodeRecordView (EncodeBinary r ++ rest) = Ok (strip_batch r, EncodedSize r).
Proof.
  intros Hr. rewrite decodeRecordView_DecodeBinary, DecodeBinary_EncodeBinary by done.
  rewrite len_app, EncodedSize_length. do 2 f_equal. lia.
Qed.

Lemma decodeRecordView_bounds buf r n :
  decodeRecordView buf = Ok (r, n) -> 0 < n <= len buf.
Proof.
  rewrite decodeRecordView_DecodeBinary. destruct (DecodeBinary true buf) as [[r' rest]| [[]| | | |]] eqn:E; [| done..].
  intros [= <- <-]. apply DecodeBinary_sound in E as (-> & _ & _).
  rewrite len_app, <- EncodedSize_length. unfold EncodedSize, HeaderSize.
  pose proof (len_nonneg (Key r')). pose proof (len_nonneg (rValue r')). pose proof (len_nonneg rest). lia.
Qed.

(** ** The cursor on arbitrary bytes *)

(** The bounds every slice expression of the cursor relies on. *)
Record cursor_ok (c : cursor) : Prop := mkCursorOk {
  co_offset : 0 <= coffset c <= crecordsEnd c;
  co_end : crecordsEnd c <= len (cdata c);
  co_index : 0 <= cindex c <= ccount c;
  co_count : ccount c <= u32_max;
  co_len : len (crestartOffsets c) mod 4 = 0;
  co_interval : 0 <= crestartInterval c;
  co_restart i : Z.of_nat i < len (crestartOffsets c) / 4 ->
    exists o, restartOffset c i = Some o /\ 0 <= o <= crecordsEnd c /\
      Z.of_nat i * crestartInterval c < ccount c;
}.

Lemma zero_cursor_ok : cursor_ok zero_cursor.
Proof. constructor; simpl; try done; try lia. intros i H. change (len [] / 4) with 0 in H. lia. Qed.

(** Only the position and the error of a cursor change. *)
Lemma cursor_ok_move c c' :
  cursor_ok c -> cdata c' = cdata c -> ccount c' = ccount c -> crecordsEnd c' = crecordsEnd c ->
  crestartInterval c' = crestartInterval c -> crestartOffsets c' = crestartOffsets c ->
  0 <= coffset c' <= crecordsEnd c -> 0 <= cindex c' <= ccount c -> cursor_ok c'.
Proof.
  intros [H1 H2 H3 H4 H5 H6 H7] E1 E2 E3 E4 E5 Ho Hi.
  constructor; rewrite ?E1, ?E2, ?E3, ?E4, ?E5; try done.
  intros i Hlt. unfold restartOffset. rewrite E5. by apply H7.
Qed.

Lemma set_err_ok e c : cursor_ok c -> cursor_ok (set_err e c).
Proof. intros H. apply (cursor_ok_move c); try done; apply H. Qed.

Lemma cursor_next_ok c :
  cursor_ok c ->
  exists r c', cursor_next c = Some (r, c') /\ cursor_ok c' /\
    match r with Some _ => cindex c' = cindex c + 1 | None => cindex c' = cindex c end.
Proof.
  intros Hc. unfold cursor_next. destruct (cerr c); [by eauto |].
  destruct (Z.eqb_spec (cindex c) (ccount c)) as [He | Hne].
  - destruct (negb _); eauto 6 using set_err_ok.
  - pose proof (co_offset _ Hc). pose proof (co_end _ Hc). pose proof (co_index _ Hc).
    pose proof (co_count _ Hc). rewrite go_slice_Some by lia. simpl.
    destruct (decodeRecordView _) as [[rec size]|e] eqn:E; [| by eauto 6 using set_err_ok].
    apply decodeRecordView_bounds in E. unfold len in E. rewrite length_slice in E by (unfold len in *; lia).
    assert (Hu : u32 (cindex c + 1) = cindex c + 1) by (apply u32_id; unfold is_u32; lia).
    do 2 eexists. split; [reflexivity |]. split; [| done].
    apply (cursor_ok_move c); try done; simpl; lia.
Qed.

Lemma cursor_drain_ok n c :
  cursor_ok c -> ccount c - cindex c < Z.of_nat n ->
  exists rs c', cursor_drain n c = Some (rs, c') /\ cursor_ok c'.
Proof.
  revert c. induction n as [|n IH]; intros c Hc Hn; [pose proof (co_index _ Hc); lia |]. cbn [cursor_drain].
  destruct (cursor_next_ok c Hc) as (r & c1 & E & Hc1 & Hi). rewrite E. simpl.
  destruct r as [rec|]; [| by eauto].
  assert (Hcc : ccount c1 = ccount c).
  { revert E. unfold cursor_next. destruct (cerr c); [done |].
    destruct (cindex c =? ccount c); [by destruct (negb _) |].
    destruct (go_slice _ _ _); [| done]. simpl.
    destruct (decodeRecordView _) as [[]|]; [by intros [= _ <-] | done]. }
  destruct (IH c1 Hc1) as (rs & c2 & -> & Hc2); [lia |]. eauto.
Qed.

Lemma seek_probe_ok c key i :
  cursor_ok c -> Z.of_nat i < len (crestartOffsets c) / 4 -> exists r, seek_probe c key i = Some r.
Proof.
  intros Hc Hi. unfold seek_probe. destruct (co_restart _ Hc i Hi) as (o & -> & Ho & _). simpl.
  pose proof (co_end _ Hc). rewrite go_slice_Some by lia. simpl. eauto.
Qed.

Lemma search_loop_total fuel i j n probe e :
  (forall h, (h < n)%nat -> exists r, probe h = Some r) -> (i <= j <= n)%nat -> (j - i <= fuel)%nat ->
  exists k e', search_loop fuel i j probe e = Some (k, e') /\ (i <= k <= j)%nat.
Proof.
  intros Hp. revert i j e. induction fuel as [|fuel IH]; intros i j e Hij Hf; cbn [search_loop].
  - destruct (Nat.ltb_spec i j); [lia |]. eauto with lia.
  - destruct (Nat.ltb_spec i j) as [Hlt |]; [| by eauto with lia].
    pose proof (Nat.div_mod (i + j) 2 ltac:(lia)). pose proof (Nat.mod_upper_bound (i + j) 2 ltac:(lia)).
    set (h := ((i + j) / 2)%nat) in *. destruct (Hp h) as [r ->]; [lia |]. simpl.
    destruct r as [[]|e1]; simpl.
    + destruct (IH i h e) as (k & e' & -> & ?); [lia | lia |]. eauto with lia.
    + destruct (IH (h + 1)%nat j e) as (k & e' & -> & ?); [lia | lia |]. eauto with lia.
    + destruct (IH i h (Some e1)) as (k & e' & -> & ?); [lia | lia |]. eauto with lia.
Qed.

Lemma cursor_seek_ok key c :
  cursor_ok c -> exists e c', cursor_seek key c = Some (e, c') /\ cursor_ok c'.
Proof.
  intros Hc. unfold cursor_seek. destruct (cerr c) as [e|]; [by eauto |].
  destruct (Z.eqb_spec (len (crestartOffsets c)) 0) as [| Hne]; [by eauto |].
  set (n := Z.to_nat (len (crestartOffsets c) / 4)).
  assert (Hn : (0 < n)%nat).
  { pose proof (co_len _ Hc). pose proof (len_nonneg (crestartOffsets c)).
    pose proof (Z.div_mod (len (crestartOffsets c)) 4). unfold n. lia. }
  destruct (search_loop_total n 0 n n (seek_probe c key) None) as (k & e & -> & Hk); [| lia | lia |].
  { intros h Hh. apply seek_probe_ok; [done |]. unfold n in *. lia. }
  simpl. destruct e as [e|]; [by eauto using set_err_ok |].
  set (i := if (k =? n)%nat then (n - 1)%nat else if (0 <? k)%nat then (k - 1)%nat else k).
  assert (Hi : (i < n)%nat).
  { unfold i. destruct (Nat.eqb_spec k n), (Nat.ltb_spec 0 k); lia. }
  destruct (co_restart _ Hc i) as (o & -> & Ho & Hc'); [unfold n in *; lia |]. simpl.
  do 2 eexists. split; [reflexivity |]. pose proof (co_count _ Hc). pose proof (co_interval _ Hc).
  apply (cursor_ok_move c); try done. simpl.
  assert (Z.of_nat i <= u32_max \/ crestartInterval c = 0) as [Hiu | ->] by nia.
  - rewrite !u32_id; unfold is_u32; try lia. rewrite u32_id; unfold is_u32; nia.
  - rewrite Z.mul_0_r. pose proof (co_index _ Hc). change (u32 0) with 0. lia.
Qed.

(** Restart offset [j] as both readers see it. *)
Definition ro_at (ro : bytes) (j : nat) : Z := Uint32 (drop (4 * j) ro).

Lemma Uint32_take bs : Uint32 (take 4 bs) = Uint32 bs.
Proof. unfold Uint32. by rewrite take_take. Qed.

Lemma restartOffset_at c j :
  4 * Z.of_nat j + 4 <= len (crestartOffsets c) ->
  restartOffset c j = Some (ro_at (crestartOffsets c) j).
Proof.
  intros H. unfold restartOffset. rewrite go_slice_Some by lia. simpl.
  rewrite go_Uint32_Some by (rewrite length_slice; unfold len in *; lia). unfold slice, ro_at.
  replace (Z.to_nat (Z.of_nat j * 4 + 4) - Z.to_nat (Z.of_nat j * 4))%nat with 4%nat by lia.
  rewrite Uint32_take. do 3 f_equal. lia.
Qed.

Lemma check_at ro j :
  4 * Z.of_nat j + 4 <= len ro -> len ro <= u32_max ->
  (at_i ← go_slice (u32 (Z.of_nat j * 4)) (len ro) ro; go_Uint32 at_i) = Some (ro_at ro j).
Proof.
  intros H Hu. rewrite u32_id by (unfold is_u32; lia). rewrite go_slice_Some by lia. simpl.
  rewrite go_Uint32_Some by (rewrite length_slice; unfold len in *; lia). unfold slice, ro_at.
  rewrite take_ge by (rewrite length_drop; unfold len; lia). do 3 f_equal. lia.
Qed.

Lemma check_restarts_spec n j prev recordsEnd ro :
  4 * Z.of_nat (j + n) <= len ro -> len ro <= u32_max ->
  exists r, check_restarts n (Z.of_nat j) prev recordsEnd ro = Some r /\
    (is_Ok r -> forall k, (j <= k < j + n)%nat -> 4 <= ro_at ro k < recordsEnd).
Proof.
  revert j prev. induction n as [|n IH]; intros j prev Hl Hu; cbn [check_restarts].
  - eexists. split; [reflexivity |]. intros _ k Hk. lia.
  - pose proof (check_at ro j ltac:(lia) Hu) as Ha.
    destruct (go_slice _ _ _) as [b|]; [| done]. simpl in Ha |- *. rewrite Ha. simpl.
    assert (Hbad : forall e : block_error, exists r : result block_error unit, Some (Err e) = Some r /\
      (is_Ok r -> forall k, (j <= k < j + S n)%nat -> 4 <= ro_at ro k < recordsEnd)).
    { intros e. eexists. split; [reflexivity |]. intros [? ?]. done. }
    destruct (Z.ltb_spec (ro_at ro j) 4); simpl; [apply Hbad |].
    destruct (Z.geb_spec (ro_at ro j) recordsEnd); [apply Hbad |].
    destruct (_ && _); [apply Hbad |]. destruct (_ && _); [apply Hbad |].
    replace (Z.of_nat j + 1) with (Z.of_nat (S j)) by lia.
    destruct (IH (S j) (ro_at ro j)) as (r & -> & Hr); [lia | done |].
    exists r. split; [done |]. intros Hok k Hk. destruct (decide (k = j)) as [-> |]; [lia |].
    apply Hr; [done | lia].
Qed.

Lemma ceil_lt count interval i :
  0 < interval -> 0 <= i < (if count >? 0 then (count + interval - 1) / interval else 0) ->
  i * interval < count.
Proof.
  intros Hi. destruct (Z.gtb_spec count 0); [| lia]. intros [H1 H2].
  pose proof (Z.mul_div_le (count + interval - 1) interval Hi).
  assert (i + 1 <= (count + interval - 1) / interval) by lia. nia.
Qed.

(** For every input the constructor returns, with an error or with a cursor
    within its bounds. *)
Lemma new_cursor_ok buf v :
  len buf <= maxBlockSize ->
  exists r, newLogicalBlockCursorForVersion buf v = Some r /\ forall c, r = Ok c -> cursor_ok c.
Proof.
  intros Hmax. unfold newLogicalBlockCursorForVersion.
  assert (Hbad : forall e : block_error, exists r : result block_error cursor,
    Some (Err e) = Some r /\ forall c, r = Ok c -> cursor_ok c).
  { intros e. eexists. split; [reflexivity |]. done. }
  destruct (Z.ltb_spec (len buf) 4) as [| H4]; [apply Hbad |].
  pose proof (Uint32_range (slice 0 4 buf)) as [Hc0 Hc1]. set (count := Uint32 (slice 0 4 buf)) in *.
  destruct (v =? legacyFormatVersion).
  { eexists. split; [reflexivity |]. unfold start_cursor. intros c H. bind_inv H. injection H as <-.
    constructor; simpl; try done; try lia. intros i Hi. change (len [] / 4) with 0 in Hi. lia. }
  destruct (v =? currentFormatVersion); [| apply Hbad].
  destruct (Z.ltb_spec (len buf) 12) as [| H12]; [apply Hbad |].
  rewrite (go_slice_Some (len buf - 4)) by lia. cbn [mbind option_bind].
  set (rc := Uint32 _). pose proof (Uint32_range (slice (Z.to_nat (len buf - 4)) (Z.to_nat (len buf)) buf)) as [Hr0 Hr1].
  fold rc in Hr0, Hr1. rewrite u64_id by (unfold is_u64, u64_max, u32_max in *; lia).
  destruct (Z.gtb_spec (rc * 4 + 8) (len buf - 4)) as [| Hm]; [apply Hbad |].
  rewrite go_slice_Some by lia. cbn [mbind option_bind]. rewrite go_slice_Some by lia. cbn [mbind option_bind].
  set (ro := slice _ (Z.to_nat (len buf - 8)) buf). set (interval := Uint32 (slice (Z.to_nat (len buf - 8)) _ _)).
  assert (Hro : len ro = 4 * rc) by (unfold ro, len in *; rewrite length_slice; lia).
  assert (Hint : 0 <= interval) by apply Uint32_range.
  destruct (Z.eqb_spec interval 0) as [| Hnz]; [apply Hbad |].
  destruct (negb _) eqn:Hexp; [apply Hbad |]. apply negb_false_iff, Z.eqb_eq in Hexp.
  destruct (check_restarts_spec (Z.to_nat rc) 0 0 (len buf - (rc * 4 + 8)) ro) as (r & Hck & Hr);
    [lia | unfold u32_max, maxBlockSize in *; lia |].
  change (Z.of_nat 0) with 0 in Hck. rewrite Hck. cbn [mbind option_bind].
  destruct r as [[]|e]; [| apply Hbad]. eexists. split; [reflexivity |].
  unfold start_cursor. intros c H. bind_inv H. injection H as <-.
  assert (Hq : len ro / 4 = rc) by (rewrite Hro, Z.mul_comm, Z.div_mul; lia).
  constructor; cbn [cdata ccount cindex coffset crecordsEnd crestartInterval crestartOffsets]; try lia.
  - rewrite Hro, Z.mul_comm. by apply Z.mod_mul.
  - intros i Hi. rewrite Hq in Hi. exists (ro_at ro i). split; [apply restartOffset_at; simpl; lia |].
    specialize (Hr (ex_intro _ tt eq_refl) i ltac:(lia)). split; [lia |].
    apply ceil_lt; [lia |]. rewrite <- Hexp. lia.
Qed.

(** C35: the in-place record decoder of the SSTable and the stream decoder give
    the same answer for every input that is not empty: the same record and the
    same number of bytes consumed, or the same error with the same figures,
    [io.ErrUnexpectedEOF] included.  The empty input, and no other, is [io.EOF]
    for the stream decoder; the in-place one calls it [io.ErrUnexpectedEOF]. *)
Theorem record_view_equivalent buf :
  decodeRecordView buf =
  match DecodeBinary true buf with
  | Ok (r, rest) => Ok (r, len buf - len rest)
  | Err (DecodeIO EOF) => Err (ViewIO ErrUnexpectedEOF)
  | Err (DecodeIO ErrUnexpectedEOF) => Err (ViewIO ErrUnexpectedEOF)
  | Err (UnknownFlags f) => Err (ViewFlags f)
  | Err (KeyTooLong n) => Err (ViewKeyLength n)
  | Err (ValueTooLong n) => Err (ViewValueLength n)
  | Err (PayloadTooShort a b) => Err (ViewPayload a b)
  end /\
  (DecodeBinary true buf = Err (DecodeIO EOF) <-> buf = []).
Proof.
  split; [| apply DecodeBinary_EOF]. rewrite decodeRecordView_DecodeBinary.
  by destruct (DecodeBinary true buf) as [[]| [[]| | | |]].
Qed.

(** C34: a stored block with one byte changed, wherever it is, is rejected. *)
Theorem block_corruption_detected `{!LZ4Codec} logical codec rate a x y b :
  encodePhysicalBlock logical codec rate = Ok (a ++ x :: b) -> x <> y ->
  exists e, decodePhysicalBlock (a ++ y :: b) = Err e.
Proof.
  intros He Hxy. destruct (decodePhysicalBlock (a ++ y :: b)) as [dec|e] eqn:E; [| eauto].
  exfalso. apply Hxy. apply decodePhysicalBlock_enveloped in E.
  rewrite length_app in E. simpl in E. apply (enveloped_detects (length a + S (length b) - 4) a x y b); [| exact E].
  unfold encodePhysicalBlock in He. bind_inv He.
  set (body := [z2b z] ++ PutUint32 (u32 (len logical)) ++ l) in He. apply Ok_inj in He.
  exists body, []. split; [| by rewrite !app_nil_r].
  apply (f_equal length) in He. clearbody body.
  rewrite !length_app, length_PutUint32, length_cons in He. lia.
Qed.

Lemma block_corruption_detected_witness :
  exists a b, @encodePhysicalBlock run_codec [x07] None_ f_zero = Ok (a ++ x07 :: b) /\
    exists e, @decodePhysicalBlock run_codec (a ++ x0f :: b) = Err e.
Proof.
  destruct (@encodePhysicalBlock run_codec [x07] None_ f_zero) as [p|] eqn:E;
    [| exfalso; vm_compute in E; discriminate].
  exists (take 5 p), (drop 6 p).
  assert (Hp : Ok (E := block_error) p = Ok (take 5 p ++ x07 :: drop 6 p)).
  { f_equal. vm_compute in E. injection E as <-. vm_compute. reflexivity. }
  split; [exact Hp |].
  refine (@block_corruption_detected run_codec [x07] None_ f_zero _ x07 x0f _ _ _); [| done].
  rewrite E. exact Hp.
Defined.
