(* ===== verification/BlockLayout.v ===== *)
(** * The content of a logical block

    The layout the writer gives to the records of a block, and what the cursor
    of [Block] does on it: it walks the records in order, and a seek skips
    only records below the key. *)

From S2P Require Export Versions Block.
From S2P Require Import Crc32 Float64.

Definition encode_records (recs : list record) : bytes := concat (EncodeBinary <$> recs).

(** The offset of record [i] in its block. *)
Definition offset_of (recs : list record) (i : nat) : Z := 4 + len (encode_records (take i recs)).

(** One restart offset every [k] records. *)
Definition restart_table (k : nat) (recs : list record) : list Z :=
  (fun j => offset_of recs (j * k)) <$> seq 0 ((length recs + k - 1) / k).

Definition restart_bytes (offsets : list Z) : bytes := concat (PutUint32 <$> offsets).

Definition logical_block (k : nat) (recs : list record) : bytes :=
  PutUint32 (len recs) ++ encode_records recs ++
  restart_bytes (restart_table k recs) ++ PutUint32 (Z.of_nat k) ++ PutUint32 (len (restart_table k recs)).

(** The format before restart points. *)
Definition legacy_block (recs : list record) : bytes := PutUint32 (len recs) ++ encode_records recs.

(** The cursor stands before record [i] of the block's records. *)
Record at_record (recs : list record) (i : nat) (c : cursor) : Prop := mkAt {
  ar_data : exists tail, cdata c = PutUint32 (len recs) ++ encode_records recs ++ tail;
  ar_count : ccount c = len recs;
  ar_index : cindex c = Z.of_nat i;
  ar_offset : coffset c = offset_of recs i;
  ar_end : crecordsEnd c = 4 + len (encode_records recs);
  ar_err : cerr c = None;
  ar_le : (i <= length recs)%nat;
}.

Lemma encode_records_app a b : encode_records (a ++ b) = encode_records a ++ encode_records b.
Proof. unfold encode_records. by rewrite fmap_app, concat_app. Qed.

Lemma encode_records_cons r l : encode_records (r :: l) = EncodeBinary r ++ encode_records l.
Proof. done. Qed.

(** A record occupies at least its header. *)
Lemma EncodedSize_pos r : Z.of_nat HeaderSize <= EncodedSize r.
Proof. unfold EncodedSize. pose proof (len_nonneg (Key r)). pose proof (len_nonneg (rValue r)). lia. Qed.

Lemma encode_records_len l : Z.of_nat HeaderSize * len l <= len (encode_records l).
Proof.
  induction l as [|r l IH]; [done |]. rewrite encode_records_cons, len_app, <- EncodedSize_length.
  pose proof (EncodedSize_pos r). unfold len in *. simpl length. lia.
Qed.

(** The bytes from record [i] to the end of the records. *)
Lemma at_record_slice recs i c :
  at_record recs i c ->
  go_slice (coffset c) (crecordsEnd c) (cdata c) = Some (encode_records (drop i recs)).
Proof.
  intros [[tail Hd] _ _ Ho He _ Hle]. rewrite Hd, Ho, He. unfold offset_of.
  pose proof (encode_records_app (take i recs) (drop i recs)) as Happ. rewrite take_drop in Happ.
  pose proof (len_nonneg (encode_records (take i recs))). pose proof (len_nonneg (encode_records (drop i recs))).
  pose proof (len_nonneg tail). pose proof (len_PutUint32 (len recs)).
  rewrite Happ, go_slice_Some; rewrite ?len_app; try lia. f_equal. unfold slice.
  rewrite <- app_assoc, app_assoc.
  rewrite drop_app_length' by (rewrite length_app, length_PutUint32; unfold len; lia).
  apply take_app_length'. unfold len in *. lia.
Qed.

Lemma cursor_next_record recs i c r :
  at_record recs i c -> recs !! i = Some r -> wf_record r -> len recs <= u32_max ->
  exists c', cursor_next c = Some (Some (strip_batch r), c') /\ at_record recs (S i) c' /\
    crestartOffsets c' = crestartOffsets c /\ crestartInterval c' = crestartInterval c.
Proof.
  intros Hat Hr Hwf Hlen. pose proof (at_record_slice _ _ _ Hat) as Hs.
  destruct Hat as [Hd Hc Hi Ho He Herr Hle]. apply lookup_lt_Some in Hr as Hlt.
  unfold cursor_next. rewrite Herr, Hs. destruct (Z.eqb_spec (cindex c) (ccount c)) as [E | _].
  { rewrite Hi, Hc in E. unfold len in E. lia. }
  erewrite drop_S by done. cbn [mbind option_bind]. rewrite encode_records_cons, decodeRecordView_encode by done.
  eexists. split; [reflexivity |]. split; [| done].
  constructor; cbn [set_position cdata ccount cindex coffset crecordsEnd cerr]; try done.
  - rewrite u32_id; unfold is_u32, len in *; lia.
  - unfold offset_of in *. erewrite take_S_r by done. rewrite encode_records_app, len_app, Ho.
    rewrite encode_records_cons, app_nil_r, EncodedSize_length. lia.
Qed.

Lemma cursor_next_end recs c :
  at_record recs (length recs) c -> cursor_next c = Some (None, c).
Proof.
  intros [_ Hc Hi Ho He Herr _]. unfold cursor_next. rewrite Herr, Hc, Hi, Ho, He. unfold offset_of.
  by rewrite take_ge, !Z.eqb_refl by lia.
Qed.

Lemma cursor_drain_records recs i c n :
  at_record recs i c -> Forall wf_record recs -> len recs <= u32_max -> (length recs - i < n)%nat ->
  exists c', cursor_drain n c = Some (strip_batch <$> drop i recs, c') /\ cerr c' = None.
Proof.
  intros Hat Hwf Hl. revert i c Hat. induction n as [|n IH]; intros i c Hat Hn; [lia |]. cbn [cursor_drain].
  destruct (decide (i = length recs)) as [-> | Hne].
  - rewrite (cursor_next_end recs c Hat). simpl. rewrite drop_ge by lia. exists c. split; [done | apply Hat].
  - pose proof (ar_le _ _ _ Hat). destruct (lookup_lt_is_Some_2 recs i) as [r Hr]; [lia |].
    destruct (cursor_next_record _ _ _ _ Hat Hr) as (c1 & E & Hat1 & _); [| done |].
    { rewrite Forall_lookup in Hwf. eauto. }
    rewrite E. cbn [mbind option_bind].
    destruct (IH (S i) c1 Hat1) as (c2 & -> & He); [lia |]. erewrite (drop_S recs r i) by done. simpl. eauto.
Qed.

(** ** The written block opens *)

Lemma restart_bytes_length tbl : length (restart_bytes tbl) = (4 * length tbl)%nat.
Proof.
  unfold restart_bytes. induction tbl as [|z tbl IH]; [done |]. rewrite fmap_cons. cbn [concat].
  rewrite length_app, length_PutUint32, IH. simpl. lia.
Qed.

Lemma ro_at_restart_bytes tbl j z rest :
  tbl !! j = Some z -> is_u32 z -> ro_at (restart_bytes tbl ++ rest) j = z.
Proof.
  revert j. induction tbl as [|y tbl IH]; intros [|j] Hj Hz; try done; unfold ro_at.
  - injection Hj as ->. unfold restart_bytes. rewrite fmap_cons. cbn [concat].
    change (drop (4 * 0) ?x) with x. rewrite <- app_assoc. by apply Uint32_PutUint32.
  - unfold restart_bytes. rewrite fmap_cons. cbn [concat]. rewrite <- app_assoc.
    replace (4 * S j)%nat with (length (PutUint32 y) + 4 * j)%nat by (rewrite length_PutUint32; lia).
    rewrite <- drop_drop, drop_app_length. by apply (IH j).
Qed.

Section layout.
Context (k : nat) (recs : list record).
Context (Hk : (0 < k)%nat) (Hku : Z.of_nat k <= u32_max) (Hne : recs <> [])
        (Hwf : Forall wf_record recs) (Hmax : len (logical_block k recs) <= maxBlockSize).

Local Abbreviation tbl := (restart_table k recs).
Local Abbreviation rend := (4 + len (encode_records recs)).

Lemma restart_count : Z.of_nat (length tbl) = (len recs + Z.of_nat k - 1) / Z.of_nat k.
Proof.
  unfold restart_table. rewrite length_fmap, length_seq. unfold len.
  rewrite Nat2Z.inj_div. f_equal. lia.
Qed.

Lemma tbl_lookup j : (j < length tbl)%nat -> tbl !! j = Some (offset_of recs (j * k)) /\ (j * k < length recs)%nat.
Proof.
  intros Hj. pose proof restart_count as Hc. assert (0 < length recs)%nat by (destruct recs; [done | simpl; lia]).
  split.
  - unfold restart_table in *. rewrite length_fmap, length_seq in Hj.
    rewrite list_lookup_fmap, lookup_seq_lt by done. done.
  - assert (Z.of_nat j * Z.of_nat k < len recs).
    { apply ceil_lt; [lia |]. destruct (Z.gtb_spec (len recs) 0); [lia | unfold len in *; lia]. }
    unfold len in *. lia.
Qed.

Lemma tbl_nonempty : (0 < length tbl)%nat.
Proof.
  pose proof restart_count as Hc. assert (0 < len recs) by (unfold len; destruct recs; [done | simpl; lia]).
  assert (1 <= (len recs + Z.of_nat k - 1) / Z.of_nat k) by (apply Z.div_le_lower_bound; lia). lia.
Qed.

Lemma offset_of_lt i j : (i < j <= length recs)%nat -> offset_of recs i + Z.of_nat HeaderSize <= offset_of recs j.
Proof.
  intros Hij. unfold offset_of. replace j with (i + (j - i))%nat by lia.
  rewrite <- take_take_drop, encode_records_app, len_app.
  pose proof (encode_records_len (take (j - i) (drop i recs))) as Hl.
  assert (len (take (j - i) (drop i recs)) = Z.of_nat (j - i)).
  { unfold len. rewrite length_take, length_drop. lia. }
  unfold HeaderSize in *. lia.
Qed.

Lemma offset_of_end : offset_of recs (length recs) = rend.
Proof. unfold offset_of. by rewrite take_ge by lia. Qed.

Lemma tbl_range j z : tbl !! j = Some z -> 4 <= z < rend.
Proof.
  intros Hj. apply lookup_lt_Some in Hj as Hlt. destruct (tbl_lookup j Hlt) as [E Hl].
  assert (z = offset_of recs (j * k)) as -> by congruence. rewrite <- offset_of_end.
  pose proof (offset_of_lt (j * k) (length recs) ltac:(lia)). split; [| unfold HeaderSize in *; lia].
  unfold offset_of. pose proof (len_nonneg (encode_records (take (j * k) recs))). lia.
Qed.

Lemma block_len :
  len (logical_block k recs) = rend + 4 * len tbl + 8 /\ rend <= maxBlockSize.
Proof.
  assert (E : len (logical_block k recs) = rend + 4 * len tbl + 8).
  { unfold logical_block. rewrite !len_app, !len_PutUint32. unfold len at 2. rewrite restart_bytes_length.
    unfold len. lia. }
  pose proof (len_nonneg tbl). lia.
Qed.

Lemma tbl_u32 j z : tbl !! j = Some z -> is_u32 z.
Proof.
  intros H%tbl_range. destruct block_len. unfold is_u32, u32_max, maxBlockSize in *. lia.
Qed.

Lemma check_restarts_tbl n j prev :
  (j + n = length tbl)%nat -> (forall p, (j = S p)%nat -> tbl !! p = Some prev) ->
  check_restarts n (Z.of_nat j) prev rend (restart_bytes tbl) = Some (Ok tt).
Proof.
  revert j prev. induction n as [|n IH]; intros j prev Hn Hp; cbn [check_restarts]; [done |].
  destruct (tbl_lookup j ltac:(lia)) as [Hz Hjl]. set (z := offset_of recs (j * k)) in *.
  destruct block_len as [Hbl _]. pose proof (len_nonneg (encode_records recs)).
  assert (Hlen : len (restart_bytes tbl) = 4 * len tbl) by (unfold len; rewrite restart_bytes_length; lia).
  pose proof (check_at (restart_bytes tbl) j) as Ha. rewrite Hlen in Ha. unfold len, u32_max, maxBlockSize in *.
  specialize (Ha ltac:(lia) ltac:(lia)).
  pose proof (ro_at_restart_bytes tbl j z [] Hz (tbl_u32 _ _ Hz)) as Hr. rewrite app_nil_r in Hr. rewrite Hr in Ha.
  rewrite Hlen. destruct (go_slice _ _ _) as [b|]; [| done]. simpl in Ha |- *. rewrite Ha. simpl.
  pose proof (tbl_range _ _ Hz) as [R1 R2].
  destruct (Z.ltb_spec z 4); [lia |]. unfold len in *. destruct (Z.geb_spec z (4 + Z.of_nat (length (encode_records recs)))); [lia |]. simpl.
  destruct (Z.eqb_spec (Z.of_nat j) 0) as [Hj0 | Hj0]; simpl.
  - assert (j = 0%nat) as -> by lia. change (z =? 4) with true. simpl.
    change (Z.of_nat 0 + 1) with (Z.of_nat 1). apply IH; [lia |]. intros p [= <-]. done.
  - destruct (Z.gtb_spec (Z.of_nat j) 0); [| lia]. simpl.
    destruct j as [|p]; [lia |]. pose proof (Hp p eq_refl) as Hprev.
    destruct (tbl_lookup p ltac:(lia)) as [Hz' _].
    pose proof (offset_of_lt (p * k) (S p * k) ltac:(lia)). unfold HeaderSize in *.
    destruct (Z.leb_spec z prev) as [Hle | _]; [assert (prev = offset_of recs (p * k)) by congruence; unfold z in *; lia |].
    replace (Z.of_nat (S p) + 1) with (Z.of_nat (S (S p))) by lia. apply IH; [lia |]. intros q [= <-]. done.
Qed.

Lemma block_count_u32 : is_u32 (len recs).
Proof.
  destruct block_len as [_ H]. pose proof (encode_records_len recs). pose proof (len_nonneg recs).
  unfold HeaderSize, is_u32, u32_max, maxBlockSize in *. lia.
Qed.

(** The slices of the block that the constructor takes. *)
Lemma block_slices (buf := logical_block k recs) (n := len tbl) :
  Uint32 (slice 0 4 buf) = len recs /\
  Uint32 (slice (Z.to_nat (len buf - 4)) (Z.to_nat (len buf)) buf) = n /\
  slice (Z.to_nat rend) (Z.to_nat (len buf - 8)) buf = restart_bytes tbl /\
  Uint32 (slice (Z.to_nat (len buf - 8)) (Z.to_nat (len buf - 4)) buf) = Z.of_nat k.
Proof.
  destruct block_len as [Hbl Hre]. fold buf in Hbl. fold n in Hbl. pose proof block_count_u32 as Hcu.
  assert (Hrb : length (restart_bytes tbl) = Z.to_nat (4 * n)) by (rewrite restart_bytes_length; unfold n, len; lia).
  pose proof (len_nonneg (encode_records recs)) as He. pose proof (len_nonneg tbl) as Hn0. fold n in Hn0.
  assert (Hn : is_u32 n).
  { pose proof Hmax as Hm. fold buf in Hm. unfold is_u32, u32_max, maxBlockSize in *. lia. }
  assert (Hpre : length (PutUint32 (len recs) ++ encode_records recs) = Z.to_nat rend).
  { rewrite length_app, length_PutUint32. unfold len. lia. }
  assert (Hu : forall z, is_u32 z -> Uint32 (PutUint32 z) = z).
  { intros z Hz. rewrite <- (app_nil_r (PutUint32 z)). by apply Uint32_PutUint32. }
  rewrite Hbl. unfold buf, logical_block, slice. fold n. split_and!.
  - change (drop 0 ?x) with x. rewrite take_app_length' by (by rewrite length_PutUint32). by apply Hu.
  - rewrite !app_assoc, drop_app_length'.
    + rewrite take_ge by (rewrite length_PutUint32; lia). by apply Hu.
    + rewrite !length_app, !length_PutUint32, Hrb. unfold len in *. lia.
  - rewrite app_assoc, drop_app_length' by (rewrite Hpre; lia).
    rewrite take_app_length' by (rewrite Hrb; lia). done.
  - rewrite app_assoc, app_assoc, drop_app_length'.
    + rewrite take_app_length' by (rewrite length_PutUint32; lia). apply Hu. unfold is_u32. lia.
    + rewrite length_app, Hpre, Hrb. lia.
Qed.

Lemma start_at buf tail interval ro :
  buf = PutUint32 (len recs) ++ encode_records recs ++ tail ->
  exists c, start_cursor buf (len recs) rend interval ro = Ok c /\ at_record recs 0 c /\
    crestartInterval c = interval /\ crestartOffsets c = ro.
Proof.
  intros ->. unfold start_cursor. rewrite guard_err_false.
  - eexists. split; [reflexivity |]. split; [| done]. constructor; simpl; try done; [eauto | lia].
  - pose proof (encode_records_len recs). destruct (Z.gtb_spec (len recs) ((rend - 4) / Z.of_nat HeaderSize)) as [Hgt |]; [| done].
    assert (len recs <= (rend - 4) / Z.of_nat HeaderSize); [| lia].
    apply Z.div_le_lower_bound; unfold HeaderSize in *; lia.
Qed.

(** A written block opens at its first record. *)
Lemma open_logical_block :
  exists c, newLogicalBlockCursorForVersion (logical_block k recs) currentFormatVersion = Some (Ok c) /\
    at_record recs 0 c /\ crestartInterval c = Z.of_nat k /\ crestartOffsets c = restart_bytes tbl.
Proof.
  destruct block_slices as (S1 & S2 & S3 & S4). destruct block_len as [Hbl Hre].
  pose proof (len_nonneg (encode_records recs)). pose proof tbl_nonempty as Htn.
  unfold newLogicalBlockCursorForVersion. rewrite S1.
  set (buf := logical_block k recs) in *.
  assert (Hcnt : 1 <= len recs) by (unfold len; destruct recs; [done | simpl; lia]).
  assert (Hn1 : 1 <= len tbl) by (unfold len; lia).
  destruct (Z.ltb_spec (len buf) 4); [lia |]. simpl. destruct (Z.ltb_spec (len buf) 12); [lia |].
  rewrite (go_slice_Some (len buf - 4)) by lia. cbn [mbind option_bind]. rewrite S2.
  rewrite u64_id by (unfold is_u64, u64_max, maxBlockSize, len in *; lia).
  destruct (Z.gtb_spec (len tbl * 4 + 8) (len buf - 4)); [lia |].
  replace (len buf - (len tbl * 4 + 8)) with rend by lia.
  rewrite (go_slice_Some rend) by lia. cbn [mbind option_bind]. rewrite S3.
  rewrite (go_slice_Some (len buf - 8)) by lia. cbn [mbind option_bind]. rewrite S4.
  destruct (Z.eqb_spec (Z.of_nat k) 0); [lia |].
  destruct (Z.gtb_spec (len recs) 0); [| lia].
  rewrite <- restart_count. fold (len tbl). rewrite Z.eqb_refl. cbn [negb].
  replace (Z.to_nat (len tbl)) with (length tbl) by (unfold len; lia).
  pose proof (check_restarts_tbl (length tbl) 0 0 eq_refl ltac:(done)) as Hck.
  change (Z.of_nat 0) with 0 in Hck. rewrite Hck. cbn [mbind option_bind].
  destruct (start_at buf (restart_bytes tbl ++ PutUint32 (Z.of_nat k) ++ PutUint32 (len tbl))
    (Z.of_nat k) (restart_bytes tbl) eq_refl) as (c & -> & Hat & Hci & Hro). eauto.
Qed.
End layout.

(** The probing loop of a seek without decoding errors is [sort.Search]. *)
Lemma search_loop_Search fuel i j n probe f e :
  (forall h, (h < n)%nat -> probe h = Some (Ok (f h))) -> (i <= j <= n)%nat -> (j - i <= fuel)%nat ->
  search_loop fuel i j probe e = Some (Search_loop fuel i j f, e).
Proof.
  intros Hp. revert i j. induction fuel as [|fuel IH]; intros i j Hij Hf; cbn [search_loop Search_loop].
  - destruct (Nat.ltb_spec i j); [lia | done].
  - destruct (Nat.ltb_spec i j) as [Hlt |]; [| done].
    pose proof (Nat.div_mod (i + j) 2 ltac:(lia)). pose proof (Nat.mod_upper_bound (i + j) 2 ltac:(lia)).
    set (h := ((i + j) / 2)%nat) in *. rewrite Hp by lia. cbn [mbind option_bind].
    destruct (f h); cbn [negb]; apply IH; lia.
Qed.

Lemma at_record_move recs i j c :
  at_record recs i c -> (j <= length recs)%nat ->
  at_record recs j (set_position (Z.of_nat j) (offset_of recs j) c).
Proof. intros [H1 H2 H3 H4 H5 H6 H7] Hj. by constructor. Qed.

(** The keys do not decrease along a sorted list. *)
Lemma wsorted_keys l i j a b :
  wsorted l -> (i <= j)%nat -> l !! i = Some a -> l !! j = Some b -> (Key a <= Key b)%key.
Proof.
  intros Hs Hij Ha Hb. destruct (decide (i = j)) as [-> |]; [assert (a = b) as -> by congruence; key_order |].
  apply rec_le_key. revert i j Hij n Ha Hb. induction Hs as [|x l Hs IH Hf]; intros [|i] [|j] Hij Hn Ha Hb; try done; try lia.
  - injection Ha as ->. rewrite Forall_lookup in Hf. eauto.
  - apply (IH i j); [lia | lia | done | done].
Qed.

(** What a reader may assume of the cursor of a block: after a seek from the
    start it stands at a record before which every key is below the target. *)
Definition seekable (recs : list record) (c : cursor) : Prop :=
  at_record recs 0 c /\
  forall key, exists c' j, cursor_seek key c = Some (None, c') /\ at_record recs j c' /\
    Forall (fun r => Key r < key)%key (take j recs).

Section seek.
Context (k : nat) (recs : list record).
Context (Hk : (0 < k)%nat) (Hku : Z.of_nat k <= u32_max) (Hne : recs <> [])
        (Hwf : Forall wf_record recs) (Hmax : len (logical_block k recs) <= maxBlockSize)
        (Hs : wsorted recs).
Context (c : cursor) (Hat : at_record recs 0 c) (Hci : crestartInterval c = Z.of_nat k)
        (Hro : crestartOffsets c = restart_bytes (restart_table k recs)).

Local Abbreviation tbl := (restart_table k recs).

(** The key at a restart point is at or after the target. *)
Definition restart_ge (key : bytes) (h : nat) : bool :=
  match recs !! (h * k)%nat with Some r => key_leb key (Key r) | None => false end.

Lemma restart_read h :
  (h < length tbl)%nat -> restartOffset c h = Some (offset_of recs (h * k)) /\ (h * k < length recs)%nat.
Proof.
  intros Hh. destruct (tbl_lookup k recs Hk Hne Hwf Hmax h Hh) as [E Hl]. split; [| done].
  rewrite restartOffset_at.
  - rewrite Hro, <- (app_nil_r (restart_bytes _)). f_equal. apply ro_at_restart_bytes; [done |].
    by apply (tbl_u32 k recs Hk Hne Hwf Hmax h).
  - rewrite Hro. unfold len. rewrite restart_bytes_length. lia.
Qed.

Lemma seek_probe_written key h :
  (h < length tbl)%nat -> seek_probe c key h = Some (Ok (restart_ge key h)).
Proof.
  intros Hh. destruct (restart_read h Hh) as [E Hl]. unfold seek_probe, restart_ge. rewrite E. cbn [mbind option_bind].
  pose proof (at_record_slice _ _ _ (at_record_move recs 0 (h * k) c Hat ltac:(lia))) as Hsl. simpl in Hsl. rewrite Hsl.
  cbn [mbind option_bind]. destruct (lookup_lt_is_Some_2 recs (h * k)%nat Hl) as [r Hr]. rewrite Hr.
  erewrite drop_S by done. rewrite encode_records_cons, decodeRecordView_encode; [done |].
  rewrite Forall_lookup in Hwf. eauto.
Qed.

Lemma restart_ge_mono key a b :
  (a <= b < length tbl)%nat -> restart_ge key a = true -> restart_ge key b = true.
Proof.
  intros Hab. destruct (tbl_lookup k recs Hk Hne Hwf Hmax a ltac:(lia)) as [_ Ha].
  destruct (tbl_lookup k recs Hk Hne Hwf Hmax b ltac:(lia)) as [_ Hb]. unfold restart_ge.
  destruct (lookup_lt_is_Some_2 _ _ Ha) as [ra Ea]. destruct (lookup_lt_is_Some_2 _ _ Hb) as [rb Eb].
  rewrite Ea, Eb. intros H. pose proof (wsorted_keys recs (a * k) (b * k) ra rb Hs ltac:(nia) Ea Eb). key_order.
Qed.

Lemma seekable_written : seekable recs c.
Proof.
  split; [done |]. intros key. unfold cursor_seek. rewrite (ar_err _ _ _ Hat).
  pose proof (tbl_nonempty k recs Hk Hne Hwf Hmax) as Htn. pose proof (restart_bytes_length tbl) as Hrl.
  destruct (Z.eqb_spec (len (crestartOffsets c)) 0) as [E0 | _]; [rewrite Hro in E0; unfold len in E0; lia |].
  assert (Hrc : Z.to_nat (len (crestartOffsets c) / 4) = length tbl).
  { rewrite Hro. unfold len. rewrite Hrl, Nat2Z.inj_mul, Z.mul_comm, Z.div_mul; lia. }
  rewrite Hrc.
  rewrite (search_loop_Search _ _ _ (length tbl) _ (restart_ge key)) by (try lia; apply seek_probe_written).
  fold (Search (length tbl) (restart_ge key)). cbn [mbind option_bind].
  destruct (Search_spec (length tbl) (restart_ge key)) as (S1 & S2 & _); [apply restart_ge_mono |].
  set (s := Search (length tbl) (restart_ge key)) in *.
  set (i := if (s =? length tbl)%nat then (length tbl - 1)%nat else if (0 <? s)%nat then (s - 1)%nat else s).
  assert (Hi : (i < length tbl)%nat /\ (i = 0 \/ i < s)%nat).
  { unfold i. destruct (Nat.eqb_spec s (length tbl)), (Nat.ltb_spec 0 s); lia. }
  destruct Hi as [Hi His]. destruct (restart_read i Hi) as [E Hl]. rewrite E. cbn [mbind option_bind].
  eexists _, (i * k)%nat. split; [reflexivity |].
  pose proof (block_count_u32 k recs Hk Hmax) as Hcu. unfold is_u32, len in Hcu.
  rewrite Hci, (u32_id (Z.of_nat i)) by (unfold is_u32; nia).
  rewrite <- Nat2Z.inj_mul, u32_id by (unfold is_u32; nia).
  split; [apply (at_record_move recs 0); [done | lia] |].
  destruct His as [-> | His]; [constructor |].
  specialize (S2 i His). unfold restart_ge in S2. destruct (lookup_lt_is_Some_2 _ _ Hl) as [r Hr]. rewrite Hr in S2.
  apply Forall_lookup. intros j x Hj. apply lookup_take_Some in Hj as [Hj Hlt].
  pose proof (wsorted_keys recs j (i * k) x r Hs ltac:(lia) Hj Hr). key_order.
Qed.
End seek.

(** Opening a written block gives a seekable cursor, in both formats. *)
Lemma open_seekable k recs :
  (0 < k)%nat -> Z.of_nat k <= u32_max -> recs <> [] -> Forall wf_record recs -> wsorted recs ->
  len (logical_block k recs) <= maxBlockSize ->
  exists c, newLogicalBlockCursorForVersion (logical_block k recs) currentFormatVersion = Some (Ok c) /\
    seekable recs c.
Proof.
  intros Hk Hku Hne Hwf Hs Hmax.
  destruct (open_logical_block k recs Hk Hku Hne Hwf Hmax) as (c & E & Hat & Hci & Hro).
  exists c. split; [done |]. by apply (seekable_written k).
Qed.

Lemma open_legacy recs :
  Forall wf_record recs -> len (legacy_block recs) <= maxBlockSize ->
  exists c, newLogicalBlockCursorForVersion (legacy_block recs) legacyFormatVersion = Some (Ok c) /\
    seekable recs c.
Proof.
  intros Hwf Hmax.
  assert (Hl : len (legacy_block recs) = 4 + len (encode_records recs))
    by (unfold legacy_block; rewrite len_app, len_PutUint32; lia).
  pose proof (encode_records_len recs). pose proof (len_nonneg recs).
  assert (Hcu : is_u32 (len recs)) by (unfold HeaderSize, is_u32, u32_max, maxBlockSize in *; lia).
  unfold newLogicalBlockCursorForVersion. destruct (Z.ltb_spec (len (legacy_block recs)) 4); [unfold HeaderSize in *; lia |].
  assert (Hu : Uint32 (slice 0 4 (legacy_block recs)) = len recs).
  { unfold legacy_block, slice. change (drop 0 ?x) with x. rewrite take_app_length' by (by rewrite length_PutUint32).
    rewrite <- (app_nil_r (PutUint32 _)). by apply Uint32_PutUint32. }
  simpl. rewrite Hu, Hl.
  destruct (start_at 1 recs ltac:(lia) (legacy_block recs) [] 0 []) as (c & -> & Hat & Hci & Hro);
    [unfold legacy_block; by rewrite app_nil_r |].
  exists c. split; [done |]. split; [done |]. intros key. exists c, 0%nat. split; [| split; [done | constructor]].
  unfold cursor_seek. by rewrite (ar_err _ _ _ Hat), Hro.
Qed.

Lemma decodeLogicalBlock_written k recs :
  (0 < k)%nat -> Z.of_nat k <= u32_max -> recs <> [] -> Forall wf_record recs ->
  len (logical_block k recs) <= maxBlockSize ->
  decodeLogicalBlock (logical_block k recs) = Some (Ok (strip_batch <$> recs)).
Proof.
  intros Hk Hku Hne Hwf Hmax. unfold decodeLogicalBlock, newLogicalBlockCursor.
  destruct (open_logical_block k recs Hk Hku Hne Hwf Hmax) as (c & E & Hat & _). rewrite E.
  cbn [mbind option_bind].
  destruct (cursor_drain_records recs 0 c (S (Z.to_nat (ccount c))) Hat Hwf) as (c' & Ed & Herr).
  - apply (block_count_u32 k recs Hk Hmax).
  - rewrite (ar_count _ _ _ Hat). unfold len. lia.
  - rewrite Ed. cbn [mbind option_bind]. by rewrite Herr.
Qed.

Lemma encodePhysicalBlock_size `{!LZ4Codec} logical codec rate physical :
  encodePhysicalBlock logical codec rate = Ok physical -> len logical <= maxBlockSize.
Proof. unfold encodePhysicalBlock. intros He. bind_inv He. lia. Qed.

(** ** Properties *)

(** Any use of a cursor. *)
Inductive cursor_op : Type := CSeek (key : bytes) | CNext.

Fixpoint run_cursor (ops : list cursor_op) (c : cursor) : option cursor :=
  match ops with
  | [] => Some c
  | CSeek key :: ops => '(_, c) ← cursor_seek key c; run_cursor ops c
  | CNext :: ops => '(_, c) ← cursor_next c; run_cursor ops c
  end.

(** C33: reading a block never panics.  For every byte string of at most the
    maximum block size and every format version, opening the block returns a
    cursor or an error; any sequence of seeks and nexts on the cursor stays
    within the bounds of the slices it takes, and decoding the whole block
    terminates with records or an error. *)
Theorem block_cursor_never_panics buf v ops :
  len buf <= maxBlockSize ->
  (exists r, newLogicalBlockCursorForVersion buf v = Some r /\
     forall c, r = Ok c -> exists c', run_cursor ops c = Some c' /\ cursor_ok c') /\
  (exists r, decodeLogicalBlock buf = Some r).
Proof.
  intros Hl. split.
  - destruct (new_cursor_ok buf v Hl) as (r & E & Hr). exists r. split; [done |]. intros c ->.
    specialize (Hr c eq_refl). clear E. revert c Hr. induction ops as [|[key|] ops IH]; intros c Hc; simpl; [by eauto | |].
    + destruct (cursor_seek_ok key c Hc) as (e & c1 & -> & Hc1). simpl. auto.
    + destruct (cursor_next_ok c Hc) as (x & c1 & -> & Hc1 & _). simpl. auto.
  - unfold decodeLogicalBlock, newLogicalBlockCursor.
    destruct (new_cursor_ok buf currentFormatVersion Hl) as (r & -> & Hr). cbn [mbind option_bind].
    destruct r as [c|e]; [| by eauto]. specialize (Hr c eq_refl). pose proof (co_index _ Hr).
    destruct (cursor_drain_ok (S (Z.to_nat (ccount c))) c Hr) as (rs & c' & -> & _); [lia |]. simpl. eauto.
Qed.

Definition block_record (k s : Z) (v : bytes) : record := mkRecord [z2b k] s (mkEntry v false) 0 BatchNone.

Lemma block_cursor_never_panics_witness :
  exists r, decodeLogicalBlock (logical_block 1 [block_record 1 1 []; block_record 2 2 []] ++ [x00]) = Some r.
Proof.
  apply (block_cursor_never_panics _ 3 [CSeek [x02]; CNext]). vm_compute. congruence.
Defined.

(** C31: a block round trips.  What [encodePhysicalBlock] makes of a block's
    records, compressed or not, decodes to those records (without batch
    tags). *)
Theorem block_roundtrip `{!LZ4Codec, !LZ4Laws} k recs codec rate physical :
  (0 < k)%nat -> Z.of_nat k <= u32_max -> recs <> [] -> Forall wf_record recs ->
  encodePhysicalBlock (logical_block k recs) codec rate = Ok physical ->
  decodeBlock physical = Some (Ok (strip_batch <$> recs)).
Proof.
  intros Hk Hku Hne Hwf He. unfold decodeBlock. rewrite (physical_roundtrip _ _ _ _ He).
  apply decodeLogicalBlock_written; try done. by eapply encodePhysicalBlock_size.
Qed.

Lemma block_roundtrip_witness :
  let recs := [block_record 1 1 (replicate 40 x00); block_record 2 2 []] in
  exists physical, @encodePhysicalBlock run_codec (logical_block 1 recs) LZ4 f_zero = Ok physical /\
    @decodeBlock run_codec physical = Some (Ok recs).
Proof.
  intros recs. destruct (@encodePhysicalBlock run_codec (logical_block 1 recs) LZ4 f_zero) as [p|] eqn:E;
    [| exfalso; vm_compute in E; discriminate].
  exists p. split; [done |].
  refine (@block_roundtrip run_codec run_codec_laws 1 recs LZ4 f_zero p _ _ _ _ E).
  - lia.
  - vm_compute. congruence.
  - discriminate.
  - repeat constructor; done.
Defined.

(** C32: seeking in a block skips nothing it should not: on a written block of
    sorted records, opening it, seeking a key and reading to the end gives the
    records of the block from some point on, and every record before that
    point has a smaller key. *)
Theorem block_seek_sound k recs key :
  (0 < k)%nat -> Z.of_nat k <= u32_max -> recs <> [] -> Forall wf_record recs -> wsorted recs ->
  len (logical_block k recs) <= maxBlockSize ->
  exists c c1 c2 j, newLogicalBlockCursor (logical_block k recs) = Some (Ok c) /\
    cursor_seek key c = Some (None, c1) /\
    cursor_drain (S (length recs)) c1 = Some (strip_batch <$> drop j recs, c2) /\ cerr c2 = None /\
    Forall (fun r => Key r < key)%key (take j recs).
Proof.
  intros Hk Hku Hne Hwf Hs Hmax.
  destruct (open_seekable k recs Hk Hku Hne Hwf Hs Hmax) as (c & E & Hat & Hseek).
  destruct (Hseek key) as (c1 & j & E1 & Hat1 & Hlt).
  destruct (cursor_drain_records recs j c1 (S (length recs)) Hat1 Hwf) as (c2 & E2 & Herr);
    [apply (block_count_u32 k recs Hk Hmax) | lia |].
  exists c, c1, c2, j. done.
Qed.

Lemma block_seek_sound_witness :
  let recs := [block_record 1 9 []; block_record 2 7 []; block_record 2 5 []; block_record 3 1 []] in
  exists c c1 c2 j, newLogicalBlockCursor (logical_block 2 recs) = Some (Ok c) /\
    cursor_seek [x03] c = Some (None, c1) /\
    cursor_drain 5 c1 = Some (strip_batch <$> drop j recs, c2) /\ cerr c2 = None /\
    Forall (fun r => Key r < [x03])%key (take j recs).
Proof.
  intros recs. refine (block_seek_sound 2 recs [x03] _ _ _ _ _ _).
  - lia.
  - vm_compute. congruence.
  - discriminate.
  - repeat constructor; done.
  - repeat constructor; done.
  - vm_compute. congruence.
Defined.
