(* ===== verification/Index.v ===== *)
(** * Index, footer and their validation

    Models [internal/sstable/index.go], [footer.go] and [validation.go]: the
    sparse index that maps first keys to blocks, the fixed-size footer that
    locates index and filter, and the checks that make a file's regions
    trustworthy.  A file is the list of its bytes. *)

From S2P Require Export Prelude.

(** ** Index *)

Record IndexEntry := mkIndexEntry {
  FirstKey : bytes;
  Offset : Z;
  Length : Z;
}.

Global Instance IndexEntry_eq_dec : EqDecision IndexEntry.
Proof. solve_decision. Defined.

Definition firstPossibleBlock (index : list IndexEntry) (key : bytes) : Z :=
  if len index =? 0 then -1
  else
    let i := Search (length index) (fun i =>
      match index !! i with Some e => key_leb key (FirstKey e) | None => false end) in
    if (i =? length index)%nat then len index - 1
    else if (0 <? i)%nat then Z.of_nat i - 1
    else 0.

Definition index_entry_bytes (entry : IndexEntry) : bytes :=
  PutUint32 (u32 (len (FirstKey entry))) ++ PutUint64 (Offset entry) ++ PutUint32 (Length entry) ++
  FirstKey entry.

Definition writeIndex (index : list IndexEntry) : bytes :=
  PutUint32 (u32 (len index)) ++ concat (index_entry_bytes <$> index).

Inductive index_error : Type :=
| IndexIO (e : io_error)
| IndexKeyLength.

(** The loop of [decodeIndex], [n] entries left. *)
Fixpoint decode_entries (n : nat) (r : bytes) : result index_error (list IndexEntry * bytes) :=
  match n with
  | O => Ok ([], r)
  | S n =>
      '(header, r) ← map_err IndexIO (ReadFull 16 r);
      let keyLen := Uint32 (slice 0 4 header) in
      let offset := Uint64 (slice 4 12 header) in
      let length_ := Uint32 (slice 12 16 header) in
      _ ← guard_err (len r <? keyLen) IndexKeyLength;
      '(key, r) ← map_err IndexIO (ReadFull (Z.to_nat keyLen) r);
      '(index, r) ← decode_entries n r;
      Ok (mkIndexEntry key offset length_ :: index, r)
  end.

Definition decodeIndex (buf : bytes) : result index_error (list IndexEntry) :=
  '(countBuf, r) ← map_err IndexIO (ReadFull 4 buf);
  let count := Uint32 countBuf in
  '(index, _) ← decode_entries (Z.to_nat count) r;
  Ok index.

(** ** Footer *)

Definition footerSize : Z := 40.
Definition maxIndexSize : Z := 256 * 2 ^ 20.
Definition maxFilterSize : Z := 256 * 2 ^ 20.
Definition legacyVersion : Z := 2.
Definition currentVersion : Z := 3.

(** ["HYPSST"] *)
Definition tableMagic : bytes := map z2b [72; 89; 80; 83; 83; 84].

Record footerMetadata := mkFooter {
  formatVersion : Z;
  indexOffset : Z;
  indexLength : Z;
  filterOffset : Z;
  filterLength : Z;
}.

Inductive footer_error : Type :=
| FooterTooSmall
| FooterMagic
| FooterVersion (v : Z)
| FooterFlags (f : Z)
| FooterIndexOffset (o dataEnd : Z)
| FooterIndexLength (l dataEnd o : Z)
| FooterFilterOffsetNonZero (o : Z)
| FooterIndexEnd (indexEnd dataEnd : Z)
| FooterFilterOffset (o indexEnd : Z)
| FooterFilterBoundary (o dataEnd : Z)
| FooterFilterLength (l dataEnd o : Z)
| FooterFilterEnd (e dataEnd : Z).

Definition writeFooter (indexOffset indexLength filterOffset filterLength : Z) : bytes :=
  PutUint64 indexOffset ++ PutUint64 indexLength ++ PutUint64 filterOffset ++ PutUint64 filterLength ++
  tableMagic ++ [z2b currentVersion; z2b 0].

Definition readFooter (file : bytes) : result footer_error footerMetadata :=
  let fileSize := len file in
  _ ← guard_err (fileSize <? footerSize) FooterTooSmall;
  let footer := drop (length file - 40) file in
  _ ← guard_err (negb (bool_decide (slice 32 38 footer = tableMagic))) FooterMagic;
  let version := le_Z (slice 38 39 footer) in
  _ ← guard_err (negb (version =? legacyVersion) && negb (version =? currentVersion)) (FooterVersion version);
  let flags := le_Z (slice 39 40 footer) in
  _ ← guard_err (negb (flags =? 0)) (FooterFlags flags);
  let indexOffset := Uint64 (slice 0 8 footer) in
  let indexLength := Uint64 (slice 8 16 footer) in
  let filterOffset := Uint64 (slice 16 24 footer) in
  let filterLength := Uint64 (slice 24 32 footer) in
  let dataEnd := u64 (fileSize - footerSize) in
  _ ← guard_err (indexOffset >? dataEnd) (FooterIndexOffset indexOffset dataEnd);
  _ ← guard_err (indexLength >? u64 (dataEnd - indexOffset)) (FooterIndexLength indexLength dataEnd indexOffset);
  let indexEnd := u64 (indexOffset + indexLength) in
  _ ← (if filterLength =? 0 then
         _ ← guard_err (negb (filterOffset =? 0)) (FooterFilterOffsetNonZero filterOffset);
         guard_err (negb (indexEnd =? dataEnd)) (FooterIndexEnd indexEnd dataEnd)
       else
         _ ← guard_err (negb (filterOffset =? indexEnd)) (FooterFilterOffset filterOffset indexEnd);
         _ ← guard_err (filterOffset >? dataEnd) (FooterFilterBoundary filterOffset dataEnd);
         _ ← guard_err (filterLength >? u64 (dataEnd - filterOffset))
               (FooterFilterLength filterLength dataEnd filterOffset);
         guard_err (negb (u64 (filterOffset + filterLength) =? dataEnd))
           (FooterFilterEnd (u64 (filterOffset + filterLength)) dataEnd));
  Ok (mkFooter version indexOffset indexLength filterOffset filterLength).

(** ** Buffer lengths *)

Definition maxInt : Z := 2 ^ 63 - 1.

Inductive length_error : Type :=
| LengthExceeds (n max : Z)
| LengthAllocation (n : Z).

Definition checkedBufferLength (length_ maxLength : Z) : result length_error Z :=
  _ ← guard_err (length_ >? maxLength) (LengthExceeds length_ maxLength);
  _ ← guard_err (length_ >? maxInt) (LengthAllocation length_);
  Ok length_.

(** ** Laws of the index *)

Definition wf_index_entry (e : IndexEntry) : Prop :=
  is_u32 (len (FirstKey e)) /\ is_u64 (Offset e) /\ is_u32 (Length e).

(** The 16 header bytes of an entry and their fields. *)
Lemma index_header_fields kl off ln (Hk : is_u32 kl) (Ho : is_u64 off) (Hl : is_u32 ln)
    (h := PutUint32 kl ++ PutUint64 off ++ PutUint32 ln) :
  length h = 16%nat /\ Uint32 (slice 0 4 h) = kl /\ Uint64 (slice 4 12 h) = off /\ Uint32 (slice 12 16 h) = ln.
Proof.
  unfold h, slice. pose proof (length_PutUint32 kl) as L1. pose proof (length_PutUint32 ln) as L2.
  pose proof (length_PutUint64 off) as L3. split_and!.
  - rewrite !length_app. lia.
  - change (drop 0 ?x) with x. rewrite take_app_length' by done.
    rewrite <- (app_nil_r (PutUint32 kl)). by apply Uint32_PutUint32.
  - rewrite drop_app_length', take_app_length' by lia.
    rewrite <- (app_nil_r (PutUint64 off)). by apply Uint64_PutUint64.
  - rewrite app_assoc, drop_app_length' by (rewrite length_app; lia). rewrite take_ge by lia.
    rewrite <- (app_nil_r (PutUint32 ln)). by apply Uint32_PutUint32.
Qed.

Lemma decode_entries_write index rest :
  Forall wf_index_entry index ->
  decode_entries (length index) (concat (index_entry_bytes <$> index) ++ rest) = Ok (index, rest).
Proof.
  induction 1 as [|e index (Hk & Ho & Hl) _ IH]; [done |]. rewrite fmap_cons. cbn [length decode_entries concat].
  unfold index_entry_bytes at 1. rewrite u32_id by done.
  destruct (index_header_fields _ _ _ Hk Ho Hl) as (L & F1 & F2 & F3). cbv zeta in L, F1, F2, F3.
  rewrite <- !app_assoc, (app_assoc (PutUint64 _)), (app_assoc (PutUint32 _)), ReadFull_app by done. bind_step.
  rewrite F1, F2, F3. cbv zeta. rewrite guard_err_false by (rewrite len_app; pose proof (len_nonneg (concat (index_entry_bytes <$> index) ++ rest)); lia).
  bind_step. rewrite ReadFull_app by (unfold len; lia). bind_step. rewrite IH. by destruct e.
Qed.

Lemma decodeIndex_writeIndex index rest :
  Forall wf_index_entry index -> is_u32 (len index) -> decodeIndex (writeIndex index ++ rest) = Ok index.
Proof.
  intros Hf Hc. unfold decodeIndex, writeIndex. rewrite u32_id, <- app_assoc by done.
  rewrite ReadFull_app by apply length_PutUint32. bind_step.
  rewrite <- (app_nil_r (PutUint32 _)), Uint32_PutUint32 by done.
  replace (Z.to_nat (len index)) with (length index) by (unfold len; lia).
  by rewrite decode_entries_write.
Qed.

(** The first keys do not decrease. *)
Definition index_sorted (index : list IndexEntry) : Prop :=
  StronglySorted (fun a b => FirstKey a <= FirstKey b)%key index.

Lemma index_sorted_lookup index i j a b :
  index_sorted index -> (i < j)%nat -> index !! i = Some a -> index !! j = Some b -> (FirstKey a <= FirstKey b)%key.
Proof.
  intros Hs. revert i j. induction Hs as [|x l Hs IH Hf]; intros [|i] [|j] Hij Ha Hb; try done; try lia.
  - injection Ha as ->. rewrite Forall_lookup in Hf. eauto.
  - apply (IH i j); [lia | done | done].
Qed.

(** The block chosen is the last one whose first key is below the target, or
    the first block. *)
Lemma firstPossibleBlock_spec index key :
  index_sorted index -> index <> [] ->
  exists i, firstPossibleBlock index key = Z.of_nat i /\ (i < length index)%nat /\
    (forall e, (0 < i)%nat -> index !! i = Some e -> (FirstKey e < key)%key) /\
    (forall j e, (i < j)%nat -> index !! j = Some e -> (key <= FirstKey e)%key).
Proof.
  intros Hs Hne. unfold firstPossibleBlock.
  assert (0 < length index)%nat by (destruct index; [done | simpl; lia]).
  destruct (Z.eqb_spec (len index) 0); [unfold len in *; lia |].
  set (ge := fun i => match index !! i with Some e => key_leb key (FirstKey e) | None => false end).
  destruct (Search_spec (length index) ge) as (S1 & S2 & S3).
  { intros a b Hab. unfold ge. destruct (index !! a) as [ea|] eqn:Ea; [| done].
    destruct (index !! b) as [eb|] eqn:Eb; [| apply lookup_ge_None in Eb; lia].
    destruct (decide (a = b)) as [-> |]; [congruence |].
    pose proof (index_sorted_lookup _ a b _ _ Hs ltac:(lia) Ea Eb). intros. key_order. }
  set (s := Search (length index) ge) in *.
  assert (Hlt : forall i e, (i < s)%nat -> index !! i = Some e -> (FirstKey e < key)%key).
  { intros i e Hi He. specialize (S2 i Hi). unfold ge in S2. rewrite He in S2. by key_reflect. }
  assert (Hge : forall i e, (s <= i)%nat -> index !! i = Some e -> (key <= FirstKey e)%key).
  { intros i e Hi He. apply lookup_lt_Some in He as Hl. specialize (S3 i ltac:(lia)). unfold ge in S3. by rewrite He in S3. }
  destruct (Nat.eqb_spec s (length index)) as [Hse | Hse].
  - exists (length index - 1)%nat. split_and!; [unfold len; lia | lia | |].
    + intros e _ He. apply (Hlt (length index - 1)%nat); [lia | done].
    + intros j e Hj He. apply lookup_lt_Some in He. lia.
  - destruct (Nat.ltb_spec 0 s).
    + exists (s - 1)%nat. split_and!; [lia | lia | |].
      * intros e _ He. apply (Hlt (s - 1)%nat); [lia | done].
      * intros j e Hj He. apply (Hge j); [lia | done].
    + exists 0%nat. split_and!; [done | lia | lia |]. intros j e Hj He. apply (Hge j); [lia | done].
Qed.

(** ** Laws of the footer *)

(** The regions of a file with a valid footer. *)
Definition footer_ok (file : bytes) (m : footerMetadata) : Prop :=
  let dataEnd := len file - footerSize in
  0 <= indexOffset m /\ 0 <= indexLength m /\ 0 <= filterLength m /\
  (if filterLength m =? 0 then filterOffset m = 0 /\ indexOffset m + indexLength m = dataEnd
   else filterOffset m = indexOffset m + indexLength m /\ filterOffset m + filterLength m = dataEnd) /\
  (formatVersion m = legacyVersion \/ formatVersion m = currentVersion).

Lemma u64_sub_id a b : 0 <= b <= a -> a <= u64_max -> u64 (a - b) = a - b.
Proof. intros. apply u64_id. unfold is_u64. lia. Qed.

(** The footer the writer appends to its regions is accepted and gives them
    back. *)
Lemma readFooter_written body io il fo fl :
  is_u64 io -> is_u64 il -> is_u64 fo -> is_u64 fl -> len body + footerSize <= u64_max ->
  footer_ok (body ++ writeFooter io il fo fl) (mkFooter currentVersion io il fo fl) ->
  readFooter (body ++ writeFooter io il fo fl) = Ok (mkFooter currentVersion io il fo fl).
Proof.
  intros H1 H2 H3 H4 Hu. unfold footer_ok, readFooter.
  cbn [indexOffset indexLength filterOffset filterLength formatVersion].
  set (f := writeFooter io il fo fl).
  assert (Lf : length f = 40%nat) by (unfold f, writeFooter; rewrite !length_app, !length_PutUint64; done).
  assert (Hl : len (body ++ f) = len body + 40) by (rewrite len_app; unfold len; lia).
  assert (Ef : drop (length (body ++ f) - 40) (body ++ f) = f)
    by (rewrite length_app, drop_app_length'; [done | lia]).
  assert (Hf : slice 32 38 f = tableMagic /\ slice 38 39 f = [z2b currentVersion] /\ slice 39 40 f = [z2b 0] /\
    Uint64 (slice 0 8 f) = io /\ Uint64 (slice 8 16 f) = il /\ Uint64 (slice 16 24 f) = fo /\
    Uint64 (slice 24 32 f) = fl).
  { pose proof (length_PutUint64 io) as L1. pose proof (length_PutUint64 il) as L2.
    pose proof (length_PutUint64 fo) as L3. pose proof (length_PutUint64 fl) as L4.
    assert (Hr : forall z, is_u64 z -> Uint64 (PutUint64 z) = z).
    { intros z Hz. rewrite <- (app_nil_r (PutUint64 z)). by apply Uint64_PutUint64. }
    split_and!; try done; unfold f, writeFooter, slice.
    - change (drop 0 ?x) with x. rewrite take_app_length' by done. auto.
    - rewrite drop_app_length', take_app_length' by done. auto.
    - rewrite app_assoc, drop_app_length', take_app_length' by (rewrite ?length_app; lia). auto.
    - rewrite 2!app_assoc, drop_app_length', take_app_length' by (rewrite ?length_app; lia). auto. }
  destruct Hf as (F1 & F2 & F3 & F4 & F5 & F6 & F7).
  cbv zeta. rewrite Ef, F1, F2, F3, F4, F5, F6, F7, Hl. intros (P1 & P2 & P3 & P4 & _).
  pose proof (len_nonneg body). unfold footerSize, is_u64 in *.
  rewrite (u64_sub_id (len body + 40) 40) by lia.
  change (le_Z [z2b currentVersion]) with currentVersion. change (le_Z [z2b 0]) with 0.
  rewrite bool_decide_true by done.
  assert (Hio : io <= len body /\ il <= len body - io) by (destruct (fl =? 0); lia).
  rewrite (u64_sub_id (len body + 40 - 40) io) by lia. rewrite (u64_id (io + il)) by (unfold is_u64; lia).
  rewrite (guard_err_false FooterTooSmall) by lia. bind_step. rewrite (guard_err_false FooterMagic) by done. bind_step.
  rewrite (guard_err_false (FooterVersion _)) by done. bind_step. rewrite (guard_err_false (FooterFlags _)) by done. bind_step.
  rewrite (guard_err_false (FooterIndexOffset _ _)) by lia. bind_step.
  rewrite (guard_err_false (FooterIndexLength _ _ _)) by lia. bind_step.
  destruct (fl =? 0).
  - by rewrite !guard_err_false by lia.
  - rewrite (u64_sub_id (len body + 40 - 40) fo), (u64_id (fo + fl)) by (unfold is_u64; lia).
    by rewrite !guard_err_false by lia.
Qed.

(** C39: an accepted footer is safe to follow.  The index and the filter lie
    inside the file before the footer, adjacent and without overlap, and none
    of the 64-bit sums in the checks wraps around. *)
Theorem footer_regions_safe file m : len file <= u64_max -> readFooter file = Ok m -> footer_ok file m.
Proof.
  intros Hu H. unfold readFooter in H. cbv zeta in H.
  set (f := drop (length file - 40) file) in *.
  pose proof (Uint64_range (slice 0 8 f)) as R1. pose proof (Uint64_range (slice 8 16 f)) as R2.
  pose proof (Uint64_range (slice 16 24 f)) as R3. pose proof (Uint64_range (slice 24 32 f)) as R4.
  set (io := Uint64 (slice 0 8 f)) in *. set (il := Uint64 (slice 8 16 f)) in *.
  set (fo := Uint64 (slice 16 24 f)) in *. set (fl := Uint64 (slice 24 32 f)) in *.
  set (v := le_Z (slice 38 39 f)) in *. clearbody io il fo fl v. unfold is_u64 in *.
  bind_inv H. rename Hx5 into Hr. injection H as <-. unfold footerSize in *.
  rewrite (u64_sub_id (len file) 40) in * by lia.
  rewrite (u64_sub_id (len file - 40) io) in Hx4 by lia.
  rewrite (u64_id (io + il)) in Hr by (unfold is_u64; lia).
  unfold footer_ok, footerSize. cbn [indexOffset indexLength filterOffset filterLength formatVersion]. split_and!; try lia.
  - destruct (fl =? 0); bind_inv Hr; apply guard_err_Ok in Hr; [lia |].
    rewrite u64_sub_id in Hx7 by lia. rewrite u64_id in Hr by (unfold is_u64; lia). lia.
Qed.

Lemma footer_regions_safe_witness :
  footer_ok (replicate 10 x00 ++ writeFooter 2 3 5 5) (mkFooter currentVersion 2 3 5 5).
Proof. apply footer_regions_safe; vm_compute; congruence. Defined.
