(* ===== verification/Writer.v ===== *)
(** * Writing an SSTable

    Models [internal/sstable/options.go] and [writer.go].  The writer consumes
    a record iterator and produces the bytes of the file and the metadata of
    the table; the calls to the operating system around it (create, sync,
    close and rename of the temporary file) are taken to succeed, a failing
    one makes the code return its error before the table is visible.  [None]
    is a panic in the filter or an iterator that did not stop within the
    fuel. *)

From S2P Require Export MemTable BlockLayout Index.
From S2P Require Import Crc32 Float64 Bloom.

(** ** Options *)

Record BloomFilterOptions := mkBloomOptions { Enabled : bool; FalsePositiveRate : float64 }.

Record WriteOptions := mkWriteOptions {
  BlockSize : Z;
  RestartInterval : Z;
  CompressionType : Z;
  MinCompressionSavingsRate : float64;
  BloomOptions : BloomFilterOptions;
}.

Definition DefaultBlockSize : Z := 64 * 1024.
Definition DefaultRestartInterval : Z := 16.
(** 0.01 and 0.125 *)
Definition DefaultFalsePositiveRate : float64 := S754_finite false 0x147ae147ae147b (-59).
Definition DefaultMinCompressionSavingsRate : float64 := f_div (f_of_Z 1) (f_of_Z 8).

Definition DefaultWriteOptions : WriteOptions :=
  mkWriteOptions DefaultBlockSize DefaultRestartInterval LZ4 DefaultMinCompressionSavingsRate
    (mkBloomOptions true DefaultFalsePositiveRate).

Inductive sst_error : Type :=
| BadRestartInterval (n : Z)
| BadSavingsRate
| BadCompressionType (t : Z)
| BadFalsePositiveRate
| FilterError (e : bloom_error)
| UnsortedKey (previous key : bytes)
| UnsortedSeq (seq previous : Z)
| BlockError (e : block_error)
| IteratorError.

Definition f_is_nan (f : float64) : bool := match f with S754_nan => true | _ => false end.

Definition normalizeWriteOptions (opts : WriteOptions) : result sst_error WriteOptions :=
  let blockSize := if BlockSize opts <=? 0 then DefaultBlockSize else BlockSize opts in
  let interval := if RestartInterval opts <=? 0 then DefaultRestartInterval else RestartInterval opts in
  _ ← guard_err (interval >? u32_max) (BadRestartInterval interval);
  let rate := MinCompressionSavingsRate opts in
  _ ← guard_err (f_ltb rate f_zero || f_leb f_one rate) BadSavingsRate;
  _ ← guard_err (negb (CompressionType opts =? None_) && negb (CompressionType opts =? LZ4))
        (BadCompressionType (CompressionType opts));
  let fpr := FalsePositiveRate (BloomOptions opts) in
  _ ← guard_err (Enabled (BloomOptions opts) && (f_is_nan fpr || f_leb fpr f_zero || f_leb f_one fpr))
        BadFalsePositiveRate;
  Ok (mkWriteOptions blockSize interval (CompressionType opts) rate (BloomOptions opts)).

(** ** The writer's local state *)

Record wstate := mkW {
  w_file : bytes;
  w_index : list IndexEntry;
  w_logical : bytes;
  w_restarts : list Z;
  w_count : Z;
  w_blockFirstKey : bytes;
  w_previousKey : bytes;
  w_previousSeq : Z;
  w_smallestKey : bytes;
  w_largestKey : bytes;
  w_first : bool;
  w_filter : option Filter;
}.

Definition w_init (filter : option Filter) : wstate :=
  mkW [] [] [] [] 0 [] [] 0 [] [] true filter.

(** The table a writer returns. *)
Record table_meta := mkTableMeta {
  tm_SizeBytes : Z;
  tm_SmallestKey : bytes;
  tm_LargestKey : bytes;
  tm_index : list IndexEntry;
  tm_filter : option Filter;
}.

Definition startBlock (firstKey : bytes) (w : wstate) : wstate :=
  mkW (w_file w) (w_index w) [x00; x00; x00; x00] [] 0 firstKey
    (w_previousKey w) (w_previousSeq w) (w_smallestKey w) (w_largestKey w) (w_first w) (w_filter w).

Section writer.
Context {lz : LZ4Codec} (Hash128 : bytes -> Z * Z) (math_Log : float64 -> float64)
        (conv_undefined : float64 -> Z).

Definition flushBlock (opts : WriteOptions) (w : wstate) : result sst_error wstate :=
  if w_count w =? 0 then Ok w
  else
    let logical := PutUint32 (u32 (w_count w)) ++ drop 4 (w_logical w) ++
      concat (PutUint32 <$> w_restarts w) ++
      PutUint32 (u32 (RestartInterval opts)) ++ PutUint32 (u32 (len (w_restarts w))) in
    physical ← map_err BlockError
      (encodePhysicalBlock logical (CompressionType opts) (MinCompressionSavingsRate opts));
    let offset := len (w_file w) in
    Ok (mkW (w_file w ++ physical)
          (w_index w ++ [mkIndexEntry (w_blockFirstKey w) offset (u32 (len physical))])
          [] [] 0 []
          (w_previousKey w) (w_previousSeq w) (w_smallestKey w) (w_largestKey w) (w_first w) (w_filter w)).

(** The order check of the loop. *)
Definition check_order (w : wstate) (rec : record) : result sst_error unit :=
  _ ← guard_err (negb (w_first w) && key_ltb (Key rec) (w_previousKey w))
        (UnsortedKey (w_previousKey w) (Key rec));
  guard_err (negb (w_first w) && key_eqb (w_previousKey w) (Key rec) && (w_previousSeq w <? Seq rec))
    (UnsortedSeq (Seq rec) (w_previousSeq w)).

(** The bookkeeping of the loop: the keys seen and the filter. *)
Definition note_record (filterEnabled : bool) (rec : record) (w : wstate) : option wstate :=
  filter ← (if filterEnabled then
              match w_filter w with
              | Some f => f ← Add Hash128 (Key rec) f; Some (Some f)
              | None => None
              end
            else Some (w_filter w));
  Some (mkW (w_file w) (w_index w) (w_logical w) (w_restarts w) (w_count w) (w_blockFirstKey w)
          (Key rec) (Seq rec) (if w_first w then Key rec else w_smallestKey w) (Key rec) false filter).

(** The record is appended to the current block. *)
Definition append_record (addsRestart : bool) (rec : record) (w : wstate) : wstate :=
  mkW (w_file w) (w_index w) (w_logical w ++ EncodeBinary rec)
    (if addsRestart then w_restarts w ++ [u32 (len (w_logical w))] else w_restarts w)
    (w_count w + 1) (w_blockFirstKey w)
    (w_previousKey w) (w_previousSeq w) (w_smallestKey w) (w_largestKey w) (w_first w) (w_filter w).

(** The second half of the loop body: make room, then append. *)
Definition place_record (opts : WriteOptions) (rec : record) (w : wstate) : result sst_error wstate :=
  let w := if w_count w =? 0 then startBlock (Key rec) w else w in
  let recSize := EncodedSize rec in
  let addsRestart := w_count w mod RestartInterval opts =? 0 in
  let restartCount := len (w_restarts w) + (if addsRestart then 1 else 0) in
  let projectedSize := len (w_logical w) + recSize + restartCount * 4 + 8 in
  if (w_count w >? 0) && (projectedSize >? BlockSize opts) then
    w ← flushBlock opts w;
    Ok (append_record true rec (startBlock (Key rec) w))
  else Ok (append_record addsRestart rec w).

Definition write_record (opts : WriteOptions) (filterEnabled : bool) (rec : record) (w : wstate)
    : option (result sst_error wstate) :=
  match check_order w rec with
  | Err e => Some (Err e)
  | Ok _ => w ← note_record filterEnabled rec w; Some (place_record opts rec w)
  end.

(** [for it.Next() { ... }] followed by the check of [it.Err()]. *)
Fixpoint write_loop {E I} `{!RecordIterator E I} (fuel : nat) (opts : WriteOptions) (filterEnabled : bool)
    (it : I) (w : wstate) : option (result sst_error wstate) :=
  match fuel with
  | O => None
  | S fuel =>
      '(ok, it) ← it_next it;
      if (ok : bool) then
        r ← write_record opts filterEnabled (it_record it) w;
        match r with
        | Err e => Some (Err e)
        | Ok w => write_loop fuel opts filterEnabled it w
        end
      else Some (match it_err it with Some _ => Err IteratorError | None => Ok w end)
  end.

(** After the loop: the last block, the index, the filter and the footer. *)
Definition finish (opts : WriteOptions) (w : wstate) : result sst_error (table_meta * bytes) :=
  w ← flushBlock opts w;
  let indexOffset := len (w_file w) in
  let file := w_file w ++ writeIndex (w_index w) in
  let indexLength := len file - indexOffset in
  '(file, filterOffset, filterLength) ←
    match w_filter w with
    | None => Ok (file, 0, 0)
    | Some f =>
        encodedFilter ← map_err FilterError (Encode (Some f));
        Ok (file ++ encodedFilter, len file, len encodedFilter)
    end;
  let file := file ++ writeFooter indexOffset indexLength filterOffset filterLength in
  Ok (mkTableMeta (len file) (w_smallestKey w) (w_largestKey w) (w_index w) (w_filter w), file).

Definition CreateFromIteratorWithOptions {E I} `{!RecordIterator E I} (fuel : nat) (it : I)
    (recordCountHint : Z) (opts : WriteOptions) : option (result sst_error (table_meta * bytes)) :=
  match normalizeWriteOptions opts with
  | Err e => Some (Err e)
  | Ok opts =>
      let filterEnabled := Enabled (BloomOptions opts) && (recordCountHint >? 0) in
      let created :=
        if filterEnabled
        then map_err FilterError
               (f ← New math_Log conv_undefined recordCountHint (FalsePositiveRate (BloomOptions opts));
                Ok (Some f))
        else Ok None in
      match created with
      | Err e => Some (Err e)
      | Ok filter =>
          r ← write_loop fuel opts filterEnabled it (w_init filter);
          Some (w ← r; finish opts w)
      end
  end.

(** ** The slice iterator *)

Record sliceIterator := mkSlice { sl_records : list record; sl_index : Z; sl_current : record }.

Definition newSliceIterator (records : list record) : sliceIterator := mkSlice records (-1) zero_record.

Definition slice_Next (it : sliceIterator) : option (bool * sliceIterator) :=
  let i := sl_index it + 1 in
  if i >=? len (sl_records it) then Some (false, mkSlice (sl_records it) i (sl_current it))
  else r ← sl_records it !! Z.to_nat i; Some (true, mkSlice (sl_records it) i r).

(** It has no [Seek]; the writer does not use one. *)
Local Instance slice_iterator : RecordIterator Empty_set sliceIterator := {|
  it_next := slice_Next;
  it_record := sl_current;
  it_err := fun _ => None;
  it_seek := fun _ _ => None;
|}.

Definition CreateFromRecordsWithOptions (records : list record) (opts : WriteOptions)
    : option (result sst_error (table_meta * bytes)) :=
  CreateFromIteratorWithOptions (S (length records)) (newSliceIterator records) (len records) opts.

Definition CreateFromRecords (records : list record) (blockSize : Z)
    : option (result sst_error (table_meta * bytes)) :=
  CreateFromRecordsWithOptions records
    (mkWriteOptions blockSize DefaultRestartInterval LZ4 DefaultMinCompressionSavingsRate
       (mkBloomOptions true DefaultFalsePositiveRate)).

(** The iterator stops after the records of the table, fewer than its nodes. *)
Definition CreateFromMemTableWithOptions (mt : MemTable) (opts : WriteOptions)
    : option (result sst_error (table_meta * bytes)) :=
  it ← MemTable_Iterator mt;
  CreateFromIteratorWithOptions (S (length (SkipList.arena (data mt)))) it (MemTable_Len mt) opts.

Definition CreateFromMemTable (mt : MemTable) : option (result sst_error (table_meta * bytes)) :=
  CreateFromMemTableWithOptions mt DefaultWriteOptions.
End writer.
