(* ===== verification/TableLayout.v ===== *)
(** * The layout of a written table

    The abstract content of an SSTable file - a list of blocks, each with its
    records and its stored bytes, then index, filter and footer - and the
    proof that the writer of [Writer] produces it from the records it is
    given. *)

From S2P Require Export Writer.
From S2P Require Import Crc32 Float64 Bloom.

(** A block: its records and the bytes stored for them. *)
Abbreviation block := (list record * bytes)%type.

Definition first_key (recs : list record) : bytes :=
  match recs with r :: _ => Key r | [] => [] end.

(** The index entries of blocks stored from an offset on. *)
Fixpoint index_for (off : Z) (bs : list block) : list IndexEntry :=
  match bs with
  | [] => []
  | (recs, p) :: bs => mkIndexEntry (first_key recs) off (len p) :: index_for (off + len p) bs
  end.

Definition bs_records (bs : list block) : list record := concat bs.*1.
Definition bs_bytes (bs : list block) : bytes := concat bs.*2.

Section stored.
Context {lz : LZ4Codec}.

(** [p] is what the writer stores for [recs]. *)
Definition stored (opts : WriteOptions) (b : block) : Prop :=
  b.1 <> [] /\
  encodePhysicalBlock (logical_block (Z.to_nat (RestartInterval opts)) b.1)
    (CompressionType opts) (MinCompressionSavingsRate opts) = Ok b.2.
End stored.

(** ** Restart tables grow with the block *)

Lemma offset_of_app cur r i : (i <= length cur)%nat -> offset_of (cur ++ r) i = offset_of cur i.
Proof. intros H. unfold offset_of. by rewrite take_app_le. Qed.

Lemma restart_table_snoc k cur r :
  (0 < k)%nat ->
  restart_table k (cur ++ [r]) =
  restart_table k cur ++ (if (length cur mod k =? 0)%nat then [offset_of cur (length cur)] else []).
Proof.
  intros Hk. unfold restart_table. rewrite length_app. cbn [length].
  set (n := length cur). replace (n + 1 + k - 1)%nat with (n + 1 * k)%nat by lia.
  rewrite Nat.div_add by lia.
  pose proof (Nat.div_mod n k ltac:(lia)) as Hdm. pose proof (Nat.mod_upper_bound n k ltac:(lia)) as Hm.
  assert (Hext : forall m, (m <= n / k + (if (n mod k =? 0)%nat then 0 else 1))%nat ->
    (fun j => offset_of (cur ++ [r]) (j * k)) <$> seq 0 m = (fun j => offset_of cur (j * k)) <$> seq 0 m).
  { intros m Hle. apply list_fmap_ext. intros i j Hj. apply lookup_seq in Hj as [-> Hj]. simpl.
    apply offset_of_app. fold n. destruct (Nat.eqb_spec (n mod k) 0); nia. }
  destruct (Nat.eqb_spec (n mod k) 0) as [Hz | Hz].
  - replace ((n + k - 1) / k)%nat with (n / k)%nat.
    + rewrite Nat.add_1_r, seq_S, fmap_app, Hext by lia. f_equal. simpl.
      replace (n / k * k)%nat with n by lia. by rewrite offset_of_app by (fold n; lia).
    + apply (Nat.div_unique _ _ (n / k) (k - 1)); lia.
  - replace ((n + k - 1) / k)%nat with (n / k + 1)%nat.
    + rewrite app_nil_r. apply Hext. lia.
    + apply (Nat.div_unique _ _ (n / k + 1) (n mod k - 1)); lia.
Qed.

(** ** The invariant of the writer's loop *)

Section writer_proofs.
Context {lz : LZ4Codec} (Hash128 : bytes -> Z * Z) (opts : WriteOptions).
Context (Hint : 0 < RestartInterval opts <= u32_max).

Local Abbreviation k := (Z.to_nat (RestartInterval opts)).

(** Blocks written so far, and the records of the block being filled. *)
Record wrote (bs : list block) (cur : list record) (w : wstate) : Prop := mkWrote {
  wr_stored : Forall (stored opts) bs;
  wr_file : w_file w = bs_bytes bs;
  wr_index : w_index w = index_for 0 bs;
  wr_count : w_count w = len cur;
  wr_cur : cur <> [] ->
    w_logical w = [x00; x00; x00; x00] ++ encode_records cur /\
    w_restarts w = u32 <$> restart_table k cur /\ w_blockFirstKey w = first_key cur;
}.

Lemma index_for_app off bs b :
  index_for off (bs ++ [b]) =
  index_for off bs ++ [mkIndexEntry (first_key b.1) (off + len (bs_bytes bs)) (len b.2)].
Proof.
  unfold bs_bytes. revert off. induction bs as [|[recs p] bs IH]; intros off; destruct b as [rb pb]; simpl.
  - change (len []) with 0. by rewrite Z.add_0_r.
  - rewrite IH, len_app. cbn [fst snd]. by rewrite Z.add_assoc.
Qed.

Lemma bs_bytes_snoc bs b : bs_bytes (bs ++ [b]) = bs_bytes bs ++ b.2.
Proof. unfold bs_bytes. rewrite fmap_app, concat_app. simpl. by rewrite app_nil_r. Qed.

Lemma bs_records_snoc bs b : bs_records (bs ++ [b]) = bs_records bs ++ b.1.
Proof. unfold bs_records. rewrite fmap_app, concat_app. simpl. by rewrite app_nil_r. Qed.

Lemma encodePhysicalBlock_len logical codec rate p :
  encodePhysicalBlock logical codec rate = Ok p -> 9 <= len p <= len logical + 9.
Proof.
  unfold encodePhysicalBlock. intros He. bind_inv He. apply Ok_inj in He. subst p.
  rewrite !len_app, !len_PutUint32. change (len [z2b z]) with 1. pose proof (len_nonneg l).
  assert (len l <= len logical); [| lia].
  destruct (negb _); [| injection Hx0 as <- <-; lia]. bind_inv Hx0.
  destruct (shouldCompress _ _ _) eqn:E; injection Hx0 as <- <-; [| lia].
  apply shouldCompress_smaller in E. lia.
Qed.

(** Flushing turns the current records into a stored block. *)
Lemma flushBlock_wrote bs cur w w' :
  wrote bs cur w -> flushBlock opts w = Ok w' ->
  exists bs', wrote bs' [] w' /\ bs_records bs' = bs_records bs ++ cur /\
    w_previousKey w' = w_previousKey w /\ w_previousSeq w' = w_previousSeq w /\
    w_smallestKey w' = w_smallestKey w /\ w_largestKey w' = w_largestKey w /\
    w_first w' = w_first w /\ w_filter w' = w_filter w.
Proof.
  intros [Hs Hf Hi Hc Hcur] Hfl. unfold flushBlock in Hfl.
  destruct (Z.eqb_spec (w_count w) 0) as [E0 | E0].
  { injection Hfl as <-. assert (cur = []) as -> by (destruct cur; [done | unfold len in *; simpl in *; lia]).
    exists bs. rewrite app_nil_r. split_and!; done. }
  assert (Hne : cur <> []) by (intros ->; unfold len in *; simpl in *; lia).
  destruct (Hcur Hne) as (Hl & Hr & Hk). bind_inv Hfl. rename x into p. apply Ok_inj in Hfl. subst w'.
  rename Hx into Hp. rewrite Hl, Hr, Hc, Hk in *.
  change (drop 4 ([x00; x00; x00; x00] ++ encode_records cur)) with (encode_records cur) in Hp.
  assert (Hlog : PutUint32 (u32 (len cur)) ++ encode_records cur ++
      concat (PutUint32 <$> (u32 <$> restart_table k cur)) ++
      PutUint32 (u32 (RestartInterval opts)) ++ PutUint32 (u32 (len (u32 <$> restart_table k cur))) =
    logical_block k cur).
  { pose proof (encodePhysicalBlock_size _ _ _ _ Hp) as Hsz.
    rewrite !len_app in Hsz. rewrite !len_PutUint32 in Hsz.
    assert (Hrl : len (u32 <$> restart_table k cur) = len (restart_table k cur)) by (unfold len; by rewrite length_fmap).
    assert (Hrb : len (concat (PutUint32 <$> (u32 <$> restart_table k cur))) = 4 * len (restart_table k cur)).
    { unfold len. pose proof (restart_bytes_length (u32 <$> restart_table k cur)) as Hb. unfold restart_bytes in Hb.
      rewrite Hb, length_fmap. lia. }
    rewrite Hrb in Hsz. pose proof (encode_records_len cur) as Hel. pose proof (len_nonneg (restart_table k cur)).
    pose proof (len_nonneg cur). unfold HeaderSize, maxBlockSize in *.
    assert (Hid : u32 <$> restart_table k cur = restart_table k cur).
    { unfold restart_table. rewrite <- list_fmap_compose. apply list_fmap_ext. intros i j _. cbn.
      apply u32_id. unfold offset_of, is_u32, u32_max.
      pose proof (encode_records_app (take (j * k) cur) (drop (j * k) cur)) as Ha. rewrite take_drop in Ha.
      rewrite Ha, len_app in Hsz. pose proof (len_nonneg (encode_records (take (j * k) cur))).
      pose proof (len_nonneg (encode_records (drop (j * k) cur))). lia. }
    unfold logical_block, restart_bytes. rewrite Hid, Z2Nat.id by lia.
    by rewrite !u32_id by (unfold is_u32, u32_max in *; lia). }
  rewrite Hlog in Hp. pose proof (encodePhysicalBlock_len _ _ _ _ Hp) as Hpl.
  pose proof (encodePhysicalBlock_size _ _ _ _ Hp) as Hps.
  exists (bs ++ [(cur, p)]). split; [| by rewrite bs_records_snoc].
  constructor; cbn [w_file w_index w_count].
  - apply Forall_app. split; [done |]. constructor; [done | constructor].
  - by rewrite bs_bytes_snoc, Hf.
  - rewrite index_for_app, Hi, Hf, Z.add_0_l. rewrite u32_id; [done |].
    unfold is_u32, u32_max, maxBlockSize in *. lia.
  - done.
  - done.
Qed.

Lemma adds_restart (cur : list record) :
  (len cur mod RestartInterval opts =? 0) = (length cur mod k =? 0)%nat.
Proof.
  unfold len. rewrite <- (Z2Nat.id (RestartInterval opts)) at 1 by lia.
  rewrite <- Nat2Z.inj_mod. destruct (Nat.eqb_spec (length cur mod k) 0); lia.
Qed.

(** A block that has been started holds [cur]. *)
Definition filling (cur : list record) (firstKey : bytes) (w : wstate) : Prop :=
  w_count w = len cur /\ w_logical w = [x00; x00; x00; x00] ++ encode_records cur /\
  w_restarts w = u32 <$> restart_table k cur /\ w_blockFirstKey w = firstKey.

Lemma startBlock_filling key w : filling [] key (startBlock key w).
Proof.
  unfold filling, restart_table. cbn [length]. rewrite Nat.div_small by lia. done.
Qed.

Lemma append_wrote bs cur rec w :
  wrote bs cur w -> filling cur (first_key (cur ++ [rec])) w ->
  wrote bs (cur ++ [rec]) (append_record (len cur mod RestartInterval opts =? 0) rec w).
Proof.
  intros [Hs Hf Hi Hc _] (Hc' & Hl & Hr & Hk). constructor; cbn; try done.
  - rewrite Hc, len_app. done.
  - intros _. split_and!; [| | done].
    + rewrite Hl, encode_records_app, <- app_assoc. unfold encode_records at 3. simpl. by rewrite app_nil_r.
    + rewrite restart_table_snoc, <- adds_restart by lia.
      destruct (len cur mod RestartInterval opts =? 0); [| by rewrite app_nil_r].
      rewrite fmap_app, Hr. f_equal. rewrite Hl. unfold offset_of. rewrite take_ge by lia. by rewrite len_app.
Qed.

Lemma startBlock_wrote bs key w : wrote bs [] w -> wrote bs [] (startBlock key w).
Proof. intros [Hs Hf Hi Hc _]. by constructor. Qed.

Lemma wrote_filling bs cur rec w :
  wrote bs cur w -> cur <> [] -> filling cur (first_key (cur ++ [rec])) w.
Proof.
  intros [_ _ _ Hc Hcur] Hne. destruct (Hcur Hne) as (Hl & Hr & Hk). split_and!; try done.
  rewrite Hk. by destruct cur.
Qed.

(** The keys, the filter and the position bookkeeping are untouched. *)
Definition same_notes (w w' : wstate) : Prop :=
  w_previousKey w' = w_previousKey w /\ w_previousSeq w' = w_previousSeq w /\
  w_smallestKey w' = w_smallestKey w /\ w_largestKey w' = w_largestKey w /\
  w_first w' = w_first w /\ w_filter w' = w_filter w.

Lemma place_record_wrote bs cur rec w w' :
  wrote bs cur w -> place_record opts rec w = Ok w' ->
  exists bs' cur', wrote bs' cur' w' /\ bs_records bs' ++ cur' = (bs_records bs ++ cur) ++ [rec] /\ cur' <> [] /\
    same_notes w w'.
Proof.
  intros Hw. unfold place_record. cbv zeta.
  destruct (Z.eqb_spec (w_count w) 0) as [E0 | E0].
  - assert (cur = []) as -> by (destruct cur; [done |]; rewrite (wr_count _ _ _ Hw) in E0; unfold len in E0; simpl in E0; lia).
    cbn [w_count startBlock]. simpl andb. intros Hp. apply Ok_inj in Hp. subst w'.
    exists bs, [rec]. split_and!; [| by rewrite app_nil_r | done | done].
    apply (append_wrote bs [] rec); [by apply startBlock_wrote | apply startBlock_filling].
  - assert (Hne : cur <> []) by (intros ->; by rewrite (wr_count _ _ _ Hw) in E0).
    destruct (_ && _).
    + intros Hp. apply bind_Ok_inv in Hp as (w1 & Hfl & Hp). apply Ok_inj in Hp. subst w'.
      destruct (flushBlock_wrote _ _ _ _ Hw Hfl) as (bs' & Hw1 & Hr & N).
      exists bs', [rec]. split_and!; [| by rewrite Hr | done | done].
      apply (append_wrote bs' [] rec); [by apply startBlock_wrote | apply startBlock_filling].
    + intros Hp. apply Ok_inj in Hp. subst w'. exists bs, (cur ++ [rec]).
      split_and!; [| by rewrite app_assoc | by destruct cur | done].
      rewrite (wr_count _ _ _ Hw). apply append_wrote; [done |]. by eapply wrote_filling.
Qed.

(** ** Order and keys *)

Lemma wsorted_snoc l r :
  wsorted (l ++ [r]) <-> wsorted l /\ (forall x, last l = Some x -> rec_le x r).
Proof.
  induction l as [|a l IH]; simpl.
  - split; [intros _; split; [constructor | done] | intros _; repeat constructor].
  - split.
    + intros H. inversion H as [|? ? Hs Hf]; subst. apply IH in Hs as [Hs Hl].
      apply Forall_app in Hf as [Hf1 Hf2]. split; [by constructor |].
      intros x Hx. destruct l as [|b l]; [|by auto].
      injection Hx as <-. by apply Forall_cons in Hf2 as [Hf2 _].
    + intros [Hs Hl]. inversion Hs as [|? ? Hs' Hf]; subst. constructor.
      * apply IH. split; [done |]. intros x Hx. apply Hl. destruct l; [done |]. exact Hx.
      * apply Forall_app. split; [done |]. apply Forall_singleton.
        destruct (last l) as [x|] eqn:E.
        -- transitivity x; [| apply Hl; destruct l; [done |]; exact E].
           rewrite Forall_forall in Hf. apply Hf. by eapply last_Some_elem_of.
        -- apply last_None in E. subst l. by apply Hl.
Qed.

(** The keys noted are those of the records seen. *)
Record noted (l : list record) (w : wstate) : Prop := mkNoted {
  nt_first : w_first w = bool_decide (l = []);
  nt_last x : last l = Some x ->
    w_previousKey w = Key x /\ w_previousSeq w = Seq x /\ w_largestKey w = Key x;
  nt_head x : head l = Some x -> w_smallestKey w = Key x;
}.

Lemma check_order_Ok l w rec :
  noted l w -> is_Ok (check_order w rec) <-> (forall x, last l = Some x -> rec_le x rec).
Proof.
  intros [Hf Hl _]. unfold check_order. destruct l as [|a l].
  - rewrite Hf. simpl. split; [done | by eexists].
  - rewrite Hf, bool_decide_false by done. simpl negb. cbn [andb].
    destruct (last (a :: l)) as [x|] eqn:E; [| by apply last_None in E].
    destruct (Hl x eq_refl) as (-> & -> & _). unfold rec_le.
    split.
    + intros [u Hu]. bind_inv Hu. apply guard_err_Ok in Hu. intros y [= <-].
      apply less_false_iff. destruct (key_lt_total (Key x) (Key rec)) as [Hk | [Hk | Hk]].
      * by left.
      * right. split; [done |]. rewrite Hk, key_eqb_refl in Hu. simpl in Hu. lia.
      * key_order.
    + intros H. specialize (H x eq_refl). apply less_false_iff in H. exists tt.
      rewrite (guard_err_false (UnsortedKey _ _)); [bind_step; rewrite guard_err_false; [done |] |].
      * destruct H as [H | [H H']].
        -- replace (key_eqb (Key x) (Key rec)) with false; [done |]. symmetry. apply key_eqb_neq. intros He.
           rewrite He in H. key_order.
        -- rewrite H, key_eqb_refl. simpl. lia.
      * destruct H as [H | [H H']]; [key_order |]. rewrite H. key_order.
Qed.

Definition filtered (en : bool) (f0 : option Filter) (l : list record) (w : wstate) : Prop :=
  if en then exists f f', f0 = Some f /\ Add_all Hash128 (Key <$> l) f = Some f' /\ w_filter w = Some f'
  else w_filter w = f0.

Lemma Add_all_snoc keys key f :
  Add_all Hash128 (keys ++ [key]) f = Add_all Hash128 keys f ≫= Add Hash128 key.
Proof.
  revert f. induction keys as [|a keys IH]; intros f; simpl.
  - destruct (Add Hash128 key f); done.
  - destruct (Add Hash128 a f); simpl; [apply IH | done].
Qed.

Lemma note_record_spec en f0 l rec w :
  noted l w -> filtered en f0 l w -> (forall f, f0 = Some f -> wf_filter f) ->
  exists w', note_record Hash128 en rec w = Some w' /\ noted (l ++ [rec]) w' /\ filtered en f0 (l ++ [rec]) w' /\
    forall bs cur, wrote bs cur w -> wrote bs cur w'.
Proof.
  intros [Hn1 Hn2 Hn3] Hf Hwf.
  assert (Hnoted : forall flt, noted (l ++ [rec]) (mkW (w_file w) (w_index w) (w_logical w) (w_restarts w) (w_count w)
      (w_blockFirstKey w) (Key rec) (Seq rec) (if w_first w then Key rec else w_smallestKey w) (Key rec) false flt)).
  { intros flt. constructor; cbn.
    - symmetry. apply bool_decide_eq_false. by destruct l.
    - intros x. rewrite last_snoc. by intros [= <-].
    - intros x Hx. rewrite Hn1. destruct l as [|a l]; [by injection Hx as <- |].
      rewrite bool_decide_false by done. by apply Hn3. }
  assert (Hwr : forall flt bs cur, wrote bs cur w -> wrote bs cur (mkW (w_file w) (w_index w) (w_logical w)
      (w_restarts w) (w_count w) (w_blockFirstKey w) (Key rec) (Seq rec)
      (if w_first w then Key rec else w_smallestKey w) (Key rec) false flt)).
  { intros flt bs cur [H1 H2 H3 H4 H5]. by constructor. }
  unfold note_record. destruct en; simpl in *.
  - destruct Hf as (f & f' & Hf0 & Ha & ->). 
    destruct (Add_all_wf Hash128 (Key <$> l) f (Hwf f Hf0)) as (f1 & E1 & Hf1 & _).
    assert (f1 = f') as -> by congruence.
    destruct (Add_wf Hash128 (Key rec) f' Hf1) as (f2 & E2 & _). rewrite E2. simpl.
    eexists. split; [reflexivity |]. split; [apply Hnoted |]. split; [| apply Hwr].
    exists f, f2. split; [done |]. rewrite fmap_app. cbn [fmap list_fmap]. by rewrite Add_all_snoc, Ha.
  - eexists. split; [reflexivity |]. split; [apply Hnoted |]. split; [done | apply Hwr].
Qed.

(** ** The loop *)

(** The loop over a list of records. *)
Fixpoint write_all (en : bool) (l : list record) (w : wstate) : option (result sst_error wstate) :=
  match l with
  | [] => Some (Ok w)
  | rec :: l =>
      r ← write_record Hash128 opts en rec w;
      match r with Err e => Some (Err e) | Ok w => write_all en l w end
  end.

Lemma write_loop_yields {E I} `{!RecordIterator E I} fuel en (it : I) l w :
  yields it l -> (length l < fuel)%nat ->
  write_loop Hash128 fuel opts en it w = write_all en l w.
Proof.
  intros Hy. revert fuel w. induction Hy as [it it' Hn He | it it' r l Hn Hr Hy IH];
    intros [|fuel] w Hf; simpl in *; try lia; rewrite Hn; simpl.
  - by rewrite He.
  - rewrite Hr. destruct (write_record Hash128 opts en r w) as [[w'|e]|]; simpl; [| done | done].
    apply IH. lia.
Qed.

(** The errors that come from the order of the records. *)
Definition order_error (e : sst_error) : Prop :=
  match e with UnsortedKey _ _ | UnsortedSeq _ _ => True | _ => False end.

Lemma check_order_error w rec e : check_order w rec = Err e -> order_error e.
Proof.
  unfold check_order, guard_err.
  destruct (negb (w_first w) && key_ltb (Key rec) (w_previousKey w)); bind_step; [by intros [= <-] |].
  destruct (negb (w_first w) && _ && _); [by intros [= <-] | done].
Qed.

Lemma flushBlock_error w e : flushBlock opts w = Err e -> exists b, e = BlockError b.
Proof.
  unfold flushBlock. destruct (w_count w =? 0); [done |]. cbv zeta.
  destruct (encodePhysicalBlock _ _ _); simpl; [done |]. intros [= <-]. eauto.
Qed.

Lemma place_record_error rec w e : place_record opts rec w = Err e -> exists b, e = BlockError b.
Proof.
  unfold place_record. cbv zeta. destruct (_ && _); [| done].
  destruct (flushBlock opts _) as [w'|e'] eqn:E; bind_step; [done |]. intros He.
  assert (e' = e) as -> by congruence. by eapply flushBlock_error.
Qed.

Lemma write_all_spec en f0 l l0 bs cur w :
  (forall f, f0 = Some f -> wf_filter f) ->
  wrote bs cur w -> bs_records bs ++ cur = l0 -> noted l0 w -> filtered en f0 l0 w -> wsorted l0 ->
  exists r, write_all en l w = Some r /\
    match r with
    | Ok w' => exists bs' cur', wrote bs' cur' w' /\ bs_records bs' ++ cur' = l0 ++ l /\
        noted (l0 ++ l) w' /\ filtered en f0 (l0 ++ l) w' /\ wsorted (l0 ++ l)
    | Err e => (order_error e /\ ~ wsorted (l0 ++ l)) \/ exists b, e = BlockError b
    end.
Proof.
  intros Hwf. revert l0 bs cur w. induction l as [|rec l IH]; intros l0 bs cur w Hw Hl Hn Hf Hs; simpl.
  - eexists. split; [reflexivity |]. rewrite app_nil_r. eauto 10.
  - unfold write_record. pose proof (check_order_Ok l0 w rec Hn) as Hco.
    destruct (check_order w rec) as [u|e] eqn:Eo.
    + destruct (note_record_spec en f0 l0 rec w Hn Hf Hwf) as (w1 & -> & Hn1 & Hf1 & Hw1). simpl.
      assert (Hs1 : wsorted (l0 ++ [rec])).
      { apply wsorted_snoc. split; [done |]. apply Hco. by eexists. }
      destruct (place_record opts rec w1) as [w2|e] eqn:Ep; simpl.
      * destruct (place_record_wrote _ _ _ _ _ (Hw1 _ _ Hw) Ep) as (bs2 & cur2 & Hw2 & Hl2 & _ & N).
        destruct N as (N1 & N2 & N3 & N4 & N5 & N6).
        replace (l0 ++ rec :: l) with ((l0 ++ [rec]) ++ l) by (by rewrite <- app_assoc).
        apply (IH (l0 ++ [rec]) bs2 cur2 w2); [done | by rewrite Hl2, Hl | | | done].
        -- destruct Hn1 as [M1 M2 M3]. constructor; [congruence | |].
           ++ intros x Hx. destruct (M2 x Hx) as (? & ? & ?). split_and!; congruence.
           ++ intros x Hx. rewrite N3. auto.
        -- unfold filtered in *. rewrite N6. exact Hf1.
      * eexists. split; [reflexivity |]. right. by eapply place_record_error.
    + simpl. eexists. split; [reflexivity |]. left. split; [by eapply check_order_error |].
      intros Hs'. replace (l0 ++ rec :: l) with ((l0 ++ [rec]) ++ l) in Hs' by (by rewrite <- app_assoc).
      apply StronglySorted_app_1_l in Hs'. apply wsorted_snoc in Hs' as [_ Hle]. apply Hco in Hle as [? ?]. done.
Qed.

(** ** The file *)

Definition table_bytes (bs : list block) (flt : bytes) : bytes :=
  let idx := writeIndex (index_for 0 bs) in
  let body := bs_bytes bs ++ idx ++ flt in
  body ++ writeFooter (len (bs_bytes bs)) (len idx)
            (if len flt =? 0 then 0 else len (bs_bytes bs) + len idx) (len flt).

Lemma Encode_nonempty f buf : Encode (Some f) = Ok buf -> 12 <= len buf.
Proof.
  unfold Encode. intros H. bind_inv H. apply Ok_inj in H. subst buf.
  rewrite !len_app, len_PutUint64. change (len [_; _; _; _]) with 4. pose proof (len_nonneg (fbits f)). lia.
Qed.

(** What a finished table looks like. *)
Record layout (l : list record) (flt : option Filter) (bs : list block) (meta : table_meta) (file : bytes)
    : Prop := mkLayout {
  ly_stored : Forall (stored opts) bs;
  ly_records : bs_records bs = l;
  ly_index : tm_index meta = index_for 0 bs;
  ly_filter : tm_filter meta = flt;
  ly_size : tm_SizeBytes meta = len file;
  ly_file : match flt with
            | None => file = table_bytes bs []
            | Some f => exists buf, Encode (Some f) = Ok buf /\ file = table_bytes bs buf
            end;
  ly_smallest x : head l = Some x -> tm_SmallestKey meta = Key x;
  ly_largest x : last l = Some x -> tm_LargestKey meta = Key x;
}.

Lemma finish_layout bs cur l w meta file :
  wrote bs cur w -> bs_records bs ++ cur = l -> noted l w -> finish opts w = Ok (meta, file) ->
  exists bs', layout l (w_filter w) bs' meta file.
Proof.
  intros Hw Hl Hn. unfold finish. intros H. apply bind_Ok_inv in H as (w1 & Hfl & H).
  destruct (flushBlock_wrote _ _ _ _ Hw Hfl) as (bs' & Hw1 & Hr & N1 & N2 & N3 & N4 & N5 & N6).
  cbv zeta in H. rewrite (wr_file _ _ _ Hw1), (wr_index _ _ _ Hw1), N3, N4, N6 in H.
  exists bs'. pose proof (wr_stored _ _ _ Hw1). rewrite Hl in Hr.
  assert (El : len (bs_bytes bs' ++ writeIndex (index_for 0 bs')) - len (bs_bytes bs') = len (writeIndex (index_for 0 bs')))
    by (rewrite len_app; lia).
  rewrite El in H. destruct (w_filter w) as [f|].
  - apply bind_Ok_inv in H as ([[file1 fo] fl] & Hb & H). apply bind_Ok_inv in Hb as (buf & Hen & Hb).
    apply map_err_Ok in Hen. apply Ok_inj in Hb. injection Hb as <- <- <-. apply Ok_inj in H. injection H as <- <-.
    pose proof (Encode_nonempty _ _ Hen). constructor; cbn [tm_index tm_filter tm_SizeBytes tm_SmallestKey tm_LargestKey]; try done.
    + exists buf. split; [done |]. unfold table_bytes.
      destruct (Z.eqb_spec (len buf) 0); [lia |]. by rewrite len_app, <- !app_assoc.
    + intros x Hx. by apply (nt_head _ _ Hn).
    + intros x Hx. by apply (nt_last _ _ Hn).
  - apply bind_Ok_inv in H as ([[file1 fo] fl] & Hb & H). apply Ok_inj in Hb. injection Hb as <- <- <-.
    apply Ok_inj in H. injection H as <- <-.
    constructor; cbn [tm_index tm_filter tm_SizeBytes tm_SmallestKey tm_LargestKey]; try done.
    + unfold table_bytes. by rewrite app_nil_r.
    + intros x Hx. by apply (nt_head _ _ Hn).
    + intros x Hx. by apply (nt_last _ _ Hn).
Qed.

Lemma w_init_ok f : wrote [] [] (w_init f) /\ noted [] (w_init f).
Proof. split; by constructor. Qed.
End writer_proofs.
