(* ===== verification/SSTable.v ===== *)
(** * Reading an SSTable

    Models [internal/sstable/sstable.go], [iterator.go] and the file-reading
    half of [block.go]: lazy loading of the metadata, point lookups and the
    iterator, both through the shared block cache, and the reference count
    that protects a table in use.  The file of a table is the list of its
    bytes; opening it is taken to succeed (a failure is returned to the
    caller).  The cache is any implementation of [Cache], as in the code.
    [None] is a panic or an exhausted loop. *)

From S2P Require Import BlockCache Bloom.
From S2P Require Export RecordCodec Versions TableLayout.

(** ** The cache interface *)

(** [blockcache.Cache] as the reader uses it.  [holds c k b] says that a
    lookup of [k] may give [b]; operations never make up content. *)
Class Cache (C : Type) := {
  cache_get : BlockCache.Key -> C -> option (option bytes * C);
  cache_set : BlockCache.Key -> bytes -> C -> option C;
  cache_purge : Z -> C -> option C;
  holds : C -> BlockCache.Key -> bytes -> Prop;
  cache_wf : C -> Prop;
  cache_get_ok k c : cache_wf c -> exists r c', cache_get k c = Some (r, c') /\ cache_wf c' /\
    (forall b, r = Some b -> holds c k b) /\ (forall k' b', holds c' k' b' -> holds c k' b');
  cache_set_ok k b c : cache_wf c -> exists c', cache_set k b c = Some c' /\ cache_wf c' /\
    (forall k' b', holds c' k' b' -> (k' = k /\ b' = b) \/ holds c k' b');
  cache_purge_ok t c : cache_wf c -> exists c', cache_purge t c = Some c' /\ cache_wf c' /\
    (forall k b, holds c' k b -> holds c k b /\ BlockCache.TableID k <> t);
}.

(** ** The table *)

Inductive read_error : Type :=
| ReadBlockZero (offset : Z)
| ReadBlockLength (offset length_ : Z)
| ReadBlockOffset (offset : Z)
| ReadBlockAt (offset : Z)
| ReadPhysical (e : block_error)
| ReadFooter (e : footer_error)
| ReadIndexLength (e : length_error)
| ReadIndexAt (offset : Z)
| ReadIndex (e : index_error)
| ReadFilterLength (e : length_error)
| ReadFilterAt (offset : Z)
| ReadFilter (e : bloom_error)
| ReadNotFound
| ReadDeleted.

Record SSTable := mkSSTable {
  sst_ID : Z;
  sst_metaLoaded : bool;
  sst_version : Z;
  sst_index : list IndexEntry;
  sst_filter : option Bloom.Filter;
}.

(** [file.ReadAt(buf, offset)] with [len(buf) = n] fails on a short read. *)
Definition ReadAt (file : bytes) (n offset : Z) : option bytes :=
  if offset + n <=? len file then Some (slice (Z.to_nat offset) (Z.to_nat (offset + n)) file) else None.

Definition loadMetadata (file : bytes) (s : SSTable) : result read_error SSTable :=
  if sst_metaLoaded s then Ok s
  else
    footer ← map_err ReadFooter (readFooter file);
    indexLength_ ← map_err ReadIndexLength (checkedBufferLength (indexLength footer) maxIndexSize);
    indexBuf ← match ReadAt file indexLength_ (indexOffset footer) with
               | Some b => Ok b | None => Err (ReadIndexAt (indexOffset footer)) end;
    index ← map_err ReadIndex (decodeIndex indexBuf);
    filterLength_ ← map_err ReadFilterLength (checkedBufferLength (filterLength footer) maxFilterSize);
    filter ←
      (if filterLength_ >? 0 then
         filterBuf ← match ReadAt file filterLength_ (filterOffset footer) with
                     | Some b => Ok b | None => Err (ReadFilterAt (filterOffset footer)) end;
         f ← map_err ReadFilter (Bloom.Decode filterBuf);
         Ok (Some f)
       else Ok None);
    Ok (mkSSTable (sst_ID s) true (formatVersion footer) index filter).

Definition maxStoredBlockSize : Z := maxBlockSize + blockHeaderSize + blockTrailerSize.

Definition readBlockFrom (file : bytes) (entry : IndexEntry) : result read_error bytes :=
  _ ← guard_err (Length entry =? 0) (ReadBlockZero (Index.Offset entry));
  _ ← guard_err (Length entry >? maxStoredBlockSize) (ReadBlockLength (Index.Offset entry) (Length entry));
  _ ← guard_err (Index.Offset entry >? maxInt) (ReadBlockOffset (Index.Offset entry));
  match ReadAt file (Length entry) (Index.Offset entry) with
  | Some buf => Ok buf
  | None => Err (ReadBlockAt (Index.Offset entry))
  end.

Definition blockCacheKey (s : SSTable) (entry : IndexEntry) : BlockCache.Key :=
  BlockCache.mkKey (sst_ID s) (Index.Offset entry).

Section reading.
Context {lz : LZ4Codec} {C : Type} `{!Cache C} (Hash128 : bytes -> Z * Z).

(** [readLogicalBlock] and [readLogicalBlockFrom]: a nil cache is [None]. *)
Definition readLogicalBlock (file : bytes) (s : SSTable) (entry : IndexEntry) (cache : option C)
    : option (result read_error bytes * option C) :=
  let cacheKey := blockCacheKey s entry in
  '(hit, cache) ← match cache with
                  | None => Some (None, None)
                  | Some c => '(r, c) ← cache_get cacheKey c; Some (r, Some c)
                  end;
  match hit with
  | Some logical => Some (Ok logical, cache)
  | None =>
      match (physical ← readBlockFrom file entry; map_err ReadPhysical (decodePhysicalBlock physical)) with
      | Err e => Some (Err e, cache)
      | Ok logical =>
          cache ← match cache with
                  | None => Some None
                  | Some c => c ← cache_set cacheKey logical c; Some (Some c)
                  end;
          Some (Ok logical, cache)
      end
  end.

(** ** Point lookups *)

(** The inner loop: [Some (Some r)] is a hit, [Some None] a key beyond the
    target, [None] the end of the block. *)
Fixpoint scan_block (fuel : nat) (key : bytes) (maxSeq : Z) (c : cursor)
    : option (option (option record) * cursor) :=
  match fuel with
  | O => None
  | S fuel =>
      '(r, c) ← cursor_next c;
      match r with
      | None => Some (None, c)
      | Some rec =>
          if key_eqb (Key rec) key && (Seq rec <=? maxSeq) then Some (Some (Some rec), c)
          else if key_ltb key (Key rec) then Some (Some None, c)
          else scan_block fuel key maxSeq c
      end
  end.

(** The loop over the blocks from the chosen one on. *)
Fixpoint get_loop (file : bytes) (s : SSTable) (key : bytes) (maxSeq : Z)
    (entries : list IndexEntry) (cache : option C)
    : option (result read_error (option record) * option C) :=
  match entries with
  | [] => Some (Ok None, cache)
  | entry :: entries =>
      '(r, cache) ← readLogicalBlock file s entry cache;
      match r with
      | Err e => Some (Err e, cache)
      | Ok logical =>
          opened ← newLogicalBlockCursorForVersion logical (sst_version s);
          match opened with
          | Err e => Some (Err (ReadPhysical e), cache)
          | Ok cur =>
              '(serr, cur) ← cursor_seek key cur;
              match serr with
              | Some e => Some (Err (ReadPhysical e), cache)
              | None =>
                  '(found, cur) ← scan_block (S (Z.to_nat (ccount cur))) key maxSeq cur;
                  match found with
                  | Some answer => Some (Ok answer, cache)
                  | None =>
                      match cerr cur with
                      | Some e => Some (Err (ReadPhysical e), cache)
                      | None => get_loop file s key maxSeq entries cache
                      end
                  end
              end
          end
      end
  end.

Definition GetRecordAt (file : bytes) (key : bytes) (maxSeq : Z) (s : SSTable) (cache : option C)
    : option (result read_error (option record) * SSTable * option C) :=
  match loadMetadata file s with
  | Err e => Some (Err e, s, cache)
  | Ok s =>
      may ← match sst_filter s with
            | None => Some true
            | Some f => MayContain Hash128 (Some f) key
            end;
      if negb may then Some (Ok None, s, cache)
      else if len (sst_index s) =? 0 then Some (Ok None, s, cache)
      else
        let i := firstPossibleBlock (sst_index s) key in
        if i <? 0 then Some (Ok None, s, cache)
        else
          '(r, cache) ← get_loop file s key maxSeq (drop (Z.to_nat i) (sst_index s)) cache;
          Some (r, s, cache)
  end.

Definition Get (file : bytes) (key : bytes) (s : SSTable) (cache : option C)
    : option (result read_error bytes * SSTable * option C) :=
  '(r, s, cache) ← GetRecordAt file key u64_max s cache;
  Some (match r with
        | Err e => Err e
        | Ok None => Err ReadNotFound
        | Ok (Some rec) => if rDeleted rec then Err ReadDeleted else Ok (rValue rec)
        end, s, cache).

(** ** The iterator *)

Record TIterator := mkTIterator {
  ti_file : bytes;
  ti_sst : SSTable;
  ti_index : list IndexEntry;
  ti_blockIndex : Z;
  ti_cursor : cursor;
  ti_current : record;
  ti_pending : option record;
  ti_err : option read_error;
  ti_cache : option C;
}.

Definition ti_set_err (e : read_error) (it : TIterator) : TIterator :=
  mkTIterator (ti_file it) (ti_sst it) (ti_index it) (ti_blockIndex it) (ti_cursor it) (ti_current it)
    (ti_pending it) (Some e) (ti_cache it).
Definition ti_set_cursor (c : cursor) (it : TIterator) : TIterator :=
  mkTIterator (ti_file it) (ti_sst it) (ti_index it) (ti_blockIndex it) c (ti_current it)
    (ti_pending it) (ti_err it) (ti_cache it).
Definition ti_set_current (r : record) (it : TIterator) : TIterator :=
  mkTIterator (ti_file it) (ti_sst it) (ti_index it) (ti_blockIndex it) (ti_cursor it) r
    (ti_pending it) (ti_err it) (ti_cache it).
Definition ti_set_pending (p : option record) (it : TIterator) : TIterator :=
  mkTIterator (ti_file it) (ti_sst it) (ti_index it) (ti_blockIndex it) (ti_cursor it) (ti_current it)
    p (ti_err it) (ti_cache it).
Definition ti_set_block (i : Z) (it : TIterator) : TIterator :=
  mkTIterator (ti_file it) (ti_sst it) (ti_index it) i (ti_cursor it) (ti_current it)
    (ti_pending it) (ti_err it) (ti_cache it).
Definition ti_set_cache (c : option C) (it : TIterator) : TIterator :=
  mkTIterator (ti_file it) (ti_sst it) (ti_index it) (ti_blockIndex it) (ti_cursor it) (ti_current it)
    (ti_pending it) (ti_err it) c.

Definition Iterator_ (file : bytes) (s : SSTable) (cache : option C) : result read_error TIterator :=
  s ← loadMetadata file s;
  Ok (mkTIterator file s (sst_index s) (-1) zero_cursor zero_record None None cache).

(** [loadBlock] returns the error it also records. *)
Definition loadBlock (blockIndex : Z) (it : TIterator) : option (option read_error * TIterator) :=
  entry ← ti_index it !! Z.to_nat blockIndex;
  '(r, cache) ← readLogicalBlock (ti_file it) (ti_sst it) entry (ti_cache it);
  let it := ti_set_cache cache it in
  match r with
  | Err e => Some (Some e, ti_set_err e it)
  | Ok logical =>
      opened ← newLogicalBlockCursorForVersion logical (sst_version (ti_sst it));
      match opened with
      | Err e => Some (Some (ReadPhysical e), ti_set_err (ReadPhysical e) it)
      | Ok c => Some (None, ti_set_cursor c (ti_set_block blockIndex it))
      end
  end.

(** The loop of [Seek] over the records of the block. *)
Fixpoint seek_loop (fuel : nat) (key : bytes) (it : TIterator) : option (option read_error * TIterator) :=
  match fuel with
  | O => None
  | S fuel =>
      '(r, c) ← cursor_next (ti_cursor it);
      let it := ti_set_cursor c it in
      match r with
      | None =>
          match cerr c with
          | Some e => Some (Some (ReadPhysical e), ti_set_err (ReadPhysical e) it)
          | None => Some (None, it)
          end
      | Some rec => if key_leb key (Key rec) then Some (None, ti_set_pending (Some rec) it)
                    else seek_loop fuel key it
      end
  end.

Definition TIterator_Seek (key : bytes) (it : TIterator) : option (option read_error * TIterator) :=
  match ti_err it with
  | Some e => Some (Some e, it)
  | None =>
      let it := ti_set_pending None (ti_set_current zero_record (ti_set_cursor zero_cursor it)) in
      if len (ti_index it) =? 0 then Some (None, ti_set_block 0 it)
      else
        '(err, it) ← loadBlock (firstPossibleBlock (ti_index it) key) it;
        match err with
        | Some e => Some (Some e, it)
        | None =>
            '(serr, c) ← cursor_seek key (ti_cursor it);
            let it := ti_set_cursor c it in
            match serr with
            | Some e => Some (Some (ReadPhysical e), ti_set_err (ReadPhysical e) it)
            | None => seek_loop (S (Z.to_nat (ccount c))) key it
            end
        end
  end.

(** The loop of [Next]: at most one more iteration than blocks left. *)
Fixpoint next_loop (fuel : nat) (it : TIterator) : option (bool * TIterator) :=
  match fuel with
  | O => None
  | S fuel =>
      '(r, c) ← cursor_next (ti_cursor it);
      let it := ti_set_cursor c it in
      match r with
      | Some rec => Some (true, ti_set_current rec it)
      | None =>
          match cerr c with
          | Some e => Some (false, ti_set_err (ReadPhysical e) it)
          | None =>
              let it := ti_set_block (ti_blockIndex it + 1) it in
              if ti_blockIndex it >=? len (ti_index it) then Some (false, it)
              else
                '(err, it) ← loadBlock (ti_blockIndex it) it;
                match err with
                | Some _ => Some (false, it)
                | None => next_loop fuel it
                end
          end
      end
  end.

Definition TIterator_Next (it : TIterator) : option (bool * TIterator) :=
  match ti_err it with
  | Some _ => Some (false, it)
  | None =>
      match ti_pending it with
      | Some rec => Some (true, ti_set_pending None (ti_set_current rec it))
      | None => next_loop (S (S (length (ti_index it)))) it
      end
  end.
End reading.

Global Instance TIterator_iterator {lz : LZ4Codec} {C} `{!Cache C} : RecordIterator read_error (TIterator (C := C)) := {|
  it_next := TIterator_Next;
  it_record := ti_current;
  it_err := ti_err;
  it_seek := TIterator_Seek;
|}.

(** [MaxSeq]: the loop over an iterator. *)
Fixpoint maxseq_loop {E I} `{!RecordIterator E I} (fuel : nat) (it : I) (maxSeq : Z) : option (result E Z * I) :=
  match fuel with
  | O => None
  | S fuel =>
      '(ok, it) ← it_next it;
      if (ok : bool) then
        let rec := it_record it in
        maxseq_loop fuel it (if Seq rec >? maxSeq then Seq rec else maxSeq)
      else Some (match it_err it with Some e => Err e | None => Ok maxSeq end, it)
  end.

(** [MaxSeq()] with the table and the cache afterwards; the fuel bounds the
    number of records read. *)
Definition MaxSeq {lz : LZ4Codec} {C} `{!Cache C} (fuel : nat) (file : bytes) (s : SSTable) (cache : option C)
    : option (result read_error Z * SSTable * option C) :=
  match Iterator_ file s cache with
  | Err e => Some (Err e, s, cache)
  | Ok it => '(r, it) ← maxseq_loop fuel it 0; Some (r, ti_sst it, ti_cache it)
  end.
