(* ===== verification/TableRead.v ===== *)
(** * Reading what was written

    A table written by [Writer] and read by [SSTable]: the metadata loads, the
    cache stays coherent, a point lookup is the abstract [newest] and the
    iterator yields the records in order. *)

From S2P Require Import Crc32 Float64 BlockCache Bloom.
From S2P Require Export RecordCodec Versions TableLayout SSTable.

(** ** Scanning a sorted list *)

(** What the scan of a block answers on a list of records. *)
Fixpoint scan_list (key : bytes) (maxSeq : Z) (l : list record) : option (option record) :=
  match l with
  | [] => None
  | r :: l => if key_eqb (Key r) key && (Seq r <=? maxSeq) then Some (Some r)
              else if key_ltb key (Key r) then Some None
              else scan_list key maxSeq l
  end.

Lemma newest_skip key maxSeq l1 l2 :
  Forall (fun r => ~ visible key maxSeq r) l1 -> newest key maxSeq (l1 ++ l2) = newest key maxSeq l2.
Proof. intros H. unfold newest. rewrite filter_app. by rewrite (list_filter_nil _ l1). Qed.

Lemma newest_above key maxSeq l :
  Forall (fun r => key < Key r)%key l -> newest key maxSeq l = None.
Proof.
  intros H. apply newest_None. intros r Hr [<- _]. rewrite Forall_forall in H. specialize (H r Hr). key_order.
Qed.

(** On a sorted list the scan finds the newest visible version, stops at the
    first key beyond the target, or finds nothing. *)
Lemma scan_list_newest key maxSeq l l' :
  wsorted (l ++ l') ->
  match scan_list key maxSeq l with
  | Some answer => newest key maxSeq (l ++ l') = answer
  | None => newest key maxSeq (l ++ l') = newest key maxSeq l'
  end.
Proof.
  induction l as [|r l IH]; intros Hs; [done |]. cbn [scan_list]. simpl app in *.
  destruct (key_eqb_spec (Key r) key) as [He | Hne]; cbn [andb].
  - destruct (Z.leb_spec (Seq r) maxSeq) as [Hle | Hgt].
    + rewrite newest_wsorted by done. by rewrite filter_cons_True by done.
    + rewrite <- He. destruct (key_ltb_spec (Key r) (Key r)); [key_order |]. rewrite He.
      change (r :: l ++ l') with ([r] ++ (l ++ l')).
      rewrite newest_skip by (constructor; [intros [_ ?]; lia | constructor]).
      apply IH. by inversion Hs.
  - destruct (key_ltb_spec key (Key r)) as [Hlt | Hge].
    + apply newest_above. inversion Hs as [|? ? _ Hf]; subst. constructor; [done |].
      eapply Forall_impl; [exact Hf |]. intros x Hx%rec_le_key. key_order.
    + change (r :: l ++ l') with ([r] ++ (l ++ l')).
      rewrite newest_skip by (constructor; [by intros [? _] | constructor]).
      apply IH. by inversion Hs.
Qed.

Lemma strip_key r : Key (strip_batch r) = Key r. Proof. done. Qed.
Lemma strip_seq r : Seq (strip_batch r) = Seq r. Proof. done. Qed.

Lemma wsorted_strip l : wsorted l -> wsorted (strip_batch <$> l).
Proof.
  induction 1 as [|r l Hs IH Hf]; [constructor |]. rewrite fmap_cons. constructor; [done |].
  apply Forall_fmap. eapply Forall_impl; [exact Hf |]. done.
Qed.

(** The scan of a block, as a scan of its records. *)
Lemma scan_block_records key maxSeq recs i c n :
  at_record recs i c -> Forall wf_record recs -> len recs <= u32_max -> (length recs - i < n)%nat ->
  exists c', scan_block n key maxSeq c = Some (scan_list key maxSeq (strip_batch <$> drop i recs), c') /\
    cerr c' = None.
Proof.
  intros Hat Hwf Hl. revert i c Hat. induction n as [|n IH]; intros i c Hat Hn; [lia |]. cbn [scan_block].
  destruct (decide (i = length recs)) as [-> | Hne].
  - rewrite (cursor_next_end recs c Hat). cbn [mbind option_bind]. rewrite drop_ge by lia.
    exists c. split; [done | apply Hat].
  - pose proof (ar_le _ _ _ Hat). destruct (lookup_lt_is_Some_2 recs i) as [r Hr]; [lia |].
    destruct (cursor_next_record _ _ _ _ Hat Hr) as (c1 & E & Hat1 & _); [| done |].
    { rewrite Forall_lookup in Hwf. eauto. }
    rewrite E. cbn [mbind option_bind]. erewrite drop_S by done. rewrite fmap_cons. cbn [scan_list].
    destruct (_ && _); [exists c1; split; [done | apply Hat1] |].
    destruct (key_ltb key _); [exists c1; split; [done | apply Hat1] |].
    apply (IH (S i)); [done | lia].
Qed.

(** ** The index of a written table *)

Lemma index_for_length off bs : length (index_for off bs) = length bs.
Proof. revert off. induction bs as [|[recs p] bs IH]; intros off; simpl; [done |]. by rewrite IH. Qed.

Lemma index_for_lookup off bs i recs p :
  bs !! i = Some (recs, p) ->
  index_for off bs !! i = Some (mkIndexEntry (first_key recs) (off + len (bs_bytes (take i bs))) (len p)).
Proof.
  revert off i. induction bs as [|[recs' p'] bs IH]; intros off [|i] H; try done; simpl in *.
  - injection H as -> ->. change (len (bs_bytes [])) with 0. by rewrite Z.add_0_r.
  - rewrite (IH _ _ H). unfold bs_bytes. rewrite fmap_cons. cbn [concat]. rewrite len_app. do 2 f_equal. simpl. lia.
Qed.

Lemma bs_bytes_split bs i recs p :
  bs !! i = Some (recs, p) -> bs_bytes bs = bs_bytes (take i bs) ++ p ++ bs_bytes (drop (S i) bs).
Proof.
  intros H. unfold bs_bytes. rewrite <- (take_drop_middle bs i (recs, p) H) at 1.
  by rewrite fmap_app, fmap_cons, concat_app.
Qed.

Lemma bs_records_split bs i b :
  bs !! i = Some b -> bs_records bs = bs_records (take i bs) ++ b.1 ++ bs_records (drop (S i) bs).
Proof.
  intros H. unfold bs_records. rewrite <- (take_drop_middle bs i b H) at 1.
  by rewrite fmap_app, fmap_cons, concat_app.
Qed.

Lemma bs_records_drop bs i : bs_records bs = bs_records (take i bs) ++ bs_records (drop i bs).
Proof. unfold bs_records. by rewrite <- concat_app, <- fmap_app, take_drop. Qed.

(** Distinct blocks have distinct offsets. *)
Lemma index_for_inj bs i j a b :
  Forall (fun b => 0 < len b.2) bs -> index_for 0 bs !! i = Some a -> index_for 0 bs !! j = Some b ->
  Index.Offset a = Index.Offset b -> i = j.
Proof.
  assert (Hlt : forall i j a b, (i < j)%nat -> Forall (fun b => 0 < len b.2) bs ->
    index_for 0 bs !! i = Some a -> index_for 0 bs !! j = Some b -> Index.Offset a < Index.Offset b).
  { clear. intros i j a b Hij Hf Ha Hb.
    apply lookup_lt_Some in Ha as Hi. apply lookup_lt_Some in Hb as Hj. rewrite index_for_length in Hi, Hj.
    destruct (lookup_lt_is_Some_2 _ _ Hi) as [[ri pi] Ei]. destruct (lookup_lt_is_Some_2 _ _ Hj) as [[rj pj] Ej].
    rewrite (index_for_lookup _ _ _ _ _ Ei) in Ha. rewrite (index_for_lookup _ _ _ _ _ Ej) in Hb.
    injection Ha as <-. injection Hb as <-. simpl.
    assert (Et : take j bs !! i = Some (ri, pi)) by (by apply lookup_take_Some).
    rewrite (bs_bytes_split _ _ _ _ Et), !len_app, take_take, Nat.min_l by lia.
    rewrite Forall_lookup in Hf. specialize (Hf _ _ Ei). simpl in Hf.
    pose proof (len_nonneg (bs_bytes (drop (S i) (take j bs)))). lia. }
  intros Hf Ha Hb He. destruct (Nat.lt_trichotomy i j) as [H | [H | H]]; [| done |].
  - specialize (Hlt i j a b H Hf Ha Hb). lia.
  - specialize (Hlt j i b a H Hf Hb Ha). lia.
Qed.

(** ** A table on disk *)

(** The filter of the table, if any, fits its limits and knows every key. *)
Definition filter_good (Hash128 : bytes -> Z * Z) (keys : list bytes) (flt : option Bloom.Filter) : Prop :=
  match flt with
  | None => True
  | Some f => wf_encoded f /\ bitCount f / 8 + 12 <= maxFilterSize /\
              forall key, key ∈ keys -> MayContain Hash128 (Some f) key = Some true
  end.

(** The table was written from the sorted records [l], and is within the sizes
    the reader accepts. *)
Record on_disk {lz : LZ4Codec} (Hash128 : bytes -> Z * Z) (opts : WriteOptions) (l : list record)
    (flt : option Bloom.Filter) (bs : list block) (meta : table_meta) (file : bytes) : Prop := mkOnDisk {
  od_layout : layout opts l flt bs meta file;
  od_interval : 0 < RestartInterval opts <= u32_max;
  od_wf : Forall wf_record l;
  od_sorted : wsorted l;
  od_file : len file <= maxInt;
  od_index : len (writeIndex (index_for 0 bs)) <= maxIndexSize;
  od_filter : filter_good Hash128 (Key <$> l) flt;
}.

Section on_disk.
Context {lz : LZ4Codec} {laws : LZ4Laws} (Hash128 : bytes -> Z * Z).
Context (opts : WriteOptions) (l : list record) (flt : option Bloom.Filter) (bs : list block)
        (meta : table_meta) (file : bytes) (Hod : on_disk Hash128 opts l flt bs meta file).

Local Abbreviation k := (Z.to_nat (RestartInterval opts)).
Local Abbreviation index := (index_for 0 bs).

Lemma od_records : bs_records bs = l.
Proof. apply (ly_records _ _ _ _ _ _ (od_layout _ _ _ _ _ _ _ Hod)). Qed.

(** A block of the table. *)
Record good_block (recs : list record) (p : bytes) : Prop := mkGood {
  gb_ne : recs <> [];
  gb_wf : Forall wf_record recs;
  gb_sorted : wsorted recs;
  gb_size : len (logical_block k recs) <= maxBlockSize;
  gb_decode : decodePhysicalBlock p = Ok (logical_block k recs);
  gb_len : 9 <= len p <= maxStoredBlockSize;
}.

Lemma od_block i recs p : bs !! i = Some (recs, p) -> good_block recs p.
Proof.
  intros Hi. pose proof (ly_stored _ _ _ _ _ _ (od_layout _ _ _ _ _ _ _ Hod)) as Hst.
  rewrite Forall_lookup in Hst. destruct (Hst _ _ Hi) as [Hne He]. simpl in *.
  pose proof (bs_records_split _ _ _ Hi) as Hsp. rewrite od_records in Hsp. simpl in Hsp.
  pose proof (od_wf _ _ _ _ _ _ _ Hod) as Hwf. pose proof (od_sorted _ _ _ _ _ _ _ Hod) as Hs.
  rewrite Hsp in Hwf, Hs. apply Forall_app in Hwf as [_ Hwf]. apply Forall_app in Hwf as [Hwf _].
  apply StronglySorted_app_1_r, StronglySorted_app_1_l in Hs.
  pose proof (encodePhysicalBlock_size _ _ _ _ He) as Hsz. pose proof (encodePhysicalBlock_len _ _ _ _ He) as Hlen.
  constructor; try done.
  - by apply physical_roundtrip in He.
  - unfold maxStoredBlockSize, blockHeaderSize, blockTrailerSize. lia.
Qed.

Lemma od_positive : Forall (fun b => 0 < len b.2) bs.
Proof.
  apply Forall_lookup. intros i [recs p] Hi. apply od_block, gb_len in Hi. simpl. lia.
Qed.

(** The parts of the file. *)
Lemma od_split :
  exists fb, file = table_bytes bs fb /\
    match flt with None => fb = [] | Some f => Encode (Some f) = Ok fb end.
Proof.
  pose proof (ly_file _ _ _ _ _ _ (od_layout _ _ _ _ _ _ _ Hod)) as Hf.
  destruct flt as [f|]; [destruct Hf as (buf & ? & ?); eauto | eauto].
Qed.

Lemma od_data_prefix : exists rest, file = bs_bytes bs ++ rest.
Proof. destruct od_split as (fb & -> & _). unfold table_bytes. rewrite <- app_assoc. eauto. Qed.

Lemma od_data_len : len (bs_bytes bs) <= maxInt.
Proof.
  destruct od_data_prefix as [rest Hr]. pose proof (od_file _ _ _ _ _ _ _ Hod) as Hf. rewrite Hr, len_app in Hf.
  pose proof (len_nonneg rest). lia.
Qed.

(** Reading a block at its index entry gives its bytes. *)
Lemma od_readBlock i recs p e :
  bs !! i = Some (recs, p) -> index !! i = Some e -> readBlockFrom file e = Ok p.
Proof.
  intros Hi He. rewrite (index_for_lookup _ _ _ _ _ Hi) in He. injection He as <-.
  pose proof (gb_len _ _ (od_block _ _ _ Hi)) as Hl. pose proof (bs_bytes_split _ _ _ _ Hi) as Hsp.
  destruct od_data_prefix as [rest Hr]. pose proof od_data_len as Hdl. rewrite Hsp, !len_app in Hdl.
  set (pre := bs_bytes (take i bs)) in *. set (post := bs_bytes (drop (S i) bs)) in *.
  pose proof (len_nonneg pre). pose proof (len_nonneg post). pose proof (len_nonneg rest).
  unfold readBlockFrom. cbn [Length Index.Offset]. rewrite !guard_err_false by lia. bind_step.
  unfold ReadAt. rewrite Hr, Hsp.
  destruct (Z.leb_spec (0 + len pre + len p) (len ((pre ++ p ++ post) ++ rest))) as [_ | Hb];
    [| rewrite !len_app in Hb; lia].
  f_equal. unfold slice. rewrite <- !app_assoc.
  rewrite drop_app_length' by (unfold len; lia). apply take_app_length'. unfold len. lia.
Qed.

Lemma od_index_entry i e :
  index !! i = Some e -> exists recs p, bs !! i = Some (recs, p) /\ FirstKey e = first_key recs.
Proof.
  intros He. apply lookup_lt_Some in He as Hi. rewrite index_for_length in Hi.
  destruct (lookup_lt_is_Some_2 _ _ Hi) as [[recs p] E]. exists recs, p. split; [done |].
  rewrite (index_for_lookup _ _ _ _ _ E) in He. by injection He as <-.
Qed.

Lemma od_index_wf : Forall wf_index_entry index /\ is_u32 (len index).
Proof.
  split.
  - apply Forall_lookup. intros i e He. destruct (od_index_entry i e He) as (recs & p & Hi & _).
    rewrite (index_for_lookup _ _ _ _ _ Hi) in He. injection He as <-.
    pose proof (gb_len _ _ (od_block _ _ _ Hi)) as Hl. pose proof (gb_wf _ _ (od_block _ _ _ Hi)) as Hw.
    pose proof od_data_len as Hdl. rewrite (bs_bytes_split _ _ _ _ Hi), !len_app in Hdl.
    pose proof (len_nonneg (bs_bytes (take i bs))). pose proof (len_nonneg (bs_bytes (drop (S i) bs))).
    unfold wf_index_entry. cbn [FirstKey Index.Offset Length]. split_and!.
    + destruct recs as [|r recs]; [done |]. apply Forall_cons in Hw as [Hw _]. by apply wf_key_u32.
    + unfold is_u64, u64_max, maxInt in *. lia.
    + unfold is_u32, u32_max, maxStoredBlockSize, maxBlockSize, blockHeaderSize, blockTrailerSize in *. lia.
  - pose proof (od_index _ _ _ _ _ _ _ Hod) as Hi. unfold writeIndex in Hi. rewrite len_app in Hi.
    pose proof (len_nonneg index). rewrite len_PutUint32 in Hi.
    assert (len index <= len (concat (index_entry_bytes <$> index))).
    { clear. induction index as [|e ix IH]; [done |]. rewrite fmap_cons. cbn [concat]. rewrite len_app.
      unfold index_entry_bytes at 1. rewrite !len_app, !len_PutUint32, len_PutUint64.
      pose proof (len_nonneg (FirstKey e)). unfold len in *. simpl length. lia. }
    unfold is_u32, u32_max, maxIndexSize in *. lia.
Qed.

(** The index entries are in key order. *)
Lemma od_index_sorted : index_sorted index.
Proof.
  unfold index_sorted. pose proof (od_sorted _ _ _ _ _ _ _ Hod) as Hs. rewrite <- od_records in Hs.
  pose proof (ly_stored _ _ _ _ _ _ (od_layout _ _ _ _ _ _ _ Hod)) as Hst. clear Hod. revert Hs.
  generalize 0. induction Hst as [|[recs p] bs' [Hne _] Hst IH]; intros off Hs; [constructor |].
  unfold bs_records in Hs. rewrite fmap_cons in Hs. cbn [concat] in Hs. simpl. constructor.
  - apply IH. by apply StronglySorted_app_1_r in Hs.
  - apply Forall_forall. intros e He. apply list_elem_of_lookup in He as [j Hj].
    apply lookup_lt_Some in Hj as Hlt. rewrite index_for_length in Hlt.
    destruct (lookup_lt_is_Some_2 _ _ Hlt) as [[recs' p'] Ej]. rewrite (index_for_lookup _ _ _ _ _ Ej) in Hj.
    injection Hj as <-. simpl. destruct recs as [|r recs]; [done |]. simpl in *.
    rewrite Forall_lookup in Hst. destruct (Hst _ _ Ej) as [Hne' _]. destruct recs' as [|r' recs']; [done |].
    inversion Hs as [|? ? _ Hf]; subst. apply rec_le_key. rewrite Forall_forall in Hf. apply Hf.
    apply elem_of_app. right. fold (bs_records bs'). rewrite (bs_records_split _ _ _ Ej). simpl. set_solver.
Qed.

Lemma ReadAt_middle (a b c : bytes) : ReadAt (a ++ b ++ c) (len b) (len a) = Some b.
Proof.
  unfold ReadAt. pose proof (len_nonneg c). rewrite !len_app.
  destruct (Z.leb_spec (len a + len b) (len a + (len b + len c))); [| lia]. f_equal. unfold slice.
  rewrite drop_app_length' by (unfold len; lia). apply take_app_length'. unfold len. lia.
Qed.

Lemma od_filter_bytes fb :
  match flt with None => fb = [] | Some f => Encode (Some f) = Ok fb end ->
  len fb <= maxFilterSize /\
  (if len fb >? 0 then f ← map_err ReadFilter (Bloom.Decode fb); Ok (Some f) else Ok None) = Ok (E := read_error) flt.
Proof.
  pose proof (od_filter _ _ _ _ _ _ _ Hod) as Hg. destruct flt as [f|]; simpl in *; [| by intros ->].
  intros He. destruct Hg as (Hw & Hsz & _). pose proof (Decode_Encode f fb Hw He) as Hd.
  apply Encode_nonempty in He as Hne. destruct Hw as [(_ & Hb & _) _].
  apply Decode_Ok in Hd as Hd'. destruct Hd' as [[Hwf _] He'].
  apply (Encode_Ok f fb Hwf) in He'. split.
  - rewrite He', !len_app, len_PutUint64. change (len [_; _; _; _]) with 4.
    rewrite Hb, Z.mul_comm, Z.div_mul in Hsz by lia. lia.
  - destruct (Z.gtb_spec (len fb) 0); [| lia]. rewrite Hd. done.
Qed.

(** The metadata of a written table loads. *)
Lemma od_loadMetadata id v0 ix0 f0 :
  loadMetadata file (mkSSTable id false v0 ix0 f0) = Ok (mkSSTable id true currentVersion index flt).
Proof.
  destruct od_split as (fb & Hfile & Hfb). destruct (od_filter_bytes fb Hfb) as [Hfs Hfd].
  destruct od_index_wf as [Hiw Hic]. pose proof (od_index _ _ _ _ _ _ _ Hod) as Hix.
  pose proof (od_file _ _ _ _ _ _ _ Hod) as Hmax.
  set (idx := writeIndex index) in *. set (data := bs_bytes bs) in *.
  pose proof (len_nonneg data) as N1. pose proof (len_nonneg idx) as N2. pose proof (len_nonneg fb) as N3.
  assert (Hlen : len file = len data + len idx + len fb + 40).
  { rewrite Hfile. unfold table_bytes. fold idx data. rewrite !len_app.
    assert (Hf40 : forall a b c d, len (writeFooter a b c d) = 40).
    { intros. unfold writeFooter. rewrite !len_app, !len_PutUint64. done. }
    rewrite Hf40. lia. }
  unfold loadMetadata. cbn [sst_metaLoaded sst_ID].
  set (fo := if len fb =? 0 then 0 else len data + len idx).
  assert (Hft : readFooter file = Ok (mkFooter currentVersion (len data) (len idx) fo (len fb))).
  { rewrite Hfile. unfold table_bytes. fold idx data. cbv zeta.
    assert (Hr : forall z, 0 <= z <= len file -> is_u64 z) by (intros; unfold is_u64, u64_max, maxInt in *; lia).
    apply readFooter_written.
    1-4: apply Hr; unfold fo; destruct (len fb =? 0); lia.
    - rewrite !len_app. unfold footerSize, u64_max, maxInt in *. lia.
    - unfold footer_ok. cbn [indexOffset indexLength filterOffset filterLength formatVersion].
      replace (len ((data ++ idx ++ fb) ++ _)) with (len file)
        by (rewrite Hfile; unfold table_bytes; fold idx data; done).
      unfold footerSize. split_and!; try lia.
      unfold fo. destruct (Z.eqb_spec (len fb) 0); lia. }
  rewrite Hft. bind_step. cbn [indexLength indexOffset filterLength filterOffset formatVersion].
  unfold checkedBufferLength. rewrite !guard_err_false by (unfold maxInt, maxIndexSize, maxFilterSize in *; lia). bind_step.
  assert (Hra : ReadAt file (len idx) (len data) = Some idx).
  { rewrite Hfile. unfold table_bytes. fold idx data. cbv zeta. rewrite <- !app_assoc. apply ReadAt_middle. }
  rewrite Hra. bind_step.
  pose proof (decodeIndex_writeIndex index [] Hiw Hic) as Hdi. rewrite app_nil_r in Hdi. fold idx in Hdi.
  rewrite Hdi. bind_step.
  destruct (Z.gtb_spec (len fb) 0) as [Hpos | Hz].
  - assert (Hrf : ReadAt file (len fb) fo = Some fb).
    { unfold fo. destruct (Z.eqb_spec (len fb) 0); [lia |]. rewrite Hfile. unfold table_bytes. fold idx data. cbv zeta.
      rewrite <- (len_app data idx), <- !app_assoc, (app_assoc data). apply ReadAt_middle. }
    rewrite Hrf. bind_step. destruct (map_err ReadFilter (Bloom.Decode fb)) as [f|]; [| done]. simpl in *.
    by injection Hfd as <-.
  - bind_step. by injection Hfd as <-.
Qed.
End on_disk.

(** ** Point lookups *)

(** Which blocks may be cached under the keys of all tables: under the keys of
    this one, its blocks. *)
Definition blocks_allowed (opts : WriteOptions) (bs : list block) (id : Z)
    (allowed : BlockCache.Key -> bytes -> Prop) : Prop :=
  forall i recs p e b, bs !! i = Some (recs, p) -> index_for 0 bs !! i = Some e ->
    allowed (BlockCache.mkKey id (Index.Offset e)) b <->
    b = logical_block (Z.to_nat (RestartInterval opts)) recs.

(** A cache all of whose contents are allowed. *)
Definition cache_ok {C} `{!Cache C} (allowed : BlockCache.Key -> bytes -> Prop) (cache : option C) : Prop :=
  match cache with
  | None => True
  | Some c => cache_wf c /\ forall key b, holds c key b -> allowed key b
  end.

(** What one table allows: its blocks under its keys. *)
Definition table_allows (opts : WriteOptions) (bs : list block) (id : Z) (key : BlockCache.Key) (b : bytes) : Prop :=
  forall i recs p e, bs !! i = Some (recs, p) -> index_for 0 bs !! i = Some e ->
    key = BlockCache.mkKey id (Index.Offset e) -> b = logical_block (Z.to_nat (RestartInterval opts)) recs.

(** Several tables allow what each of them allows; with different identifiers
    they do not constrain each other. *)
Lemma tables_allowed {lz : LZ4Codec} {laws : LZ4Laws} {A} (f : A -> WriteOptions * list block * Z) (ts : list A) t Hash128 l flt meta file :
  NoDup ((fun t => (f t).2) <$> ts) -> t ∈ ts -> on_disk Hash128 (f t).1.1 l flt (f t).1.2 meta file ->
  blocks_allowed (f t).1.1 (f t).1.2 (f t).2
    (fun key b => forall t, t ∈ ts -> table_allows (f t).1.1 (f t).1.2 (f t).2 key b).
Proof.
  intros Hnd Ht Hod i recs p e b Hi He. split; [intros H; by eapply (H t)|].
  intros -> t' Ht' j recs' p' e' Hj He' Hk. injection Hk as Hid Hoff.
  assert (t' = t) as ->.
  { apply list_elem_of_lookup in Ht as [x Hx], Ht' as [y Hy].
    assert (x = y) as ->; [| congruence]. eapply NoDup_lookup; [exact Hnd | |]; rewrite list_lookup_fmap.
    - by rewrite Hx.
    - rewrite Hy. simpl. by rewrite Hid. }
  assert (j = i) as ->; [| by rewrite Hj in Hi; injection Hi as -> _].
  by apply (index_for_inj (f t).1.2 j i e' e (od_positive Hash128 _ _ _ _ _ _ Hod)).
Qed.

Lemma table_allowed {lz : LZ4Codec} {laws : LZ4Laws} opts bs id Hash128 l flt meta file :
  on_disk Hash128 opts l flt bs meta file -> blocks_allowed opts bs id (table_allows opts bs id).
Proof.
  intros Hod i recs p e b Hi He. split; [intros H; by eapply H |].
  intros -> j recs' p' e' Hj He' [= Hoff]. assert (j = i) as ->; [| congruence].
  by apply (index_for_inj bs j i e' e (od_positive Hash128 _ _ _ _ _ _ Hod)).
Qed.

Section lookup.
Context {lz : LZ4Codec} {laws : LZ4Laws} {C : Type} `{!Cache C} (Hash128 : bytes -> Z * Z).
Context (opts : WriteOptions) (l : list record) (flt : option Bloom.Filter) (bs : list block)
        (meta : table_meta) (file : bytes) (Hod : on_disk Hash128 opts l flt bs meta file).

Local Abbreviation k := (Z.to_nat (RestartInterval opts)).
Local Abbreviation index := (index_for 0 bs).

Context (allowed : BlockCache.Key -> bytes -> Prop) (id : Z) (Hal : blocks_allowed opts bs id allowed).

(** A table whose metadata is loaded. *)
Definition loaded : SSTable := mkSSTable id true currentVersion index flt.

Lemma readLogicalBlock_od cache i recs p e :
  cache_ok allowed cache -> bs !! i = Some (recs, p) -> index !! i = Some e ->
  exists cache', readLogicalBlock file loaded e cache = Some (Ok (logical_block k recs), cache') /\
    cache_ok allowed cache'.
Proof.
  intros Hc Hi He. unfold readLogicalBlock. pose proof (od_block Hash128 _ _ _ _ _ _ Hod _ _ _ Hi) as Hb.
  rewrite (od_readBlock Hash128 _ _ _ _ _ _ Hod _ _ _ _ Hi He). bind_step. rewrite (gb_decode _ _ _ Hb).
  destruct cache as [c|]; [| by exists None].
  destruct Hc as [Hw Hco]. unfold blockCacheKey. cbn [sst_ID loaded].
  destruct (cache_get_ok (BlockCache.mkKey id (Index.Offset e)) c Hw) as (r & c1 & E & Hw1 & Hr & Hh).
  rewrite E. cbn [mbind option_bind]. destruct r as [b|].
  - exists (Some c1). split; [| split; [done | eauto]]. assert (b = logical_block k recs) as -> by (eapply Hal; eauto). done.
  - destruct (cache_set_ok (BlockCache.mkKey id (Index.Offset e)) (logical_block k recs) c1 Hw1) as (c2 & E2 & Hw2 & Hh2).
    cbn [map_err]. rewrite E2. cbn [mbind option_bind]. exists (Some c2). split; [done |]. split; [done |].
    intros k' b' [[-> ->] | Hb']%Hh2; [by apply (Hal i recs p e) | auto].
Qed.

(** The loop over the blocks from block [i] on. *)
Lemma get_loop_od key maxSeq n i cache :
  (length bs - i = n)%nat -> cache_ok allowed cache ->
  exists cache', get_loop file loaded key maxSeq (drop i index) cache =
      Some (Ok (newest key maxSeq (strip_batch <$> bs_records (drop i bs))), cache') /\
    cache_ok allowed cache'.
Proof.
  revert i cache. induction n as [|n IH]; intros i cache Hn Hc.
  - rewrite !drop_ge by (rewrite ?index_for_length; lia). by exists cache.
  - destruct (lookup_lt_is_Some_2 bs i) as [[recs p] Hi]; [lia |].
    pose proof (index_for_lookup 0 _ _ _ _ Hi) as He. set (e := mkIndexEntry _ _ _) in He.
    erewrite (drop_S index) by exact He. erewrite (drop_S bs) by exact Hi. cbn [get_loop].
    destruct (readLogicalBlock_od cache i recs p e Hc Hi He) as (cache1 & -> & Hc1). cbn [mbind option_bind].
    pose proof (od_block Hash128 _ _ _ _ _ _ Hod _ _ _ Hi) as [Hne Hwf Hs Hsz _ _].
    pose proof (od_interval _ _ _ _ _ _ _ Hod) as Hint.
    destruct (open_seekable k recs) as (c0 & Eo & Hat0 & Hseek); try done; [lia | lia |].
    cbn [sst_version loaded]. change currentVersion with currentFormatVersion. rewrite Eo. cbn [mbind option_bind].
    destruct (Hseek key) as (c1 & j & Es & Hat & Hlt). rewrite Es. cbn [mbind option_bind].
    pose proof (block_count_u32 k recs ltac:(lia) Hsz) as [_ Hcu].
    destruct (scan_block_records key maxSeq recs j c1 (S (Z.to_nat (ccount c1))) Hat Hwf Hcu) as (c2 & Esc & Herr);
      [rewrite (ar_count _ _ _ Hat); unfold len; lia |].
    rewrite Esc. cbn [mbind option_bind].
    assert (Hsp : strip_batch <$> bs_records ((recs, p) :: drop (S i) bs) =
      (strip_batch <$> take j recs) ++ (strip_batch <$> drop j recs) ++ (strip_batch <$> bs_records (drop (S i) bs))).
    { unfold bs_records. rewrite fmap_cons. cbn [concat fst]. rewrite fmap_app, app_assoc. f_equal.
      by rewrite <- fmap_app, take_drop. }
    rewrite Hsp, newest_skip.
    2: { apply Forall_fmap. eapply Forall_impl; [exact Hlt |]. intros r Hr [Hk _].
         change (Key r = key) in Hk. change (Key r < key)%key in Hr. rewrite Hk in Hr. key_order. }
    assert (Hws : wsorted ((strip_batch <$> drop j recs) ++ (strip_batch <$> bs_records (drop (S i) bs)))).
    { rewrite <- fmap_app. apply wsorted_strip. pose proof (od_sorted _ _ _ _ _ _ _ Hod) as Hl.
      rewrite <- (od_records Hash128 _ _ _ _ _ _ Hod), (bs_records_split _ _ _ Hi) in Hl.
      apply StronglySorted_app_1_r in Hl. simpl in Hl.
      rewrite <- (take_drop j recs), <- app_assoc in Hl. by apply StronglySorted_app_1_r in Hl. }
    pose proof (scan_list_newest key maxSeq _ _ Hws) as Hsl.
    destruct (scan_list key maxSeq (strip_batch <$> drop j recs)) as [answer|].
    + exists cache1. by rewrite Hsl.
    + rewrite Herr, Hsl. apply IH; [lia | done].
Qed.

(** The blocks before the one chosen hold smaller keys only. *)
Lemma blocks_before i e key :
  (0 < i)%nat -> index !! i = Some e -> (FirstKey e < key)%key ->
  Forall (fun r => Key r < key)%key (bs_records (take i bs)).
Proof.
  intros Hi He Hlt. destruct (od_index_entry bs i e He) as (recs & p & Hb & Hk).
  pose proof (od_sorted _ _ _ _ _ _ _ Hod) as Hs. rewrite <- (od_records Hash128 _ _ _ _ _ _ Hod) in Hs.
  pose proof (gb_ne _ _ _ (od_block Hash128 _ _ _ _ _ _ Hod _ _ _ Hb)) as Hne.
  rewrite (bs_records_split _ _ _ Hb) in Hs. destruct recs as [|r recs]; [done |]. simpl in *.
  apply Forall_forall. intros x Hx.
  assert (Hle : rec_le x r).
  { eapply StronglySorted_app_1_elem_of; [exact Hs | done | left]. }
  apply rec_le_key in Hle. rewrite Hk in Hlt. key_order.
Qed.

Lemma newest_strip key maxSeq (a b : list record) :
  Forall (fun r => Key r < key)%key a ->
  newest key maxSeq (strip_batch <$> (a ++ b)) = newest key maxSeq (strip_batch <$> b).
Proof.
  intros H. rewrite fmap_app, newest_skip; [done |]. apply Forall_fmap. eapply Forall_impl; [exact H |].
  intros r Hr [Hk _]. change (Key r = key) in Hk. change (Key r < key)%key in Hr. rewrite Hk in Hr. key_order.
Qed.

Lemma GetRecordAt_od key maxSeq s cache :
  s = loaded \/ (exists v ix f, s = mkSSTable id false v ix f) -> cache_ok allowed cache ->
  exists cache', GetRecordAt Hash128 file key maxSeq s cache =
      Some (Ok (newest key maxSeq (strip_batch <$> l)), loaded, cache') /\ cache_ok allowed cache'.
Proof.
  intros Hs Hc.
  assert (Hload : loadMetadata file s = Ok loaded).
  { destruct Hs as [-> | (v & ix & f & ->)]; [done |]. by apply (od_loadMetadata Hash128 opts l flt bs meta file). }
  unfold GetRecordAt. rewrite Hload. cbn [sst_filter loaded sst_index].
  pose proof (od_records Hash128 _ _ _ _ _ _ Hod) as Hrec.
  destruct (decide (key ∈ Key <$> l)) as [Hin | Hnin].
  - assert (Hmay : match flt with None => Some true | Some f => MayContain Hash128 (Some f) key end = Some true).
    { pose proof (od_filter _ _ _ _ _ _ _ Hod) as Hg. destruct flt as [f|]; [| done]. by apply Hg. }
    rewrite Hmay. cbn [mbind option_bind negb].
    assert (Hbs : bs <> []) by (intros ->; rewrite <- Hrec in Hin; by apply elem_of_nil in Hin).
    assert (Hix : index <> []) by (destruct bs as [|[]]; done).
    destruct (Z.eqb_spec (len index) 0) as [E0 |]; [unfold len in E0; rewrite index_for_length in E0; destruct bs; [done | simpl in E0; lia] |].
    destruct (firstPossibleBlock_spec index key (od_index_sorted Hash128 _ _ _ _ _ _ Hod) Hix) as (i & Ei & Hi & Hbefore & _).
    rewrite Ei. destruct (Z.ltb_spec (Z.of_nat i) 0); [lia |]. rewrite Nat2Z.id.
    destruct (get_loop_od key maxSeq (length bs - i) i cache eq_refl Hc) as (cache' & -> & Hc'). cbn [mbind option_bind].
    exists cache'. split; [| done]. do 4 f_equal. rewrite <- Hrec, (bs_records_drop bs i).
    destruct (decide (i = 0%nat)) as [-> |]; [done |].
    destruct (lookup_lt_is_Some_2 index i Hi) as [e He]. symmetry. apply newest_strip.
    apply (blocks_before i e key); [lia | done | apply Hbefore; [lia | done]].
  - assert (Hnone : newest key maxSeq (strip_batch <$> l) = None).
    { apply newest_None. intros r (x & -> & Hx)%list_elem_of_fmap [Hk _]. apply Hnin.
      apply list_elem_of_fmap. by exists x. }
    rewrite Hnone.
    assert (Hm : exists m, match flt with None => Some true | Some f => MayContain Hash128 (Some f) key end = Some m).
    { pose proof (od_filter _ _ _ _ _ _ _ Hod) as Hg. destruct flt as [f|]; [| by exists true].
      destruct Hg as [[Hw _] _]. rewrite MayContain_wf by done. eauto. }
    destruct Hm as [m ->]. cbn [mbind option_bind]. destruct m; [| by exists cache]. cbn [negb].
    destruct (Z.eqb_spec (len index) 0); [by exists cache |].
    assert (Hix : index <> []) by (intros E; rewrite E in *; done).
    destruct (firstPossibleBlock_spec index key (od_index_sorted Hash128 _ _ _ _ _ _ Hod) Hix) as (i & Ei & Hi & Hbefore & _).
    rewrite Ei. destruct (Z.ltb_spec (Z.of_nat i) 0); [lia |]. rewrite Nat2Z.id.
    destruct (get_loop_od key maxSeq (length bs - i) i cache eq_refl Hc) as (cache' & -> & Hc'). cbn [mbind option_bind].
    exists cache'. split; [| done]. do 4 f_equal. apply newest_None.
    intros r (x & -> & Hx)%list_elem_of_fmap [Hk _]. apply Hnin. apply list_elem_of_fmap. exists x. split; [done |].
    rewrite <- Hrec, (bs_records_drop bs i). apply elem_of_app. by right.
Qed.

(** ** The iterator *)

(** A cursor with the records [rs] ahead of it. *)
Definition cur_rest (c : cursor) (rs : list record) : Prop :=
  (c = zero_cursor /\ rs = []) \/
  exists recs j, at_record recs j c /\ Forall wf_record recs /\ len recs <= u32_max /\
    rs = strip_batch <$> drop j recs.

Lemma cur_rest_next c rs :
  cur_rest c rs ->
  match rs with
  | [] => cursor_next c = Some (None, c) /\ cerr c = None
  | r :: rs => exists c', cursor_next c = Some (Some r, c') /\ cur_rest c' rs
  end.
Proof.
  intros [[-> ->] | (recs & j & Hat & Hwf & Hl & ->)]; [done |].
  destruct (decide (j = length recs)) as [-> | Hne].
  - rewrite drop_ge by lia. simpl. split; [by apply (cursor_next_end recs) | apply Hat].
  - pose proof (ar_le _ _ _ Hat). destruct (lookup_lt_is_Some_2 recs j) as [r Hr]; [lia |].
    erewrite drop_S by done. rewrite fmap_cons.
    destruct (cursor_next_record _ _ _ _ Hat Hr) as (c1 & E & Hat1 & _); [| done |].
    { rewrite Forall_lookup in Hwf. eauto. }
    exists c1. split; [done |]. right. eauto 10.
Qed.

(** The iterator has the records [rs] of its block and the blocks from [i] on
    ahead of it. *)
Record iter_rest (it : TIterator) (i : nat) (rs : list record) : Prop := mkIterRest {
  ir_file : ti_file it = file;
  ir_sst : ti_sst it = loaded;
  ir_index : ti_index it = index;
  ir_block : ti_blockIndex it = Z.of_nat i - 1;
  ir_cursor : cur_rest (ti_cursor it) rs;
  ir_pending : ti_pending it = None;
  ir_err : ti_err it = None;
  ir_cache : cache_ok allowed (ti_cache it);
}.

(** Loading block [i] puts its records ahead. *)
Lemma loadBlock_od it i recs p :
  ti_file it = file -> ti_sst it = loaded -> ti_index it = index -> ti_pending it = None ->
  ti_err it = None -> cache_ok allowed (ti_cache it) -> bs !! i = Some (recs, p) ->
  exists it', loadBlock (Z.of_nat i) it = Some (None, it') /\
    iter_rest it' (S i) (strip_batch <$> recs) /\ seekable recs (ti_cursor it').
Proof.
  intros Hf Hsst Hix Hp He Hc Hi. unfold loadBlock. rewrite Nat2Z.id, Hix.
  pose proof (index_for_lookup 0 _ _ _ _ Hi) as Hent. rewrite Hent. cbn [mbind option_bind].
  rewrite Hf, Hsst. destruct (readLogicalBlock_od (ti_cache it) i recs p _ Hc Hi Hent) as (cache' & -> & Hc').
  cbn [mbind option_bind ti_sst ti_set_cache]. rewrite Hsst. cbn [sst_version loaded].
  pose proof (od_block Hash128 _ _ _ _ _ _ Hod _ _ _ Hi) as [Hne Hwf Hs Hsz _ _].
  pose proof (od_interval _ _ _ _ _ _ _ Hod) as Hint.
  destruct (open_seekable k recs) as (c0 & Eo & Hat0 & Hseek); try done; [lia | lia |].
  change currentVersion with currentFormatVersion. rewrite Eo. cbn [mbind option_bind].
  eexists. split; [reflexivity |]. split; [| by split].
  constructor; cbn; try done; [lia |]. right. exists recs, 0%nat. split_and!; try done.
  apply (block_count_u32 k recs ltac:(lia) Hsz).
Qed.

Lemma next_loop_od n it i rs :
  (length bs - i < n)%nat -> iter_rest it i rs ->
  match rs ++ (strip_batch <$> bs_records (drop i bs)) with
  | [] => exists it', next_loop n it = Some (false, it') /\ ti_err it' = None /\ cache_ok allowed (ti_cache it')
  | r :: rest => exists it' i' rs', next_loop n it = Some (true, it') /\ ti_current it' = r /\
      iter_rest it' i' rs' /\ rs' ++ (strip_batch <$> bs_records (drop i' bs)) = rest
  end.
Proof.
  revert it i rs. induction n as [|n IH]; intros it i rs Hn Hr; [lia |]. cbn [next_loop].
  pose proof (cur_rest_next _ _ (ir_cursor _ _ _ Hr)) as Hnext. destruct rs as [|r rs]; simpl app.
  - destruct Hnext as [E Hce]. rewrite E. cbn [mbind option_bind]. rewrite Hce.
    cbn [ti_blockIndex ti_set_block ti_set_cursor ti_index]. rewrite (ir_block _ _ _ Hr), (ir_index _ _ _ Hr).
    replace (Z.of_nat i - 1 + 1) with (Z.of_nat i) by lia.
    assert (Hli : len index = Z.of_nat (length bs)) by (unfold len; by rewrite index_for_length).
    destruct (Z.geb_spec (Z.of_nat i) (len index)) as [Hge | Hlt].
    + rewrite drop_ge by lia. simpl. eexists. split; [reflexivity |]. split; apply Hr.
    + destruct (lookup_lt_is_Some_2 bs i) as [[recs p] Hi]; [lia |].
      set (it1 := ti_set_block (Z.of_nat i) (ti_set_cursor (ti_cursor it) it)).
      destruct (loadBlock_od it1 i recs p) as (it2 & -> & Hr2 & _); try apply Hr; [done |]. cbn [mbind option_bind].
      specialize (IH it2 (S i) (strip_batch <$> recs) ltac:(lia) Hr2). erewrite (drop_S bs) by exact Hi.
      assert (Hsp : strip_batch <$> bs_records ((recs, p) :: drop (S i) bs) =
        (strip_batch <$> recs) ++ (strip_batch <$> bs_records (drop (S i) bs))).
      { unfold bs_records. rewrite fmap_cons. cbn [concat fst]. by rewrite fmap_app. }
      rewrite Hsp. exact IH.
  - destruct Hnext as (c' & E & Hc'). rewrite E. cbn [mbind option_bind].
    eexists _, i, rs. split; [reflexivity |]. split; [done |]. split; [| done].
    destruct Hr as [H1 H2 H3 H4 _ H6 H7 H8]. by constructor.
Qed.

(** The iterator has exactly the records [rest] ahead: the one [Seek] found, if
    any, those of its block and those of the later blocks. *)
Definition ahead (it : TIterator) (rest : list record) : Prop :=
  exists i rs, iter_rest (ti_set_pending None it) i rs /\
    rest = option_list (ti_pending it) ++ rs ++ (strip_batch <$> bs_records (drop i bs)).

Lemma iter_rest_ahead it i rs : iter_rest it i rs -> ahead it (rs ++ (strip_batch <$> bs_records (drop i bs))).
Proof.
  intros [H1 H2 H3 H4 H5 H6 H7 H8]. exists i, rs. rewrite H6. split; [by constructor | done].
Qed.

Lemma ahead_ok it rest : ahead it rest -> cache_ok allowed (ti_cache it).
Proof. intros (i & rs & Hr & _). apply Hr. Qed.

(** Another coherent cache, as other readers of the same cache leave it, makes
    no difference. *)
Lemma ahead_set_cache it rest cache : ahead it rest -> cache_ok allowed cache -> ahead (ti_set_cache cache it) rest.
Proof. intros (i & rs & [H1 H2 H3 H4 H5 H6 H7 H8] & E) Hc. exists i, rs. split; [by constructor | done]. Qed.

Lemma ahead_next it rest :
  ahead it rest ->
  match rest with
  | [] => exists it', TIterator_Next it = Some (false, it') /\ ti_err it' = None /\ cache_ok allowed (ti_cache it')
  | r :: rest => exists it', TIterator_Next it = Some (true, it') /\ ti_current it' = r /\ ahead it' rest
  end.
Proof.
  intros (i & rs & Hr & ->). unfold TIterator_Next.
  pose proof (ir_err _ _ _ Hr) as He. cbn [ti_err ti_set_pending] in He. rewrite He.
  destruct (ti_pending it) as [r|] eqn:Ep; cbn [option_list app].
  - eexists. split; [reflexivity |]. split; [done |]. apply iter_rest_ahead.
    destruct Hr as [H1 H2 H3 H4 H5 H6 H7 H8]. by constructor.
  - assert (Hr' : iter_rest it i rs) by (destruct Hr as [H1 H2 H3 H4 H5 H6 H7 H8]; by constructor).
    pose proof (next_loop_od (S (S (length bs))) it i rs ltac:(lia) Hr') as Hn.
    rewrite (ir_index _ _ _ Hr'), index_for_length. destruct (rs ++ _) as [|r rest]; [done |].
    destruct Hn as (it' & i' & rs' & E & Hcur & Hr2 & <-). exists it'. split; [done |]. split; [done |].
    by apply iter_rest_ahead.
Qed.

Lemma ahead_yields it rest : ahead it rest -> yields it rest.
Proof.
  revert it. induction rest as [|r rest IH]; intros it Ha; apply ahead_next in Ha.
  - destruct Ha as (it' & E & He & _). by eapply yields_nil.
  - destruct Ha as (it' & E & Hc & Ha). eapply (yields_cons (E := read_error)); [exact E | exact Hc | by apply IH].
Qed.

(** A new iterator yields the records of the table. *)
Lemma Iterator_od s cache :
  s = loaded \/ (exists v ix f, s = mkSSTable id false v ix f) -> cache_ok allowed cache ->
  exists it, Iterator_ file s cache = Ok it /\ iter_rest it 0 [] /\ ahead it (strip_batch <$> l).
Proof.
  intros Hs Hc.
  assert (Hload : loadMetadata file s = Ok loaded).
  { destruct Hs as [-> | (v & ix & f & ->)]; [done |]. by apply (od_loadMetadata Hash128 opts l flt bs meta file). }
  unfold Iterator_. rewrite Hload. bind_step. eexists. split; [reflexivity |].
  assert (Hr : iter_rest (mkTIterator file loaded (sst_index loaded) (-1) zero_cursor zero_record None None cache) 0 []).
  { constructor; try done. by left. }
  split; [exact Hr |]. pose proof (iter_rest_ahead _ 0 [] Hr) as Hy.
  change (drop 0 bs) with bs in Hy. cbn [app] in Hy.
  by rewrite (od_records Hash128 _ _ _ _ _ _ Hod) in Hy.
Qed.

Lemma from_key_all key (rs : list record) r :
  wsorted (r :: rs) -> (key <= Key r)%key -> from_key key (r :: rs) = r :: rs.
Proof.
  intros Hs Hk. apply list_filter_all. inversion Hs as [|? ? _ Hf]; subst. constructor; [done |].
  eapply Forall_impl; [exact Hf |]. intros x Hx%rec_le_key. key_order.
Qed.

(** The scan of [Seek] leaves the iterator before the first record at or after
    the key. *)
Lemma seek_loop_od key n it i rs :
  (length rs < n)%nat -> iter_rest it i rs -> wsorted rs ->
  exists it', seek_loop n key it = Some (None, it') /\
    ahead it' (from_key key rs ++ (strip_batch <$> bs_records (drop i bs))).
Proof.
  revert it rs. induction n as [|n IH]; intros it rs Hn Hr Hs; [lia |]. cbn [seek_loop].
  pose proof (cur_rest_next _ _ (ir_cursor _ _ _ Hr)) as Hnext. destruct rs as [|r rs].
  - destruct Hnext as [E Hce]. rewrite E. cbn [mbind option_bind]. rewrite Hce.
    eexists. split; [reflexivity |]. apply (iter_rest_ahead _ i []).
    destruct Hr as [H1 H2 H3 H4 H5 H6 H7 H8]. by constructor.
  - destruct Hnext as (c' & E & Hc'). rewrite E. cbn [mbind option_bind].
    assert (Hr' : iter_rest (ti_set_cursor c' it) i rs).
    { destruct Hr as [H1 H2 H3 H4 _ H6 H7 H8]. by constructor. }
    destruct (key_leb_spec key (Key r)) as [Hle | Hlt].
    + eexists. split; [reflexivity |]. rewrite from_key_all by done.
      exists i, rs. split; [| done]. destruct Hr' as [H1 H2 H3 H4 H5 H6 H7 H8]. by constructor.
    + rewrite filter_cons_False by (intros ?; key_order).
      simpl in Hn. inversion Hs; subst. apply IH; [lia | done | done].
Qed.

Lemma later_blocks i key :
  (forall j e, (i < j)%nat -> index !! j = Some e -> (key <= FirstKey e)%key) ->
  Forall (fun r => key <= Key r)%key (bs_records (drop (S i) bs)).
Proof.
  intros Hge. apply Forall_forall. intros r Hr. unfold bs_records in Hr.
  apply list_elem_of_In, in_concat in Hr as (recs & Hin & Hrin).
  apply list_elem_of_In in Hrin, Hin.
  apply list_elem_of_fmap in Hin as ([recs' p] & -> & Hin).
  apply list_elem_of_lookup in Hin as [j Hj]. rewrite lookup_drop in Hj. simpl in Hrin.
  pose proof (index_for_lookup 0 _ _ _ _ Hj) as He. specialize (Hge (S i + j)%nat _ ltac:(lia) He). simpl in Hge.
  pose proof (gb_sorted _ _ _ (od_block Hash128 _ _ _ _ _ _ Hod _ _ _ Hj)) as Hs.
  destruct recs' as [|r0 recs']; [by apply elem_of_nil in Hrin |]. simpl in Hge.
  apply elem_of_cons in Hrin as [-> | Hrin]; [done |]. inversion Hs as [|? ? _ Hf]; subst.
  rewrite Forall_forall in Hf. specialize (Hf r Hrin). apply rec_le_key in Hf. key_order.
Qed.

Lemma from_key_strip_app key a b c :
  Forall (fun r => Key r < key)%key a -> Forall (fun r => key <= Key r)%key c ->
  from_key key (strip_batch <$> (a ++ b ++ c)) = from_key key (strip_batch <$> b) ++ (strip_batch <$> c).
Proof.
  intros Ha Hc. rewrite !fmap_app, !filter_app. rewrite (list_filter_nil _ (strip_batch <$> a)).
  - simpl. f_equal. apply list_filter_all, Forall_fmap. eapply Forall_impl; [exact Hc |]. done.
  - apply Forall_fmap. eapply Forall_impl; [exact Ha |]. intros r Hr Hk.
    change (Key r < key)%key in Hr. change (key <= Key r)%key in Hk. key_order.
Qed.

(** After a seek on a new or running iterator without error, it yields the
    records at or after the key. *)
Lemma TIterator_Seek_od it i rs key :
  iter_rest it i rs ->
  exists it', TIterator_Seek key it = Some (None, it') /\ ahead it' (from_key key (strip_batch <$> l)).
Proof.
  intros [H1 H2 H3 H4 H5 H6 H7 H8]. unfold TIterator_Seek. rewrite H7.
  set (it0 := ti_set_pending None _). cbn [ti_index]. change (ti_index it0) with (ti_index it). rewrite H3.
  pose proof (od_records Hash128 _ _ _ _ _ _ Hod) as Hrec.
  destruct (Z.eqb_spec (len index) 0) as [E0 | Hne].
  - assert (Hb : bs = []) by (destruct bs; [done | unfold len in E0; rewrite index_for_length in E0; simpl in E0; lia]).
    eexists. split; [reflexivity |].
    assert (Hl : l = []) by (rewrite <- Hrec, Hb; done). rewrite Hl.
    assert (Hr0 : iter_rest (ti_set_block 0 it0) 1 []) by (constructor; try done; by left).
    pose proof (iter_rest_ahead _ 1 [] Hr0) as Hy. rewrite Hb in Hy. exact Hy.
  - assert (Hix : index <> []) by (intros E; rewrite E in *; done).
    destruct (firstPossibleBlock_spec index key (od_index_sorted Hash128 _ _ _ _ _ _ Hod) Hix)
      as (j & Ej & Hj & Hbefore & Hafter). rewrite Ej. rewrite index_for_length in Hj.
    destruct (lookup_lt_is_Some_2 bs j Hj) as [[recs p] Hbj].
    destruct (loadBlock_od it0 j recs p) as (it1 & -> & Hr1 & Hat & Hseek); try done. cbn [mbind option_bind].
    destruct (Hseek key) as (c & q & -> & Hatq & Hlt). cbn [mbind option_bind].
    pose proof (od_block Hash128 _ _ _ _ _ _ Hod _ _ _ Hbj) as [_ Hwf Hs Hsz _ _].
    pose proof (od_interval _ _ _ _ _ _ _ Hod) as Hint. pose proof (block_count_u32 k recs ltac:(lia) Hsz) as [_ Hcu].
    assert (Hrq : iter_rest (ti_set_cursor c it1) (S j) (strip_batch <$> drop q recs)).
    { destruct Hr1 as [G1 G2 G3 G4 G5 G6 G7 G8]. constructor; try done. right. by exists recs, q. }
    destruct (seek_loop_od key (S (Z.to_nat (ccount c))) (ti_set_cursor c it1) (S j) (strip_batch <$> drop q recs)) as (it2 & E2 & Hy); [| exact Hrq | |].
    { rewrite (ar_count _ _ _ Hatq), length_fmap, length_drop. unfold len. lia. }
    { apply wsorted_strip. rewrite <- (take_drop q recs) in Hs. by apply StronglySorted_app_1_r in Hs. }
    exists it2. split; [exact E2 |].
    pose proof (bs_records_split _ _ _ Hbj) as Hsp. simpl in Hsp. rewrite Hrec in Hsp.
    assert (Hall : l = (bs_records (take j bs) ++ take q recs) ++ drop q recs ++ bs_records (drop (S j) bs)).
    { rewrite Hsp, <- app_assoc, (app_assoc (take q recs)), take_drop. done. }
    rewrite Hall, from_key_strip_app; [exact Hy | | by apply later_blocks].
    apply Forall_app. split; [| done]. destruct (decide (j = 0%nat)) as [-> |]; [constructor |].
    pose proof (index_for_lookup 0 _ _ _ _ Hbj) as He.
    eapply blocks_before; [| exact He | apply Hbefore; [lia | exact He]]. lia.
Qed.
End lookup.
