(* ===== verification/TableRefs.v ===== *)
(** * The reference count of a table

    Models [Acquire], [Release] and [Retire] of [internal/sstable/sstable.go]:
    readers hold references to a table, and [Retire] returns a channel that is
    to be closed once the last of them is gone.  Each of the three runs under
    [refMu], so an execution is a sequence of them.  Channels are entries of a
    heap and are open or closed; closing a nil or a closed channel panics, and
    a result [None] is such a panic. *)

From S2P Require Export Prelude.

(** ** Data and operations *)

Record refstate := mkRefs {
  refs : Z;
  retired : bool;
  noRefsCh : option nat;   (** the channel, an index into [chans]; [None] is nil *)
  chans : list bool;       (** whether each channel made so far is closed *)
}.

(** [New] makes the channel; the writer's literal leaves it nil. *)
Definition New_refs : refstate := mkRefs 0 false (Some 0%nat) [false].
Definition Writer_refs : refstate := mkRefs 0 false None [].

(** [close(c)] *)
Definition close (c : option nat) (cs : list bool) : option (list bool) :=
  i ← c;
  b ← cs !! i;
  if (b : bool) then None else Some (<[i := true]> cs).

Inductive ref_op : Type := Acquire | Release | Retire.

Inductive ref_out : Type :=
| OutRetired                    (** [ErrRetired] *)
| OutDone
| OutChan (c : option nat).     (** the channel [Retire] returns *)

Definition acquire (s : refstate) : option (ref_out * refstate) :=
  if retired s then Some (OutRetired, s)
  else
    let '(ch, cs) := if refs s =? 0 then (Some (length (chans s)), chans s ++ [false]) else (noRefsCh s, chans s) in
    Some (OutDone, mkRefs (refs s + 1) (retired s) ch cs).

Definition release (s : refstate) : option (ref_out * refstate) :=
  if refs s =? 0 then Some (OutDone, s)
  else
    let n := refs s - 1 in
    cs ← (if n =? 0 then close (noRefsCh s) (chans s) else Some (chans s));
    Some (OutDone, mkRefs n (retired s) (noRefsCh s) cs).

Definition retire (s : refstate) : option (ref_out * refstate) :=
  if retired s then Some (OutChan (noRefsCh s), s)
  else
    cs ← (if refs s =? 0 then close (noRefsCh s) (chans s) else Some (chans s));
    Some (OutChan (noRefsCh s), mkRefs (refs s) true (noRefsCh s) cs).

Definition ref_step (o : ref_op) : refstate -> option (ref_out * refstate) :=
  match o with Acquire => acquire | Release => release | Retire => retire end.

Fixpoint ref_run (ops : list ref_op) (s : refstate) : option (list ref_out * refstate) :=
  match ops with
  | [] => Some ([], s)
  | o :: ops => '(out, s) ← ref_step o s; '(outs, s) ← ref_run ops s; Some (out :: outs, s)
  end.

(** ** The abstract counter *)

(** The count, whether the table is retired and whether it was ever
    acquired: all that the behaviour depends on. *)
Record counter := mkCounter { held : Z; closing : bool; used : bool }.

(** A step of the counter; [None] where the code panics: the first [Retire] of
    a table that was used before and is idle now. *)
Definition count_step (o : ref_op) (a : counter) : option counter :=
  match o with
  | Acquire => Some (if closing a then a else mkCounter (held a + 1) false true)
  | Release => Some (if held a =? 0 then a else mkCounter (held a - 1) (closing a) (used a))
  | Retire =>
      if closing a then Some a
      else if (held a =? 0) && used a then None
      else Some (mkCounter (held a) true (used a))
  end.

Fixpoint count_run (ops : list ref_op) (a : counter) : option counter :=
  match ops with [] => Some a | o :: ops => a ← count_step o a; count_run ops a end.

(** The current channel of a state is closed. *)
Definition current_closed (s : refstate) : option bool := c ← noRefsCh s; chans s !! c.

(** The channel is closed exactly when nobody holds the table and it was
    either retired or used before. *)
Record counts (s : refstate) (a : counter) : Prop := mkCounts {
  ct_held : refs s = held a;
  ct_retired : retired s = closing a;
  ct_nonneg : 0 <= held a;
  ct_unused : used a = false -> held a = 0;
  ct_closed : current_closed s = Some ((held a =? 0) && (closing a || used a));
}.

Lemma New_counts : counts New_refs (mkCounter 0 false false).
Proof. by constructor. Qed.

Lemma close_open s :
  current_closed s = Some false -> exists cs, close (noRefsCh s) (chans s) = Some cs /\
    forall n rt, current_closed (mkRefs n rt (noRefsCh s) cs) = Some true.
Proof.
  unfold current_closed, close. destruct (noRefsCh s) as [c|]; simpl; [| done].
  intros Hc. rewrite Hc. simpl. eexists. split; [done |]. intros _ _.
  apply list_lookup_insert_eq. by eapply lookup_lt_Some.
Qed.

Lemma close_closed s : current_closed s = Some true -> close (noRefsCh s) (chans s) = None.
Proof. unfold current_closed, close. destruct (noRefsCh s) as [c|]; simpl; [| done]. by intros ->. Qed.

Lemma step_counts o s a :
  counts s a ->
  match count_step o a with
  | Some a' => exists out s', ref_step o s = Some (out, s') /\ counts s' a'
  | None => ref_step o s = None
  end.
Proof.
  intros [Hh Hr Hn Hu Hc]. destruct o; simpl.
  - unfold acquire. rewrite Hr. destruct (closing a) eqn:Ec; [by do 2 eexists; split; [done |]; constructor; rewrite ?Ec |].
    rewrite Hh. destruct (Z.eqb_spec (held a) 0) as [E0 | Hne]; do 2 eexists; (split; [reflexivity |]);
      constructor; cbn [refs retired held closing used noRefsCh chans]; try done; try lia.
    + unfold current_closed. cbn [noRefsCh chans mbind option_bind]. rewrite lookup_app_r, Nat.sub_diag by done.
      destruct (Z.eqb_spec (held a + 1) 0); [lia | done].
    + unfold current_closed in *. cbn [noRefsCh chans]. rewrite Hc. destruct (Z.eqb_spec (held a + 1) 0); [lia | done].
  - unfold release. rewrite Hh. destruct (Z.eqb_spec (held a) 0) as [E0 | Hne].
    { do 2 eexists. split; [done |]. constructor; try done. by rewrite E0. }
    cbn [negb andb] in Hc. destruct (Z.eqb_spec (held a - 1) 0) as [E1 | Hn1].
    + destruct (close_open s Hc) as (cs & -> & Hcl). do 2 eexists. split; [reflexivity |].
      constructor; cbn [refs retired held closing used]; try done; try lia.
      rewrite Hcl, E1. simpl. destruct (used a); [by rewrite orb_true_r | by destruct Hne; apply Hu].
    + do 2 eexists. split; [reflexivity |]. constructor; cbn [refs retired held closing used]; try done; try lia.
      { intros Eu. by apply Hu in Eu. }
      destruct (Z.eqb_spec (held a - 1) 0); [done |]. exact Hc.
  - unfold retire. rewrite Hr. destruct (closing a) eqn:Ec; [by do 2 eexists; split; [done |]; constructor; rewrite ?Ec |].
    rewrite Hh. destruct (Z.eqb_spec (held a) 0) as [E0 | Hne]; simpl in Hc |- *.
    + destruct (used a) eqn:Eu; simpl.
      * by rewrite close_closed.
      * destruct (close_open s Hc) as (cs & -> & Hcl). do 2 eexists. split; [reflexivity |].
        constructor; cbn [refs retired held closing used]; try done. by rewrite Hcl, E0.
    + do 2 eexists. split; [reflexivity |]. constructor; cbn [refs retired held closing used]; try done.
      destruct (Z.eqb_spec (held a) 0); [done | exact Hc].
Qed.

Lemma run_counts ops s a :
  counts s a ->
  match count_run ops a with
  | Some a' => exists outs s', ref_run ops s = Some (outs, s') /\ counts s' a'
  | None => ref_run ops s = None
  end.
Proof.
  revert s a. induction ops as [|o ops IH]; intros s a Hs; cbn [count_run ref_run]; [by eauto |].
  pose proof (step_counts o s a Hs) as Ho. destruct (count_step o a) as [a1|]; cbn [mbind option_bind].
  - destruct Ho as (out & s1 & -> & H1). cbn [mbind option_bind]. specialize (IH s1 a1 H1).
    destruct (count_run ops a1); [| by rewrite IH]. destruct IH as (outs & s2 & -> & H2). simpl. eauto.
  - by rewrite Ho.
Qed.

(** The reference count follows the abstract counter.  For every sequence
    of acquires, releases and retirements of an opened table the code panics
    exactly where the counter says - at a first [Retire] of a table that was
    used and is idle - and otherwise agrees with it on the count, on being
    retired, and on the channel being closed: exactly when nobody holds the
    table and it was retired or used. *)
Theorem refs_refine ops :
  match count_run ops (mkCounter 0 false false) with
  | Some a => exists outs s, ref_run ops New_refs = Some (outs, s) /\ refs s = held a /\ retired s = closing a /\
      current_closed s = Some ((held a =? 0) && (closing a || used a))
  | None => ref_run ops New_refs = None
  end.
Proof.
  pose proof (run_counts ops _ _ New_counts) as H. destruct (count_run ops _) as [a|]; [| done].
  destruct H as (outs & s & E & [H1 H2 _ _ H5]). eauto 6.
Qed.

Lemma retired_step o s out s' :
  retired s = true -> ref_step o s = Some (out, s') ->
  retired s' = true /\ noRefsCh s' = noRefsCh s /\ refs s' <= Z.max 0 (refs s) /\
  (o = Acquire -> out = OutRetired) /\ (o = Retire -> out = OutChan (noRefsCh s)).
Proof.
  intros Hr. destruct o; simpl; unfold acquire, release, retire; rewrite ?Hr.
  - intros [= <- <-]. by split_and!; try lia.
  - destruct (Z.eqb_spec (refs s) 0); [intros [= <- <-]; by split_and!; try lia |].
    destruct (if refs s - 1 =? 0 then _ else _); simpl; [| done]. intros [= <- <-]. simpl. by split_and!; try lia.
  - intros [= <- <-]. by split_and!; try lia.
Qed.

(** C38: retirement drains.  Once [Retire] has returned a channel, whatever
    happens next never panics, no [Acquire] succeeds any more, the channel
    stays the same one, and it is closed exactly when the last holder is
    gone. *)
Theorem retire_drains ops1 ops2 outs s out s1 :
  ref_run ops1 New_refs = Some (outs, s) -> ref_step Retire s = Some (out, s1) ->
  exists outs2 s2, ref_run ops2 s1 = Some (outs2, s2) /\ out = OutChan (noRefsCh s2) /\
    current_closed s2 = Some (refs s2 =? 0) /\
    forall i, ops2 !! i = Some Acquire -> outs2 !! i = Some OutRetired.
Proof.
  intros E1 E2.
  assert (H1 : exists a, counts s1 a /\ closing a = true /\ out = OutChan (noRefsCh s1)).
  { pose proof (run_counts ops1 _ _ New_counts) as H. destruct (count_run ops1 _) as [a|]; [| congruence].
    destruct H as (outs' & s' & E & Hs). assert (s' = s) as -> by congruence.
    pose proof (step_counts Retire s a Hs) as Hst. destruct (count_step Retire a) as [a1|] eqn:Ea; [| congruence].
    destruct Hst as (o & s1' & Eo & Hs1). rewrite E2 in Eo. injection Eo as <- <-.
    exists a1. split; [done |]. simpl in Ea, E2. unfold retire in E2. split.
    - destruct (closing a) eqn:Ec; [congruence |]. destruct ((held a =? 0) && used a); [done |]. by injection Ea as <-.
    - destruct (retired s); [congruence |]. destruct (if refs s =? 0 then _ else _); simpl in E2; [| done].
      by injection E2 as <- <-. }
  destruct H1 as (a & Hs1 & Hcl & ->). clear E1 E2. revert s1 a Hs1 Hcl.
  induction ops2 as [|o ops2 IH]; intros s1 a Hs1 Hcl; simpl.
  - do 2 eexists. split; [reflexivity |]. split; [done |]. split; [| done].
    rewrite (ct_closed _ _ Hs1), (ct_held _ _ Hs1), Hcl. simpl. by rewrite andb_true_r.
  - pose proof (step_counts o s1 a Hs1) as Hst.
    destruct (count_step o a) as [a1|] eqn:Ea; cycle 1.
    { destruct o; simpl in Ea; rewrite ?Hcl in Ea; done. }
    destruct Hst as (out & s2 & E & Hs2). rewrite E. cbn [mbind option_bind].
    assert (Hr : retired s1 = true) by (by rewrite (ct_retired _ _ Hs1)).
    destruct (retired_step o s1 out s2 Hr E) as (Hr2 & Hch & _ & Hacq & _).
    assert (Hcl1 : closing a1 = true) by (by rewrite <- (ct_retired _ _ Hs2)).
    destruct (IH s2 a1 Hs2 Hcl1) as (outs2 & s3 & -> & Ho & Hc & Hall).
    simpl. do 2 eexists. split; [reflexivity |]. rewrite <- Hch. split; [done |]. split; [done |].
    intros [|i]; simpl; [| apply Hall]. intros [= ->]. by rewrite Hacq.
Qed.

Lemma retire_drains_witness :
  exists outs2 s2, ref_run [Acquire; Release; Release] (mkRefs 2 true (Some 1%nat) [false; false]) = Some (outs2, s2) /\
    OutChan (Some 1%nat) = OutChan (noRefsCh s2) /\ current_closed s2 = Some (refs s2 =? 0) /\
    forall i, [Acquire; Release; Release] !! i = Some Acquire -> outs2 !! i = Some OutRetired.
Proof.
  refine (retire_drains [Acquire; Acquire] [Acquire; Release; Release] [OutDone; OutDone]
    (mkRefs 2 false (Some 1%nat) [false; false]) (OutChan (Some 1%nat)) _ _ _); reflexivity.
Defined.

(** What goes wrong on retirement.  A table that was read and is idle, and
    a table as the writer returns it, panic when they are retired. *)
Theorem retire_panics :
  ref_run [Acquire; Release; Retire] New_refs = None /\ ref_run [Retire] Writer_refs = None.
Proof. split; reflexivity. Qed.
