(* ===== verification/Resources.v ===== *)
(** * What readers hold

    The references and open files that iterators take and give back: opening and
    closing a table iterator ([internal/sstable/iterator.go]), [closeSources] of
    the database iterator ([internal/db/iterator.go]) and [closeIterators] of the
    merge ([internal/compaction/compaction.go]).  What is read is modelled
    elsewhere; here it is only known whether a step fails, and a function is
    followed through all its exits.  [None] is a panic. *)

From S2P Require Export TableRefs.

(** ** The iterator of a table *)

(** [sst], [file], [refHeld] and [closed] of an iterator. *)
Record table_iter := mkTableIter { tr_table : nat; tr_file : option nat; tr_refHeld : bool; tr_closed : bool }.

(** The tables by number, and the open file descriptions. *)
Record resources := mkResources { rs_tables : list refstate; rs_files : gset nat }.

(** Which of the steps of [Iterator] fails. *)
Inductive open_fault := LoadFails | OpenFails.

Definition set_table (t : nat) (r : refstate) (s : resources) : resources := mkResources (<[t := r]> (rs_tables s)) (rs_files s).

(** [s.Release()] *)
Definition release_table (t : nat) (s : resources) : option resources :=
  r ← rs_tables s !! t;
  '(_, r) ← release r;
  Some (set_table t r s).

Definition Table_Iterator (t : nat) (fault : option open_fault) (s : resources) : option (option table_iter * resources) :=
  r ← rs_tables s !! t;
  '(out, r) ← acquire r;
  let s := set_table t r s in
  match out with
  | OutRetired => Some (None, s)
  | _ =>
      match fault with
      | Some LoadFails => s ← release_table t s; Some (None, s)
      | Some OpenFails => s ← release_table t s; Some (None, s)
      | None =>
          let fd := fresh (rs_files s) in
          Some (Some (mkTableIter t (Some fd) true false), mkResources (rs_tables s) ({[fd]} ∪ rs_files s))
      end
  end.

Definition Table_Close (it : table_iter) (s : resources) : option (table_iter * resources) :=
  if tr_closed it then Some (it, s)
  else
    let s := match tr_file it with Some fd => mkResources (rs_tables s) (rs_files s ∖ {[fd]}) | None => s end in
    if tr_refHeld it then s ← release_table (tr_table it) s; Some (mkTableIter (tr_table it) None false true, s)
    else Some (mkTableIter (tr_table it) None false true, s).

(** The loop of [closeSources] over the table iterators; what closing a file
    reports is left out. *)
Fixpoint close_all (its : list table_iter) (s : resources) : option (list table_iter * resources) :=
  match its with
  | [] => Some ([], s)
  | it :: its => '(it, s) ← Table_Close it s; '(its, s) ← close_all its s; Some (it :: its, s)
  end.

(** ** The merge *)

Definition closeIterators (its : list table_iter) (s : resources) : option resources :=
  '(_, s) ← close_all its s; Some s.

(** An input: its table, whether opening fails, whether its first [Next] does. *)
Record merge_input := mkMergeInput { mi_table : nat; mi_fault : option open_fault; mi_next : bool }.

(** The loop that opens the inputs; [opened] are the iterators made so far. *)
Fixpoint open_inputs (inputs : list merge_input) (opened : list table_iter) (s : resources) : option (option (list table_iter) * resources) :=
  match inputs with
  | [] => Some (Some opened, s)
  | i :: inputs =>
      '(it, s) ← Table_Iterator (mi_table i) (mi_fault i) s;
      match it with
      | None => s ← closeIterators opened s; Some (None, s)
      | Some it =>
          if mi_next i then s ← closeIterators (opened ++ [it]) s; Some (None, s)
          else open_inputs inputs (opened ++ [it]) s
      end
  end.

(** Whatever happens after the inputs are open, the deferred call closes them. *)
Definition Merge_resources (inputs : list merge_input) (s : resources) : option resources :=
  '(opened, s) ← open_inputs inputs [] s;
  match opened with
  | None => Some s
  | Some its => closeIterators its s
  end.

(** ** The database iterator *)

Record db_iter := mkDbIter { di_sources : list table_iter; di_closed : bool }.

(** The loop of [newIteratorLocked] over the tables. *)
Fixpoint open_sources (tables : list (nat * option open_fault)) (opened : list table_iter) (s : resources)
    : option (option (list table_iter) * resources) :=
  match tables with
  | [] => Some (Some opened, s)
  | (t, fault) :: tables =>
      '(it, s) ← Table_Iterator t fault s;
      match it with
      | None => '(_, s) ← close_all opened s; Some (None, s)
      | Some it => open_sources tables (opened ++ [it]) s
      end
  end.

(** [prime] says that seeking or advancing a source fails. *)
Definition NewIterator_resources (tables : list (nat * option open_fault)) (prime : bool) (s : resources) : option (option db_iter * resources) :=
  '(opened, s) ← open_sources tables [] s;
  match opened with
  | None => Some (None, s)
  | Some its =>
      if prime then '(_, s) ← close_all its s; Some (None, s)
      else Some (Some (mkDbIter its false), s)
  end.

Definition Close_resources (it : db_iter) (s : resources) : option (db_iter * resources) :=
  if di_closed it then Some (it, s)
  else '(its, s) ← close_all (di_sources it) s; Some (mkDbIter its true, s).

(** ** Readers and compactions in any order *)

Inductive reader_call :=
| RCOpen (tables : list (nat * option open_fault)) (prime : bool)
| RCClose (i : nat)
| RCMerge (inputs : list merge_input).

Record reader_world := mkReaderWorld { rw_resources : resources; rw_iters : list db_iter }.

Definition reader_step (c : reader_call) (w : reader_world) : option reader_world :=
  match c with
  | RCOpen tables prime =>
      '(it, s) ← NewIterator_resources tables prime (rw_resources w);
      Some (mkReaderWorld s (rw_iters w ++ option_list it))
  | RCClose i =>
      match rw_iters w !! i with
      | None => Some w
      | Some it => '(it, s) ← Close_resources it (rw_resources w); Some (mkReaderWorld s (<[i := it]> (rw_iters w)))
      end
  | RCMerge inputs => s ← Merge_resources inputs (rw_resources w); Some (mkReaderWorld s (rw_iters w))
  end.

Fixpoint reader_run (cs : list reader_call) (w : reader_world) : option reader_world :=
  match cs with
  | [] => Some w
  | c :: cs => w ← reader_step c w; reader_run cs w
  end.

(** The tables of a call exist. *)
Definition tables_exist (n : nat) (c : reader_call) : Prop :=
  match c with
  | RCOpen tables _ => Forall (fun t => (t.1 < n)%nat) tables
  | RCClose _ => True
  | RCMerge inputs => Forall (fun i => (mi_table i < n)%nat) inputs
  end.

(** ** The balance *)

(** A table that is not retired, with the channel that the last reader closes. *)
Definition ready (r : refstate) : Prop :=
  retired r = false /\ (refs r <> 0 -> exists c, noRefsCh r = Some c /\ chans r !! c = Some false).

(** What is held: the table and the file of every open iterator. *)
Record balance (s : resources) (live : list (nat * nat)) : Prop := mkBalance {
  ba_refs : forall t r, rs_tables s !! t = Some r -> refs r = len (filter (fun x => x.1 = t) live) /\ ready r;
  ba_known : forall x, x ∈ live -> (x.1 < length (rs_tables s))%nat;
  ba_files : forall fd, fd ∈ rs_files s <-> fd ∈ live.*2;
  ba_distinct : NoDup live.*2;
}.

Lemma acquire_ready r : ready r -> 0 <= refs r -> exists r', acquire r = Some (OutDone, r') /\ refs r' = refs r + 1 /\ ready r'.
Proof.
  intros [Hr Hc] Hpos. unfold acquire. rewrite Hr. destruct (Z.eqb_spec (refs r) 0) as [H0|H0].
  - eexists. split; [done |]. split; [done |]. split; [done |]. intros _. exists (length (chans r)). split; [done |]. cbn. by apply list_lookup_middle.
  - eexists. split; [done |]. split; [done |]. split; [done |]. intros _. cbn. by apply Hc.
Qed.

Lemma release_ready r : ready r -> 0 < refs r -> exists r', release r = Some (OutDone, r') /\ refs r' = refs r - 1 /\ ready r'.
Proof.
  intros [Hr Hc] Hpos. unfold release. destruct (Z.eqb_spec (refs r) 0) as [H0|H0]; [lia |]. destruct (Hc H0) as (c & Hn & Ho).
  destruct (Z.eqb_spec (refs r - 1) 0) as [H1|H1]; cbn.
  - unfold close. rewrite Hn. cbn. rewrite Ho. cbn. eexists. split; [done |]. cbn. split; [done |]. by split.
  - eexists. split; [done |]. cbn. split; [done |]. split; [done |]. intros _. cbn. by exists c.
Qed.

Lemma balance_perm s live live' : live ≡ₚ live' -> balance s live -> balance s live'.
Proof.
  intros Hp [H1 H2 H3 H4]. constructor.
  - intros t r Ht. destruct (H1 t r Ht) as [-> Hr]. split; [| done]. unfold len. by rewrite (Permutation_length (filter_Permutation _ _ _ Hp)).
  - intros x Hx. apply H2. by rewrite Hp.
  - intros fd. rewrite H3. by rewrite Hp.
  - by rewrite <- Hp.
Qed.

(** Opening takes one reference and one file, or nothing. *)
Lemma table_open t fault s live :
  balance s live -> (t < length (rs_tables s))%nat ->
  exists it s', Table_Iterator t fault s = Some (it, s') /\ length (rs_tables s') = length (rs_tables s) /\
    match it with
    | None => balance s' live
    | Some it => exists fd, it = mkTableIter t (Some fd) true false /\ balance s' ((t, fd) :: live)
    end.
Proof.
  intros Hb Ht. pose proof Hb as [H1 H2 H3 H4]. apply lookup_lt_is_Some in Ht as [r Hr]. destruct (H1 t r Hr) as [Hrefs Hready].
  pose proof (len_nonneg (filter (fun x => x.1 = t) live)) as Hpos.
  destruct (acquire_ready r Hready) as (r1 & Ea & Hr1 & Hready1); [lia |]. unfold Table_Iterator. rewrite Hr. cbn [mbind option_bind]. rewrite Ea.
  cbn [mbind option_bind]. pose proof (lookup_lt_Some _ _ _ Hr) as Hlt. destruct fault as [fault|].
  - destruct (release_ready r1 Hready1) as (r2 & Er & Hr2 & Hready2); [lia |].
    assert (Hrel : release_table t (set_table t r1 s) = Some (set_table t r2 s)).
    { unfold release_table, set_table. cbn [rs_tables rs_files]. rewrite list_lookup_insert, decide_True by done. cbn [mbind option_bind]. rewrite Er.
      cbn. by rewrite list_insert_insert, decide_True. }
    rewrite Hrel. exists None, (set_table t r2 s). split; [by destruct fault |]. split; [apply length_insert |].
    constructor; cbn; try done.
    + intros t' r'. rewrite list_lookup_insert. case_decide as Hc; [intros [= <-]; destruct Hc as [<- _]; split; [lia | done] | by apply H1].
    + intros x Hx. rewrite length_insert. by apply H2.
  - eexists _, _. split; [done |]. split; [apply length_insert |]. exists (fresh (rs_files s)). split; [done |].
    assert (Hnew : fresh (rs_files s) ∉ live.*2) by (rewrite <- H3; apply is_fresh).
    constructor; cbn [rs_tables rs_files set_table].
    + intros t' r'. rewrite list_lookup_insert, filter_cons. cbn [fst]. case_decide as Hc; [intros [= <-]; destruct Hc as [<- _] |].
      * rewrite decide_True, len_cons by done. split; [lia | done].
      * intros Hr'. rewrite decide_False; [by apply H1 |]. intros ->. apply Hc. split; [done |]. by eapply lookup_lt_Some.
    + intros x [-> | Hx]%elem_of_cons; rewrite length_insert; [done | by apply H2].
    + intros fd. rewrite elem_of_union, elem_of_singleton, H3. cbn. by rewrite elem_of_cons.
    + by constructor.
Qed.

(** Closing gives both back, once. *)
Lemma table_close t fd s live :
  balance s ((t, fd) :: live) ->
  exists s', Table_Close (mkTableIter t (Some fd) true false) s = Some (mkTableIter t None false true, s') /\
    length (rs_tables s') = length (rs_tables s) /\ balance s' live.
Proof.
  intros [H1 H2 H3 H4]. pose proof (H2 (t, fd) (list_elem_of_here _ _)) as Ht. cbn in Ht. pose proof Ht as [r Hr]%lookup_lt_is_Some.
  destruct (H1 t r Hr) as [Hrefs Hready]. rewrite filter_cons, decide_True, len_cons in Hrefs by done.
  pose proof (len_nonneg (filter (fun x => x.1 = t) live)) as Hpos. destruct (release_ready r Hready) as (r1 & Er & Hr1 & Hready1); [lia |].
  unfold Table_Close, release_table. cbn [tr_closed tr_file tr_refHeld tr_table rs_tables]. rewrite Hr. cbn [mbind option_bind]. rewrite Er. cbn [mbind option_bind].
  eexists. split; [done |]. split; [apply length_insert |]. cbn in H4. apply NoDup_cons in H4 as [H4 H5]. constructor; cbn.
  - intros t' r'. rewrite list_lookup_insert. case_decide as Hc; [intros [= <-]; destruct Hc as [<- _]; split; [lia | done] |].
    intros Hr'. destruct (H1 t' r' Hr') as [Hx Hy]. rewrite filter_cons, decide_False in Hx; [done |]. cbn. intros ->. apply Hc. done.
  - intros x Hx. rewrite length_insert. apply H2. by right.
  - intros fd'. rewrite elem_of_difference, elem_of_singleton, H3. cbn. rewrite elem_of_cons. split; [by intros [[?|?] ?] |].
    intros Hin. split; [by right |]. by intros ->.
  - done.
Qed.

(** An iterator that is open, by what it holds. *)
Definition open_iter (x : nat * nat) : table_iter := mkTableIter x.1 (Some x.2) true false.
Definition shut_iter (x : nat * nat) : table_iter := mkTableIter x.1 None false true.

Lemma all_close xs s live :
  balance s (xs ++ live) ->
  exists s', close_all (open_iter <$> xs) s = Some (shut_iter <$> xs, s') /\ length (rs_tables s') = length (rs_tables s) /\ balance s' live.
Proof.
  revert s. induction xs as [|[t fd] xs IH]; intros s Hb; [by exists s |]. rewrite !fmap_cons. cbn [close_all].
  destruct (table_close t fd s (xs ++ live) Hb) as (s1 & E1 & L1 & Hb1). change (open_iter (t, fd)) with (mkTableIter t (Some fd) true false). rewrite E1. cbn [mbind option_bind].
  destruct (IH s1 Hb1) as (s2 & E2 & L2 & Hb2). rewrite E2. exists s2. split; [done |]. by rewrite L2.
Qed.

Definition opened_ok (r : option (list table_iter)) (s : resources) (live : list (nat * nat)) : Prop :=
  match r with
  | None => balance s live
  | Some its => exists xs, its = open_iter <$> xs /\ balance s (xs ++ live)
  end.

Lemma one_more t fd xs s live : balance s ((t, fd) :: xs ++ live) -> balance s ((xs ++ [(t, fd)]) ++ live).
Proof. apply balance_perm. rewrite <- app_assoc. cbn. apply Permutation_middle. Qed.

Lemma sources_open tables xs s live :
  balance s (xs ++ live) -> Forall (fun t => (t.1 < length (rs_tables s))%nat) tables ->
  exists r s', open_sources tables (open_iter <$> xs) s = Some (r, s') /\ length (rs_tables s') = length (rs_tables s) /\ opened_ok r s' live.
Proof.
  revert xs s. induction tables as [|[t fault] tables IH]; intros xs s Hb Ht; cbn [open_sources]; [exists (Some (open_iter <$> xs)), s; split_and!; [done | done | by exists xs] |].
  apply Forall_cons in Ht as [Ht Hts]. destruct (table_open t fault s _ Hb Ht) as (it & s1 & E & L & Hit). rewrite E. cbn [mbind option_bind].
  destruct it as [it|].
  - destruct Hit as (fd & -> & Hb1). change (mkTableIter t (Some fd) true false) with (open_iter (t, fd)).
    rewrite <- (list_fmap_singleton open_iter (t, fd)), <- fmap_app. destruct (IH (xs ++ [(t, fd)]) s1) as (r & s2 & E2 & L2 & H2).
    + by apply one_more.
    + by rewrite L.
    + exists r, s2. split; [done |]. by rewrite L2.
  - destruct (all_close xs s1 live Hit) as (s2 & E2 & L2 & Hb2). rewrite E2. exists None, s2. split; [done |]. by rewrite L2.
Qed.

Lemma inputs_open inputs xs s live :
  balance s (xs ++ live) -> Forall (fun i => (mi_table i < length (rs_tables s))%nat) inputs ->
  exists r s', open_inputs inputs (open_iter <$> xs) s = Some (r, s') /\ length (rs_tables s') = length (rs_tables s) /\ opened_ok r s' live.
Proof.
  revert xs s. induction inputs as [|[t fault next] inputs IH]; intros xs s Hb Ht; cbn [open_inputs mi_table mi_fault mi_next];
    [exists (Some (open_iter <$> xs)), s; split_and!; [done | done | by exists xs] |].
  apply Forall_cons in Ht as [Ht Hts]. destruct (table_open t fault s _ Hb Ht) as (it & s1 & E & L & Hit). rewrite E. cbn [mbind option_bind].
  destruct it as [it|].
  - destruct Hit as (fd & -> & Hb1%one_more). change (mkTableIter t (Some fd) true false) with (open_iter (t, fd)).
    rewrite <- (list_fmap_singleton open_iter (t, fd)), <- fmap_app. destruct next.
    + destruct (all_close _ s1 live Hb1) as (s2 & E2 & L2 & Hb2). unfold closeIterators. rewrite E2. exists None, s2. split; [done |]. by rewrite L2.
    + destruct (IH _ s1 Hb1) as (r & s2 & E2 & L2 & H2); [by rewrite L |]. exists r, s2. split; [done |]. by rewrite L2.
  - destruct (all_close xs s1 live Hit) as (s2 & E2 & L2 & Hb2). unfold closeIterators. rewrite E2. exists None, s2. split; [done |]. by rewrite L2.
Qed.

(** ** All readers *)

Definition iter_holds (it : db_iter) (xs : list (nat * nat)) : Prop :=
  if di_closed it then xs = [] /\ exists ys, di_sources it = shut_iter <$> ys else di_sources it = open_iter <$> xs.

Record readers_ok (n : nat) (w : reader_world) (groups : list (list (nat * nat))) : Prop := mkReadersOk {
  ro_tables : length (rs_tables (rw_resources w)) = n;
  ro_iters : Forall2 iter_holds (rw_iters w) groups;
  ro_balance : balance (rw_resources w) (concat groups);
}.

Lemma concat_swap {A} (groups : list (list A)) i xs : groups !! i = Some xs -> concat groups ≡ₚ xs ++ concat (<[i := []]> groups).
Proof.
  revert i. induction groups as [|ys groups IH]; intros i Hi; [done |]. destruct i as [|i]; cbn in *; [by injection Hi as -> |].
  rewrite (IH i Hi). by rewrite !(assoc_L (++)), (Permutation_app_comm ys xs).
Qed.

Lemma step_balanced n c w groups : readers_ok n w groups -> tables_exist n c -> exists w' groups', reader_step c w = Some w' /\ readers_ok n w' groups'.
Proof.
  intros [H1 H2 H3] Hc. destruct c as [tables prime | i | inputs]; cbn [reader_step tables_exist] in *.
  - rewrite <- H1 in Hc. unfold NewIterator_resources. destruct (sources_open tables [] _ _ H3 Hc) as (r & s & E & L & Hr). cbn in E. rewrite E. cbn [mbind option_bind].
    destruct r as [its|]; cbn [opened_ok] in Hr.
    2: { eexists _, groups. split; [done |]. constructor; cbn; [congruence | by rewrite app_nil_r | done]. }
    destruct Hr as (xs & -> & Hb). destruct prime.
    + destruct (all_close xs s _ Hb) as (s2 & E2 & L2 & Hb2). rewrite E2. eexists _, groups. split; [done |].
      constructor; cbn; [congruence | by rewrite app_nil_r | done].
    + eexists _, (groups ++ [xs]). split; [done |]. constructor; cbn; [congruence | apply Forall2_app; [done | by constructor] |].
      rewrite concat_app. cbn. rewrite app_nil_r. eapply balance_perm; [| exact Hb]. apply Permutation_app_comm.
  - destruct (rw_iters w !! i) as [it|] eqn:Ei; [| by exists w, groups]. destruct (Forall2_lookup_l _ _ _ _ _ H2 Ei) as (xs & Hx & Hit).
    unfold Close_resources, iter_holds in *. destruct (di_closed it) eqn:Ed.
    + eexists _, groups. split; [done |]. constructor; cbn; [done | | done]. by rewrite list_insert_id.
    + rewrite Hit. eapply balance_perm in H3; [| by eapply concat_swap]. destruct (all_close xs _ _ H3) as (s & E & L & Hb). rewrite E.
      eexists _, (<[i := []]> groups). split; [done |]. constructor; cbn; [congruence | | done]. apply Forall2_insert; [done |]. cbn. by eauto.
  - rewrite <- H1 in Hc. unfold Merge_resources. destruct (inputs_open inputs [] _ _ H3 Hc) as (r & s & E & L & Hr). cbn in E. rewrite E. cbn [mbind option_bind].
    destruct r as [its|]; cbn [opened_ok] in Hr; [| eexists _, groups; split; [done |]; constructor; cbn; [congruence | done | done]].
    destruct Hr as (xs & -> & Hb). destruct (all_close xs s _ Hb) as (s2 & E2 & L2 & Hb2). unfold closeIterators. rewrite E2. eexists _, groups. split; [done |].
    constructor; cbn; [congruence | done | done].
Qed.

(** The table iterators of the database iterators that are open. *)
Definition open_iters (w : reader_world) : list table_iter := filter (fun it => tr_closed it = false) (concat (di_sources <$> rw_iters w)).

Lemma open_iters_live its groups :
  Forall2 iter_holds its groups -> filter (fun it => tr_closed it = false) (concat (di_sources <$> its)) = open_iter <$> concat groups.
Proof.
  induction 1 as [|it xs its groups Hit _ IH]; [done |]. cbn [fmap list_fmap concat]. rewrite filter_app, fmap_app, IH. f_equal.
  unfold iter_holds in Hit. destruct (di_closed it).
  - destruct Hit as [-> [ys ->]]. clear. by induction ys.
  - rewrite Hit. clear. induction xs as [|x xs IH]; [done |]. rewrite fmap_cons, filter_cons, decide_True by done. by rewrite IH.
Qed.

(** C37: readers leak nothing.  In any sequence of database iterators that are
    opened and closed, also more than once, and of merges, with failures at any
    step, nothing panics; every table has exactly as many references as there
    are open iterators on it, there is one open file for each of them, and a
    closed iterator holds neither.  A failed [NewIterator] and a merge, failed or
    not, leave nothing behind. *)
Theorem readers_balanced (n : nat) (cs : list reader_call) :
  Forall (tables_exist n) cs ->
  exists w, reader_run cs (mkReaderWorld (mkResources (replicate n New_refs) ∅) []) = Some w /\
    (forall t r, rs_tables (rw_resources w) !! t = Some r -> refs r = len (filter (fun it => tr_table it = t) (open_iters w))) /\
    size (rs_files (rw_resources w)) = length (open_iters w) /\
    (forall it fd, it ∈ open_iters w -> tr_file it = Some fd -> fd ∈ rs_files (rw_resources w)) /\
    (forall it s, it ∈ rw_iters w -> di_closed it = true -> s ∈ di_sources it -> tr_closed s = true /\ tr_file s = None /\ tr_refHeld s = false).
Proof.
  intros Hcs. assert (Hrun : forall w groups, readers_ok n w groups -> exists w' groups', reader_run cs w = Some w' /\ readers_ok n w' groups').
  { induction Hcs as [|c cs Hc _ IH]; intros w groups Hw; [by exists w, groups |]. cbn [reader_run].
    destruct (step_balanced n c w groups Hw Hc) as (w1 & g1 & E1 & Hw1). rewrite E1. by eapply IH. }
  destruct (Hrun (mkReaderWorld (mkResources (replicate n New_refs) ∅) []) []) as (w & groups & E & [H1 H2 H3]).
  { constructor; cbn; [apply length_replicate | constructor |]. constructor; cbn; [| set_solver | set_solver | constructor].
    intros t r [-> _]%lookup_replicate_1. by repeat split. }
  exists w. split; [done |]. unfold open_iters. rewrite (open_iters_live _ _ H2). destruct H3 as [B1 B2 B3 B4]. split; [| split; [| split]].
  - intros t r Ht. destruct (B1 t r Ht) as [-> _]. unfold len. f_equal. clear. induction (concat groups) as [|x l IH]; [done |].
    rewrite fmap_cons, !filter_cons. cbn [tr_table open_iter]. case_decide; cbn [length]; congruence.
  - rewrite length_fmap, <- (length_fmap snd). rewrite <- (size_list_to_set (C := gset nat)) by done. f_equal. apply set_eq. intros fd.
    by rewrite B3, elem_of_list_to_set.
  - intros it fd (x & -> & Hx)%list_elem_of_fmap [= <-]. apply B3. apply list_elem_of_fmap. by exists x.
  - intros it s [i Hi]%list_elem_of_lookup Hd Hs. destruct (Forall2_lookup_l _ _ _ _ _ H2 Hi) as (xs & _ & Hit).
    unfold iter_holds in Hit. rewrite Hd in Hit. destruct Hit as [_ [ys Hy]]. rewrite Hy in Hs. by apply list_elem_of_fmap in Hs as (y & -> & _).
Qed.

(** A second opening fails half-way, a merge fails at its second input, the
    iterator is closed twice. *)
Definition reader_calls : list reader_call :=
  [RCOpen [(0, None); (1, None)]%nat false; RCOpen [(0, None); (1, Some OpenFails)]%nat false; RCOpen [(1, None)]%nat true;
   RCMerge [mkMergeInput 0 None false; mkMergeInput 1 (Some LoadFails) false]; RCOpen [(1, None)]%nat false; RCClose 0; RCClose 0].

Lemma readers_balanced_witness :
  exists w, reader_run reader_calls (mkReaderWorld (mkResources (replicate 2 New_refs) ∅) []) = Some w /\
    refs <$> rs_tables (rw_resources w) = [0; 1] /\ size (rs_files (rw_resources w)) = 1%nat.
Proof.
  destruct (readers_balanced 2 reader_calls) as (w & E & _ & Hf & _ & _).
  { repeat (constructor; cbn; try lia). }
  exists w. split; [exact E |]. rewrite Hf. vm_compute in E. injection E as <-. split; reflexivity.
Defined.
