(* ===== verification/TableClaims.v ===== *)
(** * Properties of SSTables

    From the writer's call to the reader's answers, through any coherent
    cache; the LRU cache as an implementation of the reader's cache interface;
    and the reference count of a table. *)

From S2P Require Import Crc32 Float64 BlockCache Bloom.
From S2P Require Export RecordCodec Versions TableLayout SSTable TableRead.

(** ** The LRU cache implements the cache interface *)

Lemma repr_unique c l1 l2 : repr c l1 -> repr c l2 -> l1 = l2.
Proof.
  intros [_ _ H1 _ _] [_ _ H2 _ _]. revert l2 H2. induction H1 as [|e [k b] o l [He _] H1 IH]; intros l2 H2;
    inversion H2 as [|? [k' b'] ? l2' [He' _]]; subst; [done |]. simpl in *.
  f_equal; [| auto]. rewrite He in He'. by injection He' as -> ->.
Qed.

Global Program Instance LRU_cache : Cache BlockCache.LRU := {|
  cache_get := BlockCache.Get;
  cache_set := BlockCache.Set_;
  cache_purge := BlockCache.PurgeTable map_to_list;
  holds := fun c k b => exists l, repr c l /\ BlockCache.assoc k l = Some b;
  cache_wf := fun c => 0 <= capacityBytes c /\ exists l, repr c l;
|}.
Next Obligation.
  intros k c [Hc [l Hr]]. destruct (lru_Get_repr c l k Hr) as (c' & E & Hr' & Hc').
  do 2 eexists. split; [exact E |]. split; [split; [lia | eauto] |]. cbn [spec_op] in *. split.
  - intros b Hb. exists l. split; [done |]. destruct (BlockCache.assoc k l); [| done]. simpl in Hb. congruence.
  - intros k' b' (l' & Hl' & Ha). exists l. split; [done |]. rewrite (repr_unique _ _ _ Hl' Hr') in Ha.
    destruct (BlockCache.assoc k l) as [b|] eqn:Ek; simpl in Ha; [| done].
    destruct (decide (k = k')) as [<- | Hne]; [congruence |].
    by rewrite assoc_without, decide_False in Ha by congruence.
Qed.
Next Obligation.
  intros k b c [Hc [l Hr]]. destruct (Set_repr c l k b Hr Hc) as (c' & E & Hr' & Hc').
  exists c'. split; [exact E |]. split; [split; [lia | eauto] |].
  intros k' b' (l' & Hl' & Ha). rewrite (repr_unique _ _ _ Hl' Hr') in Ha. cbn [spec_op snd] in Ha.
  destruct (len b =? 0); [right; eauto |].
  destruct ((capacityBytes c =? 0) || (len b >? capacityBytes c)).
  - rewrite assoc_without in Ha. destruct (decide (k' = k)); [done |]. right. eauto.
  - apply assoc_keep in Ha. cbn [BlockCache.assoc] in Ha.
    destruct (decide (k = k')) as [<- | Hne]; [left; split; congruence |].
    rewrite assoc_without, decide_False in Ha by congruence. right. eauto.
Qed.
Next Obligation.
  intros t c [Hc [l Hr]]. destruct (PurgeTable_repr map_to_list (fun _ => reflexivity _) t c l Hr) as (c' & E & Hr' & Hc').
  exists c'. split; [exact E |]. split; [split; [lia | eauto] |].
  intros k b (l' & Hl' & Ha). rewrite (repr_unique _ _ _ Hl' Hr'), assoc_filter_table in Ha.
  destruct (decide (TableID k = t)); [done |]. eauto.
Qed.

(** ** From the writer to the disk *)

Lemma normalize_interval opts opts' :
  normalizeWriteOptions opts = Ok opts' -> 0 < RestartInterval opts' <= u32_max.
Proof.
  unfold normalizeWriteOptions. intros H. bind_inv H. apply Ok_inj in H. subst opts'. simpl.
  destruct (Z.leb_spec (RestartInterval opts) 0); unfold DefaultRestartInterval, u32_max in *; lia.
Qed.

Section create.
Context {lz : LZ4Codec} (Hash128 : bytes -> Z * Z) (math_Log : float64 -> float64) (conv : float64 -> Z).

(** Every filter the options ask for is well-formed. *)
Definition sizing_ok (hint : Z) (opts : WriteOptions) : Prop :=
  forall f, Bloom.New math_Log conv hint (FalsePositiveRate (BloomOptions opts)) = Ok f -> wf_filter f.

Lemma create_spec {E I} `{!RecordIterator E I} fuel (it : I) l hint opts :
  yields it l -> (length l < fuel)%nat -> sizing_ok hint opts ->
  exists r, CreateFromIteratorWithOptions Hash128 math_Log conv fuel it hint opts = Some r /\
    match r with
    | Err e => order_error e -> ~ wsorted l
    | Ok (meta, file) => wsorted l /\ exists opts' flt bs, normalizeWriteOptions opts = Ok opts' /\
        layout opts' l flt bs meta file /\
        match flt with
        | None => True
        | Some f => exists f0, Bloom.New math_Log conv hint (FalsePositiveRate (BloomOptions opts)) = Ok f0 /\
            wf_filter f0 /\ Add_all Hash128 (Key <$> l) f0 = Some f
        end
    end.
Proof.
  intros Hy Hf Hsz. unfold CreateFromIteratorWithOptions.
  destruct (normalizeWriteOptions opts) as [opts'|e] eqn:Hno; [| eexists; split; [reflexivity |]].
  2: { revert Hno. unfold normalizeWriteOptions, guard_err. repeat (case_match; simpl; try done); by intros [= <-]. }
  pose proof (normalize_interval _ _ Hno) as Hint.
  assert (Hbo : BloomOptions opts' = BloomOptions opts).
  { clear -Hno. unfold normalizeWriteOptions in Hno. bind_inv Hno. apply Ok_inj in Hno. by subst opts'. }
  set (en := Enabled (BloomOptions opts') && (hint >? 0)). cbv zeta.
  set (created := if en then _ else _).
  assert (Hcr : (exists e, created = Err e /\ ~ order_error e) \/
    exists flt0, created = Ok flt0 /\ (forall f, flt0 = Some f -> wf_filter f) /\
      (if en then exists f, flt0 = Some f /\ Bloom.New math_Log conv hint (FalsePositiveRate (BloomOptions opts)) = Ok f
       else flt0 = None)).
  { unfold created. destruct en; [| right; exists None; done]. rewrite Hbo.
    destruct (Bloom.New math_Log conv hint (FalsePositiveRate (BloomOptions opts))) as [f|e] eqn:En; simpl.
    - right. exists (Some f). split; [done |]. split; [| eauto]. intros f' [= <-]. by apply Hsz.
    - left. eexists. split; [reflexivity |]. by intros []. }
  destruct Hcr as [(e & -> & Hne) | (flt0 & -> & Hwf & Hen)];
    [eexists; split; [reflexivity |]; by intros ? | ].
  rewrite (write_loop_yields Hash128 opts' fuel en it l _ Hy Hf).
  destruct (w_init_ok opts' flt0) as [Hw0 Hn0].
  assert (Hf0 : filtered Hash128 en flt0 [] (w_init flt0)).
  { unfold filtered. destruct en; [destruct Hen as (f & -> & _); eauto | done]. }
  destruct (write_all_spec Hash128 opts' Hint en flt0 l [] [] [] (w_init flt0) Hwf Hw0 eq_refl Hn0 Hf0) as (r & -> & Hr);
    [constructor |]. cbn [mbind option_bind]. destruct r as [w|e]; bind_step.
  - destruct Hr as (bs & cur & Hw & Hl & Hn & Hfl & Hs). simpl in Hl, Hn, Hfl, Hs.
    destruct (finish opts' w) as [[meta file]|e] eqn:Efin; eexists; (split; [reflexivity |]).
    + split; [done |]. destruct (finish_layout opts' Hint bs cur l w meta file Hw Hl Hn Efin) as (bs' & Hly).
      exists opts', (w_filter w), bs'. split; [done |]. split; [done |].
      unfold filtered in Hfl. destruct en.
      * destruct Hfl as (f & f' & -> & Ha & ->). destruct Hen as (f1 & [= <-] & Hnew). exists f. split; [done |]. split; [by apply Hwf | done].
      * rewrite Hfl, Hen. done.
    + intros Ho. exfalso. revert Efin. unfold finish.
      destruct (flushBlock opts' w) as [w1|e1] eqn:Efl; bind_step.
      * destruct (w_filter w1) as [f|]; [| done]. destruct (Encode (Some f)); bind_step; [done |].
        intros He. assert (e = FilterError e0) as -> by congruence. done.
      * intros He. assert (e1 = e) as -> by congruence. destruct (flushBlock_error _ _ _ Efl) as [b ->]. done.
  - eexists. split; [reflexivity |]. destruct Hr as [[_ Hr] | [b ->]]; [by intros _ | done].
Qed.
End create.

(** The sizes the reader accepts. *)
Definition fits (meta : table_meta) (file : bytes) : Prop :=
  len file <= maxInt /\ len (writeIndex (tm_index meta)) <= maxIndexSize /\
  forall f, tm_filter meta = Some f -> bitCount f <= maxEncodedBitCount /\ bitCount f / 8 + 12 <= maxFilterSize.

(** The handle [New] makes: nothing loaded yet. *)
Definition fresh_table (id : Z) : SSTable := mkSSTable id false 0 [] None.

(** A cache that holds nothing of a table yet. *)
Definition cache_unused {C} `{!Cache C} (id : Z) (cache : option C) : Prop :=
  match cache with
  | None => True
  | Some c => cache_wf c /\ forall k b, holds c k b -> TableID k <> id
  end.

Lemma unused_ok {C} `{!Cache C} opts bs id (cache : option C) :
  cache_unused id cache -> cache_ok (table_allows opts bs id) cache.
Proof.
  destruct cache as [c|]; [| done]. intros [Hw Hh]. split; [done |]. intros k b Hb i recs p e _ _ ->.
  by destruct (Hh _ _ Hb).
Qed.

Section properties.
Context {lz : LZ4Codec} (Hash128 : bytes -> Z * Z) (math_Log : float64 -> float64) (conv : float64 -> Z).

(** A successful write that fits is on disk. *)
Lemma create_on_disk {E I} `{!RecordIterator E I} fuel (it : I) l hint opts meta file :
  yields it l -> (length l < fuel)%nat -> Forall wf_record l -> sizing_ok math_Log conv hint opts ->
  CreateFromIteratorWithOptions Hash128 math_Log conv fuel it hint opts = Some (Ok (meta, file)) ->
  fits meta file ->
  exists opts' flt bs, on_disk Hash128 opts' l flt bs meta file.
Proof.
  intros Hy Hf Hwf Hsz Hc (F1 & F2 & F3).
  destruct (create_spec Hash128 math_Log conv fuel it l hint opts Hy Hf Hsz) as (r & E1 & Hr).
  assert (r = Ok (meta, file)) as -> by congruence.
  destruct Hr as (Hs & opts' & flt & bs & Hno & Hly & Hfl). exists opts', flt, bs.
  rewrite (ly_index _ _ _ _ _ _ Hly) in F2. rewrite (ly_filter _ _ _ _ _ _ Hly) in F3.
  constructor; try done; [by apply (normalize_interval opts) |].
  destruct flt as [f|]; [| done]. destruct Hfl as (f0 & _ & Hf0 & Ha). destruct (F3 f eq_refl) as [M1 M2].
  destruct (Add_all_wf Hash128 (Key <$> l) f0 Hf0) as (f1 & Ea & Hf1 & _). assert (f1 = f) as -> by congruence.
  split; [done |]. split; [done |]. intros key Hin.
  exact (Add_all_contains Hash128 (Key <$> l) f0 f key Hf0 Ha Hin).
Qed.

(** Lookups one after the other on the same table and cache. *)
Fixpoint get_many {C} `{!Cache C} (file : bytes) (qs : list (bytes * Z)) (s : SSTable) (cache : option C)
    : option (list (result read_error (option record)) * SSTable * option C) :=
  match qs with
  | [] => Some ([], s, cache)
  | (key, maxSeq) :: qs =>
      '(r, s, cache) ← GetRecordAt Hash128 file key maxSeq s cache;
      '(rs, s, cache) ← get_many file qs s cache;
      Some (r :: rs, s, cache)
  end.

(** C5: writing then looking up.  On the file the writer produced from a
    stream of records, any sequence of point lookups through any cache answers
    each of them with the newest version of the key at or below the given
    sequence number among those records - across block boundaries, restart
    points, compressed blocks, the Bloom filter and cache hits. *)
Theorem sstable_lookups `{!LZ4Laws} {C} `{!Cache C} {E I} `{!RecordIterator E I} fuel (it : I) l hint opts
    meta file id (cache : option C) qs :
  yields it l -> (length l < fuel)%nat -> Forall wf_record l -> sizing_ok math_Log conv hint opts ->
  CreateFromIteratorWithOptions Hash128 math_Log conv fuel it hint opts = Some (Ok (meta, file)) ->
  fits meta file -> cache_unused id cache ->
  exists s' cache', get_many file qs (fresh_table id) cache =
    Some ((fun q => Ok (newest q.1 q.2 (strip_batch <$> l))) <$> qs, s', cache').
Proof.
  intros Hy Hf Hwf Hsz Hc Hfit Hcu.
  destruct (create_on_disk _ _ _ _ _ _ _ Hy Hf Hwf Hsz Hc Hfit) as (opts' & flt & bs & Hod).
  pose proof (table_allowed _ _ id _ _ _ _ _ Hod) as Hal.
  assert (Hall : forall s c, (s = loaded flt bs id \/ exists v ix f, s = mkSSTable id false v ix f) ->
    cache_ok (table_allows opts' bs id) c -> exists s' c', get_many file qs s c =
      Some ((fun q => Ok (newest q.1 q.2 (strip_batch <$> l))) <$> qs, s', c')).
  { clear Hcu cache. induction qs as [|[key maxSeq] qs IH]; intros s c Hs Hco; simpl; [by eauto |].
    destruct (GetRecordAt_od Hash128 opts' l flt bs meta file Hod _ id Hal key maxSeq s c Hs Hco) as (c1 & -> & Hc1).
    cbn [mbind option_bind]. destruct (IH (loaded flt bs id) c1) as (s' & c' & ->); [by left | done |].
    simpl. eauto. }
  apply Hall; [right; by eauto | by apply unused_ok].
Qed.

(** C26: writing then iterating.  The iterator of a written table yields its
    records in order, and after a seek exactly those at or after the key. *)
Theorem sstable_iterates `{!LZ4Laws} {C} `{!Cache C} {E I} `{!RecordIterator E I} fuel (it : I) l hint opts
    meta file id (cache : option C) key :
  yields it l -> (length l < fuel)%nat -> Forall wf_record l -> sizing_ok math_Log conv hint opts ->
  CreateFromIteratorWithOptions Hash128 math_Log conv fuel it hint opts = Some (Ok (meta, file)) ->
  fits meta file -> cache_unused id cache ->
  exists ti ti', Iterator_ file (fresh_table id) cache = Ok ti /\ yields ti (strip_batch <$> l) /\
    TIterator_Seek key ti = Some (None, ti') /\ yields ti' (from_key key (strip_batch <$> l)).
Proof.
  intros Hy Hf Hwf Hsz Hc Hfit Hcu.
  destruct (create_on_disk _ _ _ _ _ _ _ Hy Hf Hwf Hsz Hc Hfit) as (opts' & flt & bs & Hod).
  pose proof (table_allowed _ _ id _ _ _ _ _ Hod) as Hal.
  destruct (Iterator_od Hash128 opts' l flt bs meta file Hod (table_allows opts' bs id) id (fresh_table id) cache) as (ti & E1 & Hr & Hy1);
    [right; by eauto | by apply unused_ok |].
  destruct (TIterator_Seek_od Hash128 opts' l flt bs meta file Hod _ id Hal ti 0 [] key Hr) as (ti' & E2 & Hy2).
  exists ti, ti'. split; [done |]. split; [by eapply ahead_yields |]. split; [done | by eapply ahead_yields].
Qed.

Lemma maxseq_yields {E I} `{!RecordIterator E I} fuel (it : I) l m :
  yields it l -> (length l < fuel)%nat ->
  exists m' it', maxseq_loop fuel it m = Some (Ok m', it') /\ m <= m' /\ (m' = m \/ exists x, x ∈ l /\ Seq x = m') /\
    forall x, x ∈ l -> Seq x <= m'.
Proof.
  intros Hy. revert fuel m. induction Hy as [it it' Hn He | it it' r l Hn Hr Hy IH]; intros [|fuel] m Hf;
    cbn [length] in Hf; try lia; cbn [maxseq_loop]; rewrite Hn; cbn [mbind option_bind].
  - rewrite He. exists m, it'. split; [done |]. split; [lia |]. split; [by left |]. by intros x ?%not_elem_of_nil.
  - rewrite Hr. destruct (IH fuel (if Seq r >? m then Seq r else m)) as (m' & i' & E1 & E2 & E3 & E4); [lia |].
    exists m', i'. split; [done |]. destruct (Z.gtb_spec (Seq r) m); (split; [lia |]); (split; [| set_solver by lia]).
    + right. destruct E3 as [-> | (x & Hx & <-)]; [exists r; split; [by left | done] | exists x; split; [by right | done]].
    + destruct E3 as [-> | (x & Hx & <-)]; [by left | right; exists x; split; [by right | done]].
Qed.

(** [MaxSeq] of a written table is the greatest sequence number in it: an
    upper bound of all of them, and reached if the table has a record. *)
Theorem sstable_max_seq `{!LZ4Laws} {C} `{!Cache C} {E I} `{!RecordIterator E I} fuel (it : I) l hint opts
    meta file id (cache : option C) :
  yields it l -> (length l < fuel)%nat -> Forall wf_record l -> sizing_ok math_Log conv hint opts ->
  CreateFromIteratorWithOptions Hash128 math_Log conv fuel it hint opts = Some (Ok (meta, file)) ->
  fits meta file -> cache_unused id cache ->
  exists m s cache', MaxSeq fuel file (fresh_table id) cache = Some (Ok m, s, cache') /\
    (forall x, x ∈ l -> Seq x <= m) /\ (l <> [] -> exists x, x ∈ l /\ Seq x = m).
Proof.
  intros Hy Hf Hwf Hsz Hc Hfit Hcu.
  destruct (create_on_disk _ _ _ _ _ _ _ Hy Hf Hwf Hsz Hc Hfit) as (opts' & flt & bs & Hod).
  pose proof (table_allowed _ _ id _ _ _ _ _ Hod) as Hal.
  destruct (Iterator_od Hash128 opts' l flt bs meta file Hod (table_allows opts' bs id) id (fresh_table id) cache) as (ti & E1 & Hr & Hy1);
    [right; by eauto | by apply unused_ok |].
  unfold MaxSeq. rewrite E1. destruct (maxseq_yields fuel ti (strip_batch <$> l) 0 (ahead_yields Hash128 opts' l flt bs meta file Hod _ id Hal _ _ Hy1)) as (m & ti' & E2 & H1 & H2 & H3);
    [by rewrite length_fmap |]. rewrite E2. exists m, (ti_sst ti'), (ti_cache ti'). split; [done |].
  assert (Hle : forall x, x ∈ l -> Seq x <= m).
  { intros x Hx. apply (H3 (strip_batch x)). by apply list_elem_of_fmap_2. }
  split; [done |]. intros Hne. destruct H2 as [-> | (x & Hx & <-)].
  - destruct l as [|a l]; [done |]. exists a. split; [by left |]. pose proof (Hle a ltac:(by left)).
    apply Forall_cons in Hwf as [(_ & _ & [Ha _] & _) _]. lia.
  - apply list_elem_of_fmap in Hx as (y & -> & Hy'). by exists y.
Qed.

(** C27: the writer's order check and bounds.  For any stream of records the
    writer returns; it reports unsorted records only when the records are not
    in key and descending sequence order, never succeeds on such records, and
    on success records the smallest and largest key of the table. *)
Theorem writer_order_checked {E I} `{!RecordIterator E I} fuel (it : I) l hint opts :
  yields it l -> (length l < fuel)%nat -> sizing_ok math_Log conv hint opts ->
  exists r, CreateFromIteratorWithOptions Hash128 math_Log conv fuel it hint opts = Some r /\
    match r with
    | Err e => order_error e -> ~ wsorted l
    | Ok (meta, file) => wsorted l /\ tm_SizeBytes meta = len file /\
        forall x, x ∈ l -> (tm_SmallestKey meta <= Key x)%key /\ (Key x <= tm_LargestKey meta)%key
    end.
Proof.
  intros Hy Hf Hsz. destruct (create_spec Hash128 math_Log conv fuel it l hint opts Hy Hf Hsz) as (r & E1 & Hr).
  exists r. split; [done |]. destruct r as [[meta file]|e]; [| done].
  destruct Hr as (Hs & opts' & flt & bs & _ & Hly & _). split; [done |].
  split; [apply (ly_size _ _ _ _ _ _ Hly) |]. intros x Hx. apply list_elem_of_lookup in Hx as [i Hi].
  apply lookup_lt_Some in Hi as Hlt. split.
  - destruct l as [|a l']; [simpl in Hlt; lia |]. rewrite (ly_smallest _ _ _ _ _ _ Hly a eq_refl).
    by apply (wsorted_keys (a :: l') 0 i); [| lia | |].
  - destruct (last l) as [z|] eqn:Ez; [| apply last_None in Ez; subst l; simpl in Hlt; lia].
    rewrite (ly_largest _ _ _ _ _ _ Hly z Ez). rewrite last_lookup in Ez.
    by apply (wsorted_keys l i (pred (length l))); [| lia | |].
Qed.
End properties.

(** ** Examples *)

Definition example_records : list record :=
  [block_record 1 9 [x07]; block_record 1 4 []; block_record 2 7 (replicate 50 x00); block_record 3 1 [x05]].

(** Small blocks and a restart at every second record. *)
Definition example_options : WriteOptions :=
  mkWriteOptions 60 2 LZ4 f_zero (mkBloomOptions true DefaultFalsePositiveRate).

Definition example_table : option (result sst_error (table_meta * bytes)) :=
  CreateFromRecordsWithOptions (lz := run_codec) sum_hash log_hundredth (fun _ => 0) example_records example_options.

Lemma slice_yields rs i cur :
  -1 <= i -> yields (RecordIterator0 := slice_iterator) (mkSlice rs i cur) (drop (Z.to_nat (i + 1)) rs).
Proof.
  intros Hi. remember (drop (Z.to_nat (i + 1)) rs) as l eqn:El. revert i cur Hi El.
  induction l as [|r l IH]; intros i cur Hi El.
  - eapply yields_nil; [| done]. simpl. unfold slice_Next. simpl.
    assert (H0 : length (drop (Z.to_nat (i + 1)) rs) = 0%nat) by (by rewrite <- El).
    rewrite length_drop in H0. destruct (Z.geb_spec (i + 1) (len rs)); [done | unfold len in *; lia].
  - assert (Hr : rs !! Z.to_nat (i + 1) = Some r).
    { rewrite <- (Nat.add_0_r (Z.to_nat (i + 1))), <- lookup_drop, <- El. done. }
    eapply (yields_cons (RecordIterator0 := slice_iterator) _ (mkSlice rs (i + 1) r)); [| done |].
    + simpl. unfold slice_Next. simpl. apply lookup_lt_Some in Hr as Hlt.
      destruct (Z.geb_spec (i + 1) (len rs)); [unfold len in *; lia |]. by rewrite Hr.
    + apply IH; [lia |]. replace (Z.to_nat (i + 1 + 1)) with (S (Z.to_nat (i + 1))) by lia.
      symmetry in El. rewrite <- Nat.add_1_r, <- drop_drop, El. done.
Qed.

Lemma newSliceIterator_yields rs : yields (RecordIterator0 := slice_iterator) (newSliceIterator rs) rs.
Proof. apply (slice_yields rs (-1)). lia. Qed.

Global Existing Instance slice_iterator.

(** The file and metadata of the example. *)
Definition example_written : table_meta * bytes :=
  match example_table with Some (Ok r) => r | _ => (mkTableMeta 0 [] [] [] None, []) end.

Lemma example_created :
  CreateFromIteratorWithOptions (lz := run_codec) sum_hash log_hundredth (fun _ => 0) 5
    (newSliceIterator example_records) (len example_records) example_options =
  Some (Ok (example_written.1, example_written.2)).
Proof. vm_compute. reflexivity. Qed.

Lemma example_wf : Forall wf_record example_records.
Proof. repeat constructor; vm_compute; congruence. Qed.

Lemma example_sizing : sizing_ok log_hundredth (fun _ => 0) (len example_records) example_options.
Proof.
  intros f. vm_compute. intros [= <-]. repeat split; congruence.
Qed.

Lemma example_fits : fits example_written.1 example_written.2.
Proof.
  split; [vm_compute; congruence |]. split; [vm_compute; congruence |].
  intros f Hf. vm_compute in Hf. injection Hf as <-. vm_compute. split; congruence.
Qed.

(** Lookups through an LRU cache of 100 bytes: a key of two versions at two
    snapshots, one in a later block, one absent. *)
Lemma sstable_lookups_witness :
  exists s' c', get_many sum_hash (lz := run_codec) example_written.2
      [([x01], 10); ([x01], 5); ([x03], 10); ([x04], 10)] (fresh_table 8) (Some (NewLRU 100)) =
    Some ([Ok (Some (block_record 1 9 [x07])); Ok (Some (block_record 1 4 []));
           Ok (Some (block_record 3 1 [x05])); Ok None], s', c').
Proof.
  pose proof run_codec_laws as Hlaws.
  refine (sstable_lookups (lz := run_codec) sum_hash log_hundredth (fun _ => 0) 5 (newSliceIterator example_records)
    example_records (len example_records) example_options example_written.1 example_written.2 8 (Some (NewLRU 100))
    [([x01], 10); ([x01], 5); ([x03], 10); ([x04], 10)] _ _ _ _ _ _ _).
  - apply newSliceIterator_yields.
  - vm_compute. lia.
  - apply example_wf.
  - apply example_sizing.
  - exact example_created.
  - apply example_fits.
  - split; [split; [vm_compute; congruence | exists []; apply NewLRU_repr] |].
    intros k b (l & Hl & Ha). rewrite (repr_unique _ _ _ Hl (NewLRU_repr 100)) in Ha. discriminate Ha.
Defined.

(** Iteration without a cache, from the key 0x02. *)
Lemma sstable_iterates_witness :
  exists ti ti', Iterator_ (C := LRU) example_written.2 (fresh_table 8) None = Ok ti /\
    yields (RecordIterator0 := TIterator_iterator (lz := run_codec)) ti (strip_batch <$> example_records) /\
    TIterator_Seek (lz := run_codec) [x02] ti = Some (None, ti') /\
    yields (RecordIterator0 := TIterator_iterator (lz := run_codec)) ti' [block_record 2 7 (replicate 50 x00); block_record 3 1 [x05]].
Proof.
  pose proof run_codec_laws as Hlaws.
  refine (sstable_iterates (lz := run_codec) sum_hash log_hundredth (fun _ => 0) 5 (newSliceIterator example_records)
    example_records (len example_records) example_options example_written.1 example_written.2 8 (None : option LRU)
    [x02] _ _ _ _ _ _ I).
  - apply newSliceIterator_yields.
  - vm_compute. lia.
  - apply example_wf.
  - apply example_sizing.
  - exact example_created.
  - apply example_fits.
Defined.

Lemma writer_order_checked_witness :
  wsorted example_records /\
  exists r, CreateFromIteratorWithOptions (lz := run_codec) sum_hash log_hundredth (fun _ => 0) 5
      (newSliceIterator (rev example_records)) (len example_records) example_options = Some (Err r) /\
    order_error r /\ ~ wsorted (rev example_records).
Proof.
  split.
  - destruct (writer_order_checked (lz := run_codec) sum_hash log_hundredth (fun _ => 0) 5
      (newSliceIterator example_records) example_records (len example_records) example_options) as (r & E1 & Hr).
    + apply newSliceIterator_yields.
    + vm_compute. lia.
    + apply example_sizing.
    + rewrite example_created in E1. apply Some_inj in E1. rewrite <- E1 in Hr. exact (proj1 Hr).
  - destruct (writer_order_checked (lz := run_codec) sum_hash log_hundredth (fun _ => 0) 5
      (newSliceIterator (rev example_records)) (rev example_records) (len example_records) example_options)
      as (r & E1 & Hr).
    + apply newSliceIterator_yields.
    + vm_compute. lia.
    + apply example_sizing.
    + vm_compute in E1. injection E1 as <-. eexists. split; [vm_compute; reflexivity |].
      split; [exact I | exact (Hr I)].
Defined.

Lemma sstable_max_seq_witness :
  exists m s c, MaxSeq (lz := run_codec) (C := LRU) 5 example_written.2 (fresh_table 8) None = Some (Ok m, s, c) /\
    (forall x, x ∈ example_records -> Seq x <= m) /\
    (example_records <> [] -> exists x, x ∈ example_records /\ Seq x = m).
Proof.
  pose proof run_codec_laws as Hlaws.
  refine (sstable_max_seq (lz := run_codec) sum_hash log_hundredth (fun _ => 0) 5 (newSliceIterator example_records)
    example_records (len example_records) example_options example_written.1 example_written.2 8 (None : option LRU)
    _ _ _ _ _ _ I).
  - apply newSliceIterator_yields.
  - vm_compute. lia.
  - apply example_wf.
  - apply example_sizing.
  - exact example_created.
  - apply example_fits.
Defined.
