(* ===== verification/TableFits.v ===== *)
(** * When a written table is within the reader's limits

    The writer enforces none of the limits that the reader checks when it opens
    a table.  This file shows that a table is within them when its keys are
    small enough in total and its filter is: the condition under which the
    theorems on the database read back what was written. *)

From S2P Require Import Float64 Bloom.
From S2P Require Export TableClaims.

(** The bytes of the index if every record had a block of its own. *)
Definition key_cost (l : list record) : Z := foldr (fun r n => 16 + len (Key r) + n) 0 l.

(** The keys fit the index. *)
Definition within_budget (l : list record) : Prop := key_cost l + 4 <= maxIndexSize.

Lemma key_cost_app l k : key_cost (l ++ k) = key_cost l + key_cost k.
Proof. induction l as [|r l IH]; simpl; [done | rewrite IH; lia]. Qed.

Lemma key_cost_length l : 16 * len l <= key_cost l.
Proof.
  induction l as [|r l IH]; [done |]. rewrite len_cons. pose proof (len_nonneg (Key r)).
  change (key_cost (r :: l)) with (16 + len (Key r) + key_cost l). lia.
Qed.

Lemma key_cost_submseteq l k : l ⊆+ k -> key_cost l <= key_cost k.
Proof.
  induction 1; simpl; try lia; pose proof (len_nonneg (Key x)); lia.
Qed.

Lemma within_budget_submseteq l k : l ⊆+ k -> within_budget k -> within_budget l.
Proof. intros H%key_cost_submseteq. unfold within_budget. lia. Qed.

Lemma len_writeIndex_cons e index : len (writeIndex (e :: index)) = 16 + len (FirstKey e) + len (writeIndex index).
Proof. unfold writeIndex, index_entry_bytes. rewrite fmap_cons. cbn [concat]. rewrite !len_app, !len_PutUint32, len_PutUint64. lia. Qed.

Lemma index_cost off bs :
  Forall (fun b => b.1 <> []) bs -> len (writeIndex (index_for off bs)) <= key_cost (bs_records bs) + 4.
Proof.
  intros Hne. revert off. induction bs as [|[recs p] bs IH]; intros off; [done |]. apply Forall_cons in Hne as [H1 H2].
  cbn [index_for]. rewrite len_writeIndex_cons. unfold bs_records in *. cbn [fmap list_fmap concat fst FirstKey].
  rewrite key_cost_app. specialize (IH H2 (off + len p)).
  destruct recs as [|r recs]; [done |]. cbn [first_key key_cost foldr]. pose proof (key_cost_length recs).
  pose proof (len_nonneg recs). unfold key_cost in *. lia.
Qed.

Section fits.
Context {lz : LZ4Codec} (Hash128 : bytes -> Z * Z) (math_Log : float64 -> float64) (conv : float64 -> Z).

Lemma blocks_length (bs : list TableLayout.block) : Forall (fun b => b.1 <> []) bs -> len bs <= len (bs_records bs).
Proof.
  induction 1 as [|[recs p] bs Hne _ IH]; [done |]. unfold bs_records, len in *. cbn [fmap list_fmap concat fst length].
  rewrite length_app. destruct recs; [done |]. simpl. lia.
Qed.

Lemma blocks_bytes opts (bs : list TableLayout.block) :
  Forall (stored opts) bs -> len (bs_bytes bs) <= len bs * (maxBlockSize + 9).
Proof.
  induction 1 as [|[recs p] bs [_ He] _ IH]; [done |]. unfold bs_bytes in *. cbn [fmap list_fmap concat snd] in *.
  rewrite len_app. pose proof (encodePhysicalBlock_size _ _ _ _ He). pose proof (encodePhysicalBlock_len _ _ _ _ He).
  simpl in *. rewrite len_cons. lia.
Qed.

(** Every filter the options ask for, for up to [n] records, is well-formed and
    within the limits of the reader. *)
Definition sizing_fits (n : Z) (opts : WriteOptions) : Prop :=
  forall hint f, 0 <= hint <= n -> Bloom.New math_Log conv hint (FalsePositiveRate (BloomOptions opts)) = Ok f ->
    wf_filter f /\ bitCount f <= maxEncodedBitCount /\ bitCount f / 8 + 12 <= maxFilterSize.

Lemma sizing_fits_ok n hint opts : 0 <= hint <= n -> sizing_fits n opts -> sizing_ok math_Log conv hint opts.
Proof. intros Hh Hs f Hf. by apply (Hs hint f). Qed.

Lemma create_fits {E I} `{!RecordIterator E I} fuel (it : I) l n hint opts meta file :
  yields it l -> (length l < fuel)%nat -> within_budget l -> 0 <= hint <= n -> sizing_fits n opts ->
  CreateFromIteratorWithOptions Hash128 math_Log conv fuel it hint opts = Some (Ok (meta, file)) ->
  fits meta file.
Proof.
  intros Hy Hf Hb Hh Hsz Hc.
  destruct (create_spec Hash128 math_Log conv fuel it l hint opts Hy Hf (sizing_fits_ok n hint opts Hh Hsz)) as (r & E1 & Hr).
  assert (r = Ok (meta, file)) as -> by congruence.
  destruct Hr as (Hs & opts' & flt & bs & Hno & [L1 L2 L3 L4 _ L6 _ _] & Hfl).
  assert (Hne : Forall (fun b => b.1 <> []) bs) by (eapply Forall_impl; [exact L1 |]; by intros b []).
  pose proof (index_cost 0 bs Hne) as Hi. rewrite L2 in Hi. unfold within_budget in Hb.
  pose proof (blocks_bytes _ _ L1). pose proof (blocks_length bs Hne) as Hn. rewrite L2 in Hn. pose proof (key_cost_length l).
  assert (Hflt : forall f, flt = Some f -> bitCount f <= maxEncodedBitCount /\ bitCount f / 8 + 12 <= maxFilterSize /\
    forall buf, Encode (Some f) = Ok buf -> len buf = bitCount f / 8 + 12).
  { intros f ->. destruct Hfl as (f0 & Hnew & Hw & Ha). destruct (Hsz hint f0 Hh Hnew) as (_ & H1 & H2).
    destruct (Add_all_wf Hash128 (Key <$> l) f0 Hw) as (f' & E2 & Hw' & Hbc & _). assert (f' = f) as -> by congruence.
    rewrite Hbc. split; [done |]. split; [done |]. intros buf ->%Encode_Ok; [| done].
    destruct Hw' as (_ & Hw' & _). rewrite Hbc in Hw'. rewrite !len_app, len_PutUint64, Hw', Z.mul_comm, Z.div_mul by done.
    change (len [x01; x01; x01; z2b (hashCount f)]) with 4. lia. }
  assert (Hlen : len file <= maxInt).
  { assert (Hbody : forall fb, len fb <= maxFilterSize -> len (table_bytes bs fb) <= maxInt).
    { intros fb Hfb. unfold table_bytes, writeFooter. rewrite !len_app, !len_PutUint64.
      change (len tableMagic) with 6. change (len [z2b currentVersion; z2b 0]) with 2.
      unfold maxIndexSize, maxFilterSize, maxBlockSize, maxInt in *. nia. }
    destruct flt as [f|]; [| subst file; by apply Hbody].
    destruct L6 as (buf & He & ->). destruct (Hflt f eq_refl) as (_ & H2 & H3). apply Hbody. by rewrite (H3 buf He). }
  split; [done |]. rewrite L3, L4. split; [lia |]. intros f Hff. destruct (Hflt f Hff) as (? & ? & _). done.
Qed.

End fits.
