(* ===== verification/Heap.v ===== *)
(** * container/heap

    The part of Go's [container/heap] that the merges use, over a slice and
    the [Less] of the client: [Init], [Push] and [Pop] with their sift loops.
    Indexing out of range would be a panic ([None]); the laws show that none
    happens, that the elements are kept, and that [Pop] takes a least one. *)

From S2P Require Export Prelude.

Section heap.
Context {A : Type} (Less : A -> A -> bool).

(** [h.Swap(i, j)] *)
Definition heap_swap (i j : nat) (h : list A) : option (list A) :=
  x ← h !! i; y ← h !! j; Some (<[j := x]> (<[i := y]> h)).

Definition heap_less (i j : nat) (h : list A) : option bool :=
  x ← h !! i; y ← h !! j; Some (Less x y).

(** [up(h, j)]; the parent of 0 is 0 in Go's arithmetic. *)
Fixpoint up (fuel j : nat) (h : list A) : option (list A) :=
  match fuel with
  | O => None
  | S fuel =>
      let i := ((j - 1) / 2)%nat in
      if (i =? j)%nat then Some h
      else
        b ← heap_less j i h;
        if negb b then Some h else h ← heap_swap i j h; up fuel i h
  end.

(** [down(h, i, n)] *)
Fixpoint down (fuel i n : nat) (h : list A) : option (list A) :=
  match fuel with
  | O => None
  | S fuel =>
      let j1 := (2 * i + 1)%nat in
      if (n <=? j1)%nat then Some h
      else
        let j2 := (j1 + 1)%nat in
        j ← (if (j2 <? n)%nat then b ← heap_less j2 j1 h; Some (if (b : bool) then j2 else j1) else Some j1);
        b ← heap_less j i h;
        if negb b then Some h else h ← heap_swap i j h; down fuel j n h
  end.

Definition heap_Push (x : A) (h : list A) : option (list A) :=
  let h := h ++ [x] in up (S (length h)) (length h - 1) h.

(** [Pop] of an empty heap panics. *)
Definition heap_Pop (h : list A) : option (A * list A) :=
  match length h with
  | O => None
  | S n =>
      h ← heap_swap 0 n h;
      h ← down (S (length h)) 0 n h;
      x ← last h;
      Some (x, removelast h)
  end.

(** ** Laws *)

Definition hle (a b : A) : Prop := Less b a = false.

Context (Hirr : forall a, Less a a = false)
        (Htrans : forall a b c, hle a b -> hle b c -> hle a c)
        (Htot : forall a b, Less a b = true -> hle a b).

(** The elements at [i] and [j], when there are such, are in order. *)
Definition at_le (h : list A) (i j : nat) : Prop :=
  forall x y, h !! i = Some x -> h !! j = Some y -> hle x y.

Definition parent (k : nat) : nat := ((k - 1) / 2)%nat.

(** The first [n] entries form a heap. *)
Definition is_heap (n : nat) (h : list A) : Prop := forall k, (0 < k < n)%nat -> at_le h (parent k) k.

Lemma parent_lt k : (0 < k)%nat -> (parent k < k)%nat.
Proof. intros. unfold parent. apply Nat.Div0.div_lt_upper_bound. lia. Qed.

Lemma parent_child k i : (0 < k)%nat -> parent k = i <-> (k = 2 * i + 1 \/ k = 2 * i + 2)%nat.
Proof.
  intros Hk. unfold parent. split.
  - intros <-. pose proof (Nat.div_mod_eq (k - 1) 2). pose proof (Nat.mod_upper_bound (k - 1) 2). lia.
  - intros [-> | ->].
    + replace (2 * i + 1 - 1)%nat with (i * 2)%nat by lia. by apply Nat.div_mul.
    + replace (2 * i + 2 - 1)%nat with (1 + i * 2)%nat by lia. rewrite Nat.div_add by done. done.
Qed.

Lemma heap_swap_spec i j h :
  (i < length h)%nat -> (j < length h)%nat ->
  exists h', heap_swap i j h = Some h' /\ h' ≡ₚ h /\
    forall k, h' !! k = if decide (k = j) then h !! i else if decide (k = i) then h !! j else h !! k.
Proof.
  intros Hi Hj. destruct (lookup_lt_is_Some_2 h i Hi) as [x Hx]. destruct (lookup_lt_is_Some_2 h j Hj) as [y Hy].
  unfold heap_swap. rewrite Hx, Hy. cbn [mbind option_bind]. eexists. split; [reflexivity |]. split.
  - by apply Permutation_insert_swap.
  - intros k. destruct (decide (k = j)) as [-> | Hkj].
    + rewrite list_lookup_insert_eq; [done | by rewrite length_insert].
    + rewrite list_lookup_insert_ne by done. destruct (decide (k = i)) as [-> | Hki].
      * by rewrite list_lookup_insert_eq.
      * by rewrite list_lookup_insert_ne by done.
Qed.

Lemma heap_less_spec i j h :
  (i < length h)%nat -> (j < length h)%nat ->
  exists x y, h !! i = Some x /\ h !! j = Some y /\ heap_less i j h = Some (Less x y).
Proof.
  intros Hi Hj. destruct (lookup_lt_is_Some_2 h i Hi) as [x Hx]. destruct (lookup_lt_is_Some_2 h j Hj) as [y Hy].
  exists x, y. unfold heap_less. by rewrite Hx, Hy.
Qed.

Lemma at_le_trans h i j k : at_le h i j -> at_le h j k -> (j < length h)%nat -> at_le h i k.
Proof.
  intros H1 H2 Hj x y Hx Hy. destruct (lookup_lt_is_Some_2 h j Hj) as [z Hz]. eauto.
Qed.

(** Lookups after an exchange of [i] and [j]. *)
Ltac swapped Hl :=
  intros ? ?; rewrite !Hl; repeat (destruct (decide _); try lia); auto.

(** A heap except that the entry at [j] may be below its parent. *)
Definition up_hole (j n : nat) (h : list A) : Prop :=
  (forall k, (0 < k < n)%nat -> k <> j -> at_le h (parent k) k) /\
  (forall k, (0 < k < n)%nat -> parent k = j -> (0 < j)%nat -> at_le h (parent j) k).

Lemma up_spec fuel j h :
  (j < fuel)%nat -> (j < length h)%nat -> up_hole j (length h) h ->
  exists h', up fuel j h = Some h' /\ h' ≡ₚ h /\ is_heap (length h) h'.
Proof.
  revert j h. induction fuel as [|fuel IH]; intros j h Hf Hj [H1 H2]; [lia |]. cbn [up]. fold (parent j).
  destruct (Nat.eqb_spec (parent j) j) as [E | Hne].
  { exists h. split; [done |]. split; [done |]. intros k Hk. apply H1; [done |]. intros ->.
    pose proof (parent_lt j). lia. }
  assert (Hj0 : (0 < j)%nat) by (destruct j; [done | lia]). pose proof (parent_lt j Hj0) as Hi. set (i := parent j) in *.
  destruct (heap_less_spec j i h ltac:(lia) ltac:(lia)) as (y & x & Hy & Hx & E). rewrite E. cbn [mbind option_bind].
  destruct (Less y x) eqn:EL; cbn [negb].
  - destruct (heap_swap_spec i j h ltac:(lia) ltac:(lia)) as (h1 & -> & Hp & Hl). cbn [mbind option_bind].
    pose proof (Permutation_length Hp) as Hlen.
    assert (Hji : at_le h j i) by (intros a b Ha Hb; simplify_eq; by apply Htot).
    destruct (IH i h1) as (h' & -> & Hp' & Hh); [lia | lia | | exists h'; rewrite <- Hlen; split; [done |]; split; [by rewrite Hp' | done]].
    rewrite Hlen. split.
    + intros k Hk Hki. pose proof (parent_lt k). destruct (decide (k = j)) as [-> | Hkj]; [fold i; swapped Hl |].
      destruct (decide (parent k = j)) as [Ek | Hpj]; [rewrite Ek; pose proof (H2 k Hk Ek Hj0); swapped Hl |].
      pose proof (H1 k Hk Hkj) as Hpk.
      destruct (decide (parent k = i)) as [Ek | Hpi]; [| swapped Hl]. rewrite Ek in Hpk |- *.
      pose proof (at_le_trans h j i k Hji Hpk ltac:(lia)). swapped Hl.
    + intros k Hk Ek Hi0. pose proof (parent_lt k). pose proof (parent_lt i Hi0).
      pose proof (H1 i ltac:(lia) ltac:(lia)) as Hpi.
      destruct (decide (k = j)) as [-> | Hkj]; [swapped Hl |].
      pose proof (H1 k Hk Hkj) as Hpk. rewrite Ek in Hpk.
      pose proof (at_le_trans h (parent i) i k Hpi Hpk ltac:(lia)). swapped Hl.
  - exists h. split; [done |]. split; [done |]. intros k Hk. destruct (decide (k = j)) as [-> | ?]; [| by apply H1].
    intros a b Ha Hb. fold i in Ha. by simplify_eq.
Qed.

(** A heap of [n] entries except that the one at [i] may be above its
    children. *)
Definition down_hole (i n : nat) (h : list A) : Prop :=
  (forall k, (0 < k < n)%nat -> parent k <> i -> at_le h (parent k) k) /\
  (forall k, (0 < k < n)%nat -> parent k = i -> (0 < i)%nat -> at_le h (parent i) k).

(** The smaller child of [i]. *)
Lemma smaller_child i n h :
  (2 * i + 1 < n)%nat -> (n <= length h)%nat ->
  exists j, (if (2 * i + 1 + 1 <? n)%nat
             then b ← heap_less (2 * i + 1 + 1) (2 * i + 1) h; Some (if (b : bool) then 2 * i + 1 + 1 else 2 * i + 1)%nat
             else Some (2 * i + 1)%nat) = Some j /\
    (0 < j < n)%nat /\ parent j = i /\ forall k, (0 < k < n)%nat -> parent k = i -> k <> j -> at_le h j k.
Proof.
  intros H1 Hn.
  assert (Hp : forall k, (k = 2 * i + 1 \/ k = 2 * i + 1 + 1)%nat -> parent k = i) by (intros k Hk; apply parent_child; lia).
  assert (Hc : forall k, (0 < k)%nat -> parent k = i -> (k = 2 * i + 1 \/ k = 2 * i + 1 + 1)%nat).
  { intros k Hk E. apply parent_child in E; [lia | done]. }
  destruct (Nat.ltb_spec (2 * i + 1 + 1) n) as [H2 | H2].
  - destruct (heap_less_spec (2 * i + 1 + 1) (2 * i + 1) h ltac:(lia) ltac:(lia)) as (y & x & Hy & Hx & E).
    rewrite E. cbn [mbind option_bind]. destruct (Less y x) eqn:EL; eexists; (split; [reflexivity |]); (split; [lia |]);
      (split; [auto |]); intros k Hk Ek Hne; destruct (Hc k ltac:(lia) Ek) as [-> | ->]; try lia;
      intros a b Ha Hb; simplify_eq; auto.
  - eexists. split; [reflexivity |]. split; [lia |]. split; [auto |]. intros k Hk Ek Hne.
    destruct (Hc k ltac:(lia) Ek) as [-> | ->]; lia.
Qed.

Lemma down_spec fuel i n h :
  (n - i < fuel)%nat -> (n <= length h)%nat -> down_hole i n h ->
  exists h', down fuel i n h = Some h' /\ h' ≡ₚ h /\ is_heap n h' /\ forall k, (n <= k)%nat -> h' !! k = h !! k.
Proof.
  revert i h. induction fuel as [|fuel IH]; intros i h Hf Hn [H1 H2]; [lia |]. cbn [down].
  destruct (Nat.leb_spec n (2 * i + 1)) as [Hle | Hlt].
  { exists h. split; [done |]. split; [done |]. split; [| done]. intros k Hk. apply H1; [done |].
    intros E. apply parent_child in E; lia. }
  destruct (smaller_child i n h Hlt Hn) as (j & Ej & Hj & Epj & Hmin). rewrite Ej. cbn [mbind option_bind].
  pose proof (parent_lt j ltac:(lia)) as Hij. rewrite Epj in Hij.
  destruct (heap_less_spec j i h ltac:(lia) ltac:(lia)) as (y & x & Hy & Hx & E). rewrite E. cbn [mbind option_bind].
  destruct (Less y x) eqn:EL; cbn [negb].
  - destruct (heap_swap_spec i j h ltac:(lia) ltac:(lia)) as (h1 & -> & Hp & Hl). cbn [mbind option_bind].
    pose proof (Permutation_length Hp) as Hlen.
    assert (Hji : at_le h j i) by (intros a b Ha Hb; simplify_eq; by apply Htot).
    destruct (IH j h1) as (h' & -> & Hp' & Hh & Hk'); [lia | lia | |].
    + split.
      * intros k Hk Hpj. pose proof (parent_lt k). destruct (decide (k = j)) as [-> | Hkj]; [rewrite Epj; swapped Hl |].
        destruct (decide (parent k = i)) as [Ek | Hpi]; [rewrite Ek; pose proof (Hmin k Hk Ek Hkj); swapped Hl |].
        destruct (decide (k = i)) as [-> | Hki]; [| pose proof (H1 k Hk Hpi); swapped Hl].
        pose proof (H2 j Hj Epj ltac:(lia)). swapped Hl.
      * intros k Hk Ek _. pose proof (parent_lt k). rewrite Epj. pose proof (H1 k Hk ltac:(lia)) as Hpk.
        rewrite Ek in Hpk. swapped Hl.
    + exists h'. split; [done |]. split; [by rewrite Hp' |]. split; [done |]. intros k Hk. rewrite Hk', Hl by done.
      repeat (destruct (decide _); try lia). done.
  - exists h. split; [done |]. split; [done |]. split; [| done]. intros k Hk.
    destruct (decide (parent k = i)) as [Ek |]; [| by apply H1]. rewrite Ek.
    assert (Hi : at_le h i j) by (intros a b Ha Hb; by simplify_eq).
    destruct (decide (k = j)) as [-> | Hkj]; [done |]. eapply at_le_trans; [exact Hi | by apply Hmin | lia].
Qed.

(** The root is a least element. *)
Lemma is_heap_root h x : is_heap (length h) h -> h !! 0%nat = Some x -> Forall (hle x) h.
Proof.
  intros Hh Hx. apply Forall_lookup. intros k. induction k as [k IH] using lt_wf_ind. intros y Hy.
  apply lookup_lt_Some in Hy as Hk. destruct (decide (k = 0%nat)) as [-> |]; [simplify_eq; apply Hirr |].
  pose proof (parent_lt k ltac:(lia)) as Hp. destruct (lookup_lt_is_Some_2 h (parent k)) as [z Hz]; [lia |].
  eapply Htrans; [by eapply IH | by apply (Hh k ltac:(lia))].
Qed.

Lemma heap_Push_spec x h :
  is_heap (length h) h -> exists h', heap_Push x h = Some h' /\ h' ≡ₚ x :: h /\ is_heap (length h') h'.
Proof.
  intros Hh. unfold heap_Push. assert (Hlen : length (h ++ [x]) = S (length h)) by (rewrite length_app; simpl; lia).
  destruct (up_spec (S (length (h ++ [x]))) (length (h ++ [x]) - 1) (h ++ [x])) as (h' & -> & Hp & Hh'); [lia | lia | |].
  - rewrite Hlen. split.
    + intros k Hk Hne a b Ha Hb. pose proof (parent_lt k ltac:(lia)).
      rewrite lookup_app_l in Ha, Hb by lia. by apply (Hh k ltac:(lia)).
    + intros k Hk E. pose proof (parent_lt k). lia.
  - exists h'. split; [done |]. split; [rewrite Hp; apply Permutation_app_comm |]. by rewrite (Permutation_length Hp).
Qed.

Lemma heap_Pop_spec h :
  is_heap (length h) h -> h <> [] ->
  exists x h', heap_Pop h = Some (x, h') /\ h ≡ₚ x :: h' /\ is_heap (length h') h' /\
    h !! 0%nat = Some x /\ Forall (hle x) h'.
Proof.
  intros Hh Hne. unfold heap_Pop. destruct (length h) as [|n] eqn:Hlen; [by destruct h |].
  destruct (heap_swap_spec 0 n h ltac:(lia) ltac:(lia)) as (h1 & -> & Hp1 & Hl). cbn [mbind option_bind].
  pose proof (Permutation_length Hp1) as Hlen1.
  destruct (down_spec (S (length h1)) 0 n h1) as (h2 & -> & Hp2 & Hh2 & Hk); [lia | lia | |].
  { split; [| lia]. intros k Hk Hpk. pose proof (parent_lt k). pose proof (Hh k ltac:(lia)). swapped Hl. }
  cbn [mbind option_bind]. destruct (lookup_lt_is_Some_2 h 0) as [x Hx]; [lia |].
  pose proof (Permutation_length Hp2) as Hlen2.
  assert (Hlast : h2 !! n = Some x).
  { rewrite Hk, Hl by lia. by destruct (decide (n = n)). }
  destruct h2 as [|y h3 _] using rev_ind; [simpl in *; lia |]. rewrite length_app in Hlen2. simpl in Hlen2.
  rewrite last_snoc, removelast_last. cbn [mbind option_bind].
  rewrite lookup_app_r in Hlast by lia. replace (n - length h3)%nat with 0%nat in Hlast by lia. injection Hlast as ->.
  assert (Hperm : h ≡ₚ x :: h3).
  { rewrite <- Hp1, <- Hp2. apply Permutation_app_comm. }
  exists x, h3. split; [done |]. split; [done |]. split.
  - intros k Hkk a b Ha Hb. pose proof (parent_lt k). apply (Hh2 k ltac:(lia)); by apply lookup_app_l_Some.
  - split; [done |]. pose proof (is_heap_root h x ltac:(by rewrite Hlen) Hx) as Hr. rewrite Hperm in Hr.
    by apply Forall_cons in Hr as [_ ?].
Qed.
End heap.
