(* ===== verification/KMerge.v ===== *)
(** * Merging sorted sources through a heap

    What the compaction merge and the database iterator have in common: a heap
    holds the next record of every source that is not exhausted; the least one
    is popped and its source advanced.  The file states the invariant of that
    scheme, and the order in which the records come out as a relation on what
    is still pending in the sources.  Ties go to a client-specific order, so
    the result is described up to it: equal versions come out by source. *)

From S2P Require Import MemTableClaims.
From S2P Require Export Versions Heap MemTable.

(** ** Iterators over a shared store *)

(** An iterator that reads through a store shared with others, such as the
    block cache. *)
Class SharedIterator (S E I : Type) := {
  sh_next : I -> S -> option (bool * I * S);
  sh_record : I -> record;
  sh_err : I -> option E;
}.

(** Whatever other users do to the store within [Inv], the iterator yields
    exactly [l] and then stops without error, and it respects [Inv] itself. *)
Fixpoint stream {S E I} `{!SharedIterator S E I} (Inv : S -> Prop) (l : list record) (it : I) : Prop :=
  match l with
  | [] => forall s, Inv s -> exists it' s', sh_next it s = Some (false, it', s') /\ sh_err it' = None /\ Inv s'
  | r :: l => forall s, Inv s -> exists it' s', sh_next it s = Some (true, it', s') /\ sh_err it' = None /\
      sh_record it' = r /\ Inv s' /\ stream Inv l it'
  end.

(** ** Heap items *)

(** [HeapItem] of compaction and [mergeItem] of the database iterator: a
    record and the index of its source. *)
Record item := mkItem { irec : record; isrc : nat }.

(** The next record of every source. *)
Fixpoint heads (i : nat) (P : list (list record)) : list item :=
  match P with
  | [] => []
  | l :: P => match l with [] => heads (S i) P | r :: _ => mkItem r i :: heads (S i) P end
  end.

Lemma heads_elem j P x :
  x ∈ heads j P <-> exists i l, isrc x = (j + i)%nat /\ P !! i = Some (irec x :: l).
Proof.
  revert j. induction P as [|l P IH]; intros j; simpl.
  - split; [by intros ?%not_elem_of_nil |]. by intros (i & l & _ & ?).
  - assert (Hrest : x ∈ heads (S j) P <-> exists i l0, isrc x = (j + S i)%nat /\ P !! i = Some (irec x :: l0)).
    { rewrite IH. setoid_rewrite <- Nat.add_succ_comm. done. }
    destruct l as [|r l]; rewrite ?elem_of_cons, Hrest; split.
    + intros (i & l0 & E & H). by exists (S i), l0.
    + intros ([|i] & l0 & E & H); [done |]. by exists i, l0.
    + intros [-> | (i & l0 & E & H)]; [exists 0%nat, l; split; [simpl; lia | done] | by exists (S i), l0].
    + intros ([|i] & l0 & E & H); [left | right; by exists i, l0].
      injection H as -> _. destruct x; simpl in *. f_equal. lia.
Qed.

Lemma heads_cleared j P i r l :
  P !! i = Some (r :: l) -> heads j P ≡ₚ mkItem r (j + i) :: heads j (<[i := []]> P).
Proof.
  revert j i. induction P as [|l0 P IH]; intros j [|i] H; try done; simpl in *.
  - injection H as ->. by rewrite Nat.add_0_r.
  - rewrite <- Nat.add_succ_comm. destruct l0 as [|r0 l0]; [by apply IH |].
    rewrite (IH (S j) i H). apply Permutation_swap.
Qed.

Lemma heads_insert j P i r l :
  (i < length P)%nat -> heads j (<[i := r :: l]> P) ≡ₚ mkItem r (j + i) :: heads j (<[i := []]> P).
Proof.
  intros Hi. rewrite (heads_cleared j _ i r l) by (by apply list_lookup_insert_eq).
  by rewrite list_insert_insert_eq.
Qed.

Lemma heads_nil j P : heads j P = [] -> Forall (fun l => l = []) P.
Proof. revert j. induction P as [|[|r l] P IH]; intros j H; simpl in H; [constructor | constructor; eauto | done]. Qed.

(** ** The scheme *)

Section kmerge.
Context (Less : item -> item -> bool).

Local Abbreviation ile a b := (hle Less a b).

Context (Hirr : forall a, Less a a = false)
        (Htrans : forall a b c, ile a b -> ile b c -> ile a c)
        (Htot : forall a b, Less a b = true -> ile a b)
        (Hrec : forall a b, ile a b -> rec_le (irec a) (irec b)).

(** [r] of source [i] is a least next record. *)
Definition least (P : list (list record)) (i : nat) (r : record) : Prop :=
  forall j r' l', P !! j = Some (r' :: l') -> ile (mkItem r i) (mkItem r' j).

(** The records of [P] come out in the order [out]. *)
Inductive merged : list (list record) -> list record -> Prop :=
| merged_nil P : Forall (fun l => l = []) P -> merged P []
| merged_cons P i r l out :
    P !! i = Some (r :: l) -> least P i r -> merged (<[i := l]> P) out -> merged P (r :: out).

Section sources.
Context {I : Type} (R : list record -> I -> Prop).

(** The heap holds the next records, and every source has the others
    ahead. *)
Record kinv (h : list item) (its : list I) (P : list (list record)) : Prop := mkKinv {
  ki_heap : is_heap Less (length h) h;
  ki_heads : h ≡ₚ heads 0 P;
  ki_length : length its = length P;
  ki_rest : forall i it r l, its !! i = Some it -> P !! i = Some (r :: l) -> R l it;
}.

Lemma kinv_done its P : kinv [] its P -> Forall (fun l => l = []) P.
Proof. intros H. apply (heads_nil 0). apply Permutation_nil. apply (ki_heads _ _ _ H). Qed.

(** [heap.Pop]: the least next record comes out; its source is to advance. *)
Lemma kinv_pop h its P :
  kinv h its P -> h <> [] ->
  exists r i l h' it, heap_Pop Less h = Some (mkItem r i, h') /\ h !! 0%nat = Some (mkItem r i) /\
    P !! i = Some (r :: l) /\ least P i r /\ its !! i = Some it /\ R l it /\
    is_heap Less (length h') h' /\ h' ≡ₚ heads 0 (<[i := []]> P).
Proof.
  intros [Hh Hp Hl Hr] Hne.
  destruct (heap_Pop_spec Less Hirr Htrans Htot h Hh Hne) as ([r i] & h' & E & Hperm & Hh' & H0 & Hmin).
  assert (Hin : mkItem r i ∈ heads 0 P) by (rewrite <- Hp, Hperm; left).
  apply heads_elem in Hin as (i' & l & Ei & HP). simpl in Ei, HP. subst i'.
  destruct (lookup_lt_is_Some_2 its i) as [it Hit]; [rewrite Hl; by eapply lookup_lt_Some |].
  exists r, i, l, h', it. split; [done |]. split; [done |]. split; [done |]. split; [| split; [done |]].
  - intros j r' l' Hj. assert (Hin : mkItem r' j ∈ h) by (rewrite Hp; apply heads_elem; by exists j, l').
    rewrite Hperm in Hin. apply elem_of_cons in Hin as [-> | Hin]; [apply Hirr |].
    rewrite Forall_forall in Hmin. by apply Hmin.
  - split; [by eapply Hr |]. split; [done |].
    rewrite Hperm, (heads_cleared 0 P i r l HP) in Hp. simpl in Hp. by apply Permutation_cons_inv in Hp.
Qed.

(** The source [i], whose next records are [l], has been advanced. *)
Lemma kinv_advance h its P i it l :
  is_heap Less (length h) h -> h ≡ₚ heads 0 (<[i := []]> P) -> length its = length P -> (i < length P)%nat ->
  (forall j it r l, j <> i -> its !! j = Some it -> P !! j = Some (r :: l) -> R l it) ->
  match l with
  | [] => kinv h (<[i := it]> its) (<[i := []]> P)
  | r :: l => R l it -> exists h', heap_Push Less (mkItem r i) h = Some h' /\ kinv h' (<[i := it]> its) (<[i := r :: l]> P)
  end.
Proof.
  intros Hh Hp Hlen Hi Hr. destruct l as [|r l].
  - constructor; [done | done | by rewrite !length_insert |]. intros j it' r l Hj HP.
    destruct (decide (j = i)) as [-> | Hne]; [rewrite list_lookup_insert_eq in HP by done; done |].
    rewrite list_lookup_insert_ne in Hj by done. rewrite list_lookup_insert_ne in HP by done. by eapply Hr.
  - intros HR. destruct (heap_Push_spec Less Htrans Htot (mkItem r i) h Hh) as (h' & E & Hp' & Hh').
    exists h'. split; [done |]. constructor; [done | | by rewrite !length_insert |].
    + rewrite Hp', Hp. by rewrite heads_insert.
    + intros j it' r' l' Hj HP. destruct (decide (j = i)) as [-> | Hne].
      * rewrite list_lookup_insert_eq in HP by lia. rewrite list_lookup_insert_eq in Hj by lia. by simplify_eq.
      * rewrite list_lookup_insert_ne in Hj by done. rewrite list_lookup_insert_ne in HP by done. by eapply Hr.
Qed.

(** A source is added: the heap is being primed. *)
Lemma kinv_prime h its P it l :
  kinv h its P ->
  match l with
  | [] => kinv h (its ++ [it]) (P ++ [[]])
  | r :: l => R l it ->
      exists h', heap_Push Less (mkItem r (length its)) h = Some h' /\ kinv h' (its ++ [it]) (P ++ [r :: l])
  end.
Proof.
  intros Hk. pose proof (ki_length _ _ _ Hk) as Hlen.
  assert (Hnil : kinv h (its ++ [it]) (P ++ [[]])).
  { constructor; [apply Hk | | by rewrite !length_app, Hlen |].
    - rewrite (ki_heads _ _ _ Hk). clear. generalize 0%nat. induction P as [|[|r l] P IH]; intros j; simpl; [done | apply IH |].
      by rewrite IH.
    - intros j it' r l' Hj HP. apply lookup_app_Some in HP as [HP | [_ HP]]; [| apply list_lookup_singleton_Some in HP as [_ ?]; done].
      rewrite lookup_app_l in Hj by (rewrite Hlen; by eapply lookup_lt_Some). by eapply (ki_rest _ _ _ Hk). }
  destruct l as [|r l]; [exact Hnil |]. intros HR.
  assert (Ei : forall x : list record, <[length its := x]> (P ++ [[]]) = P ++ [x]).
  { intros x. rewrite Hlen, insert_app_r_alt, Nat.sub_diag by lia. done. }
  pose proof (kinv_advance h (its ++ [it]) (P ++ [[]]) (length its) it (r :: l)) as Ha.
  rewrite !Ei in Ha. rewrite insert_app_r_alt, Nat.sub_diag in Ha by lia. cbn [insert list_insert] in Ha.
  apply Ha; [apply Hk | apply Hnil | by rewrite !length_app, Hlen | rewrite length_app; simpl; lia | | done].
  intros j it' r' l' Hne Hj HP. by apply (ki_rest _ _ _ Hnil j it' r').
Qed.
End sources.

(** ** What comes out *)

Lemma least_update P i r l :
  Forall wsorted P -> P !! i = Some (r :: l) -> Forall wsorted (<[i := l]> P).
Proof.
  intros Hs HP. apply Forall_insert; [done |]. rewrite Forall_lookup in Hs. specialize (Hs i _ HP).
  by inversion Hs.
Qed.

Lemma wsorted_head_le r l x : wsorted (r :: l) -> x ∈ r :: l -> rec_le r x.
Proof.
  intros Hs [-> | Hx]%elem_of_cons; [apply rec_le_iff; right; split; [done | lia] |].
  inversion Hs as [|? ? _ Hf]; subst. rewrite Forall_forall in Hf. auto.
Qed.

Lemma merged_elem P out : merged P out -> forall x, x ∈ out <-> exists l, l ∈ P /\ x ∈ l.
Proof.
  induction 1 as [P HP | P i r l out HP Hleast H IH]; intros x.
  - split; [by intros ?%not_elem_of_nil |]. intros (l & Hl & Hx). rewrite Forall_forall in HP. rewrite (HP l Hl) in Hx. done.
  - rewrite elem_of_cons, IH. apply lookup_lt_Some in HP as Hi. split.
    + intros [-> | (l' & Hl' & Hx)]; [exists (r :: l); split; [by eapply list_elem_of_lookup_2 | left] |].
      apply list_elem_of_lookup in Hl' as [j Hj]. destruct (decide (j = i)) as [-> | Hne].
      * rewrite list_lookup_insert_eq in Hj by done. injection Hj as <-.
        exists (r :: l). split; [by eapply list_elem_of_lookup_2 | by right].
      * rewrite list_lookup_insert_ne in Hj by done. exists l'. split; [by eapply list_elem_of_lookup_2 | done].
    + intros (l' & Hl' & Hx). apply list_elem_of_lookup in Hl' as [j Hj]. destruct (decide (j = i)) as [-> | Hne].
      * rewrite HP in Hj. injection Hj as <-. apply elem_of_cons in Hx as [-> | Hx]; [by left |]. right.
        exists l. split; [eapply list_elem_of_lookup_2; by apply list_lookup_insert_eq | done].
      * right. exists l'. split; [eapply (list_elem_of_lookup_2 _ j); by rewrite list_lookup_insert_ne | done].
Qed.

(** The merge of sorted sources is sorted. *)
Lemma merged_sorted P out : Forall wsorted P -> merged P out -> wsorted out.
Proof.
  intros Hs H. induction H as [P HP | P i r l out HP Hleast H IH]; [constructor |].
  constructor; [apply IH; by eapply least_update |]. apply Forall_forall. intros x Hx.
  apply (merged_elem _ _ H) in Hx as (l' & Hl' & Hx). apply list_elem_of_lookup in Hl' as [j Hj].
  assert (Hjj : exists r' l0, P !! j = Some (r' :: l0) /\ x ∈ r' :: l0).
  { destruct (decide (j = i)) as [-> | Hne].
    - rewrite list_lookup_insert_eq in Hj by (by eapply lookup_lt_Some). injection Hj as <-.
      exists r, l. split; [done | by right].
    - rewrite list_lookup_insert_ne in Hj by done. destruct l' as [|r' l0]; [by apply elem_of_nil in Hx |]. eauto. }
  destruct Hjj as (r' & l0 & Hj' & Hx'). transitivity r'.
  - apply (Hrec (mkItem r i) (mkItem r' j)). by eapply Hleast.
  - eapply wsorted_head_le; [| done]. rewrite Forall_lookup in Hs. by eapply Hs.
Qed.
End kmerge.
