(* ===== verification/Merge.v ===== *)
(** * Compaction: the merge

    Models [internal/compaction/compaction.go] and [heap.go]: the k-way merge
    of SSTables through a heap, the retention rules, and the writing of the
    output table.  The iterators read through one block cache, which is passed
    from call to call. *)

From S2P Require Import Float64 Bloom MemTableClaims.
From S2P Require Export TableClaims KMerge.

(** ** [MinHeap] *)

Definition MinHeap_Less (a b : item) : bool :=
  if negb (key_eqb (Key (irec a)) (Key (irec b))) then key_ltb (Key (irec a)) (Key (irec b))
  else if negb (Seq (irec a) =? Seq (irec b)) then Seq (irec a) >? Seq (irec b)
  else (isrc b <? isrc a)%nat.

(** ** Retention *)

Record MergeOptions := mkMergeOptions {
  OldestReader : option Z;
  DropTombstones : bool;
  mWriteOptions : option WriteOptions;
}.

Record retention := mkRetention {
  lastKey : bytes;
  firstKey : bool;
  retainedVisible : bool;
  output : list record;
}.

Definition retention_init : retention := mkRetention [] true false [].

(** The body of the merge loop for the popped record. *)
Definition retain (options : MergeOptions) (rec : record) (st : retention) : retention :=
  let fresh := firstKey st || negb (key_eqb (Key rec) (lastKey st)) in
  let lastKey' := if fresh then Key rec else lastKey st in
  let firstKey' := if fresh then false else firstKey st in
  let rv := if fresh then false else retainedVisible st in
  let '(keep, rv) :=
    match OldestReader options with
    | None => if negb rv then (negb (rDeleted rec) || negb (DropTombstones options), true) else (false, rv)
    | Some oldest =>
        if Seq rec >? oldest then (true, rv)
        else if negb rv then (true, true) else (false, rv)
    end in
  let output' := if keep : bool then output st ++ [rec] else output st in
  let rv := match OldestReader options with
            | Some oldest => if Seq rec <=? oldest then true else rv
            | None => rv
            end in
  mkRetention lastKey' firstKey' rv output'.

(** ** The merge *)

Inductive merge_error : Type :=
| MergeRead (e : read_error)
| MergeWrite (e : sst_error).

Section merge.
Context {lz : LZ4Codec} {C : Type} `{!Cache C}.
Context (Hash128 : bytes -> Z * Z) (math_Log : float64 -> float64) (conv : float64 -> Z).

(** A table iterator over the shared cache. *)
Definition table_next (it : TIterator (C := C)) (cache : option C) : option (bool * TIterator (C := C) * option C) :=
  '(ok, it) ← TIterator_Next (ti_set_cache cache it);
  Some (ok, it, ti_cache it).

Global Instance table_shared : SharedIterator (option C) read_error (TIterator (C := C)) := {|
  sh_next := table_next;
  sh_record := ti_current;
  sh_err := ti_err;
|}.

(** [if it.Next() { heap.Push(...) }] and the check of [it.Err()]. *)
Definition push_next (i : nat) (it : TIterator (C := C)) (h : list item) (cache : option C)
    : option (result read_error (list item * TIterator (C := C)) * option C) :=
  '(ok, it, cache) ← sh_next it cache;
  h ← (if (ok : bool) then heap_Push MinHeap_Less (mkItem (sh_record it) i) h else Some h);
  Some (match sh_err it with Some e => Err e | None => Ok (h, it) end, cache).

(** A table given to the merge: its file and its handle. *)
Record input := mkInput { in_file : bytes; in_sst : SSTable }.

(** [for i, sst := range sstables { ... }] *)
Fixpoint prime (tables : list input) (h : list item) (its : list (TIterator (C := C))) (cache : option C)
    : option (result read_error (list item * list (TIterator (C := C))) * option C) :=
  match tables with
  | [] => Some (Ok (h, its), cache)
  | t :: tables =>
      match Iterator_ (in_file t) (in_sst t) cache with
      | Err e => Some (Err e, cache)
      | Ok it =>
          '(r, cache) ← push_next (length its) it h cache;
          match r with
          | Err e => Some (Err e, cache)
          | Ok (h, it) => prime tables h (its ++ [it]) cache
          end
      end
  end.

(** [for h.Len() > 0 { ... }] *)
Fixpoint merge_loop (fuel : nat) (options : MergeOptions) (h : list item) (its : list (TIterator (C := C)))
    (st : retention) (cache : option C) : option (result read_error (list record) * option C) :=
  match fuel with
  | O => None
  | S fuel =>
      if (length h =? 0)%nat then Some (Ok (output st), cache)
      else
        '(x, h) ← heap_Pop MinHeap_Less h;
        let st := retain options (irec x) st in
        it ← its !! isrc x;
        '(r, cache) ← push_next (isrc x) it h cache;
        match r with
        | Err e => Some (Err e, cache)
        | Ok (h, it) => merge_loop fuel options h (<[isrc x := it]> its) st cache
        end
  end.

Definition MergeSSTablesWithOptions (fuel : nat) (sstables : list input) (options : MergeOptions) (cache : option C)
    : option (result merge_error (table_meta * bytes) * option C) :=
  '(r, cache) ← prime sstables [] [] cache;
  match r with
  | Err e => Some (Err (MergeRead e), cache)
  | Ok (h, its) =>
      '(r, cache) ← merge_loop fuel options h its retention_init cache;
      match r with
      | Err e => Some (Err (MergeRead e), cache)
      | Ok output =>
          let writeOptions := match mWriteOptions options with Some w => w | None => DefaultWriteOptions end in
          w ← CreateFromRecordsWithOptions Hash128 math_Log conv output writeOptions;
          Some (map_err MergeWrite w, cache)
      end
  end.

Definition MergeSSTablesWithRetention (fuel : nat) (sstables : list input) (oldestReader : option Z) (cache : option C)
    : option (result merge_error (table_meta * bytes) * option C) :=
  MergeSSTablesWithOptions fuel sstables (mkMergeOptions oldestReader false None) cache.

Definition MergeSSTables (fuel : nat) (sstables : list input) (cache : option C)
    : option (result merge_error (table_meta * bytes) * option C) :=
  MergeSSTablesWithOptions fuel sstables (mkMergeOptions None false None) cache.
End merge.

(** ** The order of the heap *)

Lemma MinHeap_le a b :
  hle MinHeap_Less a b <->
  rec_lt (irec a) (irec b) \/ (Key (irec a) = Key (irec b) /\ Seq (irec a) = Seq (irec b) /\ (isrc b <= isrc a)%nat).
Proof.
  unfold hle, MinHeap_Less. rewrite rec_lt_iff.
  destruct (key_eqb_spec (Key (irec b)) (Key (irec a))) as [Ek | Hk]; simpl.
  - destruct (Z.eqb_spec (Seq (irec b)) (Seq (irec a))) as [Es | Hs]; simpl.
    + rewrite Nat.ltb_ge. split; [intros; right; by split_and! |].
      intros [[H | [_ H]] | (_ & _ & H)]; [rewrite Ek in H; key_order | lia | done].
    + split.
      * intros H. left. right. split; [done |]. destruct (Z.gtb_spec (Seq (irec b)) (Seq (irec a))); [done | lia].
      * intros [[H | [_ H]] | (_ & H & _)]; [rewrite Ek in H; key_order | | congruence].
        destruct (Z.gtb_spec (Seq (irec b)) (Seq (irec a))); [lia | done].
  - rewrite key_ltb_ge. split.
    + intros H. left. left. apply key_le_lteq in H as [H | H]; [done | congruence].
    + intros [[H | [H _]] | (H & _)]; [key_order | congruence | congruence].
Qed.

Lemma MinHeap_irr a : MinHeap_Less a a = false.
Proof. apply MinHeap_le. right. by split_and!. Qed.

Lemma MinHeap_trans a b c : hle MinHeap_Less a b -> hle MinHeap_Less b c -> hle MinHeap_Less a c.
Proof.
  rewrite !MinHeap_le. intros [H1 | (K1 & S1 & I1)] [H2 | (K2 & S2 & I2)].
  - left. by transitivity (irec b).
  - left. unfold rec_lt in *. by rewrite (less_ext _ (irec a) _ (irec b)).
  - left. unfold rec_lt in *. by rewrite (less_ext _ (irec b) _ (irec c)).
  - right. split_and!; [congruence | congruence | lia].
Qed.

Lemma MinHeap_tot a b : MinHeap_Less a b = true -> hle MinHeap_Less a b.
Proof.
  intros H. rewrite MinHeap_le. destruct (rec_lt_total (irec a) (irec b)) as [Hl | [[K S] | Hl]]; [by left | |].
  - right. split_and!; [done | done |]. unfold MinHeap_Less in H. rewrite K, S, key_eqb_refl, Z.eqb_refl in H. simpl in H.
    apply Nat.ltb_lt in H. lia.
  - exfalso. assert (Hb : hle MinHeap_Less b a) by (apply MinHeap_le; by left). unfold hle in Hb. congruence.
Qed.

Lemma MinHeap_rec a b : hle MinHeap_Less a b -> rec_le (irec a) (irec b).
Proof.
  rewrite MinHeap_le. intros [H | (K & S & _)]; [by apply rec_lt_le |]. apply rec_le_iff. right. split; [done | lia].
Qed.
