(* ===== verification/MergeRefine.v ===== *)
(** * Compaction: what the merge preserves

    The order in which versions leave the heap, the retention rules as a
    condition on each record, and the reads that the output table answers as
    the inputs did. *)

From S2P Require Import Float64 Bloom MemTableClaims.
From S2P Require Export Merge.

(** ** Versions *)

(** The records with the key and sequence number of [v]. *)
Abbreviation versions v l := (filter (fun r => same_version v r = true) (l : list record)).

Lemma same_version_refl r : same_version r r = true.
Proof. by apply same_version_spec. Qed.

(** [newest] picks the first of its versions. *)
Lemma foldl_consider_first key l b r :
  Forall (fun x => Key x = key) (b :: l) -> foldl consider (Some b) l = Some r ->
  head (versions r (b :: l)) = Some r.
Proof.
  revert b. induction l as [|a l IH]; intros b Hf H.
  - injection H as <-. rewrite filter_cons_True by apply same_version_refl. done.
  - apply Forall_cons in Hf as [Hb Hf]. pose proof Hf as Hf'. apply Forall_cons in Hf' as [Ha Hf']. cbn [foldl consider] in H.
    destruct (Z.ltb_spec (Seq b) (Seq a)) as [Hlt | Hge].
    + pose proof (foldl_consider_spec l a) as Hs. rewrite H in Hs. destruct Hs as (_ & Hra & _).
      rewrite filter_cons_False; [by apply IH |]. intros [_ E]%same_version_spec. lia.
    + pose proof (foldl_consider_spec l b) as Hs. rewrite H in Hs. destruct Hs as (_ & Hrb & _).
      specialize (IH b ltac:(by constructor) H). destruct (decide (same_version r b = true)) as [Eb | Nb].
      * rewrite filter_cons_True in IH |- * by done. done.
      * rewrite filter_cons_False in IH |- * by done. rewrite filter_cons_False; [done |].
        intros [_ E]%same_version_spec. apply Nb. apply same_version_spec. split; [| lia].
        assert (Hr : r ∈ versions r l) by (destruct (versions r l); [done | injection IH as ->; left]).
        apply list_elem_of_filter in Hr as [_ Hr]. rewrite Forall_forall in Hf'. rewrite (Hf' r Hr). congruence.
Qed.

Lemma newest_first key maxSeq l r : newest key maxSeq l = Some r -> head (versions r l) = Some r.
Proof.
  intros H. pose proof (newest_Some _ _ _ _ H) as (_ & Hv & _). unfold newest in H.
  assert (E : versions r l = versions r (filter (visible key maxSeq) l)).
  { rewrite list_filter_filter. apply list_filter_iff_in. intros x _. split; [| by intros []]. intros Hx. split; [done |].
    apply same_version_spec in Hx as [K S]. destruct Hv as [Hk Hs]. split; [congruence | lia]. }
  rewrite E. destruct (filter (visible key maxSeq) l) as [|b l'] eqn:Ef; [done |].
  apply (foldl_consider_first key); [| exact H]. apply Forall_forall. intros x Hx. rewrite <- Ef in Hx.
  by apply list_elem_of_filter in Hx as [[? _] _].
Qed.

(** Lists that agree on every version, in order, answer reads alike. *)
Lemma newest_versions key maxSeq l1 l2 :
  (forall v, versions v l1 = versions v l2) -> newest key maxSeq l1 = newest key maxSeq l2.
Proof.
  intros H.
  assert (Hin : forall x, x ∈ l1 <-> x ∈ l2).
  { intros x. pose proof (same_version_refl x) as Hx. split; intros Hl.
    - assert (Hl' : x ∈ versions x l1) by (by apply list_elem_of_filter). rewrite H in Hl'. by apply list_elem_of_filter in Hl' as [_ ?].
    - assert (Hl' : x ∈ versions x l2) by (by apply list_elem_of_filter). rewrite <- H in Hl'. by apply list_elem_of_filter in Hl' as [_ ?]. }
  destruct (newest key maxSeq l1) as [r1|] eqn:E1, (newest key maxSeq l2) as [r2|] eqn:E2; [| | | done].
  - pose proof (newest_Some _ _ _ _ E1) as (I1 & V1 & M1). pose proof (newest_Some _ _ _ _ E2) as (I2 & V2 & M2).
    apply newest_first in E1, E2.
    assert (S12 : Seq r1 = Seq r2). { pose proof (M1 r2 ltac:(by apply Hin) V2). pose proof (M2 r1 ltac:(by apply Hin) V1). lia. }
    assert (Ev : versions r1 l1 = versions r2 l2).
    { rewrite H. apply list_filter_iff_in. intros x _. rewrite !same_version_spec. destruct V1 as [-> _], V2 as [-> _]. by rewrite S12. }
    congruence.
  - exfalso. pose proof (newest_Some _ _ _ _ E1) as (I1 & V1 & _). rewrite newest_None in E2. apply (E2 r1); [by apply Hin | done].
  - exfalso. pose proof (newest_Some _ _ _ _ E2) as (I2 & V2 & _). rewrite newest_None in E1. apply (E1 r2); [by apply Hin | done].
Qed.

(** ** The order out of the heap *)

Lemma concat_reverse_insert {A} (P : list (list A)) i l :
  P !! i = Some l ->
  concat (reverse P) = concat (reverse (drop (S i) P)) ++ l ++ concat (reverse (take i P)).
Proof.
  intros H. rewrite <- (take_drop_middle P i l H) at 1. rewrite reverse_app, reverse_cons, !concat_app. simpl.
  by rewrite app_nil_r, <- app_assoc.
Qed.

Lemma versions_concat v (P : list (list record)) :
  versions v (concat (reverse P)) = concat (reverse ((fun l => versions v l) <$> P)).
Proof.
  rewrite <- fmap_reverse. induction (reverse P) as [|l Q IH]; [done |]. simpl. by rewrite filter_app, IH.
Qed.

(** Every version comes out from the later sources first. *)
Lemma merged_versions P out v :
  Forall wsorted P -> merged MinHeap_Less P out -> versions v out = versions v (concat (reverse P)).
Proof.
  intros Hs H. induction H as [P HP | P i r l out HP Hleast H IH].
  - replace (concat (reverse P)) with (@nil record); [done |]. symmetry. clear -HP.
    induction HP as [|l P -> _ IH]; [done |]. rewrite reverse_cons, concat_app, IH. done.
  - specialize (IH ltac:(by eapply least_update)). apply lookup_lt_Some in HP as Hi.
    rewrite (concat_reverse_insert P i (r :: l) HP).
    rewrite (concat_reverse_insert (<[i:=l]> P) i l) in IH by (by apply list_lookup_insert_eq).
    rewrite drop_insert_lt, take_insert_ge in IH by lia. rewrite !filter_app in IH |- *.
    destruct (decide (same_version v r = true)) as [Ev | Nv].
    + rewrite !(filter_cons_True _ r) by done. rewrite IH.
      assert (Hnone : versions v (concat (reverse (drop (S i) P))) = []); [| by rewrite Hnone].
      apply list_filter_nil, Forall_forall. intros x Hx Ex.
      apply list_elem_of_In, in_concat in Hx as (lj & Hlj & Hx). apply list_elem_of_In in Hlj, Hx.
      rewrite elem_of_reverse in Hlj. apply list_elem_of_lookup in Hlj as [j Hj]. rewrite lookup_drop in Hj.
      destruct lj as [|rj lj]; [by apply elem_of_nil in Hx |].
      pose proof (Hleast _ _ _ Hj) as Hle. rewrite Forall_lookup in Hs. pose proof (wsorted_head_le rj lj x (Hs _ _ Hj) Hx) as Hjx.
      apply same_version_spec in Ev as [K1 S1], Ex as [K2 S2].
      apply MinHeap_le in Hle as [Hlt | (_ & _ & Hle)]; simpl in *; [| lia].
      apply rec_lt_iff in Hlt. apply rec_le_iff in Hjx. rewrite <- K2, K1, <- S2, S1 in Hjx.
      destruct Hlt as [Hlt | [E1 Hlt]], Hjx as [Hjx | [E2 Hjx]]; try lia; [key_order | rewrite E2 in Hlt; key_order | rewrite E1 in Hjx; key_order].
    + rewrite !(filter_cons_False _ r) by done. done.
Qed.

(** A merge of sorted sources reads like the sources put one after the other,
    the later ones first. *)
Lemma merged_newest P out key maxSeq :
  Forall wsorted P -> merged MinHeap_Less P out -> newest key maxSeq out = newest key maxSeq (concat (reverse P)).
Proof. intros Hs H. apply newest_versions. intros v. by apply merged_versions. Qed.

(** ** Retention as a condition on each record *)

(** The record [r], popped after [before], is kept. *)
Definition kept (options : MergeOptions) (before : list record) (r : record) : bool :=
  match OldestReader options with
  | None => negb (existsb (fun x => key_eqb (Key x) (Key r)) before) && (negb (rDeleted r) || negb (DropTombstones options))
  | Some oldest => (Seq r >? oldest) || negb (existsb (fun x => key_eqb (Key x) (Key r) && (Seq x <=? oldest)) before)
  end.

Fixpoint keeps (options : MergeOptions) (before l : list record) : list record :=
  match l with
  | [] => []
  | r :: l => (if kept options before r then [r] else []) ++ keeps options (before ++ [r]) l
  end.

(** The state of the loop after [before]. *)
Record retained (options : MergeOptions) (before : list record) (st : retention) : Prop := mkRetained {
  rt_first : firstKey st = true -> before = [];
  rt_fresh : before = [] -> firstKey st = true;
  rt_last : forall x, x ∈ before -> (Key x <= lastKey st)%key;
  rt_visible : firstKey st = false -> retainedVisible st =
    match OldestReader options with
    | None => true
    | Some oldest => existsb (fun x => key_eqb (Key x) (lastKey st) && (Seq x <=? oldest)) before
    end;
  rt_in : firstKey st = false -> existsb (fun x => key_eqb (Key x) (lastKey st)) before = true;
}.

Lemma existsb_false {A} (f : A -> bool) l : (forall x, x ∈ l -> f x = false) -> existsb f l = false.
Proof.
  intros H. apply not_true_iff_false. intros (x & Hx & E)%existsb_exists. apply list_elem_of_In in Hx. rewrite H in E; done.
Qed.

Lemma retained_init options : retained options [] retention_init.
Proof. constructor; try done. by intros x ?%not_elem_of_nil. Qed.

(** The two situations of a popped record: the first of its key, or a further
    version of the last key. *)
Lemma retained_fresh options before r st :
  wsorted (before ++ [r]) -> retained options before st ->
  let fresh := firstKey st || negb (key_eqb (Key r) (lastKey st)) in
  if fresh then forall x, x ∈ before -> (Key x < Key r)%key
  else firstKey st = false /\ lastKey st = Key r.
Proof.
  intros Hs [H1 H2 H3 H4 H5]. destruct (firstKey st) eqn:Ef; simpl.
  - rewrite (H1 eq_refl). by intros x ?%not_elem_of_nil.
  - destruct (key_eqb_spec (Key r) (lastKey st)) as [E | Hne]; simpl; [done |]. intros x Hx.
    specialize (H5 eq_refl). apply existsb_exists in H5 as (y & Hy & Ey). apply list_elem_of_In in Hy. apply key_eqb_eq in Ey.
    assert (Hyr : rec_le y r) by (eapply StronglySorted_app_1_elem_of; [exact Hs | done | left]).
    apply rec_le_key in Hyr. specialize (H3 x Hx). rewrite Ey in Hyr.
    apply key_le_lteq in Hyr as [Hyr | Hyr]; [key_order | congruence].
Qed.

Lemma existsb_snoc {A} (f : A -> bool) l x : existsb f (l ++ [x]) = existsb f l || f x.
Proof. rewrite existsb_app. simpl. by rewrite orb_false_r. Qed.

Lemma retain_step options before r st :
  wsorted (before ++ [r]) -> retained options before st ->
  retained options (before ++ [r]) (retain options r st) /\
  output (retain options r st) = output st ++ (if kept options before r then [r] else []).
Proof.
  intros Hs Hr. pose proof (retained_fresh options before r st Hs Hr) as Hf. cbv zeta in Hf.
  assert (Hle : forall x, x ∈ before -> rec_le x r).
  { intros x Hx. eapply StronglySorted_app_1_elem_of; [exact Hs | done | left]. }
  assert (Hsnoc : forall k x, k = Key r -> x ∈ before ++ [r] -> (Key x <= k)%key).
  { intros k x -> [Hx | ->%list_elem_of_singleton]%elem_of_app; [by apply rec_le_key, Hle | key_order]. }
  destruct Hr as [H1 H2 H3 H4 H5]. unfold retain.
  destruct (firstKey st || negb (key_eqb (Key r) (lastKey st))) eqn:Efr; cbv zeta.
  - assert (Hno : forall g : record -> bool, existsb (fun x => key_eqb (Key x) (Key r) && g x) before = false).
    { intros g. apply existsb_false. intros x Hx. specialize (Hf x Hx).
      destruct (key_eqb_spec (Key x) (Key r)) as [E |]; [rewrite E in Hf; key_order | done]. }
    assert (Hno' : existsb (fun x => key_eqb (Key x) (Key r)) before = false).
    { apply existsb_false. intros x Hx. specialize (Hf x Hx).
      destruct (key_eqb_spec (Key x) (Key r)) as [E |]; [rewrite E in Hf; key_order | done]. }
    unfold kept. destruct (OldestReader options) as [oldest|] eqn:Eo; cbn [negb].
    + rewrite Hno. rewrite orb_true_r. destruct (Z.gtb_spec (Seq r) oldest), (Z.leb_spec (Seq r) oldest); try lia; simpl.
      all: split; [| done].
      all: constructor; simpl; [done | by intros [_ ?]%app_nil | by intros; apply Hsnoc | intros _; rewrite Eo, existsb_snoc, Hno, key_eqb_refl |
        intros _; rewrite existsb_snoc, key_eqb_refl; apply orb_true_r].
      all: simpl; destruct (Z.leb_spec (Seq r) oldest); [done || lia | done || lia].
    + rewrite Hno'. simpl. split; [| by destruct (negb (rDeleted r) || negb (DropTombstones options)); rewrite ?app_nil_r].
      constructor; simpl; [done | by intros [_ ?]%app_nil | by intros; apply Hsnoc | by rewrite Eo |].
      intros _. rewrite existsb_snoc, key_eqb_refl. apply orb_true_r.
  - destruct Hf as [Hff Hl]. specialize (H4 Hff). specialize (H5 Hff). rewrite Hff, Hl in *.
    unfold kept. destruct (OldestReader options) as [oldest|] eqn:Eo.
    + rewrite H4. set (e := existsb _ before).
      destruct (Z.gtb_spec (Seq r) oldest), (Z.leb_spec (Seq r) oldest), e eqn:Ee; try lia; simpl; rewrite ?app_nil_r;
        (split; [| done]).
      all: constructor; simpl; [done | by intros [_ ?]%app_nil | by intros; apply Hsnoc | |
        intros _; by rewrite existsb_snoc, H5].
      all: intros _; rewrite Eo, existsb_snoc, key_eqb_refl; fold e; rewrite Ee; simpl.
      all: destruct (Z.leb_spec (Seq r) oldest); done || lia.
    + rewrite H4, H5. simpl. rewrite app_nil_r. split; [| done].
      constructor; simpl; [done | by intros [_ ?]%app_nil | by intros; apply Hsnoc | by rewrite Eo |].
      intros _. by rewrite existsb_snoc, H5.
Qed.

Lemma retain_all options before l st :
  wsorted (before ++ l) -> retained options before st ->
  output (foldl (fun st r => retain options r st) st l) = output st ++ keeps options before l.
Proof.
  revert before st. induction l as [|r l IH]; intros before st Hs Hr; simpl; [by rewrite app_nil_r |].
  rewrite (cons_middle r before l), app_assoc in Hs.
  destruct (retain_step options before r st) as [Hr' Ho]; [by apply StronglySorted_app_1_l in Hs | done |].
  rewrite (IH (before ++ [r])), Ho by done. by rewrite <- app_assoc.
Qed.

Lemma keeps_app options before l1 l2 :
  keeps options before (l1 ++ l2) = keeps options before l1 ++ keeps options (before ++ l1) l2.
Proof.
  revert before. induction l1 as [|r l1 IH]; intros before; simpl; [by rewrite app_nil_r |].
  rewrite IH, <- !app_assoc. done.
Qed.

Lemma keeps_sublist options before l : sublist (keeps options before l) l.
Proof.
  revert before. induction l as [|r l IH]; intros before; simpl; [constructor |].
  destruct (kept options before r); simpl; by constructor.
Qed.

Lemma keeps_elem options before l x : x ∈ keeps options before l -> x ∈ l.
Proof. intros H. eapply elem_of_sublist; [exact H | apply keeps_sublist]. Qed.

Lemma sublist_StronglySorted {A} (R : A -> A -> Prop) (l k : list A) : sublist l k -> StronglySorted R k -> StronglySorted R l.
Proof.
  induction 1 as [|x l k H IH | x l k H IH]; intros Hs; [constructor | |]; inversion Hs as [|? ? Hs' Hf]; subst; [| auto].
  constructor; [auto |]. apply Forall_forall. intros y Hy. rewrite Forall_forall in Hf. apply Hf.
  by eapply elem_of_sublist.
Qed.

(** The bounds at which reads are preserved: at or above the oldest reader;
    without readers, at or above every version. *)
Definition read_bound (options : MergeOptions) (maxSeq : Z) (l : list record) : Prop :=
  match OldestReader options with
  | Some oldest => oldest <= maxSeq
  | None => Forall (fun r => Seq r <= maxSeq) l
  end.

(** The answer of the output to a read that the inputs answer with [found]: a
    tombstone may be gone. *)
Definition after_drop (options : MergeOptions) (found : option record) : option record :=
  match found with
  | Some r => if rDeleted r && DropTombstones options && bool_decide (OldestReader options = None) then None else Some r
  | None => None
  end.

(** The first visible version is kept unless it is a tombstone to drop. *)
Lemma first_visible_kept options key maxSeq before r :
  read_bound options maxSeq (before ++ [r]) -> visible key maxSeq r -> Forall (fun x => ~ visible key maxSeq x) before ->
  kept options before r = negb (rDeleted r && DropTombstones options && bool_decide (OldestReader options = None)).
Proof.
  intros Hb [Hk Hs] Hnv. rewrite Forall_forall in Hnv. unfold read_bound, kept in *.
  destruct (OldestReader options) as [oldest|].
  - rewrite bool_decide_false, andb_false_r by done. simpl. apply orb_true_iff. right.
    rewrite existsb_false; [done |]. intros x Hx. destruct (key_eqb_spec (Key x) (Key r)) as [E |]; [| done].
    destruct (Z.leb_spec (Seq x) oldest); [| done]. exfalso. apply (Hnv x Hx). split; [congruence | lia].
  - rewrite bool_decide_true, andb_true_r by done. apply Forall_app in Hb as [Hb _]. rewrite Forall_forall in Hb.
    rewrite existsb_false; [simpl; by destruct (rDeleted r), (DropTombstones options) |]. intros x Hx.
    destruct (key_eqb_spec (Key x) (Key r)) as [E |]; [| done]. exfalso. apply (Hnv x Hx). split; [congruence | by apply Hb].
Qed.

(** Without readers, only the first version of a key can be kept. *)
Lemma keeps_once options key before l x :
  OldestReader options = None -> key ∈ Key <$> before -> x ∈ keeps options before l -> Key x <> key.
Proof.
  intros Eo. revert before. induction l as [|y l IH]; intros before Hin Hx Hk; simpl in Hx; [by apply elem_of_nil in Hx |].
  apply elem_of_app in Hx as [Hx | Hx].
  - unfold kept in Hx. rewrite Eo in Hx. destruct (existsb (fun z => key_eqb (Key z) (Key y)) before) eqn:Ee; simpl in Hx;
      [by apply elem_of_nil in Hx |].
    assert (x = y) as -> by (destruct (negb (rDeleted y) || negb (DropTombstones options)); set_solver).
    apply not_true_iff_false in Ee. apply Ee. apply list_elem_of_fmap in Hin as (r & -> & Hr).
    apply existsb_exists. exists r. split; [by apply list_elem_of_In |]. by apply key_eqb_eq.
  - apply (IH (before ++ [y])); [rewrite fmap_app; set_solver | done | done].
Qed.

Lemma filter_first {A} (Q : A -> Prop) `{!forall x, Decision (Q x)} (l : list A) x l' :
  filter Q l = x :: l' -> exists l1 l2, l = l1 ++ x :: l2 /\ Q x /\ Forall (fun y => ~ Q y) l1.
Proof.
  induction l as [|y l IH]; [done |]. intros E. destruct (decide (Q y)) as [Hy | Hy].
  - rewrite filter_cons_True in E by done. injection E as -> _. by exists [], l.
  - rewrite filter_cons_False in E by done. destruct (IH E) as (l1 & l2 & -> & Hx & F). exists (y :: l1), l2.
    split; [done |]. split; [done | by constructor].
Qed.

Lemma keeps_newest options key maxSeq l :
  wsorted l -> read_bound options maxSeq l ->
  newest key maxSeq (keeps options [] l) = after_drop options (newest key maxSeq l).
Proof.
  intros Hs Hb.
  assert (Hs' : wsorted (keeps options [] l)) by (eapply sublist_StronglySorted; [apply keeps_sublist | done]).
  rewrite !newest_wsorted by done. destruct (filter (visible key maxSeq) l) as [|r l'] eqn:Ef; cbn [head after_drop].
  - rewrite list_filter_nil; [done |]. apply Forall_forall. intros x Hx%keeps_elem Hv.
    assert (Hx' : x ∈ filter (visible key maxSeq) l) by (by apply list_elem_of_filter). rewrite Ef in Hx'. by apply elem_of_nil in Hx'.
  - destruct (filter_first _ _ _ _ Ef) as (l1 & l2 & -> & Hv & Hnv). rewrite keeps_app. simpl.
    assert (Hb1 : read_bound options maxSeq (l1 ++ [r])).
    { unfold read_bound in *. destruct (OldestReader options); [done |]. rewrite cons_middle, app_assoc in Hb. by apply Forall_app in Hb as [? _]. }
    rewrite (first_visible_kept options key maxSeq l1 r Hb1 Hv Hnv).
    assert (Hn1 : filter (visible key maxSeq) (keeps options [] l1) = []).
    { apply list_filter_nil, Forall_forall. intros x Hx%keeps_elem. rewrite Forall_forall in Hnv. by apply Hnv. }
    rewrite filter_app, Hn1. destruct (rDeleted r && DropTombstones options && bool_decide (OldestReader options = None)) eqn:Ed; simpl.
    + rewrite list_filter_nil; [done |]. apply Forall_forall. intros x Hx [Hkx _].
      apply andb_true_iff in Ed as [_ Eo%bool_decide_eq_true].
      apply (keeps_once options key (l1 ++ [r]) l2 x Eo); [| done | done]. destruct Hv as [<- _]. rewrite fmap_app. set_solver.
    + rewrite filter_cons_True by done. done.
Qed.

(** ** The loops *)

Lemma concat_insert_length {A} (P : list (list A)) i r l :
  P !! i = Some (r :: l) -> length (concat P) = S (length (concat (<[i := l]> P))).
Proof.
  revert i. induction P as [|l0 P IH]; intros [|i] H; try done; cbn [concat].
  - injection H as ->. change (<[0%nat := l]> ((r :: l) :: P)) with (l :: P). cbn [concat]. rewrite !length_app. simpl. lia.
  - change (<[S i := l]> (l0 :: P)) with (l0 :: <[i := l]> P). cbn [concat]. rewrite !length_app, (IH i H). lia.
Qed.

Lemma merged_length Less P out : merged Less P out -> length out = length (concat P).
Proof.
  induction 1 as [P HP | P i r l out HP _ _ IH].
  - clear -HP. induction HP as [|l P -> _ IH]; [done | exact IH].
  - simpl. by rewrite IH, (concat_insert_length P i r l HP).
Qed.

Section loops.
Context {lz : LZ4Codec} {C : Type} `{!Cache C} (Inv : option C -> Prop).

Local Abbreviation streams := (stream (E := read_error) (I := TIterator (C := C)) Inv).
Local Abbreviation inv := (kinv MinHeap_Less (fun l it => streams l it)).

Lemma push_next_spec i it h cache l :
  streams l it -> Inv cache ->
  exists it' cache', Inv cache' /\
    match l with
    | [] => push_next i it h cache = Some (Ok (h, it'), cache')
    | r :: l => streams l it' /\
        forall h', heap_Push MinHeap_Less (mkItem r i) h = Some h' -> push_next i it h cache = Some (Ok (h', it'), cache')
    end.
Proof.
  intros Hs Hc. unfold push_next. destruct l as [|r l]; cbn [stream] in Hs.
  - destruct (Hs cache Hc) as (it' & c' & -> & He & Hc'). exists it', c'. split; [done |].
    cbn [mbind option_bind]. by rewrite He.
  - destruct (Hs cache Hc) as (it' & c' & -> & He & Hr & Hc' & Hs'). exists it', c'. split; [done |]. split; [done |].
    intros h' Hp. cbn [mbind option_bind]. by rewrite Hr, Hp, He.
Qed.

(** The table can be opened and yields [l]. *)
Definition opens (t : input) (l : list record) : Prop :=
  forall cache, Inv cache -> exists it, Iterator_ (in_file t) (in_sst t) cache = Ok it /\ streams l it.

Lemma prime_spec tables ls h its P cache :
  Forall2 opens tables ls -> inv h its P -> Inv cache ->
  exists h' its' cache', prime tables h its cache = Some (Ok (h', its'), cache') /\ inv h' its' (P ++ ls) /\ Inv cache'.
Proof.
  intros Ho. revert h its P cache. induction Ho as [|t l tables ls Ht Ho IH]; intros h its P cache Hk Hc; cbn [prime].
  - rewrite app_nil_r. eauto 6.
  - destruct (Ht cache Hc) as (it & -> & Hs).
    destruct (push_next_spec (length its) it h cache l Hs Hc) as (it' & c' & Hc' & Hp).
    pose proof (kinv_prime MinHeap_Less MinHeap_trans MinHeap_tot (fun l it => streams l it) h its P it' l Hk) as Hkp.
    rewrite (cons_middle l P ls), app_assoc. destruct l as [|r l].
    + rewrite Hp. cbn [mbind option_bind]. by apply IH.
    + destruct Hp as [Hs' Hp]. destruct (Hkp Hs') as (h1 & E & Hk1). rewrite (Hp h1 E). cbn [mbind option_bind]. by apply IH.
Qed.

Lemma merge_loop_spec fuel options h its P st cache :
  (length (concat P) < fuel)%nat -> inv h its P -> Inv cache ->
  exists out cache', merged MinHeap_Less P out /\ Inv cache' /\
    merge_loop fuel options h its st cache =
      Some (Ok (output (foldl (fun st r => retain options r st) st out)), cache').
Proof.
  revert h its P st cache. induction fuel as [|fuel IH]; intros h its P st cache Hf Hk Hc; [lia |]. cbn [merge_loop].
  destruct (Nat.eqb_spec (length h) 0) as [E0 | Hne].
  - apply nil_length_inv in E0 as ->. exists [], cache. split; [| done]. constructor. by eapply (kinv_done MinHeap_Less).
  - destruct (kinv_pop MinHeap_Less MinHeap_irr MinHeap_trans MinHeap_tot _ h its P Hk) as
      (r & i & l & h' & it & -> & _ & HP & Hl & Hit & Hs & Hh' & Hp'); [by intros -> |]. cbn [mbind option_bind irec isrc].
    rewrite Hit. cbn [mbind option_bind]. apply lookup_lt_Some in HP as Hi.
    destruct (push_next_spec i it h' cache l Hs Hc) as (it' & c' & Hc' & Hpn).
    pose proof (kinv_advance MinHeap_Less MinHeap_trans MinHeap_tot (fun l it => streams l it) h' its P i it' l Hh' Hp'
      (ki_length _ _ _ _ _ Hk) Hi) as Ha.
    assert (Hk' : exists h1, push_next i it h' cache = Some (Ok (h1, it'), c') /\ inv h1 (<[i := it']> its) (<[i := l]> P)).
    { specialize (Ha ltac:(intros j ? ? ? _; apply (ki_rest _ _ _ _ _ Hk))). destruct l as [|r' l]; [by exists h' |].
      destruct Hpn as [Hs' Hpn]. destruct (Ha Hs') as (h1 & E & Hk1). exists h1. split; [by apply Hpn | done]. }
    destruct Hk' as (h1 & -> & Hk1). cbn [mbind option_bind].
    pose proof (concat_insert_length P i r l HP) as Hlen.
    destruct (IH h1 (<[i := it']> its) (<[i := l]> P) (retain options r st) c') as (out & c2 & Hm & Hc2 & E2);
      [lia | done | done |].
    exists (r :: out), c2. split; [by econstructor |]. done.
Qed.
End loops.
