(* ===== verification/CompactionClaims.v ===== *)
(** * Properties of the compaction merge

    From tables on disk to the answers of the merged table. *)

From S2P Require Import Float64 Bloom BlockCache MemTableClaims.
From S2P Require Export MergeRefine.

(** ** Tables on disk *)

Section claims.
Context {lz : LZ4Codec} {laws : LZ4Laws} {C : Type} `{!Cache C}.
Context (Hash128 : bytes -> Z * Z) (math_Log : float64 -> float64) (conv : float64 -> Z).

(** A table on disk with its identifier, and whether its metadata has been
    loaded. *)
Record disk := mkDisk {
  d_options : WriteOptions;
  d_records : list record;
  d_filter : option Bloom.Filter;
  d_blocks : list TableLayout.block;
  d_meta : table_meta;
  d_file : bytes;
  d_id : Z;
  d_loaded : bool;
}.

Definition disk_ok (d : disk) : Prop :=
  on_disk Hash128 (d_options d) (d_records d) (d_filter d) (d_blocks d) (d_meta d) (d_file d).

Definition disk_input (d : disk) : input :=
  mkInput (d_file d) (if d_loaded d then loaded (d_filter d) (d_blocks d) (d_id d) else fresh_table (d_id d)).

(** What all of the tables allow in the shared cache. *)
Definition disks_allow (ds : list disk) (key : BlockCache.Key) (b : bytes) : Prop :=
  forall d, d ∈ ds -> table_allows (d_options d) (d_blocks d) (d_id d) key b.

Lemma disk_allowed ds d :
  NoDup (d_id <$> ds) -> d ∈ ds -> disk_ok d -> blocks_allowed (d_options d) (d_blocks d) (d_id d) (disks_allow ds).
Proof.
  intros Hnd Hd Hok. by eapply (tables_allowed (fun d => (d_options d, d_blocks d, d_id d)) ds d).
Qed.

Lemma ahead_stream opts l flt bs meta file (Hod : on_disk Hash128 opts l flt bs meta file) allowed id
    (Hal : blocks_allowed opts bs id allowed) rest (it : TIterator (C := C)) :
  ahead flt bs file allowed id it rest -> stream (cache_ok allowed) rest it.
Proof.
  revert it. induction rest as [|r rest IH]; intros it Ha; cbn [stream]; intros c Hc.
  all: pose proof (ahead_next Hash128 opts l flt bs meta file Hod allowed id Hal _ _
    (ahead_set_cache flt bs file allowed id it _ c Ha Hc)) as Hn; cbn in Hn |- *.
  - destruct Hn as (it' & E & He & Hc'). exists it', (ti_cache it'). unfold table_next. by rewrite E.
  - destruct Hn as (it' & E & Hr & Ha'). exists it', (ti_cache it'). unfold table_next. rewrite E.
    split; [done |]. split; [| split; [done |]; split; [by eapply ahead_ok | by apply IH]].
    destruct Ha' as (i & rs & Hir & _). apply (ir_err _ _ _ _ _ _ _ _ Hir).
Qed.

(** The blocks of [d] are allowed under its keys. *)
Local Abbreviation disk_in allowed d := (blocks_allowed (d_options d) (d_blocks d) (d_id d) allowed).

Lemma disk_opens allowed d :
  disk_in allowed d -> disk_ok d ->
  opens (C := C) (cache_ok allowed) (disk_input d) (strip_batch <$> d_records d).
Proof.
  intros Hal Hok cache Hc.
  destruct (Iterator_od Hash128 _ _ _ _ _ _ Hok allowed (d_id d) (in_sst (disk_input d)) cache)
    as (it & E & _ & Ha); [| done |].
  - simpl. destruct (d_loaded d); [by left | right; by eauto].
  - exists it. split; [exact E |]. by eapply ahead_stream.
Qed.

(** ** The merge *)

Lemma strip_strip r : strip_batch (strip_batch r) = strip_batch r.
Proof. done. Qed.

Lemma wf_strip r : wf_record r -> wf_record (strip_batch r).
Proof.
  intros (H1 & H2 & H3 & _). unfold wf_record. split; [done |]. split; [done |]. split; [done |].
  split; [unfold is_u64, u64_max; simpl; lia | done].
Qed.

(** The records of the inputs as reads see them: the later tables first. *)
Definition input_records (ds : list disk) : list record :=
  concat (reverse ((fun d => strip_batch <$> d_records d) <$> ds)).

(** The write options of the output. *)
Definition output_options (options : MergeOptions) : WriteOptions :=
  match mWriteOptions options with Some w => w | None => DefaultWriteOptions end.

(** What the merge of tables on disk writes. *)
Lemma merge_output fuel allowed ds options (cache : option C) :
  Forall disk_ok ds -> Forall (fun d => disk_in allowed d) ds -> cache_ok allowed cache ->
  (length (input_records ds) < fuel)%nat ->
  exists out cache', merged MinHeap_Less ((fun d => strip_batch <$> d_records d) <$> ds) out /\ wsorted out /\
    cache_ok allowed cache' /\
    MergeSSTablesWithOptions Hash128 math_Log conv fuel (disk_input <$> ds) options cache =
      (w ← CreateFromRecordsWithOptions Hash128 math_Log conv (keeps options [] out) (output_options options);
       Some (map_err MergeWrite w, cache')).
Proof.
  intros Hok Hin Hc Hf. set (P := (fun d => strip_batch <$> d_records d) <$> ds).
  assert (Hop : Forall2 (opens (C := C) (cache_ok allowed)) (disk_input <$> ds) P).
  { unfold P. apply Forall2_fmap, Forall2_same_length_lookup. split; [done |]. intros i d d' H1 H2.
    assert (d' = d) as -> by congruence. rewrite Forall_lookup in Hok, Hin. apply disk_opens; eauto. }
  destruct (prime_spec (cache_ok allowed) (disk_input <$> ds) P [] [] [] cache Hop) as (h & its & c1 & E1 & Hk & Hc1);
    [| done |].
  { constructor; [intros k Hk; simpl in Hk; lia | done | done |]. by intros i it r l Hi. }
  destruct (merge_loop_spec (cache_ok allowed) fuel options h its P retention_init c1) as (out & c2 & Hm & Hc2 & E2);
    [| exact Hk | done |].
  { unfold input_records in Hf. fold P in Hf. rewrite (reverse_Permutation P) in Hf. done. }
  assert (Hs : wsorted out).
  { eapply (merged_sorted MinHeap_Less MinHeap_rec); [| exact Hm]. unfold P. apply Forall_fmap.
    eapply Forall_impl; [exact Hok |]. intros d Hd. apply wsorted_strip. apply (od_sorted _ _ _ _ _ _ _ Hd). }
  exists out, c2. split; [done |]. split; [done |]. split; [done |].
  unfold MergeSSTablesWithOptions. rewrite E1. cbn [mbind option_bind]. rewrite E2. cbn [mbind option_bind].
  rewrite (retain_all options [] out retention_init) by (done || apply retained_init). done.
Qed.

Lemma merge_records ds out options :
  Forall disk_ok ds -> merged MinHeap_Less ((fun d => strip_batch <$> d_records d) <$> ds) out ->
  Forall (fun r => wf_record r /\ strip_batch r = r /\ r ∈ input_records ds) (keeps options [] out).
Proof.
  intros Hok Hm. apply Forall_forall. intros r Hr%keeps_elem. apply (merged_elem _ _ _ Hm) in Hr as (l & Hl & Hr).
  assert (Hin : r ∈ input_records ds).
  { unfold input_records. apply list_elem_of_In, in_concat. exists l. split; apply list_elem_of_In; [by rewrite elem_of_reverse | done]. }
  apply list_elem_of_fmap in Hl as (d & -> & Hd). apply list_elem_of_fmap in Hr as (x & -> & Hx).
  rewrite Forall_forall in Hok. pose proof (od_wf _ _ _ _ _ _ _ (Hok d Hd)) as Hwf. rewrite Forall_forall in Hwf.
  split; [by apply wf_strip, Hwf |]. split; [apply strip_strip | done].
Qed.

(** C6: compaction preserves reads.  Merging tables on disk, through a shared
    coherent cache, never panics and never reports a read or an order error.
    When the written table is within the reader's limits, every lookup in it at
    or above the oldest reader's sequence number (without readers: at or above
    every version) answers what the inputs together answer, newer tables
    winning ties; only a deletion may be answered by absence, when tombstones
    may be dropped and there is no reader. *)
Theorem compaction_preserves_reads fuel ds options (cache : option C) :
  Forall disk_ok ds -> NoDup (d_id <$> ds) -> cache_ok (disks_allow ds) cache ->
  (length (input_records ds) < fuel)%nat ->
  (forall n, 0 <= n <= len (input_records ds) -> sizing_ok math_Log conv n (output_options options)) ->
  exists r cache', MergeSSTablesWithOptions Hash128 math_Log conv fuel (disk_input <$> ds) options cache = Some (r, cache') /\
    cache_ok (disks_allow ds) cache' /\
    match r with
    | Err (MergeRead _) => False
    | Err (MergeWrite e) => ~ order_error e
    | Ok (meta, file) => fits meta file ->
        forall key maxSeq id (cache2 : option C),
          read_bound options maxSeq (input_records ds) -> cache_unused id cache2 ->
          exists s cache3, GetRecordAt Hash128 file key maxSeq (fresh_table id) cache2 =
            Some (Ok (after_drop options (newest key maxSeq (input_records ds))), s, cache3)
    end.
Proof.
  intros Hok Hnd Hc Hf Hsz.
  assert (Hin : Forall (fun d => disk_in (disks_allow ds) d) ds).
  { rewrite Forall_forall in Hok |- *. intros d Hd. apply disk_allowed; auto. }
  destruct (merge_output fuel (disks_allow ds) ds options cache Hok Hin Hc Hf) as (out & c1 & Hm & Hs & Hc1 & ->).
  pose proof (merge_records ds out options Hok Hm) as Hrec. set (recs := keeps options [] out) in *.
  assert (Hsr : wsorted recs) by (eapply sublist_StronglySorted; [apply keeps_sublist | exact Hs]).
  assert (Hn : 0 <= len recs <= len (input_records ds)).
  { pose proof (sublist_length _ _ (keeps_sublist options [] out)) as H1. fold recs in H1.
    rewrite (merged_length _ _ _ Hm) in H1. unfold input_records, len. rewrite reverse_Permutation. lia. }
  specialize (Hsz _ Hn). unfold CreateFromRecordsWithOptions.
  destruct (create_spec Hash128 math_Log conv (S (length recs)) (newSliceIterator recs) recs (len recs) (output_options options)
    (newSliceIterator_yields recs) ltac:(lia) Hsz) as (w & Ew & Hw).
  rewrite Ew. cbn [mbind option_bind]. exists (map_err MergeWrite w), c1. split; [done |]. split; [done |].
  destruct w as [[meta file]|e]; cbn [map_err]; [| by intros Ho; apply (Hw Ho)].
  intros Hfit key maxSeq id cache2 Hb Hcu.
  destruct (create_on_disk Hash128 math_Log conv (S (length recs)) (newSliceIterator recs) recs (len recs) (output_options options)
    meta file (newSliceIterator_yields recs) ltac:(lia)
    ltac:(eapply Forall_impl; [exact Hrec | by intros r [? _]]) Hsz Ew Hfit) as (opts' & flt & bs & Hod).
  destruct (GetRecordAt_od Hash128 opts' recs flt bs meta file Hod _ id (table_allowed _ _ id _ _ _ _ _ Hod) key maxSeq
    (fresh_table id) cache2) as (c3 & E3 & _); [right; by eauto | by apply unused_ok |].
  do 2 eexists. rewrite E3. do 4 f_equal.
  assert (Hid : strip_batch <$> recs = recs).
  { rewrite <- (list_fmap_id recs) at 2. apply Forall_fmap_ext_1. eapply Forall_impl; [exact Hrec |]. by intros r (_ & ? & _). }
  rewrite Hid. unfold recs. rewrite keeps_newest; [| done |].
  - f_equal. unfold input_records. apply merged_newest; [| done]. apply Forall_fmap. eapply Forall_impl; [exact Hok |].
    intros d Hd. apply wsorted_strip. apply (od_sorted _ _ _ _ _ _ _ Hd).
  - unfold read_bound in *. destruct (OldestReader options); [done |]. rewrite Forall_forall in Hb |- *. intros x Hx.
    apply Hb. apply (merged_elem _ _ _ Hm) in Hx as (l & Hl & Hx). unfold input_records.
    apply list_elem_of_In, in_concat. exists l. split; apply list_elem_of_In; [by rewrite elem_of_reverse | done].
Qed.
End claims.
Abbreviation disk_in allowed d := (blocks_allowed (d_options d) (d_blocks d) (d_id d) allowed).

(** C28: the retention rules, as the loop applies them to the sorted stream of
    versions.  Without readers a key keeps at most its newest version, and not
    even that one if it is a tombstone that may be dropped; with an oldest
    reader, exactly the versions above it and the first one at or below it stay.
    Reads at the preserved sequence numbers are unchanged up to dropped
    tombstones. *)
Theorem retention_rules options l :
  wsorted l ->
  output (foldl (fun st r => retain options r st) retention_init l) = keeps options [] l /\
  forall key maxSeq, read_bound options maxSeq l ->
    newest key maxSeq (output (foldl (fun st r => retain options r st) retention_init l)) =
    after_drop options (newest key maxSeq l).
Proof.
  intros Hs. rewrite (retain_all options [] l retention_init Hs (retained_init options)).
  split; [done |]. intros key maxSeq Hb. by apply keeps_newest.
Qed.

Definition version (k s : Z) (deleted : bool) : record := mkRecord [z2b k] s (mkEntry [z2b s] deleted) 0 BatchNone.

(** Versions 9, 6, 4 and 2 of a key with a reader at 5: 9, 6 and 4 stay. *)
Lemma retention_rules_witness :
  let l := [version 1 9 false; version 1 6 false; version 1 4 true; version 1 2 false] in
  let options := mkMergeOptions (Some 5) true None in
  keeps options [] l = [version 1 9 false; version 1 6 false; version 1 4 true] /\
  output (foldl (fun st r => retain options r st) retention_init l) = keeps options [] l.
Proof.
  intros l options. split; [vm_compute; reflexivity |].
  refine (proj1 (retention_rules options l _)). repeat constructor.
Defined.

(** ** An example: a tombstone written over the example table *)

Definition newer_records : list record := [version 2 12 true].

Definition newer_written : table_meta * bytes :=
  match CreateFromRecordsWithOptions (lz := run_codec) sum_hash log_hundredth (fun _ => 0) newer_records example_options with
  | Some (Ok r) => r
  | _ => (mkTableMeta 0 [] [] [] None, [])
  end.

Lemma newer_created :
  CreateFromIteratorWithOptions (lz := run_codec) sum_hash log_hundredth (fun _ => 0) 2
    (newSliceIterator newer_records) (len newer_records) example_options =
  Some (Ok (newer_written.1, newer_written.2)).
Proof. vm_compute. reflexivity. Qed.

Lemma newer_wf : Forall wf_record newer_records.
Proof. repeat constructor; vm_compute; congruence. Qed.

Lemma newer_fits : fits newer_written.1 newer_written.2.
Proof.
  split; [vm_compute; congruence |]. split; [vm_compute; congruence |].
  intros f Hf. vm_compute in Hf. injection Hf as <-. vm_compute. split; congruence.
Qed.

Lemma small_sizing n : 0 <= n <= 5 -> sizing_ok log_hundredth (fun _ => 0) n example_options.
Proof.
  intros Hn f H. assert (n = 0 \/ n = 1 \/ n = 2 \/ n = 3 \/ n = 4 \/ n = 5) as [-> | [-> | [-> | [-> | [-> | ->]]]]] by lia;
    vm_compute in H; try discriminate H; injection H as <-; unfold wf_filter; vm_compute; repeat split; congruence.
Qed.

Definition merge_inputs : list input :=
  [mkInput example_written.2 (fresh_table 8); mkInput newer_written.2 (fresh_table 9)].

Definition merge_example_options : MergeOptions := mkMergeOptions None true (Some example_options).

Definition merge_example : option (result merge_error (table_meta * bytes) * option LRU) :=
  MergeSSTablesWithOptions (lz := run_codec) sum_hash log_hundredth (fun _ => 0) 6
    merge_inputs merge_example_options (Some (NewLRU 200)).

Definition merge_written : table_meta * bytes :=
  match merge_example with Some (Ok r, _) => r | _ => (mkTableMeta 0 [] [] [] None, []) end.

Lemma merge_example_ok :
  fst <$> MergeSSTablesWithOptions (lz := run_codec) (C := LRU) sum_hash log_hundredth (fun _ => 0) 6
    merge_inputs merge_example_options (Some (NewLRU 200)) = Some (Ok (merge_written.1, merge_written.2)).
Proof. vm_compute. reflexivity. Qed.

Lemma merge_fits : fits merge_written.1 merge_written.2.
Proof.
  split; [vm_compute; congruence |]. split; [vm_compute; congruence |].
  intros f Hf. vm_compute in Hf. injection Hf as <-. vm_compute. split; congruence.
Qed.

(** The two tables on disk, and what is needed of them. *)
Lemma merge_disks :
  exists ds, Forall (disk_ok (lz := run_codec) sum_hash) ds /\ NoDup (d_id <$> ds) /\ disk_input <$> ds = merge_inputs /\
    d_records <$> ds = [example_records; newer_records].
Proof.
  pose proof run_codec_laws as Hlaws.
  destruct (create_on_disk (lz := run_codec) sum_hash log_hundredth (fun _ => 0) 5 (newSliceIterator example_records)
    example_records (len example_records) example_options example_written.1 example_written.2
    (newSliceIterator_yields _) ltac:(vm_compute; lia) example_wf example_sizing example_created example_fits) as (o1 & f1 & b1 & H1).
  destruct (create_on_disk (lz := run_codec) sum_hash log_hundredth (fun _ => 0) 2 (newSliceIterator newer_records)
    newer_records (len newer_records) example_options newer_written.1 newer_written.2
    (newSliceIterator_yields _) ltac:(vm_compute; lia) newer_wf
    (small_sizing (len newer_records) ltac:(vm_compute; split; congruence)) newer_created newer_fits) as (o2 & f2 & b2 & H2).
  exists [mkDisk o1 example_records f1 b1 example_written.1 example_written.2 8 false;
          mkDisk o2 newer_records f2 b2 newer_written.1 newer_written.2 9 false].
  split; [apply Forall_cons; split; [exact H1 |]; apply Forall_cons; split; [exact H2 | constructor] |].
  split; [| split; reflexivity]. change (NoDup [8; 9]). apply (bool_decide_unpack (NoDup [8; 9])). vm_compute. exact I.
Qed.

Lemma input_records_eq ds : input_records ds = concat (reverse ((fun l : list record => strip_batch <$> l) <$> (d_records <$> ds))).
Proof. unfold input_records. do 2 f_equal. rewrite <- list_fmap_compose. reflexivity. Qed.

Lemma empty_cache_ok allowed cap : 0 <= cap -> cache_ok allowed (Some (NewLRU cap)).
Proof.
  intros Hc. split; [split; [rewrite NewLRU_capacity; lia | exists []; apply NewLRU_repr] |].
  intros k b (l & Hl & Ha). rewrite (repr_unique _ _ _ Hl (NewLRU_repr cap)) in Ha. discriminate Ha.
Qed.

Lemma merge_result {A B} (o : option (A * B)) r b r' : o = Some (r, b) -> fst <$> o = Some r' -> r = r'.
Proof. intros ->. by intros [= ->]. Qed.

Lemma compaction_preserves_reads_witness :
  exists s c3, GetRecordAt (lz := run_codec) (C := LRU) sum_hash merge_written.2 [x02] 20 (fresh_table 10) None = Some (Ok None, s, c3).
Proof.
  pose proof run_codec_laws as Hlaws. destruct merge_disks as (ds & Hok & Hnd & Hin & Hrec).
  assert (Hir : input_records ds = concat (reverse ((fun l : list record => strip_batch <$> l) <$> [example_records; newer_records])))
    by (by rewrite input_records_eq, Hrec).
  destruct (compaction_preserves_reads (lz := run_codec) (C := LRU) sum_hash log_hundredth (fun _ => 0) 6 ds
    merge_example_options (Some (NewLRU 200)) Hok Hnd (empty_cache_ok _ 200 ltac:(lia))) as (r & c & E & _ & Hr).
  - rewrite Hir. vm_compute. lia.
  - intros n Hn. apply small_sizing. rewrite Hir in Hn. exact Hn.
  - rewrite Hin in E. pose proof (merge_result _ _ _ _ E merge_example_ok) as E'. rewrite E' in Hr.
    destruct (Hr merge_fits [x02] 20 10 None) as (s & c3 & Eg); [| exact I |].
    + rewrite Hir. repeat constructor; vm_compute; congruence.
    + exists s, c3. rewrite Eg, Hir. reflexivity.
Defined.
