(* ===== verification/Picker.v ===== *)
(** * Compaction: choosing the tables

    Models [internal/compaction/picker.go].  The size of a table whose
    metadata does not record one is asked from the file system; [stat] is that
    answer ([None] for an error).  [largestTable] indexes its argument, so a
    result [None] stands for the panic on an empty slice, which the callers
    never cause. *)

From S2P Require Import Manifest.
From S2P Require Export Prelude.

Definition L0 : Z := 0.
Definition HighestSupportedLevel : Z := 2.
Definition baseLevelTargetBytes : Z := 64 * 1024 * 1024.

Record CompactionPlan := mkPlan {
  SourceLevel : Z;
  TargetLevel : Z;
  Inputs : list SSTableMetadata;
}.

Section picker.
Context (stat : bytes -> option Z).

Definition tableBytes (table : SSTableMetadata) : Z :=
  if negb (SizeBytes table =? 0) then SizeBytes table
  else match stat (Path table) with
       | Some size => if size >? 0 then size else 0
       | None => 0
       end.

(** The loop of [largestTable] over the remaining tables. *)
Fixpoint largest_loop (largest : SSTableMetadata) (largestSize : Z) (tables : list SSTableMetadata) : SSTableMetadata :=
  match tables with
  | [] => largest
  | table :: tables =>
      let size := tableBytes table in
      if size >? largestSize then largest_loop table size tables else largest_loop largest largestSize tables
  end.

Definition largestTable (tables : list SSTableMetadata) : option SSTableMetadata :=
  match tables with
  | [] => None
  | t :: tables => Some (largest_loop t (tableBytes t) tables)
  end.

Definition hasKeyRange (table : SSTableMetadata) : bool :=
  negb (key_eqb (SmallestKey table) []) && negb (key_eqb (LargestKey table) []).

Fixpoint range_loop (minKey maxKey : bytes) (tables : list SSTableMetadata) : option (bytes * bytes) :=
  match tables with
  | [] => Some (minKey, maxKey)
  | table :: tables =>
      if negb (hasKeyRange table) then None
      else range_loop (if key_ltb (SmallestKey table) minKey then SmallestKey table else minKey)
                      (if key_ltb maxKey (LargestKey table) then LargestKey table else maxKey) tables
  end.

(** [combinedRange]: [None] for an unknown range. *)
Definition combinedRange (tables : list SSTableMetadata) : option (bytes * bytes) :=
  match tables with
  | [] => None
  | t :: tables => if negb (hasKeyRange t) then None else range_loop (SmallestKey t) (LargestKey t) tables
  end.

(** [current] runs from 1 up to [level]. *)
Fixpoint target_loop (n : nat) (target : Z) : Z :=
  match n with
  | O => target
  | S n => if target >? u64_max / 10 then u64_max else target_loop n (u64 (target * 10))
  end.

Definition levelTargetBytes (level : Z) : Z :=
  if level =? L0 then 0 else target_loop (Z.to_nat (level - 1)) baseLevelTargetBytes.

Fixpoint total_loop (total : Z) (tables : list SSTableMetadata) : Z :=
  match tables with
  | [] => total
  | table :: tables =>
      let size := tableBytes table in
      if u64_max - total <? size then u64_max else total_loop (u64 (total + size)) tables
  end.

Definition totalTableBytes (tables : list SSTableMetadata) : Z := total_loop 0 tables.

Definition rangesOverlap (leftMin leftMax rightMin rightMax : bytes) : bool :=
  key_leb leftMin rightMax && key_leb rightMin leftMax.

Definition at_level (level : Z) (table : SSTableMetadata) : Prop := Level table = level.
Global Instance at_level_dec level table : Decision (at_level level table).
Proof. unfold at_level. apply _. Defined.

(** Whether a table of the target level joins the selected ones. *)
Definition joins (range : option (bytes * bytes)) (allTargetRangesKnown : bool) (target : Z) (table : SSTableMetadata) : bool :=
  (Level table =? target) &&
  match range with
  | None => true
  | Some (minKey, maxKey) =>
      negb allTargetRangesKnown || rangesOverlap minKey maxKey (SmallestKey table) (LargestKey table)
  end.

Definition overlapping (selected : list SSTableMetadata) (target : Z) (tables : list SSTableMetadata)
    : list SSTableMetadata :=
  let allTargetRangesKnown := forallb (fun t => negb (Level t =? target) || hasKeyRange t) tables in
  filter (fun t => joins (combinedRange selected) allTargetRangesKnown target t = true) tables.

Definition PickCompaction (tables : list SSTableMetadata) (sourceLevel threshold : Z) : option (option CompactionPlan) :=
  if threshold <=? 0 then Some None
  else
    let source := filter (at_level sourceLevel) tables in
    if (sourceLevel =? L0) && (len source <? threshold) then Some None
    else if (sourceLevel >? L0) && (len source <? threshold) && (totalTableBytes source <? levelTargetBytes sourceLevel)
    then Some None
    else
      let targetLevel := u32 (sourceLevel + 1) in
      selected ← (if negb (sourceLevel =? L0) then t ← largestTable source; Some [t] else Some source);
      Some (Some (mkPlan sourceLevel targetLevel (selected ++ overlapping selected targetLevel tables))).

Definition PickL0Compaction (tables : list SSTableMetadata) (threshold : Z) : option (option CompactionPlan) :=
  PickCompaction tables L0 threshold.
End picker.

(** ** Laws *)

Lemma tableBytes_nonneg stat t : 0 <= SizeBytes t -> 0 <= tableBytes stat t.
Proof.
  intros H. unfold tableBytes. destruct (negb _); [done |]. destruct (stat (Path t)) as [z|]; [| lia].
  destruct (Z.gtb_spec z 0); lia.
Qed.

(** The sum of the sizes. *)
Definition sizes (stat : bytes -> option Z) (tables : list SSTableMetadata) : Z :=
  foldr (fun t s => tableBytes stat t + s) 0 tables.

Lemma sizes_nonneg stat tables : Forall (fun t => 0 <= SizeBytes t) tables -> 0 <= sizes stat tables.
Proof.
  induction 1 as [|t tables Ht _ IH]; simpl; [lia |]. pose proof (tableBytes_nonneg stat t Ht). lia.
Qed.

Lemma total_loop_spec stat total tables :
  0 <= total <= u64_max -> Forall (fun t => 0 <= SizeBytes t) tables ->
  total_loop stat total tables = Z.min (total + sizes stat tables) u64_max.
Proof.
  intros Ht Hf. revert total Ht. induction Hf as [|t tables H Hf IH]; intros total Ht; simpl; [lia |].
  pose proof (tableBytes_nonneg stat t H). pose proof (sizes_nonneg stat tables Hf).
  destruct (Z.ltb_spec (u64_max - total) (tableBytes stat t)); [lia |].
  rewrite u64_id by (unfold is_u64; lia). rewrite IH by lia. lia.
Qed.

Lemma target_loop_spec n target :
  0 < target <= u64_max -> target_loop n target = Z.min (target * 10 ^ Z.of_nat n) u64_max.
Proof.
  revert target. induction n as [|n IH]; intros target Ht; cbn [target_loop]; [rewrite Z.pow_0_r; lia |].
  rewrite Nat2Z.inj_succ, Z.pow_succ_r by lia.
  pose proof (Z.pow_pos_nonneg 10 (Z.of_nat n) ltac:(lia) ltac:(lia)) as Hp.
  pose proof (Z.mul_div_le u64_max 10 ltac:(lia)) as D1. pose proof (Z.mul_succ_div_gt u64_max 10 ltac:(lia)) as D2.
  destruct (Z.gtb_spec target (u64_max / 10)) as [Hgt | Hle].
  - assert (u64_max < target * 10) by lia. nia.
  - assert (target * 10 <= u64_max) by lia.
    rewrite u64_id by (unfold is_u64; lia). rewrite IH by lia. f_equal. lia.
Qed.

(** The size policy saturates instead of wrapping around.  The bytes of a
    level and the target of a level are the exact sum and the exact power of
    ten times 64 MiB, or the largest 64-bit number where that is smaller. *)
Theorem picker_sizes_saturate stat tables level :
  Forall (fun t => 0 <= SizeBytes t) tables -> 0 < level ->
  totalTableBytes stat tables = Z.min (sizes stat tables) u64_max /\
  levelTargetBytes level = Z.min (64 * 2 ^ 20 * 10 ^ (level - 1)) u64_max.
Proof.
  intros Hf Hl. split.
  - apply (total_loop_spec stat 0); [unfold u64_max; lia | done].
  - unfold levelTargetBytes, L0. destruct (Z.eqb_spec level 0); [lia |].
    rewrite target_loop_spec by (unfold baseLevelTargetBytes, u64_max; lia). rewrite Z2Nat.id by lia. done.
Qed.

Lemma picker_sizes_saturate_witness :
  let t := mkMeta 1 [] 3 (2 ^ 63) [] [] in
  totalTableBytes (fun _ => None) [t; t; t] = u64_max /\ levelTargetBytes 13 = u64_max.
Proof.
  intros t. destruct (picker_sizes_saturate (fun _ => None) [t; t; t] 13) as [H1 H2]; [repeat constructor; vm_compute; congruence | lia |].
  rewrite H1, H2. split; vm_compute; reflexivity.
Defined.

(** ** Which tables are chosen *)

Lemma largest_loop_in stat tables t size : let x := largest_loop stat t size tables in x = t \/ x ∈ tables.
Proof.
  revert t size. induction tables as [|u tables IH]; intros t size; simpl; [by left |].
  destruct (_ >? _).
  - destruct (IH u (tableBytes stat u)) as [-> | H]; right; [left | by right].
  - destruct (IH t size) as [-> | H]; [by left | right; by right].
Qed.

Lemma range_loop_spec tables lo hi lo' hi' :
  range_loop lo hi tables = Some (lo', hi') ->
  (lo' <= lo)%key /\ (hi <= hi')%key /\
  Forall (fun t => hasKeyRange t = true /\ (lo' <= SmallestKey t)%key /\ (LargestKey t <= hi')%key) tables.
Proof.
  revert lo hi. induction tables as [|t tables IH]; intros lo hi; cbn [range_loop].
  - intros [= <- <-]. split; [key_order |]. split; [key_order | constructor].
  - destruct (hasKeyRange t) eqn:Eh; [| done]. intros H%IH. destruct H as (H1 & H2 & Hf). split; [| split].
    + destruct (key_ltb_spec (SmallestKey t) lo); key_order.
    + destruct (key_ltb_spec hi (LargestKey t)); key_order.
    + constructor; [| done]. split; [done |]. split.
      * destruct (key_ltb_spec (SmallestKey t) lo); key_order.
      * destruct (key_ltb_spec hi (LargestKey t)); key_order.
Qed.

Lemma combinedRange_spec tables lo hi :
  combinedRange tables = Some (lo, hi) ->
  Forall (fun t => hasKeyRange t = true /\ (lo <= SmallestKey t)%key /\ (LargestKey t <= hi)%key) tables.
Proof.
  destruct tables as [|t tables]; [done |]. cbn [combinedRange]. destruct (hasKeyRange t) eqn:Eh; [| done].
  cbn [negb]. intros (H1 & H2 & Hf)%range_loop_spec. by constructor.
Qed.

Lemma PickCompaction_spec stat tables sourceLevel threshold :
  0 <= sourceLevel ->
  exists r, PickCompaction stat tables sourceLevel threshold = Some r /\
    forall plan, r = Some plan ->
      SourceLevel plan = sourceLevel /\ TargetLevel plan = u32 (sourceLevel + 1) /\
      exists selected, Inputs plan = selected ++ overlapping selected (TargetLevel plan) tables /\ selected <> [] /\
        (if sourceLevel =? L0 then selected = filter (at_level sourceLevel) tables
         else exists t, selected = [t] /\ t ∈ tables /\ Level t = sourceLevel).
Proof.
  intros Hs. unfold PickCompaction. destruct (Z.leb_spec threshold 0); [by exists None |].
  set (source := filter (at_level sourceLevel) tables). unfold L0 in *.
  destruct (Z.eqb_spec sourceLevel 0) as [-> | Hne]; cbn [andb negb].
  - destruct (Z.ltb_spec (len source) threshold); [by exists None |]. cbn [Z.gtb Z.compare andb mbind option_bind].
    eexists. split; [reflexivity |]. intros plan [= <-]. split; [done |]. split; [done |]. exists source.
    split; [done |]. split; [| done]. intros E. rewrite E in *. unfold len in *. simpl in *. lia.
  - destruct (Z.gtb_spec sourceLevel 0); [| lia]. cbn [andb].
    destruct source as [|t rest] eqn:Es.
    + assert (Ht : levelTargetBytes sourceLevel > 0).
      { unfold levelTargetBytes, L0. destruct (Z.eqb_spec sourceLevel 0); [lia |].
        rewrite target_loop_spec by (unfold baseLevelTargetBytes, u64_max; lia).
        pose proof (Z.pow_pos_nonneg 10 (Z.of_nat (Z.to_nat (sourceLevel - 1))) ltac:(lia) ltac:(lia)).
        unfold baseLevelTargetBytes, u64_max. nia. }
      change (len []) with 0. change (totalTableBytes stat []) with 0.
      destruct (Z.ltb_spec 0 threshold); [| lia]. destruct (Z.ltb_spec 0 (levelTargetBytes sourceLevel)); [| lia].
      by exists None.
    + destruct ((len (t :: rest) <? threshold) && _); [by exists None |]. cbn [largestTable mbind option_bind].
      eexists. split; [reflexivity |]. intros plan [= <-]. split; [done |]. split; [done |].
      exists [largest_loop stat t (tableBytes stat t) rest]. split; [reflexivity |]. split; [done |].
      eexists. split; [reflexivity |].
      assert (Hin : largest_loop stat t (tableBytes stat t) rest ∈ source).
      { rewrite Es. destruct (largest_loop_in stat rest t (tableBytes stat t)) as [-> | ?]; [left | by right]. }
      apply list_elem_of_filter in Hin as [? ?]. done.
Qed.

(** Two key ranges do not meet. *)
Definition apart (a b : SSTableMetadata) : Prop :=
  (LargestKey a < SmallestKey b)%key \/ (LargestKey b < SmallestKey a)%key.

(** A table of the target level that is not chosen lies on one side of the
    range of the selected tables and is apart from the tables that join them,
    hence from their hull. *)
Lemma hull_apart selected target tables t out a b :
  t ∈ tables -> Level t = target -> t ∉ overlapping selected target tables ->
  (forall u, u ∈ tables -> Level u = target -> u <> t -> apart t u) ->
  (forall u, u ∈ tables -> (SmallestKey u <= LargestKey u)%key) ->
  (forall x, x ∈ selected -> x ∈ tables) -> selected <> [] ->
  a ∈ selected ++ overlapping selected target tables -> b ∈ selected ++ overlapping selected target tables ->
  (SmallestKey a <= SmallestKey out)%key -> (LargestKey out <= LargestKey b)%key ->
  (SmallestKey out <= LargestKey out)%key -> apart t out.
Proof.
  intros Ht Hl Hno Hd Hok Hsel Hne Ha Hb H1 H2 Hout.
  set (known := forallb (fun t => negb (Level t =? target) || hasKeyRange t) tables) in *.
  assert (Hj : joins (combinedRange selected) known target t = false).
  { apply not_true_iff_false. intros E. apply Hno. by apply list_elem_of_filter. }
  unfold joins in Hj. rewrite Hl, Z.eqb_refl in Hj. cbn [andb] in Hj.
  destruct (combinedRange selected) as [[lo hi]|] eqn:Er; [| done].
  apply orb_false_iff in Hj as [Hkn Hj]. apply negb_false_iff in Hkn. apply andb_false_iff in Hj.
  pose proof (combinedRange_spec _ _ _ Er) as Hf. rewrite Forall_forall in Hf.
  assert (Hlohi : (lo <= hi)%key).
  { destruct selected as [|s0 rest]; [done |]. destruct (Hf s0 ltac:(by left)) as (_ & G1 & G2).
    pose proof (Hok s0 ltac:(apply Hsel; by left)). key_order. }
  assert (Hjoin : forall u, u ∈ overlapping selected target tables ->
    (lo <= LargestKey u)%key /\ (SmallestKey u <= hi)%key /\ apart t u /\ (SmallestKey u <= LargestKey u)%key).
  { intros u [Hu Hin]%list_elem_of_filter. fold known in Hu. rewrite Er in Hu. unfold joins in Hu. rewrite Hkn in Hu.
    apply andb_true_iff in Hu as [Hul%Z.eqb_eq Hu]. cbn [negb orb] in Hu. apply andb_true_iff in Hu as [G1 G2].
    apply key_leb_le in G1, G2. split; [done |]. split; [done |]. split; [| by apply Hok].
    apply Hd; [done | done |]. intros ->. apply Hno. apply list_elem_of_filter. fold known. rewrite Er. split; [| done].
    unfold joins, rangesOverlap. rewrite Hul, Z.eqb_refl, Hkn. cbn [negb orb andb].
    apply andb_true_iff. by rewrite !key_leb_le. }
  pose proof (Hok t Ht) as Htok. unfold apart in *. destruct Hj as [Hj | Hj]; apply key_leb_gt in Hj.
  - left. assert (Hta : (LargestKey t < SmallestKey a)%key); [| key_order].
    apply elem_of_app in Ha as [Ha | Ha].
    + destruct (Hf a Ha) as (_ & G & _). key_order.
    + destruct (Hjoin a Ha) as (G1 & G2 & [G3 | G3] & G4); [done | key_order].
  - right. assert (Htb : (LargestKey b < SmallestKey t)%key); [| key_order].
    apply elem_of_app in Hb as [Hb | Hb].
    + destruct (Hf b Hb) as (_ & _ & G). key_order.
    + destruct (Hjoin b Hb) as (G1 & G2 & [G3 | G3] & G4); [key_order | done].
Qed.

(** C29: the picker keeps the levels free of overlap.  It never panics; a plan
    moves tables of the source level - all of level 0, one table of a higher
    level - to the next level.  A table of the target level that stays out of
    the plan is apart from every key range inside the hull of the inputs, so
    the output of the merge cannot overlap it. *)
Theorem picker_levels_disjoint stat tables sourceLevel threshold :
  0 <= sourceLevel ->
  exists r, PickCompaction stat tables sourceLevel threshold = Some r /\
    forall plan, r = Some plan ->
      TargetLevel plan = u32 (sourceLevel + 1) /\ Inputs plan <> [] /\
      (forall x, x ∈ Inputs plan -> x ∈ tables /\ (Level x = sourceLevel \/ Level x = TargetLevel plan)) /\
      (sourceLevel = L0 -> forall x, x ∈ tables -> Level x = L0 -> x ∈ Inputs plan) /\
      forall t out, t ∈ tables -> Level t = TargetLevel plan -> t ∉ Inputs plan ->
        (forall u, u ∈ tables -> Level u = TargetLevel plan -> u <> t -> apart t u) ->
        (forall u, u ∈ tables -> (SmallestKey u <= LargestKey u)%key) ->
        (exists a b, a ∈ Inputs plan /\ b ∈ Inputs plan /\ (SmallestKey a <= SmallestKey out)%key /\
           (LargestKey out <= LargestKey b)%key) -> (SmallestKey out <= LargestKey out)%key ->
        apart t out.
Proof.
  intros Hs. destruct (PickCompaction_spec stat tables sourceLevel threshold Hs) as (r & E & Hr).
  exists r. split; [done |]. intros plan Hp. destruct (Hr plan Hp) as (Hsrc & Htgt & selected & Hin & Hne & Hsel).
  assert (Hselin : forall x, x ∈ selected -> x ∈ tables /\ Level x = sourceLevel).
  { intros x Hx. destruct (sourceLevel =? L0).
    - subst selected. apply list_elem_of_filter in Hx as [??]. done.
    - destruct Hsel as (u & -> & Hu & Hl). apply list_elem_of_singleton in Hx as ->. done. }
  assert (Hovin : forall x, x ∈ overlapping selected (TargetLevel plan) tables -> x ∈ tables /\ Level x = TargetLevel plan).
  { intros x [Hx ?]%list_elem_of_filter. apply andb_true_iff in Hx as [Hx%Z.eqb_eq _]. done. }
  split; [done |]. split; [rewrite Hin; by destruct selected |]. split.
  { intros x. rewrite Hin. intros [Hx | Hx]%elem_of_app; [apply Hselin in Hx | apply Hovin in Hx]; tauto. }
  split.
  { intros -> x Hx Hl. rewrite Hin. apply elem_of_app. left. simpl in Hsel. subst selected. by apply list_elem_of_filter. }
  intros t out Ht Hl Hno Hd Hok (a & b & Ha & Hb & H1 & H2) Hout. rewrite Hin in Ha, Hb, Hno.
  apply not_elem_of_app in Hno as [_ Hno]. apply (hull_apart selected (TargetLevel plan) tables t out a b); try done.
  intros x Hx. by apply Hselin.
Qed.

Lemma picker_levels_disjoint_witness :
  let t i lvl a b := mkMeta i [] lvl 1 [a] [b] in
  let tables := [t 1 0 x02 x04; t 2 0 x03 x05; t 3 1 x01 x02; t 4 1 x07 x09] in
  exists plan, PickCompaction (fun _ => None) tables 0 2 = Some (Some plan) /\
    Inputs plan = [t 1 0 x02 x04; t 2 0 x03 x05; t 3 1 x01 x02] /\ apart (t 4 1 x07 x09) (t 5 1 x01 x05).
Proof.
  intros t tables. destruct (picker_levels_disjoint (fun _ => None) tables 0 2) as (r & E & Hr); [lia |].
  vm_compute in E. injection E as <-. eexists. split; [vm_compute; reflexivity |]. split; [reflexivity |].
  apply (Hr _ eq_refl).
  - right. right. right. left.
  - reflexivity.
  - apply (bool_decide_unpack _). vm_compute. exact I.
  - intros u Hu. repeat (apply elem_of_cons in Hu as [-> | Hu]; [vm_compute; intros; try congruence; try (right; reflexivity) |]).
    by apply elem_of_nil in Hu.
  - intros u Hu. repeat (apply elem_of_cons in Hu as [-> | Hu]; [vm_compute; congruence |]). by apply elem_of_nil in Hu.
  - exists (t 3 1 x01 x02), (t 2 0 x03 x05). split; [right; right; left |]. split; [right; left |]. vm_compute. split; congruence.
  - vm_compute. congruence.
Defined.
