(* ===== verification/Segments.v ===== *)
(** * File names of the database directory

    Models the names that [internal/wal] and [internal/db] give to files:
    [wal-%d.log], [data-%d.sst], [compact-%d.sst] and [MANIFEST], and the
    listing of the log segments.  The directory is a map from file names to
    contents, so [filepath.Join(dataDir, name)] is [name]; the pattern of
    [filepath.Glob] is matched against the names only, which is what it does
    when the path of the directory has none of its special characters. *)

From stdpp Require Import sorting.
From S2P Require Import Manifest.
From S2P Require Export Prelude.

(** ** Decimal numbers *)

(** [%d] of a [uint64]: the digits, most significant first. *)
Fixpoint digits (fuel : nat) (n : Z) (acc : bytes) : bytes :=
  match fuel with
  | O => acc
  | S fuel =>
      let acc := z2b (48 + n mod 10) :: acc in
      if n <? 10 then acc else digits fuel (n / 10) acc
  end.

(** A [uint64] has at most 20 digits. *)
Definition Sprintf_d (n : Z) : bytes := digits 20 n [].

(** [strconv.ParseUint(s, 10, 64)]: digits only, at least one, in range. *)
Fixpoint parse_digits (s : bytes) (n : Z) : option Z :=
  match s with
  | [] => Some n
  | c :: s =>
      let d := b2z c - 48 in
      if (d <? 0) || (9 <? d) then None
      else
        let n := n * 10 + d in
        if n >? u64_max then None else parse_digits s n
  end.

Definition ParseUint (s : bytes) : option Z := if len s =? 0 then None else parse_digits s 0.

Lemma parse_digits_app s1 s2 n : parse_digits (s1 ++ s2) n = (m ← parse_digits s1 n; parse_digits s2 m).
Proof.
  revert n. induction s1 as [|c s1 IH]; intros n; [done |]. cbn [app parse_digits].
  destruct (_ || _); [done |]. destruct (_ >? _); [done | apply IH].
Qed.

Lemma digits_acc fuel n acc : digits fuel n acc = digits fuel n [] ++ acc.
Proof.
  revert n acc. induction fuel as [|fuel IH]; intros n acc; [done |]. cbn [digits].
  destruct (n <? 10); [done |]. rewrite IH. rewrite (IH (n / 10) [_]), <- app_assoc. done.
Qed.

Lemma digit_byte d : 0 <= d <= 9 -> b2z (z2b (48 + d)) = 48 + d.
Proof. intros. rewrite b2z_z2b. apply Z.mod_small. lia. Qed.

Lemma parse_digits_digits fuel n :
  0 <= n <= u64_max -> n < 10 ^ Z.of_nat fuel -> parse_digits (digits fuel n []) 0 = Some n.
Proof.
  revert n. induction fuel as [|fuel IH]; intros n Hn Hf; [rewrite Z.pow_0_r in Hf; assert (n = 0) as -> by lia; done |].
  rewrite Nat2Z.inj_succ, Z.pow_succ_r in Hf by lia. cbn [digits].
  pose proof (Z.mod_pos_bound n 10 ltac:(lia)) as Hm. pose proof (Z.div_mod n 10 ltac:(lia)) as Hdm.
  destruct (Z.ltb_spec n 10) as [Hlt | Hge].
  - cbn [parse_digits]. rewrite digit_byte by lia. rewrite (Z.mod_small n 10) by lia.
    destruct (Z.ltb_spec (48 + n - 48) 0), (Z.ltb_spec 9 (48 + n - 48)); try lia. cbn [orb].
    destruct (Z.gtb_spec (0 * 10 + (48 + n - 48)) u64_max); [lia |]. f_equal. lia.
  - rewrite digits_acc, parse_digits_app, IH; [| | apply Z.div_lt_upper_bound; lia].
    + cbn [mbind option_bind parse_digits]. rewrite digit_byte by lia. set (m := n mod 10) in *.
      destruct (Z.ltb_spec (48 + m - 48) 0), (Z.ltb_spec 9 (48 + m - 48)); try lia. cbn [orb].
      destruct (Z.gtb_spec (n / 10 * 10 + (48 + m - 48)) u64_max); [lia |]. f_equal. lia.
    + split; [apply Z.div_pos; lia | apply Z.div_le_upper_bound; lia].
Qed.

Lemma digits_nonempty fuel n acc : digits (S fuel) n acc <> [].
Proof. cbn [digits]. destruct (n <? 10); [done |]. rewrite digits_acc. intros [_ ?]%app_eq_nil. done. Qed.

Lemma ParseUint_Sprintf n : is_u64 n -> ParseUint (Sprintf_d n) = Some n.
Proof.
  intros Hn. unfold ParseUint, Sprintf_d. destruct (Z.eqb_spec (len (digits 20 n [])) 0) as [E |].
  - destruct (digits 20 n []) eqn:Ed; [by apply digits_nonempty in Ed | unfold len in E; simpl in E; lia].
  - apply parse_digits_digits; [done |]. unfold is_u64, u64_max in Hn. change (10 ^ Z.of_nat 20) with 100000000000000000000. lia.
Qed.

Lemma Sprintf_inj a b : is_u64 a -> is_u64 b -> Sprintf_d a = Sprintf_d b -> a = b.
Proof. intros Ha Hb E. apply ParseUint_Sprintf in Ha, Hb. congruence. Qed.

(** ** Names *)

Definition str_wal : bytes := map z2b [119; 97; 108; 45].                          (** ["wal-"] *)
Definition str_log : bytes := map z2b [46; 108; 111; 103].                         (** [".log"] *)
Definition str_data : bytes := map z2b [100; 97; 116; 97; 45].                     (** ["data-"] *)
Definition str_compact : bytes := map z2b [99; 111; 109; 112; 97; 99; 116; 45].    (** ["compact-"] *)
Definition str_sst : bytes := map z2b [46; 115; 115; 116].                         (** [".sst"] *)
Definition str_manifest : bytes := map z2b [77; 65; 78; 73; 70; 69; 83; 84].       (** ["MANIFEST"] *)

Definition SegmentPath (id : Z) : bytes := str_wal ++ Sprintf_d id ++ str_log.
Definition data_path (id : Z) : bytes := str_data ++ Sprintf_d id ++ str_sst.
Definition compact_path (id : Z) : bytes := str_compact ++ Sprintf_d id ++ str_sst.
Definition manifest_path : bytes := str_manifest.

Definition HasPrefix (s prefix : bytes) : bool := bool_decide (take (length prefix) s = prefix).
Definition HasSuffix (s suffix : bytes) : bool :=
  (length suffix <=? length s)%nat && bool_decide (drop (length s - length suffix) s = suffix).
Definition TrimPrefix (s prefix : bytes) : bytes := if HasPrefix s prefix then drop (length prefix) s else s.
Definition TrimSuffix (s suffix : bytes) : bytes :=
  if HasSuffix s suffix then take (length s - length suffix) s else s.

Definition parseSegmentID (base : bytes) : option Z :=
  if negb (HasPrefix base str_wal) || negb (HasSuffix base str_log) then None
  else ParseUint (TrimSuffix (TrimPrefix base str_wal) str_log).

Record Segment := mkSegment { sg_ID : Z; sg_Path : bytes }.

Global Instance Segment_eq_dec : EqDecision Segment.
Proof. solve_decision. Defined.

Definition seg_le (a b : Segment) : Prop := sg_ID a <= sg_ID b.
Global Instance seg_le_dec : RelDecision seg_le.
Proof. intros a b. unfold seg_le. apply _. Defined.

(** The names that match [wal-*.log] and parse, sorted by identifier. *)
Definition ListSegments (d : fs) : list Segment :=
  merge_sort seg_le (omap (fun '(path, _) => id ← parseSegmentID path; Some (mkSegment id path)) (map_to_list d)).

(** [RemoveSegmentInDir]: a missing file is no error. *)
Definition RemoveSegment (id : Z) (d : fs) : fs := delete (SegmentPath id) d.

(** ** Laws *)

Lemma HasPrefix_app p s : HasPrefix (p ++ s) p = true.
Proof. unfold HasPrefix. rewrite take_app_length. by apply bool_decide_eq_true. Qed.

Lemma HasSuffix_app p s : HasSuffix (p ++ s) s = true.
Proof.
  unfold HasSuffix. rewrite length_app. replace (length p + length s - length s)%nat with (length p) by lia.
  rewrite drop_app_length. apply andb_true_iff. split; [apply Nat.leb_le; lia | by apply bool_decide_eq_true].
Qed.

Lemma parse_SegmentPath id : is_u64 id -> parseSegmentID (SegmentPath id) = Some id.
Proof.
  intros Hid. unfold parseSegmentID, SegmentPath. rewrite HasPrefix_app. rewrite app_assoc, HasSuffix_app. cbn [negb orb].
  unfold TrimPrefix. rewrite <- app_assoc, HasPrefix_app, drop_app_length.
  unfold TrimSuffix. rewrite HasSuffix_app, length_app.
  replace (length (Sprintf_d id) + length str_log - length str_log)%nat with (length (Sprintf_d id)) by lia.
  rewrite take_app_length. by apply ParseUint_Sprintf.
Qed.

Lemma SegmentPath_inj a b : is_u64 a -> is_u64 b -> SegmentPath a = SegmentPath b -> a = b.
Proof. intros Ha Hb E. apply parse_SegmentPath in Ha, Hb. congruence. Qed.

Lemma affix_inj (p s a b : bytes) : p ++ a ++ s = p ++ b ++ s -> a = b.
Proof. intros E. apply app_inv_head in E. by apply app_inv_tail in E. Qed.

Lemma data_path_inj a b : is_u64 a -> is_u64 b -> data_path a = data_path b -> a = b.
Proof. intros Ha Hb E. apply Sprintf_inj; [done | done |]. by eapply affix_inj. Qed.

Lemma compact_path_inj a b : is_u64 a -> is_u64 b -> compact_path a = compact_path b -> a = b.
Proof. intros Ha Hb E. apply Sprintf_inj; [done | done |]. by eapply affix_inj. Qed.

(** Names of different kinds differ: their first bytes do. *)
Lemma names_apart a b :
  SegmentPath a <> data_path b /\ SegmentPath a <> compact_path b /\ data_path a <> compact_path b /\
  SegmentPath a <> manifest_path /\ data_path a <> manifest_path /\ compact_path a <> manifest_path /\
  SegmentPath a <> tmp_path manifest_path /\ data_path a <> tmp_path manifest_path /\ compact_path a <> tmp_path manifest_path.
Proof. by split_and!. Qed.

Lemma elem_of_ListSegments d s :
  s ∈ ListSegments d <-> exists file, d !! sg_Path s = Some file /\ parseSegmentID (sg_Path s) = Some (sg_ID s).
Proof.
  unfold ListSegments. rewrite merge_sort_Permutation. rewrite list_elem_of_omap. split.
  - intros ([path file] & Hin & E). apply elem_of_map_to_list in Hin.
    destruct (parseSegmentID path) as [id|] eqn:Ep; [| done]. injection E as <-. eauto.
  - intros (file & Hd & Hp). exists (sg_Path s, file). split; [by apply elem_of_map_to_list |]. rewrite Hp. by destruct s.
Qed.
