(* ===== verification/FileLock.v ===== *)
(** * The lock of the data directory

    Models [internal/filelock/lock_unix.go].  The operating system has open file
    descriptions and, for every file, the description that holds its exclusive
    lock; closing a description gives its lock up, whatever it reports.  Any
    number of processes share it.  Calls may fail as [lock_faults] says.  The
    lock file is never removed, so that a path stands for one file. *)

From S2P Require Export Prelude.

Record lock_faults := mkLockFaults {
  lf_open : bool;      (** [OpenFile] fails *)
  lf_flock : bool;     (** [Flock] fails, other than because the lock is held *)
  lf_unlock : bool;    (** [Flock(LOCK_UN)] fails *)
  lf_close : bool;     (** [file.Close] reports an error *)
}.

Inductive lock_error := ErrLocked (path : bytes) | ErrLockOS.

(** ** The operating system *)

Record lock_os := mkLockOs {
  os_open : gmap nat bytes;      (** the file of every open description *)
  os_holder : gmap bytes nat;    (** the description that holds the lock of a file *)
}.

Definition os_OpenFile (path : bytes) (s : lock_os) : nat * lock_os :=
  let fd := fresh (dom (os_open s)) in (fd, mkLockOs (<[fd := path]> (os_open s)) (os_holder s)).

(** [Flock(fd, LOCK_EX|LOCK_NB)]: whether the lock was granted. *)
Definition os_Flock (fd : nat) (path : bytes) (s : lock_os) : bool * lock_os :=
  match os_holder s !! path with
  | Some h => ((h =? fd)%nat, s)
  | None => (true, mkLockOs (os_open s) (<[path := fd]> (os_holder s)))
  end.

(** The description gives up the locks it holds. *)
Definition os_Unlock (fd : nat) (s : lock_os) : lock_os :=
  mkLockOs (os_open s) (filter (fun '(_, h) => h <> fd) (os_holder s)).

Definition os_Close (fd : nat) (s : lock_os) : lock_os :=
  mkLockOs (delete fd (os_open s)) (os_holder (os_Unlock fd s)).

(** ** [Lock] *)

(** [nil] once it was closed. *)
Record Lock := mkLock { lk_file : option nat }.

Definition Acquire (f : lock_faults) (path : bytes) (s : lock_os) : result lock_error Lock * lock_os :=
  if lf_open f then (Err ErrLockOS, s)
  else
    let '(fd, s) := os_OpenFile path s in
    if lf_flock f then (Err ErrLockOS, os_Close fd s)
    else
      let '(ok, s) := os_Flock fd path s in
      if (ok : bool) then (Ok (mkLock (Some fd)), s)
      else (Err (ErrLocked path), os_Close fd s).

(** A failed unlock leaves the lock to be given up by the close that follows. *)
Definition Lock_Close (f : lock_faults) (l : Lock) (s : lock_os) : result lock_error unit * Lock * lock_os :=
  match lk_file l with
  | None => (Ok tt, l, s)
  | Some fd =>
      let s := if lf_unlock f then s else os_Unlock fd s in
      let s := os_Close fd s in
      (if lf_unlock f || lf_close f then Err ErrLockOS else Ok tt, mkLock None, s)
  end.

(** ** Processes that use it *)

Inductive lock_call := LAcquire (f : lock_faults) (path : bytes) | LClose (f : lock_faults) (i : nat).

Record lock_world := mkLockWorld { lw_os : lock_os; lw_locks : list Lock }.

Definition lock_step (c : lock_call) (w : lock_world) : result lock_error unit * lock_world :=
  match c with
  | LAcquire f path =>
      match Acquire f path (lw_os w) with
      | (Ok l, s) => (Ok tt, mkLockWorld s (lw_locks w ++ [l]))
      | (Err err, s) => (Err err, mkLockWorld s (lw_locks w))
      end
  | LClose f i =>
      match lw_locks w !! i with
      | None => (Ok tt, w)
      | Some l => let '(r, l, s) := Lock_Close f l (lw_os w) in (r, mkLockWorld s (<[i := l]> (lw_locks w)))
      end
  end.

Fixpoint lock_run (cs : list lock_call) (w : lock_world) : list (result lock_error unit) * lock_world :=
  match cs with
  | [] => ([], w)
  | c :: cs =>
      let '(r, w) := lock_step c w in
      let '(rs, w) := lock_run cs w in
      (r :: rs, w)
  end.

(** ** What the lock promises *)

(** The path of every lock that was granted, until it is closed. *)
Abbreviation alocks := (list (option bytes)).

Definition alock_step (c : lock_call) (a : alocks) : result lock_error unit * alocks :=
  match c with
  | LAcquire f path =>
      if lf_open f || lf_flock f then (Err ErrLockOS, a)
      else if bool_decide (Some path ∈ a) then (Err (ErrLocked path), a)
      else (Ok tt, a ++ [Some path])
  | LClose f i =>
      match a !! i with
      | Some (Some _) => (if lf_unlock f || lf_close f then Err ErrLockOS else Ok tt, <[i := None]> a)
      | _ => (Ok tt, a)
      end
  end.

Fixpoint alock_run (cs : list lock_call) (a : alocks) : list (result lock_error unit) * alocks :=
  match cs with
  | [] => ([], a)
  | c :: cs =>
      let '(r, a) := alock_step c a in
      let '(rs, a) := alock_run cs a in
      (r :: rs, a)
  end.

(** The open descriptions are those of the locks that are held, each holds the
    lock of its file, and no other lock is held. *)
Record locks_ok (w : lock_world) (a : alocks) : Prop := mkLocksOk {
  lo_locks : Forall2 (fun l p => match lk_file l, p with
                                 | Some fd, Some path => os_open (lw_os w) !! fd = Some path
                                 | None, None => True
                                 | _, _ => False
                                 end) (lw_locks w) a;
  lo_distinct : forall i j fd, lw_locks w !! i = Some (mkLock (Some fd)) -> lw_locks w !! j = Some (mkLock (Some fd)) -> i = j;
  lo_no_leak : forall fd path, os_open (lw_os w) !! fd = Some path -> mkLock (Some fd) ∈ lw_locks w;
  lo_held : forall fd path, os_open (lw_os w) !! fd = Some path <-> os_holder (lw_os w) !! path = Some fd;
}.

Lemma holder_after fd s path : os_holder (os_Unlock fd s) !! path = (h ← os_holder s !! path; if (h =? fd)%nat then None else Some h).
Proof.
  cbn. rewrite map_lookup_filter. destruct (os_holder s !! path) as [h|]; [| done]. cbn.
  destruct (Nat.eqb_spec h fd) as [Hh|Hh]; cbn; by case_guard.
Qed.

(** A description that was just opened is closed without a trace. *)
Lemma open_close w a path fd s :
  locks_ok w a -> os_OpenFile path (lw_os w) = (fd, s) -> os_Close fd s = lw_os w.
Proof.
  intros Hw [= <- <-]. destruct w as [[op ho] locks]. cbn in *. unfold os_Close. cbn. f_equal.
  - rewrite delete_insert_id; [done |]. apply not_elem_of_dom, is_fresh.
  - apply map_filter_id. intros p h Hp ->. apply (lo_held _ _ Hw) in Hp. cbn in Hp.
    apply elem_of_dom_2, is_fresh in Hp. done.
Qed.

Lemma held_iff w a path : locks_ok w a -> Some path ∈ a <-> is_Some (os_holder (lw_os w) !! path).
Proof.
  intros Hw. destruct Hw as [H1 H2 H3 H4]. split.
  - intros [i Hi]%list_elem_of_lookup. destruct (Forall2_lookup_r _ _ _ _ _ H1 Hi) as ([[fd|]] & _ & Hp); [| done]. cbn in Hp.
    apply H4 in Hp. by rewrite Hp.
  - intros [fd Hfd]. apply H4 in Hfd. pose proof (H3 _ _ Hfd) as [i Hi]%list_elem_of_lookup.
    destruct (Forall2_lookup_l _ _ _ _ _ H1 Hi) as ([p|] & Hp & Ho); [| done]. cbn in Ho. rewrite Hfd in Ho. injection Ho as ->.
    by eapply list_elem_of_lookup_2.
Qed.

Lemma acquire_ok w a f path :
  locks_ok w a ->
  exists a', alock_step (LAcquire f path) a = ((lock_step (LAcquire f path) w).1, a') /\ locks_ok (lock_step (LAcquire f path) w).2 a'.
Proof.
  intros Hw. pose proof (held_iff w a path Hw) as Hheld. cbn [lock_step alock_step]. unfold Acquire.
  assert (Hsame : mkLockWorld (lw_os w) (lw_locks w) = w) by by destruct w.
  destruct (lf_open f); cbn [orb]; [exists a; by rewrite Hsame |].
  destruct (os_OpenFile path (lw_os w)) as [fd s] eqn:Eo. pose proof (open_close w a path fd s Hw Eo) as Hc.
  destruct (lf_flock f); cbn [orb]; [exists a; cbn; by rewrite Hc, Hsame |].
  assert (Hho : os_holder s = os_holder (lw_os w)) by by injection Eo as <- <-.
  unfold os_Flock. rewrite Hho. destruct (os_holder (lw_os w) !! path) as [h|] eqn:Eh.
  - assert (Hne : (h =? fd)%nat = false).
    { apply Nat.eqb_neq. intros ->. apply (lo_held _ _ Hw) in Eh. injection Eo as Efd _.
      apply elem_of_dom_2 in Eh. rewrite <- Efd in Eh. by apply is_fresh in Eh. }
    rewrite Hne, bool_decide_true by (apply Hheld; by eexists). exists a. cbn. by rewrite Hc, Hsame.
  - rewrite bool_decide_false by (rewrite Hheld; by intros [? ?]). exists (a ++ [Some path]). split; [done |]. cbn.
    injection Eo as Efd <-. cbn in *. assert (Hnew : os_open (lw_os w) !! fd = None) by (apply not_elem_of_dom; rewrite <- Efd; apply is_fresh).
    rewrite Efd. destruct Hw as [H1 H2 H3 H4]. assert (Hlocks : mkLock (Some fd) ∉ lw_locks w).
    { intros [i Hi]%list_elem_of_lookup. destruct (Forall2_lookup_l _ _ _ _ _ H1 Hi) as ([p|] & _ & Hp); cbn in Hp; congruence. }
    constructor; cbn.
    + apply Forall2_app; [| constructor; [cbn; by rewrite lookup_insert, decide_True | constructor]].
      eapply Forall2_impl; [exact H1 |]. intros [[fd'|]] [p|]; cbn; try done. intros Hp. rewrite lookup_insert_ne; [done |]. by intros <-; congruence.
    + intros i j fd' [[_ Hi]|[Hi Hi']]%lookup_snoc_Some [[_ Hj]|[Hj Hj']]%lookup_snoc_Some; [by eapply H2 | | | congruence].
      * exfalso. apply Hlocks. injection Hj' as ->. by eapply list_elem_of_lookup_2.
      * exfalso. apply Hlocks. injection Hi' as ->. by eapply list_elem_of_lookup_2.
    + intros fd' p. rewrite lookup_insert. case_decide; [intros _; subst | intros Hp%H3]; apply elem_of_app; [right; by apply list_elem_of_singleton | by left].
    + intros fd' p. rewrite !lookup_insert. destruct (decide (fd = fd')) as [<-|Hf], (decide (path = p)) as [<-|Hp]; try done.
      * rewrite <- (H4 fd p). split; congruence.
      * split; [| congruence]. intros Hx. apply H4 in Hx. congruence.
Qed.

Lemma close_ok w a f i :
  locks_ok w a ->
  exists a', alock_step (LClose f i) a = ((lock_step (LClose f i) w).1, a') /\ locks_ok (lock_step (LClose f i) w).2 a'.
Proof.
  intros Hw. cbn [lock_step alock_step]. destruct (lw_locks w !! i) as [l|] eqn:Ei.
  2: { apply lookup_ge_None in Ei. rewrite (Forall2_length _ _ _ (lo_locks _ _ Hw)) in Ei. rewrite lookup_ge_None_2 by done. by exists a. }
  destruct (Forall2_lookup_l _ _ _ _ _ (lo_locks _ _ Hw) Ei) as (p & Ea & Hp). rewrite Ea. unfold Lock_Close.
  destruct l as [[fd|]]; cbn [lk_file] in *; destruct p as [path|]; try done.
  2: { exists a. split; [done |]. cbn. rewrite list_insert_id by done. by destruct w. }
  assert (Hclose : forall path', os_holder (os_Close fd (if lf_unlock f then lw_os w else os_Unlock fd (lw_os w))) !! path' =
    (h ← os_holder (lw_os w) !! path'; if (h =? fd)%nat then None else Some h)).
  { intros path'. cbn [os_Close os_holder]. rewrite holder_after. destruct (lf_unlock f); [done |]. rewrite holder_after.
    destruct (os_holder (lw_os w) !! path') as [h|]; [| done]. cbn. by destruct (h =? fd)%nat eqn:E; [| cbn; rewrite E]. }
  assert (Hopen : os_open (os_Close fd (if lf_unlock f then lw_os w else os_Unlock fd (lw_os w))) = delete fd (os_open (lw_os w)))
    by by destruct (lf_unlock f).
  eexists. split; [reflexivity |]. cbn [snd]. destruct Hw as [H1 H2 H3 H4].
  constructor; cbn [lw_os lw_locks]; rewrite ?Hopen.
  - apply Forall2_same_length_lookup_2; [rewrite !length_insert; by eapply Forall2_length |].
    intros j l q. rewrite !list_lookup_insert. case_decide as Hd; [destruct Hd as [<- _] |].
    + intros [= <-]. case_decide as Hd'; [by intros [= <-] |]. intros _. exfalso. apply Hd'. split; [done |]. by eapply lookup_lt_Some.
    + intros Hl. case_decide as Hd'; [exfalso; apply Hd; destruct Hd' as [<- ?]; split; [done |]; by eapply lookup_lt_Some |].
      intros Hq. pose proof (proj1 (Forall2_lookup _ _ _) H1 j) as Hj. rewrite Hl, Hq in Hj. inversion_clear Hj as [? ? Hlq |].
      destruct l as [[fd'|]], q as [p'|]; cbn in *; try done. rewrite lookup_delete_ne; [done |]. intros <-. apply Hd.
      split; [by eapply H2 | by eapply lookup_lt_Some].
  - intros j j' fd'. rewrite !list_lookup_insert. do 2 case_decide; try done. by apply H2.
  - intros fd' p' Hl. apply lookup_delete_Some in Hl as [Hne Hl]. apply H3 in Hl as [j Hj]%list_elem_of_lookup.
    apply (list_elem_of_lookup_2 _ j). rewrite list_lookup_insert_ne; [done |]. intros <-. congruence.
  - intros fd' p'. rewrite Hclose, lookup_delete_Some, H4. destruct (os_holder (lw_os w) !! p') as [h|] eqn:Eh; cbn; [| by split; [intros [_ ?] |]].
    destruct (Nat.eqb_spec h fd) as [->|Hne]; split; intros Hx; try done.
    + destruct Hx as [Hx1 Hx2]. congruence.
    + by destruct Hx as [_ Hx].
    + split; [congruence | done].
Qed.

Lemma locks_run cs w a :
  locks_ok w a -> exists a', alock_run cs a = ((lock_run cs w).1, a') /\ locks_ok (lock_run cs w).2 a'.
Proof.
  revert w a. induction cs as [|c cs IH]; intros w a Hw; cbn [lock_run alock_run]; [by exists a |].
  assert (Hc : exists a', alock_step c a = ((lock_step c w).1, a') /\ locks_ok (lock_step c w).2 a')
    by (destruct c; [by apply acquire_ok | by apply close_ok]).
  destruct Hc as (a1 & E1 & Hw1). destruct (lock_step c w) as [r w1]. cbn [fst snd] in *. rewrite E1.
  destruct (IH w1 a1 Hw1) as (a2 & E2 & Hw2). destruct (lock_run cs w1) as [rs w2]. cbn [fst snd] in *. rewrite E2. by exists a2.
Qed.

(** ** The steps by themselves *)

Lemma acquire_spec os locks a f path :
  locks_ok (mkLockWorld os locks) a ->
  match Acquire f path os with
  | (Ok l, os') => lf_open f || lf_flock f = false /\ (Some path ∉ a) /\ locks_ok (mkLockWorld os' (locks ++ [l])) (a ++ [Some path])
  | (Err err, os') => locks_ok (mkLockWorld os' locks) a /\
      ((lf_open f || lf_flock f = true /\ err = ErrLockOS) \/ (lf_open f || lf_flock f = false /\ Some path ∈ a /\ err = ErrLocked path))
  end.
Proof.
  intros Hw. destruct (acquire_ok _ a f path Hw) as (a' & E & Hw'). cbn [lock_step alock_step lw_os lw_locks] in E, Hw'.
  destruct (lf_open f || lf_flock f).
  - destruct (Acquire f path os) as [[l|err] os']; cbn [fst snd] in *; [done |]. injection E as ? ?. subst. by split; [| left].
  - case_bool_decide; destruct (Acquire f path os) as [[l|err] os']; cbn [fst snd] in *; try done; simplify_eq.
    + split; [done | by right].
    + done.
Qed.

Lemma close_spec os locks a f i l p :
  locks_ok (mkLockWorld os locks) a -> locks !! i = Some l -> a !! i = Some p ->
  match Lock_Close f l os with (_, l', os') => l' = mkLock None /\ locks_ok (mkLockWorld os' (<[i := l']> locks)) (<[i := None]> a) end.
Proof.
  intros Hw Hl Ha. destruct (close_ok _ a f i Hw) as (a' & E & Hw'). cbn [lock_step alock_step lw_os lw_locks] in E, Hw'.
  rewrite Hl in E, Hw'. rewrite Ha in E.
  pose proof (Forall2_lookup_lr _ _ _ _ _ _ (lo_locks _ _ Hw) Hl Ha) as Hp. unfold Lock_Close in *.
  destruct l as [[fd|]]; cbn [lk_file] in *; destruct p as [path|]; try done; cbn [fst snd] in *; injection E as <-; [done |].
  split; [done |]. by rewrite (list_insert_id a).
Qed.

(** A lock that was given up needs no place in the list. *)
Lemma locks_drop os locks a : locks_ok (mkLockWorld os (locks ++ [mkLock None])) (a ++ [None]) -> locks_ok (mkLockWorld os locks) a.
Proof.
  intros [H1 H2 H3 H4]. cbn in *. constructor; cbn; [| | | done].
  - by apply Forall2_app_inv in H1 as [H1 _]; [| apply Forall2_length in H1; rewrite !length_app in H1; cbn in H1; lia].
  - intros i j fd Hi Hj. eapply H2; apply lookup_app_l_Some; eassumption.
  - intros fd path Hp%H3. by apply elem_of_app in Hp as [Hp | Hp%list_elem_of_singleton].
Qed.

Lemma locks_unique w a i j path : locks_ok w a -> a !! i = Some (Some path) -> a !! j = Some (Some path) -> i = j.
Proof.
  intros [H1 H2 H3 H4] Hi Hj. destruct (Forall2_lookup_r _ _ _ _ _ H1 Hi) as ([[fd|]] & Hl & Hp); [| done].
  destruct (Forall2_lookup_r _ _ _ _ _ H1 Hj) as ([[fd'|]] & Hl' & Hp'); [| done]. cbn in Hp, Hp'. apply H4 in Hp, Hp'.
  rewrite Hp in Hp'. injection Hp' as ->. by eapply H2.
Qed.

Definition no_locks : lock_world := mkLockWorld (mkLockOs ∅ ∅) [].

Lemma no_locks_ok : locks_ok no_locks [].
Proof. constructor; cbn; try done. Qed.

(** C24: a directory has one owner.  Whatever processes acquire and close the
    locks of directories in any order, and whatever the operating system fails,
    [Acquire] grants the lock exactly when its calls succeed and no lock of the
    path is held, says [ErrLocked] exactly when one is, a path never has two
    holders, a closed lock is given up even when the unlock or the close reports
    an error and closing it again does nothing, and the only open file
    descriptions are those of the locks that are held. *)
Theorem lock_exclusive (cs : list lock_call) :
  let '(rs, w) := lock_run cs no_locks in
  exists a, alock_run cs [] = (rs, a) /\
    (forall i path, a !! i = Some (Some path) <-> exists fd, lw_locks w !! i = Some (mkLock (Some fd)) /\ os_open (lw_os w) !! fd = Some path) /\
    (forall i j path, a !! i = Some (Some path) -> a !! j = Some (Some path) -> i = j) /\
    (forall fd, is_Some (os_open (lw_os w) !! fd) <-> mkLock (Some fd) ∈ lw_locks w).
Proof.
  destruct (locks_run cs no_locks [] no_locks_ok) as (a & E & [H1 H2 H3 H4]). destruct (lock_run cs no_locks) as [rs w]. cbn [fst snd] in *.
  assert (Hi : forall i path, a !! i = Some (Some path) <-> exists fd, lw_locks w !! i = Some (mkLock (Some fd)) /\ os_open (lw_os w) !! fd = Some path).
  { intros i path. split.
    - intros Hi. destruct (Forall2_lookup_r _ _ _ _ _ H1 Hi) as ([[fd|]] & Hl & Hp); [by exists fd | done].
    - intros (fd & Hl & Hp). destruct (Forall2_lookup_l _ _ _ _ _ H1 Hl) as ([p|] & Ha & Ho); [| done]. cbn in Ho. congruence. }
  exists a. split; [done |]. split; [done |]. split.
  - intros i j path. by apply (locks_unique w).
  - intros fd. split; [by intros [path Hp%H3] |]. intros [i Hl]%list_elem_of_lookup.
    destruct (Forall2_lookup_l _ _ _ _ _ H1 Hl) as ([p|] & _ & Ho); [by exists p | done].
Qed.

(** Two processes: the second is refused until the first has closed its lock,
    although the unlock fails. *)
Definition no_lock_faults : lock_faults := mkLockFaults false false false false.
Definition lock_calls : list lock_call :=
  [LAcquire no_lock_faults [x61]; LAcquire no_lock_faults [x61]; LAcquire no_lock_faults [x62];
   LClose (mkLockFaults false false true false) 0; LClose no_lock_faults 0; LAcquire no_lock_faults [x61]].

Lemma lock_exclusive_witness :
  exists w a, lock_run lock_calls no_locks =
    ([Ok tt; Err (ErrLocked [x61]); Ok tt; Err ErrLockOS; Ok tt; Ok tt], w) /\
    a = [None; Some [x62]; Some [x61]] /\
    forall i j path, a !! i = Some (Some path) -> a !! j = Some (Some path) -> i = j.
Proof.
  pose proof (lock_exclusive lock_calls) as H. destruct (lock_run lock_calls no_locks) as [rs w] eqn:E.
  destruct H as (a & Ha & _ & H & _). vm_compute in E. vm_compute in Ha. injection Ha as <- <-. injection E as <-.
  eexists _, _. split; [reflexivity |]. by split.
Defined.
