(* ===== verification/History.v ===== *)
(** * Histories

    The abstract state of the database: the list of all records ever written,
    each with its own sequence number.  A read at a sequence number answers
    the value of the newest version at or below it, or nothing when there is
    none or it is a tombstone.  The file shows that such a read depends only
    on which records are there, and what replacing some of them by the output
    of a merge does to it. *)

From S2P Require Import MemTableClaims.
From S2P Require Export Versions.

(** What a client sees of the newest version. *)
Definition answer (r : option record) : option bytes :=
  match r with Some r => if rDeleted r then None else Some (rValue r) | None => None end.

Definition read_at (l : list record) (key : bytes) (maxSeq : Z) : option bytes := answer (newest key maxSeq l).

(** A sequence number of a key identifies its record. *)
Definition uniq (l : list record) : Prop :=
  forall x y, x ∈ l -> y ∈ l -> Key x = Key y -> Seq x = Seq y -> x = y.

Lemma uniq_sub l k : uniq k -> (forall x, x ∈ l -> x ∈ k) -> uniq l.
Proof. intros Hu Hs x y Hx Hy. auto. Qed.

Lemma uniq_NoDup l : NoDup (Seq <$> l) -> uniq l.
Proof.
  intros Hnd x y Hx Hy _ Hs. apply list_elem_of_lookup in Hx as [i Hi]. apply list_elem_of_lookup in Hy as [j Hj].
  assert (i = j) as ->; [| congruence].
  eapply NoDup_lookup; [exact Hnd | |]; rewrite list_lookup_fmap; [by rewrite Hi | by rewrite Hj, Hs].
Qed.

(** [consider(rec, exists)] of [getAt]. *)
Definition consider_opt (best r : option record) : option record :=
  match r with Some r => consider best r | None => best end.

Lemma foldl_consider_opt l best : foldl consider best l = consider_opt best (foldl consider None l).
Proof.
  revert best. induction l as [|r l IH]; intros best; [done |]. cbn [foldl]. rewrite IH, (IH (consider None r)).
  destruct (foldl consider None l) as [r' |]; [| done]. cbn [consider_opt consider].
  destruct best as [b |]; cbn [consider]; [| by destruct (_ <? _)].
  destruct (Z.ltb_spec (Seq b) (Seq r)), (Z.ltb_spec (Seq r) (Seq r')); cbn [consider consider_opt];
    do 2 try (rewrite (proj2 (Z.ltb_lt _ _)) by lia); do 2 try (rewrite (proj2 (Z.ltb_ge _ _)) by lia); try done.
  by rewrite (proj2 (Z.ltb_lt (Seq b) (Seq r)) H).
Qed.

Lemma newest_app key maxSeq l1 l2 :
  newest key maxSeq (l1 ++ l2) = consider_opt (newest key maxSeq l1) (newest key maxSeq l2).
Proof. unfold newest. by rewrite filter_app, foldl_app, foldl_consider_opt. Qed.

Lemma newest_iff key maxSeq l r : uniq l -> newest key maxSeq l = Some r <-> is_newest key maxSeq l r.
Proof.
  intros Hu. split; [apply newest_Some |]. intros (Hin & Hv & Hmax).
  destruct (newest key maxSeq l) as [r' |] eqn:E.
  - apply newest_Some in E as (Hin' & Hv' & Hmax'). f_equal. apply Hu; [done | done | |].
    + destruct Hv, Hv'. congruence.
    + pose proof (Hmax r' Hin' Hv'). pose proof (Hmax' r Hin Hv). lia.
  - destruct (proj1 (newest_None _ _ _) E r Hin Hv).
Qed.

(** Reads depend on the visible records only. *)
Lemma newest_same key maxSeq l1 l2 :
  uniq l1 -> (forall x, visible key maxSeq x -> x ∈ l1 <-> x ∈ l2) -> newest key maxSeq l1 = newest key maxSeq l2.
Proof.
  intros Hu Hs. destruct (newest key maxSeq l2) as [r |] eqn:E.
  - apply newest_iff; [done |]. apply newest_Some in E as (Hin & Hv & Hmax).
    split; [by apply Hs |]. split; [done |]. intros r' Hr' Hv'. apply Hmax; [by apply Hs | done].
  - apply newest_None. intros r Hr Hv. apply (proj1 (newest_None _ _ _) E r); [by apply Hs | done].
Qed.

(** A record with a sequence number above all others. *)
Lemma newest_cons_fresh key maxSeq r l :
  Forall (fun x => Seq x < Seq r) l ->
  newest key maxSeq (r :: l) = if decide (visible key maxSeq r) then Some r else newest key maxSeq l.
Proof.
  intros Hl. unfold newest. rewrite filter_cons. destruct (decide (visible key maxSeq r)); [| done].
  cbn [foldl]. rewrite foldl_consider_opt. fold (newest key maxSeq l).
  destruct (newest key maxSeq l) as [x |] eqn:E; [| done]. apply newest_Some in E as (Hin & _ & _).
  rewrite Forall_forall in Hl. specialize (Hl x Hin). cbn. destruct (Z.ltb_spec (Seq r) (Seq x)); [lia | done].
Qed.

(** ** Replacing records by a merge of them *)

Lemma newest_replace key maxSeq I K R :
  newest key maxSeq K = newest key maxSeq I -> newest key maxSeq (K ++ R) = newest key maxSeq (I ++ R).
Proof. intros HK. by rewrite !newest_app, HK. Qed.

(** A dropped tombstone makes no difference when everything else of its key is
    newer. *)
Lemma read_dropped key maxSeq I K R t :
  newest key maxSeq I = Some t -> rDeleted t = true -> newest key maxSeq K = None ->
  (forall x, x ∈ R -> Key x = key -> Seq t < Seq x) ->
  read_at (K ++ R) key maxSeq = read_at (I ++ R) key maxSeq.
Proof.
  intros HI Ht HK HR. unfold read_at. rewrite !newest_app, HI, HK.
  destruct (newest key maxSeq R) as [x |] eqn:E; cbn [consider_opt consider]; [| by simpl; rewrite Ht].
  apply newest_Some in E as (Hin & [Hk _] & _). specialize (HR x Hin Hk).
  destruct (Z.ltb_spec (Seq t) (Seq x)); [done | lia].
Qed.
