(* ===== verification/DbState.v ===== *)
(** * The database: its state

    The data of [internal/db]: options, limits, errors, the [DB] struct, and
    what the operating system may do to the calls an operation makes.

    A memtable is shared by pointer between the [memtable] field and the
    immutable memtables, so memtables live in a list and are referred to by
    their index in it.  The files of [dataDir] are part of the state; an open
    write-ahead log is its file in that directory.  The two signal channels
    have capacity one: their state is whether a signal is buffered.  All of
    the operations run under [db.mu] except where a file says otherwise. *)

From S2P Require Import Float64 Wal.
From S2P Require Export Manifest Segments Picker Merge.

(** ** Options *)

Record LimitsOptions := mkLimits {
  MaxKeyBytes : Z;
  MaxValueBytes : Z;
  MaxBatchOperations : Z;
  MaxBatchBytes : Z;
}.

(** [Options] without the directory: the nested single-field structs are
    their fields. *)
Record Options := mkOptions {
  MaxEntries : Z;
  TableCountThreshold : Z;
  CapacityBytes : Z;
  BloomDisabled : bool;
  BloomFalsePositiveRate : float64;
  Limits : LimitsOptions;
}.

Definition defaultMaxMemtableEntries : Z := 10000.
Definition defaultCompactionThreshold : Z := 4.
Definition defaultBlockCacheCapacity : Z := 64 * 1024 * 1024.
Definition defaultMaxBatchOperations : Z := 10000.
Definition defaultMaxBatchBytes : Z := 128 * 1024 * 1024.

(** ** Errors *)

Inductive db_error : Type :=
| ErrClosed
| ErrDatabaseLocked
| ErrKeyTooLarge (got max : Z)
| ErrValueTooLarge (got max : Z)
| ErrBatchOperations (max : Z)      (** [ErrBatchTooLarge]: operation count *)
| ErrBatchBytes (max : Z)           (** [ErrBatchTooLarge]: encoded input *)
| ErrBatchClosed
| ErrSnapshotClosed
| ErrNotFound
| ErrOption (n : Z)                 (** the [n]-th check of the options *)
| ErrPlanMissing                    (** the plan references a missing table *)
| ErrOS                             (** an error of the operating system *)
| ErrWal (e : wal_error)
| ErrManifest (e : manifest_error)
| ErrPublish                        (** [manifest.PublishError] *)
| ErrTable (e : read_error)
| ErrTableWrite (e : sst_error)
| ErrMerge (e : merge_error).

(** What a client is told about the value of a key. *)
Definition reply (v : option bytes) : result db_error bytes := match v with Some v => Ok v | None => Err ErrNotFound end.

Definition of_write_error (e : write_error) : db_error :=
  match e with WriteFailed e => ErrManifest e | PublishError => ErrPublish end.

Definition normalizeSSTableOptions (disabled : bool) (falsePositiveRate : float64) : result db_error WriteOptions :=
  let w := DefaultWriteOptions in
  _ ← guard_err (f_is_nan falsePositiveRate || f_ltb falsePositiveRate f_zero || f_leb f_one falsePositiveRate)
        (ErrOption 4);
  let rate := if f_ltb f_zero falsePositiveRate then falsePositiveRate else FalsePositiveRate (BloomOptions w) in
  Ok (mkWriteOptions (BlockSize w) (RestartInterval w) (CompressionType w) (MinCompressionSavingsRate w)
        (mkBloomOptions (negb disabled) rate)).

Definition normalizeLimits (l : LimitsOptions) : result db_error LimitsOptions :=
  let maxKey := if MaxKeyBytes l =? 0 then MaxKeySize else MaxKeyBytes l in
  let maxValue := if MaxValueBytes l =? 0 then MaxValueSize else MaxValueBytes l in
  let maxOps := if MaxBatchOperations l =? 0 then defaultMaxBatchOperations else MaxBatchOperations l in
  let maxBytes := if MaxBatchBytes l =? 0 then defaultMaxBatchBytes else MaxBatchBytes l in
  _ ← guard_err ((maxKey <? 1) || (maxKey >? MaxKeySize)) (ErrOption 5);
  _ ← guard_err ((maxValue <? 1) || (maxValue >? MaxValueSize)) (ErrOption 6);
  _ ← guard_err (maxOps <? 1) (ErrOption 7);
  _ ← guard_err (maxBytes <? 1) (ErrOption 8);
  Ok (mkLimits maxKey maxValue maxOps maxBytes).

(** ** The struct *)

(** An [*sstable.SSTable] of the database: what [New] was given, and the state
    of its reader. *)
Record handle := mkHandle { h_meta : SSTableMetadata; h_sst : SSTable }.

(** A [*memtable.ImmutableMemTable]: its own address, which the flush compares,
    the address of its memtable, and its log. *)
Record immutable := mkImm { im_addr : nat; im_table : nat; im_walID : Z }.

Section state.
Context {C : Type}.

Record DB := mkDB {
  memtables : list MemTable;  (** the memtables made so far, by address *)
  memtable : nat;  (** the active one *)
  immutableMemtables : list immutable;
  allocated : nat;  (** addresses given to immutable memtables *)
  maxMemtableSize : Z;
  memTableSize : Z;
  sstables : list handle;
  blockCache : option C;
  sstableWriteOptions : WriteOptions;
  walID : Z;  (** [db.wal.ID] *)
  manifest : Manifest;
  compactionThreshold : Z;
  nextSeq : Z;
  limits : LimitsOptions;
  activeReaders : gmap Z Z;
  flushSignal : bool;  (** a signal is buffered *)
  compactionSignal : bool;
  closed : bool;
  dir : fs;  (** the files of [dataDir] *)
}.

Definition set_memtables (x : list MemTable) (db : DB) : DB :=
  mkDB x (memtable db) (immutableMemtables db) (allocated db) (maxMemtableSize db) (memTableSize db)
    (sstables db) (blockCache db) (sstableWriteOptions db) (walID db) (manifest db) (compactionThreshold db)
    (nextSeq db) (limits db) (activeReaders db) (flushSignal db) (compactionSignal db) (closed db) (dir db).
Definition set_memtable (x : nat) (db : DB) : DB :=
  mkDB (memtables db) x (immutableMemtables db) (allocated db) (maxMemtableSize db) (memTableSize db)
    (sstables db) (blockCache db) (sstableWriteOptions db) (walID db) (manifest db) (compactionThreshold db)
    (nextSeq db) (limits db) (activeReaders db) (flushSignal db) (compactionSignal db) (closed db) (dir db).
Definition set_immutableMemtables (x : list immutable) (db : DB) : DB :=
  mkDB (memtables db) (memtable db) x (allocated db) (maxMemtableSize db) (memTableSize db) (sstables db)
    (blockCache db) (sstableWriteOptions db) (walID db) (manifest db) (compactionThreshold db) (nextSeq db)
    (limits db) (activeReaders db) (flushSignal db) (compactionSignal db) (closed db) (dir db).
Definition set_allocated (x : nat) (db : DB) : DB :=
  mkDB (memtables db) (memtable db) (immutableMemtables db) x (maxMemtableSize db) (memTableSize db)
    (sstables db) (blockCache db) (sstableWriteOptions db) (walID db) (manifest db) (compactionThreshold db)
    (nextSeq db) (limits db) (activeReaders db) (flushSignal db) (compactionSignal db) (closed db) (dir db).
Definition set_memTableSize (x : Z) (db : DB) : DB :=
  mkDB (memtables db) (memtable db) (immutableMemtables db) (allocated db) (maxMemtableSize db) x
    (sstables db) (blockCache db) (sstableWriteOptions db) (walID db) (manifest db) (compactionThreshold db)
    (nextSeq db) (limits db) (activeReaders db) (flushSignal db) (compactionSignal db) (closed db) (dir db).
Definition set_sstables (x : list handle) (db : DB) : DB :=
  mkDB (memtables db) (memtable db) (immutableMemtables db) (allocated db) (maxMemtableSize db)
    (memTableSize db) x (blockCache db) (sstableWriteOptions db) (walID db) (manifest db)
    (compactionThreshold db) (nextSeq db) (limits db) (activeReaders db) (flushSignal db)
    (compactionSignal db) (closed db) (dir db).
Definition set_blockCache (x : option C) (db : DB) : DB :=
  mkDB (memtables db) (memtable db) (immutableMemtables db) (allocated db) (maxMemtableSize db)
    (memTableSize db) (sstables db) x (sstableWriteOptions db) (walID db) (manifest db)
    (compactionThreshold db) (nextSeq db) (limits db) (activeReaders db) (flushSignal db)
    (compactionSignal db) (closed db) (dir db).
Definition set_walID (x : Z) (db : DB) : DB :=
  mkDB (memtables db) (memtable db) (immutableMemtables db) (allocated db) (maxMemtableSize db)
    (memTableSize db) (sstables db) (blockCache db) (sstableWriteOptions db) x (manifest db)
    (compactionThreshold db) (nextSeq db) (limits db) (activeReaders db) (flushSignal db)
    (compactionSignal db) (closed db) (dir db).
Definition set_manifest (x : Manifest) (db : DB) : DB :=
  mkDB (memtables db) (memtable db) (immutableMemtables db) (allocated db) (maxMemtableSize db)
    (memTableSize db) (sstables db) (blockCache db) (sstableWriteOptions db) (walID db) x
    (compactionThreshold db) (nextSeq db) (limits db) (activeReaders db) (flushSignal db)
    (compactionSignal db) (closed db) (dir db).
Definition set_nextSeq (x : Z) (db : DB) : DB :=
  mkDB (memtables db) (memtable db) (immutableMemtables db) (allocated db) (maxMemtableSize db)
    (memTableSize db) (sstables db) (blockCache db) (sstableWriteOptions db) (walID db) (manifest db)
    (compactionThreshold db) x (limits db) (activeReaders db) (flushSignal db) (compactionSignal db)
    (closed db) (dir db).
Definition set_activeReaders (x : gmap Z Z) (db : DB) : DB :=
  mkDB (memtables db) (memtable db) (immutableMemtables db) (allocated db) (maxMemtableSize db)
    (memTableSize db) (sstables db) (blockCache db) (sstableWriteOptions db) (walID db) (manifest db)
    (compactionThreshold db) (nextSeq db) (limits db) x (flushSignal db) (compactionSignal db) (closed db)
    (dir db).
Definition set_flushSignal (x : bool) (db : DB) : DB :=
  mkDB (memtables db) (memtable db) (immutableMemtables db) (allocated db) (maxMemtableSize db)
    (memTableSize db) (sstables db) (blockCache db) (sstableWriteOptions db) (walID db) (manifest db)
    (compactionThreshold db) (nextSeq db) (limits db) (activeReaders db) x (compactionSignal db) (closed db)
    (dir db).
Definition set_compactionSignal (x : bool) (db : DB) : DB :=
  mkDB (memtables db) (memtable db) (immutableMemtables db) (allocated db) (maxMemtableSize db)
    (memTableSize db) (sstables db) (blockCache db) (sstableWriteOptions db) (walID db) (manifest db)
    (compactionThreshold db) (nextSeq db) (limits db) (activeReaders db) (flushSignal db) x (closed db)
    (dir db).
Definition set_closed (x : bool) (db : DB) : DB :=
  mkDB (memtables db) (memtable db) (immutableMemtables db) (allocated db) (maxMemtableSize db)
    (memTableSize db) (sstables db) (blockCache db) (sstableWriteOptions db) (walID db) (manifest db)
    (compactionThreshold db) (nextSeq db) (limits db) (activeReaders db) (flushSignal db)
    (compactionSignal db) x (dir db).
Definition set_dir (x : fs) (db : DB) : DB :=
  mkDB (memtables db) (memtable db) (immutableMemtables db) (allocated db) (maxMemtableSize db)
    (memTableSize db) (sstables db) (blockCache db) (sstableWriteOptions db) (walID db) (manifest db)
    (compactionThreshold db) (nextSeq db) (limits db) (activeReaders db) (flushSignal db)
    (compactionSignal db) (closed db) x.

(** [db.newSSTable(meta)] *)
Definition newSSTable (meta : SSTableMetadata) : handle := mkHandle meta (fresh_table (ID meta)).

Definition validateKey (db : DB) (key : bytes) : result db_error unit :=
  guard_err (len key >? MaxKeyBytes (limits db)) (ErrKeyTooLarge (len key) (MaxKeyBytes (limits db))).

Definition validateValue (db : DB) (value : bytes) : result db_error unit :=
  guard_err (len value >? MaxValueBytes (limits db)) (ErrValueTooLarge (len value) (MaxValueBytes (limits db))).

(** [Close] sets [closed] and closes [flushSignal] in one critical section; a
    send on a closed channel panics. *)
Definition signalFlush (db : DB) : option DB := if closed db then None else Some (set_flushSignal true db).
Definition signalCompaction (db : DB) : DB := set_compactionSignal true db.

(** [db.manifest.NextSSTableID = id] and [db.manifest.SSTables = ts]. *)
Definition set_nextID (id : Z) (db : DB) : DB :=
  set_manifest (mkManifest id (NextWALSegmentID (manifest db)) (SSTables (manifest db))) db.
Definition set_tables (ts : list SSTableMetadata) (db : DB) : DB :=
  set_manifest (mkManifest (NextSSTableID (manifest db)) (NextWALSegmentID (manifest db)) ts) db.
Definition set_nextWAL (id : Z) (db : DB) : DB :=
  set_manifest (mkManifest (NextSSTableID (manifest db)) id (SSTables (manifest db))) db.

(** [os.Stat(path)] *)
Definition stat (d : fs) (path : bytes) : option Z := len <$> d !! path.

End state.
Arguments DB : clear implicits.

(** ** The operating system *)

(** Where the creation of a log segment fails: opening it, or after [n] bytes of
    its header have been written. *)
Inductive seg_fault : Type := SegOpen | SegWrite (n : nat).

(** Where the creation of a table file fails: before or after the rename that
    makes it visible. *)
Inductive create_fault : Type := CreateBefore | CreateAfter.

(** What the operating system does to the calls of one operation. *)
Record env := mkEnv {
  e_append : option nat;            (** appending to the log fails after so many bytes *)
  e_sync : bool;                    (** [file.Sync] on the log fails *)
  e_segment : option seg_fault;
  e_close : bool;                   (** closing the previous log fails *)
  e_create : option create_fault;
  e_manifest : os_faults;
  e_remove : bytes -> bool;         (** removing the file fails *)
  e_removeSync : bool;              (** syncing the directory after removals fails *)
  e_seed : SkipList.rand;           (** the random source of a new memtable *)
}.

Definition calm (seed : SkipList.rand) : env :=
  mkEnv None false None false None no_faults (fun _ => false) false seed.

(** The calls to the operating system that a rotation needs succeed: opening
    the new log and closing the old one.  When one of them fails the write is
    reported as failed although it has been applied, and the flush worker is not
    woken. *)
Definition mild (e : env) : bool := bool_decide (e_segment e = None) && negb (e_close e).

(** [wal.NewSegmentInDir]: the error and the directory afterwards. *)
Definition NewSegmentInDir (e : env) (id : Z) (d : fs) : result db_error unit * fs :=
  let path := SegmentPath id in
  let file := default [] (d !! path) in
  match e_segment e with
  | Some SegOpen => (Err ErrOS, d)
  | Some (SegWrite n) => (Err ErrOS, if len file =? 0 then <[path := take n writeWALHeader]> d else d)
  | None =>
      match NewSegment file with
      | Err err => (Err (ErrWal err), d)
      | Ok file => (Ok tt, <[path := file]> d)
      end
  end.

(** [wal.RemoveSegmentInDir] *)
Definition RemoveSegmentInDir (e : env) (id : Z) (d : fs) : result db_error unit * fs :=
  match d !! SegmentPath id with
  | None => (Ok tt, d)
  | Some _ =>
      if e_remove e (SegmentPath id) then (Err ErrOS, d)
      else (guard_err (e_removeSync e) ErrOS, RemoveSegment id d)
  end.

(** The file of a table after [CreateFromIteratorWithOptions] produced its
    contents. *)
Definition install (e : env) (path : bytes) (file : bytes) (d : fs) : result db_error unit * fs :=
  match e_create e with
  | Some CreateBefore => (Err ErrOS, d)
  | Some CreateAfter => (Err ErrOS, <[path := file]> d)
  | None => (Ok tt, <[path := file]> d)
  end.
