(* ===== verification/Db.v ===== *)
(** * The database: its operations

    Models [internal/db/db.go], [batch.go] and [snapshot.go] on the state of
    [DbState]: writes through the log, reads over the memtables and tables,
    flushing, compaction, batches and snapshots.  An operation returns its
    result and the new state; [None] is a panic, or a merge that was given too
    little fuel.  The environment [e] says which calls to the operating system
    fail.

    A compaction that fails after its merge leaves the reader metadata it
    loaded in the handles of its inputs; here those handles stay as they were
    and load it again at their next use, with the same result. *)

From S2P Require Import Float64 Bloom BlockCache Wal.
From S2P Require Export History DbState.

Section db.
Context {lz : LZ4Codec} {C : Type} `{!Cache C}.
Context (Hash128 : bytes -> Z * Z) (math_Log : float64 -> float64) (conv : float64 -> Z).
Local Abbreviation DB := (DB C).
(** An operation with a result of type [A]. *)
Local Abbreviation op A := (option (result db_error A * DB)).

(** ** Writing *)

(** Appending to the open log.  A write that fails leaves a prefix of its data
    behind; when the log was unlinked, data goes to no file of the directory. *)
Definition wal_write (e : env) (write : bytes -> option wal_error * bytes) (db : DB) : result db_error unit * DB :=
  let path := SegmentPath (walID db) in
  let file := default [] (dir db !! path) in
  let '(err, file') := write file in
  let written := (length file' - length file)%nat in
  let '(r, file') :=
    match e_append e with
    | Some n => if (n <? written)%nat then (Err ErrOS, take (length file + n) file')
                else (match err with Some err => Err (ErrWal err) | None => Ok tt end, file')
    | None => (match err with Some err => Err (ErrWal err) | None => Ok tt end, file')
    end in
  (r, match dir db !! path with
      | Some _ => set_dir (<[path := file']> (dir db)) db
      | None => db
      end).

Definition rotateMemtable (e : env) (db : DB) : op unit :=
  let imm := mkImm (allocated db) (memtable db) (walID db) in
  let db := set_allocated (S (allocated db)) (set_immutableMemtables (immutableMemtables db ++ [imm]) db) in
  let db := set_nextWAL (u64 (NextWALSegmentID (manifest db) + 1)) db in
  let '(r, d) := NewSegmentInDir e (NextWALSegmentID (manifest db)) (dir db) in
  let db := set_dir d db in
  match r with
  | Err err => Some (Err err, db)
  | Ok _ =>
      mt ← MemTable_New (e_seed e);
      let db := set_memtables (memtables db ++ [mt]) (set_memtable (length (memtables db)) db) in
      let db := set_walID (NextWALSegmentID (manifest db)) (set_memTableSize 0 db) in
      if e_close e then Some (Err ErrOS, db) else db ← signalFlush db; Some (Ok tt, db)
  end.

(** [db.memtable.Put(rec)] *)
Definition memtable_put (rec : record) (db : DB) : option DB :=
  mt ← memtables db !! memtable db;
  mt ← MemTable_Put rec mt;
  Some (set_memtables (<[memtable db := mt]> (memtables db)) db).

(** [if db.memTableSize >= db.maxMemtableSize { return db.rotateMemtable() }] *)
Definition maybe_rotate (e : env) (db : DB) : op unit :=
  if memTableSize db >=? maxMemtableSize db then rotateMemtable e db else Some (Ok tt, db).

(** The part [Put] and [Delete] share: from the log to the rotation. *)
Definition write_one (e : env) (rec : record) (db : DB) : op unit :=
  let '(r, db) := wal_write e (WriteRecord rec) db in
  match r with
  | Err err => Some (Err err, db)
  | Ok _ =>
      let db := set_nextSeq (u64 (nextSeq db + 1)) db in
      db ← memtable_put rec db;
      maybe_rotate e (set_memTableSize (memTableSize db + 1) db)
  end.

Definition DB_Put (e : env) (key value : bytes) (db : DB) : op unit :=
  if closed db then Some (Err ErrClosed, db)
  else match validateKey db key with
       | Err err => Some (Err err, db)
       | Ok _ =>
           match validateValue db value with
           | Err err => Some (Err err, db)
           | Ok _ => write_one e (mkRecord key (nextSeq db) (mkEntry value false) 0 BatchNone) db
           end
       end.

Definition DB_Delete (e : env) (key : bytes) (db : DB) : op unit :=
  if closed db then Some (Err ErrClosed, db)
  else match validateKey db key with
       | Err err => Some (Err err, db)
       | Ok _ => write_one e (mkRecord key (nextSeq db) (mkEntry [] true) 0 BatchNone) db
       end.

(** ** Batches *)

Record batch_op := mkOp { op_Key : bytes; op_Value : bytes; op_Deleted : bool }.

(** [b.db] is the database the operations of the batch are given. *)
Record Batch := mkBatch { operations : list batch_op; sizeBytes : Z; b_closed : bool }.

Definition NewBatch : Batch := mkBatch [] 0 false.

Definition reserveOperation (db : DB) (size : Z) (b : Batch) : result db_error unit * Batch :=
  if len (operations b) >=? MaxBatchOperations (limits db)
  then (Err (ErrBatchOperations (MaxBatchOperations (limits db))), b)
  else if size >? MaxBatchBytes (limits db) - sizeBytes b
  then (Err (ErrBatchBytes (MaxBatchBytes (limits db))), b)
  else (Ok tt, mkBatch (operations b) (sizeBytes b + size) (b_closed b)).

(** [b.operations = append(b.operations, op)] *)
Definition append_op (op : batch_op) (b : Batch) : Batch :=
  mkBatch (operations b ++ [op]) (sizeBytes b) (b_closed b).

Definition Batch_Put (db : DB) (key value : bytes) (b : Batch) : result db_error unit * Batch :=
  if b_closed b then (Err ErrBatchClosed, b)
  else match validateKey db key with
       | Err err => (Err err, b)
       | Ok _ =>
           match validateValue db value with
           | Err err => (Err err, b)
           | Ok _ =>
               match reserveOperation db (len key + len value) b with
               | (Err err, b) => (Err err, b)
               | (Ok _, b) => (Ok tt, append_op (mkOp key value false) b)
               end
           end
       end.

Definition Batch_Delete (db : DB) (key : bytes) (b : Batch) : result db_error unit * Batch :=
  if b_closed b then (Err ErrBatchClosed, b)
  else match validateKey db key with
       | Err err => (Err err, b)
       | Ok _ =>
           match reserveOperation db (len key) b with
           | (Err err, b) => (Err err, b)
           | (Ok _, b) => (Ok tt, append_op (mkOp key [] true) b)
           end
       end.

Definition Batch_Cancel (b : Batch) : Batch :=
  if b_closed b then b else mkBatch [] 0 true.

(** The records of a batch, numbered from [seq]. *)
Fixpoint batch_writes (seq : Z) (ops : list batch_op) : list record :=
  match ops with
  | [] => []
  | op :: ops =>
      mkRecord (op_Key op) (u64 seq) (mkEntry (op_Value op) (op_Deleted op)) 0 BatchNone :: batch_writes (seq + 1) ops
  end.

(** [for _, rec := range records { db.memtable.Put(rec); db.memTableSize++ }] *)
Fixpoint memtable_puts (recs : list record) (db : DB) : option DB :=
  match recs with
  | [] => Some db
  | rec :: recs =>
      db ← memtable_put rec db;
      memtable_puts recs (set_memTableSize (memTableSize db + 1) db)
  end.

Definition applyBatch (e : env) (ops : list batch_op) (sync : bool) (db : DB) : op unit :=
  if closed db then Some (Err ErrClosed, db)
  else
    let records := batch_writes (nextSeq db) ops in
    let '(r, db) := wal_write e (WriteBatch (nextSeq db) records) db in
    match (_ ← r; guard_err (sync && e_sync e) ErrOS) with
    | Err err => Some (Err err, db)
    | Ok _ =>
        db ← memtable_puts records db;
        let db := set_nextSeq (u64 (nextSeq db + len records)) db in
        let db := if len records =? 0 then set_nextSeq (u64 (nextSeq db + 1)) db else db in
        maybe_rotate e db
    end.

Definition Batch_Commit (e : env) (sync : bool) (b : Batch) (db : DB) : option (result db_error unit * Batch * DB) :=
  if b_closed b then Some (Err ErrBatchClosed, b, db)
  else
    '(r, db) ← applyBatch e (operations b) sync db;
    match r with
    | Err err => Some (Err err, b, db)
    | Ok _ => Some (Ok tt, mkBatch (operations b) (sizeBytes b) true, db)
    end.

(** ** Reading *)

Fixpoint get_memtables (heap : list MemTable) (key : bytes) (maxSeq : Z) (imms : list immutable) (best : option record)
    : option (option record) :=
  match imms with
  | [] => Some best
  | imm :: imms =>
      mt ← heap !! im_table imm;
      r ← MemTable_GetAt mt key maxSeq;
      get_memtables heap key maxSeq imms (consider_opt best r)
  end.

(** The loop over the tables, in the order given: the best candidate, the
    handles and the cache afterwards. *)
Fixpoint get_tables (d : fs) (key : bytes) (maxSeq : Z) (hs : list handle) (cache : option C) (best : option record)
    : option (result db_error (option record) * list handle * option C) :=
  match hs with
  | [] => Some (Ok best, [], cache)
  | h :: hs =>
      match d !! Path (h_meta h) with
      | None => Some (Err ErrOS, h :: hs, cache)
      | Some file =>
          '(r, s, cache) ← GetRecordAt Hash128 file key maxSeq (h_sst h) cache;
          let h := mkHandle (h_meta h) s in
          match r with
          | Err err => Some (Err (ErrTable err), h :: hs, cache)
          | Ok r =>
              '(r, hs, cache) ← get_tables d key maxSeq hs cache (consider_opt best r);
              Some (r, h :: hs, cache)
          end
      end
  end.

Definition getAt (key : bytes) (maxSeq : Z) (db : DB) : op bytes :=
  mt ← memtables db !! memtable db;
  r ← MemTable_GetAt mt key maxSeq;
  best ← get_memtables (memtables db) key maxSeq (reverse (immutableMemtables db)) (consider_opt None r);
  '(r, hs, cache) ← get_tables (dir db) key maxSeq (reverse (sstables db)) (blockCache db) best;
  let db := set_sstables (reverse hs) (set_blockCache cache db) in
  Some (match r with
        | Err err => Err err
        | Ok None => Err ErrNotFound
        | Ok (Some best) => if rDeleted best then Err ErrNotFound else Ok (rValue best)
        end, db).

Definition DB_Get (key : bytes) (db : DB) : op bytes :=
  if closed db then Some (Err ErrClosed, db)
  else match validateKey db key with
       | Err err => Some (Err err, db)
       | Ok _ => getAt key u64_max db
       end.

(** ** Readers and snapshots *)

Definition registerReaderLocked (sequence : Z) (db : DB) : DB :=
  set_activeReaders (<[sequence := default 0 (activeReaders db !! sequence) + 1]> (activeReaders db)) db.

Definition unregisterReaderLocked (sequence : Z) (db : DB) : DB :=
  let count := default 0 (activeReaders db !! sequence) in
  if count <=? 1 then set_activeReaders (delete sequence (activeReaders db)) db
  else set_activeReaders (<[sequence := count - 1]> (activeReaders db)) db.

(** The loop over the map, in the order the runtime chooses. *)
Definition oldest_loop (seqs : list Z) : option Z :=
  foldl (fun oldest sequence =>
    match oldest with
    | Some o => if sequence <? o then Some sequence else Some o
    | None => Some sequence
    end) None seqs.

Definition oldestReaderLocked (db : DB) : option Z := oldest_loop (map_to_list (activeReaders db)).*1.

Definition currentSequenceLocked (db : DB) : Z := u64 (nextSeq db - 1).

Record Snapshot := mkSnap { sn_sequence : Z; sn_closed : bool }.

Definition NewSnapshot (db : DB) : result db_error Snapshot * DB :=
  if closed db then (Err ErrClosed, db)
  else
    let snapshot := mkSnap (currentSequenceLocked db) false in
    (Ok snapshot, registerReaderLocked (sn_sequence snapshot) db).

Definition Snapshot_Get (s : Snapshot) (key : bytes) (db : DB) : op bytes :=
  if sn_closed s then Some (Err ErrSnapshotClosed, db)
  else if closed db then Some (Err ErrClosed, db)
  else match validateKey db key with
       | Err err => Some (Err err, db)
       | Ok _ => getAt key (sn_sequence s) db
       end.

Definition Snapshot_Close (s : Snapshot) (db : DB) : Snapshot * DB :=
  if sn_closed s then (s, db)
  else (mkSnap (sn_sequence s) true, unregisterReaderLocked (sn_sequence s) db).

(** ** Compaction *)

Definition hasCompactionWork (d : fs) (tables : list SSTableMetadata) (threshold : Z) : option bool :=
  p ← PickCompaction (stat d) tables L0 threshold;
  match p with
  | Some _ => Some true
  | None => p ← PickCompaction (stat d) tables (L0 + 1) threshold; Some (bool_decide (is_Some p))
  end.

(** The first choice of [compactLocked] that gives a plan. *)
Definition choose_plan (d : fs) (tables : list SSTableMetadata) (threshold : Z) : option (option CompactionPlan) :=
  p ← PickCompaction (stat d) tables L0 threshold;
  match p with
  | Some plan => Some (Some plan)
  | None => PickCompaction (stat d) tables (L0 + 1) threshold
  end.

Definition h_ID (h : handle) : Z := ID (h_meta h).

(** [for _, sst := range db.sstables { if sst.ID == table.ID { ...; break } }] *)
Definition find_table (hs : list handle) (table : SSTableMetadata) : option handle :=
  snd <$> list_find (fun h => h_ID h = ID table) hs.

(** The loops that put [x] in place of the first selected element and leave
    the other selected ones out. *)
Fixpoint replace_selected {A} (selected : A -> bool) (x : A) (inserted : bool) (l : list A) : list A :=
  match l with
  | [] => []
  | y :: l =>
      if selected y then (if inserted then [] else [x]) ++ replace_selected selected x true l
      else y :: replace_selected selected x inserted l
  end.

(** The removal of the old tables: whether one was removed and whether one
    could not be, with the directory and the cache, which [Open] always makes. *)
Fixpoint remove_tables (e : env) (hs : list handle) (removed failed : bool) (d : fs) (cache : option C)
    : option (bool * bool * fs * option C) :=
  match hs with
  | [] => Some (removed, failed, d, cache)
  | h :: hs =>
      let path := Path (h_meta h) in
      let '(removed, failed, d) :=
        match d !! path with
        | None => (removed, failed, d)
        | Some _ => if e_remove e path then (removed, true, d) else (true, failed, delete path d)
        end in
      cache ← match cache with
              | Some c => c ← cache_purge (h_ID h) c; Some (Some c)
              | None => Some None
              end;
      remove_tables e hs removed failed d cache
  end.

(** After the merge: publication and cleanup. *)
Definition publish_compaction (e : env) (plan : CompactionPlan) (id : Z) (path : bytes) (meta : table_meta) (db : DB)
    : op unit :=
  let selected i := bool_decide (i ∈ ID <$> Inputs plan) in
  let oldNextSSTableID := NextSSTableID (manifest db) in
  let oldTables := SSTables (manifest db) in
  let compactedMeta :=
    mkMeta id path (TargetLevel plan) (tm_SizeBytes meta) (tm_SmallestKey meta) (tm_LargestKey meta) in
  let db := set_nextID (u64 (oldNextSSTableID + 1)) db in
  let db := set_tables (replace_selected (fun t => selected (ID t)) compactedMeta false oldTables) db in
  let '(manifestErr, d) := Write (e_manifest e) manifest_path (Some (manifest db)) (dir db) in
  let db := set_dir d db in
  match manifestErr with
  | Some (WriteFailed err) =>
      let db := set_tables oldTables (set_nextID oldNextSSTableID db) in
      Some (Err (ErrManifest err), if e_remove e path then db else set_dir (delete path (dir db)) db)
  | _ =>
      let oldSSTables := sstables db in
      let db := set_sstables
        (replace_selected (fun h => selected (h_ID h)) (newSSTable compactedMeta) false oldSSTables) db in
      match manifestErr with
      | Some _ => Some (Err ErrPublish, db)
      | None =>
          '(removed, failed, d, cache) ←
            remove_tables e (filter (fun h => selected (h_ID h) = true) oldSSTables) false false (dir db) (blockCache db);
          let db := set_blockCache cache (set_dir d db) in
          Some (guard_err (failed || removed && e_removeSync e) ErrOS, db)
      end
  end.

Definition compactLocked (fuel : nat) (e : env) (threshold : Z) (db : DB) : op unit :=
  plan ← choose_plan (dir db) (SSTables (manifest db)) threshold;
  match plan with
  | None => Some (Ok tt, db)
  | Some plan =>
      let inputTables := omap (find_table (sstables db)) (Inputs plan) in
      if negb (length inputTables =? length (Inputs plan))%nat then Some (Err ErrPlanMissing, db)
      else
        let id := NextSSTableID (manifest db) in
        let path := compact_path id in
        let options := mkMergeOptions (oldestReaderLocked db)
          (TargetLevel plan =? HighestSupportedLevel) (Some (sstableWriteOptions db)) in
        match mapM (fun h => file ← dir db !! Path (h_meta h); Some (mkInput file (h_sst h))) inputTables with
        | None => Some (Err ErrOS, db)
        | Some inputs =>
            '(r, cache) ← MergeSSTablesWithOptions Hash128 math_Log conv fuel inputs options (blockCache db);
            let db := set_blockCache cache db in
            match r with
            | Err err => Some (Err (ErrMerge err), db)
            | Ok (meta, file) =>
                let '(r, d) := install e path file (dir db) in
                let db := set_dir d db in
                match r with
                | Err err => Some (Err err, db)
                | Ok _ => publish_compaction e plan id path meta db
                end
            end
        end
  end.

Definition DB_Compact (fuel : nat) (e : env) (db : DB) : op unit := compactLocked fuel e 1 db.

(** One signal of [compactionLoop]: compactions until there is no work left or
    one of them fails.  [n] bounds the number of rounds. *)
Fixpoint compaction_rounds (n : nat) (fuel : nat) (e : nat -> env) (db : DB) : option DB :=
  match n with
  | O => None
  | S n =>
      work ← hasCompactionWork (dir db) (SSTables (manifest db)) (compactionThreshold db);
      if negb work then Some db
      else
        '(r, db) ← compactLocked fuel (e n) (compactionThreshold db) db;
        match r with
        | Err _ => Some db
        | Ok _ => compaction_rounds n fuel e db
        end
  end.

(** ** Flushing *)

(** The first critical section of [flushImmutableMemtable]: the identifier of
    the new table. *)
Definition flush_begin (db : DB) : Z * DB :=
  let id := NextSSTableID (manifest db) in
  (id, set_nextID (u64 (id + 1)) db).

(** Writing the table, outside the lock, and giving the identifier back when
    it fails. *)
Definition flush_create (e : env) (imm : immutable) (id : Z) (db : DB) : op SSTableMetadata :=
  mt ← memtables db !! im_table imm;
  r ← CreateFromMemTableWithOptions Hash128 math_Log conv mt (sstableWriteOptions db);
  match r with
  | Err err => Some (Err (ErrTableWrite err), set_nextID id db)
  | Ok (meta, file) =>
      let '(r, d) := install e (data_path id) file (dir db) in
      let db := set_dir d db in
      match r with
      | Err err => Some (Err err, set_nextID id db)
      | Ok _ => Some (Ok (mkMeta id (data_path id) L0 (tm_SizeBytes meta) (tm_SmallestKey meta) (tm_LargestKey meta)), db)
      end
  end.

(** The second critical section: the table becomes part of the database. *)
Definition flush_publish (e : env) (imm : immutable) (meta : SSTableMetadata) (db : DB) : op unit :=
  let oldNextSSTableID := ID meta in
  let old := db in
  let db := set_sstables (sstables db ++ [newSSTable meta]) db in
  let db := set_tables (SSTables (manifest db) ++ [meta]) db in
  let '(manifestErr, d) := Write (e_manifest e) manifest_path (Some (manifest db)) (dir db) in
  let db := set_dir d db in
  match manifestErr with
  | Some (WriteFailed err) =>
      let db := set_sstables (sstables old) (set_tables (SSTables (manifest old)) db) in
      let db := set_nextID oldNextSSTableID db in
      Some (Err (ErrManifest err),
            if e_remove e (Path meta) then db else set_dir (delete (Path meta) (dir db)) db)
  | _ =>
      let db :=
        match immutableMemtables db with
        | imm' :: imms => if (im_addr imm' =? im_addr imm)%nat then set_immutableMemtables imms db else db
        | [] => db
        end in
      Some (match manifestErr with Some _ => Err ErrPublish | None => Ok tt end, db)
  end.

(** After it: the log is removed and compaction is signalled. *)
Definition flush_finish (e : env) (imm : immutable) (db : DB) : result db_error unit * DB :=
  let '(r, d) := RemoveSegmentInDir e (im_walID imm) (dir db) in
  let db := set_dir d db in
  match r with
  | Err err => (Err err, db)
  | Ok _ => (Ok tt, signalCompaction db)
  end.

End db.
