(* ===== verification/DbOpen.v ===== *)
(** * Opening the database

    Models [Open], [New], [maxSeqFromMemTable] and [maxSeqFromSSTables] of
    [internal/db/db.go]: validation of the options, the manifest, replay of
    every log segment into one memtable, the tables, and the next sequence
    number.  The directory is given as its files; [lock] is the outcome of
    creating the directory and of taking its lock, whose file is not among
    them.  The two goroutines that [Open] starts are idle. *)

From S2P Require Import Float64 Bloom BlockCache Wal.
From S2P Require Export DbState Db TableClaims.

(** ** The greatest sequence numbers *)

(** The fuel exceeds the number of records of the memtable. *)
Definition maxSeqFromMemTable (mt : MemTable) : option Z :=
  it ← MemTable_Iterator mt;
  '(r, _) ← maxseq_loop (S (length (SkipList.arena (data mt)))) it 0;
  match r with Ok m => Some m | Err e => match (e : Empty_set) with end end.

Section open.
Context {lz : LZ4Codec}.

Section tables.
Context {C : Type} `{!Cache C}.

(** The loop over the tables, with the handles and the cache afterwards. *)
Fixpoint maxSeqFromSSTables (fuel : nat) (d : fs) (hs : list handle) (cache : option C) (maxSeq : Z)
    : option (result db_error Z * list handle * option C) :=
  match hs with
  | [] => Some (Ok maxSeq, [], cache)
  | h :: hs =>
      match d !! Path (h_meta h) with
      | None => Some (Err ErrOS, h :: hs, cache)
      | Some file =>
          '(r, s, cache) ← MaxSeq fuel file (h_sst h) cache;
          let h := mkHandle (h_meta h) s in
          match r with
          | Err err => Some (Err (ErrTable err), h :: hs, cache)
          | Ok seq =>
              '(r, hs, cache) ← maxSeqFromSSTables fuel d hs cache (if seq >? maxSeq then seq else maxSeq);
              Some (r, h :: hs, cache)
          end
      end
  end.

End tables.

(** ** Replay *)

(** [for _, segment := range segments { ... }] *)
Fixpoint replay_segments (segments : list Segment) (d : fs) (mt : MemTable) (recovered : Z)
    : option (result db_error Z * fs * MemTable) :=
  match segments with
  | [] => Some (Ok recovered, d, mt)
  | s :: segments =>
      '(r, mt, file) ← ReplayIntoWithStats (d !! sg_Path s) mt;
      let d := match file with Some f => <[sg_Path s := f]> d | None => d end in
      match r with
      | Err err => Some (Err (ErrWal err), d, mt)
      | Ok maxSequence => replay_segments segments d mt (if maxSequence >? recovered then maxSequence else recovered)
      end
  end.

(** [SizeBytes] of an old manifest is taken from the file. *)
Definition recover_size (d : fs) (table : SSTableMetadata) : SSTableMetadata :=
  if SizeBytes table =? 0 then
    match stat d (Path table) with
    | Some size => mkMeta (ID table) (Path table) (Level table) size (SmallestKey table) (LargestKey table)
    | None => table
    end
  else table.

(** ** Open *)

(** The checks of the options and their defaults. *)
Definition normalizeOptions (opts : Options) : result db_error (Options * WriteOptions) :=
  _ ← guard_err (MaxEntries opts <? 0) (ErrOption 1);
  let maxEntries := if MaxEntries opts =? 0 then defaultMaxMemtableEntries else MaxEntries opts in
  _ ← guard_err (TableCountThreshold opts <? 0) (ErrOption 2);
  let threshold := if TableCountThreshold opts =? 0 then defaultCompactionThreshold else TableCountThreshold opts in
  _ ← guard_err (CapacityBytes opts <? 0) (ErrOption 3);
  let capacity := if CapacityBytes opts =? 0 then defaultBlockCacheCapacity else CapacityBytes opts in
  writeOptions ← normalizeSSTableOptions (BloomDisabled opts) (BloomFalsePositiveRate opts);
  limits ← normalizeLimits (Limits opts);
  Ok (mkOptions maxEntries threshold capacity (BloomDisabled opts) (BloomFalsePositiveRate opts) limits, writeOptions).

(** [lastSegmentID] against the manifest. *)
Definition next_segment (segments : list Segment) (mf : Manifest) : Manifest :=
  match last segments with
  | Some s => if sg_ID s >? NextWALSegmentID mf
              then mkManifest (NextSSTableID mf) (sg_ID s) (SSTables mf) else mf
  | None => mf
  end.

(** The rest of [Open] once the log is open. *)
Definition open_tables (fuel : nat) (opts : Options) (w : WriteOptions) (mf : Manifest) (mt : MemTable) (recovered : Z) (d : fs)
    : option (result db_error (DB LRU)) :=
  let mf := mkManifest (NextSSTableID mf) (NextWALSegmentID mf) (recover_size d <$> SSTables mf) in
  let cache := Some (NewLRU (CapacityBytes opts)) in
  '(r, hs, cache) ← maxSeqFromSSTables fuel d (newSSTable <$> SSTables mf) cache 0;
  match r with
  | Err err => Some (Err err)
  | Ok sstableMaxSeq =>
      memMaxSeq ← maxSeqFromMemTable mt;
      let maxSeq := Z.max (Z.max sstableMaxSeq memMaxSeq) recovered in
      Some (Ok (mkDB [mt] 0 [] 0 (MaxEntries opts) (MemTable_Len mt) hs cache w (NextWALSegmentID mf) mf
                  (TableCountThreshold opts) (u64 (maxSeq + 1)) (Limits opts) ∅ false false false d))
  end.

Definition Open (fuel : nat) (e : env) (lock : result db_error unit) (opts : Options) (d : fs)
    : option (result db_error (DB LRU) * fs) :=
  match ('(opts, w) ← normalizeOptions opts; _ ← lock;
         mf ← map_err ErrManifest (Read (open_file d manifest_path)); Ok (opts, w, mf)) with
  | Err err => Some (Err err, d)
  | Ok (opts, w, mf) =>
      mt ← MemTable_New (e_seed e);
      let segments := ListSegments d in
      '(r, d, mt) ← replay_segments segments d mt 0;
      match r with
      | Err err => Some (Err err, d)
      | Ok recovered =>
          let mf := next_segment segments mf in
          let '(r, d) := NewSegmentInDir e (NextWALSegmentID mf) d in
          match r with
          | Err err => Some (Err err, d)
          | Ok _ => r ← open_tables fuel opts w mf mt recovered d; Some (r, d)
          end
      end
  end.

(** [New(maxMemtableSize, compactionThreshold)] *)
Definition DB_New (fuel : nat) (e : env) (lock : result db_error unit) (maxMemtableSize compactionThreshold : Z) (d : fs)
    : option (result db_error (DB LRU) * fs) :=
  Open fuel e lock (mkOptions maxMemtableSize compactionThreshold 0 false f_zero (mkLimits 0 0 0 0)) d.

End open.
