(* ===== verification/DbIterator.v ===== *)
(** * The database iterator

    Models [internal/db/iterator.go]: a merge through a heap of the active
    memtable's snapshot, the immutable memtables and the tables, which yields
    for every key of the range the newest version at or below the iterator's
    sequence number, and skips deleted keys.  [Next] runs outside [db.mu]; what
    it shares with the rest of the database is the block cache, which is passed
    to it and returned.  [None] is a panic, or a loop that was given too little
    fuel. *)

From S2P Require Import Float64 Bloom BlockCache Wal.
From S2P Require Export DbState Db.

Record IteratorOptions := mkIterOptions { Start : bytes; End_ : bytes }.

(** ** [mergeHeap] *)

Definition mergeHeap_Less (a b : item) : bool :=
  if negb (key_eqb (Key (irec a)) (Key (irec b))) then key_ltb (Key (irec a)) (Key (irec b))
  else Seq (irec a) >? Seq (irec b).

(** ** Prefixes *)

(** The loop of [PrefixEnd] on the reversed prefix. *)
Fixpoint prefix_end_rev (rev : bytes) : bytes :=
  match rev with
  | [] => []
  | c :: rev => if negb (b2z c =? 255) then z2b (b2z c + 1) :: rev else prefix_end_rev rev
  end.

(** [""] for a prefix without an end. *)
Definition PrefixEnd (prefix : bytes) : bytes := reverse (prefix_end_rev (reverse prefix)).

Section iterator.
Context {lz : LZ4Codec} {C : Type} `{!Cache C}.
Local Abbreviation DB := (DB C).
Local Abbreviation TIterator := (TIterator (C := C)).

(** ** Sources *)

Inductive source : Type :=
| SrcSnapshot (it : SnapshotIterator)
| SrcMemtable (it : MIterator)
| SrcTable (it : TIterator).

Definition source_next (s : source) (cache : option C) : option (bool * source * option C) :=
  match s with
  | SrcSnapshot it => '(ok, it) ← Snapshot_Next it; Some (ok, SrcSnapshot it, cache)
  | SrcMemtable it => '(ok, it) ← MIterator_Next it; Some (ok, SrcMemtable it, cache)
  | SrcTable it => '(ok, it, cache) ← table_next it cache; Some (ok, SrcTable it, cache)
  end.

Definition source_record (s : source) : record :=
  match s with
  | SrcSnapshot it => scurrent it
  | SrcMemtable it => mcurrent it
  | SrcTable it => ti_current it
  end.

Definition source_err (s : source) : option read_error :=
  match s with SrcTable it => ti_err it | _ => None end.

Definition source_seek (key : bytes) (s : source) (cache : option C) : option (option read_error * source * option C) :=
  match s with
  | SrcSnapshot it => '(_, it) ← Snapshot_Seek key it; Some (None, SrcSnapshot it, cache)
  | SrcMemtable it => '(_, it) ← MIterator_Seek key it; Some (None, SrcMemtable it, cache)
  | SrcTable it => '(err, it) ← TIterator_Seek key (ti_set_cache cache it); Some (err, SrcTable it, ti_cache it)
  end.

Global Instance source_shared : SharedIterator (option C) read_error source := {|
  sh_next := source_next;
  sh_record := source_record;
  sh_err := source_err;
|}.

(** ** The iterator *)

Record Iterator := mkIter {
  i_opts : IteratorOptions;
  i_maxSeq : Z;
  i_sources : list source;
  i_heap : list item;
  i_current : record;
  i_err : option read_error;
  i_closed : bool;
  i_registered : bool;
}.

Definition set_heap (h : list item) (it : Iterator) : Iterator :=
  mkIter (i_opts it) (i_maxSeq it) (i_sources it) h (i_current it) (i_err it) (i_closed it) (i_registered it).
Definition set_source (i : nat) (s : source) (it : Iterator) : Iterator :=
  mkIter (i_opts it) (i_maxSeq it) (<[i := s]> (i_sources it)) (i_heap it) (i_current it) (i_err it) (i_closed it)
    (i_registered it).
Definition set_current (r : record) (it : Iterator) : Iterator :=
  mkIter (i_opts it) (i_maxSeq it) (i_sources it) (i_heap it) r (i_err it) (i_closed it) (i_registered it).
Definition set_err (e : read_error) (it : Iterator) : Iterator :=
  mkIter (i_opts it) (i_maxSeq it) (i_sources it) (i_heap it) (i_current it) (Some e) (i_closed it) (i_registered it).

Definition beforeStart (o : IteratorOptions) (key : bytes) : bool :=
  negb (key_eqb (Start o) []) && key_ltb key (Start o).

Definition atOrPastEnd (o : IteratorOptions) (key : bytes) : bool :=
  negb (key_eqb (End_ o) []) && key_leb (End_ o) key.

(** The loop of [advanceSource] over one source: [Some] of the record to push. *)
Fixpoint advance_loop (fuel : nat) (o : IteratorOptions) (maxSeq : Z) (s : source) (cache : option C)
    : option (result read_error (option record) * source * option C) :=
  match fuel with
  | O => None
  | S fuel =>
      '(ok, s, cache) ← sh_next s cache;
      if (ok : bool) then
        let rec := sh_record s in
        if Seq rec >? maxSeq then advance_loop fuel o maxSeq s cache
        else if beforeStart o (Key rec) then advance_loop fuel o maxSeq s cache
        else if atOrPastEnd o (Key rec) then Some (Ok None, s, cache)
        else Some (Ok (Some rec), s, cache)
      else Some (match sh_err s with Some e => Err e | None => Ok None end, s, cache)
  end.

Definition advanceSource (fuel : nat) (i : nat) (it : Iterator) (cache : option C)
    : option (option read_error * Iterator * option C) :=
  s ← i_sources it !! i;
  '(r, s, cache) ← advance_loop fuel (i_opts it) (i_maxSeq it) s cache;
  let it := set_source i s it in
  match r with
  | Err e => Some (Some e, it, cache)
  | Ok None => Some (None, it, cache)
  | Ok (Some rec) => h ← heap_Push mergeHeap_Less (mkItem rec i) (i_heap it); Some (None, set_heap h it, cache)
  end.

(** The loop of [resolveNextKey] over the further items of the key. *)
Fixpoint resolve_loop (n fuel : nat) (key : bytes) (best : record) (it : Iterator) (cache : option C)
    : option (result read_error record * Iterator * option C) :=
  match n with
  | O => None
  | S n =>
      match i_heap it with
      | [] => Some (Ok best, it, cache)
      | top :: _ =>
          if key_eqb (Key (irec top)) key then
            '(x, h) ← heap_Pop mergeHeap_Less (i_heap it);
            let best := if Seq (irec x) >? Seq best then irec x else best in
            '(err, it, cache) ← advanceSource fuel (isrc x) (set_heap h it) cache;
            match err with
            | Some e => Some (Err e, it, cache)
            | None => resolve_loop n fuel key best it cache
            end
          else Some (Ok best, it, cache)
      end
  end.

Definition resolveNextKey (n fuel : nat) (it : Iterator) (cache : option C)
    : option (result read_error record * Iterator * option C) :=
  '(x, h) ← heap_Pop mergeHeap_Less (i_heap it);
  '(err, it, cache) ← advanceSource fuel (isrc x) (set_heap h it) cache;
  match err with
  | Some e => Some (Err e, it, cache)
  | None => resolve_loop n fuel (Key (irec x)) (irec x) it cache
  end.

(** [for it.heap.Len() > 0 { ... }] *)
Fixpoint iter_loop (k n fuel : nat) (it : Iterator) (cache : option C) : option (bool * Iterator * option C) :=
  match k with
  | O => None
  | S k =>
      if (length (i_heap it) =? 0)%nat then Some (false, it, cache)
      else
        '(r, it, cache) ← resolveNextKey n fuel it cache;
        match r with
        | Err e => Some (false, set_err e it, cache)
        | Ok best => if rDeleted best then iter_loop k n fuel it cache
                     else Some (true, set_current best it, cache)
        end
  end.

(** [fuel] bounds every loop: it exceeds the number of records of the
    sources. *)
Definition Iterator_Next (fuel : nat) (it : Iterator) (cache : option C) : option (bool * Iterator * option C) :=
  if i_closed it || bool_decide (is_Some (i_err it)) then Some (false, it, cache)
  else iter_loop fuel fuel fuel it cache.

(** ** Creation *)

(** [db.immutableMemtables[i].MemTable.Iterator()], in the order given. *)
Fixpoint memtable_sources (heap : list MemTable) (imms : list immutable) : option (list source) :=
  match imms with
  | [] => Some []
  | imm :: imms =>
      mt ← heap !! im_table imm;
      it ← MemTable_Iterator mt;
      rest ← memtable_sources heap imms;
      Some (SrcMemtable it :: rest)
  end.

(** [db.sstables[i].Iterator()], in the order given, with the handles whose
    metadata this loaded. *)
Fixpoint table_sources (d : fs) (hs : list handle) (cache : option C) : result db_error (list source) * list handle :=
  match hs with
  | [] => (Ok [], [])
  | h :: hs =>
      match d !! Path (h_meta h) with
      | None => (Err ErrOS, h :: hs)
      | Some file =>
          match Iterator_ file (h_sst h) cache with
          | Err e => (Err (ErrTable e), h :: hs)
          | Ok it =>
              let h := mkHandle (h_meta h) (ti_sst it) in
              match table_sources d hs cache with
              | (Err e, hs) => (Err e, h :: hs)
              | (Ok rest, hs) => (Ok (SrcTable it :: rest), h :: hs)
              end
          end
      end
  end.

(** [for i := range it.sources { seek; advance }] *)
Fixpoint prime_sources (fuel : nat) (todo : nat) (i : nat) (it : Iterator) (cache : option C)
    : option (option read_error * Iterator * option C) :=
  match todo with
  | O => Some (None, it, cache)
  | S todo =>
      s ← i_sources it !! i;
      '(err, s, cache) ← (if negb (key_eqb (Start (i_opts it)) []) then source_seek (Start (i_opts it)) s cache
                          else Some (None, s, cache));
      let it := set_source i s it in
      match err with
      | Some e => Some (Some e, it, cache)
      | None =>
          '(err, it, cache) ← advanceSource fuel i it cache;
          match err with
          | Some e => Some (Some e, it, cache)
          | None => prime_sources fuel todo (S i) it cache
          end
      end
  end.

Definition newIteratorLocked (fuel : nat) (o : IteratorOptions) (maxSeq : Z) (db : DB)
    : option (result db_error Iterator * DB) :=
  mt ← memtables db !! memtable db;
  snap ← MemTable_SnapshotIterator mt;
  mems ← memtable_sources (memtables db) (reverse (immutableMemtables db));
  let '(r, hs) := table_sources (dir db) (reverse (sstables db)) (blockCache db) in
  let db := set_sstables (reverse hs) db in
  match r with
  | Err err => Some (Err err, db)
  | Ok tables =>
      let sources := SrcSnapshot snap :: mems ++ tables in
      let it := mkIter o maxSeq sources [] zero_record None false false in
      '(err, it, cache) ← prime_sources fuel (length sources) 0 it (blockCache db);
      let db := set_blockCache cache db in
      match err with
      | Some e => Some (Err (ErrTable e), db)
      | None =>
          Some (Ok (mkIter o maxSeq (i_sources it) (i_heap it) (i_current it) None false true),
                registerReaderLocked maxSeq db)
      end
  end.

Definition DB_NewIterator (fuel : nat) (o : IteratorOptions) (db : DB) : option (result db_error Iterator * DB) :=
  if closed db then Some (Err ErrClosed, db)
  else match (_ ← validateKey db (Start o); validateKey db (End_ o)) with
       | Err err => Some (Err err, db)
       | Ok _ => newIteratorLocked fuel o (currentSequenceLocked db) db
       end.

Definition DB_ScanPrefix (fuel : nat) (prefix : bytes) (db : DB) : option (result db_error Iterator * DB) :=
  DB_NewIterator fuel (mkIterOptions prefix (PrefixEnd prefix)) db.

Definition Snapshot_NewIterator (fuel : nat) (s : Snapshot) (o : IteratorOptions) (db : DB)
    : option (result db_error Iterator * DB) :=
  if sn_closed s then Some (Err ErrSnapshotClosed, db)
  else if closed db then Some (Err ErrClosed, db)
  else match (_ ← validateKey db (Start o); validateKey db (End_ o)) with
       | Err err => Some (Err err, db)
       | Ok _ => newIteratorLocked fuel o (sn_sequence s) db
       end.

Definition Snapshot_ScanPrefix (fuel : nat) (s : Snapshot) (prefix : bytes) (db : DB)
    : option (result db_error Iterator * DB) :=
  Snapshot_NewIterator fuel s (mkIterOptions prefix (PrefixEnd prefix)) db.

(** Closing the files of the sources has no effect on the state. *)
Definition Iterator_Close (it : Iterator) (db : DB) : Iterator * DB :=
  if i_closed it then (it, db)
  else
    let db := if i_registered it then unregisterReaderLocked (i_maxSeq it) db else db in
    (mkIter (i_opts it) (i_maxSeq it) (i_sources it) (i_heap it) (i_current it) (i_err it) true false, db).

End iterator.
