(* ===== verification/DbInv.v ===== *)
(** * The invariant of the database

    The ghost state of a database - the records of every memtable and table,
    and the history of all writes - and the invariant that ties it to the
    concrete state: every memtable represents its records, every handle is a
    table on disk with its identifier, the cache holds blocks of known tables
    only, newer layers hold newer versions, and reads at the sequence numbers
    that are still readable answer what the history answers. *)

From S2P Require Import Float64 Bloom BlockCache Wal MemTableClaims.
From S2P Require Export CompactionClaims TableFits History DbState Db.

(** ** Ghost state *)

Definition t_records (d : disk) : list record := strip_batch <$> d_records d.

Record ghost := mkGhost {
  g_mem : list record;              (** the active memtable *)
  g_imms : list (list record);      (** the immutable ones, oldest first *)
  g_tables : list (Z * disk);       (** the tables with their levels *)
  g_all : list disk;                (** all tables there ever were *)
  g_hist : list record;             (** all writes, newest first *)
}.

Definition g_disks (g : ghost) : list (list record) := (fun t => t_records t.2) <$> g_tables g.

(** All stored records, in the order in which [getAt] looks at them. *)
Definition g_records (g : ghost) : list record :=
  g_mem g ++ concat (reverse (g_imms g)) ++ concat (reverse (g_disks g)).

(** ** The parts of the invariant *)

(** Every version in [l] is newer than the versions of its key in [l']. *)
Definition above (l l' : list record) : Prop :=
  forall x y, x ∈ l -> y ∈ l' -> Key x = Key y -> Seq y < Seq x.

Definition apart_keys (l l' : list record) : Prop := forall x y, x ∈ l -> y ∈ l' -> Key x <> Key y.

Definition imm_ok (heap : list MemTable) (active : nat) (imm : immutable) (l : list record) : Prop :=
  im_table imm <> active /\ exists mt, heap !! im_table imm = Some mt /\ vt_repr mt l.

Record mem_ok (heap : list MemTable) (active : nat) (imms : list immutable) (g : ghost) : Prop := mkMemOk {
  mo_active : exists mt, heap !! active = Some mt /\ vt_repr mt (g_mem g);
  mo_imms : Forall2 (imm_ok heap active) imms (g_imms g);
}.

(** The order of the layers. *)
Record order_ok (g : ghost) : Prop := mkOrderOk {
  oo_mems : StronglySorted (fun old new => above new old) (g_imms g ++ [g_mem g]);
  oo_tables : forall l t, l ∈ g_imms g ++ [g_mem g] -> t ∈ g_tables g -> above l (t_records t.2);
  oo_levels : forall t t', t ∈ g_tables g -> t' ∈ g_tables g -> t.1 < t'.1 -> above (t_records t.2) (t_records t'.2);
  oo_apart : forall t t', t ∈ g_tables g -> t' ∈ g_tables g -> t.1 = t'.1 -> 1 <= t.1 -> d_id t.2 <> d_id t'.2 ->
    apart_keys (t_records t.2) (t_records t'.2);
}.

Record hist_ok (next : Z) (hist : list record) : Prop := mkHistOk {
  ho_wf : Forall (fun r => wf_record r /\ strip_batch r = r) hist;
  ho_seq : Forall (fun r => Seq r < next) hist;
  ho_nodup : NoDup (Seq <$> hist);
}.

(** The sequence numbers at which reads are preserved. *)
Definition readable (oldest : option Z) (next : Z) (maxSeq : Z) : Prop :=
  match oldest with Some o => o <= maxSeq | None => next <= maxSeq + 1 end.

Section inv.
Context {lz : LZ4Codec} {laws : LZ4Laws} {C : Type} `{!Cache C}.
Context (Hash128 : bytes -> Z * Z) (math_Log : float64 -> float64) (conv : float64 -> Z).
Local Abbreviation DB := (DB C).

(** The contents of the cache: blocks of known tables. *)
Definition knows (all : list disk) (key : BlockCache.Key) (b : bytes) : Prop :=
  TableID key ∈ d_id <$> all /\ disks_allow all key b.

(** The name of a table. *)
Definition named (id : Z) (path : bytes) : Prop := path = data_path id \/ path = compact_path id.

(** [h] is the handle of the table [t] in the directory. *)
Record table_ok (d : fs) (h : handle) (t : Z * disk) : Prop := mkTableOk {
  to_disk : disk_ok Hash128 t.2;
  to_id : h_ID h = d_id t.2;
  to_level : Level (h_meta h) = t.1;
  to_range : 0 <= t.1 <= HighestSupportedLevel;
  to_sst : h_sst h = loaded (d_filter t.2) (d_blocks t.2) (d_id t.2) \/ h_sst h = fresh_table (d_id t.2);
  to_file : d !! Path (h_meta h) = Some (d_file t.2);
  to_path : named (d_id t.2) (Path (h_meta h));
  to_keys : forall r, r ∈ d_records t.2 -> (SmallestKey (h_meta h) <= Key r)%key /\ (Key r <= LargestKey (h_meta h))%key;
}.

Record ids_ok (next : Z) (g : ghost) : Prop := mkIdsOk {
  io_all : NoDup (d_id <$> g_all g);
  io_next : Forall (fun d => 0 <= d_id d < next) (g_all g);
  io_live : forall t, t ∈ g_tables g -> t.2 ∈ g_all g;
  io_nodup : NoDup ((fun t => d_id t.2) <$> g_tables g);
  io_u64 : is_u64 next;
}.

Record inv (db : DB) (g : ghost) : Prop := mkInv {
  inv_mem : mem_ok (memtables db) (memtable db) (immutableMemtables db) g;
  inv_tables : Forall2 (table_ok (dir db)) (sstables db) (g_tables g);
  inv_meta : h_meta <$> sstables db = SSTables (manifest db);
  inv_ids : ids_ok (NextSSTableID (manifest db)) g;
  inv_cache : cache_ok (knows (g_all g)) (blockCache db);
  inv_order : order_ok g;
  inv_hist : hist_ok (nextSeq db) (g_hist g);
  inv_sub : g_records g ⊆+ g_hist g;
  inv_seq : 1 <= nextSeq db <= u64_max;
  inv_readers : forall s c, activeReaders db !! s = Some c -> 0 < c /\ 0 <= s < nextSeq db;
  inv_reads : forall key maxSeq, readable (oldestReaderLocked db) (nextSeq db) maxSeq ->
    read_at (g_records g) key maxSeq = read_at (g_hist g) key maxSeq;
  inv_segs : 0 <= NextWALSegmentID (manifest db) /\ forall id, NextWALSegmentID (manifest db) < id -> is_u64 id ->
    dir db !! SegmentPath id = None;
  inv_limits : MaxKeyBytes (limits db) <= MaxKeySize /\ MaxValueBytes (limits db) <= MaxValueSize;
}.

(** ** Consequences *)

Lemma inv_in_hist db g r : inv db g -> r ∈ g_records g -> r ∈ g_hist g.
Proof. intros Hi Hr. eapply elem_of_submseteq; [exact Hr | apply (inv_sub _ _ Hi)]. Qed.

Lemma hist_uniq next hist : hist_ok next hist -> uniq hist.
Proof. intros H. apply uniq_NoDup, H. Qed.

Lemma inv_uniq db g : inv db g -> uniq (g_records g).
Proof.
  intros Hi. eapply uniq_sub; [apply (hist_uniq _ _ (inv_hist _ _ Hi)) |]. intros r. by apply inv_in_hist with db.
Qed.

Lemma elem_of_g_records g r :
  r ∈ g_records g <-> (exists l, l ∈ g_imms g ++ [g_mem g] /\ r ∈ l) \/ (exists t, t ∈ g_tables g /\ r ∈ t_records t.2).
Proof.
  unfold g_records, g_disks. rewrite !elem_of_app, !list_elem_of_In, !in_concat. setoid_rewrite <- list_elem_of_In.
  setoid_rewrite elem_of_reverse. setoid_rewrite elem_of_app. setoid_rewrite list_elem_of_singleton.
  split.
  - intros [H | [(l & Hl & H) | (l & (t & -> & Ht)%list_elem_of_fmap & H)]]; eauto.
  - intros [(l & [Hl | ->] & H) | (t & Ht & H)]; eauto. do 2 right. exists (t_records t.2). split; [| done].
    apply list_elem_of_fmap. eauto.
Qed.

Lemma knows_in all d : NoDup (d_id <$> all) -> d ∈ all -> disk_ok Hash128 d -> disk_in (knows all) d.
Proof.
  intros Hnd Hd Hok i recs p e b Hi He. pose proof (disk_allowed Hash128 all d Hnd Hd Hok i recs p e b Hi He) as Hal.
  unfold knows. rewrite Hal. split; [by intros [_ ?] |]. intros Hb. split; [| done]. simpl. apply list_elem_of_fmap. eauto.
Qed.

Lemma knows_cons all d key b : d_id d ∉ d_id <$> all -> knows all key b -> knows (d :: all) key b.
Proof.
  intros Hid [H1 H2]. split; [by right |]. intros d' [-> | Hd']%elem_of_cons; [| by apply H2].
  intros i recs p e _ _ ->. simpl in H1. done.
Qed.

Lemma cache_ok_impl (P Q : BlockCache.Key -> bytes -> Prop) (c : option C) :
  (forall k b, P k b -> Q k b) -> cache_ok P c -> cache_ok Q c.
Proof. intros HPQ. destruct c as [c|]; [| done]. intros [H1 H2]. split; [done |]. eauto. Qed.

(** Other files of the directory may change. *)
Lemma inv_set_dir db g d :
  inv db g -> (forall h, h ∈ sstables db -> d !! Path (h_meta h) = dir db !! Path (h_meta h)) ->
  (forall id, NextWALSegmentID (manifest db) < id -> is_u64 id -> d !! SegmentPath id = None) ->
  inv (set_dir d db) g.
Proof.
  intros Hi Hp Hs. destruct Hi. constructor; simpl; try done.
  - apply Forall2_same_length_lookup in inv_tables0 as [Hl Ht]. apply Forall2_same_length_lookup. split; [done |].
    intros i h t Hh Htt. destruct (Ht i h t Hh Htt). constructor; try done.
    rewrite Hp; [done | by eapply list_elem_of_lookup_2].
  - split; [by destruct inv_segs0 | done].
Qed.

(** The name of a live table. *)
Lemma inv_named db g h :
  inv db g -> h ∈ sstables db -> named (h_ID h) (Path (h_meta h)) /\ 0 <= h_ID h < NextSSTableID (manifest db) /\
    exists t, t ∈ g_tables g /\ table_ok (dir db) h t.
Proof.
  intros Hi [i Hh]%list_elem_of_lookup. destruct (Forall2_lookup_l _ _ _ _ _ (inv_tables _ _ Hi) Hh) as (t & Ht & Hok).
  assert (Htin : t ∈ g_tables g) by (by eapply list_elem_of_lookup_2).
  rewrite (to_id _ _ _ Hok). split; [apply (to_path _ _ _ Hok) |]. split; [| by eauto].
  destruct (inv_ids _ _ Hi) as [_ Hn Hl _ _]. rewrite Forall_forall in Hn. apply Hn, Hl, Htin.
Qed.

Lemma named_not_segment id path n : named id path -> path <> SegmentPath n.
Proof. destruct (names_apart n id) as (H1 & H2 & _). intros [-> | ->]; congruence. Qed.

(** ** A flush in progress *)

(** The file of the identifier [id] that a flush has taken, written from the
    records [l]. *)
Record created (d : fs) (l : list record) (meta : SSTableMetadata) (t : disk) : Prop := mkCreated {
  cr_disk : disk_ok Hash128 t;
  cr_id : d_id t = ID meta;
  cr_level : Level meta = L0;
  cr_path : Path meta = data_path (ID meta);
  cr_file : d !! Path meta = Some (d_file t);
  cr_records : t_records t = l;
  cr_keys : forall r, r ∈ d_records t -> (SmallestKey meta <= Key r)%key /\ (Key r <= LargestKey meta)%key;
}.

(** An identifier that was handed out and is not used by a table. *)
Definition reserved (db : DB) (g : ghost) (id : Z) : Prop :=
  0 <= id < NextSSTableID (manifest db) /\ id ∉ d_id <$> g_all g.

(** A new immutable memtable comes with a signal, and no signal is lost. *)
Definition wakes (db db' : DB) : Prop :=
  flushSignal db' = false -> flushSignal db = false /\ immutableMemtables db' = immutableMemtables db.

(** What other operations may do while a flush is in progress. *)
Record undisturbed (db : DB) (g : ghost) (db' : DB) (g' : ghost) : Prop := mkUndisturbed {
  un_ids : forall id, reserved db g id -> reserved db' g' id /\ dir db' !! data_path id = dir db !! data_path id;
  un_imms : exists imms, immutableMemtables db' = immutableMemtables db ++ imms;
  un_ghost : exists ls, g_imms g' = g_imms g ++ ls;
  un_wake : wakes db db';
  un_all : forall t, t ∈ g_all g -> t ∈ g_all g';
}.

Lemma undisturbed_refl db g : undisturbed db g db g.
Proof. constructor; [done | exists []; by rewrite app_nil_r | exists []; by rewrite app_nil_r | done | done]. Qed.

Lemma undisturbed_trans db g db' g' db2 g2 :
  undisturbed db g db' g' -> undisturbed db' g' db2 g2 -> undisturbed db g db2 g2.
Proof.
  intros [U1 [i1 U2] [l1 U3] U4 U5] [V1 [i2 V2] [l2 V3] V4 V5]. constructor.
  - intros id Hid. destruct (U1 id Hid) as [H1 H2]. destruct (V1 id H1) as [H3 H4]. split; [done | congruence].
  - exists (i1 ++ i2). by rewrite V2, U2, app_assoc.
  - exists (l1 ++ l2). by rewrite V3, U3, app_assoc.
  - intros Hf. destruct (V4 Hf) as [Hf' ->]. by apply U4.
  - intros t Ht. by apply V5, U5.
Qed.

(** Enough for operations that leave the tables alone. *)
Lemma undisturbed_same db g db' g' :
  g_all g' = g_all g -> NextSSTableID (manifest db') = NextSSTableID (manifest db) ->
  (forall id, dir db' !! data_path id = dir db !! data_path id) ->
  (exists imms, immutableMemtables db' = immutableMemtables db ++ imms) -> (exists ls, g_imms g' = g_imms g ++ ls) ->
  wakes db db' -> undisturbed db g db' g'.
Proof. intros Ha Hn Hd Hi Hl Hw. constructor; [| done | done | done | by rewrite Ha]. intros id Hid. unfold reserved. by rewrite Ha, Hn. Qed.

End inv.
