(* ===== verification/DbReads.v ===== *)
(** * Reading the database

    [getAt] answers the abstract read of the stored records: it considers the
    active memtable, the immutable ones and the tables, each of which answers
    with its newest version, and keeps the newest of those. *)

From S2P Require Import Float64 Bloom BlockCache Wal MemTableClaims.
From S2P Require Export DbInv.

Lemma consider_opt_assoc a b c : consider_opt (consider_opt a b) c = consider_opt a (consider_opt b c).
Proof.
  destruct b as [b|], c as [c|]; try done. cbn [consider_opt].
  pose proof (foldl_consider_opt [b; c] a) as H. cbn [foldl] in H. exact H.
Qed.

Lemma Forall2_reverse {A B} (P : A -> B -> Prop) l k : Forall2 P l k -> Forall2 P (reverse l) (reverse k).
Proof.
  induction 1; [constructor |]. rewrite !reverse_cons. by apply Forall2_app; [| constructor; [| constructor]].
Qed.

Section reads.
Context {lz : LZ4Codec} {laws : LZ4Laws} {C : Type} `{!Cache C}.
Context (Hash128 : bytes -> Z * Z).
Local Abbreviation DB := (DB C).
Local Abbreviation inv := (inv Hash128).
Local Abbreviation table_ok := (table_ok Hash128).

Lemma get_memtables_ok heap active imms ls key maxSeq best :
  Forall2 (imm_ok heap active) imms ls ->
  get_memtables heap key maxSeq imms best = Some (consider_opt best (newest key maxSeq (concat ls))).
Proof.
  intros H. revert best. induction H as [|imm l imms ls (_ & mt & Hm & Hr) _ IH]; intros best; [done |].
  cbn [get_memtables concat]. rewrite Hm. cbn [mbind option_bind].
  rewrite (vt_getAt_ok mt l key maxSeq Hr : MemTable_GetAt mt key maxSeq = _). cbn [mbind option_bind].
  by rewrite IH, newest_app, consider_opt_assoc.
Qed.

(** A lookup in one table. *)
Lemma table_get d all h t key maxSeq (cache : option C) :
  table_ok d h t -> t.2 ∈ all -> NoDup (d_id <$> all) -> cache_ok (knows all) cache ->
  exists s cache', GetRecordAt Hash128 (d_file t.2) key maxSeq (h_sst h) cache =
      Some (Ok (newest key maxSeq (t_records t.2)), s, cache') /\
    cache_ok (knows all) cache' /\ table_ok d (mkHandle (h_meta h) s) t.
Proof.
  intros [T1 T2 T3 T4 T5 T6 T7 T8] Hin Hnd Hc. pose proof (knows_in Hash128 all t.2 Hnd Hin T1) as Hal.
  destruct (GetRecordAt_od Hash128 _ _ _ _ _ _ T1 (knows all) (d_id t.2) Hal key maxSeq (h_sst h) cache) as (c' & E & Hc');
    [destruct T5 as [-> | ->]; [by left | right; unfold fresh_table; eauto] | done |].
  eexists _, c'. split; [exact E |]. split; [done |]. constructor; simpl; auto.
Qed.

Lemma get_tables_ok d all hs ts key maxSeq (cache : option C) best :
  Forall2 (table_ok d) hs ts -> (forall t, t ∈ ts -> t.2 ∈ all) -> NoDup (d_id <$> all) -> cache_ok (knows all) cache ->
  exists hs' cache', get_tables Hash128 d key maxSeq hs cache best =
      Some (Ok (consider_opt best (newest key maxSeq (concat ((fun t => t_records t.2) <$> ts)))), hs', cache') /\
    Forall2 (table_ok d) hs' ts /\ h_meta <$> hs' = h_meta <$> hs /\ cache_ok (knows all) cache'.
Proof.
  intros H Hall Hnd. revert cache best. induction H as [|h t hs ts Ht Hts IH]; intros cache best Hc;
    [exists [], cache; done |].
  cbn [get_tables]. rewrite (to_file _ _ _ _ Ht).
  destruct (table_get d all h t key maxSeq cache Ht (Hall t ltac:(by left)) Hnd Hc) as (s & c1 & -> & Hc1 & Hs).
  cbn [mbind option_bind]. cbn zeta.
  destruct (IH ltac:(intros t' Ht'; apply Hall; by right) c1 (consider_opt best (newest key maxSeq (t_records t.2))) Hc1)
    as (hs' & c2 & -> & Hh & Hm & Hc2).
  cbn [mbind option_bind]. exists (mkHandle (h_meta h) s :: hs'), c2. split; [| split; [by constructor |]].
  - do 4 f_equal. rewrite fmap_cons. cbn [concat]. by rewrite newest_app, consider_opt_assoc.
  - split; [| done]. rewrite !fmap_cons, Hm. done.
Qed.

Lemma getAt_inv key maxSeq (db : DB) g :
  inv db g ->
  exists hs cache, getAt Hash128 key maxSeq db =
      Some (reply (read_at (g_records g) key maxSeq), set_sstables hs (set_blockCache cache db)) /\
    inv (set_sstables hs (set_blockCache cache db)) g.
Proof.
  intros Hi. destruct (inv_mem _ _ _ Hi) as [(mt & Hm & Hr) Himm].
  unfold getAt. rewrite Hm. cbn [mbind option_bind].
  rewrite (vt_getAt_ok mt _ key maxSeq Hr : MemTable_GetAt mt key maxSeq = _). cbn [mbind option_bind].
  rewrite (get_memtables_ok _ _ _ _ key maxSeq _ (Forall2_reverse _ _ _ Himm)). cbn [mbind option_bind].
  destruct (inv_ids _ _ _ Hi) as [I1 I2 I3 I4 I5].
  destruct (get_tables_ok (dir db) (g_all g) (reverse (sstables db)) (reverse (g_tables g)) key maxSeq (blockCache db)
    (consider_opt (consider_opt None (newest key maxSeq (g_mem g))) (newest key maxSeq (concat (reverse (g_imms g))))))
    as (hs & c & -> & Hh & Hmeta & Hc);
    [apply Forall2_reverse, (inv_tables _ _ _ Hi) | intros t Ht; apply I3; by rewrite <- elem_of_reverse | done | apply (inv_cache _ _ _ Hi) |].
  cbn [mbind option_bind]. exists (reverse hs), c. split.
  - do 2 f_equal. rewrite fmap_reverse. fold (g_disks g). unfold read_at, g_records. rewrite !newest_app, consider_opt_assoc.
    replace (consider_opt None (newest key maxSeq (g_mem g))) with (newest key maxSeq (g_mem g)) by (by destruct (newest _ _ _)).
    destruct (consider_opt _ _) as [r|]; [| done]. simpl. by destruct (rDeleted r).
  - destruct Hi. constructor; simpl; try done.
    + rewrite <- (reverse_involutive (g_tables g)). by apply Forall2_reverse.
    + rewrite fmap_reverse, Hmeta, fmap_reverse, reverse_involutive. done.
Qed.

End reads.
