(* ===== verification/DbWrites.v ===== *)
(** * Writing to the database

    Every acknowledged write adds its records to the history and keeps the
    invariant: through the log, the memtable and the rotation of a full
    memtable. *)

From S2P Require Import Float64 Bloom BlockCache Wal MemTableClaims SkipListRefine.
From S2P Require Export DbInv.

(** ** The memtable as a set *)

Lemma list_put_fresh rec l :
  Forall (fun x => same_version x rec = false) l -> list_put rec l ≡ₚ rec :: l.
Proof.
  induction 1 as [|x l Hx _ IH]; [done |]. cbn [list_put]. destruct (less x rec).
  - rewrite IH. constructor.
  - by rewrite Hx.
Qed.

(** The ghost state after a write. *)
Definition g_write (rec : record) (g : ghost) : ghost :=
  mkGhost (list_put rec (g_mem g)) (g_imms g) (g_tables g) (g_all g) (rec :: g_hist g).

Definition g_rotate (g : ghost) : ghost :=
  mkGhost [] (g_imms g ++ [g_mem g]) (g_tables g) (g_all g) (g_hist g).

Lemma g_records_rotate g : g_records (g_rotate g) = g_records g.
Proof. unfold g_records, g_rotate, g_disks. simpl. rewrite reverse_snoc. cbn [concat]. by rewrite <- app_assoc. Qed.

Section writes.
Context {lz : LZ4Codec} {laws : LZ4Laws} {C : Type} `{!Cache C}.
Context (Hash128 : bytes -> Z * Z).
Local Abbreviation DB := (DB C).
Local Abbreviation inv := (inv Hash128).

(** ** The memtable *)

(** A record that may be written next. *)
Definition fresh_record (next : Z) (rec : record) : Prop :=
  wf_record rec /\ strip_batch rec = rec /\ next <= Seq rec < u64_max.

Lemma g_write_perm (db : DB) g rec :
  inv db g -> fresh_record (nextSeq db) rec -> g_records (g_write rec g) ≡ₚ rec :: g_records g.
Proof.
  intros Hi (_ & _ & Hs). unfold g_records, g_write, g_disks. simpl.
  rewrite list_put_fresh; [done |]. apply Forall_forall. intros x Hx. unfold same_version.
  apply andb_false_iff. right. apply Z.eqb_neq.
  assert (Hin : x ∈ g_hist g) by (apply (inv_in_hist _ _ _ _ Hi); apply elem_of_app; by left).
  pose proof (ho_seq _ _ (inv_hist _ _ _ Hi)) as Hlt. rewrite Forall_forall in Hlt. specialize (Hlt x Hin). lia.
Qed.

Lemma above_put (db : DB) g rec l :
  inv db g -> fresh_record (nextSeq db) rec -> (forall x, x ∈ l -> x ∈ g_hist g) -> above (g_mem g) l ->
  above (list_put rec (g_mem g)) l.
Proof.
  intros Hi (_ & _ & Hs) Hl Hab x y Hx Hy Hk. destruct (inv_mem _ _ _ Hi) as [(mt & _ & Hr) _].
  apply (elem_of_list_put _ _ _ (vt_sorted mt _ Hr)) in Hx as [-> | [Hx _]]; [| by apply Hab].
  pose proof (ho_seq _ _ (inv_hist _ _ _ Hi)) as Hlt. rewrite Forall_forall in Hlt. specialize (Hlt y (Hl y Hy)). lia.
Qed.

Lemma order_write (db : DB) g rec :
  inv db g -> fresh_record (nextSeq db) rec -> order_ok (g_write rec g).
Proof.
  intros Hi Hf. pose proof (inv_order _ _ _ Hi) as [O1 O2 O3 O4].
  assert (Hin : forall r, r ∈ g_records g -> r ∈ g_hist g) by (intros r; by apply (inv_in_hist _ _ _ _ Hi)).
  constructor; simpl; try done.
  - apply StronglySorted_app in O1 as (Hx & H1 & _). apply StronglySorted_app. split; [| split; [done |]].
    + intros l l' Hl ->%list_elem_of_singleton. eapply (above_put db); try done; [| apply Hx; [done | by left]].
      intros x Hx'. apply Hin, elem_of_g_records. left. exists l. split; [| done]. apply elem_of_app. by left.
    + constructor; constructor.
  - intros l t [Hl | ->%list_elem_of_singleton]%elem_of_app Ht; [apply O2; [| done]; apply elem_of_app; by left |].
    eapply (above_put db); try done; [| apply O2; [apply elem_of_app; right; by left | done]].
    intros x Hx. apply Hin, elem_of_g_records. right. eauto.
Qed.

Lemma readable_next oldest next next' maxSeq :
  next <= next' -> readable oldest next' maxSeq -> readable oldest next maxSeq.
Proof. destruct oldest; simpl; lia. Qed.

(** [db.memtable.Put(rec)], with the sequence number it uses up. *)
Lemma memtable_put_inv rec (db : DB) g :
  inv db g -> fresh_record (nextSeq db) rec ->
  exists heap, memtable_put rec db = Some (set_memtables heap db) /\
    inv (set_nextSeq (Seq rec + 1) (set_memtables heap db)) (g_write rec g).
Proof.
  intros Hi Hf. pose proof (g_write_perm db g rec Hi Hf) as Hperm. pose proof (order_write db g rec Hi Hf) as Hord.
  destruct (inv_mem _ _ _ Hi) as [(mt & Hm & Hr) Himm].
  destruct (vt_put_ok rec mt _ Hr) as (mt' & Hput & Hr').
  unfold memtable_put. rewrite Hm. cbn [mbind option_bind]. rewrite (Hput : MemTable_Put rec mt = _). cbn [mbind option_bind].
  eexists. split; [reflexivity |]. destruct Hf as (Hwf & Hst & Hs). pose proof (inv_hist _ _ _ Hi) as [H1 H2 H3].
  assert (Hlt : Forall (fun x => Seq x < Seq rec) (g_hist g)) by (eapply Forall_impl; [exact H2 |]; simpl; lia).
  assert (Hsub : g_records (g_write rec g) ⊆+ rec :: g_hist g).
  { rewrite Hperm. apply submseteq_skip, (inv_sub _ _ _ Hi). }
  assert (Hho : hist_ok (Seq rec + 1) (rec :: g_hist g)).
  { constructor.
    - by constructor.
    - constructor; [lia |]. eapply Forall_impl; [exact Hlt |]. simpl. lia.
    - rewrite fmap_cons. constructor; [| done]. intros (x & Hx & Hxin)%list_elem_of_fmap.
      rewrite Forall_forall in Hlt. specialize (Hlt x Hxin). lia. }
  pose proof (inv_seq _ _ _ Hi) as Hsq.
  constructor; try (by destruct Hi).
  - constructor; simpl.
    + exists mt'. split; [| done]. apply list_lookup_insert_eq. by eapply lookup_lt_Some.
    + eapply Forall2_impl; [exact Himm |]. intros imm l (Hne & mt0 & Hm0 & Hr0). split; [done |]. exists mt0.
      split; [| done]. by rewrite list_lookup_insert_ne.
  - by destruct (inv_ids _ _ _ Hi).
  - simpl. lia.
  - simpl. intros s c Hc. destruct (inv_readers _ _ _ Hi s c Hc). lia.
  - simpl. intros key maxSeq Hread. unfold read_at.
    assert (Hn : newest key maxSeq (g_records (g_write rec g)) = newest key maxSeq (rec :: g_records g)).
    { apply newest_same; [eapply uniq_sub; [exact (hist_uniq _ _ Hho) |]; intros x Hx; by eapply elem_of_submseteq |].
      intros x _. by rewrite Hperm. }
    rewrite Hn, !newest_cons_fresh; [| done | apply Forall_forall; intros x Hx; rewrite Forall_forall in Hlt; apply Hlt;
      by apply (inv_in_hist _ _ _ _ Hi)].
    destruct (decide _); [done |]. apply (inv_reads _ _ _ Hi). eapply readable_next; [| exact Hread]. lia.
Qed.

(** ** Rotation *)

(** What concerns clients is unchanged. *)
Definition same_client (db db' : DB) : Prop :=
  limits db' = limits db /\ nextSeq db' = nextSeq db /\ closed db' = closed db /\
  activeReaders db' = activeReaders db /\ sstableWriteOptions db' = sstableWriteOptions db.

Local Abbreviation undisturbed := (undisturbed (C := C)).

Lemma order_rotate g : order_ok g -> order_ok (g_rotate g).
Proof.
  intros [O1 O2 O3 O4]. constructor; simpl; try done.
  - apply StronglySorted_app. split; [| split; [done |]].
    + intros l l' _ ->%list_elem_of_singleton x y Hx. by apply elem_of_nil in Hx.
    + constructor; constructor.
  - intros l t [Hl | ->%list_elem_of_singleton]%elem_of_app Ht; [by apply O2 |]. intros x y Hx. by apply elem_of_nil in Hx.
Qed.

Lemma NewSegmentInDir_new (e : env) (id : Z) (d : fs) :
  e_segment e = None -> d !! SegmentPath id = None ->
  NewSegmentInDir e id d = (Ok tt, <[SegmentPath id := writeWALHeader]> d).
Proof. intros He Hd. unfold NewSegmentInDir. by rewrite He, Hd. Qed.

Lemma rotateMemtable_inv (e : env) (db : DB) g :
  inv db g -> closed db = false -> e_segment e = None -> e_close e = false -> NextWALSegmentID (manifest db) < u64_max ->
  exists db', rotateMemtable e db = Some (Ok tt, db') /\ inv db' (g_rotate g) /\
    same_client db db' /\ undisturbed db g db' (g_rotate g).
Proof.
  intros Hi Hcl He Hc Hw. unfold rotateMemtable. destruct (inv_segs _ _ _ Hi) as [Hs0 Hsegs].
  cbn [set_nextWAL set_manifest set_allocated set_immutableMemtables manifest NextWALSegmentID dir walID allocated memtable].
  rewrite u64_id by (unfold is_u64; lia).
  rewrite NewSegmentInDir_new by (done || apply Hsegs; unfold is_u64; lia).
  destruct (vt_new_ok (T := MemTable) (e_seed e)) as (mt & Hnew & Hr). rewrite (Hnew : MemTable_New _ = _).
  cbn [mbind option_bind]. rewrite Hc. unfold signalFlush. cbn [closed set_walID set_memTableSize set_memtables set_memtable set_dir set_nextWAL set_manifest set_allocated set_immutableMemtables].
  rewrite Hcl. cbn [mbind option_bind]. eexists. split; [reflexivity |]. split.
  2: { split; [done |]. apply undisturbed_same; try done; simpl; [| by eauto | by eauto].
       intros id. apply lookup_insert_ne. apply names_apart. }
  destruct (inv_mem _ _ _ Hi) as [(mt0 & Hm & Hr0) Himm]. pose proof (lookup_lt_Some _ _ _ Hm) as Hlt.
  constructor; try (by destruct Hi); simpl.
  - constructor; simpl.
    + exists mt. split; [| done]. apply list_lookup_middle. done.
    + apply Forall2_app.
      * eapply Forall2_impl; [exact Himm |]. intros imm l (Hne & mt1 & Hm1 & Hr1). pose proof (lookup_lt_Some _ _ _ Hm1).
        split; [lia |]. exists mt1. split; [by rewrite lookup_app_l | done].
      * constructor; [| constructor]. split; simpl; [lia |]. exists mt0. split; [by rewrite lookup_app_l | done].
  - apply Forall2_same_length_lookup. split; [apply (Forall2_length _ _ _ (inv_tables _ _ _ Hi)) |].
    intros i h t Hh Ht. pose proof (Forall2_lookup_lr _ _ _ _ _ _ (inv_tables _ _ _ Hi) Hh Ht) as Hok.
    destruct Hok. constructor; try done. rewrite lookup_insert_ne; [done |].
    intros Heq. by eapply named_not_segment.
  - by destruct (inv_ids _ _ _ Hi).
  - apply order_rotate. by destruct Hi.
  - rewrite g_records_rotate. by destruct Hi.
  - intros key maxSeq Hread. rewrite g_records_rotate. by apply (inv_reads _ _ _ Hi).
  - split; [lia |]. intros id Hid Hu. rewrite lookup_insert_ne; [apply Hsegs; [lia | done] |].
    intros Heq%SegmentPath_inj; [lia | unfold is_u64; lia | done].
Qed.

Lemma mild_true (e : env) : mild e = true -> e_segment e = None /\ e_close e = false.
Proof. unfold mild. rewrite andb_true_iff, bool_decide_eq_true, negb_true_iff. done. Qed.

Lemma maybe_rotate_inv (e : env) (db : DB) g :
  inv db g -> closed db = false -> mild e = true -> NextWALSegmentID (manifest db) < u64_max ->
  exists db' g', maybe_rotate e db = Some (Ok tt, db') /\ inv db' g' /\ g_hist g' = g_hist g /\
    same_client db db' /\ undisturbed db g db' g'.
Proof.
  intros Hi Hcl [He Hc]%mild_true Hw. unfold maybe_rotate. destruct (_ >=? _).
  - destruct (rotateMemtable_inv e db g Hi Hcl He Hc Hw) as (db' & E & Hi' & Hs & Hu).
    by exists db', (g_rotate g).
  - exists db, g. split; [done |]. split; [done |]. split; [done |]. split; [by repeat split | apply undisturbed_refl].
Qed.

(** ** The log *)

(** Whatever happens to the log, only its file changes. *)
Lemma wal_write_inv (e : env) w (db : DB) g :
  inv db g -> exists d, snd (wal_write e w db) = set_dir d db /\ inv (set_dir d db) g /\
    forall id, d !! data_path id = dir db !! data_path id.
Proof.
  intros Hi. unfold wal_write. set (path := SegmentPath (walID db)).
  destruct (w (default [] (dir db !! path))) as [err f]. destruct (match e_append e with Some _ => _ | None => _ end) as [r f'].
  cbn [snd]. destruct (dir db !! path) as [f0|] eqn:E.
  - exists (<[path := f']> (dir db)). split; [done |].
    split; [| intros id; apply lookup_insert_ne, names_apart]. apply inv_set_dir; [done | |].
    + intros h Hh. destruct (inv_named _ _ _ _ Hi Hh) as (Hn & _ & _). rewrite lookup_insert_ne; [done |].
      intros Heq. by apply (named_not_segment _ _ (walID db) Hn).
    + intros id Hid Hu. destruct (inv_segs _ _ _ Hi) as [_ Hs]. rewrite lookup_insert_ne; [by apply Hs |].
      intros Heq. rewrite Heq, Hs in E; done.
  - exists (dir db). split; [by destruct db |]. split; [by destruct db | done].
Qed.

Lemma wal_write_ok (e : env) w (db : DB) file' :
  w (default [] (dir db !! SegmentPath (walID db))) = (None, file') ->
  fst (wal_write e w db) = Ok tt \/ (is_Some (e_append e) /\ fst (wal_write e w db) = Err ErrOS).
Proof.
  intros Hw. unfold wal_write. rewrite Hw. destruct (e_append e) as [n|]; [| by left].
  destruct (_ <? _)%nat; [right | left]; by eauto.
Qed.

(** A write that the operating system refused: only the file of the log may
    have changed. *)
Definition refused (e : env) (sync : bool) (out : option (result db_error unit * DB)) (db : DB) (g : ghost) : Prop :=
  (is_Some (e_append e) \/ sync && e_sync e = true) /\
  exists d, out = Some (Err ErrOS, set_dir d db) /\ inv (set_dir d db) g /\ undisturbed db g (set_dir d db) g.

Lemma refused_intro (e : env) sync (db : DB) g d :
  inv (set_dir d db) g -> (forall id, d !! data_path id = dir db !! data_path id) ->
  is_Some (e_append e) \/ sync && e_sync e = true -> refused e sync (Some (Err ErrOS, set_dir d db)) db g.
Proof.
  intros Hi Hd He. split; [done |]. exists d. split; [done |]. split; [done |].
  apply undisturbed_same; try done; exists []; by rewrite app_nil_r.
Qed.

(** ** The operations *)

Lemma memtable_put_seq rec n (db : DB) : memtable_put rec (set_nextSeq n db) = set_nextSeq n <$> memtable_put rec db.
Proof.
  unfold memtable_put. cbn [memtables memtable set_nextSeq]. destruct (memtables db !! memtable db) as [mt|]; [| done].
  cbn [mbind option_bind]. by destruct (MemTable_Put rec mt).
Qed.

Lemma inv_bump (db : DB) g n : inv db g -> nextSeq db <= n <= u64_max -> inv (set_nextSeq n db) g.
Proof.
  intros Hi Hn. constructor; try (by destruct Hi); simpl.
  - destruct (inv_hist _ _ _ Hi) as [H1 H2 H3]. constructor; [done | | done]. eapply Forall_impl; [exact H2 |]. simpl. lia.
  - pose proof (inv_seq _ _ _ Hi). lia.
  - intros s c Hc. destruct (inv_readers _ _ _ Hi s c Hc). lia.
  - intros key maxSeq Hr. apply (inv_reads _ _ _ Hi). eapply readable_next; [| exact Hr]. lia.
Qed.

Lemma write_one_inv (e : env) rec (db : DB) g :
  inv db g -> closed db = false -> mild e = true -> fresh_record (nextSeq db) rec -> Seq rec = nextSeq db ->
  NextWALSegmentID (manifest db) < u64_max ->
  refused e false (write_one e rec db) db g \/
  exists db' g', write_one e rec db = Some (Ok tt, db') /\ inv db' g' /\ g_hist g' = rec :: g_hist g /\
    same_client (set_nextSeq (nextSeq db + 1) db) db' /\ undisturbed db g db' g'.
Proof.
  intros Hi Hcl Hm Hf Hs Hw. unfold write_one.
  pose proof (wal_write_ok e (WriteRecord rec) db _ ltac:(unfold WriteRecord; rewrite frame_wf by apply Hf; done)) as Hok.
  destruct (wal_write_inv e (WriteRecord rec) db g Hi) as (d & E & Hi1 & Hd).
  destruct (wal_write e (WriteRecord rec) db) as [r db1]. simpl in Hok, E. subst db1.
  destruct Hok as [-> | [Ha ->]]; [right | left; by apply refused_intro; [| | left]].
  destruct (memtable_put_inv rec (set_dir d db) g Hi1 Hf) as (heap & E2 & Hi2).
  assert (Hu : u64 (nextSeq db + 1) = Seq rec + 1).
  { rewrite u64_id, Hs; [done |]. destruct Hf as (_ & _ & Hr). pose proof (inv_seq _ _ _ Hi). unfold is_u64. lia. }
  cbn [nextSeq set_dir]. rewrite Hu.
  rewrite memtable_put_seq, E2. cbn [mbind option_bind fmap option_fmap option_map].
  match goal with |- context [maybe_rotate e ?x] => set (db2 := x) end.
  assert (Hi3 : inv db2 (g_write rec g)) by (by destruct Hi2).
  destruct (maybe_rotate_inv e db2 (g_write rec g) Hi3 Hcl Hm Hw) as (db' & g' & E4 & Hi' & Hh & Hsc & Hun).
  exists db', g'. split; [exact E4 |]. split; [done |]. split; [by rewrite Hh |]. split; [by rewrite <- Hs |].
  eapply undisturbed_trans; [| exact Hun].
  apply undisturbed_same; try done; exists []; by rewrite app_nil_r.
Qed.

(** ** Batches *)

(** The limits that [Batch_Put] and [Batch_Delete] enforce. *)
Definition op_ok (op : batch_op) : Prop := len (op_Key op) <= MaxKeySize /\ len (op_Value op) <= MaxValueSize.

Lemma batch_writes_wf ops n :
  Forall op_ok ops -> 0 <= n -> n + len ops <= u64_max -> Forall wf_record (batch_writes n ops).
Proof.
  intros Hops. revert n. induction Hops as [|op ops [H1 H2] _ IH]; intros n Hn Hlen; [constructor |].
  rewrite len_cons in Hlen. pose proof (len_nonneg ops). cbn [batch_writes]. constructor; [| apply IH; lia].
  unfold wf_record, rValue. rec_simpl. rewrite u64_id by (unfold is_u64; lia). unfold is_u64, BatchNone, BatchCommit, u64_max in *. split_and!; lia || done.
Qed.

Lemma len_batch_writes ops n : len (batch_writes n ops) = len ops.
Proof. revert n. induction ops as [|op ops IH]; intros n; [done |]. cbn [batch_writes]. by rewrite !len_cons, IH. Qed.

(** Putting consecutive records, with the counter advanced afterwards. *)
Lemma memtable_puts_inv ops n (db : DB) g :
  Forall op_ok ops -> inv (set_nextSeq n db) g -> n + len ops <= u64_max ->
  exists heap size g', memtable_puts (batch_writes n ops) db = Some (set_memTableSize size (set_memtables heap db)) /\
    inv (set_nextSeq (n + len ops) (set_memtables heap db)) g' /\ g_hist g' = reverse (batch_writes n ops) ++ g_hist g /\
    g_imms g' = g_imms g /\ g_all g' = g_all g.
Proof.
  intros Hops. revert n db g. induction Hops as [|op ops Hop Hops IH]; intros n db g Hi Hlen.
  - exists (memtables db), (memTableSize db), g. replace (n + len []) with n by (unfold len; simpl; lia). by destruct db.
  - rewrite len_cons in Hlen. pose proof (len_nonneg ops). cbn [batch_writes memtable_puts].
    set (rec := mkRecord _ _ _ _ _). pose proof (inv_seq _ _ _ Hi) as Hsq. simpl in Hsq.
    assert (Hseq : Seq rec = n) by (unfold rec; rec_simpl; apply u64_id; unfold is_u64; lia).
    assert (Hf : fresh_record n rec).
    { pose proof (batch_writes_wf [op] n ltac:(by apply Forall_singleton) ltac:(lia)) as Hw.
      rewrite len_cons in Hw. specialize (Hw ltac:(unfold len; simpl; lia)). apply Forall_cons in Hw as [Hw _].
      split; [exact Hw |]. split; [done |]. lia. }
    destruct (memtable_put_inv rec (set_nextSeq n db) g Hi Hf) as (heap & E & Hi1). rewrite Hseq in Hi1.
    rewrite memtable_put_seq in E. destruct (memtable_put rec db) as [db1|] eqn:E1; [| done].
    assert (db1 = set_memtables heap db) as ->.
    { unfold memtable_put in E1. destruct (memtables db !! memtable db); [| done]. cbn [mbind option_bind] in E1.
      destruct (MemTable_Put rec m); [| done]. cbn [mbind option_bind] in E1. apply Some_inj in E1. subst db1.
      cbn in E. apply Some_inj, (f_equal memtables) in E. simpl in E. by rewrite E. }
    cbn [mbind option_bind].
    destruct (IH (n + 1) (set_memTableSize (memTableSize (set_memtables heap db) + 1) (set_memtables heap db)) (g_write rec g))
      as (heap' & size & g' & E2 & Hi2 & Hh & Hg1 & Hg2); [by destruct Hi1 | lia |].
    exists heap', size, g'. split; [exact E2 |]. split.
    + replace (n + len (op :: ops)) with (n + 1 + len ops) by (rewrite len_cons; lia). by destruct Hi2.
    + split; [by rewrite Hh, reverse_cons, <- app_assoc | done].
Qed.

(** The sequence number after a batch. *)
Definition after_batch (n : Z) (ops : list batch_op) : Z := if len ops =? 0 then n + 1 else n + len ops.

Lemma applyBatch_inv (e : env) ops sync (db : DB) g :
  inv db g -> closed db = false -> mild e = true -> Forall op_ok ops -> after_batch (nextSeq db) ops <= u64_max ->
  NextWALSegmentID (manifest db) < u64_max ->
  refused e sync (applyBatch e ops sync db) db g \/
  exists db' g', applyBatch e ops sync db = Some (Ok tt, db') /\ inv db' g' /\
    g_hist g' = reverse (batch_writes (nextSeq db) ops) ++ g_hist g /\
    same_client (set_nextSeq (after_batch (nextSeq db) ops) db) db' /\ undisturbed db g db' g'.
Proof.
  intros Hi Hcl Hm Hops Hn Hw. unfold applyBatch. rewrite Hcl. pose proof (inv_seq _ _ _ Hi) as Hsq.
  assert (Hlen : nextSeq db + len ops <= u64_max) by (unfold after_batch in Hn; destruct (Z.eqb_spec (len ops) 0); lia).
  set (recs := batch_writes (nextSeq db) ops).
  pose proof (batch_writes_wf ops (nextSeq db) Hops ltac:(lia) Hlen) as Hwf. fold recs in Hwf.
  pose proof (wal_write_ok e (WriteBatch (nextSeq db) recs) db _
    (WriteRecords_wf _ _ (wf_batch_records (nextSeq db) recs ltac:(unfold is_u64; lia) Hwf))) as Hok.
  destruct (wal_write_inv e (WriteBatch (nextSeq db) recs) db g Hi) as (d & E & Hi1 & Hd).
  destruct (wal_write e _ db) as [r db1]. simpl in Hok, E. subst db1.
  destruct Hok as [-> | [Ha ->]]; [| left; by apply refused_intro; [| | left]]. bind_step.
  destruct (sync && e_sync e) eqn:Hsync; [left; by apply refused_intro; [| | right] | right].
  rewrite (guard_err_false (E := db_error) ErrOS false) by done.
  destruct (memtable_puts_inv ops (nextSeq db) (set_dir d db) g Hops) as (heap & size & g1 & E1 & Hi2 & Hh & Hg1 & Hg2); [| done |].
  { by destruct Hi1. }
  fold recs in E1, Hh. rewrite E1. cbn [mbind option_bind].
  rewrite !(len_batch_writes ops (nextSeq db) : len recs = len ops).
  match goal with |- context [maybe_rotate e ?x] => set (db2 := x) end.
  assert (Hi3 : inv db2 g1 /\ same_client (set_nextSeq (after_batch (nextSeq db) ops) db) db2 /\
    NextWALSegmentID (manifest db2) = NextWALSegmentID (manifest db) /\ undisturbed db g db2 g1).
  { unfold db2, after_batch in *. cbn [nextSeq set_memTableSize set_memtables set_dir set_nextSeq].
    rewrite (u64_id (nextSeq db + len ops)) by (pose proof (len_nonneg ops); unfold is_u64; lia).
    destruct (Z.eqb_spec (len ops) 0) as [H0 | H0].
    - rewrite H0, Z.add_0_r in *. rewrite u64_id by (unfold is_u64; lia).
      split; [| split; [done |]; split; [done |]; apply undisturbed_same; try done; exists []; by rewrite app_nil_r].
      pose proof (inv_bump _ _ (nextSeq db + 1) Hi2) as Hb. simpl in Hb. destruct (Hb ltac:(lia)). constructor; done.
    - split; [by destruct Hi2 |]. split; [done |]. split; [done |].
      apply undisturbed_same; try done; exists []; by rewrite app_nil_r. }
  destruct Hi3 as (Hi3 & Hsc & Hnw & Hu1).
  destruct (maybe_rotate_inv e db2 g1 Hi3 ltac:(by destruct Hsc as (_ & _ & -> & _)) Hm ltac:(by rewrite Hnw)) as (db' & g' & E4 & Hi' & Hh' & Hsc' & Hu2).
  exists db', g'. split; [exact E4 |]. split; [done |]. split; [by rewrite Hh' |].
  split; [| by eapply undisturbed_trans].
  destruct Hsc as (A1 & A2 & A3 & A4 & A5), Hsc' as (B1 & B2 & B3 & B4 & B5). repeat split; congruence.
Qed.

End writes.
