(* ===== verification/DbFlush.v ===== *)
(** * Flushing memtables

    The phases of a flush keep the invariant, whatever other operations run in
    between: the table is written from the oldest immutable memtable, and
    publication moves its records from that memtable to a table of level 0.  A
    flush that fails gives its identifier back, which is safe when nothing else
    has taken one since. *)

From S2P Require Import Float64 Bloom BlockCache Wal MemTableClaims SkipListRefine.
From S2P Require Export DbInv DbWrites.

(** Only the manifest and its temporary file change. *)
Lemma Write_frame (o : os_faults) (m : option Manifest) (d : fs) (p : bytes) :
  p <> manifest_path -> p <> tmp_path manifest_path -> snd (Write o manifest_path m d) !! p = d !! p.
Proof.
  intros H1 H2. rewrite Write_eq. destruct (Manifest.encode m) as [data|err]; [| done]. cbv zeta.
  repeat case_match; cbn [snd]; rewrite ?lookup_delete_ne, ?lookup_insert_ne, ?lookup_delete_ne, ?lookup_insert_ne by congruence; done.
Qed.

(** The ghost state when the oldest immutable memtable has become a table. *)
Definition g_flush (t : disk) (g : ghost) : ghost :=
  mkGhost (g_mem g) (tail (g_imms g)) (g_tables g ++ [(L0, t)]) (t :: g_all g) (g_hist g).

Lemma g_flush_perm t g l ls :
  g_imms g = l :: ls -> t_records t = l -> g_records (g_flush t g) ≡ₚ g_records g.
Proof.
  intros Hg <-. unfold g_records, g_disks, g_flush. cbn [g_mem g_imms g_tables tail]. rewrite Hg. cbn [tail].
  rewrite fmap_app, reverse_app, reverse_cons, concat_app. cbn.
  rewrite app_nil_r, concat_app. cbn. by rewrite app_nil_r, <- app_assoc.
Qed.

Lemma order_flush t g l ls :
  order_ok g -> (forall u, u ∈ g_tables g -> 0 <= u.1) -> g_imms g = l :: ls -> t_records t = l -> order_ok (g_flush t g).
Proof.
  intros [O1 O2 O3 O4] Hlev Hg <-. rewrite Hg in O1, O2. cbn [app] in O1. apply StronglySorted_cons_iff in O1 as [O1 Hab].
  constructor; unfold g_flush; rewrite Hg; cbn [tail g_imms g_mem g_tables].
  - done.
  - intros l' u Hl [Hu | ->%list_elem_of_singleton]%elem_of_app.
    + apply O2; [by right | done].
    + apply Hab, Hl.
  - intros u u' [Hu | ->%list_elem_of_singleton]%elem_of_app [Hu' | ->%list_elem_of_singleton]%elem_of_app Hlt; simpl in *.
    + by apply O3.
    + specialize (Hlev u Hu). unfold L0 in Hlt. lia.
    + apply (O2 (t_records t) u'); [by left | done].
    + lia.
  - intros u u' [Hu | ->%list_elem_of_singleton]%elem_of_app [Hu' | ->%list_elem_of_singleton]%elem_of_app Heq H1 Hne;
      simpl in *; unfold L0 in *; try lia. by apply O4.
Qed.

Section flush.
Context {lz : LZ4Codec} {laws : LZ4Laws} {C : Type} `{!Cache C}.
Context (Hash128 : bytes -> Z * Z) (math_Log : float64 -> float64) (conv : float64 -> Z).
Local Abbreviation DB := (DB C).
Local Abbreviation inv := (inv Hash128).
Local Abbreviation created := (created Hash128).

Lemma named_manifest id path : named id path -> path <> manifest_path /\ path <> tmp_path manifest_path.
Proof.
  destruct (names_apart 0 id) as (_ & _ & _ & _ & H1 & H2 & _ & H3 & H4). intros [-> | ->]; done.
Qed.

Lemma segment_manifest id : SegmentPath id <> manifest_path /\ SegmentPath id <> tmp_path manifest_path.
Proof. destruct (names_apart id 0) as (_ & _ & _ & H1 & _ & _ & H2 & _). done. Qed.

(** Writing the manifest. *)
Lemma inv_Write o m (db : DB) g : inv db g -> inv (set_dir (snd (Write o manifest_path m (dir db))) db) g.
Proof.
  intros Hi. apply inv_set_dir; [done | |].
  - intros h Hh. destruct (inv_named _ _ _ _ Hi Hh) as (Hn & _ & _). apply named_manifest in Hn as []. by apply Write_frame.
  - intros id Hid Hu. destruct (segment_manifest id). rewrite Write_frame by done. by apply (inv_segs _ _ _ Hi).
Qed.

(** The path of an identifier without a table is not that of a live table. *)
Lemma reserved_path (db : DB) g id h :
  inv db g -> reserved db g id -> h ∈ sstables db -> Path (h_meta h) <> data_path id.
Proof.
  intros Hi [Hid Hni] Hh. destruct (inv_named _ _ _ _ Hi Hh) as (Hn & Hr & t & Ht & Hok).
  pose proof (io_u64 _ _ (inv_ids _ _ _ Hi)) as Hu. unfold is_u64 in Hu.
  destruct Hn as [-> | ->]; [| intros Heq; by apply (proj1 (proj2 (proj2 (names_apart id (h_ID h)))))].
  intros Heq%data_path_inj; [| unfold is_u64; lia | unfold is_u64; lia]. apply Hni. rewrite <- Heq, (to_id _ _ _ _ Hok).
  apply list_elem_of_fmap. exists t.2. split; [done |]. by apply (io_live _ _ (inv_ids _ _ _ Hi)).
Qed.

(** The file of a reserved identifier may change. *)
Lemma inv_reserved_file (db : DB) g id f :
  inv db g -> reserved db g id ->
  inv (set_dir (<[data_path id := f]> (dir db)) db) g /\ inv (set_dir (delete (data_path id) (dir db)) db) g.
Proof.
  intros Hi Hr. split; apply inv_set_dir; try done.
  1, 3: intros h Hh; pose proof (reserved_path db g id h Hi Hr Hh);
    rewrite ?lookup_insert_ne, ?lookup_delete_ne by congruence; done.
  all: intros n Hn Hu; destruct (names_apart n id) as (Hne & _);
    rewrite ?lookup_insert_ne, ?lookup_delete_ne by congruence; by apply (inv_segs _ _ _ Hi).
Qed.

(** Handing out the next identifier, and giving one back. *)
Lemma inv_nextID (db : DB) g n :
  inv db g -> is_u64 n -> Forall (fun d => d_id d < n) (g_all g) -> inv (set_nextID n db) g.
Proof.
  intros Hi Hu Hall. constructor; try (by destruct Hi). simpl. destruct (inv_ids _ _ _ Hi) as [I1 I2 I3 I4 I5].
  constructor; try done. rewrite Forall_forall in I2, Hall |- *. intros d Hd. specialize (I2 d Hd). specialize (Hall d Hd). lia.
Qed.

Lemma flush_begin_inv (db : DB) g :
  inv db g -> NextSSTableID (manifest db) < u64_max ->
  let '(id, db') := flush_begin db in
  inv db' g /\ reserved db' g id /\ same_client db db' /\ NextSSTableID (manifest db') = id + 1 /\
  dir db' = dir db /\ immutableMemtables db' = immutableMemtables db /\
  NextWALSegmentID (manifest db') = NextWALSegmentID (manifest db).
Proof.
  intros Hi Hn. unfold flush_begin. destruct (inv_ids _ _ _ Hi) as [I1 I2 I3 I4 I5]. unfold is_u64 in I5.
  rewrite u64_id by (unfold is_u64; lia). split; [| split; [| done]].
  - apply inv_nextID; [done | unfold is_u64; lia |]. eapply Forall_impl; [exact I2 |]. simpl. lia.
  - split; [simpl; lia |]. intros (d & Heq & Hd)%list_elem_of_fmap. rewrite Forall_forall in I2. specialize (I2 d Hd). lia.
Qed.

(** ** Writing the table *)

Lemma key_count_range l : 0 <= key_count l <= len l.
Proof.
  unfold key_count. split; [apply len_nonneg |].
  replace (len l) with (len (Key <$> l)) by (unfold len; by rewrite length_fmap).
  induction (Key <$> l) as [|k ks IH]; [done |]. cbn [remove_dups]. rewrite len_cons. case_decide; [lia |]. rewrite len_cons. lia.
Qed.

Lemma memtable_disk mt l opts n :
  vt_repr mt l -> Forall wf_record l -> within_budget l -> sizing_fits math_Log conv n opts -> len l <= n ->
  exists r, CreateFromMemTableWithOptions Hash128 math_Log conv mt opts = Some r /\
    forall meta file, r = Ok (meta, file) -> exists opts' flt bs, on_disk Hash128 opts' l flt bs meta file.
Proof.
  intros Hr Hwf Hb Hsz Hn. unfold CreateFromMemTableWithOptions.
  destruct (MemTable_Iterator_yields mt l Hr) as (it & -> & Hy). cbn [mbind option_bind].
  pose proof (repr_arena_length _ _ Hr) as Hlen. pose proof (key_count_range l) as Hk.
  rewrite (vt_len_ok mt l Hr : MemTable_Len mt = _).
  destruct (create_spec Hash128 math_Log conv _ it l (key_count l) opts Hy Hlen
    (sizing_fits_ok math_Log conv n (key_count l) opts ltac:(lia) Hsz)) as (r & E & _).
  exists r. split; [exact E |]. intros meta file ->.
  apply (create_on_disk Hash128 math_Log conv _ it l (key_count l) opts meta file Hy Hlen Hwf); [| done |].
  - apply (sizing_fits_ok math_Log conv n); [lia | done].
  - by apply (create_fits Hash128 math_Log conv _ it l n (key_count l) opts meta file Hy Hlen Hb ltac:(lia) Hsz).
Qed.

Lemma layout_keys opts l flt bs meta file r :
  on_disk Hash128 opts l flt bs meta file -> r ∈ l -> (tm_SmallestKey meta <= Key r)%key /\ (Key r <= tm_LargestKey meta)%key.
Proof.
  intros [[_ _ _ _ _ _ Lf Ll] _ _ Hs _ _ _] Hr. destruct l as [|x l]; [by apply elem_of_nil in Hr |].
  rewrite (Lf x eq_refl). split.
  - apply rec_le_key. by apply (wsorted_head_le x l).
  - destruct (last (x :: l)) as [y|] eqn:Ey; [| by apply last_None in Ey]. rewrite (Ll y eq_refl).
    apply last_Some in Ey as [k Ek]. rewrite Ek in Hs, Hr. apply StronglySorted_app in Hs as (Hx & _ & _).
    apply elem_of_app in Hr as [Hr | ->%list_elem_of_singleton]; [apply rec_le_key, Hx; [done | by left] |].
    apply key_le_lteq. by right.
Qed.

(** A created table waits for publication. *)
Lemma flush_create_inv (e : env) (n : Z) imm imms id (db : DB) g l ls :
  inv db g -> immutableMemtables db = imm :: imms -> g_imms g = l :: ls -> reserved db g id ->
  within_budget (g_hist g) -> sizing_fits math_Log conv n (sstableWriteOptions db) -> len (g_hist g) <= n ->
  exists r db', flush_create Hash128 math_Log conv e imm id db = Some (r, db') /\ same_client db db' /\
    match r with
    | Ok meta => ID meta = id /\ inv db' g /\ (exists t, created (dir db') l meta t) /\
        manifest db' = manifest db /\ immutableMemtables db' = immutableMemtables db
    | Err _ => (NextSSTableID (manifest db) = id + 1 -> inv db' g) /\ immutableMemtables db' = immutableMemtables db /\
        NextSSTableID (manifest db') = id /\ NextWALSegmentID (manifest db') = NextWALSegmentID (manifest db)
    end.
Proof.
  intros Hi Himm Hg Hr Hb Hsz Hn. unfold flush_create.
  destruct (inv_mem _ _ _ Hi) as [_ Hms]. rewrite Himm, Hg in Hms. apply Forall2_cons in Hms as [(_ & mt & Hm & Hrep) _].
  rewrite Hm. cbn [mbind option_bind].
  assert (Hsub : l ⊆+ g_hist g).
  { transitivity (g_records g); [| apply (inv_sub _ _ _ Hi)]. unfold g_records. rewrite Hg, reverse_cons, concat_app. cbn [concat].
    rewrite app_nil_r. apply submseteq_inserts_l. rewrite <- app_assoc. apply submseteq_inserts_l, submseteq_inserts_r. done. }
  assert (Hwf : Forall wf_record l).
  { apply Forall_forall. intros r Hin. pose proof (ho_wf _ _ (inv_hist _ _ _ Hi)) as Hw. rewrite Forall_forall in Hw.
    apply Hw. by eapply elem_of_submseteq. }
  destruct (memtable_disk mt l (sstableWriteOptions db) n Hrep Hwf (within_budget_submseteq _ _ Hsub Hb) Hsz)
    as (r & E & Hd); [apply submseteq_length in Hsub; unfold len in *; lia |].
  rewrite E. cbn [mbind option_bind].
  assert (Hback : forall d, inv (set_dir d db) g -> NextSSTableID (manifest db) = id + 1 -> inv (set_nextID id (set_dir d db)) g).
  { intros d Hid Hnext. destruct Hr as [Hrange Hni]. pose proof (inv_ids _ _ _ Hi) as [I1 I2 I3 I4 I5]. unfold is_u64 in I5.
    apply inv_nextID; [done | unfold is_u64; lia |]. rewrite Forall_forall in I2 |- *. intros d0 Hd0. specialize (I2 d0 Hd0).
    assert (d_id d0 <> id) by (intros Heq; apply Hni, list_elem_of_fmap; eauto). lia. }
  assert (Hsd : db = set_dir (dir db) db) by (by destruct db).
  destruct r as [[meta file]|err].
  2: { eexists _, _. split; [reflexivity |]. split; [done |]. split; [| done]. apply (Hback (dir db)). by rewrite <- Hsd. }
  destruct (Hd meta file eq_refl) as (opts' & flt & bs & Hod).
  destruct (inv_reserved_file db g id file Hi Hr) as [Hins _]. unfold install.
  destruct (e_create e) as [[]|].
  - eexists _, _. split; [reflexivity |]. split; [done |]. split; [| done]. apply (Hback (dir db)). by rewrite <- Hsd.
  - eexists _, _. split; [reflexivity |]. split; [done |]. split; [| done]. by apply Hback.
  - eexists _, _. split; [reflexivity |]. split; [done |]. split; [done |]. split; [done |]. split; [| done].
    exists (mkDisk opts' l flt bs meta file id false). constructor; simpl; try done.
    + apply lookup_insert_eq.
    + unfold t_records. simpl. rewrite <- (list_fmap_id l) at 2. apply list_fmap_ext. intros i x Hx.
      pose proof (ho_wf _ _ (inv_hist _ _ _ Hi)) as Hw. rewrite Forall_forall in Hw. apply Hw.
      eapply elem_of_submseteq; [| exact Hsub]. by eapply list_elem_of_lookup_2.
    + intros r Hin. by eapply layout_keys.
Qed.

(** ** Publication *)

Lemma inv_levels (db : DB) g t : inv db g -> t ∈ g_tables g -> 0 <= t.1 <= HighestSupportedLevel.
Proof.
  intros Hi [i Ht]%list_elem_of_lookup. destruct (Forall2_lookup_r _ _ _ _ _ (inv_tables _ _ _ Hi) Ht) as (h & _ & Hok).
  apply (to_range _ _ _ _ Hok).
Qed.

(** The database with the new table. *)
Lemma inv_published (db : DB) g d imms imm meta l ls t :
  inv db g -> immutableMemtables db = imm :: imms -> g_imms g = l :: ls -> reserved db g (ID meta) -> created (dir db) l meta t ->
  (forall p, p <> manifest_path -> p <> tmp_path manifest_path -> d !! p = dir db !! p) ->
  inv (set_immutableMemtables imms (set_dir d (set_tables (SSTables (manifest db) ++ [meta])
        (set_sstables (sstables db ++ [newSSTable meta]) db)))) (g_flush t g).
Proof.
  intros Hi Himm Hg [Hrange Hni] Hcr Hd. destruct Hcr as [C1 C2 C3 C4 C5 C6 C7].
  pose proof (g_flush_perm t g l ls Hg C6) as Hperm. pose proof (inv_ids _ _ _ Hi) as [I1 I2 I3 I4 I5].
  assert (Hni' : d_id t ∉ d_id <$> g_all g) by (by rewrite C2).
  assert (Hnamed : forall id path, named id path -> d !! path = dir db !! path).
  { intros id path Hn. apply named_manifest in Hn as []. by apply Hd. }
  constructor; try (by destruct Hi); simpl.
  - destruct (inv_mem _ _ _ Hi) as [M1 M2]. constructor; [done |]. simpl. rewrite Hg. rewrite Himm, Hg in M2.
    by apply Forall2_cons in M2 as [_ M2].
  - apply Forall2_app.
    + eapply Forall2_impl; [apply (inv_tables _ _ _ Hi) |]. intros h u [T1 T2 T3 T4 T5 T6 T7 T8]. constructor; try done.
      by rewrite (Hnamed _ _ T7).
    + constructor; [| constructor]. constructor; simpl; try done.
      * right. by rewrite C2.
      * rewrite (Hnamed (ID meta)); [done | by left].
      * rewrite C2. by left.
  - rewrite fmap_app, (inv_meta _ _ _ Hi). done.
  - constructor; simpl; try done.
    + constructor; done.
    + constructor; [by rewrite C2 | done].
    + intros u [Hu | ->%list_elem_of_singleton]%elem_of_app; [right; by apply I3 | by left].
    + rewrite fmap_app. apply NoDup_app. split; [done |]. split; [| apply NoDup_singleton].
      intros x (u & -> & Hu)%list_elem_of_fmap Hx%list_elem_of_singleton. simpl in Hx. apply Hni'. rewrite <- Hx.
      apply list_elem_of_fmap. exists u.2. split; [done | by apply I3].
  - eapply cache_ok_impl; [| apply (inv_cache _ _ _ Hi)]. intros k b. by apply knows_cons.
  - eapply order_flush; try done; [apply (inv_order _ _ _ Hi) |]. intros u Hu. by apply (inv_levels db g u Hi Hu).
  - rewrite Hperm. apply (inv_sub _ _ _ Hi).
  - intros key maxSeq Hread. unfold read_at. rewrite (newest_same key maxSeq _ (g_records g)).
    + by apply (inv_reads _ _ _ Hi).
    + eapply uniq_sub; [apply (inv_uniq _ _ _ Hi) |]. intros x. by rewrite Hperm.
    + intros x _. by rewrite Hperm.
  - destruct (inv_segs _ _ _ Hi) as [S1 S2]. split; [done |]. intros id Hid Hu. destruct (segment_manifest id).
    rewrite Hd by done. by apply S2.
Qed.

Lemma flush_publish_inv (e : env) imm imms meta (db : DB) g l ls t :
  inv db g -> immutableMemtables db = imm :: imms -> g_imms g = l :: ls -> reserved db g (ID meta) -> created (dir db) l meta t ->
  exists r db', flush_publish e imm meta db = Some (r, db') /\ same_client db db' /\
    NextWALSegmentID (manifest db') = NextWALSegmentID (manifest db) /\
    match r with
    | Err (ErrManifest _) =>
        (NextSSTableID (manifest db) = ID meta + 1 -> inv db' g) /\ immutableMemtables db' = immutableMemtables db /\
        NextSSTableID (manifest db') = ID meta
    | _ => inv db' (g_flush t g) /\ immutableMemtables db' = imms /\
        NextSSTableID (manifest db') = NextSSTableID (manifest db)
    end.
Proof.
  intros Hi Himm Hg Hr Hcr. unfold flush_publish.
  cbn [manifest set_tables set_sstables set_manifest dir SSTables NextSSTableID NextWALSegmentID].
  match goal with |- context [Write ?o ?p ?m ?d] => pose proof (Write_frame o m d) as Hframe; destruct (Write o p m d) as [err d'] end.
  cbn [snd] in Hframe. pose proof (inv_published db g d' imms imm meta l ls t Hi Himm Hg Hr Hcr Hframe) as Hpub.
  destruct err as [[err|]|].
  - eexists _, _. split; [reflexivity |]. split; [by destruct (e_remove _ _) |]. split; [by destruct (e_remove _ _) |].
    split; [| by destruct (e_remove _ _)]. intros Hnext.
    assert (Hi1 : inv (set_dir d' db) g).
    { apply inv_set_dir; [done | |].
      - intros h Hh. destruct (inv_named _ _ _ _ Hi Hh) as (Hn & _ & _). apply named_manifest in Hn as []. by apply Hframe.
      - intros id Hid Hu. destruct (segment_manifest id). rewrite Hframe by done. by apply (inv_segs _ _ _ Hi). }
    assert (Hr1 : reserved (set_dir d' db) g (ID meta)) by done.
    destruct (inv_reserved_file (set_dir d' db) g (ID meta) [] Hi1 Hr1) as [_ Hdel]. rewrite <- (cr_path _ _ _ _ _ Hcr) in Hdel.
    pose proof (inv_ids _ _ _ Hi) as [I1 I2 I3 I4 I5]. unfold is_u64 in I5. destruct Hr as [Hrange Hni].
    assert (Hall : Forall (fun d => d_id d < ID meta) (g_all g)).
    { rewrite Forall_forall in I2 |- *. intros d0 Hd0. specialize (I2 d0 Hd0).
      assert (d_id d0 <> ID meta) by (intros Heq; apply Hni, list_elem_of_fmap; eauto). lia. }
    destruct (e_remove e (Path meta)).
    + pose proof (inv_nextID _ _ (ID meta) Hi1 ltac:(unfold is_u64; lia) Hall) as Hd. by destruct Hd.
    + pose proof (inv_nextID _ _ (ID meta) Hdel ltac:(unfold is_u64; lia) Hall) as Hd. by destruct Hd.
  - eexists _, _. split; [reflexivity |]. cbn [immutableMemtables set_dir set_tables set_sstables set_manifest].
    rewrite Himm, Nat.eqb_refl. done.
  - eexists _, _. split; [reflexivity |]. cbn [immutableMemtables set_dir set_tables set_sstables set_manifest].
    rewrite Himm, Nat.eqb_refl. done.
Qed.

(** ** Afterwards *)

Lemma flush_finish_inv (e : env) imm (db : DB) g :
  inv db g -> let '(r, db') := flush_finish e imm db in inv db' g /\ same_client db db' /\
    immutableMemtables db' = immutableMemtables db /\ manifest db' = manifest db.
Proof.
  intros Hi. unfold flush_finish, RemoveSegmentInDir.
  assert (Hdel : inv (set_dir (RemoveSegment (im_walID imm) (dir db)) db) g).
  { apply inv_set_dir; [done | |].
    - intros h Hh. destruct (inv_named _ _ _ _ Hi Hh) as (Hn & _ & _). apply lookup_delete_ne.
      intros Heq. by apply (named_not_segment _ _ (im_walID imm) Hn).
    - intros id Hid Hu. unfold RemoveSegment. apply lookup_delete_None. right. by apply (inv_segs _ _ _ Hi). }
  destruct (dir db !! SegmentPath (im_walID imm)); [destruct (e_remove _ _); [| destruct (e_removeSync e)] |];
    cbn [guard_err]; (split; [first [by destruct Hdel | by destruct Hi] | done]).
Qed.

End flush.
