(* ===== verification/DbCompact.v ===== *)
(** * Compaction of the database's tables

    What a compaction plan means for the records ([planned]), and that
    replacing the planned tables by their merge keeps the order of the layers
    and every readable answer.  A tombstone may be dropped because the plan
    then reaches the highest level: everything else that holds its key is
    newer. *)

From S2P Require Import Float64 Bloom BlockCache Wal MemTableClaims SkipListRefine.
From S2P Require Export DbInv MergeRefine.

(** ** Plans *)

(** The tables of [ts] that [sel] selects are compacted from level [src]. *)
Record planned (ts : list (Z * disk)) (sel : Z * disk -> bool) (src : Z) : Prop := mkPlanned {
  pl_src : src = 0 \/ src = 1;
  pl_some : exists t, t ∈ ts /\ sel t = true;
  pl_level : forall t, t ∈ ts -> sel t = true -> t.1 = src \/ t.1 = src + 1;
  pl_zero : src = 0 -> forall t, t ∈ ts -> t.1 = 0 -> sel t = true;
  pl_apart : forall t u, t ∈ ts -> u ∈ ts -> sel t = true -> sel u = false -> t.1 = src -> u.1 = src + 1 ->
    apart_keys (t_records t.2) (t_records u.2);
  pl_ids : forall t u, t ∈ ts -> u ∈ ts -> sel t = true -> sel u = false -> d_id t.2 <> d_id u.2;
}.

(** The records of the selected and of the other tables. *)
Definition inputs_of (sel : Z * disk -> bool) (ts : list (Z * disk)) : list record :=
  concat ((fun t => t_records t.2) <$> filter (fun t => sel t = true) ts).

Lemma elem_of_inputs sel ts r : r ∈ inputs_of sel ts <-> exists t, t ∈ ts /\ sel t = true /\ r ∈ t_records t.2.
Proof.
  unfold inputs_of. rewrite list_elem_of_In, in_concat. setoid_rewrite <- list_elem_of_In. split.
  - intros (l & (t & -> & [Hs Ht]%list_elem_of_filter)%list_elem_of_fmap & Hr). eauto.
  - intros (t & Ht & Hs & Hr). exists (t_records t.2). split; [| done]. apply list_elem_of_fmap. exists t. split; [done |].
    by apply list_elem_of_filter.
Qed.

(** The ghost state after the compaction: [new] stands for the selected
    tables. *)
Definition g_compact (sel : Z * disk -> bool) (new : Z * disk) (g : ghost) : ghost :=
  mkGhost (g_mem g) (g_imms g) (replace_selected sel new false (g_tables g)) (new.2 :: g_all g) (g_hist g).

Lemma replace_selected_perm {A} (sel : A -> bool) x ins (l : list A) :
  replace_selected sel x ins l ≡ₚ
  (if ins || negb (existsb sel l) then [] else [x]) ++ filter (fun y => sel y = false) l.
Proof.
  revert ins. induction l as [|y l IH]; intros ins; cbn [replace_selected existsb]; [by rewrite orb_true_r |].
  rewrite filter_cons. destruct (sel y) eqn:Hy; cbn [orb negb].
  - rewrite decide_False by done. rewrite IH. by destruct ins.
  - rewrite decide_True by done. rewrite IH. destruct (ins || negb (existsb sel l)); [done |]. simpl. constructor.
Qed.

Section ghost.
Context (g : ghost) (sel : Z * disk -> bool) (src : Z) (new : Z * disk).
Context (Hord : order_ok g) (Hpl : planned (g_tables g) sel src).
Context (Hlev : forall t, t ∈ g_tables g -> 0 <= t.1 <= HighestSupportedLevel).
Context (Hnew : new.1 = src + 1) (Hrec : forall r, r ∈ t_records new.2 -> r ∈ inputs_of sel (g_tables g)).
Local Abbreviation g' := (g_compact sel new g).
Local Abbreviation rest := (filter (fun t => sel t = false) (g_tables g)).

Lemma g_compact_tables_perm : g_tables g' ≡ₚ new :: rest.
Proof.
  unfold g_compact. cbn [g_tables]. rewrite replace_selected_perm. simpl.
  destruct (pl_some _ _ _ Hpl) as (t & Ht & Hs).
  replace (existsb sel (g_tables g)) with true; [done |]. symmetry. apply existsb_exists. exists t. by rewrite <- list_elem_of_In.
Qed.

Lemma elem_of_g_compact t : t ∈ g_tables g' <-> t = new \/ (t ∈ g_tables g /\ sel t = false).
Proof. rewrite g_compact_tables_perm, elem_of_cons, list_elem_of_filter. naive_solver. Qed.

(** Two records of one key, one in a selected table and one elsewhere at or
    above the source level or below it. *)
Lemma selected_above t u x y :
  t ∈ g_tables g -> u ∈ g_tables g -> sel t = true -> sel u = false -> u.1 <= src ->
  x ∈ t_records t.2 -> y ∈ t_records u.2 -> Key x = Key y -> Seq x < Seq y.
Proof.
  intros Ht Hu Hst Hsu Hle Hx Hy Hk. pose proof (pl_level _ _ _ Hpl t Ht Hst) as Htl.
  destruct (Z.eq_dec u.1 t.1) as [He | Hne].
  - assert (Ht1 : t.1 = src) by lia. destruct (pl_src _ _ _ Hpl) as [Hs | Hs].
    + rewrite (pl_zero _ _ _ Hpl Hs u Hu) in Hsu by lia. done.
    + destruct (oo_apart _ Hord t u Ht Hu ltac:(lia) ltac:(lia) (pl_ids _ _ _ Hpl t u Ht Hu Hst Hsu) x y Hx Hy Hk).
  - apply (oo_levels _ Hord u t Hu Ht ltac:(lia) y x Hy Hx). done.
Qed.

Lemma selected_apart t u x y :
  t ∈ g_tables g -> u ∈ g_tables g -> sel t = true -> sel u = false -> u.1 = src + 1 ->
  x ∈ t_records t.2 -> y ∈ t_records u.2 -> Key x <> Key y.
Proof.
  intros Ht Hu Hst Hsu Hle Hx Hy. pose proof (pl_src _ _ _ Hpl) as Hsrc. destruct (pl_level _ _ _ Hpl t Ht Hst) as [Hl | Hl].
  - by apply (pl_apart _ _ _ Hpl t u Ht Hu Hst Hsu).
  - apply (oo_apart _ Hord t u Ht Hu ltac:(lia) ltac:(lia) (pl_ids _ _ _ Hpl t u Ht Hu Hst Hsu) x y Hx Hy).
Qed.

Lemma new_input r : r ∈ t_records new.2 -> exists t, t ∈ g_tables g /\ sel t = true /\ r ∈ t_records t.2.
Proof. intros Hr. by apply elem_of_inputs, Hrec. Qed.

Lemma order_compact : order_ok g'.
Proof.
  destruct Hord as [O1 O2 O3 O4]. pose proof (pl_src _ _ _ Hpl) as Hsrc. constructor.
  - done.
  - intros l t Hl [-> | [Ht _]]%elem_of_g_compact; [| by apply O2]. intros x y Hx (t & Ht & Hs & Hy)%new_input.
    by apply (O2 l t Hl Ht x y).
  - intros t u [-> | [Ht Hst]]%elem_of_g_compact [-> | [Hu Hsu]]%elem_of_g_compact Hlt; [lia | | | by apply O3].
    + intros x y (v & Hv & Hs & Hx)%new_input Hy Hk. pose proof (pl_level _ _ _ Hpl v Hv Hs).
      apply (O3 v u Hv Hu ltac:(lia) x y Hx Hy Hk).
    + intros x y Hx (v & Hv & Hs & Hy)%new_input Hk. apply (selected_above v t y x); try done. lia.
  - intros t u [-> | [Ht Hst]]%elem_of_g_compact [-> | [Hu Hsu]]%elem_of_g_compact He H1 Hne; [done | | | by apply O4].
    + intros x y (v & Hv & Hs & Hx)%new_input Hy. by apply (selected_apart v u x y Hv Hu Hs Hsu); [lia | |].
    + intros x y Hx (v & Hv & Hs & Hy)%new_input Hk. by apply (selected_apart v t y x Hv Ht Hs Hst); [lia | | |].
Qed.

(** ** Records and reads *)

Definition others : list record :=
  g_mem g ++ concat (reverse (g_imms g)) ++ concat ((fun t => t_records t.2) <$> rest).

Lemma concat_Permutation {A} (l k : list (list A)) : l ≡ₚ k -> concat l ≡ₚ concat k.
Proof. intros H. by rewrite H. Qed.

Lemma g_records_split : g_records g ≡ₚ inputs_of sel (g_tables g) ++ others.
Proof.
  unfold g_records, others, inputs_of, g_disks.
  rewrite (concat_Permutation (reverse ((fun t => t_records t.2) <$> g_tables g))
    ((fun t => t_records t.2) <$> (filter (fun t => sel t = true) (g_tables g) ++ rest))).
  - rewrite fmap_app, concat_app. solve_Permutation.
  - rewrite reverse_Permutation. apply fmap_Permutation. clear.
    induction (g_tables g) as [|t ts IH]; [done |]. rewrite !filter_cons. destruct (sel t) eqn:E.
    + rewrite decide_True, decide_False by congruence. simpl. by constructor.
    + rewrite decide_False, decide_True by congruence. rewrite <- Permutation_middle. by constructor.
Qed.

Lemma g_records_compact : g_records g' ≡ₚ t_records new.2 ++ others.
Proof.
  unfold g_records, others, g_disks. cbn [g_mem g_imms].
  rewrite (concat_Permutation (reverse ((fun t => t_records t.2) <$> g_tables g'))
    ((fun t => t_records t.2) <$> (new :: rest))).
  - rewrite fmap_cons. cbn [concat]. unfold g_compact. cbn [g_mem g_imms]. solve_Permutation.
  - rewrite reverse_Permutation. apply fmap_Permutation, g_compact_tables_perm.
Qed.

(** A record that the merge dropped as a tombstone is older than everything
    else of its key. *)
Lemma others_newer x r :
  src + 1 = HighestSupportedLevel -> x ∈ inputs_of sel (g_tables g) -> r ∈ others -> Key r = Key x -> Seq x < Seq r.
Proof.
  intros Htop (t & Ht & Hs & Hx)%elem_of_inputs Hr Hk. unfold others in Hr.
  assert (Hcase : (exists l, l ∈ g_imms g ++ [g_mem g] /\ r ∈ l) \/ exists u, u ∈ g_tables g /\ sel u = false /\ r ∈ t_records u.2).
  { rewrite !elem_of_app, !list_elem_of_In, !in_concat in Hr. setoid_rewrite <- list_elem_of_In in Hr.
    destruct Hr as [Hr | [(l & Hl & Hr) | (l & (u & -> & [Hsu Hu]%list_elem_of_filter)%list_elem_of_fmap & Hr)]].
    - left. exists (g_mem g). split; [| done]. apply elem_of_app. right. by left.
    - left. exists l. split; [| done]. apply elem_of_app. left. by apply elem_of_reverse.
    - right. eauto. }
  destruct Hcase as [(l & Hl & Hrl) | (u & Hu & Hsu & Hru)]; [by apply (oo_tables _ Hord l t Hl Ht r x) |].
  destruct (Z_le_gt_dec u.1 src).
  - by apply (selected_above t u x r).
  - specialize (Hlev u Hu). destruct (selected_apart t u x r Ht Hu Hs Hsu ltac:(lia) Hx Hru). done.
Qed.

(** The answers at the preserved sequence numbers are the same. *)
Lemma compact_reads options out key maxSeq :
  uniq (g_records g) -> wsorted out -> (forall x, x ∈ out <-> x ∈ inputs_of sel (g_tables g)) ->
  t_records new.2 = keeps options [] out -> read_bound options maxSeq out ->
  (DropTombstones options = true -> src + 1 = HighestSupportedLevel) ->
  read_at (g_records g') key maxSeq = read_at (g_records g) key maxSeq.
Proof.
  intros Hu Hs Hout Hk Hb Hdrop. set (I := inputs_of sel (g_tables g)).
  assert (HuI : uniq (I ++ others)).
  { eapply uniq_sub; [exact Hu |]. intros x. by rewrite g_records_split. }
  assert (HuK : uniq (t_records new.2 ++ others)).
  { eapply uniq_sub; [exact HuI |]. intros x [Hx | Hx]%elem_of_app; apply elem_of_app; [left; by apply Hrec | by right]. }
  assert (E1 : newest key maxSeq (g_records g) = newest key maxSeq (I ++ others)).
  { apply newest_same; [done |]. intros x _. by rewrite g_records_split. }
  assert (E2 : newest key maxSeq (g_records g') = newest key maxSeq (t_records new.2 ++ others)).
  { symmetry. apply newest_same; [done |]. intros x _. by rewrite g_records_compact. }
  assert (E3 : newest key maxSeq out = newest key maxSeq I).
  { symmetry. apply newest_same; [eapply uniq_sub; [exact HuI |]; intros x Hx; apply elem_of_app; by left |].
    intros x _. symmetry. apply Hout. }
  pose proof (keeps_newest options key maxSeq out Hs Hb) as Hkn. rewrite <- Hk, E3 in Hkn.
  change (answer (newest key maxSeq (g_records g')) = answer (newest key maxSeq (g_records g))). rewrite E1, E2.
  change (read_at (t_records new.2 ++ others) key maxSeq = read_at (I ++ others) key maxSeq).
  unfold after_drop in Hkn. destruct (newest key maxSeq I) as [t|] eqn:EI.
  2: { unfold read_at. f_equal. apply newest_replace. congruence. }
  destruct (rDeleted t && DropTombstones options && bool_decide (OldestReader options = None)) eqn:Ed.
  2: { unfold read_at. f_equal. apply newest_replace. congruence. }
  apply andb_true_iff in Ed as [[Ed1 Ed2]%andb_true_iff _].
  apply (read_dropped key maxSeq I (t_records new.2) others t EI Ed1 Hkn).
  intros x Hx Hkey. apply newest_Some in EI as (Hin & [Hkt _] & _).
  apply (others_newer t x (Hdrop Ed2) Hin Hx). congruence.
Qed.

End ghost.
