(* ===== verification/DbCompactPlan.v ===== *)
(** * From the picker to the records

    The tables that [compactLocked] selects, related to the ghost state: the
    plan of the picker is a [planned] compaction, and the handles found for its
    inputs are those of the selected tables. *)

From S2P Require Import Float64 Bloom BlockCache Wal MemTableClaims SkipListRefine.
From S2P Require Export DbInv DbCompact.

Lemma NoDup_fmap_inj_on {A B} (f : A -> B) (l : list A) x y :
  NoDup (f <$> l) -> x ∈ l -> y ∈ l -> f x = f y -> x = y.
Proof.
  intros Hnd [i Hi]%list_elem_of_lookup [j Hj]%list_elem_of_lookup Hf.
  assert (i = j) as ->; [| congruence]. eapply NoDup_lookup; [exact Hnd | |]; rewrite list_lookup_fmap; [by rewrite Hi | by rewrite Hj, Hf].
Qed.

Lemma sublist_fmap_mono {A B} (f : A -> B) (l k : list A) : sublist l k -> sublist (f <$> l) (f <$> k).
Proof. induction 1; simpl; by constructor. Qed.

Lemma NoDup_fmap_filter {A B} (f : A -> B) (P : A -> Prop) `{!forall x, Decision (P x)} (l : list A) :
  NoDup (f <$> l) -> NoDup (f <$> filter P l).
Proof. intros Hnd. eapply sublist_NoDup; [exact Hnd |]. apply sublist_fmap_mono, sublist_filter. Qed.

(** ** The picker *)

(** A table of the target level that does not join lies outside the range of
    the selected tables. *)
Lemma not_joining selected target tables t :
  t ∈ tables -> Level t = target -> t ∉ overlapping selected target tables ->
  exists lo hi, combinedRange selected = Some (lo, hi) /\ rangesOverlap lo hi (SmallestKey t) (LargestKey t) = false.
Proof.
  intros Ht Hl Hno. unfold overlapping in Hno. rewrite list_elem_of_filter in Hno.
  assert (Hj : joins (combinedRange selected) (forallb (fun t => negb (Level t =? target) || hasKeyRange t) tables) target t = false).
  { apply not_true_is_false. intros Hj. apply Hno. done. }
  unfold joins in Hj. rewrite Hl, Z.eqb_refl in Hj. cbn [andb] in Hj. destruct (combinedRange selected) as [[lo hi]|]; [| done].
  exists lo, hi. split; [done |]. by apply orb_false_iff in Hj as [_ Hj].
Qed.

Lemma overlapping_elem selected target tables t :
  t ∈ overlapping selected target tables -> t ∈ tables /\ Level t = target.
Proof.
  unfold overlapping. rewrite list_elem_of_filter. unfold joins. intros [Hj Ht]. split; [done |].
  apply andb_true_iff in Hj as [Hj _]. by apply Z.eqb_eq in Hj.
Qed.

(** What [compactLocked] chooses. *)
Lemma choose_plan_spec (d : fs) tables threshold :
  exists p, choose_plan d tables threshold = Some p /\
    forall plan, p = Some plan -> exists src selected, (src = 0 \/ src = 1) /\ TargetLevel plan = src + 1 /\
      Inputs plan = selected ++ overlapping selected (src + 1) tables /\ selected <> [] /\
      (forall t, t ∈ selected -> t ∈ tables /\ Level t = src) /\
      (src = 0 -> forall t, t ∈ tables -> Level t = 0 -> t ∈ selected) /\
      (NoDup (ID <$> tables) -> NoDup (ID <$> selected)).
Proof.
  unfold choose_plan. destruct (PickCompaction_spec (stat d) tables L0 threshold ltac:(done)) as (r & -> & Hr). cbn [mbind option_bind].
  destruct r as [plan|].
  - exists (Some plan). split; [done |]. intros plan' [= <-]. destruct (Hr plan eq_refl) as (_ & Ht & sel & Hin & Hne & Hsel).
    exists 0, sel. change (u32 (L0 + 1)) with 1 in Ht. rewrite Ht in Hin. cbn in Hsel. subst sel. split; [by left |].
    split; [done |]. split; [done |]. split; [done |]. split; [| split].
    + by intros t [Hl Htt]%list_elem_of_filter.
    + intros _ t Htt Hl. by apply list_elem_of_filter.
    + by apply NoDup_fmap_filter.
  - destruct (PickCompaction_spec (stat d) tables (L0 + 1) threshold ltac:(done)) as (r & -> & Hr'). exists r. split; [done |].
    intros plan ->. destruct (Hr' plan eq_refl) as (_ & Ht & sel & Hin & Hne & t & -> & Htt & Hl).
    exists 1, [t]. change (u32 (L0 + 1 + 1)) with 2 in Ht. rewrite Ht in Hin. split; [by right |]. split; [done |].
    split; [done |]. split; [done |]. split; [| split; [done |]].
    + by intros u ->%list_elem_of_singleton.
    + intros _. apply NoDup_singleton.
Qed.

Section plan.
Context {lz : LZ4Codec} {laws : LZ4Laws} {C : Type} `{!Cache C}.
Context (Hash128 : bytes -> Z * Z).
Local Abbreviation DB := (DB C).
Local Abbreviation inv := (inv Hash128).
Local Abbreviation table_ok := (table_ok Hash128).

(** ** Handles and tables *)

Lemma inv_handle_ids (db : DB) g : inv db g -> h_ID <$> sstables db = (fun t => d_id t.2) <$> g_tables g.
Proof.
  intros Hi. pose proof (inv_tables _ _ _ Hi) as Ht. clear Hi. induction Ht as [|h t hs ts Hok _ IH]; [done |].
  rewrite !fmap_cons, IH, (to_id _ _ _ _ Hok). done.
Qed.

Lemma inv_meta_ids (db : DB) g : inv db g -> ID <$> SSTables (manifest db) = (fun t => d_id t.2) <$> g_tables g.
Proof. intros Hi. rewrite <- (inv_meta _ _ _ Hi), <- (inv_handle_ids db g Hi), <- list_fmap_compose. done. Qed.

Lemma inv_handle_NoDup (db : DB) g : inv db g -> NoDup (h_ID <$> sstables db).
Proof. intros Hi. rewrite (inv_handle_ids db g Hi). apply (io_nodup _ _ (inv_ids _ _ _ Hi)). Qed.

Lemma inv_handle_of (db : DB) g t :
  inv db g -> t ∈ g_tables g -> exists h, h ∈ sstables db /\ table_ok (dir db) h t /\ h_meta h ∈ SSTables (manifest db).
Proof.
  intros Hi [i Ht]%list_elem_of_lookup. destruct (Forall2_lookup_r _ _ _ _ _ (inv_tables _ _ _ Hi) Ht) as (h & Hh & Hok).
  assert (h ∈ sstables db) by (by eapply list_elem_of_lookup_2). exists h. split; [done |]. split; [done |].
  rewrite <- (inv_meta _ _ _ Hi). by apply list_elem_of_fmap_2.
Qed.

(** The selection by identifier. *)
Definition selects (ids : list Z) (t : Z * disk) : bool := bool_decide (d_id t.2 ∈ ids).

Lemma selects_meta (db : DB) g ms h t :
  inv db g -> (forall m, m ∈ ms -> m ∈ SSTables (manifest db)) -> h ∈ sstables db -> table_ok (dir db) h t ->
  selects (ID <$> ms) t = true <-> h_meta h ∈ ms.
Proof.
  intros Hi Hms Hh Hok. unfold selects. rewrite bool_decide_eq_true, <- (to_id _ _ _ _ Hok). split.
  - intros (m & Hm & Hin)%list_elem_of_fmap. pose proof (Hms m Hin) as Hin'. rewrite <- (inv_meta _ _ _ Hi) in Hin'.
    apply list_elem_of_fmap in Hin' as (h' & -> & Hh').
    assert (h' = h) as -> by (eapply (NoDup_fmap_inj_on h_ID); [by eapply inv_handle_NoDup | done | done | done]). done.
  - intros Hin. apply list_elem_of_fmap. by exists (h_meta h).
Qed.

Lemma plan_planned (db : DB) g threshold plan :
  inv db g -> choose_plan (dir db) (SSTables (manifest db)) threshold = Some (Some plan) ->
  exists src, planned (g_tables g) (selects (ID <$> Inputs plan)) src /\ TargetLevel plan = src + 1 /\
    (forall m, m ∈ Inputs plan -> m ∈ SSTables (manifest db)) /\ NoDup (ID <$> Inputs plan).
Proof.
  intros Hi Hch. destruct (choose_plan_spec (dir db) (SSTables (manifest db)) threshold) as (p & E & Hp).
  assert (p = Some plan) as -> by congruence.
  destruct (Hp plan eq_refl) as (src & selected & Hsrc & Htl & Hin & Hne & Hsel & Hz & Hnd).
  exists src. set (tables := SSTables (manifest db)) in *.
  assert (Hms : forall m, m ∈ Inputs plan -> m ∈ tables).
  { rewrite Hin. intros m [Hm | Hm]%elem_of_app; [by apply Hsel | by apply overlapping_elem in Hm as []]. }
  assert (Hids : NoDup (ID <$> tables)) by (unfold tables; rewrite (inv_meta_ids db g Hi); apply (io_nodup _ _ (inv_ids _ _ _ Hi))).
  split; [| split; [done |]; split; [done |]].
  - constructor; try done.
    + destruct selected as [|m selected]; [done |]. destruct (Hsel m ltac:(by left)) as [Hm _].
      unfold tables in Hm. rewrite <- (inv_meta _ _ _ Hi) in Hm. apply list_elem_of_fmap in Hm as (h & -> & Hh).
      destruct (inv_named _ _ _ _ Hi Hh) as (_ & _ & t & Ht & Hok). exists t. split; [done |].
      apply (selects_meta db g _ h t Hi Hms Hh Hok). rewrite Hin. by left.
    + intros t Ht Hs. destruct (inv_handle_of db g t Hi Ht) as (h & Hh & Hok & _).
      apply (selects_meta db g _ h t Hi Hms Hh Hok) in Hs. rewrite <- (to_level _ _ _ _ Hok). rewrite Hin in Hs.
      apply elem_of_app in Hs as [Hs | Hs]; [left; by apply Hsel | right; by apply overlapping_elem in Hs as []].
    + intros H0 t Ht Hl. destruct (inv_handle_of db g t Hi Ht) as (h & Hh & Hok & Hm).
      apply (selects_meta db g _ h t Hi Hms Hh Hok). rewrite Hin. apply elem_of_app. left. apply Hz; [done | done |].
      by rewrite (to_level _ _ _ _ Hok).
    + intros t u Ht Hu Hst Hsu Hlt Hlu. destruct (inv_handle_of db g t Hi Ht) as (h & Hh & Hok & Hm).
      destruct (inv_handle_of db g u Hi Hu) as (h' & Hh' & Hok' & Hm').
      apply (selects_meta db g _ h t Hi Hms Hh Hok) in Hst.
      assert (Hno : h_meta h' ∉ overlapping selected (src + 1) tables).
      { intros Ho. apply not_true_iff_false in Hsu. apply Hsu, (selects_meta db g _ h' u Hi Hms Hh' Hok'). rewrite Hin.
        apply elem_of_app. by right. }
      destruct (not_joining selected (src + 1) tables (h_meta h') Hm') as (lo & hi & Hr & Ho);
        [by rewrite (to_level _ _ _ _ Hok') | done |].
      rewrite Hin in Hst. apply elem_of_app in Hst as [Hst | Hst].
      2: { apply overlapping_elem in Hst as [_ Hst]. rewrite (to_level _ _ _ _ Hok) in Hst. lia. }
      pose proof (combinedRange_spec _ _ _ Hr) as Hcr. rewrite Forall_forall in Hcr. destruct (Hcr _ Hst) as (_ & H1 & H2).
      intros x y (x' & -> & Hx)%list_elem_of_fmap (y' & -> & Hy)%list_elem_of_fmap. rewrite !strip_key. intros Hk.
      destruct (to_keys _ _ _ _ Hok x' Hx) as [H3 H4]. destruct (to_keys _ _ _ _ Hok' y' Hy) as [H5 H6]. rewrite <- Hk in H5, H6.
      unfold rangesOverlap in Ho. apply andb_false_iff in Ho as [Ho | Ho]; key_order.
    + intros t u Ht Hu Hst Hsu Heq. unfold selects in *. rewrite Heq in Hst. congruence.
  - rewrite Hin, fmap_app. apply NoDup_app. split; [by apply Hnd |]. split; [| by apply NoDup_fmap_filter].
    intros i (m & -> & Hm)%list_elem_of_fmap (m' & Heq & Hm')%list_elem_of_fmap.
    destruct (Hsel m Hm) as [Hmt Hl]. apply overlapping_elem in Hm' as [Hmt' Hl'].
    assert (m = m') as -> by (by eapply (NoDup_fmap_inj_on ID)). lia.
Qed.

End plan.
