(* ===== verification/DbCompactRun.v ===== *)
(** * Running a compaction

    [compactLocked] on a database that satisfies the invariant: the merge never
    fails to read, and whatever calls to the operating system fail, the
    database afterwards satisfies the invariant with the same history. *)

From S2P Require Import Float64 Bloom BlockCache Wal MemTableClaims SkipListRefine.
From S2P Require Export DbInv DbCompact DbCompactPlan DbFlush.

Lemma concat_cons_Permutation {A} (P : list (list A)) i r l :
  P !! i = Some (r :: l) -> concat P ≡ₚ r :: concat (<[i := l]> P).
Proof.
  intros Hi. rewrite <- (take_drop_middle _ _ _ Hi) at 1. rewrite insert_take_drop by (by eapply lookup_lt_Some).
  rewrite !concat_app. cbn [concat]. solve_Permutation.
Qed.

Lemma merged_Permutation Less P out : merged Less P out -> out ≡ₚ concat P.
Proof.
  induction 1 as [P Hn | P i r l out Hi _ _ IH].
  - induction Hn as [|x P -> _ IH]; [done |]. exact IH.
  - rewrite (concat_cons_Permutation P i r l Hi). by constructor.
Qed.

Lemma sublist_submseteq {A} (l k : list A) : sublist l k -> l ⊆+ k.
Proof. induction 1; [done | by apply submseteq_skip | by apply submseteq_cons]. Qed.

Section run.
Context {lz : LZ4Codec} {laws : LZ4Laws} {C : Type} `{!Cache C}.
Context (Hash128 : bytes -> Z * Z) (math_Log : float64 -> float64) (conv : float64 -> Z).
Local Abbreviation DB := (DB C).
Local Abbreviation inv := (inv Hash128).
Local Abbreviation table_ok := (table_ok Hash128).

(** ** Inputs *)

Lemma find_table_meta (hs : list handle) h :
  NoDup (h_ID <$> hs) -> h ∈ hs -> find_table hs (h_meta h) = Some h.
Proof.
  intros Hnd Hh. unfold find_table.
  destruct (list_find_elem_of (fun x => h_ID x = ID (h_meta h)) hs h Hh eq_refl) as [[i x] Hf]. rewrite Hf. simpl.
  apply list_find_Some in Hf as (Hi & Hx & _). f_equal.
  eapply (NoDup_fmap_inj_on h_ID); [done | by eapply list_elem_of_lookup_2 | done | done].
Qed.

Lemma find_all (hs : list handle) (ms : list SSTableMetadata) :
  NoDup (h_ID <$> hs) -> (forall m, m ∈ ms -> m ∈ h_meta <$> hs) ->
  h_meta <$> omap (find_table hs) ms = ms /\ forall h, h ∈ omap (find_table hs) ms -> h ∈ hs.
Proof.
  intros Hnd. induction ms as [|m ms IH]; intros Hms; [split; [done |]; by intros h Hh%elem_of_nil |].
  destruct (IH ltac:(intros x Hx; apply Hms; by right)) as [IH1 IH2].
  pose proof (Hms m ltac:(by left)) as (h & -> & Hh)%list_elem_of_fmap. cbn [omap list_omap].
  rewrite (find_table_meta hs h Hnd Hh). split; [rewrite fmap_cons; by f_equal |].
  intros x [-> | Hx]%elem_of_cons; [done | by apply IH2].
Qed.

(** A table as the merge gets it. *)
Definition as_input (h : handle) (t : Z * disk) : disk :=
  mkDisk (d_options t.2) (d_records t.2) (d_filter t.2) (d_blocks t.2) (d_meta t.2) (d_file t.2) (d_id t.2)
    (sst_metaLoaded (h_sst h)).

Lemma inputs_files d hs us :
  Forall2 (table_ok d) hs us ->
  mapM (fun h => file ← d !! Path (h_meta h); Some (mkInput file (h_sst h))) hs = Some (disk_input <$> zip_with as_input hs us) /\
  (fun x => strip_batch <$> d_records x) <$> zip_with as_input hs us = (fun t => t_records t.2) <$> us.
Proof.
  induction 1 as [|h t hs us Hok _ [IH1 IH2]]; [done |]. cbn [mapM zip_with]. rewrite (to_file _ _ _ _ Hok), !fmap_cons, IH2.
  split; [| done]. cbn [mbind option_bind]. rewrite IH1. cbn [mbind option_bind mret option_ret]. do 2 f_equal.
  unfold disk_input, as_input. simpl. f_equal. destruct (to_sst _ _ _ _ Hok) as [-> | ->]; done.
Qed.

Lemma inputs_ok d all hs us :
  Forall2 (table_ok d) hs us -> (forall t, t ∈ us -> t.2 ∈ all) -> NoDup (d_id <$> all) ->
  Forall (disk_ok Hash128) (zip_with as_input hs us) /\ Forall (fun x => disk_in (knows all) x) (zip_with as_input hs us).
Proof.
  intros H Hin Hnd. induction H as [|h t hs us Hok _ IH]; [done |]. cbn [zip_with].
  destruct (IH ltac:(intros u Hu; apply Hin; by right)) as [IH1 IH2].
  split; constructor; try done; [exact (to_disk _ _ _ _ Hok) |].
  exact (knows_in Hash128 all t.2 Hnd (Hin t ltac:(by left)) (to_disk _ _ _ _ Hok)).
Qed.

(** ** The merge *)

Lemma merge_disk (n : Z) fuel options all ds (hist : list record) (cache : option C) :
  let P := (fun d => strip_batch <$> d_records d) <$> ds in
  Forall (disk_ok Hash128) ds -> Forall (fun x => disk_in (knows all) x) ds -> cache_ok (knows all) cache ->
  concat P ⊆+ hist -> within_budget hist -> len hist <= n -> sizing_fits math_Log conv n (output_options options) ->
  (length hist < fuel)%nat ->
  exists r cache', MergeSSTablesWithOptions Hash128 math_Log conv fuel (disk_input <$> ds) options cache = Some (r, cache') /\
    cache_ok (knows all) cache' /\
    forall meta file, r = Ok (meta, file) -> exists out opts' flt bs, wsorted out /\ out ≡ₚ concat P /\
      on_disk Hash128 opts' (keeps options [] out) flt bs meta file /\ strip_batch <$> keeps options [] out = keeps options [] out.
Proof.
  intros P Hok Hin Hc Hsub Hb Hn Hsz Hf.
  assert (Hlen : (length (input_records ds) < fuel)%nat).
  { unfold input_records. fold P. rewrite (concat_Permutation _ _ (reverse_Permutation P)).
    apply submseteq_length in Hsub. lia. }
  destruct (merge_output Hash128 math_Log conv fuel (knows all) ds options cache Hok Hin Hc Hlen) as (out & c' & Hm & Hs & Hc' & ->).
  pose proof (merge_records Hash128 ds out options Hok Hm) as Hrec. fold P in Hm.
  set (K := keeps options [] out) in *. pose proof (merged_Permutation _ _ _ Hm) as Hperm.
  assert (HK : K ⊆+ hist).
  { transitivity (concat P); [| done]. rewrite <- Hperm. apply sublist_submseteq, keeps_sublist. }
  assert (Hwf : Forall wf_record K) by (eapply Forall_impl; [exact Hrec |]; by intros r []).
  assert (Hbound : 0 <= len K <= n) by (apply submseteq_length in HK; pose proof (len_nonneg K); unfold len in *; lia).
  pose proof (newSliceIterator_yields K) as Hy.
  destruct (create_spec Hash128 math_Log conv (S (length K)) (newSliceIterator K) K (len K) (output_options options) Hy ltac:(lia)
    (sizing_fits_ok math_Log conv n (len K) _ Hbound Hsz)) as (w & E & _).
  unfold CreateFromRecordsWithOptions. rewrite E. cbn [mbind option_bind]. eexists _, c'. split; [reflexivity |]. split; [done |].
  intros meta file Hw. destruct w as [[meta' file']|]; [| done]. simpl in Hw. injection Hw as -> ->.
  destruct (create_on_disk Hash128 math_Log conv (S (length K)) (newSliceIterator K) K (len K) _ meta file Hy ltac:(lia) Hwf
    (sizing_fits_ok math_Log conv n (len K) _ Hbound Hsz) E) as (opts' & flt & bs & Hod).
  { apply (create_fits Hash128 math_Log conv (S (length K)) (newSliceIterator K) K n (len K) (output_options options) meta file Hy ltac:(lia)); try done.
    by eapply within_budget_submseteq. }
  exists out, opts', flt, bs. split; [done |]. split; [done |]. split; [done |].
  fold K. rewrite <- (list_fmap_id K) at 2. apply list_fmap_ext. intros i x Hx. rewrite Forall_lookup in Hrec. by destruct (Hrec i x Hx) as (_ & ? & _).
Qed.

(** ** The new list of tables *)

Lemma replace_Forall2 {A B} (R R' : A -> B -> Prop) (s1 : A -> bool) (s2 : B -> bool) x y ins l k :
  R' x y -> Forall2 R l k -> (forall a b, a ∈ l -> R a b -> s1 a = s2 b /\ (s1 a = false -> R' a b)) ->
  Forall2 R' (replace_selected s1 x ins l) (replace_selected s2 y ins k).
Proof.
  intros Hxy H. revert ins. induction H as [|a b l k Hab _ IH]; intros ins Hs; cbn [replace_selected]; [constructor |].
  destruct (Hs a b ltac:(by left) Hab) as [<- Hf].
  assert (Hs' : forall a b, a ∈ l -> R a b -> s1 a = s2 b /\ (s1 a = false -> R' a b)) by (intros; apply Hs; [by right | done]).
  destruct (s1 a); [| constructor; auto]. apply Forall2_app; [| auto]. destruct ins; [constructor | by constructor; [| constructor]].
Qed.

Lemma replace_fmap {A B} (f : A -> B) (s : A -> bool) (s' : B -> bool) x ins l :
  (forall a, s' (f a) = s a) -> f <$> replace_selected s x ins l = replace_selected s' (f x) ins (f <$> l).
Proof.
  intros Hs. revert ins. induction l as [|a l IH]; intros ins; [done |]. rewrite fmap_cons. cbn [replace_selected].
  rewrite Hs. destruct (s a); rewrite ?fmap_app, ?fmap_cons, IH; [by destruct ins | done].
Qed.

Lemma named_inj i j p : is_u64 i -> is_u64 j -> named i p -> named j p -> i = j.
Proof.
  intros Hi Hj [-> | ->] [H | H].
  - by apply data_path_inj in H.
  - by destruct (names_apart i j) as (_ & _ & Hne & _).
  - by destruct (names_apart j i) as (_ & _ & Hne & _).
  - by apply compact_path_inj in H.
Qed.

(** The state after publication. *)
Lemma inv_compacted (db : DB) g ids src t cm d cache options out :
  let sel := selects ids in
  inv db g -> planned (g_tables g) sel src -> disk_ok Hash128 t -> NextSSTableID (manifest db) < u64_max ->
  d_id t = NextSSTableID (manifest db) -> ID cm = d_id t -> Level cm = src + 1 -> Path cm = compact_path (d_id t) ->
  (forall r, r ∈ d_records t -> (SmallestKey cm <= Key r)%key /\ (Key r <= LargestKey cm)%key) ->
  d !! Path cm = Some (d_file t) ->
  (forall h, h ∈ sstables db -> h_ID h ∉ ids -> d !! Path (h_meta h) = dir db !! Path (h_meta h)) ->
  (forall id, NextWALSegmentID (manifest db) < id -> is_u64 id -> d !! SegmentPath id = None) ->
  cache_ok (knows (g_all g)) cache -> wsorted out -> out ≡ₚ inputs_of sel (g_tables g) ->
  t_records t = keeps options [] out -> OldestReader options = oldestReaderLocked db ->
  (DropTombstones options = true -> src + 1 = HighestSupportedLevel) ->
  inv (set_blockCache cache (set_sstables (replace_selected (fun h => bool_decide (h_ID h ∈ ids)) (newSSTable cm) false (sstables db))
        (set_dir d (set_tables (replace_selected (fun m => bool_decide (ID m ∈ ids)) cm false (SSTables (manifest db)))
          (set_nextID (NextSSTableID (manifest db) + 1) db))))) (g_compact sel (src + 1, t) g).
Proof.
  intros sel Hi Hpl Hdt Hmax Hid Hcid Hclev Hcp Hck Hfile Hold Hsegs Hcache Hs Hperm Hrec Hop Hdrop.
  pose proof (inv_ids _ _ _ Hi) as [I1 I2 I3 I4 I5]. unfold is_u64 in I5.
  assert (Hlev : forall u, u ∈ g_tables g -> 0 <= u.1 <= HighestSupportedLevel) by (intros u Hu; by apply (inv_levels Hash128 db g u)).
  assert (Hin : forall r, r ∈ t_records (src + 1, t).2 -> r ∈ inputs_of sel (g_tables g)).
  { simpl. rewrite Hrec. intros r Hr%keeps_elem. by rewrite <- Hperm. }
  pose proof (inv_order _ _ _ Hi) as Hord.
  assert (Hni : d_id t ∉ d_id <$> g_all g).
  { intros (u & Hu & Hin')%list_elem_of_fmap. rewrite Forall_forall in I2. specialize (I2 u Hin'). lia. }
  assert (Hsub : g_records (g_compact sel (src + 1, t) g) ⊆+ g_records g).
  { rewrite (g_records_compact g sel src (src + 1, t) Hpl), (g_records_split g sel). apply submseteq_skips_r.
    simpl. rewrite Hrec, <- Hperm. apply sublist_submseteq, keeps_sublist. }
  constructor; try (by destruct Hi); simpl.
  - by destruct (inv_mem _ _ _ Hi).
  - eapply (replace_Forall2 (table_ok (dir db))); [| apply (inv_tables _ _ _ Hi) |].
    + constructor; simpl; try done.
      * pose proof (pl_src _ _ _ Hpl). unfold HighestSupportedLevel. lia.
      * right. by rewrite Hcid.
      * rewrite Hcp. by right.
    + intros h u Hh Hok. split; [unfold sel, selects; by rewrite (to_id _ _ _ _ Hok) |].
      intros Hns%bool_decide_eq_false. destruct Hok. constructor; try done. by rewrite (Hold h Hh Hns).
  - rewrite (replace_fmap h_meta _ (fun m => bool_decide (ID m ∈ ids))) by done. by rewrite (inv_meta _ _ _ Hi).
  - constructor; simpl.
    + by constructor.
    + constructor; [lia |]. eapply Forall_impl; [exact I2 |]. simpl. lia.
    + intros u Hu. apply (elem_of_g_compact g sel src (src + 1, t) Hpl Hlev) in Hu as [-> | [Hu _]]; [by left | right; by apply I3].
    + rewrite (fmap_Permutation _ _ _ (g_compact_tables_perm g sel src (src + 1, t) Hpl)), fmap_cons. constructor; [| by apply NoDup_fmap_filter].
      simpl. intros (u & Heq & [_ Hu]%list_elem_of_filter)%list_elem_of_fmap. apply Hni. rewrite Heq.
      apply list_elem_of_fmap. exists u.2. split; [done | by apply I3].
    + unfold is_u64. lia.
  - eapply cache_ok_impl; [| exact Hcache]. intros k b. by apply knows_cons.
  - by apply (order_compact g sel src).
  - etrans; [exact Hsub | apply (inv_sub _ _ _ Hi)].
  - intros key maxSeq Hread. rewrite (compact_reads g sel src (src + 1, t) Hord Hpl Hlev Hin options out key maxSeq); try done.
    + by apply (inv_reads _ _ _ Hi).
    + by eapply inv_uniq.
    + intros x. by rewrite Hperm.
    + unfold read_bound. rewrite Hop. change (readable (oldestReaderLocked db) (nextSeq db) maxSeq) in Hread.
      unfold readable in Hread. destruct (oldestReaderLocked db) as [o|]; [done |].
      apply Forall_forall. intros r Hr. rewrite Hperm in Hr. pose proof (ho_seq _ _ (inv_hist _ _ _ Hi)) as Hseq.
      rewrite Forall_forall in Hseq. assert (Seq r < nextSeq db); [| lia]. apply Hseq, (inv_in_hist _ _ _ _ Hi).
      rewrite (g_records_split g sel). apply elem_of_app. by left.
  - split; [by destruct (inv_segs _ _ _ Hi) | done].
Qed.

(** ** Cleanup *)

Lemma remove_tables_ok (e : env) all hs removed failed d (cache : option C) :
  cache_ok (knows all) cache ->
  exists r f d' cache', remove_tables e hs removed failed d cache = Some (r, f, d', cache') /\ cache_ok (knows all) cache' /\
    (forall p, d !! p = None -> d' !! p = None) /\
    forall p, (forall h, h ∈ hs -> Path (h_meta h) <> p) -> d' !! p = d !! p.
Proof.
  revert removed failed d cache. induction hs as [|h hs IH]; intros removed failed d cache Hc.
  { eexists _, _, d, cache. split; [done |]. done. }
  cbn [remove_tables].
  assert (Hp : exists c', (match cache with Some c => c ← cache_purge (h_ID h) c; Some (Some c) | None => Some None end) = Some c' /\
    cache_ok (knows all) c').
  { destruct cache as [c|]; [| by exists None]. destruct Hc as [Hw Hh]. destruct (cache_purge_ok (h_ID h) c Hw) as (c' & -> & Hw' & Hh').
    exists (Some c'). split; [done |]. split; [done |]. intros k b Hk. apply Hh. by apply Hh' in Hk as []. }
  destruct Hp as (c' & -> & Hc').
  assert (Hd : forall p, d !! p = None -> delete (Path (h_meta h)) d !! p = None).
  { intros p Hp. apply lookup_delete_None. by right. }
  destruct (d !! Path (h_meta h)); [destruct (e_remove e (Path (h_meta h))) |]; cbn [mbind option_bind];
    match goal with |- context [remove_tables e hs ?r ?f ?dd c'] =>
      destruct (IH r f dd c' Hc') as (r' & f' & d' & c2 & -> & H1 & H2 & H3) end;
    (eexists _, _, _, _; split; [reflexivity |]; split; [done |]; split; [eauto |]; intros p Hp;
     rewrite H3 by (intros x Hx; apply Hp; by right); try done).
  apply lookup_delete_ne, Hp. by left.
Qed.

(** ** The whole operation *)

Lemma handles_tables (db : DB) g hs :
  inv db g -> (forall h, h ∈ hs -> h ∈ sstables db) ->
  exists us, Forall2 (table_ok (dir db)) hs us /\ forall u, u ∈ us -> u ∈ g_tables g.
Proof.
  intros Hi. induction hs as [|h hs IH]; intros Hin; [exists []; split; [constructor |]; by intros u Hu%elem_of_nil |].
  destruct (IH ltac:(intros x Hx; apply Hin; by right)) as (us & H1 & H2).
  destruct (inv_named _ _ _ _ Hi (Hin h ltac:(by left))) as (_ & _ & t & Ht & Hok).
  exists (t :: us). split; [by constructor |]. by intros u [-> | Hu]%elem_of_cons; [| apply H2].
Qed.

Lemma input_tables (db : DB) g ms :
  inv db g -> (forall m, m ∈ ms -> m ∈ SSTables (manifest db)) -> NoDup (ID <$> ms) ->
  let hs := omap (find_table (sstables db)) ms in
  length hs = length ms /\ exists us, Forall2 (table_ok (dir db)) hs us /\ (forall u, u ∈ us -> u ∈ g_tables g) /\
    concat ((fun t => t_records t.2) <$> us) ≡ₚ inputs_of (selects (ID <$> ms)) (g_tables g).
Proof.
  intros Hi Hms Hnd hs.
  destruct (find_all (sstables db) ms (inv_handle_NoDup Hash128 db g Hi)) as [Hm Hin]; [by rewrite (inv_meta _ _ _ Hi) |].
  fold hs in Hm, Hin. split; [by apply (f_equal length) in Hm; rewrite length_fmap in Hm |].
  destruct (handles_tables db g hs Hi Hin) as (us & Hus & Hug). exists us. split; [done |]. split; [done |].
  unfold inputs_of. apply concat_Permutation, fmap_Permutation.
  assert (Hids : (fun u => d_id u.2) <$> us = ID <$> ms).
  { rewrite <- Hm, <- list_fmap_compose. clear -Hus. induction Hus as [|h u hs us Hok _ IH]; [done |].
    rewrite !fmap_cons, IH. f_equal. symmetry. exact (to_id _ _ _ _ Hok). }
  apply NoDup_Permutation.
  - apply (NoDup_fmap_1 (fun u => d_id u.2)). by rewrite Hids.
  - apply NoDup_filter, (NoDup_fmap_1 (fun u => d_id u.2)), (io_nodup _ _ (inv_ids _ _ _ Hi)).
  - intros u. rewrite list_elem_of_filter. unfold selects. rewrite bool_decide_eq_true, <- Hids. split.
    + intros Hu. split; [| by apply Hug]. by apply (list_elem_of_fmap_2 (fun u => d_id u.2)).
    + intros [(v & Heq & Hv)%list_elem_of_fmap Hu].
      assert (u = v) as ->; [| done]. eapply (NoDup_fmap_inj_on (fun u => d_id u.2)); [apply (io_nodup _ _ (inv_ids _ _ _ Hi)) | done | by apply Hug | done].
Qed.

(** The file of the next identifier is free. *)
Lemma inv_compact_file (db : DB) g d :
  inv db g -> (forall p, p <> compact_path (NextSSTableID (manifest db)) -> d !! p = dir db !! p) -> inv (set_dir d db) g.
Proof.
  intros Hi Hd. pose proof (io_u64 _ _ (inv_ids _ _ _ Hi)) as Hu. apply inv_set_dir; [done | |].
  - intros h Hh. apply Hd. destruct (inv_named _ _ _ _ Hi Hh) as (Hn & Hr & _). intros Heq.
    assert (h_ID h = NextSSTableID (manifest db)); [| lia].
    eapply named_inj; [| exact Hu | exact Hn |]; [unfold is_u64 in *; lia | by right].
  - intros id Hid Hid'. destruct (names_apart id (NextSSTableID (manifest db))) as (_ & Hne & _). rewrite Hd by congruence.
    by apply (inv_segs _ _ _ Hi).
Qed.

(** What a successful compaction does to the list of tables. *)
Definition compacted (tables : list SSTableMetadata) (plan : CompactionPlan) (tables' : list SSTableMetadata) : Prop :=
  exists cm, Level cm = TargetLevel plan /\
    tables' = replace_selected (fun m => bool_decide (ID m ∈ ID <$> Inputs plan)) cm false tables.

(** What a compaction keeps, besides the invariant. *)
Record compaction_keeps (db : DB) (g : ghost) (db' : DB) (g' : ghost) : Prop := mkCompactionKeeps {
  ck_hist : g_hist g' = g_hist g;
  ck_client : same_client db db';
  ck_wal : NextWALSegmentID (manifest db') = NextWALSegmentID (manifest db);
  ck_next : NextSSTableID (manifest db') <= NextSSTableID (manifest db) + 1;
  ck_flush : undisturbed db g db' g';
}.

Lemma keeps_same (db : DB) g cache d db' :
  (forall id, d !! data_path id = dir db !! data_path id) -> db' = set_dir d (set_blockCache cache db) ->
  compaction_keeps db g db' g.
Proof.
  intros Hd ->. constructor; try done; [simpl; lia |].
  apply undisturbed_same; try done; exists []; by rewrite app_nil_r.
Qed.

Lemma inv_set_cache (db : DB) g cache : inv db g -> cache_ok (knows (g_all g)) cache -> inv (set_blockCache cache db) g.
Proof. intros Hi Hc. by destruct Hi. Qed.

(** The dropped tables' files are not those of a flush in progress. *)
Lemma undisturbed_compact (db db' : DB) g sel new :
  inv db g -> d_id new.2 = NextSSTableID (manifest db) -> NextSSTableID (manifest db') = NextSSTableID (manifest db) + 1 ->
  immutableMemtables db' = immutableMemtables db -> flushSignal db' = flushSignal db ->
  (forall id, reserved db g id -> dir db' !! data_path id = dir db !! data_path id) ->
  undisturbed db g db' (g_compact sel new g).
Proof.
  intros Hi Hid Hn Himm Hsig Hd. constructor.
  - intros id Hr. split; [| by apply Hd]. destruct Hr as [Hr Hni]. split; [lia |]. simpl. rewrite not_elem_of_cons.
    split; [lia | done].
  - exists []. by rewrite app_nil_r.
  - exists []. by rewrite app_nil_r.
  - intros Hf. by rewrite <- Hsig.
  - intros t Ht. simpl. by right.
Qed.

(** What a published compaction keeps. *)
Lemma keeps_compact (db db' : DB) g sel new :
  inv db g -> d_id new.2 = NextSSTableID (manifest db) -> same_client db db' ->
  NextWALSegmentID (manifest db') = NextWALSegmentID (manifest db) -> NextSSTableID (manifest db') = NextSSTableID (manifest db) + 1 ->
  immutableMemtables db' = immutableMemtables db -> flushSignal db' = flushSignal db ->
  (forall i, reserved db g i -> dir db' !! data_path i = dir db !! data_path i) -> compaction_keeps db g db' (g_compact sel new g).
Proof. intros Hi Hid H1 H2 H3 H4 H5 H6. constructor; try done; [lia |]. by apply undisturbed_compact. Qed.

(** Writing the manifest leaves tables and segments alone. *)
Lemma Write_files o m d :
  (forall p i, named i p -> snd (Write o manifest_path m d) !! p = d !! p) /\
  (forall i, snd (Write o manifest_path m d) !! SegmentPath i = d !! SegmentPath i).
Proof.
  split; intros.
  - apply Write_frame; by eapply named_manifest.
  - apply Write_frame; apply segment_manifest.
Qed.

(** The files that the cleanup removes are those of the inputs. *)
Lemma removed_paths (db : DB) g (ids : list Z) h p i :
  inv db g -> h ∈ filter (fun h => bool_decide (h_ID h ∈ ids) = true) (sstables db) -> Path (h_meta h) = p -> named i p -> is_u64 i ->
  i ∈ ids /\ i < NextSSTableID (manifest db).
Proof.
  intros Hi [Hsel%bool_decide_eq_true Hh]%list_elem_of_filter <- Hn Hu. destruct (inv_named _ _ _ _ Hi Hh) as (Hn' & Hr & _).
  pose proof (io_u64 _ _ (inv_ids _ _ _ Hi)) as Hu'. unfold is_u64 in Hu'.
  replace i with (h_ID h); [split; [done | lia] |]. eapply named_inj; [unfold is_u64; lia | done | exact Hn' | exact Hn].
Qed.

Lemma publish_compaction_inv (e : env) (db : DB) g plan src t meta options out :
  let id := NextSSTableID (manifest db) in
  let path := compact_path id in
  inv db g -> planned (g_tables g) (selects (ID <$> Inputs plan)) src -> TargetLevel plan = src + 1 ->
  disk_ok Hash128 t -> id < u64_max -> d_id t = id -> d_meta t = meta -> dir db !! path = Some (d_file t) ->
  wsorted out -> out ≡ₚ inputs_of (selects (ID <$> Inputs plan)) (g_tables g) -> t_records t = keeps options [] out ->
  OldestReader options = oldestReaderLocked db -> (DropTombstones options = true -> src + 1 = HighestSupportedLevel) ->
  exists r db' g', publish_compaction e plan id path meta db = Some (r, db') /\ inv db' g' /\ compaction_keeps db g db' g' /\
    (r = Ok tt -> compacted (SSTables (manifest db)) plan (SSTables (manifest db'))).
Proof.
  intros id path Hi Hpl Htl Hdt Hmax Hid Hmeta Hfile Hs Hperm Hrec Hop Hdrop. unfold publish_compaction.
  pose proof (io_u64 _ _ (inv_ids _ _ _ Hi)) as Hu. fold id in Hu.
  change (NextSSTableID (manifest db)) with id. rewrite (u64_id (id + 1)) by (unfold is_u64 in *; lia).
  set (ids := ID <$> Inputs plan) in *. set (cm := mkMeta id path _ _ _ _).
  cbn [manifest set_tables set_nextID set_manifest dir SSTables NextSSTableID NextWALSegmentID sstables set_dir].
  match goal with |- context [Write ?o ?p ?m ?d] => destruct (Write_files o m d) as [Hnd Hseg];
    pose proof (inv_Write Hash128 o m db g Hi) as Hi1; destruct (Write o p m d) as [err d'] end. cbn [snd] in Hnd, Hseg, Hi1.
  assert (Hdata : forall i, d' !! data_path i = dir db !! data_path i) by (intros i; apply (Hnd _ i); by left).
  assert (Hnew : forall d2 cache, d2 !! path = Some (d_file t) ->
    (forall h, h ∈ sstables db -> h_ID h ∉ ids -> d2 !! Path (h_meta h) = dir db !! Path (h_meta h)) ->
    (forall i, NextWALSegmentID (manifest db) < i -> is_u64 i -> d2 !! SegmentPath i = None) -> cache_ok (knows (g_all g)) cache ->
    inv (set_blockCache cache (set_sstables (replace_selected (fun h => bool_decide (h_ID h ∈ ids)) (newSSTable cm) false (sstables db))
        (set_dir d2 (set_tables (replace_selected (fun m => bool_decide (ID m ∈ ids)) cm false (SSTables (manifest db)))
          (set_nextID (id + 1) db))))) (g_compact (selects ids) (src + 1, t) g)).
  { intros d2 cache H1 H2 H3 H4. apply (inv_compacted db g ids src t cm d2 cache options out); try done; [unfold cm; simpl; by rewrite Hid |].
    intros r Hr. unfold cm. simpl. rewrite <- Hmeta. by apply (layout_keys Hash128 _ _ _ _ _ _ r Hdt). }
  assert (Hpath : d' !! path = Some (d_file t)) by (rewrite (Hnd path id); [done | by right]).
  destruct err as [[err|]|].
  - (* not published *)
    exists (Err (ErrManifest err)). destruct (e_remove e path); eexists _, g; (split; [reflexivity |]).
    + split; [by destruct Hi1 |]. split; [| done]. apply (keeps_same db g (blockCache db) d'); [done | by destruct db as [? ? ? ? ? ? ? ? ? ? []]].
    + pose proof (inv_compact_file (set_dir d' db) g (delete path d') Hi1 ltac:(intros p Hp; by apply lookup_delete_ne)) as Hi2.
      split; [by destruct Hi2 |]. split; [| done].
      apply (keeps_same db g (blockCache db) (delete path d')); [| by destruct db as [? ? ? ? ? ? ? ? ? ? []]].
      intros i. rewrite lookup_delete_ne; [done |]. intros Heq. by apply (proj1 (proj2 (proj2 (names_apart i id)))).
  - (* published, durability unknown *)
    eexists _, _, _. split; [reflexivity |].
    split; [refine (Hnew d' (blockCache db) Hpath _ _ (inv_cache _ _ _ Hi)) | split; [| done]; apply keeps_compact; try done; intros i _; apply Hdata].
    + intros h Hh _. destruct (inv_named _ _ _ _ Hi Hh) as (Hn & _). by apply (Hnd _ (h_ID h)).
    + intros i H1 H2. rewrite Hseg. by apply (inv_segs _ _ _ Hi).
  - (* published *)
    destruct (remove_tables_ok e (g_all g) (filter (fun h => bool_decide (h_ID h ∈ ids) = true) (sstables db)) false false d' (blockCache db)
      (inv_cache _ _ _ Hi)) as (r & f & d2 & c2 & E & Hc2 & Hd0 & Hd2).
    cbn [blockCache dir sstables set_sstables set_dir set_tables set_nextID set_manifest]. rewrite E. cbn [mbind option_bind].
    eexists _, _, _. split; [reflexivity |].
    split; [refine (Hnew d2 c2 _ _ _ Hc2) | split; [apply keeps_compact; try done |]].
    + rewrite Hd2; [done |]. intros h Hh Heq. destruct (removed_paths db g ids h path id Hi Hh Heq ltac:(by right) Hu). lia.
    + intros h Hh Hns. destruct (inv_named _ _ _ _ Hi Hh) as (Hn & Hr & _). rewrite Hd2; [by apply (Hnd _ (h_ID h)) |].
      intros h' Hh' Heq. apply Hns. apply (removed_paths db g ids h' _ _ Hi Hh' Heq Hn). unfold is_u64 in *. fold id in Hr. lia.
    + intros i H1 H2. apply Hd0. rewrite Hseg. by apply (inv_segs _ _ _ Hi).
    + intros i Hr. simpl. rewrite Hd2; [done |]. intros h [_ Hh]%list_elem_of_filter. by apply (reserved_path Hash128 db g i h).
    + intros _. by exists cm.
Qed.

Lemma keeps_trans_same (db db1 db' : DB) g g' :
  compaction_keeps db g db1 g -> NextSSTableID (manifest db1) = NextSSTableID (manifest db) ->
  compaction_keeps db1 g db' g' -> compaction_keeps db g db' g'.
Proof.
  intros [A1 A2 A3 A4 A5] Hn [B1 B2 B3 B4 B5]. constructor; [done | | congruence | lia | by eapply undisturbed_trans].
  destruct A2 as (? & ? & ? & ? & ?), B2 as (? & ? & ? & ? & ?). repeat split; congruence.
Qed.

Lemma compactLocked_inv (n : Z) fuel (e : env) threshold (db : DB) g :
  inv db g -> within_budget (g_hist g) -> len (g_hist g) <= n -> sizing_fits math_Log conv n (sstableWriteOptions db) ->
  (length (g_hist g) < fuel)%nat -> NextSSTableID (manifest db) < u64_max ->
  exists r db' g', compactLocked Hash128 math_Log conv fuel e threshold db = Some (r, db') /\ inv db' g' /\ compaction_keeps db g db' g' /\
    exists p, choose_plan (dir db) (SSTables (manifest db)) threshold = Some p /\
      (forall plan, p = Some plan -> r = Ok tt -> compacted (SSTables (manifest db)) plan (SSTables (manifest db'))).
Proof.
  intros Hi Hb Hn Hsz Hf Hmax. unfold compactLocked.
  destruct (choose_plan_spec (dir db) (SSTables (manifest db)) threshold) as (p & Hp & _). rewrite Hp. cbn [mbind option_bind].
  destruct p as [plan|].
  2: { exists (Ok tt), db, g. split; [done |]. split; [done |]. split; [| by exists None].
       apply (keeps_same db g (blockCache db) (dir db)); [done | by destruct db]. }
  destruct (plan_planned Hash128 db g threshold plan Hi Hp) as (src & Hpl & Htl & Hms & Hnd).
  destruct (input_tables db g (Inputs plan) Hi Hms Hnd) as (Hlen & us & Hus & Hug & Hperm).
  rewrite Hlen, Nat.eqb_refl. cbn [negb].
  destruct (inputs_files (dir db) _ us Hus) as [Hfiles Hrecs]. rewrite Hfiles.
  pose proof (inv_ids _ _ _ Hi) as [I1 _ I3 _ _].
  destruct (inputs_ok (dir db) (g_all g) _ us Hus ltac:(intros u Hu; by apply I3, Hug) I1) as [Hok Hin].
  set (sel := selects (ID <$> Inputs plan)) in *.
  set (options := mkMergeOptions (oldestReaderLocked db) _ _). set (ds := zip_with as_input _ us) in *.
  assert (Hsub : concat ((fun d => strip_batch <$> d_records d) <$> ds) ⊆+ g_hist g).
  { rewrite Hrecs, Hperm. transitivity (g_records g); [| apply (inv_sub _ _ _ Hi)].
    rewrite (g_records_split g sel). by apply submseteq_inserts_r. }
  destruct (merge_disk n fuel options (g_all g) ds (g_hist g) (blockCache db) Hok Hin (inv_cache _ _ _ Hi) Hsub Hb Hn Hsz Hf)
    as (r & c & E & Hc & Hres).
  rewrite E. cbn [mbind option_bind]. pose proof (inv_set_cache db g c Hi Hc) as Hi1.
  assert (Hk1 : forall d, (forall i, d !! data_path i = dir db !! data_path i) -> compaction_keeps db g (set_dir d (set_blockCache c db)) g).
  { intros d Hd. by apply (keeps_same db g c d). }
  destruct r as [[meta file]|err].
  2: { eexists _, _, g. split; [reflexivity |]. split; [done |]. split; [| by exists (Some plan)].
       apply (keeps_same db g c (dir db)); [done | by destruct db]. }
  destruct (Hres meta file eq_refl) as (out & opts' & flt & bs & Hs & Hout & Hod & Hstrip). rewrite Hrecs, Hperm in Hout.
  set (id := NextSSTableID (manifest db)) in *. set (path := compact_path id).
  assert (Hi2 : inv (set_dir (<[path := file]> (dir db)) (set_blockCache c db)) g).
  { apply (inv_compact_file (set_blockCache c db) g); [done |]. intros p Hp0. by apply lookup_insert_ne. }
  assert (Hpd : forall i, <[path := file]> (dir db) !! data_path i = dir db !! data_path i).
  { intros i. apply lookup_insert_ne. intros Heq. by apply (proj1 (proj2 (proj2 (names_apart i id)))). }
  unfold install. cbn [dir set_blockCache]. destruct (e_create e) as [[]|].
  - eexists _, _, g. split; [reflexivity |]. split; [by destruct Hi1 |]. split; [by apply (keeps_same db g c (dir db)) | by exists (Some plan)].
  - eexists _, _, g. split; [reflexivity |]. split; [done |]. split; [by apply (keeps_same db g c (<[path := file]> (dir db))) | by exists (Some plan)].
  - set (db2 := set_dir (<[path := file]> (dir db)) (set_blockCache c db)) in *.
    destruct (publish_compaction_inv e db2 g plan src (mkDisk opts' (keeps options [] out) flt bs meta file id false) meta options out)
      as (r & db' & g' & E3 & Hi3 & Hk3 & Hcomp); try done.
    + apply lookup_insert_eq.
    + simpl. rewrite Htl. apply Z.eqb_eq.
    + exists r, db', g'. split; [exact E3 |]. split; [done |]. split; [| exists (Some plan); split; [done |]; by intros plan' [= <-]].
      apply (keeps_trans_same db db2 db' g g'); [by apply (keeps_same db g c (<[path := file]> (dir db))) | done | done].
Qed.

End run.
