(* ===== verification/DbReaders.v ===== *)
(** * Readers

    The registry of active readers: the oldest reader is the least registered
    sequence number, and registering and unregistering readers keeps the
    invariant. *)

From S2P Require Import Float64 Bloom BlockCache Wal MemTableClaims.
From S2P Require Export DbInv.

Lemma oldest_loop_spec seqs :
  match oldest_loop seqs with
  | Some o => o ∈ seqs /\ forall s, s ∈ seqs -> o <= s
  | None => seqs = []
  end.
Proof.
  induction seqs as [|x seqs IH] using rev_ind; [done |]. unfold oldest_loop in *. rewrite foldl_app. cbn [foldl].
  destruct (foldl _ None seqs) as [o|]; [destruct IH as [Ho Hle]; destruct (Z.ltb_spec x o) |].
  - split; [set_solver |]. intros s [Hs | ->%list_elem_of_singleton]%elem_of_app; [specialize (Hle s Hs); lia | lia].
  - split; [set_solver |]. intros s [Hs | ->%list_elem_of_singleton]%elem_of_app; [auto | lia].
  - subst seqs. split; [set_solver |]. intros s [Hs%elem_of_nil | ->%list_elem_of_singleton]%elem_of_app; [done | lia].
Qed.

(** The least of any collection of sequence numbers does not depend on the
    order in which they are visited. *)
Lemma oldest_loop_perm l k : l ≡ₚ k -> oldest_loop l = oldest_loop k.
Proof.
  intros Hp. pose proof (oldest_loop_spec l) as Hl. pose proof (oldest_loop_spec k) as Hk.
  destruct (oldest_loop l) as [a|], (oldest_loop k) as [b|]; [| | | done].
  - destruct Hl as [Ha Hl], Hk as [Hb Hk]. rewrite Hp in Ha. rewrite <- Hp in Hb.
    specialize (Hl b Hb). specialize (Hk a Ha). f_equal. lia.
  - subst k. apply Permutation_nil_r in Hp. subst l. by destruct Hl as [?%elem_of_nil _].
  - subst l. apply Permutation_nil_l in Hp. subst k. by destruct Hk as [?%elem_of_nil _].
Qed.

Section readers.
Context {lz : LZ4Codec} {laws : LZ4Laws} {C : Type} `{!Cache C}.
Context (Hash128 : bytes -> Z * Z).
Local Abbreviation DB := (DB C).
Local Abbreviation inv := (inv Hash128).

Lemma oldestReader_spec (db : DB) :
  match oldestReaderLocked db with
  | Some o => is_Some (activeReaders db !! o) /\ forall s, is_Some (activeReaders db !! s) -> o <= s
  | None => activeReaders db = ∅
  end.
Proof.
  unfold oldestReaderLocked. pose proof (oldest_loop_spec (map_to_list (activeReaders db)).*1) as H.
  destruct (oldest_loop _) as [o|].
  - destruct H as [Ho Hle]. split.
    + apply list_elem_of_fmap in Ho as ([s c] & -> & Hin). apply elem_of_map_to_list in Hin. by exists c.
    + intros s [c Hc]. apply Hle, list_elem_of_fmap. exists (s, c). split; [done |]. by apply elem_of_map_to_list.
  - apply map_to_list_empty_iff. by apply fmap_nil_inv in H.
Qed.

Lemma inv_set_readers (db : DB) g m :
  inv db g -> (forall s c, m !! s = Some c -> 0 < c /\ 0 <= s < nextSeq db) ->
  (forall maxSeq, readable (oldestReaderLocked (set_activeReaders m db)) (nextSeq db) maxSeq ->
     readable (oldestReaderLocked db) (nextSeq db) maxSeq) ->
  inv (set_activeReaders m db) g.
Proof.
  intros Hi Hm Hr. constructor; try (by destruct Hi). intros key maxSeq H. by apply (inv_reads _ _ _ Hi), Hr.
Qed.

(** A reader at a sequence number that is still preserved. *)
Lemma register_inv (db : DB) g s :
  inv db g -> 0 <= s < nextSeq db -> readable (oldestReaderLocked db) (nextSeq db) s -> inv (registerReaderLocked s db) g.
Proof.
  intros Hi Hs Hr. apply inv_set_readers; [done | |].
  - intros s' c Hc. apply lookup_insert_Some in Hc as [[<- <-] | [_ Hc]]; [| by apply (inv_readers _ _ _ Hi)].
    split; [| done]. destruct (activeReaders db !! s) as [c|] eqn:E; simpl; [| lia]. destruct (inv_readers _ _ _ Hi s c E). lia.
  - intros maxSeq. pose proof (oldestReader_spec db) as Ho.
    pose proof (oldestReader_spec (set_activeReaders (<[s := default 0 (activeReaders db !! s) + 1]> (activeReaders db)) db)) as Hn.
    simpl in Hn. destruct (oldestReaderLocked (set_activeReaders _ db)) as [o'|].
    2: { exfalso. by apply insert_non_empty in Hn. }
    destruct Hn as [Hin Hle]. simpl. intros Hm. destruct (oldestReaderLocked db) as [o|]; simpl in Hr |- *.
    + destruct Hin as [c Hc]. apply lookup_insert_Some in Hc as [[<- _] | [_ Hc]]; [lia |].
      destruct Ho as [_ Ho]. specialize (Ho o' ltac:(by eauto)). lia.
    + destruct Hin as [c Hc]. rewrite Ho in Hc. apply lookup_insert_Some in Hc as [[<- _] | [_ Hc]]; [lia |]. by rewrite lookup_empty in Hc.
Qed.

Lemma unregister_inv (db : DB) g s : inv db g -> inv (unregisterReaderLocked s db) g.
Proof.
  intros Hi. unfold unregisterReaderLocked. set (count := default 0 (activeReaders db !! s)).
  assert (Hgen : forall m, (forall s' c, m !! s' = Some c -> 0 < c /\ is_Some (activeReaders db !! s')) -> inv (set_activeReaders m db) g).
  { intros m Hm. apply inv_set_readers; [done | |].
    - intros s' c Hc. destruct (Hm s' c Hc) as [H1 [c' H2]]. split; [done |]. by apply (inv_readers _ _ _ Hi s' c').
    - intros maxSeq. pose proof (oldestReader_spec db) as Ho. pose proof (oldestReader_spec (set_activeReaders m db)) as Hn. simpl in Hn.
      destruct (oldestReaderLocked (set_activeReaders m db)) as [o'|]; simpl; intros Hr.
      + destruct Hn as [[c Hc] _]. destruct (Hm o' c Hc) as [_ Hin]. destruct (oldestReaderLocked db) as [o|]; simpl.
        * destruct Ho as [_ Ho]. specialize (Ho o' Hin). lia.
        * rewrite Ho in Hin. by destruct Hin as [? Hin%lookup_empty_Some].
      + destruct (oldestReaderLocked db) as [o|]; simpl; [| lia]. destruct Ho as [[c Ho] _]. destruct (inv_readers _ _ _ Hi o c Ho). lia. }
  destruct (Z.leb_spec count 1); apply Hgen; intros s' c Hc.
  - apply lookup_delete_Some in Hc as [_ Hc]. split; [by apply (inv_readers _ _ _ Hi) in Hc as [] | eauto].
  - apply lookup_insert_Some in Hc as [[<- <-] | [_ Hc]]; [| split; [by apply (inv_readers _ _ _ Hi) in Hc as [] | eauto]].
    unfold count in *. destruct (activeReaders db !! s) eqn:E; simpl in *; [split; [lia | eauto] | lia].
Qed.

(** The registry counts. *)
Lemma register_count q (db : DB) q' :
  default 0 (activeReaders (registerReaderLocked q db) !! q') = default 0 (activeReaders db !! q') + if decide (q' = q) then 1 else 0.
Proof.
  cbn [registerReaderLocked activeReaders set_activeReaders]. case_decide as Hq.
  - subst q'. by rewrite lookup_insert_eq.
  - rewrite lookup_insert_ne by done. lia.
Qed.

Lemma unregister_count q (db : DB) :
  0 < default 0 (activeReaders db !! q) ->
  exists m, unregisterReaderLocked q db = set_activeReaders m db /\
    forall q', default 0 (m !! q') = default 0 (activeReaders db !! q') - if decide (q' = q) then 1 else 0.
Proof.
  intros Hc. unfold unregisterReaderLocked. destruct (Z.leb_spec (default 0 (activeReaders db !! q)) 1); eexists; split; try done;
    intros q'; destruct (decide (q' = q)) as [-> | Hne].
  - rewrite lookup_delete_eq. simpl. lia.
  - rewrite lookup_delete_ne by done. lia.
  - by rewrite lookup_insert_eq.
  - rewrite lookup_insert_ne by done. lia.
Qed.

End readers.
