(* ===== verification/DbRounds.v ===== *)
(** * The compaction worker

    A round of the worker compacts until there is no work left.  Every
    successful compaction empties level 0 into one table of level 1, or moves a
    table of level 1 to level 2, so twice the tables of level 0 plus those of
    level 1 decrease and the round ends. *)

From S2P Require Import Float64 Bloom BlockCache Wal MemTableClaims.
From S2P Require Export DbInv DbCompactRun.

(** The number of tables of a level. *)
Definition level_count (level : Z) (tables : list SSTableMetadata) : nat := length (filter (at_level level) tables).

(** The measure of the round. *)
Definition pending_work (tables : list SSTableMetadata) : nat := (2 * level_count 0 tables + level_count 1 tables)%nat.

Lemma level_count_perm level l k : l ≡ₚ k -> level_count level l = level_count level k.
Proof. intros H. unfold level_count. by rewrite H. Qed.

Lemma level_count_cons level m l :
  level_count level (m :: l) = ((if decide (at_level level m) then 1 else 0) + level_count level l)%nat.
Proof. unfold level_count. rewrite filter_cons. by destruct (decide _). Qed.

Lemma level_count_app level l k : level_count level (l ++ k) = (level_count level l + level_count level k)%nat.
Proof. unfold level_count. by rewrite filter_app, length_app. Qed.

Lemma level_count_zero level l : (forall m, m ∈ l -> Level m <> level) -> level_count level l = 0%nat.
Proof.
  intros H. unfold level_count. rewrite list_filter_nil; [done |]. apply Forall_forall. intros m Hm. by apply H.
Qed.

Lemma level_count_pos level l m : m ∈ l -> Level m = level -> (0 < level_count level l)%nat.
Proof.
  intros Hm Hl. unfold level_count. assert (Hin : m ∈ filter (at_level level) l) by (by apply list_elem_of_filter).
  destruct (filter (at_level level) l); [by apply elem_of_nil in Hin | simpl; lia].
Qed.

Lemma filter_split {A} (f : A -> bool) (l : list A) :
  l ≡ₚ filter (fun x => f x = true) l ++ filter (fun x => f x = false) l.
Proof.
  induction l as [|x l IH]; [done |]. rewrite !filter_cons. destruct (f x).
  - rewrite decide_True, decide_False by congruence. simpl. by constructor.
  - rewrite decide_False, decide_True by congruence. rewrite <- Permutation_middle. by constructor.
Qed.

(** A compaction leaves less work. *)
Lemma compacted_less (d : fs) tables threshold plan tables' :
  NoDup (ID <$> tables) -> choose_plan d tables threshold = Some (Some plan) -> compacted tables plan tables' ->
  (pending_work tables' < pending_work tables)%nat.
Proof.
  intros Hnd Hch (cm & Hcm & ->). destruct (choose_plan_spec d tables threshold) as (p & E & Hp).
  assert (p = Some plan) as -> by congruence.
  destruct (Hp plan eq_refl) as (src & selected & Hsrc & Htl & Hin & Hne & Hsel & Hz & _).
  set (f := fun m => bool_decide (ID m ∈ ID <$> Inputs plan)).
  assert (Hf : forall m, m ∈ tables -> f m = true <-> m ∈ Inputs plan).
  { intros m Hm. unfold f. rewrite bool_decide_eq_true. split; [| intros H; by apply list_elem_of_fmap_2].
    intros (m' & Heq & Hm')%list_elem_of_fmap. assert (m = m') as ->; [| done].
    eapply (NoDup_fmap_inj_on ID); [done | done | | done]. rewrite Hin in Hm'.
    apply elem_of_app in Hm' as [Hm' | Hm']; [by apply Hsel | by apply overlapping_elem in Hm' as []]. }
  destruct selected as [|m0 sel']; [done |]. destruct (Hsel m0 ltac:(by left)) as [Hm0 Hl0].
  assert (Hf0 : f m0 = true) by (apply Hf; [done |]; rewrite Hin; by left).
  set (S1 := filter (fun x => f x = true) tables). set (S2 := filter (fun x => f x = false) tables).
  assert (Hp1 : replace_selected f cm false tables ≡ₚ cm :: S2).
  { rewrite replace_selected_perm. replace (existsb f tables) with true; [done |]. symmetry. apply existsb_exists.
    exists m0. by rewrite <- list_elem_of_In. }
  assert (Hs1 : forall m, m ∈ S1 -> Level m = src \/ Level m = src + 1).
  { intros m [Hm Hmt]%list_elem_of_filter. apply Hf in Hm; [| done]. rewrite Hin in Hm.
    apply elem_of_app in Hm as [Hm | Hm]; [left; by apply Hsel | right; by apply overlapping_elem in Hm as []]. }
  assert (Hm1 : (0 < level_count src S1)%nat) by (apply (level_count_pos src S1 m0); [by apply list_elem_of_filter | done]).
  unfold pending_work.
  assert (Hc : forall lvl, level_count lvl (replace_selected f cm false tables) = level_count lvl (cm :: S2))
    by (intros lvl; by apply level_count_perm).
  assert (Ht : forall lvl, level_count lvl tables = level_count lvl (S1 ++ S2))
    by (intros lvl; apply level_count_perm, filter_split).
  rewrite !Hc, !Ht, !level_count_cons, !level_count_app.
  assert (Hl : Level cm = src + 1) by congruence.
  destruct (decide (at_level 0 cm)) as [Hd | _]; [unfold at_level in Hd; lia |].
  destruct (decide (at_level 1 cm)) as [Hd | Hd]; unfold at_level in Hd; destruct Hsrc as [-> | ->]; lia.
Qed.

Section rounds.
Context {lz : LZ4Codec} {laws : LZ4Laws} {C : Type} `{!Cache C}.
Context (Hash128 : bytes -> Z * Z) (math_Log : float64 -> float64) (conv : float64 -> Z).
Local Abbreviation DB := (DB C).
Local Abbreviation inv := (inv Hash128).

Lemma hasCompactionWork_spec (d : fs) tables threshold :
  exists p, choose_plan d tables threshold = Some p /\ hasCompactionWork d tables threshold = Some (bool_decide (is_Some p)).
Proof.
  unfold choose_plan, hasCompactionWork.
  destruct (PickCompaction_spec (stat d) tables L0 threshold ltac:(done)) as (r & -> & _). cbn [mbind option_bind].
  destruct r as [plan|]; [by exists (Some plan) |].
  destruct (PickCompaction_spec (stat d) tables (L0 + 1) threshold ltac:(done)) as (r & -> & _). by exists r.
Qed.

Lemma keeps_refl (db : DB) g : compaction_keeps db g db g.
Proof. apply (keeps_same db g (blockCache db) (dir db)); [done | by destruct db]. Qed.

(** The worker stops when there is nothing to compact or a compaction fails. *)
Definition settled (fuel : nat) (es : nat -> env) (db : DB) : Prop :=
  hasCompactionWork (dir db) (SSTables (manifest db)) (compactionThreshold db) = Some false \/
  exists k err db0, compactLocked Hash128 math_Log conv fuel (es k) (compactionThreshold db0) db0 = Some (Err err, db).

(** Like [compaction_keeps], for several compactions. *)
Record rounds_keep (k : nat) (db : DB) (g : ghost) (db' : DB) (g' : ghost) : Prop := mkRoundsKeep {
  rk_hist : g_hist g' = g_hist g;
  rk_client : same_client db db';
  rk_wal : NextWALSegmentID (manifest db') = NextWALSegmentID (manifest db);
  rk_next : NextSSTableID (manifest db') <= NextSSTableID (manifest db) + Z.of_nat k;
  rk_flush : undisturbed db g db' g';
}.

Lemma compaction_rounds_inv (n : Z) k fuel (es : nat -> env) (db : DB) g :
  inv db g -> within_budget (g_hist g) -> len (g_hist g) <= n -> sizing_fits math_Log conv n (sstableWriteOptions db) ->
  (length (g_hist g) < fuel)%nat -> (pending_work (SSTables (manifest db)) < k)%nat ->
  NextSSTableID (manifest db) + Z.of_nat k <= u64_max ->
  exists db' g', compaction_rounds Hash128 math_Log conv k fuel es db = Some db' /\ inv db' g' /\ rounds_keep k db g db' g' /\
    settled fuel es db'.
Proof.
  revert db g. induction k as [|k IH]; intros db g Hi Hb Hn Hsz Hf Hw Hid; [lia |]. cbn [compaction_rounds].
  destruct (hasCompactionWork_spec (dir db) (SSTables (manifest db)) (compactionThreshold db)) as (p & Hp & Hwork). rewrite Hwork. cbn [mbind option_bind].
  destruct p as [plan|]; cbn [negb bool_decide]; [| rewrite bool_decide_eq_false_2 by (by intros []); cbn [negb]].
  2: { exists db, g. split; [done |]. split; [done |]. split; [destruct (keeps_refl db g); constructor; try done; lia |].
       left. by rewrite Hwork, bool_decide_eq_false_2 by (by intros []). }
  rewrite bool_decide_eq_true_2 by eauto. cbn [negb].
  destruct (compactLocked_inv Hash128 math_Log conv n fuel (es k) (compactionThreshold db) db g Hi Hb Hn Hsz Hf ltac:(lia))
    as (r & db1 & g1 & Ec & Hi1 & [K1 K2 K3 K4 K5] & p' & Hp' & Hc).
  rewrite Ec. cbn [mbind option_bind]. assert (p' = Some plan) as -> by congruence. destruct r as [[]|err].
  2: { exists db1, g1. split; [done |]. split; [done |]. split; [constructor; try done; lia |]. right. by exists k, err, db. }
  pose proof (compacted_less _ _ _ _ _ ltac:(rewrite (inv_meta_ids Hash128 db g Hi); apply (io_nodup _ _ (inv_ids _ _ _ Hi))) Hp
    (Hc plan eq_refl eq_refl)) as Hless.
  pose proof K2 as (_ & _ & _ & _ & Kw).
  destruct (IH db1 g1 Hi1) as (db' & g' & -> & Hi' & [R1 R2 R3 R4 R5] & Hst); [by rewrite K1 | by rewrite K1 | by rewrite Kw | by rewrite K1 | lia | lia |].
  exists db', g'. split; [done |]. split; [done |]. split; [| done].
  constructor; [congruence | | congruence | lia | by eapply undisturbed_trans].
  destruct K2 as (? & ? & ? & ? & ?), R2 as (? & ? & ? & ? & ?). repeat split; congruence.
Qed.

Lemma pending_work_bound tables : (pending_work tables < S (2 * length tables))%nat.
Proof.
  unfold pending_work. assert (level_count 0 tables + level_count 1 tables <= length tables)%nat; [| lia].
  induction tables as [|m tables IH]; [done |]. rewrite !level_count_cons. cbn [length].
  destruct (decide (at_level 0 m)) as [Hd | _], (decide (at_level 1 m)) as [Hd' | _]; unfold at_level in *; lia.
Qed.

End rounds.
