(* ===== verification/DbSystem.v ===== *)
(** * The running database

    The database with the goroutines that share it: clients, the flush worker
    ([flushLoop]), the compaction worker ([compactionLoop]) and [Close].  Every
    critical section of [db.mu] is one step, and so is every section of the
    flush worker outside the lock; a run is any interleaving of such steps,
    given as the list of events the scheduler picks. *)

From S2P Require Import Float64 Bloom BlockCache Wal.
From S2P Require Export DbState Db DbIterator.

(** ** The workers *)

(** Where the flush worker is.  [final] is set in the last round, which runs
    when [flushSignal] has been closed. *)
Inductive flusher :=
| FWaiting                                              (** receiving from [flushSignal] *)
| FLooping (final : bool)                               (** at the head of [flushUntilEmpty] *)
| FPicked (final : bool) (imm : immutable)              (** calling [flushImmutableMemtable] *)
| FAllocated (final : bool) (imm : immutable) (id : Z)  (** the identifier is taken *)
| FCreated (final : bool) (imm : immutable) (meta : SSTableMetadata)  (** the table is written *)
| FPublished (final : bool) (imm : immutable)           (** the manifest is written *)
| FDone.

(** Where the compaction worker is. *)
Inductive compactor := KWaiting | KReceived | KDone.

(** Where [Close] is. *)
Inductive closer := NotClosing | AwaitFlusher | AwaitCompactor | CloseDone.

Section system.
Context {lz : LZ4Codec} {C : Type} `{!Cache C}.
Context (Hash128 : bytes -> Z * Z) (math_Log : float64 -> float64) (conv : float64 -> Z).
Context (fuel : nat).
Local Abbreviation DB := (DB C).

Record sys := mkSys {
  s_db : DB;
  s_flusher : flusher;
  s_compactor : compactor;
  s_closer : closer;
  s_snapshots : list Snapshot;               (** those that clients were given *)
  s_iterators : list (Iterator (C := C));    (** likewise *)
}.

Definition set_db (db : DB) (s : sys) : sys :=
  mkSys db (s_flusher s) (s_compactor s) (s_closer s) (s_snapshots s) (s_iterators s).
Definition set_flusher (f : flusher) (s : sys) : sys :=
  mkSys (s_db s) f (s_compactor s) (s_closer s) (s_snapshots s) (s_iterators s).
Definition set_compactor (k : compactor) (s : sys) : sys :=
  mkSys (s_db s) (s_flusher s) k (s_closer s) (s_snapshots s) (s_iterators s).
Definition set_closer (c : closer) (s : sys) : sys :=
  mkSys (s_db s) (s_flusher s) (s_compactor s) c (s_snapshots s) (s_iterators s).
Definition set_snapshots (l : list Snapshot) (s : sys) : sys :=
  mkSys (s_db s) (s_flusher s) (s_compactor s) (s_closer s) l (s_iterators s).
Definition set_iterators (l : list (Iterator (C := C))) (s : sys) : sys :=
  mkSys (s_db s) (s_flusher s) (s_compactor s) (s_closer s) (s_snapshots s) l.

(** [close(db.compactionSignal)] has been called. *)
Definition compactionClosed (s : sys) : bool :=
  match s_closer s with AwaitCompactor | CloseDone => true | _ => false end.

(** A send on [compactionSignal]; on the closed channel it panics. *)
Definition send_compaction (s : sys) : option sys :=
  if compactionClosed s then None else Some (set_db (signalCompaction (s_db s)) s).

(** [flushUntilEmpty] returns: to the loop, or from the last round. *)
Definition flusher_return (final : bool) (s : sys) : option sys :=
  if final then
    s ← send_compaction s;
    Some (set_flusher FDone s)
  else Some (set_flusher FWaiting s).

Definition flusher_goto (f : flusher) (db : DB) (s : sys) : sys :=
  set_flusher f (set_db db s).

(** One step of the flush worker.  A step that waits for a signal or for the
    channel to be closed leaves everything as it is. *)
Definition flusher_step (e : env) (s : sys) : option sys :=
  let db := s_db s in
  match s_flusher s with
  | FWaiting =>
      if flushSignal db then Some (flusher_goto (FLooping false) (set_flushSignal false db) s)
      else if closed db then Some (flusher_goto (FLooping true) db s)
      else Some s
  | FLooping final =>
      match immutableMemtables db with
      | [] => flusher_return final s
      | imm :: _ => Some (flusher_goto (FPicked final imm) db s)
      end
  | FPicked final imm =>
      let '(id, db) := flush_begin db in
      Some (flusher_goto (FAllocated final imm id) db s)
  | FAllocated final imm id =>
      '(r, db) ← flush_create Hash128 math_Log conv e imm id db;
      match r with
      | Err _ => flusher_return final (set_db db s)
      | Ok meta => Some (flusher_goto (FCreated final imm meta) db s)
      end
  | FCreated final imm meta =>
      '(r, db) ← flush_publish e imm meta db;
      match r with
      | Err _ => flusher_return final (set_db db s)
      | Ok _ => Some (flusher_goto (FPublished final imm) db s)
      end
  | FPublished final imm =>
      if compactionClosed s then None
      else
        let '(r, db) := flush_finish e imm db in
        match r with
        | Err _ => flusher_return final (set_db db s)
        | Ok _ => Some (flusher_goto (FLooping final) db s)
        end
  | FDone => Some s
  end.

(** The most rounds one signal can cause. *)
Definition rounds (db : DB) : nat := S (2 * length (SSTables (manifest db))).

Definition compactor_step (es : nat -> env) (s : sys) : option sys :=
  let db := s_db s in
  match s_compactor s with
  | KWaiting =>
      if compactionSignal db
      then Some (set_compactor KReceived (set_db (set_compactionSignal false db) s))
      else if compactionClosed s then Some (set_compactor KDone s)
      else Some s
  | KReceived =>
      db ← compaction_rounds Hash128 math_Log conv (rounds db) fuel es db;
      Some (set_compactor KWaiting (set_db db s))
  | KDone => Some s
  end.

(** One step of [Close]: marking the database closed, and the two waits. *)
Definition closer_step (s : sys) : sys :=
  match s_closer s with
  | NotClosing => set_closer AwaitFlusher (set_db (set_closed true (s_db s)) s)
  | AwaitFlusher =>
      match s_flusher s with
      | FDone => set_closer AwaitCompactor s
      | _ => s
      end
  | AwaitCompactor =>
      match s_compactor s with
      | KDone => set_closer CloseDone s
      | _ => s
      end
  | CloseDone => s
  end.

(** ** Clients *)

(** A batch that is filled with [ops] up to the first error and committed, as
    [WriteBatch] of the service does. *)
Fixpoint fill_batch (db : DB) (ops : list batch_op) (b : Batch) : result db_error unit * Batch :=
  match ops with
  | [] => (Ok tt, b)
  | op :: ops =>
      match (if op_Deleted op then Batch_Delete db (op_Key op) b else Batch_Put db (op_Key op) (op_Value op) b) with
      | (Ok _, b) => fill_batch db ops b
      | (Err err, b) => (Err err, b)
      end
  end.

Definition write_batch (e : env) (ops : list batch_op) (sync : bool) (db : DB) : option (result db_error unit * DB) :=
  match fill_batch db ops NewBatch with
  | (Err err, _) => Some (Err err, db)
  | (Ok _, b) => '(r, _, db) ← Batch_Commit e sync b db; Some (r, db)
  end.

(** What happens next. *)
Inductive event :=
| EPut (e : env) (key value : bytes)
| EDelete (e : env) (key : bytes)
| EBatch (e : env) (ops : list batch_op) (sync : bool)
| EGet (key : bytes)
| ESnapshot
| ESnapshotGet (i : nat) (key : bytes)
| ESnapshotClose (i : nat)
| EIterator (o : IteratorOptions)
| EScanPrefix (prefix : bytes)
| ESnapshotIterator (i : nat) (o : IteratorOptions)
| ESnapshotScan (i : nat) (prefix : bytes)
| ENext (i : nat)
| EIteratorClose (i : nat)
| ECompact (e : env)
| EFlusher (e : env)
| ECompactor (es : nat -> env)
| ECloser.

(** What a client is told. *)
Inductive output :=
| ODone (r : result db_error unit)
| OValue (r : result db_error bytes)
| OSnapshot (r : result db_error nat)
| OIterator (r : result db_error nat)
| ONext (r : result db_error (option (bytes * bytes)))  (** [Err()], or the record that [Next()] found *)
| ONothing.

(** A new iterator is handed to the client. *)
Definition hand_out (r : result db_error (Iterator (C := C))) (s : sys) : output * sys :=
  match r with
  | Err err => (OIterator (Err err), s)
  | Ok it => (OIterator (Ok (length (s_iterators s))), set_iterators (s_iterators s ++ [it]) s)
  end.

Definition exec (ev : event) (s : sys) : option (output * sys) :=
  let db := s_db s in
  match ev with
  | EPut e key value => '(r, db) ← DB_Put e key value db; Some (ODone r, set_db db s)
  | EDelete e key => '(r, db) ← DB_Delete e key db; Some (ODone r, set_db db s)
  | EBatch e ops sync => '(r, db) ← write_batch e ops sync db; Some (ODone r, set_db db s)
  | EGet key => '(r, db) ← DB_Get Hash128 key db; Some (OValue r, set_db db s)
  | ESnapshot =>
      match NewSnapshot db with
      | (Err err, db) => Some (OSnapshot (Err err), set_db db s)
      | (Ok sn, db) =>
          Some (OSnapshot (Ok (length (s_snapshots s))),
            set_snapshots (s_snapshots s ++ [sn]) (set_db db s))
      end
  | ESnapshotGet i key =>
      match s_snapshots s !! i with
      | None => Some (ONothing, s)
      | Some sn => '(r, db) ← Snapshot_Get Hash128 sn key db; Some (OValue r, set_db db s)
      end
  | ESnapshotClose i =>
      match s_snapshots s !! i with
      | None => Some (ONothing, s)
      | Some sn =>
          let '(sn, db) := Snapshot_Close sn db in
          Some (ONothing, set_snapshots (<[i := sn]> (s_snapshots s)) (set_db db s))
      end
  | EIterator o => '(r, db) ← DB_NewIterator fuel o db; Some (hand_out r (set_db db s))
  | EScanPrefix prefix => '(r, db) ← DB_ScanPrefix fuel prefix db; Some (hand_out r (set_db db s))
  | ESnapshotIterator i o =>
      match s_snapshots s !! i with
      | None => Some (ONothing, s)
      | Some sn => '(r, db) ← Snapshot_NewIterator fuel sn o db; Some (hand_out r (set_db db s))
      end
  | ESnapshotScan i prefix =>
      match s_snapshots s !! i with
      | None => Some (ONothing, s)
      | Some sn => '(r, db) ← Snapshot_ScanPrefix fuel sn prefix db; Some (hand_out r (set_db db s))
      end
  | ENext i =>
      match s_iterators s !! i with
      | None => Some (ONothing, s)
      | Some it =>
          '(ok, it, cache) ← Iterator_Next fuel it (blockCache db);
          Some (ONext (match i_err it with
                       | Some err => Err (ErrTable err)
                       | None => Ok (if (ok : bool) then Some (Key (i_current it), rValue (i_current it)) else None)
                       end),
            set_iterators (<[i := it]> (s_iterators s)) (set_db (set_blockCache cache db) s))
      end
  | EIteratorClose i =>
      match s_iterators s !! i with
      | None => Some (ONothing, s)
      | Some it =>
          let '(it, db) := Iterator_Close it db in
          Some (ONothing, set_iterators (<[i := it]> (s_iterators s)) (set_db db s))
      end
  | ECompact e => '(r, db) ← DB_Compact Hash128 math_Log conv fuel e db; Some (ODone r, set_db db s)
  | EFlusher e => s ← flusher_step e s; Some (ONothing, s)
  | ECompactor es => s ← compactor_step es s; Some (ONothing, s)
  | ECloser => Some (ONothing, closer_step s)
  end.

Fixpoint run (evs : list event) (s : sys) : option (list output * sys) :=
  match evs with
  | [] => Some ([], s)
  | ev :: evs => '(o, s) ← exec ev s; '(os, s) ← run evs s; Some (o :: os, s)
  end.

(** [Open] starts the workers. *)
Definition start (db : DB) : sys := mkSys db FWaiting KWaiting NotClosing [] [].

(** ** The runs that are considered *)

(** The 64-bit counters are not exhausted. *)
Definition headroom (ev : event) (db : DB) : bool :=
  (nextSeq db + match ev with EBatch _ ops _ => len ops | _ => 0 end <? u64_max) &&
  (NextWALSegmentID (manifest db) <? u64_max) &&
  (NextSSTableID (manifest db) + Z.of_nat (rounds db) <? u64_max).

(** Rotations are not refused by the operating system. *)
Definition rotates (ev : event) : bool :=
  match ev with EPut e _ _ | EDelete e _ | EBatch e _ _ => mild e | _ => true end.

(** A flush that fails gives back the last identifier that was taken. *)
Definition rolls_back (s s' : sys) : bool :=
  NextSSTableID (manifest (s_db s)) - 1 <=? NextSSTableID (manifest (s_db s')).

Fixpoint tame (evs : list event) (s : sys) : bool :=
  match evs with
  | [] => true
  | ev :: evs =>
      headroom ev (s_db s) && rotates ev &&
      match exec ev s with
      | Some (_, s') => rolls_back s s' && tame evs s'
      | None => true
      end
  end.

(** The records an event writes. *)
Definition writes (ev : event) : list record :=
  match ev with
  | EPut _ key value => [mkRecord key 0 (mkEntry value false) 0 BatchNone]
  | EDelete _ key => [mkRecord key 0 (mkEntry [] true) 0 BatchNone]
  | EBatch _ ops _ => batch_writes 0 ops
  | _ => []
  end.

End system.

Arguments sys : clear implicits.
Arguments mkSys {_} _ _ _ _ _ _.
