(* ===== verification/DbSpec.v ===== *)
(** * What the database promises its clients

    The abstract database is a map from keys to values, with a copy of the map
    for every snapshot that was taken.  [allowed] says what each event may
    answer and how it changes the map: writes that exceed a limit are refused,
    writes that the operating system fails change nothing, and flushes and
    compactions are invisible. *)

From stdpp Require Import sorting.
From S2P Require Import Float64 Bloom BlockCache Wal.
From S2P Require Export DbState Db DbSystem.

Local Abbreviation amap := (gmap bytes bytes).

Record astate := mkAstate {
  a_map : amap;
  a_snapshots : list (amap * bool);                    (** with whether it was closed *)
  a_iterators : list (list (bytes * bytes) * bool);    (** what is still to come, likewise *)
  a_closed : bool;
}.

Definition with_map (m : amap) (a : astate) : astate := mkAstate m (a_snapshots a) (a_iterators a) (a_closed a).

Definition with_iterators (l : list (list (bytes * bytes) * bool)) (a : astate) : astate :=
  mkAstate (a_map a) (a_snapshots a) l (a_closed a).

(** ** Ranges *)

(** A key of the range of an iterator. *)
Definition in_range (o : IteratorOptions) (key : bytes) : bool := negb (beforeStart o key) && negb (atOrPastEnd o key).

Definition kv_le (a b : bytes * bytes) : Prop := key_leb a.1 b.1 = true.
Global Instance kv_le_dec : RelDecision kv_le.
Proof. intros a b. unfold kv_le. apply _. Defined.

(** The entries of the map whose keys satisfy [f], in the order of the keys. *)
Definition range (f : bytes -> bool) (m : amap) : list (bytes * bytes) :=
  merge_sort kv_le (filter (fun kv => f kv.1 = true) (map_to_list m)).

(** ** Limits *)

Section limits.
Context (lim : LimitsOptions).

Definition too_large (key : bytes) : option db_error :=
  if len key >? MaxKeyBytes lim then Some (ErrKeyTooLarge (len key) (MaxKeyBytes lim)) else None.

Definition too_large_value (value : bytes) : option db_error :=
  if len value >? MaxValueBytes lim then Some (ErrValueTooLarge (len value) (MaxValueBytes lim)) else None.

(** The bytes an operation counts for. *)
Definition op_size (op : batch_op) : Z := len (op_Key op) + if op_Deleted op then 0 else len (op_Value op).

(** The first error when [ops] are added to a batch of [n] operations that
    count for [size] bytes. *)
Fixpoint check_ops (n size : Z) (ops : list batch_op) : option db_error :=
  match ops with
  | [] => None
  | op :: ops =>
      match too_large (op_Key op), (if op_Deleted op then None else too_large_value (op_Value op)) with
      | Some err, _ | None, Some err => Some err
      | None, None =>
          if n >=? MaxBatchOperations lim then Some (ErrBatchOperations (MaxBatchOperations lim))
          else if size + op_size op >? MaxBatchBytes lim then Some (ErrBatchBytes (MaxBatchBytes lim))
          else check_ops (n + 1) (size + op_size op) ops
      end
  end.

(** ** Operations *)

Definition apply_op (m : amap) (op : batch_op) : amap :=
  if op_Deleted op then delete (op_Key op) m else <[op_Key op := op_Value op]> m.

(** A write either takes effect or is refused by the operating system, in which
    case it changes nothing. *)
Definition written (e : env) (sync : bool) (m : amap) (a : astate) (out : output) (a' : astate) : Prop :=
  (out = ODone (Ok tt) /\ a' = with_map m a) \/
  ((is_Some (e_append e) \/ sync && e_sync e = true) /\ out = ODone (Err ErrOS) /\ a' = a).

(** A write with the error it is refused with, if any. *)
Definition checked (err : option db_error) (e : env) (sync : bool) (m : amap) (a : astate) (out : output) (a' : astate) : Prop :=
  match err with
  | Some err => out = ODone (Err err) /\ a' = a
  | None => written e sync m a out a'
  end.

Definition if_closed (a : astate) (err : option db_error) : option db_error :=
  if a_closed a then Some ErrClosed else err.

(** A read of the map [m]. *)
Definition answer_get (a : astate) (m : amap) (key : bytes) : result db_error bytes :=
  match if_closed a (too_large key) with
  | Some err => Err err
  | None => reply (m !! key)
  end.

(** A new iterator that will yield [kvs]. *)
Definition iterating (err : option db_error) (kvs : list (bytes * bytes)) (a : astate) (out : output) (a' : astate) : Prop :=
  match err with
  | Some err => out = OIterator (Err err) /\ a' = a
  | None => out = OIterator (Ok (length (a_iterators a))) /\ a' = with_iterators (a_iterators a ++ [(kvs, false)]) a
  end.

(** An iterator of the [i]-th snapshot. *)
Definition on_snapshot (i : nat) (f : amap -> Prop) (a : astate) (out : output) (a' : astate) : Prop :=
  match a_snapshots a !! i with
  | None => out = ONothing /\ a' = a
  | Some (m, true) => out = OIterator (Err ErrSnapshotClosed) /\ a' = a
  | Some (m, false) => f m
  end.

Definition orelse (x y : option db_error) : option db_error := match x with Some _ => x | None => y end.

Definition allowed (ev : event) (a : astate) (out : output) (a' : astate) : Prop :=
  match ev with
  | EPut e key value =>
      checked (if_closed a (orelse (too_large key) (too_large_value value))) e false (<[key := value]> (a_map a)) a out a'
  | EDelete e key => checked (if_closed a (too_large key)) e false (delete key (a_map a)) a out a'
  | EBatch e ops sync =>
      checked (orelse (check_ops 0 0 ops) (if_closed a None)) e sync (foldl apply_op (a_map a) ops) a out a'
  | EGet key => out = OValue (answer_get a (a_map a) key) /\ a' = a
  | ESnapshot =>
      if a_closed a then out = OSnapshot (Err ErrClosed) /\ a' = a
      else out = OSnapshot (Ok (length (a_snapshots a))) /\
        a' = mkAstate (a_map a) (a_snapshots a ++ [(a_map a, false)]) (a_iterators a) (a_closed a)
  | ESnapshotGet i key =>
      match a_snapshots a !! i with
      | None => out = ONothing
      | Some (m, true) => out = OValue (Err ErrSnapshotClosed)
      | Some (m, false) => out = OValue (answer_get a m key)
      end /\ a' = a
  | ESnapshotClose i =>
      out = ONothing /\ a' = mkAstate (a_map a) (alter (fun s => (s.1, true)) i (a_snapshots a)) (a_iterators a) (a_closed a)
  | EIterator o => iterating (if_closed a (orelse (too_large (Start o)) (too_large (End_ o)))) (range (in_range o) (a_map a)) a out a'
  | EScanPrefix prefix =>
      iterating (if_closed a (orelse (too_large prefix) (too_large (PrefixEnd prefix)))) (range (fun k => HasPrefix k prefix) (a_map a)) a out a'
  | ESnapshotIterator i o =>
      on_snapshot i (fun m =>
        iterating (if_closed a (orelse (too_large (Start o)) (too_large (End_ o)))) (range (in_range o) m) a out a') a out a'
  | ESnapshotScan i prefix =>
      on_snapshot i (fun m =>
        iterating (if_closed a (orelse (too_large prefix) (too_large (PrefixEnd prefix)))) (range (fun k => HasPrefix k prefix) m) a out a') a out a'
  | ENext i =>
      match a_iterators a !! i with
      | None => out = ONothing /\ a' = a
      | Some (kv :: kvs, false) => out = ONext (Ok (Some kv)) /\ a' = with_iterators (<[i := (kvs, false)]> (a_iterators a)) a
      | Some _ => out = ONext (Ok None) /\ a' = a
      end
  | EIteratorClose i => out = ONothing /\ a' = with_iterators (alter (fun it => (it.1, true)) i (a_iterators a)) a
  | ECompact _ => (exists r, out = ODone r) /\ a' = a
  | EFlusher _ | ECompactor _ => out = ONothing /\ a' = a
  | ECloser => out = ONothing /\ a' = mkAstate (a_map a) (a_snapshots a) (a_iterators a) true
  end.

(** The outputs of a sequence of events. *)
Inductive allowed_run : list event -> astate -> list output -> astate -> Prop :=
| allowed_nil a : allowed_run [] a [] a
| allowed_cons ev evs a out a1 outs a2 :
    allowed ev a out a1 -> allowed_run evs a1 outs a2 -> allowed_run (ev :: evs) a (out :: outs) a2.

End limits.
