(* ===== verification/DbPrefix.v ===== *)
(** * Prefix scans

    [PrefixEnd] is the least key above every key with the prefix: a scan from
    the prefix up to it meets exactly the keys that have the prefix. *)

From S2P Require Import Segments.
From S2P Require Export DbSpec.

Lemma prefix_end_rev_snoc l c :
  prefix_end_rev (l ++ [c]) = match prefix_end_rev l with [] => prefix_end_rev [c] | e => e ++ [c] end.
Proof. induction l as [|b l IH]; [done |]. cbn [app prefix_end_rev]. by destruct (negb (b2z b =? 255)). Qed.

(** The loop of [PrefixEnd], from the front. *)
Lemma PrefixEnd_cons c p :
  PrefixEnd (c :: p) =
    match PrefixEnd p with
    | [] => if b2z c =? 255 then [] else [z2b (b2z c + 1)]
    | e => c :: e
    end.
Proof.
  unfold PrefixEnd. rewrite reverse_cons, prefix_end_rev_snoc. destruct (prefix_end_rev (reverse p)) as [|b e] eqn:E.
  - cbn [reverse rev_append prefix_end_rev]. by destruct (b2z c =? 255).
  - rewrite reverse_snoc. destruct (reverse (b :: e)) as [|b' e'] eqn:Er; [| done].
    apply (f_equal length) in Er. rewrite length_reverse in Er. done.
Qed.

Lemma key_leb_cons x a y b : key_leb (x :: a) (y :: b) = match b2z x ?= b2z y with Eq => key_leb a b | Lt => true | Gt => false end.
Proof. unfold key_leb. cbn [bytes_cmp]. by destruct (b2z x ?= b2z y). Qed.

Lemma key_ltb_cons x a y b : key_ltb (x :: a) (y :: b) = match b2z x ?= b2z y with Eq => key_ltb a b | Lt => true | Gt => false end.
Proof. unfold key_ltb. cbn [bytes_cmp]. by destruct (b2z x ?= b2z y). Qed.

Lemma HasPrefix_cons b k c p : HasPrefix (b :: k) (c :: p) = (b2z b =? b2z c) && HasPrefix k p.
Proof.
  unfold HasPrefix. cbn [length take]. destruct (Z.eqb_spec (b2z b) (b2z c)) as [Hb | Hb]; cbn [andb].
  - apply b2z_inj in Hb. subst c. apply bool_decide_ext. split; [by intros [= ->] | by intros ->].
  - apply bool_decide_eq_false. intros [= -> _]. done.
Qed.

(** The keys between a prefix and its end. *)
Lemma prefix_between p k :
  key_leb p k && (key_eqb (PrefixEnd p) [] || key_ltb k (PrefixEnd p)) = HasPrefix k p.
Proof.
  revert k. induction p as [|c p IH]; intros k; [by destruct k |]. destruct k as [|b k]; [done |].
  rewrite PrefixEnd_cons, HasPrefix_cons, key_leb_cons, <- IH.
  destruct (PrefixEnd p) as [|c' e].
  - pose proof (b2z_range b). pose proof (b2z_range c). cbn [key_eqb bytes_cmp orb]. rewrite andb_true_r.
    destruct (Z.eqb_spec (b2z c) 255) as [Hc | Hc].
    + cbn [orb key_eqb bytes_cmp]. rewrite andb_true_r.
      destruct (Z.compare_spec (b2z c) (b2z b)) as [He | He | He], (Z.eqb_spec (b2z b) (b2z c)); try lia; done.
    + cbn [orb key_eqb bytes_cmp]. rewrite key_ltb_cons, b2z_z2b, Z.mod_small by lia.
      destruct (Z.compare_spec (b2z c) (b2z b)) as [He | He | He], (Z.eqb_spec (b2z b) (b2z c)); try lia; cbn [andb]; try done.
      * destruct (Z.compare_spec (b2z b) (b2z c + 1)); try lia. by rewrite andb_true_r.
      * destruct (Z.compare_spec (b2z b) (b2z c + 1)); try lia; by destruct k.
  - cbn [orb key_eqb bytes_cmp]. rewrite key_ltb_cons.
    destruct (Z.compare_spec (b2z c) (b2z b)) as [He | He | He], (Z.compare_spec (b2z b) (b2z c)), (Z.eqb_spec (b2z b) (b2z c)); try lia; done.
Qed.

(** The range of a prefix scan. *)
Lemma prefix_range p k : in_range (mkIterOptions p (PrefixEnd p)) k = HasPrefix k p.
Proof.
  rewrite <- prefix_between. unfold in_range, beforeStart, atOrPastEnd. cbn [Start End_].
  rewrite !negb_andb, !negb_involutive. f_equal.
  - destruct p as [|c p]; [by destruct k |]. cbn [key_eqb bytes_cmp orb]. destruct (key_ltb_spec k (c :: p)), (key_leb_spec (c :: p) k); try done; key_order.
  - f_equal. destruct (key_leb_spec (PrefixEnd p) k), (key_ltb_spec k (PrefixEnd p)); try done; key_order.
Qed.

(** C15: prefix scans.  A key lies in the range of [ScanPrefix(prefix)], from
    the prefix up to [PrefixEnd(prefix)] or without an end, exactly when it has
    the prefix; so does, with trailing 0xff bytes, every prefix. *)
Theorem prefix_scan_range prefix key :
  in_range (mkIterOptions prefix (PrefixEnd prefix)) key = HasPrefix key prefix /\
  (PrefixEnd prefix = [] <-> Forall (fun c => b2z c = 255) prefix).
Proof.
  split; [apply prefix_range |]. induction prefix as [|c p IH]; [by split |]. rewrite PrefixEnd_cons, Forall_cons, <- IH.
  destruct (PrefixEnd p); [| by split; [| intros []]]. destruct (Z.eqb_spec (b2z c) 255); naive_solver.
Qed.
