(* ===== verification/DbScan.v ===== *)
(** * The merge of the database iterator

    [Next] yields, in key order, the newest version of every key in the range
    at or below the sequence number, except deleted ones.  The sources read
    through the block cache, which other users change in between: a source is
    described by what it yields under every cache invariant of a family. *)

From S2P Require Import Float64 Bloom BlockCache Wal MemTableClaims MergeRefine.
From S2P Require Export DbIterator History.

(** ** The order of the heap *)

Lemma mergeHeap_le a b : hle mergeHeap_Less a b <-> rec_le (irec a) (irec b).
Proof.
  unfold hle, mergeHeap_Less. rewrite rec_le_iff.
  destruct (key_eqb_spec (Key (irec b)) (Key (irec a))) as [Ek | Hk]; simpl.
  - rewrite Ek. destruct (Z.gtb_spec (Seq (irec b)) (Seq (irec a))); split; try done.
    + intros [H1 | [_ H1]]; [key_order | lia].
    + intros _. right. split; [done | lia].
  - rewrite key_ltb_ge. split.
    + intros [H | H]%key_le_lteq; [by left | congruence].
    + intros [H | [H _]]; [key_order | congruence].
Qed.

Lemma mergeHeap_irr a : mergeHeap_Less a a = false.
Proof. apply mergeHeap_le, rec_le_iff. right. split; [done | lia]. Qed.

Lemma mergeHeap_trans a b c : hle mergeHeap_Less a b -> hle mergeHeap_Less b c -> hle mergeHeap_Less a c.
Proof. rewrite !mergeHeap_le. apply rec_le_trans. Qed.

Lemma mergeHeap_tot a b : mergeHeap_Less a b = true -> hle mergeHeap_Less a b.
Proof.
  intros H. apply mergeHeap_le. apply rec_le_iff. unfold mergeHeap_Less in H.
  destruct (key_eqb_spec (Key (irec a)) (Key (irec b))) as [Ek | Hk]; simpl in H.
  - right. split; [done |]. rewrite Z.gtb_ltb, Z.ltb_lt in H. lia.
  - left. by apply key_ltb_lt.
Qed.

Lemma mergeHeap_rec a b : hle mergeHeap_Less a b -> rec_le (irec a) (irec b).
Proof. by rewrite mergeHeap_le. Qed.

(** ** Sources under a family of invariants *)

Fixpoint stream_in {S E I} `{!SharedIterator S E I} (Fam : (S -> Prop) -> Prop) (l : list record) (it : I) : Prop :=
  match l with
  | [] => forall Inv s, Fam Inv -> Inv s -> exists it' s', sh_next it s = Some (false, it', s') /\ sh_err it' = None /\ Inv s'
  | r :: l => forall Inv s, Fam Inv -> Inv s -> exists it' s', sh_next it s = Some (true, it', s') /\
      sh_record it' = r /\ Inv s' /\ stream_in Fam l it'
  end.

Section merge.
Context {lz : LZ4Codec} {C : Type} `{!Cache C}.
Context (Fam : (option C -> Prop) -> Prop) (Inv : option C -> Prop) (HInv : Fam Inv).
Context (fuel : nat) (o : IteratorOptions) (maxSeq : Z).
Local Abbreviation source := (source (C := C)).
Local Abbreviation Iterator := (Iterator (C := C)).
Local Abbreviation streams := (stream_in (S := option C) (E := read_error) (I := source) Fam).

(** The records the iterator looks at. *)
Definition wanted (r : record) : Prop :=
  Seq r <= maxSeq /\ beforeStart o (Key r) = false /\ atOrPastEnd o (Key r) = false.
Global Instance wanted_dec r : Decision (wanted r).
Proof. unfold wanted. apply _. Defined.

(** The source has the wanted records [l] ahead. *)
Definition pending (l : list record) (s : source) : Prop :=
  exists raw, streams raw s /\ wsorted raw /\ filter wanted raw = l /\ (length raw < fuel)%nat.

(** Past the end nothing is wanted. *)
Lemma past_end r raw : wsorted (r :: raw) -> atOrPastEnd o (Key r) = true -> filter wanted (r :: raw) = [].
Proof.
  intros Hs Hr. assert (Hall : forall x, x ∈ r :: raw -> ~ wanted x).
  { intros x Hx (_ & _ & Hw). pose proof (wsorted_head_le _ _ _ Hs Hx) as Hle%rec_le_key.
    unfold atOrPastEnd in *. apply andb_true_iff in Hr as [H1 H2]. rewrite H1 in Hw. cbn in Hw.
    apply key_leb_gt in Hw. apply key_leb_le in H2. key_order. }
  destruct (filter wanted (r :: raw)) as [|x l] eqn:E; [done |].
  assert (x ∈ filter wanted (r :: raw)) as [Hw Hx]%list_elem_of_filter by (rewrite E; by left). by destruct (Hall x Hx).
Qed.

Lemma advance_loop_spec k raw s cache :
  streams raw s -> wsorted raw -> (length raw < k <= fuel)%nat -> Inv cache ->
  exists s' cache', Inv cache' /\
    match filter wanted raw with
    | [] => advance_loop k o maxSeq s cache = Some (Ok None, s', cache')
    | r :: l => advance_loop k o maxSeq s cache = Some (Ok (Some r), s', cache') /\ pending l s'
    end.
Proof.
  revert k s cache. induction raw as [|r raw IH]; intros [|k] s cache Hst Hs Hf Hc; cbn [length] in Hf; try lia; cbn [advance_loop].
  - destruct (Hst Inv cache HInv Hc) as (s' & cache' & E & He & Hc'). exists s', cache'. split; [done |]. rewrite E. cbn [mbind option_bind]. by rewrite He.
  - destruct (Hst Inv cache HInv Hc) as (s' & cache' & E & Hr & Hc' & Hst'). rewrite E. cbn [mbind option_bind]. rewrite Hr.
    apply StronglySorted_inv in Hs as Hs'. destruct Hs' as [Hs' _].
    destruct (Z.gtb_spec (Seq r) maxSeq) as [Hseq | Hseq].
    { rewrite filter_cons_False by (intros (? & _); lia). by apply IH; [| | lia |]. }
    destruct (beforeStart o (Key r)) eqn:Eb.
    { rewrite filter_cons_False by (intros (_ & ? & _); congruence). by apply IH; [| | lia |]. }
    destruct (atOrPastEnd o (Key r)) eqn:Ee.
    { rewrite past_end by done. by exists s', cache'. }
    rewrite filter_cons_True by done. exists s', cache'. split; [done |]. split; [done |]. exists raw.
    split_and!; try done. lia.
Qed.

(** ** The invariant of the iterator *)

Definition same_iter (it it' : Iterator) : Prop :=
  i_opts it' = i_opts it /\ i_maxSeq it' = i_maxSeq it /\ i_current it' = i_current it /\ i_err it' = i_err it /\
  i_closed it' = i_closed it /\ i_registered it' = i_registered it.

Local Abbreviation kinv := (kinv mergeHeap_Less pending).

(** [P] is what the sources and the heap together still hold. *)
Record iter_inv (it : Iterator) (P : list (list record)) : Prop := mkIterInv {
  ii_opts : i_opts it = o;
  ii_seq : i_maxSeq it = maxSeq;
  ii_kinv : kinv (i_heap it) (i_sources it) P;
}.

Lemma advanceSource_spec i it P l s cache :
  i_opts it = o -> i_maxSeq it = maxSeq -> is_heap mergeHeap_Less (length (i_heap it)) (i_heap it) ->
  i_heap it ≡ₚ heads 0 (<[i := []]> P) -> length (i_sources it) = length P ->
  (forall j s r l, j <> i -> i_sources it !! j = Some s -> P !! j = Some (r :: l) -> pending l s) ->
  i_sources it !! i = Some s -> pending l s -> Inv cache ->
  exists it' cache', advanceSource fuel i it cache = Some (None, it', cache') /\ Inv cache' /\ iter_inv it' (<[i := l]> P) /\ same_iter it it' /\
    forall j, j <> i -> i_sources it' !! j = i_sources it !! j.
Proof.
  intros Ho Hq Hh Hperm Hlen Hrest Hi (raw & Hst & Hs & <- & Hf) Hc. unfold advanceSource. rewrite Hi, Ho, Hq. cbn [mbind option_bind].
  destruct (advance_loop_spec fuel raw s cache Hst Hs ltac:(lia) Hc) as (s' & cache' & Hc' & Hadv).
  assert (Hlt : (i < length P)%nat) by (rewrite <- Hlen; by eapply lookup_lt_Some).
  pose proof (kinv_advance mergeHeap_Less mergeHeap_trans mergeHeap_tot pending (i_heap it) (i_sources it) P i s' (filter wanted raw)
    Hh Hperm Hlen Hlt Hrest) as Hk.
  destruct (filter wanted raw) as [|r l].
  - rewrite Hadv. cbn [mbind option_bind]. eexists _, cache'. split; [reflexivity |]. split; [done |]. split; [by constructor |]. split; [done |].
    intros j Hj. by apply list_lookup_insert_ne.
  - destruct Hadv as [-> Hp]. cbn [mbind option_bind set_source i_heap]. destruct (Hk Hp) as (h' & -> & Hk'). cbn [mbind option_bind].
    eexists _, cache'. split; [reflexivity |]. split; [done |]. split; [by constructor |]. split; [done |].
    intros j Hj. by apply list_lookup_insert_ne.
Qed.

(** Popping the least record and advancing its source. *)
Lemma pop_advance it P cache :
  iter_inv it P -> i_heap it <> [] -> Inv cache ->
  exists r i l h it' cache', heap_Pop mergeHeap_Less (i_heap it) = Some (mkItem r i, h) /\ head (i_heap it) = Some (mkItem r i) /\
    P !! i = Some (r :: l) /\ least mergeHeap_Less P i r /\
    advanceSource fuel i (set_heap h it) cache = Some (None, it', cache') /\ Inv cache' /\ iter_inv it' (<[i := l]> P) /\ same_iter it it'.
Proof.
  intros [Ho Hq Hk] Hne Hc.
  destruct (kinv_pop mergeHeap_Less mergeHeap_irr mergeHeap_trans mergeHeap_tot pending _ _ _ Hk Hne)
    as (r & i & l & h & s & Ep & Eh & HP & Hl & Hi & Hp & Hheap & Hperm).
  destruct (advanceSource_spec i (set_heap h it) P l s cache) as (it' & cache' & E & Hc' & Hi' & Hsame & _); try done.
  { apply Hk. }
  { intros j s' r' l' Hne' Hj HPj. by apply (ki_rest _ _ _ _ _ Hk j s' r' l'). }
  exists r, i, l, h, it', cache'. split_and!; try done. by destruct (i_heap it).
Qed.

Lemma elem_of_concat_cons (P : list (list record)) i r l x :
  P !! i = Some (r :: l) -> x ∈ concat P <-> x = r \/ x ∈ concat (<[i := l]> P).
Proof.
  intros Hi. rewrite <- (take_drop_middle P i (r :: l) Hi) at 1. rewrite insert_take_drop by (by eapply lookup_lt_Some).
  rewrite !concat_app. cbn [concat]. set_solver.
Qed.

Lemma least_all P i r l x :
  Forall wsorted P -> P !! i = Some (r :: l) -> least mergeHeap_Less P i r -> x ∈ concat P -> rec_le r x.
Proof.
  intros Hs Hi Hl (k & Hx & Hk)%elem_of_concat. rewrite Forall_forall in Hs. specialize (Hs k Hk).
  apply list_elem_of_lookup in Hk as [j Hj]. destruct k as [|r' k]; [by apply not_elem_of_nil in Hx |].
  pose proof (Hl j r' k Hj) as Hle%mergeHeap_le. simpl in Hle. etransitivity; [exact Hle | by eapply wsorted_head_le].
Qed.

Lemma resolve_loop_spec n key best it P cache :
  iter_inv it P -> Forall wsorted P -> (length (concat P) < n)%nat -> Inv cache ->
  (forall x, x ∈ concat P -> (key <= Key x)%key) -> (forall x, x ∈ concat P -> Key x = key -> Seq x <= Seq best) ->
  exists it' cache' P', resolve_loop n fuel key best it cache = Some (Ok best, it', cache') /\ Inv cache' /\
    iter_inv it' P' /\ same_iter it it' /\ Forall wsorted P' /\ (length (concat P') <= length (concat P))%nat /\
    forall x, x ∈ concat P' <-> x ∈ concat P /\ Key x <> key.
Proof.
  revert it P cache. induction n as [|n IH]; intros it P cache Hi Hs Hn Hc Hmin Hbest; [lia |]. cbn [resolve_loop].
  destruct (i_heap it) as [|top h0] eqn:Eh.
  - exists it, cache, P. split_and!; try done. pose proof (ii_kinv _ _ Hi) as Hk. rewrite Eh in Hk.
    apply kinv_done in Hk. intros x. split; [| by intros []]. intros Hx. split; [done |].
    apply elem_of_concat in Hx as (l & Hx & Hl). rewrite Forall_forall in Hk. rewrite (Hk l Hl) in Hx. by apply not_elem_of_nil in Hx.
  - rewrite <- Eh. destruct (pop_advance it P cache Hi ltac:(by rewrite Eh) Hc)
      as (r & i & l & h & it1 & c1 & Ep & Ehd & HP & Hl & Ea & Hc1 & Hi1 & Hsame).
    rewrite Eh in Ehd. injection Ehd as ->. cbn [irec].
    pose proof (least_all P i r l) as Hall.
    destruct (key_eqb_spec (Key r) key) as [Ek | Hk].
    + rewrite Ep. cbn [mbind option_bind irec isrc]. assert (Hr : r ∈ concat P) by (apply (elem_of_concat_cons P i r l); by auto).
      pose proof (Hbest r Hr Ek). destruct (Z.gtb_spec (Seq r) (Seq best)) as [? | _]; [lia |]. rewrite Ea. cbn [mbind option_bind].
      pose proof (elem_of_concat_cons P i r l) as Hel. pose proof (concat_insert_length P i r l HP) as Hlen.
      destruct (IH it1 (<[i := l]> P) c1 Hi1) as (it' & c' & P' & E & Hc' & Hi' & Hsame' & Hs' & Hlen' & Hel').
      * by eapply least_update.
      * lia.
      * done.
      * intros x Hx. apply Hmin, Hel; by auto.
      * intros x Hx. apply Hbest, Hel; by auto.
      * exists it', c', P'. split_and!; try done; [by destruct Hsame as (? & ? & ? & ? & ? & ?), Hsame' as (? & ? & ? & ? & ? & ?); unfold same_iter; split_and!; congruence | lia |].
        intros x. rewrite Hel', Hel by done. naive_solver.
    + exists it, cache, P. split_and!; try done. intros x. split; [| by intros []]. intros Hx. split; [done |].
      intros Heq. pose proof (Hall x Hs HP Hl Hx) as Hle%rec_le_key. apply Hk.
      assert (Hr : r ∈ concat P) by (apply (elem_of_concat_cons P i r l); by auto). specialize (Hmin r Hr). rewrite Heq in Hle. key_order.
Qed.

(** [resolveNextKey]: the newest version of the least key. *)
Lemma resolveNextKey_spec n it P cache :
  iter_inv it P -> Forall wsorted P -> (length (concat P) < n)%nat -> Inv cache -> i_heap it <> [] ->
  exists best it' cache' P', resolveNextKey n fuel it cache = Some (Ok best, it', cache') /\ Inv cache' /\
    iter_inv it' P' /\ same_iter it it' /\ Forall wsorted P' /\ (length (concat P') < length (concat P))%nat /\
    best ∈ concat P /\ (forall x, x ∈ concat P -> (Key best <= Key x)%key) /\
    (forall x, x ∈ concat P -> Key x = Key best -> Seq x <= Seq best) /\
    forall x, x ∈ concat P' <-> x ∈ concat P /\ Key x <> Key best.
Proof.
  intros Hi Hs Hn Hc Hne. unfold resolveNextKey.
  destruct (pop_advance it P cache Hi Hne Hc) as (r & i & l & h & it1 & c1 & Ep & _ & HP & Hl & Ea & Hc1 & Hi1 & Hsame).
  rewrite Ep. cbn [mbind option_bind irec isrc]. rewrite Ea. cbn [mbind option_bind].
  pose proof (elem_of_concat_cons P i r l) as Hel. pose proof (concat_insert_length P i r l HP) as Hlen.
  assert (Hmin : forall x, x ∈ concat P -> rec_le r x) by (intros x; by eapply least_all).
  assert (Hseq : forall x, x ∈ concat P -> Key x = Key r -> Seq x <= Seq r).
  { intros x Hx Hk. apply Hmin, rec_le_iff in Hx as [Hx | [_ Hx]]; [rewrite Hk in Hx; key_order | done]. }
  destruct (resolve_loop_spec n (Key r) r it1 (<[i := l]> P) c1 Hi1) as (it' & c' & P' & E & Hc' & Hi' & Hsame' & Hs' & Hlen' & Hel').
  - by eapply least_update.
  - lia.
  - done.
  - intros x Hx. apply rec_le_key, Hmin, Hel; by auto.
  - intros x Hx. apply Hseq, Hel; by auto.
  - exists r, it', c', P'. split_and!; try done.
    + destruct Hsame as (? & ? & ? & ? & ? & ?), Hsame' as (? & ? & ? & ? & ? & ?). unfold same_iter. split_and!; congruence.
    + lia.
    + apply Hel; by auto.
    + intros x Hx. by apply rec_le_key, Hmin.
    + intros x. rewrite Hel', Hel by done. naive_solver.
Qed.

(** ** What is yielded *)

(** The keys and values still to come, in order. *)
Definition shows (L : list record) (kvs : list (bytes * bytes)) : Prop :=
  StronglySorted (fun a b => (a.1 < b.1)%key) kvs /\ forall k v, (k, v) ∈ kvs <-> read_at L k maxSeq = Some v.

Section step.
Context (L L' : list record) (best : record) (kvs : list (bytes * bytes)).
Context (Hu : uniq L) (Hseq : forall x, x ∈ L -> Seq x <= maxSeq) (Hin : best ∈ L).
Context (Hmin : forall x, x ∈ L -> (Key best <= Key x)%key) (Hmax : forall x, x ∈ L -> Key x = Key best -> Seq x <= Seq best).
Context (Hel : forall x, x ∈ L' <-> x ∈ L /\ Key x <> Key best).

Lemma read_best : read_at L (Key best) maxSeq = answer (Some best).
Proof.
  unfold read_at. f_equal. apply newest_iff; [done |]. split; [done |]. split; [by split; [| apply Hseq] |].
  intros x Hx [Hk _]. by apply Hmax.
Qed.

Lemma read_rest k : read_at L' k maxSeq = if decide (k = Key best) then None else read_at L k maxSeq.
Proof.
  assert (Hu' : uniq L') by (eapply uniq_sub; [exact Hu | intros x Hx%Hel; apply Hx]).
  unfold read_at. case_decide as Hk.
  - rewrite (newest_same k maxSeq L' []); [done | done |]. intros x [Hkx _]. split; [| by intros ?%not_elem_of_nil].
    intros [_ Hne]%Hel. by destruct Hne; rewrite Hkx.
  - f_equal. apply newest_same; [done |]. intros x [Hkx _]. rewrite Hel. split; [by intros [] | intros Hx; split; [done | congruence]].
Qed.

Lemma shows_deleted : shows L kvs -> rDeleted best = true -> shows L' kvs.
Proof.
  intros [Hs Hk] Hd. split; [done |]. intros k v. rewrite Hk, read_rest. case_decide as Ek; [| done].
  rewrite Ek, read_best. simpl. by rewrite Hd.
Qed.

Lemma shows_best : shows L kvs -> rDeleted best = false -> exists kvs', kvs = (Key best, rValue best) :: kvs' /\ shows L' kvs'.
Proof.
  intros [Hs Hk] Hd. assert (Hb : (Key best, rValue best) ∈ kvs) by (rewrite Hk, read_best; simpl; by rewrite Hd).
  assert (Hle : forall k v, (k, v) ∈ kvs -> (Key best <= k)%key).
  { intros k v. rewrite Hk. unfold read_at, answer. destruct (newest k maxSeq L) as [r|] eqn:En; [| done]. intros _.
    apply newest_iff in En as (Hr & [<- _] & _); [by apply Hmin | done]. }
  destruct kvs as [|[k v] kvs']; [by apply not_elem_of_nil in Hb |]. apply StronglySorted_inv in Hs as [Hs Hall]. rewrite Forall_forall in Hall.
  assert ((Key best, rValue best) = (k, v)) as Heq.
  { apply elem_of_cons in Hb as [Hb | Hb]; [done |]. pose proof (Hall _ Hb). pose proof (Hle k v ltac:(by left)). simpl in *. key_order. }
  injection Heq as <- <-. exists kvs'. split; [done |]. split; [done |]. intros k v. rewrite read_rest. case_decide as Ek.
  - split; [| done]. intros Hkv%Hall. simpl in Hkv. rewrite Ek in Hkv. key_order.
  - rewrite <- Hk, elem_of_cons. split; [by right | by intros [[= -> _] | ?]].
Qed.

End step.

(** The iterator will yield [kvs]. *)
Record yielding (it : Iterator) (kvs : list (bytes * bytes)) : Prop := mkYielding {
  yl_inv : exists P, iter_inv it P /\ Forall wsorted P /\ (length (concat P) < fuel)%nat /\ uniq (concat P) /\
    (forall x, x ∈ concat P -> Seq x <= maxSeq) /\ shows (concat P) kvs;
  yl_err : i_err it = None;
}.

Lemma shows_nil L k v : shows L [] -> read_at L k maxSeq = Some v -> False.
Proof. intros [_ Hk] H%Hk. by apply not_elem_of_nil in H. Qed.

Lemma iter_loop_spec k it P kvs cache :
  iter_inv it P -> Forall wsorted P -> (length (concat P) < k <= fuel)%nat -> uniq (concat P) ->
  (forall x, x ∈ concat P -> Seq x <= maxSeq) -> shows (concat P) kvs -> i_err it = None -> Inv cache ->
  exists it' cache', Inv cache' /\ i_closed it' = i_closed it /\ i_registered it' = i_registered it /\
    match kvs with
    | [] => iter_loop k fuel fuel it cache = Some (false, it', cache') /\ yielding it' []
    | (key, value) :: kvs => iter_loop k fuel fuel it cache = Some (true, it', cache') /\ yielding it' kvs /\
        Key (i_current it') = key /\ rValue (i_current it') = value
    end.
Proof.
  revert it P cache. induction k as [|k IH]; intros it P cache Hi Hs Hn Hu Hq Hsh He Hc; [lia |]. cbn [iter_loop].
  destruct (i_heap it) as [|top h0] eqn:Eh.
  - cbn [length Nat.eqb]. pose proof (ii_kinv _ _ Hi) as Hk. rewrite Eh in Hk. apply kinv_done in Hk.
    assert (Hnil : forall x, x ∉ concat P).
    { intros x (l & Hx & Hl)%elem_of_concat. rewrite Forall_forall in Hk. rewrite (Hk l Hl) in Hx. by apply not_elem_of_nil in Hx. }
    destruct kvs as [|[key v] kvs].
    + exists it, cache. split_and!; try done. constructor; [| done]. exists P. split_and!; try done. lia.
    + exfalso. destruct Hsh as [_ Hsh]. specialize (Hsh key v). assert (read_at (concat P) key maxSeq = Some v) as H by (apply Hsh; by left).
      unfold read_at, answer in H. destruct (newest key maxSeq (concat P)) as [r|] eqn:En; [| done].
      apply newest_iff in En as (Hr & _); [by apply (Hnil r) | done].
  - cbn [length Nat.eqb]. destruct (resolveNextKey_spec fuel it P cache Hi Hs ltac:(lia) Hc ltac:(by rewrite Eh))
      as (best & it1 & c1 & P1 & E & Hc1 & Hi1 & Hsame & Hs1 & Hlen & Hin & Hmin & Hmax & Hel).
    rewrite E. cbn [mbind option_bind]. destruct Hsame as (_ & _ & _ & S4 & S5 & S6).
    assert (Hu1 : uniq (concat P1)) by (eapply uniq_sub; [exact Hu | intros x Hx%Hel; apply Hx]).
    assert (Hq1 : forall x, x ∈ concat P1 -> Seq x <= maxSeq) by (intros x Hx%Hel; apply Hq, Hx).
    destruct (rDeleted best) eqn:Ed.
    + pose proof (shows_deleted _ _ best kvs Hu Hq Hin Hmax Hel Hsh Ed) as Hsh1.
      destruct (IH it1 P1 c1 Hi1 Hs1 ltac:(lia) Hu1 Hq1 Hsh1 ltac:(congruence) Hc1) as (it' & c' & Hc' & B1 & B2 & Hres).
      exists it', c'. split_and!; [done | congruence | congruence | done].
    + destruct (shows_best _ _ best kvs Hu Hq Hin Hmin Hmax Hel Hsh Ed) as (kvs' & -> & Hsh1).
      exists (set_current best it1), c1. split; [done |]. split; [exact S5 |]. split; [exact S6 |]. split; [reflexivity |].
      split; [| done]. constructor; [| simpl; congruence]. exists P1. split_and!; try done; [by destruct Hi1 | lia].
Qed.

(** [Next] *)
Lemma Iterator_Next_spec it kvs cache :
  yielding it kvs -> i_closed it = false -> Inv cache ->
  exists it' cache', Inv cache' /\ i_closed it' = i_closed it /\ i_registered it' = i_registered it /\
    match kvs with
    | [] => Iterator_Next fuel it cache = Some (false, it', cache') /\ yielding it' []
    | (key, value) :: kvs => Iterator_Next fuel it cache = Some (true, it', cache') /\ yielding it' kvs /\
        Key (i_current it') = key /\ rValue (i_current it') = value
    end.
Proof.
  intros [(P & Hi & Hs & Hn & Hu & Hq & Hsh) He] Hcl Hc. 
  assert (Iterator_Next fuel it cache = iter_loop fuel fuel fuel it cache) as ->
    by (unfold Iterator_Next; rewrite Hcl, He; cbn [orb]; by rewrite bool_decide_eq_false_2 by (by intros [])).
  by apply (iter_loop_spec fuel it P kvs cache); [| | lia |..].
Qed.

(** ** Priming *)

(** The seek of a source, if there is a start. *)
Definition seek_start (s : source) (cache : option C) : option (option read_error * source * option C) :=
  if negb (key_eqb (Start o) []) then source_seek (Start o) s cache else Some (None, s, cache).

(** After the seek, the source has the wanted records [l] ahead. *)
Definition ready (l : list record) (s : source) : Prop :=
  forall cache, Inv cache -> exists s' cache', seek_start s cache = Some (None, s', cache') /\ pending l s' /\ Inv cache'.

Lemma prime_sources_spec ls i it P cache :
  iter_inv it (P ++ replicate (length ls) []) -> length P = i ->
  (forall j l, ls !! j = Some l -> exists s, i_sources it !! (i + j)%nat = Some s /\ ready l s) -> Inv cache ->
  exists it' cache', prime_sources fuel (length ls) i it cache = Some (None, it', cache') /\ Inv cache' /\ iter_inv it' (P ++ ls) /\ same_iter it it'.
Proof.
  revert i it P cache. induction ls as [|l ls IH]; intros i it P cache Hi Hlen Hr Hc.
  { exists it, cache. by rewrite app_nil_r in *. }
  cbn [length prime_sources]. destruct (Hr 0%nat l eq_refl) as (s & Es & Hrd). rewrite Nat.add_0_r in Es. rewrite Es. cbn [mbind option_bind].
  destruct Hi as [Ho Hq Hk]. rewrite Ho. fold (seek_start s cache).
  destruct (Hrd cache Hc) as (s1 & c1 & -> & Hp & Hc1). cbn [mbind option_bind].
  set (P0 := P ++ replicate (length (l :: ls)) []) in *.
  assert (Hemp : <[i := []]> P0 = P0) by (apply list_insert_id; unfold P0; rewrite lookup_app_r by lia; by replace (i - length P)%nat with 0%nat by lia).
  assert (Hl0 : (i < length (i_sources it))%nat) by (by eapply lookup_lt_Some).
  destruct (advanceSource_spec i (set_source i s1 it) P0 l s1 c1) as (it1 & c2 & -> & Hc2 & Hi1 & Hsame & Hoth); try done.
  { apply Hk. }
  { rewrite Hemp. apply Hk. }
  { cbn [set_source i_sources]. rewrite length_insert. apply Hk. }
  { intros j s' r l' Hj. cbn [set_source i_sources]. rewrite list_lookup_insert_ne by done. apply (ki_rest _ _ _ _ _ Hk). }
  { cbn [set_source i_sources]. by apply list_lookup_insert_eq. }
  cbn [mbind option_bind].
  destruct (IH (S i) it1 (P ++ [l]) c2) as (it' & c' & -> & Hc' & Hi' & Hsame'); try done.
  { rewrite <- app_assoc. replace (P ++ [l] ++ replicate (length ls) []) with (<[i := l]> P0); [done |].
    unfold P0. rewrite insert_app_r_alt by lia. replace (i - length P)%nat with 0%nat by lia. done. }
  { rewrite length_app. simpl. lia. }
  { intros j k Hj. destruct (Hr (S j) k Hj) as (s' & Es' & Hr'). exists s'. split; [| done].
    rewrite Hoth by lia. cbn [set_source i_sources]. rewrite list_lookup_insert_ne by lia. by rewrite Nat.add_succ_r in Es'. }
  exists it', c'. rewrite <- app_assoc in Hi'. split_and!; try done.
  destruct Hsame as (? & ? & ? & ? & ? & ?), Hsame' as (? & ? & ? & ? & ? & ?). unfold same_iter. split_and!; etransitivity; eassumption.
Qed.

(** ** The three kinds of sources *)

(** The records before the start are not wanted anyway. *)
Lemma wanted_from_start raw :
  key_eqb (Start o) [] = false -> filter wanted (from_key (Start o) raw) = filter wanted raw.
Proof.
  intros Hne. rewrite list_filter_filter. apply list_filter_iff_in. intros x _. split; [by intros [] |]. intros Hw. split; [done |].
  destruct Hw as (_ & Hb & _). unfold beforeStart in Hb. rewrite Hne in Hb. cbn in Hb. apply key_leb_le. by apply key_ltb_ge.
Qed.

Lemma ready_intro raw s :
  wsorted raw -> (length raw < fuel)%nat -> streams raw s ->
  (forall cache, Inv cache -> exists s' cache', source_seek (Start o) s cache = Some (None, s', cache') /\
     streams (from_key (Start o) raw) s' /\ Inv cache') ->
  ready (filter wanted raw) s.
Proof.
  intros Hs Hf Hst Hseek cache Hc. unfold seek_start. destruct (key_eqb (Start o) []) eqn:E; cbn [negb].
  - exists s, cache. split; [done |]. split; [| done]. by exists raw.
  - destruct (Hseek cache Hc) as (s' & c' & Es & Hst' & Hc'). exists s', c'. split; [done |]. split; [| done].
    exists (from_key (Start o) raw). split; [done |]. split; [by apply StronglySorted_filter |].
    split; [by apply wanted_from_start |]. pose proof (length_filter (fun r => key_leb (Start o) (Key r) = true) raw). lia.
Qed.

Lemma snapshot_stream it l : yields it l -> streams l (SrcSnapshot it).
Proof.
  induction 1 as [it it' Hn He | it it' r l Hn Hr Hy IH]; cbn; intros Inv' c _ Hc.
  - exists (SrcSnapshot it'), c. rewrite (Hn : Snapshot_Next it = _). done.
  - exists (SrcSnapshot it'), c. rewrite (Hn : Snapshot_Next it = _). done.
Qed.

Lemma memtable_stream it l : yields it l -> streams l (SrcMemtable it).
Proof.
  induction 1 as [it it' Hn He | it it' r l Hn Hr Hy IH]; cbn; intros Inv' c _ Hc.
  - exists (SrcMemtable it'), c. rewrite (Hn : MIterator_Next it = _). done.
  - exists (SrcMemtable it'), c. rewrite (Hn : MIterator_Next it = _). done.
Qed.

Lemma snapshot_ready mt l :
  vt_repr mt l -> (length l < fuel)%nat ->
  exists it, MemTable_SnapshotIterator mt = Some it /\ ready (filter wanted l) (SrcSnapshot it).
Proof.
  intros Hr Hf. pose proof (vt_sorted mt l Hr) as Hs. unfold MemTable_SnapshotIterator. rewrite (MemTable_Records_repr mt l Hr). cbn [mbind option_bind].
  eexists. split; [reflexivity |]. apply ready_intro; [by apply sorted_wsorted | done | apply snapshot_stream, (Snapshot_yields l (-1)); lia |].
  intros cache Hc. destruct (Snapshot_Seek_yields l (-1) zero_record (Start o) Hs) as (it' & E & Hy).
  exists (SrcSnapshot it'), cache. cbn [source_seek]. rewrite E. split; [done |]. split; [by apply snapshot_stream | done].
Qed.

Lemma memtable_ready mt l :
  vt_repr mt l -> (length l < fuel)%nat ->
  exists it, MemTable_Iterator mt = Some it /\ ready (filter wanted l) (SrcMemtable it).
Proof.
  intros Hr Hf. pose proof (vt_sorted mt l Hr) as Hs. destruct (MemTable_Iterator_yields mt l Hr) as (it & E & Hy).
  exists it. split; [done |]. apply ready_intro; [by apply sorted_wsorted | done | by apply memtable_stream |].
  intros cache Hc. destruct (MIterator_Seek_yields mt l it (Start o) Hr) as (it' & E' & Hy').
  { unfold MemTable_Iterator, SkipList.Iterator_new in E. destruct (SkipList.next_of _ _ _); simpl in E; [| done]. by injection E as <-. }
  exists (SrcMemtable it'), cache. cbn [source_seek]. rewrite E'. split; [done |]. split; [by apply memtable_stream | done].
Qed.

End merge.
