(* ===== verification/DbScanOpen.v ===== *)
(** * Opening iterators

    On a database that satisfies the invariant, a new iterator yields exactly
    the keys of its range with the values that reads at its sequence number
    answer, in order - whatever happens to the database and the cache after
    it was opened. *)

From S2P Require Import Float64 Bloom BlockCache Wal MemTableClaims MergeRefine.
From S2P Require Export DbScan DbSpec DbInv DbReads DbReaders.

Lemma filter_concat {A} (P : A -> Prop) `{!forall x, Decision (P x)} (ls : list (list A)) :
  concat (filter P <$> ls) = filter P (concat ls).
Proof. induction ls as [|l ls IH]; [done |]. rewrite fmap_cons. cbn [concat]. by rewrite IH, filter_app. Qed.

Lemma read_wanted o maxSeq L k :
  read_at (filter (wanted o maxSeq) L) k maxSeq = if in_range o k then read_at L k maxSeq else None.
Proof.
  unfold read_at, newest. rewrite list_filter_filter. unfold in_range.
  destruct (beforeStart o k) eqn:Eb, (atOrPastEnd o k) eqn:Ee; cbn [negb andb].
  4: { do 2 f_equal. apply list_filter_iff_in. intros x _. unfold visible, wanted. split; [by intros [] |]. intros [<- Hs]. done. }
  all: destruct (filter _ L) as [|x l] eqn:E; [done |]; exfalso;
    match type of E with filter ?Q ?M = _ => assert (x ∈ filter Q M) as [[[Hk _] (_ & H1 & H2)] _]%list_elem_of_filter by (rewrite E; by left) end;
    rewrite Hk in *; congruence.
Qed.

Section open.
Context {lz : LZ4Codec} {laws : LZ4Laws} {C : Type} `{!Cache C}.
Context (Hash128 : bytes -> Z * Z) (fuel : nat) (o : IteratorOptions) (maxSeq : Z).
Local Abbreviation DB := (DB C).
Local Abbreviation inv := (inv Hash128).
Local Abbreviation table_ok := (table_ok Hash128).

(** The invariants of the cache that the tables [ts] can live with. *)
Definition coherent (ts : list disk) (Inv : option C -> Prop) : Prop :=
  exists all, NoDup (d_id <$> all) /\ (forall t, t ∈ ts -> t ∈ all) /\ Inv = cache_ok (knows all).

Lemma ahead_recache flt bs file allowed allowed' id (it : TIterator (C := C)) rest cache :
  ahead flt bs file allowed id it rest -> cache_ok allowed' cache -> ahead flt bs file allowed' id (ti_set_cache cache it) rest.
Proof. intros (i & rs & [H1 H2 H3 H4 H5 H6 H7 H8] & E) Hc. exists i, rs. split; [by constructor | done]. Qed.

Lemma table_stream ts t allowed (it : TIterator (C := C)) rest :
  disk_ok Hash128 t -> t ∈ ts -> ahead (d_filter t) (d_blocks t) (d_file t) allowed (d_id t) it rest ->
  stream_in (coherent ts) rest (SrcTable it).
Proof.
  intros Hok Ht. revert it allowed. induction rest as [|r rest IH]; intros it allowed Ha; cbn [stream_in]; intros Inv c (all & Hnd & Hsub & ->) Hc.
  all: pose proof (ahead_next Hash128 _ _ _ _ _ _ Hok (knows all) (d_id t) (knows_in _ _ _ Hnd (Hsub t Ht) Hok) _ _
    (ahead_recache _ _ _ _ _ _ it _ c Ha Hc)) as Hn; cbn in Hn |- *.
  - destruct Hn as (it' & E & He & Hc'). exists (SrcTable it'), (ti_cache it'). unfold table_next. by rewrite E.
  - destruct Hn as (it' & E & Hr & Ha'). exists (SrcTable it'), (ti_cache it'). unfold table_next. rewrite E.
    split; [done |]. split; [done |]. split; [by eapply ahead_ok | by eapply IH].
Qed.

Local Abbreviation ready all := (ready (coherent all) (cache_ok (knows all)) fuel o maxSeq).
Local Abbreviation wanted := (wanted o maxSeq).

(** A table as a source. *)
Lemma table_ready d all h t (cache : option C) :
  table_ok d h t -> t.2 ∈ all -> NoDup (d_id <$> all) -> cache_ok (knows all) cache -> (length (t_records t.2) < fuel)%nat ->
  exists it, Iterator_ (d_file t.2) (h_sst h) cache = Ok it /\ ready all (filter wanted (t_records t.2)) (SrcTable it) /\
    table_ok d (mkHandle (h_meta h) (ti_sst it)) t.
Proof.
  intros Hok Ht Hnd Hc Hf. pose proof (to_disk _ _ _ _ Hok) as Hd. pose proof (knows_in _ _ _ Hnd Ht Hd) as Hal.
  destruct (Iterator_od Hash128 _ _ _ _ _ _ Hd (knows all) (d_id t.2) (h_sst h) cache) as (it & E & Hr & Ha); [| done |].
  { destruct (to_sst _ _ _ _ Hok) as [-> | ->]; [by left | right; by eauto]. }
  exists it. split; [done |]. split.
  - apply ready_intro; [apply wsorted_strip; apply (od_sorted _ _ _ _ _ _ _ Hd) | done | by eapply table_stream |].
    intros c Hcc. cbn [source_seek].
    destruct (TIterator_Seek_od Hash128 _ _ _ _ _ _ Hd (knows all) (d_id t.2) Hal (ti_set_cache c it) 0 [] (Start o)) as (it' & E' & Ha').
    { destruct Hr. by constructor. }
    exists (SrcTable it'), (ti_cache it'). rewrite E'. split; [done |]. split; [by eapply table_stream | by eapply ahead_ok].
  - destruct Hok. constructor; try done. left. cbn [h_sst]. apply (ir_sst _ _ _ _ _ _ _ _ Hr).
Qed.

Lemma table_sources_ok d all hs ts (cache : option C) :
  Forall2 (table_ok d) hs ts -> (forall t, t ∈ ts -> t.2 ∈ all) -> NoDup (d_id <$> all) -> cache_ok (knows all) cache ->
  (forall t, t ∈ ts -> (length (t_records t.2) < fuel)%nat) ->
  exists srcs hs', table_sources d hs cache = (Ok srcs, hs') /\
    Forall2 (ready all) ((fun t => filter wanted (t_records t.2)) <$> ts) srcs /\ Forall2 (table_ok d) hs' ts /\ h_meta <$> hs' = h_meta <$> hs.
Proof.
  intros Hf Hall Hnd Hc Hlen. induction Hf as [|h t hs ts Hok Hf IH]; [by exists [], [] |].
  destruct (table_ready d all h t cache Hok ltac:(apply Hall; by left) Hnd Hc ltac:(apply Hlen; by left)) as (it & E & Hr & Hok').
  destruct IH as (srcs & hs' & E2 & Hrs & Hoks & Hm); [intros; apply Hall; by right | intros; apply Hlen; by right |].
  exists (SrcTable it :: srcs), (mkHandle (h_meta h) (ti_sst it) :: hs'). cbn [table_sources].
  rewrite (to_file _ _ _ _ Hok), E, E2. split; [done |]. split; [by constructor |]. split; [by constructor |]. rewrite !fmap_cons. by rewrite Hm.
Qed.

Lemma memtable_sources_ok all heap active imms ls :
  Forall2 (imm_ok heap active) imms ls -> (forall l, l ∈ ls -> (length l < fuel)%nat) ->
  exists srcs, memtable_sources (C := C) heap imms = Some srcs /\ Forall2 (ready all) (filter wanted <$> ls) srcs.
Proof.
  induction 1 as [|imm l imms ls (Hne & mt & Hm & Hr) Hf IH]; intros Hlen; [by exists [] |].
  cbn [memtable_sources]. rewrite Hm. cbn [mbind option_bind].
  destruct (memtable_ready (coherent all) (cache_ok (knows all)) fuel o maxSeq mt l Hr ltac:(apply Hlen; by left)) as (it & -> & Hrd).
  cbn [mbind option_bind]. destruct IH as (srcs & -> & Hrs); [intros; apply Hlen; by right |]. cbn [mbind option_bind].
  eexists. split; [reflexivity |]. by constructor.
Qed.

(** What an iterator at [maxSeq] over the history [hist] yields. *)
Definition ranged (hist : list record) (kvs : list (bytes * bytes)) : Prop :=
  StronglySorted (fun a b => (a.1 < b.1)%key) kvs /\
  forall k v, (k, v) ∈ kvs <-> in_range o k = true /\ read_at hist k maxSeq = Some v.

Lemma heads_empty i n : heads i (replicate n []) = [].
Proof. revert i. induction n as [|n IH]; intros i; [done | apply IH]. Qed.

(** The lists of records of the sources. *)
Definition layers (g : ghost) : list (list record) :=
  g_mem g :: reverse (g_imms g) ++ ((fun t => t_records t.2) <$> reverse (g_tables g)).

Lemma concat_layers g : concat (layers g) = g_records g.
Proof. unfold layers, g_records, g_disks. cbn [concat]. by rewrite concat_app, fmap_reverse. Qed.

Lemma layer_length g l : l ∈ layers g -> (length l <= length (concat (layers g)))%nat.
Proof.
  intros Hl. apply list_elem_of_split in Hl as (l1 & l2 & ->). rewrite concat_app. cbn [concat]. rewrite !length_app. lia.
Qed.

Lemma layers_sorted (db : DB) g : inv db g -> Forall wsorted (layers g).
Proof.
  intros Hi. destruct (inv_mem _ _ _ Hi) as [(mt & Hm & Hr) Himms]. unfold layers. constructor; [by apply sorted_wsorted, (vt_sorted mt) |].
  apply Forall_app. split.
  - apply Forall_reverse, Forall_forall. intros l Hl. apply list_elem_of_lookup in Hl as [j Hj].
    destruct (Forall2_lookup_r _ _ _ _ _ Himms Hj) as (imm & _ & _ & mt' & _ & Hr'). by apply sorted_wsorted, (vt_sorted mt').
  - apply Forall_fmap, Forall_reverse, Forall_forall. intros t Ht. apply list_elem_of_lookup in Ht as [j Hj].
    destruct (Forall2_lookup_r _ _ _ _ _ (inv_tables _ _ _ Hi) Hj) as (h & _ & Hok). apply wsorted_strip, (od_sorted _ _ _ _ _ _ _ (to_disk _ _ _ _ Hok)).
Qed.

(** The sources that [newIteratorLocked] collects. *)
Lemma sources_ready (db : DB) g :
  inv db g -> (length (g_hist g) < fuel)%nat ->
  exists mt snap mems tabs hs, memtables db !! memtable db = Some mt /\ MemTable_SnapshotIterator mt = Some snap /\
    memtable_sources (C := C) (memtables db) (reverse (immutableMemtables db)) = Some mems /\
    table_sources (dir db) (reverse (sstables db)) (blockCache db) = (Ok tabs, hs) /\
    Forall2 (ready (g_all g)) (filter wanted <$> layers g) (SrcSnapshot snap :: mems ++ tabs) /\ inv (set_sstables (reverse hs) db) g.
Proof.
  intros Hi Hf. pose proof (inv_ids _ _ _ Hi) as Hids. pose proof (submseteq_length _ _ (inv_sub _ _ _ Hi)) as Hlen.
  rewrite <- concat_layers in Hlen. assert (Hsub : forall l, l ∈ layers g -> (length l < fuel)%nat) by (intros l Hl%layer_length; lia).
  destruct (inv_mem _ _ _ Hi) as [(mt & Hm & Hr) Himms].
  destruct (snapshot_ready (coherent (g_all g)) (cache_ok (knows (g_all g))) fuel o maxSeq mt (g_mem g) Hr ltac:(apply Hsub; by left)) as (snap & Es & Hsnap).
  destruct (memtable_sources_ok (g_all g) (memtables db) (memtable db) (reverse (immutableMemtables db)) (reverse (g_imms g))) as (mems & Em & Hmems).
  { by apply Forall2_reverse. }
  { intros l Hl. apply Hsub. unfold layers. right. apply elem_of_app. by left. }
  destruct (table_sources_ok (dir db) (g_all g) (reverse (sstables db)) (reverse (g_tables g)) (blockCache db)) as (tabs & hs & Et & Htabs & Hoks & Hmeta).
  { apply Forall2_reverse, (inv_tables _ _ _ Hi). }
  { intros t Ht. rewrite elem_of_reverse in Ht. by apply (io_live _ _ Hids). }
  { apply (io_all _ _ Hids). }
  { apply (inv_cache _ _ _ Hi). }
  { intros t Ht. apply Hsub. unfold layers. right. apply elem_of_app. right. apply list_elem_of_fmap. by exists t. }
  exists mt, snap, mems, tabs, hs. split_and!; try done.
  - unfold layers. rewrite fmap_cons, fmap_app, <- list_fmap_compose. constructor; [done |]. by apply Forall2_app.
  - assert (Hoks' : Forall2 (table_ok (dir db)) (reverse hs) (g_tables g)) by (rewrite <- (reverse_involutive (g_tables g)); by apply Forall2_reverse).
    constructor; try (by destruct Hi). simpl. rewrite fmap_reverse, Hmeta, <- fmap_reverse, reverse_involutive. by destruct Hi.
Qed.

Lemma newIteratorLocked_inv (db : DB) g kvs :
  inv db g -> 0 <= maxSeq < nextSeq db -> readable (oldestReaderLocked db) (nextSeq db) maxSeq -> (length (g_hist g) < fuel)%nat ->
  ranged (g_hist g) kvs ->
  exists it hs cache, let db' := registerReaderLocked maxSeq (set_blockCache cache (set_sstables hs db)) in
    newIteratorLocked fuel o maxSeq db = Some (Ok it, db') /\ inv db' g /\
    yielding (coherent (g_all g)) fuel o maxSeq it kvs /\ i_closed it = false /\ i_registered it = true /\ i_maxSeq it = maxSeq.
Proof.
  intros Hi Hq Hread Hf [Hsort Hkvs]. pose proof (inv_ids _ _ _ Hi) as Hids. pose proof (inv_uniq _ _ _ Hi) as Hu.
  pose proof (submseteq_length _ _ (inv_sub _ _ _ Hi)) as Hlen. rewrite <- concat_layers in Hlen. pose proof (layers_sorted db g Hi) as Hsl.
  destruct (sources_ready db g Hi Hf) as (mt & snap & mems & tabs & hs & Em & Es & Emem & Et & Hready & Hi1).
  unfold newIteratorLocked. rewrite Em. cbn [mbind option_bind]. rewrite Es. cbn [mbind option_bind]. rewrite Emem. cbn [mbind option_bind]. rewrite Et.
  set (srcs := SrcSnapshot snap :: mems ++ tabs) in *. set (ls := filter wanted <$> layers g) in *.
  assert (Hls : length srcs = length ls) by (symmetry; by eapply Forall2_length). rewrite Hls.
  destruct (prime_sources_spec (coherent (g_all g)) (cache_ok (knows (g_all g))) ltac:(exists (g_all g); split; [apply (io_all _ _ Hids) | done]) fuel o maxSeq ls 0
    (mkIter o maxSeq srcs [] zero_record None false false) [] (blockCache db)) as (it & cache & E & Hc & Hii & Hsame).
  { constructor; [done | done |]. cbn [app i_heap i_sources]. constructor.
    - intros k Hk. simpl in Hk. lia.
    - by rewrite heads_empty.
    - by rewrite length_replicate.
    - intros j s r l _ Hj. apply lookup_replicate in Hj as [Hj _]. done. }
  { done. }
  { intros j l Hj. destruct (Forall2_lookup_l _ _ _ _ _ Hready Hj) as (s & Hs & Hrd). by exists s. }
  { apply (inv_cache _ _ _ Hi). }
  cbn [blockCache set_sstables]. rewrite E. cbn [mbind option_bind].
  eexists _, (reverse hs), cache. cbv zeta. split; [reflexivity |]. split; [| split; [| done]].
  - apply register_inv; [by destruct Hi1 | done | done].
  - constructor; [| done]. exists ls. rewrite app_nil_l in Hii. assert (Hcl : concat ls = filter wanted (g_records g)) by (unfold ls; by rewrite filter_concat, concat_layers).
    rewrite Hcl. split_and!.
    + by destruct Hii.
    + unfold ls. apply Forall_fmap. eapply Forall_impl; [exact Hsl |]. intros l Hl. by apply (StronglySorted_filter rec_le).
    + rewrite <- concat_layers. pose proof (length_filter wanted (concat (layers g))). lia.
    + eapply uniq_sub; [exact Hu |]. by intros x [_ Hx]%list_elem_of_filter.
    + by intros x [[Hx _] _]%list_elem_of_filter.
    + split; [done |]. intros k v. rewrite read_wanted, Hkvs, <- (inv_reads _ _ _ Hi) by done. destruct (in_range o k); naive_solver.
Qed.

End open.
