(* ===== verification/DbSim.v ===== *)
(** * The database implements its specification

    A simulation between the running database and the abstract one: every
    event that a tame run contains answers what the specification allows.  The
    relation [sim] ties the map to the reads at the last sequence number, every
    open snapshot to the reads at its own, the registry of readers to the open
    snapshots, and the flush worker to the table it is working on. *)

From S2P Require Import Float64 Bloom BlockCache Wal MemTableClaims.
From S2P Require Export DbSpec DbReads DbWrites DbFlush DbCompactRun DbReaders DbRounds DbScanOpen.

(** ** Reads of the history *)

(** Records above the sequence number are not seen. *)
Lemma read_above key maxSeq l k : Forall (fun r => maxSeq < Seq r) l -> read_at (l ++ k) key maxSeq = read_at k key maxSeq.
Proof.
  intros Hl. rewrite Forall_forall in Hl. unfold read_at, newest. do 2 f_equal. rewrite filter_app.
  replace (filter (visible key maxSeq) l) with (@nil record); [done |].
  destruct (filter _ l) as [|r l'] eqn:E; [done |].
  assert (r ∈ filter (visible key maxSeq) l) as [[_ Hv] Hr%Hl]%list_elem_of_filter by (rewrite E; by left). lia.
Qed.

(** The last sequence number shows everything. *)
Lemma read_top next hist key maxSeq :
  Forall (fun r => Seq r < next) hist -> next - 1 <= maxSeq -> read_at hist key maxSeq = read_at hist key (next - 1).
Proof.
  intros Hh Hm. rewrite Forall_forall in Hh. unfold read_at, newest. do 2 f_equal. apply list_filter_iff_in. intros x Hx%Hh.
  unfold visible. split; intros []; split; (done || lia).
Qed.

Lemma batch_writes_range ops n :
  0 <= n -> n + len ops <= u64_max -> Forall (fun r => n <= Seq r < n + len ops) (batch_writes n ops).
Proof.
  revert n. induction ops as [|op ops IH]; intros n Hn Hl; [constructor |]. rewrite len_cons in *. pose proof (len_nonneg ops).
  cbn [batch_writes]. constructor; [rec_simpl; rewrite u64_id by (unfold is_u64; lia); lia |].
  eapply Forall_impl; [apply IH; lia |]. simpl. lia.
Qed.

(** The map after a batch. *)
Lemma read_batch (ops : list batch_op) (n : Z) (hist : list record) (m : gmap bytes bytes) :
  0 <= n -> n + len ops <= u64_max -> Forall (fun r => Seq r < n) hist ->
  (forall key, read_at hist key (n - 1) = m !! key) ->
  forall key, read_at (reverse (batch_writes n ops) ++ hist) key (n + len ops - 1) = foldl apply_op m ops !! key.
Proof.
  revert n hist m. induction ops as [|op ops IH]; intros n hist m Hn Hl Hh Hm key.
  - cbn [foldl batch_writes reverse app]. rewrite <- Hm. f_equal. unfold len. simpl. lia.
  - rewrite len_cons in *. pose proof (len_nonneg ops). cbn [batch_writes foldl]. set (rec := mkRecord _ _ _ _ _).
    assert (Hs : Seq rec = n) by (unfold rec; rec_simpl; apply u64_id; unfold is_u64; lia).
    rewrite reverse_cons, <- app_assoc. cbn [app]. replace (n + (1 + len ops) - 1) with (n + 1 + len ops - 1) by lia.
    apply IH; [lia | lia | |].
    + constructor; [lia |]. eapply Forall_impl; [exact Hh |]. simpl. lia.
    + intros k. unfold read_at. rewrite newest_cons_fresh by (eapply Forall_impl; [exact Hh |]; intros x Hx; rewrite Hs; exact Hx).
      unfold apply_op. destruct (decide (visible k (n + 1 - 1) rec)) as [[Hk _] | Hv].
      * unfold rec in Hk |- *. rec_simpl. simpl in Hk. subst k. cbn [answer]. unfold rDeleted, rValue. rec_simpl.
        destruct (op_Deleted op); [by rewrite lookup_delete_eq | by rewrite lookup_insert_eq].
      * assert (op_Key op <> k) by (intros Heq; apply Hv; split; [exact Heq | rewrite Hs; lia]).
        change (answer (newest k (n + 1 - 1) hist)) with (read_at hist k (n + 1 - 1)).
        rewrite (read_top n) by (done || lia). rewrite Hm.
        destruct (op_Deleted op); [by rewrite lookup_delete_ne | by rewrite lookup_insert_ne].
Qed.

(** ** The relation *)

(** How many elements satisfy [Q]. *)
Definition count {A} (Q : A -> Prop) `{!forall x, Decision (Q x)} (l : list A) : Z := len (filter Q l).

(** The open snapshots at a sequence number. *)
Definition open_at (q : Z) (sn : Snapshot) : Prop := sn_closed sn = false /\ sn_sequence sn = q.
Global Instance open_at_dec q sn : Decision (open_at q sn).
Proof. unfold open_at. apply _. Defined.

Section sim.
Context {lz : LZ4Codec} {laws : LZ4Laws} {C : Type} `{!Cache C}.
Context (Hash128 : bytes -> Z * Z) (math_Log : float64 -> float64) (conv : float64 -> Z) (fuel : nat).
Context (lim : LimitsOptions) (opts : WriteOptions).
Local Abbreviation DB := (DB C).
Local Abbreviation sys := (sys C).
Local Abbreviation inv := (inv Hash128).
Local Abbreviation exec := (exec Hash128 math_Log conv fuel).
Local Abbreviation created := (created Hash128).

(** A snapshot shows its copy of the map. *)
Definition snapshot_ok (db : DB) (g : ghost) (sn : Snapshot) (copy : gmap bytes bytes * bool) : Prop :=
  sn_closed sn = copy.2 /\
  (copy.2 = false -> 0 <= sn_sequence sn < nextSeq db /\
    forall key, read_at (g_hist g) key (sn_sequence sn) = copy.1 !! key).

(** The open iterators at a sequence number. *)
Definition iter_at (q : Z) (it : Iterator (C := C)) : Prop := i_closed it = false /\ i_maxSeq it = q.
Global Instance iter_at_dec q it : Decision (iter_at q it).
Proof. unfold iter_at. apply _. Defined.

(** An iterator yields what is to come. *)
Definition iterator_ok (db : DB) (g : ghost) (it : Iterator (C := C)) (copy : list (bytes * bytes) * bool) : Prop :=
  i_closed it = copy.2 /\ i_err it = None /\
  (copy.2 = false -> i_registered it = true /\ 0 <= i_maxSeq it < nextSeq db /\
    exists ts o, (forall t, t ∈ ts -> t ∈ g_all g) /\ yielding (coherent ts) fuel o (i_maxSeq it) it copy.1).

(** What the flush worker holds. *)
Definition flusher_ok (f : flusher) (db : DB) (g : ghost) : Prop :=
  match f with
  | FWaiting | FLooping _ | FPublished _ _ | FDone => True
  | FPicked _ imm => head (immutableMemtables db) = Some imm
  | FAllocated _ imm id => head (immutableMemtables db) = Some imm /\ reserved db g id
  | FCreated _ imm meta => head (immutableMemtables db) = Some imm /\ reserved db g (ID meta) /\
      exists l t, head (g_imms g) = Some l /\ created (dir db) l meta t
  end.

(** [Close] closes the second channel when the flush worker is done. *)
Definition closer_ok (s : sys) : Prop :=
  (closed (s_db s) = true <-> s_closer s <> NotClosing) /\ (compactionClosed s = true -> s_flusher s = FDone).

Record sim (s : sys) (a : astate) (g : ghost) : Prop := mkSim {
  sim_inv : inv (s_db s) g;
  sim_limits : limits (s_db s) = lim;
  sim_options : sstableWriteOptions (s_db s) = opts;
  sim_closed : closed (s_db s) = a_closed a;
  sim_map : forall key, read_at (g_hist g) key (nextSeq (s_db s) - 1) = a_map a !! key;
  sim_snapshots : Forall2 (snapshot_ok (s_db s) g) (s_snapshots s) (a_snapshots a);
  sim_iterators : Forall2 (iterator_ok (s_db s) g) (s_iterators s) (a_iterators a);
  sim_readers : forall q, default 0 (activeReaders (s_db s) !! q) = count (open_at q) (s_snapshots s) + count (iter_at q) (s_iterators s);
  sim_flusher : flusher_ok (s_flusher s) (s_db s) g;
  sim_closer : closer_ok s;
}.

(** What the flush worker holds is not disturbed. *)
Lemma flusher_undisturbed f (db db' : DB) g g' : flusher_ok f db g -> undisturbed db g db' g' -> flusher_ok f db' g'.
Proof.
  intros Hf [Hids [imms Himms] [ls Hls]].
  assert (Hhead : forall imm, head (immutableMemtables db) = Some imm -> head (immutableMemtables db') = Some imm)
    by (intros imm; rewrite Himms; by destruct (immutableMemtables db)).
  destruct f as [|final|final imm|final imm id|final imm meta|final imm|]; simpl in *; try done; [by apply Hhead | |].
  - destruct Hf as [H1 H2]. split; [by apply Hhead | by apply Hids].
  - destruct Hf as (H1 & H2 & l & t & H3 & H4). destruct (Hids _ H2) as [H5 H6]. split; [by apply Hhead |]. split; [done |].
    exists l, t. split; [rewrite Hls; by destruct (g_imms g) |]. destruct H4. constructor; try done. congruence.
Qed.

(** Snapshots and iterators do not notice other events. *)
Lemma snapshots_keep (db db' : DB) g g' sns copies :
  g_hist g' = g_hist g -> nextSeq db' = nextSeq db -> Forall2 (snapshot_ok db g) sns copies -> Forall2 (snapshot_ok db' g') sns copies.
Proof. intros Hh Hn Hf. eapply Forall2_impl; [exact Hf |]. intros sn copy. unfold snapshot_ok. by rewrite Hh, Hn. Qed.

Lemma iterators_keep (db db' : DB) g g' its copies :
  nextSeq db <= nextSeq db' -> (forall t, t ∈ g_all g -> t ∈ g_all g') ->
  Forall2 (iterator_ok db g) its copies -> Forall2 (iterator_ok db' g') its copies.
Proof.
  intros Hn Ha Hf. eapply Forall2_impl; [exact Hf |]. intros it copy (H1 & H2 & H3). split; [done |]. split; [done |].
  intros Hc. destruct (H3 Hc) as (H4 & H5 & ts & o & H6 & H7). split; [done |]. split; [lia |]. exists ts, o. split; [by auto | done].
Qed.

(** Events that are invisible to clients. *)
Lemma sim_invisible (s : sys) a g (db' : DB) g' :
  sim s a g -> inv db' g' -> g_hist g' = g_hist g -> same_client (s_db s) db' -> undisturbed (s_db s) g db' g' ->
  sim (set_db db' s) a g'.
Proof.
  intros [] Hi Hh (C1 & C2 & C3 & C4 & C5) Hu. constructor; simpl; try done; try congruence.
  - by eapply snapshots_keep.
  - eapply iterators_keep; [| apply (un_all _ _ _ _ Hu) | done]. lia.
  - by eapply flusher_undisturbed.
  - unfold closer_ok in *. cbn [set_db s_db s_closer s_flusher] in *. by rewrite C3.
Qed.

Lemma same_client_refl (db : DB) : same_client db db.
Proof. done. Qed.

(** A step of the flush worker is invisible as well. *)
Lemma sim_flush (s : sys) a g f (db' : DB) g' :
  sim s a g -> inv db' g' -> g_hist g' = g_hist g -> same_client (s_db s) db' -> (forall t, t ∈ g_all g -> t ∈ g_all g') ->
  flusher_ok f db' g' -> (compactionClosed s = true -> f = FDone) -> sim (flusher_goto f db' s) a g'.
Proof.
  intros [] Hi Hh (C1 & C2 & C3 & C4 & C5) Ha Hf Hc. constructor; simpl; try done; try congruence.
  - by eapply snapshots_keep.
  - eapply iterators_keep; [| exact Ha | done]. lia.
  - unfold closer_ok in *. cbn [flusher_goto set_flusher set_db s_db s_closer s_flusher compactionClosed]. rewrite C3. by destruct sim_closer0.
Qed.

(** ** Writes *)

(** Only the flush worker itself takes its signal or moves on. *)
Definition lively (ev : event) (s s' : sys) : Prop :=
  match ev with
  | EFlusher _ => True
  | _ => wakes (s_db s) (s_db s') /\ s_flusher s' = s_flusher s
  end.

Lemma lively_wakes ev (s s' : sys) : wakes (s_db s) (s_db s') -> s_flusher s' = s_flusher s -> lively ev s s'.
Proof. by destruct ev. Qed.

(** The history grows by what the event writes, and the flush worker is woken. *)
Record grows (ev : event) (s s' : sys) (g g' : ghost) : Prop := mkGrows {
  gr_cost : key_cost (g_hist g') <= key_cost (g_hist g) + key_cost (writes ev);
  gr_length : (length (g_hist g') <= length (g_hist g) + length (writes ev))%nat;
  gr_lively : lively ev s s';
}.

Definition simulated (ev : event) (s : sys) (a : astate) (g : ghost) : Prop :=
  exists out s' a' g', exec ev s = Some (out, s') /\ allowed lim ev a out a' /\ sim s' a' g' /\ grows ev s s' g g'.

Lemma grows_same ev (s s' : sys) g g' : g_hist g' = g_hist g -> lively ev s s' -> grows ev s s' g g'.
Proof.
  intros Hh Hl. pose proof (key_cost_length (writes ev)). pose proof (len_nonneg (writes ev)). by split; [rewrite Hh; lia.. |].
Qed.

Lemma length_batch_writes ops i : length (batch_writes i ops) = length ops.
Proof. revert i. induction ops as [|op ops IH]; intros i; [done |]. cbn. by rewrite IH. Qed.

(** The event writes the keys of [ops]. *)
Definition covers (ev : event) (ops : list batch_op) : Prop := Key <$> writes ev = op_Key <$> ops.

Lemma covers_cost ev ops i : covers ev ops -> key_cost (writes ev) = key_cost (batch_writes i ops) /\ length (writes ev) = length ops.
Proof.
  unfold covers. generalize (writes ev). intros l. revert i l.
  induction ops as [|op ops IH]; intros i [|r l] Hc; try done. cbn in Hc. injection Hc as Hk Hc.
  destruct (IH (i + 1) l Hc). unfold key_cost in *. cbn. rewrite Hk. split; lia.
Qed.

Lemma grows_batch ev ops i (s s' : sys) g g' :
  covers ev ops -> g_hist g' = reverse (batch_writes i ops) ++ g_hist g -> lively ev s s' -> grows ev s s' g g'.
Proof.
  intros [Hw Hl]%(fun H => covers_cost ev ops i H) Hh Hli. constructor; [| | done];
  rewrite ?Hw, ?Hl, Hh, ?key_cost_app, ?length_app, ?length_reverse, ?length_batch_writes; [| lia].
  pose proof (key_cost_submseteq _ _ (Permutation_submseteq _ _ (reverse_Permutation (batch_writes i ops)))). lia.
Qed.

Lemma sim_write (s : sys) a g (db' : DB) g' ops next :
  sim s a g -> nextSeq (s_db s) + len ops <= next <= u64_max -> inv db' g' ->
  g_hist g' = reverse (batch_writes (nextSeq (s_db s)) ops) ++ g_hist g ->
  same_client (set_nextSeq next (s_db s)) db' -> undisturbed (s_db s) g db' g' ->
  sim (set_db db' s) (with_map (foldl apply_op (a_map a) ops) a) g'.
Proof.
  intros Hs Hn Hi Hh (C1 & C2 & C3 & C4 & C5) Hu. simpl in C1, C2, C3, C4, C5.
  pose proof (inv_seq _ _ _ (sim_inv _ _ _ Hs)) as Hq. pose proof (inv_hist _ _ _ (sim_inv _ _ _ Hs)) as Hho.
  pose proof (len_nonneg ops). pose proof (batch_writes_range ops (nextSeq (s_db s)) ltac:(lia) ltac:(lia)) as Hr.
  destruct Hs. constructor; simpl; try done; try congruence.
  - intros key. rewrite Hh, C2, (read_top (nextSeq (s_db s) + len ops)); [| | lia].
    + by apply read_batch; [lia | lia | apply (ho_seq _ _ Hho) |].
    + apply Forall_app. split; [apply Forall_reverse |]; eapply Forall_impl; [exact Hr | simpl; lia | apply (ho_seq _ _ Hho) | simpl; lia].
  - eapply Forall2_impl; [exact sim_snapshots0 |]. intros sn copy [H1 H2]. split; [done |]. cbn [s_db set_db]. rewrite C2, Hh.
    intros Hc. destruct (H2 Hc) as [H3 H4]. split; [lia |]. intros key. rewrite <- H4. apply read_above, Forall_reverse.
    eapply Forall_impl; [exact Hr |]. simpl. lia.
  - eapply iterators_keep; [| apply (un_all _ _ _ _ Hu) | done]. lia.
  - by eapply flusher_undisturbed.
  - unfold closer_ok in *. cbn [set_db s_db s_closer s_flusher] in *. by rewrite C3.
Qed.

(** A write of [ops] that was not refused for its arguments. *)
Lemma sim_written ev (e : env) sync ops next (out : option (result db_error unit * DB)) (s : sys) a g :
  sim s a g -> nextSeq (s_db s) + len ops <= next <= u64_max -> covers ev ops ->
  exec ev s = ('(r, db) ← out; Some (ODone r, set_db db s)) ->
  (forall o a', written e sync (foldl apply_op (a_map a) ops) a o a' -> allowed lim ev a o a') ->
  refused Hash128 e sync out (s_db s) g \/
  (exists db' g', out = Some (Ok tt, db') /\ inv db' g' /\ g_hist g' = reverse (batch_writes (nextSeq (s_db s)) ops) ++ g_hist g /\
    same_client (set_nextSeq next (s_db s)) db' /\ undisturbed (s_db s) g db' g') ->
  simulated ev s a g.
Proof.
  intros Hs Hn Hw Hex Hal [[He (d & -> & Hi & Hu)] | (db' & g' & -> & Hi & Hh & Hc & Hu)].
  - exists (ODone (Err ErrOS)), (set_db (set_dir d (s_db s)) s), a, g. split; [done |].
    split; [apply Hal; by right |]. split; [by eapply sim_invisible | apply grows_same, lively_wakes; [done | apply Hu | done]].
  - eexists (ODone (Ok tt)), (set_db db' s), _, g'. split; [done |].
    split; [apply Hal; by left |]. split; [by eapply sim_write | eapply grows_batch, lively_wakes; [done | done | apply Hu | done]].
Qed.

(** An event that is refused for its arguments. *)
Lemma sim_refused ev err (s : sys) a g :
  sim s a g -> exec ev s = Some (ODone (Err err), s) -> allowed lim ev a (ODone (Err err)) a -> simulated ev s a g.
Proof. intros Hs He Ha. exists (ODone (Err err)), s, a, g. split; [done |]. split; [done |]. split; [done | by apply grows_same, lively_wakes]. Qed.

Lemma set_db_same (s : sys) : set_db (s_db s) s = s.
Proof. by destruct s. Qed.

Lemma headroom_spec ev (db : DB) :
  headroom ev db = true -> nextSeq db + match ev with EBatch _ ops _ => len ops | _ => 0 end < u64_max /\
    NextWALSegmentID (manifest db) < u64_max /\ NextSSTableID (manifest db) + Z.of_nat (rounds db) < u64_max.
Proof. unfold headroom. rewrite !andb_true_iff, !Z.ltb_lt. tauto. Qed.

Lemma validateKey_spec (db : DB) key :
  limits db = lim -> validateKey db key = match too_large lim key with Some err => Err err | None => Ok tt end.
Proof. intros <-. unfold validateKey, too_large. by destruct (_ >? _). Qed.

Lemma validateValue_spec (db : DB) value :
  limits db = lim -> validateValue db value = match too_large_value lim value with Some err => Err err | None => Ok tt end.
Proof. intros <-. unfold validateValue, too_large_value. by destruct (_ >? _). Qed.

Lemma key_fits (s : sys) a g key : sim s a g -> too_large lim key = None -> len key <= MaxKeySize.
Proof.
  intros Hs. destruct (inv_limits _ _ _ (sim_inv _ _ _ Hs)) as [H1 _]. rewrite (sim_limits _ _ _ Hs) in *. unfold too_large.
  destruct (Z.gtb_spec (len key) (MaxKeyBytes lim)); done || lia.
Qed.

Lemma value_fits (s : sys) a g value : sim s a g -> too_large_value lim value = None -> len value <= MaxValueSize.
Proof.
  intros Hs. destruct (inv_limits _ _ _ (sim_inv _ _ _ Hs)) as [_ H1]. rewrite (sim_limits _ _ _ Hs) in *. unfold too_large_value.
  destruct (Z.gtb_spec (len value) (MaxValueBytes lim)); done || lia.
Qed.

(** A single write as a batch of one operation. *)
Lemma write_one_sim ev (e : env) op (s : sys) a g :
  let rec := mkRecord (op_Key op) (nextSeq (s_db s)) (mkEntry (op_Value op) (op_Deleted op)) 0 BatchNone in
  sim s a g -> a_closed a = false -> headroom ev (s_db s) = true -> mild e = true -> op_ok op -> covers ev [op] ->
  (match ev with EBatch _ _ _ => False | _ => True end) ->
  exec ev s = ('(r, db) ← write_one e rec (s_db s); Some (ODone r, set_db db s)) ->
  (forall o a', written e false (apply_op (a_map a) op) a o a' -> allowed lim ev a o a') ->
  simulated ev s a g.
Proof.
  intros rec Hs Hcl (Hq & Hw & _)%headroom_spec Hm Hop Hwr Hev Hex Hal. pose proof (inv_seq _ _ _ (sim_inv _ _ _ Hs)) as Hq'.
  assert (nextSeq (s_db s) < u64_max) by (by destruct ev; try done; rewrite Z.add_0_r in Hq).
  assert (Hrecs : batch_writes (nextSeq (s_db s)) [op] = [rec]) by (cbn [batch_writes]; rewrite u64_id by (unfold is_u64; lia); done).
  pose proof (batch_writes_wf [op] (nextSeq (s_db s)) ltac:(by apply Forall_singleton) ltac:(lia) ltac:(unfold len; simpl; lia)) as Hwf.
  rewrite Hrecs in Hwf. apply Forall_cons in Hwf as [Hwf _].
  eapply (sim_written ev e false [op] (nextSeq (s_db s) + 1)); [done | unfold len; simpl; lia | done | exact Hex | exact Hal |].
  rewrite Hrecs. cbn [reverse rev_append app]. apply write_one_inv; try done; [by apply sim_inv in Hs | by rewrite (sim_closed _ _ _ Hs)].
Qed.

Lemma put_sim (e : env) key value (s : sys) a g :
  sim s a g -> headroom (EPut e key value) (s_db s) = true -> mild e = true -> simulated (EPut e key value) s a g.
Proof.
  intros Hs Hh Hm. pose proof (sim_closed _ _ _ Hs) as Hcl. pose proof (sim_limits _ _ _ Hs) as Hl.
  assert (Hex : exec (EPut e key value) s = match if_closed a (orelse (too_large lim key) (too_large_value lim value)) with
    | Some err => Some (ODone (Err err), s)
    | None => '(r, db) ← write_one e (mkRecord key (nextSeq (s_db s)) (mkEntry value false) 0 BatchNone) (s_db s); Some (ODone r, set_db db s)
    end).
  { cbn [DbSystem.exec]. unfold DB_Put, if_closed. rewrite Hcl. destruct (a_closed a); [cbn; by rewrite set_db_same |].
    rewrite validateKey_spec, validateValue_spec by done. destruct (too_large lim key); [cbn; by rewrite set_db_same |].
    by destruct (too_large_value lim value); [cbn; by rewrite set_db_same |]. }
  assert (Hal : forall o a', checked (if_closed a (orelse (too_large lim key) (too_large_value lim value))) e false (<[key := value]> (a_map a)) a o a' ->
    allowed lim (EPut e key value) a o a') by done.
  unfold if_closed, orelse in *. destruct (a_closed a) eqn:Ea; [by eapply sim_refused; [| exact Hex | by apply Hal] |].
  destruct (too_large lim key) eqn:Ek; [by eapply sim_refused; [| exact Hex | by apply Hal] |].
  destruct (too_large_value lim value) eqn:Ev; [by eapply sim_refused; [| exact Hex | by apply Hal] |].
  apply (write_one_sim (EPut e key value) e (mkOp key value false)); try done.
  split; [by eapply key_fits | by eapply value_fits].
Qed.

Lemma delete_sim (e : env) key (s : sys) a g :
  sim s a g -> headroom (EDelete e key) (s_db s) = true -> mild e = true -> simulated (EDelete e key) s a g.
Proof.
  intros Hs Hh Hm. pose proof (sim_closed _ _ _ Hs) as Hcl. pose proof (sim_limits _ _ _ Hs) as Hl.
  assert (Hex : exec (EDelete e key) s = match if_closed a (too_large lim key) with
    | Some err => Some (ODone (Err err), s)
    | None => '(r, db) ← write_one e (mkRecord key (nextSeq (s_db s)) (mkEntry [] true) 0 BatchNone) (s_db s); Some (ODone r, set_db db s)
    end).
  { cbn [DbSystem.exec]. unfold DB_Delete, if_closed. rewrite Hcl. destruct (a_closed a); [cbn; by rewrite set_db_same |].
    rewrite validateKey_spec by done. by destruct (too_large lim key); [cbn; by rewrite set_db_same |]. }
  assert (Hal : forall o a', checked (if_closed a (too_large lim key)) e false (delete key (a_map a)) a o a' ->
    allowed lim (EDelete e key) a o a') by done.
  unfold if_closed in *. destruct (a_closed a) eqn:Ea; [by eapply sim_refused; [| exact Hex | by apply Hal] |].
  destruct (too_large lim key) eqn:Ek; [by eapply sim_refused; [| exact Hex | by apply Hal] |].
  apply (write_one_sim (EDelete e key) e (mkOp key [] true)); try done.
  by split; [eapply key_fits |].
Qed.

(** ** Batches *)

(** An operation as the batch keeps it. *)
Definition kept_op (op : batch_op) : batch_op := if op_Deleted op then mkOp (op_Key op) [] true else op.

Lemma apply_kept ops m : foldl apply_op m (kept_op <$> ops) = foldl apply_op m ops.
Proof.
  revert m. induction ops as [|op ops IH]; intros m; [done |]. cbn [fmap list_fmap foldl]. rewrite IH. f_equal.
  unfold apply_op, kept_op. by destruct op as [k v []].
Qed.

Lemma reserve_spec (db : DB) size b :
  limits db = lim ->
  reserveOperation db size b =
    if len (operations b) >=? MaxBatchOperations lim then (Err (ErrBatchOperations (MaxBatchOperations lim)), b)
    else if sizeBytes b + size >? MaxBatchBytes lim then (Err (ErrBatchBytes (MaxBatchBytes lim)), b)
    else (Ok tt, mkBatch (operations b) (sizeBytes b + size) (b_closed b)).
Proof.
  intros <-. unfold reserveOperation. destruct (_ >=? _); [done |].
  destruct (Z.gtb_spec size (MaxBatchBytes (limits db) - sizeBytes b)), (Z.gtb_spec (sizeBytes b + size) (MaxBatchBytes (limits db))); done || lia.
Qed.

Lemma fill_batch_spec (db : DB) ops b :
  limits db = lim -> b_closed b = false ->
  match check_ops lim (len (operations b)) (sizeBytes b) ops with
  | Some err => exists b', fill_batch db ops b = (Err err, b')
  | None => exists size, fill_batch db ops b = (Ok tt, mkBatch (operations b ++ (kept_op <$> ops)) size false)
  end.
Proof.
  intros Hl. revert b. induction ops as [|op ops IH]; intros b Hb.
  - cbn. exists (sizeBytes b). rewrite app_nil_r. destruct b. simpl in Hb. by rewrite Hb.
  - cbn [check_ops fill_batch]. unfold Batch_Delete, Batch_Put. rewrite Hb, validateKey_spec, validateValue_spec by done.
    destruct (too_large lim (op_Key op)); [destruct (op_Deleted op); by eauto |].
    destruct (op_Deleted op) eqn:Ed; [| destruct (too_large_value lim (op_Value op)); [by eauto |]];
      rewrite reserve_spec by done; unfold op_size; rewrite Ed, ?Z.add_0_r;
      (destruct (_ >=? _); [by eauto |]); (destruct (_ >? _); [by eauto |]);
      match goal with |- context [fill_batch db ops ?x] => specialize (IH x Hb) end;
      cbn [append_op operations sizeBytes] in IH; rewrite len_app in IH;
      replace (len [_]) with 1 in IH by done; rewrite fmap_cons; unfold kept_op at 1; rewrite Ed;
      destruct (check_ops _ _ _ ops); [done | | done |];
      destruct IH as [size ->]; exists size; rewrite <- app_assoc; [done |].
    destruct op; simpl in Ed; by subst.
Qed.

Lemma check_ops_ok (s : sys) a g ops i size :
  sim s a g -> check_ops lim i size ops = None -> Forall op_ok (kept_op <$> ops).
Proof.
  intros Hs. revert i size. induction ops as [|op ops IH]; intros i size Hc; [constructor |]. cbn [check_ops] in Hc.
  destruct (too_large lim (op_Key op)) eqn:Ek; [done |].
  destruct (if op_Deleted op then None else _) eqn:Ev; [done |]. destruct (_ >=? _); [done |]. destruct (_ >? _); [done |].
  rewrite fmap_cons. constructor; [| by eapply IH]. unfold kept_op.
  destruct (op_Deleted op); split; cbn [op_Key op_Value]; first [done | by eapply key_fits | by eapply value_fits].
Qed.

Lemma batch_sim (e : env) ops sync (s : sys) a g :
  sim s a g -> headroom (EBatch e ops sync) (s_db s) = true -> mild e = true -> simulated (EBatch e ops sync) s a g.
Proof.
  intros Hs (Hq & Hw & _)%headroom_spec Hm. pose proof (sim_closed _ _ _ Hs) as Hcl. pose proof (sim_limits _ _ _ Hs) as Hl.
  pose proof (fill_batch_spec (s_db s) ops NewBatch Hl eq_refl) as Hfill.
  assert (Hal : forall o a', checked (orelse (check_ops lim 0 0 ops) (if_closed a None)) e sync (foldl apply_op (a_map a) ops) a o a' ->
    allowed lim (EBatch e ops sync) a o a') by done.
  assert (Hex : exec (EBatch e ops sync) s = ('(r, db) ← write_batch e ops sync (s_db s); Some (ODone r, set_db db s))) by done.
  unfold write_batch in Hex. cbn [operations sizeBytes NewBatch] in Hfill. change (len []) with 0 in Hfill.
  destruct (check_ops lim 0 0 ops) as [err|] eqn:Ec; cbn [orelse] in Hal.
  { destruct Hfill as [b' Hfill]. rewrite Hfill in Hex. cbn in Hex. rewrite set_db_same in Hex.
    by eapply sim_refused; [| exact Hex | by apply Hal]. }
  destruct Hfill as [size Hfill]. rewrite Hfill in Hex. cbn [app] in Hex. unfold Batch_Commit in Hex. cbn [b_closed operations] in Hex.
  pose proof (check_ops_ok s a g ops 0 0 Hs Ec) as Hops. set (ops' := kept_op <$> ops) in *.
  assert (Hex' : exec (EBatch e ops sync) s = ('(r, db) ← applyBatch e ops' sync (s_db s); Some (ODone r, set_db db s))).
  { rewrite Hex. by destruct (applyBatch e ops' sync (s_db s)) as [[[[]|] ?]|]. }
  clear Hex. unfold if_closed in Hal. destruct (a_closed a) eqn:Ea.
  { unfold applyBatch in Hex'. rewrite Hcl in Hex'. cbn in Hex'. rewrite set_db_same in Hex'.
    by eapply sim_refused; [| exact Hex' | by apply Hal]. }
  assert (Hlen : len ops' = len ops) by (unfold ops', len; by rewrite length_fmap).
  pose proof (inv_seq _ _ _ (sim_inv _ _ _ Hs)) as Hq'. pose proof (len_nonneg ops).
  assert (Hab : nextSeq (s_db s) + len ops' <= after_batch (nextSeq (s_db s)) ops' <= u64_max)
    by (unfold after_batch; rewrite Hlen; destruct (Z.eqb_spec (len ops) 0); lia).
  eapply (sim_written _ e sync ops'); [done | exact Hab | | exact Hex' | |].
  - unfold covers, ops'. cbn [writes]. clear. generalize 0. induction ops as [|op ops IH]; intros i; [done |].
    cbn [batch_writes fmap list_fmap] in *. rewrite IH. f_equal. unfold kept_op. by destruct op as [? ? []].
  - intros o a' Hwr. apply Hal. unfold ops' in Hwr. by rewrite apply_kept in Hwr.
  - apply applyBatch_inv; try done; [by apply sim_inv in Hs | lia].
Qed.

(** ** Reads and snapshots *)

(** Opening a table or filling the cache disturbs nothing. *)
Lemma undisturbed_handles (db : DB) g hs cache : undisturbed db g (set_sstables hs (set_blockCache cache db)) g.
Proof. apply undisturbed_same; try done; exists []; by rewrite app_nil_r. Qed.

Lemma getAt_sim key maxSeq (s : sys) a g :
  sim s a g -> readable (oldestReaderLocked (s_db s)) (nextSeq (s_db s)) maxSeq ->
  exists db', getAt Hash128 key maxSeq (s_db s) = Some (reply (read_at (g_hist g) key maxSeq), db') /\ sim (set_db db' s) a g /\
    wakes (s_db s) db'.
Proof.
  intros Hs Hr. destruct (getAt_inv Hash128 key maxSeq (s_db s) g (sim_inv _ _ _ Hs)) as (hs & cache & E & Hi).
  rewrite (inv_reads _ _ _ (sim_inv _ _ _ Hs)) in E by done. eexists. split; [exact E |].
  split; [| done]. eapply sim_invisible; [done | done | done | done | apply undisturbed_handles].
Qed.

(** The newest sequence number is readable, and every one above it. *)
Lemma readable_top (s : sys) a g maxSeq :
  sim s a g -> nextSeq (s_db s) - 1 <= maxSeq -> readable (oldestReaderLocked (s_db s)) (nextSeq (s_db s)) maxSeq.
Proof.
  intros Hs Hm. unfold readable. pose proof (oldestReader_spec (s_db s)) as Ho. destruct (oldestReaderLocked (s_db s)) as [o|]; [| lia].
  destruct Ho as [[c Hc] _]. destruct (inv_readers _ _ _ (sim_inv _ _ _ Hs) o c Hc). lia.
Qed.

Lemma get_sim key (s : sys) a g : sim s a g -> simulated (EGet key) s a g.
Proof.
  intros Hs. pose proof (sim_closed _ _ _ Hs) as Hcl. pose proof (inv_seq _ _ _ (sim_inv _ _ _ Hs)) as Hq.
  assert (exists db', DB_Get Hash128 key (s_db s) = Some (answer_get lim a (a_map a) key, db') /\ sim (set_db db' s) a g /\
    wakes (s_db s) db') as (db' & E & Hs' & Hw).
  { unfold DB_Get, answer_get, if_closed. rewrite Hcl. destruct (a_closed a); [exists (s_db s); by rewrite set_db_same |].
    rewrite validateKey_spec by apply Hs. destruct (too_large lim key); [exists (s_db s); by rewrite set_db_same |].
    destruct (getAt_sim key u64_max s a g Hs) as (db' & E & Hs' & Hw); [by apply (readable_top s a g); [| lia] |]. exists db'. split; [| done].
    rewrite E, (read_top (nextSeq (s_db s))); [by rewrite (sim_map _ _ _ Hs) | | lia].
    apply (ho_seq _ _ (inv_hist _ _ _ (sim_inv _ _ _ Hs))). }
  exists (OValue (answer_get lim a (a_map a) key)), (set_db db' s), a, g. cbn [DbSystem.exec]. rewrite E.
  split; [done |]. split; [done |]. split; [done | by apply grows_same, lively_wakes].
Qed.

End sim.
