(* ===== verification/DbSimReaders.v ===== *)
(** * Snapshots and iterators implement their specification

    Readers pin the sequence number they were opened at: an open snapshot
    answers from the map as it was, and an open iterator yields the entries of
    its range as they were, in order, whatever is written, flushed or compacted
    in the meantime. *)

From stdpp Require Import sorting.
From S2P Require Import Float64 Bloom BlockCache Wal MemTableClaims.
From S2P Require Export DbSim DbPrefix.

(** ** Counting *)

Section count.
Context {A : Type} (Q : A -> Prop) `{!forall x, Decision (Q x)}.

Lemma count_nonneg l : 0 <= count Q l.
Proof. apply len_nonneg. Qed.

Lemma count_app l k : count Q (l ++ k) = count Q l + count Q k.
Proof. unfold count. by rewrite filter_app, len_app. Qed.

Lemma count_one x : count Q [x] = if decide (Q x) then 1 else 0.
Proof. unfold count. rewrite filter_cons. by case_decide. Qed.

Lemma count_insert i x y l : l !! i = Some x -> count Q (<[i := y]> l) = count Q l - count Q [x] + count Q [y].
Proof.
  intros Hi. rewrite insert_take_drop by (by eapply lookup_lt_Some). rewrite <- (take_drop_middle l i x Hi) at 3.
  change (y :: ?z) with ([y] ++ z). change (x :: ?z) with ([x] ++ z). rewrite !count_app. lia.
Qed.

Lemma count_pos i x l : l !! i = Some x -> Q x -> 0 < count Q l.
Proof.
  intros Hi%list_elem_of_lookup_2 Ho. unfold count, len. assert (x ∈ filter Q l) as Hin by (by apply list_elem_of_filter).
  destruct (filter _ _); [by apply not_elem_of_nil in Hin | simpl; lia].
Qed.

End count.

(** ** Ranges *)

Global Instance kv_le_trans : Transitive kv_le.
Proof. intros a b c. unfold kv_le. intros H1 H2. key_order. Qed.

Global Instance kv_le_total : Total kv_le.
Proof. intros a b. unfold kv_le. destruct (key_leb_spec a.1 b.1); [by left | right; key_order]. Qed.

(** Distinct keys in order are in strict order. *)
Lemma kv_sorted_strict l : NoDup l.*1 -> StronglySorted kv_le l -> StronglySorted (fun a b => (a.1 < b.1)%key) l.
Proof.
  induction l as [|a l IH]; intros Hnd Hs; [constructor |]. rewrite fmap_cons in Hnd. apply NoDup_cons in Hnd as [Hn Hnd].
  apply StronglySorted_inv in Hs as [Hs Hall]. constructor; [by apply IH |]. rewrite Forall_forall in *. intros b Hb.
  specialize (Hall b Hb). unfold kv_le in Hall. assert (a.1 <> b.1) by (intros Heq; apply Hn, list_elem_of_fmap; by exists b). key_order.
Qed.

Lemma range_sorted (f : bytes -> bool) (m : gmap bytes bytes) : StronglySorted (fun a b => (a.1 < b.1)%key) (range f m).
Proof.
  apply kv_sorted_strict; [| apply StronglySorted_merge_sort; apply _]. unfold range.
  rewrite (merge_sort_Permutation kv_le). eapply sublist_NoDup; [apply (NoDup_fst_map_to_list m) |].
  apply sublist_fmap_mono, sublist_filter.
Qed.

Lemma elem_of_range (f : bytes -> bool) (m : gmap bytes bytes) (kv : bytes * bytes) :
  kv ∈ range f m <-> f kv.1 = true /\ m !! kv.1 = Some kv.2.
Proof. destruct kv as [k v]. unfold range. by rewrite (merge_sort_Permutation kv_le), list_elem_of_filter, elem_of_map_to_list. Qed.

Lemma range_ranged (o : IteratorOptions) (maxSeq : Z) (hist : list record) (m : gmap bytes bytes) :
  (forall key, read_at hist key maxSeq = m !! key) -> ranged o maxSeq hist (range (in_range o) m).
Proof. intros Hm. split; [apply range_sorted |]. intros k v. by rewrite elem_of_range, Hm. Qed.

Lemma range_ext (f f' : bytes -> bool) (m : gmap bytes bytes) : (forall k, f k = f' k) -> range f m = range f' m.
Proof. intros Hf. unfold range. f_equal. apply list_filter_iff_in. intros x _. by rewrite Hf. Qed.

Section readers.
Context {lz : LZ4Codec} {laws : LZ4Laws} {C : Type} `{!Cache C}.
Context (Hash128 : bytes -> Z * Z) (math_Log : float64 -> float64) (conv : float64 -> Z) (fuel : nat).
Context (lim : LimitsOptions) (opts : WriteOptions).
Local Abbreviation DB := (DB C).
Local Abbreviation sys := (sys C).
Local Abbreviation inv := (inv Hash128).
Local Abbreviation exec := (exec Hash128 math_Log conv fuel).
Local Abbreviation sim := (sim Hash128 fuel lim opts).
Local Abbreviation simulated := (simulated Hash128 math_Log conv fuel lim opts).

Lemma unchanged_simulated ev out (s : sys) a g :
  sim s a g -> exec ev s = Some (out, s) -> allowed lim ev a out a -> simulated ev s a g.
Proof. intros Hs He Ha. exists out, s, a, g. split; [done |]. split; [done |]. split; [done | by apply grows_same, lively_wakes]. Qed.

(** A reader is registered at a readable sequence number. *)
Lemma sim_registered (s : sys) a g q :
  sim s a g -> 0 <= q < nextSeq (s_db s) -> readable (oldestReaderLocked (s_db s)) (nextSeq (s_db s)) q ->
  inv (registerReaderLocked q (s_db s)) g.
Proof. intros Hs Hq Hr. apply register_inv; [by apply sim_inv in Hs | done | done]. Qed.

(** ** Snapshots *)

Lemma snapshot_sim (s : sys) a g : sim s a g -> simulated ESnapshot s a g.
Proof.
  intros Hs. pose proof (sim_closed _ _ _ _ _ _ _ Hs) as Hcl. pose proof (inv_seq _ _ _ (sim_inv _ _ _ _ _ _ _ Hs)) as Hq.
  assert (Hex : exec ESnapshot s = match NewSnapshot (s_db s) with
    | (Err err, db) => Some (OSnapshot (Err err), set_db db s)
    | (Ok sn, db) => Some (OSnapshot (Ok (length (s_snapshots s))), set_snapshots (s_snapshots s ++ [sn]) (set_db db s))
    end) by done.
  unfold NewSnapshot in Hex. rewrite Hcl in Hex. destruct (a_closed a) eqn:Ea.
  { rewrite set_db_same in Hex. eapply unchanged_simulated; [done | exact Hex |]. cbn [allowed]. by rewrite Ea. }
  unfold currentSequenceLocked in Hex. rewrite u64_id in Hex by (unfold is_u64; lia). set (q := nextSeq (s_db s) - 1) in *.
  pose proof (Forall2_length _ _ _ (sim_snapshots _ _ _ _ _ _ _ Hs)) as Hlen.
  eexists _, _, _, g. split; [exact Hex |]. cbn [allowed]. rewrite Ea. split; [by rewrite Hlen |]. split; [| by apply grows_same, lively_wakes].
  constructor; simpl; try (by destruct Hs).
  - apply (sim_registered s a g); [done | lia | apply (readable_top Hash128 fuel lim opts s a g); [done | lia]].
  - apply Forall2_app; [by destruct Hs |]. constructor; [| constructor]. split; [done |]. intros _. split; [simpl; lia |].
    apply (sim_map _ _ _ _ _ _ _ Hs).
  - intros q'. pose proof (register_count q (s_db s) q') as Hc. cbn in Hc. rewrite Hc, count_app, count_one, (sim_readers _ _ _ _ _ _ _ Hs).
    unfold open_at. cbn [sn_closed sn_sequence]. repeat case_decide; naive_solver lia.
Qed.

(** A registered sequence number is readable. *)
Lemma readable_registered (s : sys) q :
  0 < default 0 (activeReaders (s_db s) !! q) -> readable (oldestReaderLocked (s_db s)) (nextSeq (s_db s)) q.
Proof.
  intros Hr. unfold readable. pose proof (oldestReader_spec (s_db s)) as Hsp. destruct (oldestReaderLocked (s_db s)) as [o|].
  - apply Hsp. destruct (activeReaders (s_db s) !! q); [by eauto | simpl in Hr; lia].
  - rewrite Hsp, lookup_empty in Hr. simpl in Hr. lia.
Qed.

Lemma snapshot_registered (s : sys) a g i sn :
  sim s a g -> s_snapshots s !! i = Some sn -> sn_closed sn = false -> 0 < default 0 (activeReaders (s_db s) !! sn_sequence sn).
Proof.
  intros Hs Hi Ho. rewrite (sim_readers _ _ _ _ _ _ _ Hs). pose proof (count_pos (open_at (sn_sequence sn)) i sn (s_snapshots s) Hi ltac:(done)).
  pose proof (count_nonneg (iter_at (sn_sequence sn)) (s_iterators s)). lia.
Qed.

Lemma iterator_registered (s : sys) a g i it :
  sim s a g -> s_iterators s !! i = Some it -> i_closed it = false -> 0 < default 0 (activeReaders (s_db s) !! i_maxSeq it).
Proof.
  intros Hs Hi Ho. rewrite (sim_readers _ _ _ _ _ _ _ Hs). pose proof (count_pos (iter_at (i_maxSeq it)) i it (s_iterators s) Hi ltac:(done)).
  pose proof (count_nonneg (open_at (i_maxSeq it)) (s_snapshots s)). lia.
Qed.

(** A client that refers to a snapshot it was not given. *)
Lemma snapshot_lookup (s : sys) a g i :
  sim s a g -> match s_snapshots s !! i with
    | None => a_snapshots a !! i = None
    | Some sn => exists copy, a_snapshots a !! i = Some copy /\ snapshot_ok (s_db s) g sn copy
    end.
Proof.
  intros Hs. destruct (s_snapshots s !! i) as [sn|] eqn:Ei.
  - destruct (Forall2_lookup_l _ _ _ _ _ (sim_snapshots _ _ _ _ _ _ _ Hs) Ei) as (copy & H1 & H2). by exists copy.
  - apply lookup_ge_None in Ei. rewrite (Forall2_length _ _ _ (sim_snapshots _ _ _ _ _ _ _ Hs)) in Ei. by apply lookup_ge_None.
Qed.

Lemma snapshot_get_sim i key (s : sys) a g : sim s a g -> simulated (ESnapshotGet i key) s a g.
Proof.
  intros Hs. pose proof (sim_closed _ _ _ _ _ _ _ Hs) as Hcl. pose proof (snapshot_lookup s a g i Hs) as Hlk.
  unfold simulated. cbn [DbSystem.exec allowed]. destruct (s_snapshots s !! i) as [sn|] eqn:Ei.
  2: { exists ONothing, s, a, g. rewrite Hlk. split; [done |]. split; [done |]. split; [done | by apply grows_same, lively_wakes]. }
  destruct Hlk as ([m c] & Ea & Hc & Hm). rewrite Ea. simpl in Hc, Hm.
  assert (exists db', Snapshot_Get Hash128 sn key (s_db s) = Some (if c then Err ErrSnapshotClosed else answer_get lim a m key, db') /\
    sim (set_db db' s) a g /\ wakes (s_db s) db') as (db' & E & Hs' & Hw).
  { unfold Snapshot_Get, answer_get, if_closed. rewrite Hc, Hcl. destruct c; [exists (s_db s); by rewrite set_db_same |].
    destruct (a_closed a); [exists (s_db s); by rewrite set_db_same |].
    rewrite (validateKey_spec lim) by apply Hs. destruct (too_large lim key); [exists (s_db s); by rewrite set_db_same |].
    destruct (getAt_sim Hash128 fuel lim opts key (sn_sequence sn) s a g Hs) as (db' & E & Hs' & Hw);
      [by eapply readable_registered, snapshot_registered |].
    exists db'. split; [| done]. rewrite E. by rewrite (proj2 (Hm eq_refl)). }
  eexists _, (set_db db' s), a, g. rewrite E. split; [reflexivity |]. split; [by destruct c |]. split; [done | by apply grows_same, lively_wakes].
Qed.

Lemma alter_same {A} (f : A -> A) (l : list A) i : (forall x, l !! i = Some x -> f x = x) -> alter f i l = l.
Proof. intros Hf. rewrite (list_alter_ext f id l l i) by done. by apply list_alter_id. Qed.

Lemma alter_insert {A} (f : A -> A) (l : list A) i x : l !! i = Some x -> alter f i l = <[i := f x]> l.
Proof. revert i. induction l as [|y l IH]; intros [|i] Hi; simplify_eq/=; [done |]. f_equal. by apply IH. Qed.

Lemma snapshot_close_sim i (s : sys) a g : sim s a g -> simulated (ESnapshotClose i) s a g.
Proof.
  intros Hs. pose proof (snapshot_lookup s a g i Hs) as Hlk. unfold simulated. cbn [DbSystem.exec allowed]. destruct (s_snapshots s !! i) as [sn|] eqn:Ei.
  2: { exists ONothing, s, a, g. split; [done |]. split; [| split; [done | by apply grows_same, lively_wakes]].
       split; [done |]. rewrite alter_same; [by destruct a | by rewrite Hlk]. }
  destruct Hlk as ([m c] & Ea & Hc & Hm). simpl in Hc, Hm. unfold Snapshot_Close. rewrite Hc. destruct c.
  { eexists ONothing, s, a, g. rewrite list_insert_id by done. split; [by destruct s |].
    split; [| split; [done | by apply grows_same, lively_wakes]]. split; [done |]. rewrite alter_same; [by destruct a |]. intros x Hx. by simplify_eq. }
  pose proof (unregister_inv Hash128 (s_db s) g (sn_sequence sn) (sim_inv _ _ _ _ _ _ _ Hs)) as Hi.
  destruct (unregister_count (sn_sequence sn) (s_db s) ltac:(by eapply snapshot_registered)) as (readers & Eu & Hr'). rewrite Eu in *.
  rewrite (alter_insert _ _ _ _ Ea). eexists _, _, _, g. split; [reflexivity |]. split; [done |]. split; [| by apply grows_same, lively_wakes].
  constructor; simpl; try (by destruct Hs).
  - apply Forall2_insert; [by destruct Hs | by split].
  - intros q. rewrite (count_insert _ i sn) by done. rewrite Hr', (sim_readers _ _ _ _ _ _ _ Hs), !count_one.
    unfold open_at. cbn [sn_closed sn_sequence]. repeat case_decide; naive_solver lia.
Qed.

(** ** Iterators *)

Lemma count_iter q (it : Iterator (C := C)) :
  count (iter_at q) [it] = if i_closed it then 0 else if decide (q = i_maxSeq it) then 1 else 0.
Proof. rewrite count_one. repeat case_decide; unfold iter_at in *; destruct (i_closed it); naive_solver. Qed.

(** A new iterator at a readable sequence number. *)
Lemma new_iterator_sim (o : IteratorOptions) (q : Z) (m : gmap bytes bytes) (s : sys) a g :
  sim s a g -> (length (g_hist g) < fuel)%nat -> 0 <= q < nextSeq (s_db s) -> readable (oldestReaderLocked (s_db s)) (nextSeq (s_db s)) q ->
  (forall key, read_at (g_hist g) key q = m !! key) ->
  exists it db', newIteratorLocked fuel o q (s_db s) = Some (Ok it, db') /\ wakes (s_db s) db' /\
    sim (set_iterators (s_iterators s ++ [it]) (set_db db' s)) (with_iterators (a_iterators a ++ [(range (in_range o) m, false)]) a) g.
Proof.
  intros Hs Hf Hq Hr Hm.
  destruct (newIteratorLocked_inv Hash128 fuel o q (s_db s) g (range (in_range o) m) (sim_inv _ _ _ _ _ _ _ Hs) Hq Hr Hf (range_ranged o q _ m Hm))
    as (it & hs & cache & E & Hi & Hy & H1 & H2 & H3).
  exists it. eexists. split; [exact E |]. split; [done |]. constructor; simpl; try (by destruct Hs).
  - apply Forall2_app; [by destruct Hs |]. constructor; [| constructor]. split; [done |]. split; [by apply yl_err in Hy |].
    intros _. rewrite H3. split; [done |]. split; [simpl; lia |]. by exists (g_all g), o.
  - intros q'. pose proof (register_count q (s_db s) q') as Hc. cbn in Hc. rewrite Hc, count_app, count_iter, (sim_readers _ _ _ _ _ _ _ Hs), H1, H3. lia.
Qed.

(** The answer to a client who wants an iterator over [kvs]. *)
Lemma iterating_sim ev err (r : option (result db_error (Iterator (C := C)) * DB)) kvs (s : sys) a g :
  sim s a g -> exec ev s = ('(r, db) ← r; Some (hand_out r (set_db db s))) ->
  (forall out a', iterating err kvs a out a' -> allowed lim ev a out a') ->
  match err with
  | Some err => r = Some (Err err, s_db s)
  | None => exists it db', r = Some (Ok it, db') /\ wakes (s_db s) db' /\
      sim (set_iterators (s_iterators s ++ [it]) (set_db db' s)) (with_iterators (a_iterators a ++ [(kvs, false)]) a) g
  end -> simulated ev s a g.
Proof.
  intros Hs Hex Hal Hr. destruct err as [err|].
  - rewrite Hr in Hex. cbn in Hex. rewrite set_db_same in Hex. eapply unchanged_simulated; [done | exact Hex | by apply Hal].
  - destruct Hr as (it & db' & -> & Hw & Hs'). cbn in Hex. eexists _, _, _, g. split; [exact Hex |].
    split; [apply Hal; by rewrite (Forall2_length _ _ _ (sim_iterators _ _ _ _ _ _ _ Hs)) |]. split; [exact Hs' | by apply grows_same, lively_wakes].
Qed.

Lemma validate_range (db : DB) o :
  limits db = lim -> (_ ← validateKey db (Start o); validateKey db (End_ o)) =
    match orelse (too_large lim (Start o)) (too_large lim (End_ o)) with Some err => Err err | None => Ok tt end.
Proof. intros Hl. rewrite !(validateKey_spec lim) by done. unfold orelse. by destruct (too_large lim (Start o)). Qed.

Lemma DB_NewIterator_sim o (s : sys) a g :
  sim s a g -> (length (g_hist g) < fuel)%nat ->
  match if_closed a (orelse (too_large lim (Start o)) (too_large lim (End_ o))) with
  | Some err => DB_NewIterator fuel o (s_db s) = Some (Err err, s_db s)
  | None => exists it db', DB_NewIterator fuel o (s_db s) = Some (Ok it, db') /\ wakes (s_db s) db' /\
      sim (set_iterators (s_iterators s ++ [it]) (set_db db' s)) (with_iterators (a_iterators a ++ [(range (in_range o) (a_map a), false)]) a) g
  end.
Proof.
  intros Hs Hf. pose proof (sim_closed _ _ _ _ _ _ _ Hs) as Hcl. pose proof (inv_seq _ _ _ (sim_inv _ _ _ _ _ _ _ Hs)) as Hq.
  unfold DB_NewIterator, if_closed. rewrite Hcl. destruct (a_closed a); [done |]. rewrite validate_range by apply Hs.
  destruct (orelse _ _); [done |]. unfold currentSequenceLocked. rewrite u64_id by (unfold is_u64; lia).
  apply new_iterator_sim; [done | done | lia | apply (readable_top Hash128 fuel lim opts s a g); [done | lia] | apply (sim_map _ _ _ _ _ _ _ Hs)].
Qed.

Lemma iterator_sim o (s : sys) a g : sim s a g -> (length (g_hist g) < fuel)%nat -> simulated (EIterator o) s a g.
Proof. intros Hs Hf. eapply iterating_sim; [done | done | | by apply DB_NewIterator_sim]. done. Qed.

Lemma scan_prefix_sim prefix (s : sys) a g : sim s a g -> (length (g_hist g) < fuel)%nat -> simulated (EScanPrefix prefix) s a g.
Proof.
  intros Hs Hf. eapply iterating_sim; [done | done | | by apply (DB_NewIterator_sim (mkIterOptions prefix (PrefixEnd prefix)))].
  intros out a'. cbn [allowed]. by rewrite (range_ext _ _ _ (prefix_range prefix)).
Qed.

(** An iterator of a snapshot, as [ev] asks for it. *)
Lemma on_snapshot_sim ev i o (f : bytes -> bool) (s : sys) a g :
  sim s a g -> (length (g_hist g) < fuel)%nat -> (forall k, f k = in_range o k) ->
  exec ev s = match s_snapshots s !! i with
    | None => Some (ONothing, s)
    | Some sn => '(r, db) ← Snapshot_NewIterator fuel sn o (s_db s); Some (hand_out r (set_db db s))
    end ->
  (forall out a', on_snapshot i (fun m => iterating (if_closed a (orelse (too_large lim (Start o)) (too_large lim (End_ o)))) (range f m) a out a') a out a' ->
    allowed lim ev a out a') -> simulated ev s a g.
Proof.
  intros Hs Hf Hrange Hex Hal. pose proof (snapshot_lookup s a g i Hs) as Hlk. pose proof (sim_closed _ _ _ _ _ _ _ Hs) as Hcl. unfold on_snapshot in Hal.
  destruct (s_snapshots s !! i) as [sn|] eqn:Ei.
  2: { eapply unchanged_simulated; [done | exact Hex |]. apply Hal. by rewrite Hlk. }
  destruct Hlk as ([m c] & Ea & Hc & Hm). simpl in Hc, Hm. rewrite Ea in Hal. unfold Snapshot_NewIterator in Hex. rewrite Hc in Hex. destruct c.
  { cbn in Hex. rewrite set_db_same in Hex. eapply unchanged_simulated; [done | exact Hex |]. by apply Hal. }
  destruct (Hm eq_refl) as [Hq Hread]. rewrite Hcl, validate_range in Hex by apply Hs.
  eapply (iterating_sim _ (if_closed a (orelse (too_large lim (Start o)) (too_large lim (End_ o))))); [done | exact Hex | exact Hal |].
  unfold if_closed. destruct (a_closed a); [done |]. destruct (orelse _ _); [done |]. rewrite (range_ext _ _ _ Hrange).
  apply new_iterator_sim; try done. by eapply readable_registered, snapshot_registered.
Qed.

Lemma snapshot_iterator_sim i o (s : sys) a g : sim s a g -> (length (g_hist g) < fuel)%nat -> simulated (ESnapshotIterator i o) s a g.
Proof. intros Hs Hf. by apply (on_snapshot_sim _ i o (in_range o)). Qed.

Lemma snapshot_scan_sim i prefix (s : sys) a g : sim s a g -> (length (g_hist g) < fuel)%nat -> simulated (ESnapshotScan i prefix) s a g.
Proof.
  intros Hs Hf. apply (on_snapshot_sim _ i (mkIterOptions prefix (PrefixEnd prefix)) (fun k => HasPrefix k prefix)); try done.
  intros k. symmetry. apply prefix_range.
Qed.

(** A client that refers to an iterator it was not given. *)
Lemma iterator_lookup (s : sys) a g i :
  sim s a g -> match s_iterators s !! i with
    | None => a_iterators a !! i = None
    | Some it => exists copy, a_iterators a !! i = Some copy /\ iterator_ok fuel (s_db s) g it copy
    end.
Proof.
  intros Hs. destruct (s_iterators s !! i) as [it|] eqn:Ei.
  - destruct (Forall2_lookup_l _ _ _ _ _ (sim_iterators _ _ _ _ _ _ _ Hs) Ei) as (copy & H1 & H2). by exists copy.
  - apply lookup_ge_None in Ei. rewrite (Forall2_length _ _ _ (sim_iterators _ _ _ _ _ _ _ Hs)) in Ei. by apply lookup_ge_None.
Qed.

(** Replacing the cache by a coherent one. *)
Lemma inv_recache (db : DB) g cache : inv db g -> cache_ok (knows (g_all g)) cache -> inv (set_blockCache cache db) g.
Proof. intros [] Hc. by constructor. Qed.

(** An iterator that has moved on, with what it has left. *)
Lemma sim_moved i it it' kvs kvs' cache (s : sys) a g :
  sim s a g -> s_iterators s !! i = Some it -> a_iterators a !! i = Some (kvs, false) ->
  cache_ok (knows (g_all g)) cache -> i_closed it' = false -> i_registered it' = true -> i_maxSeq it' = i_maxSeq it ->
  (exists ts o, (forall t, t ∈ ts -> t ∈ g_all g) /\ yielding (coherent ts) fuel o (i_maxSeq it') it' kvs') ->
  sim (set_iterators (<[i := it']> (s_iterators s)) (set_db (set_blockCache cache (s_db s)) s))
      (with_iterators (<[i := (kvs', false)]> (a_iterators a)) a) g.
Proof.
  intros Hs Ei Ea Hc H1 H2 H3 (ts & o & H4 & H5).
  destruct (Forall2_lookup_lr _ _ _ _ _ _ (sim_iterators _ _ _ _ _ _ _ Hs) Ei Ea) as (K1 & _ & K2). destruct (K2 eq_refl) as (_ & K3 & _).
  constructor; simpl; try (by destruct Hs).
  - apply inv_recache; [by apply sim_inv in Hs | done].
  - apply Forall2_insert; [by destruct Hs |]. split; [done |]. split; [by apply yl_err in H5 |]. intros _. rewrite H3 at 1 2.
    split; [done |]. split; [done |]. by exists ts, o.
  - intros q. rewrite (count_insert _ i it) by done. rewrite !count_iter, (sim_readers _ _ _ _ _ _ _ Hs), H1, H3. simpl in K1. rewrite K1. lia.
Qed.

Lemma next_sim i (s : sys) a g : sim s a g -> simulated (ENext i) s a g.
Proof.
  intros Hs. pose proof (iterator_lookup s a g i Hs) as Hlk. pose proof (sim_inv _ _ _ _ _ _ _ Hs) as Hi.
  unfold simulated. cbn [DbSystem.exec allowed]. destruct (s_iterators s !! i) as [it|] eqn:Ei.
  2: { exists ONothing, s, a, g. rewrite Hlk. split; [done |]. split; [done |]. split; [done | by apply grows_same, lively_wakes]. }
  destruct Hlk as ([kvs c] & Ea & Hc & Herr & Hy). rewrite Ea. simpl in Hc, Hy. destruct c.
  { unfold Iterator_Next. rewrite Hc. cbn. rewrite Herr, list_insert_id by done. eexists _, s, a, g.
    split; [destruct s as [[] ? ? ? ? ?]; reflexivity |]. split; [by destruct kvs |]. split; [done | by apply grows_same, lively_wakes]. }
  destruct (Hy eq_refl) as (Hreg & Hq & ts & o & Hts & Hyl).
  assert (HFam : coherent ts (cache_ok (C := C) (knows (g_all g)))) by (exists (g_all g); split; [apply (inv_ids _ _ _ Hi) | done]).
  destruct (Iterator_Next_spec (coherent ts) (cache_ok (knows (g_all g))) HFam fuel o (i_maxSeq it) it kvs (blockCache (s_db s)) Hyl Hc (inv_cache _ _ _ Hi))
    as (it' & cache & Hcache & H1 & H2 & H3). rewrite Hc in H1. rewrite Hreg in H2.
  destruct kvs as [|[key value] kvs].
  - destruct H3 as (-> & Hyl'). cbn. rewrite (yl_err _ _ _ _ _ _ Hyl'). eexists _, _, a, g. split; [reflexivity |]. split; [done |].
    split; [| by apply grows_same, lively_wakes].
    replace a with (with_iterators (<[i := ([], false)]> (a_iterators a)) a) at 1 by (rewrite list_insert_id by done; by destruct a).
    assert (Hm : i_maxSeq it' = i_maxSeq it) by (by destruct (yl_inv _ _ _ _ _ _ Hyl') as (P & [] & _)).
    eapply sim_moved; try done. exists ts, o. by rewrite Hm.
  - destruct H3 as (-> & Hyl' & Hk & Hv). cbn. rewrite (yl_err _ _ _ _ _ _ Hyl'), Hk, Hv. eexists _, _, _, g. split; [reflexivity |].
    split; [done |]. split; [| by apply grows_same, lively_wakes].
    assert (Hm : i_maxSeq it' = i_maxSeq it) by (by destruct (yl_inv _ _ _ _ _ _ Hyl') as (P & [] & _)).
    eapply sim_moved; try done. exists ts, o. by rewrite Hm.
Qed.

Lemma iterator_close_sim i (s : sys) a g : sim s a g -> simulated (EIteratorClose i) s a g.
Proof.
  intros Hs. pose proof (iterator_lookup s a g i Hs) as Hlk. unfold simulated. cbn [DbSystem.exec allowed]. destruct (s_iterators s !! i) as [it|] eqn:Ei.
  2: { exists ONothing, s, a, g. split; [done |]. split; [| split; [done | by apply grows_same, lively_wakes]].
       split; [done |]. rewrite alter_same; [by destruct a | by rewrite Hlk]. }
  destruct Hlk as ([kvs c] & Ea & Hc & Herr & Hy). simpl in Hc, Hy. unfold Iterator_Close. rewrite Hc. destruct c.
  { eexists ONothing, s, a, g. rewrite list_insert_id by done. split; [by destruct s |].
    split; [| split; [done | by apply grows_same, lively_wakes]]. split; [done |]. rewrite alter_same; [by destruct a |]. intros x Hx. by simplify_eq. }
  destruct (Hy eq_refl) as (Hreg & _). rewrite Hreg.
  pose proof (unregister_inv Hash128 (s_db s) g (i_maxSeq it) (sim_inv _ _ _ _ _ _ _ Hs)) as Hi.
  destruct (unregister_count (i_maxSeq it) (s_db s) ltac:(by eapply iterator_registered)) as (readers & Eu & Hr'). rewrite Eu in *.
  rewrite (alter_insert _ _ _ _ Ea). eexists _, _, _, g. split; [reflexivity |]. split; [done |]. split; [| by apply grows_same, lively_wakes].
  constructor; simpl; try (by destruct Hs).
  - apply Forall2_insert; [by destruct Hs | by split].
  - intros q. rewrite (count_insert _ i it) by done. rewrite Hr', (sim_readers _ _ _ _ _ _ _ Hs), !count_iter, Hc. cbn [i_closed]. lia.
Qed.
End readers.
