(* ===== verification/DbSimWorkers.v ===== *)
(** * The workers are invisible, and runs

    Steps of the flush worker, of the compaction worker and of [Close] do not
    change what clients see; with the other events this gives the simulation
    for every tame run. *)

From S2P Require Import Float64 Bloom BlockCache Wal MemTableClaims.
From S2P Require Export DbSim DbSimReaders.

Section workers.
Context {lz : LZ4Codec} {laws : LZ4Laws} {C : Type} `{!Cache C}.
Context (Hash128 : bytes -> Z * Z) (math_Log : float64 -> float64) (conv : float64 -> Z) (fuel : nat).
Context (lim : LimitsOptions) (opts : WriteOptions) (n : Z).
Context (Hsizing : sizing_fits math_Log conv n opts).
Local Abbreviation DB := (DB C).
Local Abbreviation sys := (sys C).
Local Abbreviation inv := (inv Hash128).
Local Abbreviation exec := (exec Hash128 math_Log conv fuel).
Local Abbreviation sim := (sim Hash128 fuel lim opts).
Local Abbreviation simulated := (simulated Hash128 math_Log conv fuel lim opts).

(** The history is small enough for its tables to be readable. *)
Definition fits (hist : list record) : Prop := within_budget hist /\ len hist <= n /\ (length hist < fuel)%nat.

(** Events that leave the abstract database alone. *)
Lemma quiet_simulated ev out (s s' : sys) a g g' :
  exec ev s = Some (out, s') -> allowed lim ev a out a -> sim s' a g' -> g_hist g' = g_hist g -> lively ev s s' -> simulated ev s a g.
Proof. intros He Ha Hs Hh Hl. exists out, s', a, g'. split; [done |]. split; [done |]. split; [done | by apply grows_same]. Qed.

Lemma invisible_simulated ev (s s' : sys) a g g' :
  exec ev s = Some (ONothing, s') -> allowed lim ev a ONothing a -> sim s' a g' -> g_hist g' = g_hist g -> lively ev s s' -> simulated ev s a g.
Proof. apply quiet_simulated. Qed.

Lemma compact_sim (e : env) (s : sys) a g :
  sim s a g -> fits (g_hist g) -> headroom (ECompact e) (s_db s) = true -> simulated (ECompact e) s a g.
Proof.
  intros Hs (Hb & Hn & Hf) (_ & _ & Hid)%headroom_spec. pose proof (sim_options _ _ _ _ _ _ _ Hs) as Ho.
  destruct (compactLocked_inv Hash128 math_Log conv n fuel e 1 (s_db s) g (sim_inv _ _ _ _ _ _ _ Hs) Hb Hn ltac:(by rewrite Ho) Hf ltac:(lia))
    as (r & db' & g' & E & Hi & [K1 K2 K3 K4 K5] & _).
  eapply (quiet_simulated _ (ODone r) _ (set_db db' s)); [| split; [by exists r | done] | by eapply sim_invisible | done | apply lively_wakes; [apply K5 | done]].
  cbn [DbSystem.exec]. unfold DB_Compact. by rewrite E.
Qed.

Lemma compactor_sim (es : nat -> env) (s : sys) a g :
  sim s a g -> fits (g_hist g) -> headroom (ECompactor es) (s_db s) = true -> simulated (ECompactor es) s a g.
Proof.
  intros Hs (Hb & Hn & Hf) (_ & _ & Hid)%headroom_spec. pose proof (sim_options _ _ _ _ _ _ _ Hs) as Ho.
  assert (exists s' g', compactor_step Hash128 math_Log conv fuel es s = Some s' /\ sim s' a g' /\ g_hist g' = g_hist g /\
    wakes (s_db s) (s_db s') /\ s_flusher s' = s_flusher s) as (s' & g' & E & Hs' & Hh & Hw).
  { unfold compactor_step. destruct (s_compactor s) eqn:Ek.
    - destruct (compactionSignal (s_db s)).
      + eexists _, g. split; [reflexivity |]. split; [| done].
        assert (Hi : inv (set_compactionSignal false (s_db s)) g) by (by destruct Hs as [[]]).
        destruct (sim_invisible Hash128 fuel lim opts s a g (set_compactionSignal false (s_db s)) g Hs Hi eq_refl ltac:(done)
          ltac:(apply undisturbed_same; try done; exists []; by rewrite app_nil_r)). by constructor.
      + destruct (compactionClosed s) eqn:Ec; [| by exists s, g]. eexists _, g. split; [reflexivity |]. split; [| done].
        destruct Hs. by constructor.
    - destruct (compaction_rounds_inv Hash128 math_Log conv n (rounds (s_db s)) fuel es (s_db s) g (sim_inv _ _ _ _ _ _ _ Hs) Hb Hn ltac:(by rewrite Ho) Hf
        ltac:(apply pending_work_bound) ltac:(lia)) as (db' & g' & -> & Hi & [K1 K2 K3 K4 K5] & _).
      eexists _, g'. split; [reflexivity |]. split; [| split; [done |]; split; [apply (un_wake _ _ _ _ K5) | done]].
      destruct (sim_invisible Hash128 fuel lim opts s a g db' g' Hs Hi K1 K2 K5). by constructor.
    - by exists s, g. }
  eapply invisible_simulated; [| done | exact Hs' | done | done]. cbn [DbSystem.exec]. by rewrite E.
Qed.

Lemma closer_sim (s : sys) a g : sim s a g -> simulated ECloser s a g.
Proof.
  intros Hs. unfold simulated. cbn [DbSystem.exec allowed]. eexists _, _, _, g. split; [reflexivity |]. split; [done |].
  split; [| apply grows_same; [done |]; unfold lively, closer_step; split; destruct (s_closer s), (s_flusher s) eqn:?, (s_compactor s); try done; simpl; congruence]. unfold closer_step. pose proof (sim_closer _ _ _ _ _ _ _ Hs) as [Hc1 Hc2]. pose proof (sim_closed _ _ _ _ _ _ _ Hs) as Hcl.
  destruct (s_closer s) eqn:Ec.
  - assert (Hi : inv (set_closed true (s_db s)) g) by (by destruct Hs as [[]]).
    destruct Hs. by constructor.
  - assert (Hs' : sim s (mkAstate (a_map a) (a_snapshots a) (a_iterators a) true) g) by (rewrite <- (proj2 Hc1), Hcl; by destruct a).
    destruct (s_flusher s) eqn:Ef; try done. destruct Hs'. by constructor.
  - assert (Hs' : sim s (mkAstate (a_map a) (a_snapshots a) (a_iterators a) true) g) by (rewrite <- (proj2 Hc1), Hcl; by destruct a).
    destruct (s_compactor s) eqn:Ek; try done. destruct Hs'. constructor; try done.
    split; [done |]. intros _. apply Hc2. unfold compactionClosed. by rewrite Ec.
  - rewrite <- (proj2 Hc1), Hcl; by destruct a.
Qed.

(** The flush worker returns from a round. *)
Lemma return_sim final (s : sys) a g (db' : DB) g' :
  sim s a g -> s_flusher s <> FDone -> inv db' g' -> g_hist g' = g_hist g -> same_client (s_db s) db' -> (forall t, t ∈ g_all g -> t ∈ g_all g') ->
  exists s', flusher_return final (set_db db' s) = Some s' /\ sim s' a g'.
Proof.
  intros Hs Hf Hi Hh Hc Hall. pose proof (sim_closer _ _ _ _ _ _ _ Hs) as [_ Hcc].
  assert (Hn : compactionClosed s = false) by (destruct (compactionClosed s); [by destruct Hf; apply Hcc | done]).
  unfold flusher_return, send_compaction. destruct final.
  - change (compactionClosed (set_db db' s)) with (compactionClosed s). rewrite Hn. cbn [mbind option_bind].
    eexists. split; [reflexivity |]. apply (sim_flush Hash128 fuel lim opts s a g FDone (signalCompaction db') g'); try done. by destruct Hi.
  - eexists. split; [reflexivity |]. apply (sim_flush Hash128 fuel lim opts s a g FWaiting db' g'); try done. by rewrite Hn.
Qed.

Lemma head_cons {A} (l : list A) x : head l = Some x -> exists l', l = x :: l'.
Proof. destruct l as [|y l]; intros H; simplify_eq/=. by exists l. Qed.

Lemma imms_heads (db : DB) g imm imms : inv db g -> immutableMemtables db = imm :: imms -> exists l ls, g_imms g = l :: ls.
Proof.
  intros Hi E. pose proof (mo_imms _ _ _ _ (inv_mem _ _ _ Hi)) as Hf. rewrite E in Hf. inversion Hf. by eauto.
Qed.

Section flusher.
Context (e : env) (s : sys) (a : astate) (g : ghost).
Context (Hs : sim s a g) (Hfit : fits (g_hist g)) (Hid : NextSSTableID (manifest (s_db s)) < u64_max).
Local Abbreviation step := (flusher_step Hash128 math_Log conv e s).

(** The step succeeds and clients do not notice. *)
Definition flushed : Prop := exists s' g', step = Some s' /\ sim s' a g' /\ g_hist g' = g_hist g.

Lemma compaction_open : s_flusher s <> FDone -> compactionClosed s = false.
Proof.
  intros Hf. destruct (sim_closer _ _ _ _ _ _ _ Hs) as [_ Hc]. destruct (compactionClosed s); [by destruct Hf; apply Hc | done].
Qed.

Lemma waiting_step : s_flusher s = FWaiting -> flushed.
Proof.
  intros Ef. pose proof (compaction_open ltac:(by rewrite Ef)) as Hc. unfold flushed, flusher_step. rewrite Ef.
  destruct (flushSignal (s_db s)).
  - eexists _, g. split; [reflexivity |]. split; [| done]. apply (sim_flush Hash128 fuel lim opts s a g); try done; [by destruct Hs as [[]] | by rewrite Hc].
  - destruct (closed (s_db s)); eexists _, g; (split; [reflexivity |]); (split; [| done]); [| done].
    apply (sim_flush Hash128 fuel lim opts s a g); try done; [by apply sim_inv in Hs | by rewrite Hc].
Qed.

Lemma looping_step final : s_flusher s = FLooping final -> flushed.
Proof.
  intros Ef. pose proof (compaction_open ltac:(by rewrite Ef)) as Hc. pose proof (sim_inv _ _ _ _ _ _ _ Hs) as Hi. unfold flushed, flusher_step. rewrite Ef.
  destruct (immutableMemtables (s_db s)) as [|imm imms] eqn:Em.
  - destruct (return_sim final s a g (s_db s) g) as (s' & E & Hs'); try done; [by rewrite Ef |].
    rewrite set_db_same in E. by exists s', g.
  - eexists _, g. split; [reflexivity |]. split; [| done]. apply (sim_flush Hash128 fuel lim opts s a g); try done; [simpl; by rewrite Em | by rewrite Hc].
Qed.

Lemma picked_step final imm : s_flusher s = FPicked final imm -> flushed.
Proof.
  intros Ef. pose proof (compaction_open ltac:(by rewrite Ef)) as Hc. pose proof (sim_inv _ _ _ _ _ _ _ Hs) as Hi.
  pose proof (sim_flusher _ _ _ _ _ _ _ Hs) as Hfl. unfold flushed, flusher_step. rewrite Ef in *.
  pose proof (flush_begin_inv Hash128 (s_db s) g Hi Hid) as Hb. destruct (flush_begin (s_db s)) as [id db'].
  destruct Hb as (Hi' & Hr & Hsc & _ & _ & Hm & _). eexists _, g. split; [reflexivity |]. split; [| done].
  apply (sim_flush Hash128 fuel lim opts s a g); try done; [split; [by rewrite Hm | done] | by rewrite Hc].
Qed.

(** A failure gives back the identifier, which must be the last one taken. *)
Context (Hback : forall s', step = Some s' -> rolls_back s s' = true).

Lemma return_next final (db' : DB) s' :
  flusher_return final (set_db db' s) = Some s' -> NextSSTableID (manifest (s_db s')) = NextSSTableID (manifest db').
Proof.
  unfold flusher_return, send_compaction. destruct final; [| by intros [= <-]].
  destruct (compactionClosed _); [done |]. by intros [= <-].
Qed.

Lemma failed_step final (db' : DB) id :
  s_flusher s <> FDone -> step = flusher_return final (set_db db' s) -> reserved (s_db s) g id -> NextSSTableID (manifest db') = id ->
  same_client (s_db s) db' -> (NextSSTableID (manifest (s_db s)) = id + 1 -> inv db' g) -> flushed.
Proof.
  intros Hf Hst Hr Hnx Hsc Hi. unfold flushed. rewrite Hst in *.
  assert (exists s', flusher_return final (set_db db' s) = Some s') as [s' E].
  { unfold flusher_return, send_compaction. change (compactionClosed (set_db db' s)) with (compactionClosed s).
    rewrite (compaction_open Hf). destruct final; by eexists. }
  pose proof (Hback s' E) as Hb. unfold rolls_back in Hb. rewrite (return_next _ _ _ E), Hnx, Z.leb_le in Hb. destruct Hr as [Hr _].
  destruct (return_sim final s a g db' g Hs Hf ltac:(apply Hi; lia) eq_refl Hsc ltac:(done)) as (s2 & E2 & Hs2). by exists s2, g.
Qed.

Lemma allocated_step final imm id : s_flusher s = FAllocated final imm id -> flushed.
Proof.
  intros Ef. pose proof (compaction_open ltac:(by rewrite Ef)) as Hc. pose proof (sim_inv _ _ _ _ _ _ _ Hs) as Hi.
  pose proof (sim_flusher _ _ _ _ _ _ _ Hs) as Hfl. rewrite Ef in Hfl. destruct Hfl as [[imms Him]%head_cons Hr].
  destruct (imms_heads _ _ _ _ Hi Him) as (l & ls & Hl). destruct Hfit as (Hb & Hn & _).
  destruct (flush_create_inv Hash128 math_Log conv e n imm imms id (s_db s) g l ls Hi Him Hl Hr Hb ltac:(by rewrite (sim_options _ _ _ _ _ _ _ Hs)) Hn)
    as (r & db' & E & Hsc & Hres).
  assert (Hst : step = match r with Err _ => flusher_return final (set_db db' s) | Ok meta => Some (flusher_goto (FCreated final imm meta) db' s) end)
    by (unfold flusher_step; by rewrite Ef, E).
  destruct r as [meta|err].
  - destruct Hres as (Hidm & Hi' & (t & Ht) & Hman & Him'). exists (flusher_goto (FCreated final imm meta) db' s), g.
    split; [done |]. split; [| done]. apply (sim_flush Hash128 fuel lim opts s a g); try done; [| by rewrite Hc]. split; [by rewrite Him', Him |].
    split; [unfold reserved in *; by rewrite Hman, Hidm |]. exists l, t. by rewrite Hl.
  - destruct Hres as (Hi' & _ & Hnx & _). by apply (failed_step final db' id); [rewrite Ef |..].
Qed.

Lemma created_step final imm meta : s_flusher s = FCreated final imm meta -> flushed.
Proof.
  intros Ef. pose proof (compaction_open ltac:(by rewrite Ef)) as Hc. pose proof (sim_inv _ _ _ _ _ _ _ Hs) as Hi.
  pose proof (sim_flusher _ _ _ _ _ _ _ Hs) as Hfl. rewrite Ef in Hfl. destruct Hfl as ([imms Him]%head_cons & Hr & l & t & [ls Hl]%head_cons & Ht).
  destruct (flush_publish_inv Hash128 e imm imms meta (s_db s) g l ls t Hi Him Hl Hr Ht) as (r & db' & E & Hsc & _ & Hres).
  assert (Hst : step = match r with Err _ => flusher_return final (set_db db' s) | Ok _ => Some (flusher_goto (FPublished final imm) db' s) end)
    by (unfold flusher_step; by rewrite Ef, E).
  destruct r as [u|[]]; try (destruct Hres as (Hi' & _ & _);
    destruct (return_sim final s a g db' (g_flush t g) Hs ltac:(by rewrite Ef) Hi' eq_refl Hsc ltac:(by simpl; auto using list_elem_of_further)) as (s' & E' & Hs');
    exists s', (g_flush t g); by rewrite Hst).
  - exists (flusher_goto (FPublished final imm) db' s), (g_flush t g). split; [done |]. split; [| done].
    apply (sim_flush Hash128 fuel lim opts s a g); try done; [by destruct Hres | by simpl; auto using list_elem_of_further | by rewrite Hc].
  - destruct Hres as (Hi' & _ & Hnx). by apply (failed_step final db' (ID meta)); [rewrite Ef |..].
Qed.

Lemma published_step final imm : s_flusher s = FPublished final imm -> flushed.
Proof.
  intros Ef. pose proof (compaction_open ltac:(by rewrite Ef)) as Hc. pose proof (sim_inv _ _ _ _ _ _ _ Hs) as Hi.
  unfold flushed, flusher_step. rewrite Ef, Hc. pose proof (flush_finish_inv Hash128 e imm (s_db s) g Hi) as Hres.
  destruct (flush_finish e imm (s_db s)) as [[u|err] db']; destruct Hres as (Hi' & Hsc & _).
  - eexists _, g. split; [reflexivity |]. split; [| done]. by apply (sim_flush Hash128 fuel lim opts s a g); try done; rewrite Hc.
  - destruct (return_sim final s a g db' g Hs ltac:(by rewrite Ef) Hi' eq_refl Hsc ltac:(by simpl; auto using list_elem_of_further)) as (s' & E' & Hs'). by exists s', g.
Qed.

Lemma flusher_flushed : flushed.
Proof.
  destruct (s_flusher s) as [|final|final imm|final imm id|final imm meta|final imm|] eqn:Ef.
  - by apply waiting_step.
  - by eapply looping_step.
  - by eapply picked_step.
  - by eapply allocated_step.
  - by eapply created_step.
  - by eapply published_step.
  - exists s, g. unfold flusher_step. by rewrite Ef.
Qed.

End flusher.

Lemma flusher_sim (e : env) (s : sys) a g :
  sim s a g -> fits (g_hist g) -> headroom (EFlusher e) (s_db s) = true ->
  (forall s', flusher_step Hash128 math_Log conv e s = Some s' -> rolls_back s s' = true) -> simulated (EFlusher e) s a g.
Proof.
  intros Hs Hf (_ & _ & Hid)%headroom_spec Hback.
  destruct (flusher_flushed e s a g Hs Hf ltac:(lia) Hback) as (s' & g' & E & Hs' & Hh).
  eapply invisible_simulated; [| done | exact Hs' | done | done]. cbn [DbSystem.exec]. by rewrite E.
Qed.

(** ** Runs *)

Lemma exec_sim ev (s : sys) a g :
  sim s a g -> fits (g_hist g) -> headroom ev (s_db s) = true -> rotates ev = true ->
  (forall out s', exec ev s = Some (out, s') -> rolls_back s s' = true) -> simulated ev s a g.
Proof.
  intros Hs Hf Hh Hr Hb. destruct ev; simpl in Hr.
  - by apply put_sim.
  - by apply delete_sim.
  - by apply batch_sim.
  - by apply get_sim.
  - by apply snapshot_sim.
  - by apply snapshot_get_sim.
  - by apply snapshot_close_sim.
  - by apply iterator_sim, Hf.
  - by apply scan_prefix_sim, Hf.
  - by apply snapshot_iterator_sim, Hf.
  - by apply snapshot_scan_sim, Hf.
  - by apply next_sim.
  - by apply iterator_close_sim.
  - by apply compact_sim.
  - apply flusher_sim; try done. intros s' E. apply (Hb ONothing). cbn [DbSystem.exec]. by rewrite E.
  - by apply compactor_sim.
  - by apply closer_sim.
Qed.

(** The history and all that is still to be written fit. *)
Definition fits_trace (hist : list record) (evs : list event) : Prop := fits (hist ++ concat (writes <$> evs)).

Lemma fits_less hist hist' : key_cost hist' <= key_cost hist -> (length hist' <= length hist)%nat -> fits hist -> fits hist'.
Proof. unfold fits, within_budget, len. lia. Qed.

Lemma fits_trace_now hist evs : fits_trace hist evs -> fits hist.
Proof.
  apply fits_less; [rewrite key_cost_app | rewrite length_app; lia].
  pose proof (key_cost_length (concat (writes <$> evs))). pose proof (len_nonneg (concat (writes <$> evs))). lia.
Qed.

Lemma fits_trace_step ev evs (s s' : sys) g g' : grows ev s s' g g' -> fits_trace (g_hist g) (ev :: evs) -> fits_trace (g_hist g') evs.
Proof.
  intros [H1 H2 _]. unfold fits_trace. rewrite fmap_cons. cbn [concat]. apply fits_less; rewrite ?key_cost_app, ?length_app; lia.
Qed.

(** Events that write nothing need no further room. *)
Lemma fits_quiet hist evs : concat (writes <$> evs) = [] -> fits hist -> fits_trace hist evs.
Proof. unfold fits_trace. intros ->. by rewrite app_nil_r. Qed.

(** The first event of a tame run. *)
Lemma tame_step ev evs (s : sys) a g :
  sim s a g -> fits_trace (g_hist g) (ev :: evs) -> tame Hash128 math_Log conv fuel (ev :: evs) s = true ->
  exists out s1 a1 g1, exec ev s = Some (out, s1) /\ allowed lim ev a out a1 /\ sim s1 a1 g1 /\ lively ev s s1 /\
    fits_trace (g_hist g1) evs /\ tame Hash128 math_Log conv fuel evs s1 = true.
Proof.
  intros Hs Hf Ht. cbn [tame] in Ht. apply andb_true_iff in Ht as [[Hh Hr]%andb_true_iff Ht].
  destruct (exec_sim ev s a g Hs (fits_trace_now _ _ Hf) Hh Hr) as (out & s1 & a1 & g1 & E & Ha & Hs1 & Hg).
  { intros out s' E. rewrite E in Ht. by apply andb_true_iff in Ht as [? _]. }
  rewrite E in Ht. apply andb_true_iff in Ht as [_ Ht]. exists out, s1, a1, g1. split_and!; try done; [by apply gr_lively in Hg |].
  by eapply fits_trace_step.
Qed.

(** The beginning of a tame run. *)
Lemma run_sim_app evs rest (s : sys) a g :
  sim s a g -> fits_trace (g_hist g) (evs ++ rest) -> tame Hash128 math_Log conv fuel (evs ++ rest) s = true ->
  exists outs s' a' g', run Hash128 math_Log conv fuel evs s = Some (outs, s') /\ allowed_run lim evs a outs a' /\ sim s' a' g' /\
    fits_trace (g_hist g') rest /\ tame Hash128 math_Log conv fuel rest s' = true.
Proof.
  revert s a g. induction evs as [|ev evs IH]; intros s a g Hs Hf Ht.
  - exists [], s, a, g. split_and!; try done. constructor.
  - destruct (tame_step ev (evs ++ rest) s a g Hs Hf Ht) as (out & s1 & a1 & g1 & E & Ha & Hs1 & _ & Hf1 & Ht1).
    destruct (IH s1 a1 g1 Hs1 Hf1 Ht1) as (outs & s' & a' & g' & E' & Ha' & Hs').
    exists (out :: outs), s', a', g'. cbn [run]. rewrite E. cbn [mbind option_bind]. rewrite E'. split; [done |].
    split; [by econstructor | done].
Qed.

Lemma run_sim evs (s : sys) a g :
  sim s a g -> fits_trace (g_hist g) evs -> tame Hash128 math_Log conv fuel evs s = true ->
  exists outs s' a' g', run Hash128 math_Log conv fuel evs s = Some (outs, s') /\ allowed_run lim evs a outs a' /\ sim s' a' g' /\
    fits (g_hist g').
Proof.
  intros Hs Hf Ht. rewrite <- (app_nil_r evs) in Hf, Ht.
  destruct (run_sim_app evs [] s a g Hs Hf Ht) as (outs & s' & a' & g' & E & Ha & Hs' & Hf' & _).
  exists outs, s', a', g'. split_and!; try done. by eapply fits_trace_now.
Qed.

(** A database without open readers, to which nothing has happened yet. *)
Lemma start_sim (db : DB) (g : ghost) (m : gmap bytes bytes) :
  inv db g -> limits db = lim -> sstableWriteOptions db = opts -> closed db = false -> activeReaders db = ∅ ->
  (forall key, read_at (g_hist g) key (nextSeq db - 1) = m !! key) -> sim (start db) (mkAstate m [] [] false) g.
Proof.
  intros Hi Hl Ho Hc Hr Hm. constructor; try done; [intros q; simpl; by rewrite Hr |]. split; simpl; [by rewrite Hc | done].
Qed.

End workers.
