(* ===== verification/DbLiveness.v ===== *)
(** * The flush worker gets its work done

    No wake-up is lost: whenever an immutable memtable waits, a signal is
    buffered or the worker is at work.  So, as long as its flushes succeed, the
    worker alone empties the list in a bounded number of steps. *)

From S2P Require Import Float64 Bloom BlockCache Wal MemTableClaims.
From S2P Require Export DbSimWorkers.

Definition busy (f : flusher) : bool := match f with FWaiting | FDone => false | _ => true end.

(** In the middle of a flush. *)
Definition flushing (f : flusher) : bool :=
  match f with FAllocated _ _ _ | FCreated _ _ _ | FPublished _ _ => true | _ => false end.

(** The last round has not begun. *)
Definition nonfinal (f : flusher) : bool :=
  match f with
  | FWaiting => true
  | FLooping final | FPicked final _ | FAllocated final _ _ | FCreated final _ _ | FPublished final _ => negb final
  | FDone => false
  end.

Section liveness.
Context {lz : LZ4Codec} {laws : LZ4Laws} {C : Type} `{!Cache C}.
Context (Hash128 : bytes -> Z * Z) (math_Log : float64 -> float64) (conv : float64 -> Z) (fuel : nat).
Local Abbreviation DB := (DB C).
Local Abbreviation sys := (sys C).
Local Abbreviation exec := (exec Hash128 math_Log conv fuel).
Local Abbreviation run := (run Hash128 math_Log conv fuel).
Local Abbreviation flusher_step := (flusher_step Hash128 math_Log conv).

(** No flush fails, and the database is not closed. *)
Fixpoint flushes_succeed (evs : list event) (s : sys) : bool :=
  match evs with
  | [] => true
  | ECloser :: _ => false
  | ev :: evs =>
      match exec ev s with
      | Some (_, s') => implb (flushing (s_flusher s)) (busy (s_flusher s')) && flushes_succeed evs s'
      | None => true
      end
  end.

(** The steps that the worker still has to make. *)
Definition flush_work (s : sys) : nat :=
  let n := length (immutableMemtables (s_db s)) in
  match s_flusher s with
  | FWaiting => 1 + 5 * n
  | FLooping _ => 5 * n
  | FPicked _ _ => 5 * n - 1
  | FAllocated _ _ _ => 5 * n - 2
  | FCreated _ _ _ => 5 * n - 3
  | FPublished _ _ => 5 * n + 1
  | FDone => 0
  end.

Record awake (s : sys) : Prop := mkAwake {
  aw_open : closed (s_db s) = false;
  aw_nonfinal : nonfinal (s_flusher s) = true;
  aw_signal : immutableMemtables (s_db s) = [] \/ flushSignal (s_db s) = true \/ busy (s_flusher s) = true;
}.

(** ** One step of the worker *)

Lemma flush_create_frame (e : env) imm id (db : DB) r db' :
  flush_create Hash128 math_Log conv e imm id db = Some (r, db') ->
  immutableMemtables db' = immutableMemtables db /\ closed db' = closed db /\ flushSignal db' = flushSignal db.
Proof.
  unfold flush_create. destruct (memtables db !! im_table imm); [| done]. cbn [mbind option_bind].
  destruct (CreateFromMemTableWithOptions _ _ _ _ _) as [[[meta file]|err]|]; [| by intros [= <- <-] | done]. cbn [mbind option_bind].
  destruct (install e _ file (dir db)) as [[] d]; by intros [= <- <-].
Qed.

Lemma flush_publish_frame (e : env) imm meta (db : DB) r db' :
  head (immutableMemtables db) = Some imm -> flush_publish e imm meta db = Some (r, db') ->
  closed db' = closed db /\ flushSignal db' = flushSignal db /\
  (r = Ok tt -> immutableMemtables db' = tail (immutableMemtables db)).
Proof.
  intros Hh. unfold flush_publish. cbn [set_tables set_sstables manifest dir set_manifest].
  destruct (Write _ _ _ _) as [[[err|]|] d].
  - destruct (e_remove e (Path meta)); by intros [= <- <-].
  - cbn [immutableMemtables set_dir set_tables set_sstables set_manifest]. destruct (immutableMemtables db) as [|imm' imms] eqn:E; [done |]. injection Hh as ->.
    rewrite Nat.eqb_refl. by intros [= <- <-].
  - cbn [immutableMemtables set_dir set_tables set_sstables set_manifest]. destruct (immutableMemtables db) as [|imm' imms] eqn:E; [done |]. injection Hh as ->.
    rewrite Nat.eqb_refl. by intros [= <- <-].
Qed.

Lemma flush_finish_frame (e : env) imm (db : DB) r db' :
  flush_finish e imm db = (r, db') ->
  immutableMemtables db' = immutableMemtables db /\ closed db' = closed db /\ flushSignal db' = flushSignal db.
Proof. unfold flush_finish. destruct (RemoveSegmentInDir _ _ _) as [[] d]; by intros [= <- <-]. Qed.

Lemma flusher_return_wait (s s' : sys) : flusher_return false s = Some s' -> s' = flusher_goto FWaiting (s_db s) s.
Proof. by intros [= <-]. Qed.

Context (lim : LimitsOptions) (opts : WriteOptions) (n : Z).
Context (Hsizing : sizing_fits math_Log conv n opts).
Local Abbreviation sim := (sim Hash128 fuel lim opts).

Lemma worker_step (e : env) (s s' : sys) a g :
  sim s a g -> awake s -> flusher_step e s = Some s' -> implb (flushing (s_flusher s)) (busy (s_flusher s')) = true ->
  awake s' /\ (immutableMemtables (s_db s) = [] -> immutableMemtables (s_db s') = []) /\
  (immutableMemtables (s_db s) <> [] -> (flush_work s' < flush_work s)%nat).
Proof.
  intros Hs [Ho Hn Ha] Hst Hok. pose proof (sim_flusher _ _ _ _ _ _ _ Hs) as Hf. unfold flusher_step in Hst. unfold flush_work.
  destruct (s_flusher s) as [|final|final imm|final imm id|final imm meta|final imm|] eqn:Ef; simpl in Hn, Hf;
    try (destruct final; [done |]).
  - destruct (flushSignal (s_db s)) eqn:Es.
    + injection Hst as <-. split; [constructor; simpl; by auto |]. split; [done |]. simpl. lia.
    + rewrite Ho in Hst. injection Hst as <-. destruct Ha as [Ha | [Ha | Ha]]; try done.
      split; [constructor; rewrite ?Ef; by auto |]. by rewrite Ha.
  - destruct (immutableMemtables (s_db s)) as [|imm imms] eqn:Ei.
    + apply flusher_return_wait in Hst as ->. simpl. rewrite Ei. split; [constructor; simpl; by auto |]. done.
    + injection Hst as <-. simpl. rewrite Ei. split; [constructor; simpl; by auto |]. split; [done |]. intros _. simpl. lia.
  - injection Hst as <-. simpl. split; [constructor; simpl; by auto |]. split; [done |]. destruct (immutableMemtables (s_db s)); simpl; [done | lia].
  - destruct (flush_create _ _ _ e imm id (s_db s)) as [[r db']|] eqn:E; [| done]. cbn [mbind option_bind] in Hst.
    destruct (flush_create_frame _ _ _ _ _ _ E) as (H1 & H2 & H3). destruct r as [meta|err]; [| by apply flusher_return_wait in Hst as ->].
    injection Hst as <-. simpl. rewrite H1. split; [constructor; simpl; by rewrite ?H2; auto |]. split; [done |].
    destruct (immutableMemtables (s_db s)); simpl; [done | lia].
  - destruct Hf as (Hh & _). destruct (flush_publish e imm meta (s_db s)) as [[r db']|] eqn:E; [| done]. cbn [mbind option_bind] in Hst.
    destruct (flush_publish_frame _ _ _ _ _ _ Hh E) as (H2 & H3 & H1). destruct r as [[]|err]; [| by apply flusher_return_wait in Hst as ->].
    injection Hst as <-. simpl. rewrite H1 by done. split; [constructor; simpl; by rewrite ?H2; auto |].
    destruct (immutableMemtables (s_db s)) as [|imm' imms]; [done |]. simpl. split; [done |]. lia.
  - destruct (compactionClosed s); [done |]. destruct (flush_finish e imm (s_db s)) as [r db'] eqn:E.
    destruct (flush_finish_frame _ _ _ _ _ E) as (H1 & H2 & H3). destruct r as [u|err]; [| by apply flusher_return_wait in Hst as ->].
    injection Hst as <-. simpl. rewrite H1. split; [constructor; simpl; by rewrite ?H2; auto |]. split; [done |]. lia.
  - done.
Qed.

(** ** Runs *)

Lemma checked_open err (e : env) sync m a out a' : checked err e sync m a out a' -> a_closed a' = a_closed a.
Proof. destruct err; [by intros [_ ->] |]. by intros [[_ ->] | (_ & _ & ->)]. Qed.

Lemma iterating_open err kvs a out a' : iterating err kvs a out a' -> a_closed a' = a_closed a.
Proof. by destruct err; intros [_ ->]. Qed.

Lemma on_snapshot_open (i : nat) (f : gmap bytes bytes -> Prop) a out a' :
  on_snapshot i f a out a' -> (forall m, f m -> a_closed a' = a_closed a) -> a_closed a' = a_closed a.
Proof. unfold on_snapshot. destruct (a_snapshots a !! i) as [[m []]|]; [by intros [_ ->] | intros Hm Hf; by apply (Hf m) | by intros [_ ->]]. Qed.

Lemma allowed_open ev a out a' : allowed lim ev a out a' -> ev <> ECloser -> a_closed a' = a_closed a.
Proof.
  destruct ev; intros Ha Hne; cbn [allowed] in Ha; try (by apply checked_open in Ha); try (by apply iterating_open in Ha); try (by destruct Ha as [_ ->]).
  - destruct (a_closed a) eqn:E; destruct Ha as [_ ->]; done.
  - apply on_snapshot_open in Ha; [done |]. by intros m ?%iterating_open.
  - apply on_snapshot_open in Ha; [done |]. by intros m ?%iterating_open.
  - destruct (a_iterators a !! i) as [[[|kv kvs] []]|]; by destruct Ha as [_ ->].
Qed.

Definition is_flusher (ev : event) : option env := match ev with EFlusher e => Some e | _ => None end.

Lemma awake_step ev (s s' : sys) a g out a' g' :
  sim s a g -> awake s -> ev <> ECloser -> exec ev s = Some (out, s') -> implb (flushing (s_flusher s)) (busy (s_flusher s')) = true ->
  allowed lim ev a out a' -> sim s' a' g' -> lively ev s s' -> awake s'.
Proof.
  intros Hs Hw Hne Hex Hok Hal Hs' Hl. destruct (is_flusher ev) as [e|] eqn:Eev.
  - destruct ev; try done. cbn [DbSystem.exec] in Hex. destruct (flusher_step e0 s) as [s1|] eqn:E; [| done]. injection Hex as <- <-.
    by apply (worker_step e0 s s1 a g Hs Hw E Hok).
  - assert (Hl' : wakes (s_db s) (s_db s') /\ s_flusher s' = s_flusher s) by (by destruct ev).
    destruct Hl' as [Hwk Hf], Hw as [H1 H2 H3]. constructor.
    + rewrite (sim_closed _ _ _ _ _ _ _ Hs'), (allowed_open ev a out a') by done. by rewrite <- (sim_closed _ _ _ _ _ _ _ Hs).
    + by rewrite Hf.
    + rewrite Hf. destruct (flushSignal (s_db s')) eqn:E; [by auto |]. destruct (Hwk E) as [E' ->]. rewrite E' in H3. naive_solver.
Qed.

(** A run in which all flushes succeed keeps the worker awake. *)
Lemma awake_run evs (s : sys) a g :
  sim s a g -> awake s -> fits_trace fuel n (g_hist g) evs -> tame Hash128 math_Log conv fuel evs s = true -> flushes_succeed evs s = true ->
  exists outs s' a' g', run evs s = Some (outs, s') /\ sim s' a' g' /\ awake s' /\ fits fuel n (g_hist g').
Proof.
  revert s a g. induction evs as [|ev evs IH]; intros s a g Hs Hw Hf Ht Hfl;
    [exists [], s, a, g; split_and!; try done; by eapply fits_trace_now |].
  destruct (tame_step Hash128 math_Log conv fuel lim opts n Hsizing ev evs s a g Hs Hf Ht) as (out & s1 & a1 & g1 & E & Ha & Hs1 & Hg & Hf1 & Ht1).
  assert (Hne : ev <> ECloser) by (by intros ->).
  assert (Hfl' : implb (flushing (s_flusher s)) (busy (s_flusher s1)) && flushes_succeed evs s1 = true)
    by (destruct ev; cbn [flushes_succeed] in Hfl; try rewrite E in Hfl; done).
  apply andb_true_iff in Hfl' as [Hok Hfl'].
  pose proof (awake_step ev s s1 a g out a1 g1 Hs Hw Hne E Hok Ha Hs1 Hg) as Hw1.
  destruct (IH s1 a1 g1 Hs1 Hw1 Hf1 Ht1 Hfl') as (outs & s' & a' & g' & E' & Hs' & Hw').
  exists (out :: outs), s', a', g'. cbn [DbSystem.run]. rewrite E. cbn [mbind option_bind]. by rewrite E'.
Qed.

(** The worker alone. *)
Lemma worker_drains (e : env) k (s : sys) a g :
  sim s a g -> awake s -> fits fuel n (g_hist g) -> tame Hash128 math_Log conv fuel (repeat (EFlusher e) k) s = true ->
  flushes_succeed (repeat (EFlusher e) k) s = true -> (immutableMemtables (s_db s) = [] \/ (flush_work s <= k)%nat) ->
  exists outs s', run (repeat (EFlusher e) k) s = Some (outs, s') /\ immutableMemtables (s_db s') = [].
Proof.
  assert (quiet : forall k, concat (writes <$> EFlusher e :: repeat (EFlusher e) k) = []) by (intros j; induction j; done).
  revert s a g. induction k as [|k IH]; intros s a g Hs Hw Hf Ht Hfl Hk.
  - exists [], s. split; [done |]. destruct Hk as [Hk | Hk]; [done |]. destruct Hw as [H1 H2 H3]. unfold flush_work in Hk.
    pose proof (sim_flusher _ _ _ _ _ _ _ Hs) as Hfo. unfold flusher_ok in Hfo.
    destruct (immutableMemtables (s_db s)); [done |]. destruct (s_flusher s); simpl in *; done || lia.
  - cbn [repeat flushes_succeed] in Ht, Hfl.
    destruct (tame_step Hash128 math_Log conv fuel lim opts n Hsizing (EFlusher e) _ s a g Hs (fits_quiet _ _ _ (EFlusher e :: repeat (EFlusher e) k) (quiet k) Hf) Ht)
      as (out & s1 & a1 & g1 & E & _ & Hs1 & _ & Hf1%fits_trace_now & Ht1).
    rewrite E in Hfl. apply andb_true_iff in Hfl as [Hok Hfl].
    pose proof E as E2. cbn [DbSystem.exec] in E2. destruct (flusher_step e s) as [s2|] eqn:Est; [| done]. injection E2 as <- <-.
    destruct (worker_step e s s2 a g Hs Hw Est Hok) as (Hw1 & He & Hless).
    destruct (IH s2 a1 g1 Hs1 Hw1 Hf1 Ht1 Hfl) as (outs & s' & E' & Hi).
    { destruct Hk as [Hk | Hk]; [left; by apply He |].
      destruct (immutableMemtables (s_db s)) as [|imm imms] eqn:Ei; [left; by apply He | right; specialize (Hless ltac:(done)); lia]. }
    exists (ONothing :: outs), s'. cbn [repeat DbSystem.run]. rewrite E. cbn [mbind option_bind]. by rewrite E'.
Qed.

End liveness.
