(* ===== verification/DbClose.v ===== *)
(** * [Close] returns

    Whatever the operating system does, [Close] ends once the two workers get
    their turns: each of them ends after a bounded number of steps. *)

From S2P Require Import Float64 Bloom BlockCache Wal MemTableClaims.
From S2P Require Export DbLiveness.

Section close.
Context {lz : LZ4Codec} {laws : LZ4Laws} {C : Type} `{!Cache C}.
Context (Hash128 : bytes -> Z * Z) (math_Log : float64 -> float64) (conv : float64 -> Z) (fuel : nat).
Local Abbreviation DB := (DB C).
Local Abbreviation sys := (sys C).
Local Abbreviation run := (run Hash128 math_Log conv fuel).
Local Abbreviation flusher_step := (flusher_step Hash128 math_Log conv).
Local Abbreviation compactor_step := (compactor_step Hash128 math_Log conv fuel).

(** ** Measures *)

(** The steps of a round over [n] memtables. *)
Definition round_work (f : flusher) (n : nat) : nat :=
  match f with
  | FWaiting | FDone => 0
  | FLooping _ => 5 * n + 1
  | FPicked _ _ => 5 * n
  | FAllocated _ _ _ => 5 * n - 1
  | FCreated _ _ _ => 5 * n - 2
  | FPublished _ _ => 5 * n + 2
  end.

(** The steps of the flush worker until it ends: the round it is in, the round
    of a signal that is buffered, and the last round. *)
Definition flusher_rank (s : sys) : nat :=
  let n := length (immutableMemtables (s_db s)) in
  round_work (s_flusher s) n +
  if nonfinal (s_flusher s) then (5 * n + 2) + (if flushSignal (s_db s) then 5 * n + 2 else 0) else 0.

Definition compactor_rank (s : sys) : nat :=
  let signal := (if compactionSignal (s_db s) then 2 else 0)%nat in
  match s_compactor s with
  | KWaiting => 1 + signal
  | KReceived => 2 + signal
  | KDone => 0
  end.

(** The turns until [Close] returns. *)
Definition close_rank (s : sys) : nat :=
  match s_closer s with
  | NotClosing => 7 + flusher_rank s
  | AwaitFlusher => 6 + flusher_rank s
  | AwaitCompactor => 1 + compactor_rank s
  | CloseDone => 0
  end.

(** ** What compaction leaves alone *)

Definition same_queues (db db' : DB) : Prop :=
  immutableMemtables db' = immutableMemtables db /\ flushSignal db' = flushSignal db /\
  compactionSignal db' = compactionSignal db.

Lemma publish_queues (e : env) plan id path meta (db : DB) r db' :
  publish_compaction e plan id path meta db = Some (r, db') -> same_queues db db'.
Proof.
  unfold publish_compaction. destruct (Write _ _ _ _) as [[[err|]|] d].
  - destruct (e_remove e path); by intros [= <- <-].
  - by intros [= <- <-].
  - destruct (remove_tables _ _ _ _ _ _) as [[[[removed failed] d'] cache]|]; [| done]. by intros [= <- <-].
Qed.

Lemma compactLocked_queues (e : env) threshold (db : DB) r db' :
  compactLocked Hash128 math_Log conv fuel e threshold db = Some (r, db') -> same_queues db db'.
Proof.
  unfold compactLocked. destruct (choose_plan _ _ _) as [[plan|]|]; [| by intros [= <- <-] | done]. cbn [mbind option_bind].
  destruct (negb _); [by intros [= <- <-] |]. destruct (mapM _ _) as [inputs|]; [| by intros [= <- <-]].
  destruct (MergeSSTablesWithOptions _ _ _ _ _ _ _) as [[[[meta file]|err] cache]|]; [| by intros [= <- <-] | done]. cbn [mbind option_bind].
  destruct (install _ _ _ _) as [[u|err] d]; [| by intros [= <- <-]]. by intros ?%publish_queues.
Qed.

Lemma rounds_queues k (es : nat -> env) (db db' : DB) :
  compaction_rounds Hash128 math_Log conv k fuel es db = Some db' -> same_queues db db'.
Proof.
  revert db. induction k as [|k IH]; intros db H; [done |]. cbn [compaction_rounds] in H.
  destruct (hasCompactionWork _ _ _) as [[]|]; [| by injection H as <- | done]. cbn [mbind option_bind negb] in H.
  destruct (compactLocked _ _ _ _ _ _ _) as [[r db1]|] eqn:E; [| done]. cbn [mbind option_bind] in H. apply compactLocked_queues in E.
  destruct r; [| by injection H as <-]. apply IH in H. destruct E as (? & ? & ?), H as (? & ? & ?). unfold same_queues. by split_and!; etransitivity.
Qed.

Lemma compactor_ranks (es : nat -> env) (s s' : sys) :
  compactor_step es s = Some s' ->
  flusher_rank s' = flusher_rank s /\ s_closer s' = s_closer s /\
  (compactionClosed s = true -> s_compactor s <> KDone -> (compactor_rank s' < compactor_rank s)%nat).
Proof.
  unfold compactor_step, flusher_rank, compactor_rank. destruct (s_compactor s) eqn:Ek.
  - destruct (compactionSignal (s_db s)) eqn:Es; [intros [= <-]; simpl; by split_and!; try lia |].
    destruct (compactionClosed s); intros [= <-]; simpl; by rewrite ?Ek; split_and!; try lia.
  - destruct (compaction_rounds _ _ _ _ _ _ _) as [db'|] eqn:E; [| done]. apply rounds_queues in E as (H1 & H2 & H3).
    intros [= <-]. simpl. rewrite H1, H2, H3. split; [done |]. split; [done |]. lia.
  - by intros [= <-].
Qed.

(** ** The flush worker ends *)

Lemma flush_publish_shorter (e : env) imm meta (db : DB) r db' :
  flush_publish e imm meta db = Some (r, db') -> (length (immutableMemtables db') <= length (immutableMemtables db))%nat.
Proof.
  unfold flush_publish. destruct (Write _ _ _ _) as [[[err|]|] d]; [destruct (e_remove e _); by intros [= <- <-] | |];
    intros [= <- <-]; cbn [set_sstables set_tables set_manifest set_dir immutableMemtables];
    (destruct (immutableMemtables db) as [|imm' imms] eqn:Ei; cbn; rewrite ?Ei; [done |]; destruct (im_addr imm' =? im_addr imm)%nat; cbn; rewrite ?Ei; simpl; lia).
Qed.

(** Giving up a round is progress, too. *)
Lemma return_rank final (s s' : sys) (db' : DB) :
  flusher_return final (set_db db' s) = Some s' -> (length (immutableMemtables db') <= length (immutableMemtables (s_db s)))%nat ->
  flushSignal db' = flushSignal (s_db s) -> nonfinal (s_flusher s) = negb final ->
  (0 < round_work (s_flusher s) (length (immutableMemtables (s_db s))))%nat ->
  (flusher_rank s' < flusher_rank s)%nat /\ s_closer s' = s_closer s.
Proof.
  unfold flusher_return, send_compaction, flusher_rank. intros H Hlen Hsig Hn Hw. rewrite Hn. destruct final.
  - destruct (compactionClosed _); [done |]. injection H as <-. simpl. split; [lia | done].
  - injection H as <-. simpl. rewrite Hsig. destruct (flushSignal (s_db s)); split; (lia || done).
Qed.

(** A step within a round. *)
Lemma goto_rank f (s : sys) (db' : DB) :
  nonfinal f = nonfinal (s_flusher s) -> flushSignal db' = flushSignal (s_db s) ->
  (length (immutableMemtables db') <= length (immutableMemtables (s_db s)))%nat ->
  (round_work f (length (immutableMemtables db')) < round_work (s_flusher s) (length (immutableMemtables (s_db s))))%nat ->
  (flusher_rank (flusher_goto f db' s) < flusher_rank s)%nat /\ s_closer (flusher_goto f db' s) = s_closer s.
Proof.
  unfold flusher_rank. simpl. intros Hf Hs Hl Hw. rewrite Hf, Hs.
  destruct (nonfinal (s_flusher s)), (flushSignal (s_db s)); split; (lia || done).
Qed.

Context (lim : LimitsOptions) (opts : WriteOptions) (n : Z).
Context (Hsizing : sizing_fits math_Log conv n opts).
Local Abbreviation sim := (sim Hash128 fuel lim opts).

Lemma head_length {A} (l : list A) x : head l = Some x -> (0 < length l)%nat.
Proof. destruct l; simpl; [done | lia]. Qed.

Lemma flusher_ranks (e : env) (s s' : sys) a g :
  sim s a g -> closed (s_db s) = true -> s_flusher s <> FDone -> flusher_step e s = Some s' ->
  (flusher_rank s' < flusher_rank s)%nat /\ s_closer s' = s_closer s.
Proof.
  intros Hs Hc Hd Hst. pose proof (sim_flusher _ _ _ _ _ _ _ Hs) as Hf. unfold DbSystem.flusher_step in Hst.
  destruct (s_flusher s) as [|final|final imm|final imm id|final imm meta|final imm|] eqn:Ef; simpl in Hf.
  - unfold flusher_rank. rewrite Ef. destruct (flushSignal (s_db s)) eqn:Es; [| rewrite Hc in Hst]; injection Hst as <-; simpl; rewrite ?Es; split; (lia || done).
  - destruct (immutableMemtables (s_db s)) as [|imm imms] eqn:Ei.
    + rewrite <- (set_db_same s) in Hst at 1. by eapply return_rank; [exact Hst |..]; rewrite ?Ef; simpl; try lia; rewrite ?Ei.
    + injection Hst as <-. apply goto_rank; rewrite ?Ef; try done. simpl. lia.
  - apply head_length in Hf. destruct (flush_begin (s_db s)) as [id db'] eqn:E. injection E as <- <-. injection Hst as <-.
    apply goto_rank; rewrite ?Ef; try done. simpl. lia.
  - destruct Hf as [Hf%head_length _]. destruct (flush_create _ _ _ _ _ _ _) as [[r db']|] eqn:E; [| done]. cbn [mbind option_bind] in Hst.
    apply flush_create_frame in E as (H1 & H2 & H3). destruct r as [meta|err].
    + injection Hst as <-. apply goto_rank; rewrite ?Ef, ?H1; try done. simpl. lia.
    + by eapply return_rank; [exact Hst |..]; rewrite ?Ef, ?H1; simpl; try lia.
  - destruct Hf as [Hh _]. pose proof (head_length _ _ Hh). destruct (flush_publish _ _ _ _) as [[r db']|] eqn:E; [| done]. cbn [mbind option_bind] in Hst.
    pose proof (flush_publish_shorter _ _ _ _ _ _ E). apply flush_publish_frame in E as (H1 & H2 & H3); [| done]. destruct r as [[]|err].
    + injection Hst as <-. apply goto_rank; rewrite ?Ef; try done. rewrite H3 by done. destruct (immutableMemtables (s_db s)); simpl in *; lia.
    + by eapply return_rank; [exact Hst |..]; rewrite ?Ef; simpl; try lia.
  - destruct (compactionClosed s); [done |]. destruct (flush_finish e imm (s_db s)) as [r db'] eqn:E.
    apply flush_finish_frame in E as (H1 & H2 & H3). destruct r as [u|err].
    + injection Hst as <-. apply goto_rank; rewrite ?Ef, ?H1; try done. simpl. lia.
    + by eapply return_rank; [exact Hst |..]; rewrite ?Ef, ?H1; simpl; try lia.
  - done.
Qed.

(** ** Turns *)

(** One turn of everyone involved. *)
Definition turn (t : env * (nat -> env)) : list event := [ECloser; EFlusher t.1; ECompactor t.2].

Definition turns (ts : list (env * (nat -> env))) : list event := concat (turn <$> ts).

Lemma turns_cons t ts : turns (t :: ts) = turn t ++ turns ts.
Proof. done. Qed.

Lemma turns_quiet ts : concat (writes <$> turns ts) = [].
Proof. induction ts as [|t ts IH]; [done |]. by rewrite turns_cons, fmap_app, concat_app, IH. Qed.

Lemma run_app evs evs' (s s' : sys) outs :
  run evs s = Some (outs, s') -> run (evs ++ evs') s = ('(outs', s2) ← run evs' s'; Some (outs ++ outs', s2)).
Proof.
  revert s outs. induction evs as [|ev evs IH]; intros s outs H; cbn [DbSystem.run app] in *.
  - injection H as <- <-. by destruct (run evs' s) as [[]|].
  - destruct (exec _ _ _ _ ev s) as [[o s1]|]; [| done]. cbn [mbind option_bind] in *.
    destruct (run evs s1) as [[os s2]|] eqn:E; [| done]. injection H as <- <-. rewrite (IH s1 os E).
    by destruct (run evs' s2) as [[]|].
Qed.

Lemma compactor_rank_le (s : sys) : (compactor_rank s <= 4)%nat.
Proof. unfold compactor_rank. destruct (s_compactor s), (compactionSignal (s_db s)); simpl; lia. Qed.

Lemma flusher_turn (e : env) (s s' : sys) a g :
  sim s a g -> closed (s_db s) = true -> flusher_step e s = Some s' ->
  s_closer s' = s_closer s /\ (flusher_rank s' <= flusher_rank s)%nat /\ (s_flusher s = FDone -> s' = s) /\
  (s_flusher s <> FDone -> (flusher_rank s' < flusher_rank s)%nat).
Proof.
  intros Hs Hc Hst. assert (s_flusher s = FDone \/ s_flusher s <> FDone) as [Hd | Hd] by (destruct (s_flusher s); by (left + right)).
  - unfold DbSystem.flusher_step in Hst. rewrite Hd in Hst. by injection Hst as <-.
  - destruct (flusher_ranks e s s' a g Hs Hc Hd Hst). by split_and!; try lia.
Qed.

Lemma turn_ranks t (s s2 s3 : sys) a g a1 g1 :
  sim s a g -> sim (closer_step s) a1 g1 -> flusher_step t.1 (closer_step s) = Some s2 -> compactor_step t.2 s2 = Some s3 ->
  (close_rank s3 <= close_rank s - 1)%nat.
Proof.
  intros Hs Hs1 E2 E3. pose proof (sim_closer _ _ _ _ _ _ _ Hs) as [_ Hfd]. pose proof (compactor_rank_le s3) as Hk.
  assert (Hc : closed (s_db (closer_step s)) = true).
  { apply (sim_closer _ _ _ _ _ _ _ Hs1). unfold closer_step. destruct (s_closer s) eqn:Ec, (s_flusher s), (s_compactor s); simpl; congruence. }
  destruct (flusher_turn _ _ _ _ _ Hs1 Hc E2) as (F1 & F2 & F3 & F4). destruct (compactor_ranks _ _ _ E3) as (K1 & K2 & K3).
  unfold close_rank. rewrite K2, F1, K1. unfold closer_step in *. unfold compactionClosed in Hfd. destruct (s_closer s) eqn:Ec; simpl in *.
  - change (flusher_rank (set_closer _ _)) with (flusher_rank s) in F2. lia.
  - destruct (s_flusher s) eqn:Ef; simpl in *; rewrite ?Ec; try (specialize (F4 ltac:(by rewrite Ef))); lia.
  - specialize (Hfd eq_refl). destruct (s_compactor s) eqn:Ek; simpl in *; rewrite ?Ec; try lia;
      rewrite (F3 Hfd) in *; unfold compactionClosed in K3; rewrite Ec, Ek in K3; specialize (K3 eq_refl ltac:(done)); lia.
  - rewrite Ec. lia.
Qed.

(** A step of the three, and what is left to run after it. *)
Lemma turn_step t ts (s : sys) a g :
  sim s a g -> fits fuel n (g_hist g) -> tame Hash128 math_Log conv fuel (turns (t :: ts)) s = true ->
  exists outs s' a' g', run (turn t) s = Some (outs, s') /\ sim s' a' g' /\ fits fuel n (g_hist g') /\
    tame Hash128 math_Log conv fuel (turns ts) s' = true /\ (close_rank s' <= close_rank s - 1)%nat.
Proof.
  intros Hs Hf Ht. rewrite turns_cons in Ht. cbn [turn app] in Ht.
  apply (fits_quiet _ _ _ (ECloser :: EFlusher t.1 :: ECompactor t.2 :: turns ts)) in Hf; [| apply (turns_quiet (t :: ts))].
  destruct (tame_step Hash128 math_Log conv fuel lim opts n Hsizing _ _ s a g Hs Hf Ht) as (o1 & s1 & a1 & g1 & E1 & _ & Hs1 & _ & Hf1 & Ht1).
  destruct (tame_step Hash128 math_Log conv fuel lim opts n Hsizing _ _ s1 a1 g1 Hs1 Hf1 Ht1) as (o2 & s2 & a2 & g2 & E2 & _ & Hs2 & _ & Hf2 & Ht2).
  destruct (tame_step Hash128 math_Log conv fuel lim opts n Hsizing _ _ s2 a2 g2 Hs2 Hf2 Ht2) as (o3 & s3 & a3 & g3 & E3 & _ & Hs3 & _ & Hf3 & Ht3).
  exists [o1; o2; o3], s3, a3, g3. split; [cbn [turn DbSystem.run]; rewrite E1; cbn [mbind option_bind]; rewrite E2; cbn [mbind option_bind]; by rewrite E3 |].
  split; [done |]. split; [by eapply fits_trace_now |]. split; [done |]. clear Ht1 Ht2 Ht3 Hf1 Hf2 Hf3.
  cbn [DbSystem.exec] in E1, E2, E3. injection E1 as <- <-.
  destruct (flusher_step t.1 (closer_step s)) as [s2'|] eqn:E2'; [| done]. injection E2 as <- <-.
  destruct (compactor_step t.2 s2') as [s3'|] eqn:E3'; [| done]. injection E3 as <- <-.
  by eapply turn_ranks.
Qed.

Lemma turns_close ts (s : sys) a g :
  sim s a g -> fits fuel n (g_hist g) -> tame Hash128 math_Log conv fuel (turns ts) s = true -> (close_rank s <= length ts)%nat ->
  exists outs s', run (turns ts) s = Some (outs, s') /\ s_closer s' = CloseDone.
Proof.
  revert s a g. induction ts as [|t ts IH]; intros s a g Hs Hf Ht Hr.
  - exists [], s. split; [done |]. unfold close_rank in Hr. by destruct (s_closer s); simpl in Hr; try lia.
  - destruct (turn_step t ts s a g Hs Hf Ht) as (outs & s1 & a1 & g1 & E & Hs1 & Hf1 & Ht1 & Hrank).
    destruct (IH s1 a1 g1 Hs1 Hf1 Ht1) as (outs' & s' & E' & Hd).
    { simpl in Hr. lia. }
    exists (outs ++ outs'), s'. split; [| done]. by rewrite turns_cons, (run_app _ _ _ _ _ E), E'.
Qed.

End close.
