(* ===== verification/DbBatch.v ===== *)
(** * Batches stay within their limits

    Any sequence of calls on a batch before it is committed: what it holds is
    exactly what was accepted, and never more than the limits allow. *)

From S2P Require Import Float64 Bloom BlockCache Wal.
From S2P Require Export DbSpec DbOpen.

Inductive batch_call :=
| CallPut (key value : bytes)
| CallDelete (key : bytes)
| CallCancel.

(** The operation a call asks for. *)
Definition call_op (c : batch_call) : option batch_op :=
  match c with
  | CallPut key value => Some (mkOp key value false)
  | CallDelete key => Some (mkOp key [] true)
  | CallCancel => None
  end.

Section batch.
Context {C : Type} `{!Cache C}.
Local Abbreviation DB := (DB C).

Definition call (db : DB) (c : batch_call) (b : Batch) : result db_error unit * Batch :=
  match c with
  | CallPut key value => Batch_Put db key value b
  | CallDelete key => Batch_Delete db key b
  | CallCancel => (Ok tt, Batch_Cancel b)
  end.

Fixpoint calls (db : DB) (cs : list batch_call) (b : Batch) : list (result db_error unit) * Batch :=
  match cs with
  | [] => ([], b)
  | c :: cs =>
      let '(r, b) := call db c b in
      let '(rs, b) := calls db cs b in
      (r :: rs, b)
  end.

(** The operations of the calls that were accepted. *)
Definition accepted (cs : list batch_call) (rs : list (result db_error unit)) : list batch_op :=
  omap (fun '(c, r) => match r with Ok _ => call_op c | Err _ => None end) (zip cs rs).

Definition total_size (ops : list batch_op) : Z := foldr (fun op n => op_size op + n) 0 ops.

Lemma total_size_snoc ops op : total_size (ops ++ [op]) = total_size ops + op_size op.
Proof. unfold total_size. induction ops as [|x ops IH]; simpl in *; lia. Qed.

(** A key and a value of permitted size. *)
Definition op_within (l : LimitsOptions) (op : batch_op) : Prop :=
  len (op_Key op) <= MaxKeyBytes l /\ len (op_Value op) <= MaxValueBytes l.

Record batch_ok (l : LimitsOptions) (b : Batch) : Prop := mkBatchOk {
  bo_count : len (operations b) <= MaxBatchOperations l;
  bo_total : sizeBytes b = total_size (operations b);
  bo_bytes : 0 <= sizeBytes b <= MaxBatchBytes l;
  bo_ops : Forall (op_within l) (operations b);
}.

Definition limits_ok (l : LimitsOptions) : Prop :=
  1 <= MaxKeyBytes l <= MaxKeySize /\ 1 <= MaxValueBytes l <= MaxValueSize /\ 1 <= MaxBatchOperations l /\ 1 <= MaxBatchBytes l.

Lemma empty_batch_ok l b : limits_ok l -> batch_ok l (mkBatch [] 0 b).
Proof. intros (? & ? & ? & ?). constructor; cbn [operations sizeBytes]; [change (len []) with 0; lia | done | lia | constructor]. Qed.

Lemma normalizeLimits_ok l l' : normalizeLimits l = Ok l' -> limits_ok l'.
Proof.
  unfold normalizeLimits. intros H. bind_inv H. injection H as <-. unfold limits_ok. simpl. rewrite !orb_false_iff in *.
  repeat match goal with
  | H : _ /\ _ |- _ => destruct H
  | H : (_ <? _) = false |- _ => apply Z.ltb_ge in H
  | H : (_ >? _) = false |- _ => rewrite Z.gtb_ltb in H
  end. lia.
Qed.

Lemma guard_gt {X} (x y : Z) (err : X) : guard_err (x >? y) err = if x >? y then Err err else Ok tt.
Proof. by destruct (x >? y). Qed.

(** Adding an operation, as [Put] and [Delete] do it. *)
Lemma add_ok (db : DB) op b r b' :
  limits_ok (limits db) -> batch_ok (limits db) b -> op_within (limits db) op ->
  (match reserveOperation db (op_size op) b with (Err err, b) => (Err err, b) | (Ok _, b) => (Ok tt, append_op op b) end) = (r, b') ->
  batch_ok (limits db) b' /\ b_closed b' = b_closed b /\
  operations b' = operations b ++ match r with Ok _ => [op] | Err _ => [] end /\ (is_Some (match r with Err e => Some e | _ => None end) -> b' = b).
Proof.
  intros Hl Hb Hop. unfold reserveOperation. assert (0 <= op_size op).
  { unfold op_size. pose proof (len_nonneg (op_Key op)). pose proof (len_nonneg (op_Value op)). destruct (op_Deleted op); lia. }
  destruct (Z.geb_spec (len (operations b)) (MaxBatchOperations (limits db))) as [| Hc]; [intros [= <- <-]; by rewrite app_nil_r |].
  destruct (Z.gtb_spec (op_size op) (MaxBatchBytes (limits db) - sizeBytes b)) as [| Hs]; intros [= <- <-]; [by rewrite app_nil_r |].
  split; [| split; [done |]; split; [done |]; by intros [? ?]]. destruct Hb as [B1 B2 B3 B4]. constructor; simpl.
  - rewrite len_app. change (len [op]) with 1. lia.
  - rewrite total_size_snoc. lia.
  - lia.
  - apply Forall_app. split; [done | by constructor].
Qed.

Lemma call_ok (db : DB) c b r b' :
  limits_ok (limits db) -> batch_ok (limits db) b -> call db c b = (r, b') ->
  batch_ok (limits db) b' /\
  (b_closed b' = false -> b_closed b = false /\
    operations b' = operations b ++ match r with Ok _ => option_list (call_op c) | Err _ => [] end) /\
  (is_Some (match r with Err e => Some e | _ => None end) -> b' = b).
Proof.
  intros Hl Hb. destruct c as [key value | key |]; cbn [call call_op option_list].
  - unfold Batch_Put, validateKey, validateValue. rewrite !guard_gt. destruct (b_closed b) eqn:Ec; [intros [= <- <-]; by rewrite Ec |].
    destruct (Z.gtb_spec (len key) (MaxKeyBytes (limits db))); [intros [= <- <-]; by rewrite app_nil_r |].
    destruct (Z.gtb_spec (len value) (MaxValueBytes (limits db))); [intros [= <- <-]; by rewrite app_nil_r |].
    intros Hr. apply (add_ok db (mkOp key value false) b r b') in Hr as (H1 & H2 & H3 & H4); [| done..].
    split; [done |]. split; [| done]. intros _. by rewrite H3.
  - unfold Batch_Delete, validateKey. rewrite !guard_gt. destruct (b_closed b) eqn:Ec; [intros [= <- <-]; by rewrite Ec |].
    destruct (Z.gtb_spec (len key) (MaxKeyBytes (limits db))); [intros [= <- <-]; by rewrite app_nil_r |].
    intros Hr. replace (len key) with (op_size (mkOp key [] true)) in Hr by (unfold op_size; simpl; lia).
    assert (op_within (limits db) (mkOp key [] true)).
    { split; [done |]. destruct Hl as (_ & ? & _). cbn [op_Value]. change (len []) with 0. lia. }
    apply add_ok in Hr as (H1 & H2 & H3 & H4); [| done..].
    split; [done |]. split; [| done]. intros _. by rewrite H3.
  - intros [= <- <-]. unfold Batch_Cancel. destruct (b_closed b) eqn:Ec; [split; [done |]; split; [by rewrite Ec | by intros [? ?]] |].
    split; [by apply empty_batch_ok | split; [done | by intros [? ?]]].
Qed.

Lemma calls_ok (db : DB) cs b rs b' :
  limits_ok (limits db) -> batch_ok (limits db) b -> calls db cs b = (rs, b') ->
  batch_ok (limits db) b' /\ (b_closed b' = false -> b_closed b = false /\ operations b' = operations b ++ accepted cs rs).
Proof.
  intros Hl. revert b rs b'. induction cs as [|c cs IH]; intros b rs b' Hb H; cbn [calls] in H.
  - injection H as <- <-. split; [done |]. unfold accepted. simpl. by rewrite app_nil_r.
  - destruct (call db c b) as [r b1] eqn:E1. destruct (calls db cs b1) as [rs1 b2] eqn:E2. injection H as <- <-.
    destruct (call_ok db c b r b1 Hl Hb E1) as (H1 & H2 & _). destruct (IH b1 rs1 b2 H1 E2) as (H3 & H4). split; [done |].
    intros Hc. destruct (H4 Hc) as [Hc1 H5]. destruct (H2 Hc1) as [Hc0 H6]. split; [done |]. rewrite H5, H6, <- app_assoc. f_equal.
    unfold accepted. cbn [zip zip_with omap list_omap]. destruct r; [destruct (call_op c) |]; done.
Qed.

(** C16: a batch stays within its limits.  With limits that [Open] accepts,
    whatever is put into, deleted in or cancelled on a new batch, it holds
    exactly the accepted operations in order unless it was cancelled, counts
    their bytes exactly, and has at most [MaxBatchOperations] operations of at
    most [MaxBatchBytes] bytes, with every key and value within its limit; a
    call that is refused leaves the batch as it was. *)
Theorem batch_within_limits (l : LimitsOptions) (db : DB) cs :
  normalizeLimits l = Ok (limits db) ->
  let '(rs, b) := calls db cs NewBatch in
  batch_ok (limits db) b /\ (b_closed b = false -> operations b = accepted cs rs) /\
  forall c err b', call db c b = (Err err, b') -> b' = b.
Proof.
  intros Hl%normalizeLimits_ok. destruct (calls db cs NewBatch) as [rs b] eqn:E.
  apply calls_ok in E as (H1 & H2); [| done | by apply empty_batch_ok].
  split; [done |]. split; [intros Hc; by destruct (H2 Hc) |]. intros c err b' Hc.
  destruct (call_ok db c b (Err err) b' Hl H1 Hc) as (_ & _ & H3). apply H3. by exists err.
Qed.

End batch.

(** Three operations where two are allowed. *)
Definition small_limits : LimitsOptions := mkLimits 0 0 2 0.
Definition batch_db : DB LRU :=
  mkDB [] 0 [] 0 1 0 [] None DefaultWriteOptions 0 emptyManifest 1 1
    (match normalizeLimits small_limits with Ok l => l | Err _ => small_limits end) ∅ false false false ∅.

Definition batch_calls : list batch_call := [CallPut [x61] [x01]; CallDelete [x62]; CallPut [x63] []].
Definition batch_left : Batch := mkBatch [mkOp [x61] [x01] false; mkOp [x62] [] true] 3 false.

Lemma batch_called : calls batch_db batch_calls NewBatch = ([Ok tt; Ok tt; Err (ErrBatchOperations 2)], batch_left).
Proof. vm_compute. reflexivity. Qed.

Lemma batch_within_limits_witness : batch_ok (limits batch_db) batch_left.
Proof.
  assert (Hl : normalizeLimits small_limits = Ok (limits batch_db)) by (vm_compute; reflexivity).
  pose proof (batch_within_limits small_limits batch_db batch_calls Hl) as H. rewrite batch_called in H. exact (proj1 H).
Defined.
