(* ===== verification/Base64.v ===== *)
(** * Page tokens: [encoding/base64.RawURLEncoding]

    Models [encodePageToken] and [decodePageToken] of [service.go] with the
    encoder and the decoder of the standard library they call: six bits per
    character of the URL alphabet, no padding, carriage returns and line feeds
    skipped when decoding, unused low bits ignored. *)

From S2P Require Export Prelude.

(** The characters for 0 to 63: A-Z, a-z, 0-9, [-] and [_]. *)
Definition encode_sextet (n : Z) : byte :=
  z2b (if n <? 26 then 65 + n
       else if n <? 52 then 97 + (n - 26)
       else if n <? 62 then 48 + (n - 52)
       else if n =? 62 then 45 else 95).

Definition decode_sextet (c : byte) : option Z :=
  let x := b2z c in
  if (65 <=? x) && (x <=? 90) then Some (x - 65)
  else if (97 <=? x) && (x <=? 122) then Some (x - 97 + 26)
  else if (48 <=? x) && (x <=? 57) then Some (x - 48 + 52)
  else if x =? 45 then Some 62
  else if x =? 95 then Some 63
  else None.

(** [RawURLEncoding.EncodeToString] *)
Fixpoint EncodeToString (src : bytes) : bytes :=
  match src with
  | [] => []
  | [a] => let v := b2z a * 65536 in [encode_sextet (v / 262144); encode_sextet (v / 4096 mod 64)]
  | [a; b] =>
      let v := b2z a * 65536 + b2z b * 256 in
      [encode_sextet (v / 262144); encode_sextet (v / 4096 mod 64); encode_sextet (v / 64 mod 64)]
  | a :: b :: c :: src =>
      let v := b2z a * 65536 + b2z b * 256 + b2z c in
      encode_sextet (v / 262144) :: encode_sextet (v / 4096 mod 64) :: encode_sextet (v / 64 mod 64) ::
      encode_sextet (v mod 64) :: EncodeToString src
  end.

(** The quanta of four characters; the last one may have two or three. *)
Fixpoint decode_quanta (sextets : list Z) : option bytes :=
  match sextets with
  | [] => Some []
  | [_] => None
  | [a; b] => let v := a * 262144 + b * 4096 in Some [z2b (v / 65536)]
  | [a; b; c] => let v := a * 262144 + b * 4096 + c * 64 in Some [z2b (v / 65536); z2b (v / 256)]
  | a :: b :: c :: d :: sextets =>
      let v := a * 262144 + b * 4096 + c * 64 + d in
      rest ← decode_quanta sextets;
      Some (z2b (v / 65536) :: z2b (v / 256) :: z2b v :: rest)
  end.

Definition is_newline (c : byte) : bool := (b2z c =? 10) || (b2z c =? 13).

(** [RawURLEncoding.DecodeString] *)
Definition DecodeString (src : bytes) : option bytes :=
  sextets ← mapM decode_sextet (filter (fun c => is_newline c = false) src);
  decode_quanta sextets.

Definition encodePageToken (key : bytes) : bytes := EncodeToString key.
Definition decodePageToken (token : bytes) : option bytes := DecodeString token.

(** ** Laws *)

(** The sextets of a string. *)
Fixpoint sextets_of (src : bytes) : list Z :=
  match src with
  | [] => []
  | [a] => let v := b2z a * 65536 in [v / 262144; v / 4096 mod 64]
  | [a; b] => let v := b2z a * 65536 + b2z b * 256 in [v / 262144; v / 4096 mod 64; v / 64 mod 64]
  | a :: b :: c :: src =>
      let v := b2z a * 65536 + b2z b * 256 + b2z c in
      v / 262144 :: v / 4096 mod 64 :: v / 64 mod 64 :: v mod 64 :: sextets_of src
  end.

(** Strings three bytes at a time. *)
Lemma triples_ind (P : bytes -> Prop) :
  P [] -> (forall a, P [a]) -> (forall a b, P [a; b]) -> (forall a b c l, P l -> P (a :: b :: c :: l)) -> forall l, P l.
Proof.
  intros H0 H1 H2 H3 l. assert (P l /\ (forall a, P (a :: l)) /\ (forall a b, P (a :: b :: l))) as [? _]; [| done].
  induction l as [|x l (IH & IH1 & IH2)]; split_and!; auto.
Qed.

Lemma encode_sextets src : EncodeToString src = encode_sextet <$> sextets_of src.
Proof. induction src as [| | | a b c src IH] using triples_ind; [done.. |]. cbn [EncodeToString sextets_of]. by rewrite IH. Qed.

Definition sextet (n : Z) : Prop := 0 <= n < 64.

Lemma sextets_range src : Forall sextet (sextets_of src).
Proof.
  induction src as [| a | a b | a b c src IH] using triples_ind; cbn [sextets_of]; repeat constructor; try done;
    pose proof (b2z_range a); try pose proof (b2z_range b); try pose proof (b2z_range c);
    first [apply Z.mod_pos_bound; lia | apply Z.div_pos; lia | apply Z.div_lt_upper_bound; lia].
Qed.

Lemma decode_encode_sextet n : sextet n -> decode_sextet (encode_sextet n) = Some n /\ is_newline (encode_sextet n) = false.
Proof.
  intros Hn. replace n with (Z.of_nat (Z.to_nat n)) by (unfold sextet in Hn; lia).
  assert (Z.to_nat n < 64)%nat as Hlt by (unfold sextet in Hn; lia). revert Hlt. generalize (Z.to_nat n). clear. intros k Hk.
  do 64 (destruct k as [|k]; [done |]). lia.
Qed.

(** Division by hand: [lia] with the quotient equations of the few divisions. *)
Ltac z_div := Z.to_euclidean_division_equations; lia.

Lemma z2b_eq v b : v mod 256 = b2z b -> z2b v = b.
Proof. intros H. apply b2z_inj. by rewrite b2z_z2b. Qed.

Lemma decode_sextets src : decode_quanta (sextets_of src) = Some src.
Proof.
  induction src as [| a | a b | a b c src IH] using triples_ind; [done | | |]; cbn [sextets_of decode_quanta];
    pose proof (b2z_range a); try pose proof (b2z_range b); try pose proof (b2z_range c).
  - do 2 f_equal. apply z2b_eq. z_div.
  - f_equal. f_equal; [| f_equal]; apply z2b_eq; z_div.
  - rewrite IH. cbn [mbind option_bind]. f_equal. f_equal; [| f_equal; [| f_equal]]; apply z2b_eq; z_div.
Qed.

(** A token decodes to the key it was made from. *)
Lemma page_token_roundtrip key : decodePageToken (encodePageToken key) = Some key.
Proof.
  unfold decodePageToken, encodePageToken, DecodeString. rewrite encode_sextets. pose proof (sextets_range key) as Hr.
  rewrite list_filter_all by (apply Forall_fmap; eapply Forall_impl; [exact Hr |]; intros n Hn; by apply decode_encode_sextet).
  replace (mapM decode_sextet (encode_sextet <$> sextets_of key)) with (Some (sextets_of key)); [apply decode_sextets |].
  symmetry. apply mapM_Some. apply Forall2_fmap_l, Forall_Forall2_diag. eapply Forall_impl; [exact Hr |]. intros n Hn.
  by apply decode_encode_sextet.
Qed.

(** Only the token of the empty key is empty. *)
Lemma page_token_empty key : encodePageToken key = [] <-> key = [].
Proof. split; [| by intros ->]. by destruct key as [|a [|b [|c key]]]. Qed.
