(* ===== verification/Service.v ===== *)
(** * The service and its gRPC adapter

    Models [service.go] and [grpc_service.go].  A handler is a goroutine beside
    the others: it is a program whose calls are the events of [DbSystem], with
    checks of its context and, for the streaming scan, sends on its stream.
    Between two calls the other goroutines run. *)

From S2P Require Import Float64 Bloom BlockCache Wal.
From S2P Require Export DbSystem Base64.

(** ** Programs *)

(** [context.Canceled] and [context.DeadlineExceeded]. *)
Inductive ctx_error := Canceled | DeadlineExceeded.

(** [Call] makes a call to the database, of which the operating system decides
    a part; [Ask] is [contextError(ctx)]; [Send] is [stream.Send], which tells
    whether it succeeded; [Stuck] is a loop that was given too little fuel, or
    an answer of the wrong kind. *)
Inductive prog (A : Type) : Type :=
| Ret (a : A)
| Call (ev : env -> event) (k : output -> prog A)
| Ask (k : option ctx_error -> prog A)
| Send (entry : bytes * bytes) (k : bool -> prog A)
| Stuck.
Arguments Ret {A} _.
Arguments Call {A} _ _.
Arguments Ask {A} _.
Arguments Send {A} _ _.
Arguments Stuck {A}.

Fixpoint prog_bind {A B} (p : prog A) (f : A -> prog B) : prog B :=
  match p with
  | Ret a => f a
  | Call ev k => Call ev (fun o => prog_bind (k o) f)
  | Ask k => Ask (fun c => prog_bind (k c) f)
  | Send entry k => Send entry (fun ok => prog_bind (k ok) f)
  | Stuck => Stuck
  end.
Global Instance prog_mbind : MBind prog := fun A B f p => prog_bind p f.

(** ** The service *)

Inductive service_error :=
| ErrInvalidRequest
| ErrContext (e : ctx_error)
| ErrDB (e : db_error).

Record GetRequest := mkGetRequest { get_Key : bytes }.
Record PutRequest := mkPutRequest { put_Key : bytes; put_Value : bytes; put_Sync : bool }.
Record DeleteRequest := mkDeleteRequest { delete_Key : bytes; delete_Sync : bool }.
Record ScanRequest := mkScanRequest { scan_Start : bytes; scan_End : bytes; Limit : Z; PageToken : bytes }.
Record ScanResponse := mkScanResponse { Entries : list (bytes * bytes); NextPageToken : bytes }.

Local Abbreviation reply_of A := (prog (result service_error A)).

(** [if err := contextError(ctx); err != nil { return err }] *)
Definition with_context {A} (k : reply_of A) : reply_of A :=
  Ask (fun c => match c with Some e => Ret (Err (ErrContext e)) | None => k end).

(** [defer iterator.Close()], when the result is known. *)
Definition closing {A} (i : nat) (r : A) : prog A := Call (fun _ => EIteratorClose i) (fun _ => Ret r).

(** [db.NewIterator(opts)] and what follows when it succeeds. *)
Definition with_iterator {A} (o : IteratorOptions) (k : nat -> reply_of A) : reply_of A :=
  Call (fun _ => EIterator o) (fun out =>
    match out with
    | OIterator (Ok i) => k i
    | OIterator (Err err) => Ret (Err (ErrDB err))
    | _ => Stuck
    end).

Section service.
Context {C : Type}.
(** The database of the service: a batch looks at its limits. *)
Context (db : DB C).

Definition Service_Get (req : GetRequest) : reply_of bytes :=
  with_context (Call (fun _ => EGet (get_Key req)) (fun out =>
    match out with
    | OValue r => Ret (map_err ErrDB r)
    | _ => Stuck
    end)).

(** [batch.Commit(WriteOptions{Sync: sync})] of a batch that was filled; the
    event fills a batch with the same operations and commits it. *)
Definition commit (sync : bool) (b : Batch) : reply_of unit :=
  Call (fun e => EBatch e (operations b) sync) (fun out =>
    match out with
    | ODone r => Ret (map_err ErrDB r)
    | _ => Stuck
    end).

Definition Service_Put (req : PutRequest) : reply_of unit :=
  with_context (
    match Batch_Put db (put_Key req) (put_Value req) NewBatch with
    | (Err err, _) => Ret (Err (ErrDB err))
    | (Ok _, b) => commit (put_Sync req) b
    end).

Definition Service_Delete (req : DeleteRequest) : reply_of unit :=
  with_context (
    match Batch_Delete db (delete_Key req) NewBatch with
    | (Err err, _) => Ret (Err (ErrDB err))
    | (Ok _, b) => commit (delete_Sync req) b
    end).

(** [for iterator.Next() { ... }] and the rest of [Scan]. *)
Fixpoint scan_loop (fuel : nat) (req : ScanRequest) (start : bytes) (i : nat) (entries : list (bytes * bytes))
    : reply_of ScanResponse :=
  match fuel with
  | O => Stuck
  | S fuel =>
      Call (fun _ => ENext i) (fun out =>
        match out with
        | ONext (Err err) => closing i (Err (ErrDB err))
        | ONext (Ok None) => closing i (Ok (mkScanResponse entries []))
        | ONext (Ok (Some (key, value))) =>
            Ask (fun c =>
              match c with
              | Some e => closing i (Err (ErrContext e))
              | None =>
                  if negb (key_eqb (PageToken req) []) && key_eqb key start then scan_loop fuel req start i entries
                  else
                    let entries := entries ++ [(key, value)] in
                    if (Limit req >? 0) && (len entries >=? Limit req) then
                      Call (fun _ => ENext i) (fun out =>
                        match out with
                        | ONext (Err err) => closing i (Err (ErrDB err))
                        | ONext (Ok (Some _)) => closing i (Ok (mkScanResponse entries (encodePageToken key)))
                        | ONext (Ok None) => closing i (Ok (mkScanResponse entries []))
                        | _ => Stuck
                        end)
                    else scan_loop fuel req start i entries
              end)
        | _ => Stuck
        end)
  end.

(** [start], after a look at the page token. *)
Definition scan_start (req : ScanRequest) : option bytes :=
  if negb (key_eqb (PageToken req) []) then decodePageToken (PageToken req) else Some (scan_Start req).

Definition Service_Scan (fuel : nat) (req : ScanRequest) : reply_of ScanResponse :=
  with_context (
    if Limit req <? 0 then Ret (Err ErrInvalidRequest)
    else match scan_start req with
         | None => Ret (Err ErrInvalidRequest)
         | Some start => with_iterator (mkIterOptions start (scan_End req)) (fun i => scan_loop fuel req start i [])
         end).

(** ** The gRPC adapter *)

Inductive code := InvalidArgument | CodeCanceled | CodeDeadlineExceeded | NotFound | FailedPrecondition | Internal.

(** The error of a handler: a status, or the error of the stream. *)
Inductive status := Status (c : code) | StreamError.

Definition grpcError (err : service_error) : status :=
  Status match err with
  | ErrContext Canceled => CodeCanceled
  | ErrContext DeadlineExceeded => CodeDeadlineExceeded
  | ErrDB ErrNotFound => NotFound
  | ErrInvalidRequest => InvalidArgument
  | ErrDB (ErrKeyTooLarge _ _) | ErrDB (ErrValueTooLarge _ _)
  | ErrDB (ErrBatchOperations _) | ErrDB (ErrBatchBytes _) => InvalidArgument
  | ErrDB ErrClosed | ErrDB ErrSnapshotClosed => FailedPrecondition
  | ErrDB _ => Internal
  end.

Local Abbreviation grpc A := (prog (result status A)).

(** A request that must not be nil, and the context. *)
Definition grpc_request {A R} (req : option R) (k : R -> grpc A) : grpc A :=
  match req with
  | None => Ret (Err (Status InvalidArgument))
  | Some req => Ask (fun c => match c with Some e => Ret (Err (grpcError (ErrContext e))) | None => k req end)
  end.

(** The answer of the service, its error as a status. *)
Definition serve {A} (p : reply_of A) : grpc A := r ← p; Ret (map_err grpcError r).

Definition GRPC_Get (req : option GetRequest) : grpc bytes := grpc_request req (fun req => serve (Service_Get req)).
Definition GRPC_Put (req : option PutRequest) : grpc unit := grpc_request req (fun req => serve (Service_Put req)).
Definition GRPC_Delete (req : option DeleteRequest) : grpc unit := grpc_request req (fun req => serve (Service_Delete req)).

Inductive mutation_type := TYPE_UNSPECIFIED | PUT | DELETE.
Record Mutation := mkMutation { mu_Type : mutation_type; mu_Key : bytes; mu_Value : bytes }.
Record WriteBatchRequest := mkWriteBatch { Mutations : list (option Mutation); wb_Sync : bool }.

(** [for _, mutation := range req.GetMutations() { ... }].  A batch that is
    cancelled is not used any more. *)
Fixpoint fill_mutations (ms : list (option Mutation)) (b : Batch) : grpc Batch :=
  match ms with
  | [] => Ret (Ok b)
  | m :: ms =>
      Ask (fun c =>
        match c with
        | Some e => Ret (Err (grpcError (ErrContext e)))
        | None =>
            match m with
            | None => Ret (Err (Status InvalidArgument))
            | Some m =>
                match (match mu_Type m with
                       | PUT => Some (Batch_Put db (mu_Key m) (mu_Value m) b)
                       | DELETE => Some (Batch_Delete db (mu_Key m) b)
                       | TYPE_UNSPECIFIED => None
                       end) with
                | None => Ret (Err (Status InvalidArgument))
                | Some (Err err, _) => Ret (Err (grpcError (ErrDB err)))
                | Some (Ok _, b) => fill_mutations ms b
                end
            end
        end)
  end.

Definition GRPC_WriteBatch (req : option WriteBatchRequest) : grpc unit :=
  grpc_request req (fun req =>
    r ← fill_mutations (Mutations req) NewBatch;
    match r with
    | Err err => Ret (Err err)
    | Ok b => serve (commit (wb_Sync req) b)
    end).

Record ScanStreamRequest := mkScanStream { ss_Start : bytes; ss_End : bytes; ss_Limit : Z }.

(** An [int32]. *)
Definition i32 (z : Z) : Z := (z + 2147483648) mod 4294967296 - 2147483648.

Fixpoint stream_loop (fuel : nat) (limit : Z) (i : nat) (sent : Z) : grpc unit :=
  match fuel with
  | O => Stuck
  | S fuel =>
      Call (fun _ => ENext i) (fun out =>
        match out with
        | ONext (Err err) => closing i (Err (grpcError (ErrDB err)))
        | ONext (Ok None) => closing i (Ok tt)
        | ONext (Ok (Some entry)) =>
            Ask (fun c =>
              match c with
              | Some e => closing i (Err (grpcError (ErrContext e)))
              | None =>
                  if (limit >? 0) && (sent >=? limit) then closing i (Ok tt)
                  else Send entry (fun ok =>
                    if ok then stream_loop fuel limit i (i32 (sent + 1)) else closing i (Err StreamError))
              end)
        | _ => Stuck
        end)
  end.

Definition GRPC_Scan (fuel : nat) (req : option ScanStreamRequest) : grpc unit :=
  match req with
  | None => Ret (Err (Status InvalidArgument))
  | Some req =>
      if ss_Limit req <? 0 then Ret (Err (Status InvalidArgument))
      else Ask (fun c =>
        match c with
        | Some e => Ret (Err (grpcError (ErrContext e)))
        | None =>
            Call (fun _ => EIterator (mkIterOptions (ss_Start req) (ss_End req))) (fun out =>
              match out with
              | OIterator (Ok i) => stream_loop fuel (ss_Limit req) i 0
              | OIterator (Err err) => Ret (Err (grpcError (ErrDB err)))
              | _ => Stuck
              end)
        end)
  end.

End service.

(** ** Execution *)

(** What the rest of the world does at one step of a handler: the events of
    other goroutines before its call, the operating system during it, the
    state of the context, and whether a send succeeds. *)
Record moment := mkMoment {
  m_others : list event;
  m_env : env;
  m_ctx : option ctx_error;
  m_sent : bool;
}.

(** Other goroutines do not have the iterators of the handler. *)
Definition touches (own : list nat) (ev : event) : bool :=
  match ev with
  | ENext i | EIteratorClose i => bool_decide (i ∈ own)
  | _ => false
  end.

Definition bystanders (own : list nat) (m : moment) : list event := filter (fun ev => touches own ev = false) (m_others m).

(** The iterators of the handler after an answer. *)
Definition given (out : output) (own : list nat) : list nat :=
  match out with OIterator (Ok i) => i :: own | _ => own end.

Section interp.
Context {lz : LZ4Codec} {C : Type} `{!Cache C}.
Context (Hash128 : bytes -> Z * Z) (math_Log : float64 -> float64) (conv : float64 -> Z) (fuel : nat).
Context (w : nat -> moment).
Local Abbreviation sys := (sys C).
Local Abbreviation run := (run Hash128 math_Log conv fuel).
Local Abbreviation exec := (exec Hash128 math_Log conv fuel).

(** The result, what was sent, and the database afterwards; the handler is at
    its step [i]. *)
Fixpoint interp {A} (i : nat) (own : list nat) (p : prog A) (s : sys) : option (A * list (bytes * bytes) * sys) :=
  match p with
  | Ret a => Some (a, [], s)
  | Call ev k =>
      '(_, s) ← run (bystanders own (w i)) s;
      '(out, s) ← exec (ev (m_env (w i))) s;
      interp (S i) (given out own) (k out) s
  | Ask k => interp (S i) own (k (m_ctx (w i))) s
  | Send entry k =>
      if m_sent (w i) then
        '(a, sent, s) ← interp (S i) own (k true) s;
        Some (a, entry :: sent, s)
      else interp (S i) own (k false) s
  | Stuck => None
  end.

(** The events of all goroutines while the handler runs. *)
Fixpoint trace {A} (i : nat) (own : list nat) (p : prog A) (s : sys) : list event :=
  match p with
  | Ret _ | Stuck => []
  | Call ev k =>
      let evs := bystanders own (w i) ++ [ev (m_env (w i))] in
      evs ++
      match run (bystanders own (w i)) s with
      | Some (_, s) =>
          match exec (ev (m_env (w i))) s with
          | Some (out, s) => trace (S i) (given out own) (k out) s
          | None => []
          end
      | None => []
      end
  | Ask k => trace (S i) own (k (m_ctx (w i))) s
  | Send entry k => trace (S i) own (k (m_sent (w i))) s
  end.

End interp.
