(* ===== verification/ServiceSpec.v ===== *)
(** * What handlers may rely on

    The weakest precondition of a handler against the specification of the
    database: whatever the other goroutines do, whatever answers the
    specification allows, the handler ends and its result satisfies a
    postcondition.  A handler that is correct against the specification is
    correct on the running database ([wp_adequate]). *)

From S2P Require Import Float64 Bloom BlockCache Wal MemTableClaims.
From S2P Require Export Service DbSimWorkers.

(** ** The size of the map *)

Lemma read_at_elem hist key q v : read_at hist key q = Some v -> key ∈ Key <$> hist.
Proof.
  unfold read_at. destruct (newest key q hist) as [r|] eqn:E; [| done]. intros _.
  apply newest_Some in E as (Hin & [Hk _] & _). apply list_elem_of_fmap. by exists r.
Qed.

Lemma sim_size {lz : LZ4Codec} {C : Type} `{!Cache C} Hash128 fuel lim opts (s : sys C) a g :
  sim Hash128 fuel lim opts s a g -> (size (a_map a) <= length (g_hist g))%nat.
Proof.
  intros Hs. rewrite <- (size_dom (D := gset bytes)). transitivity (size (list_to_set (Key <$> g_hist g) : gset bytes)).
  - apply subseteq_size. intros key [v Hv]%elem_of_dom. rewrite elem_of_list_to_set. rewrite <- (sim_map _ _ _ _ _ _ _ Hs) in Hv.
    by eapply read_at_elem.
  - rewrite <- (length_fmap Key (g_hist g)). generalize (Key <$> g_hist g). intros l. induction l as [|x l IH]; [by rewrite list_to_set_nil, size_empty |].
    rewrite list_to_set_cons. simpl. rewrite size_union_alt, size_singleton, size_difference_alt. lia.
Qed.

(** ** The weakest precondition *)

Section wp.
Context (lim : LimitsOptions) (fuel : nat) (w : nat -> moment).

(** [Q] is about the result, what was sent, and the database afterwards.  The
    map always has fewer entries than the fuel. *)
Fixpoint wp {A} (i : nat) (own : list nat) (p : prog A) (a : astate) (Q : A -> list (bytes * bytes) -> astate -> Prop) : Prop :=
  match p with
  | Ret x => Q x [] a
  | Call ev k =>
      forall outs a1 out a2, allowed_run lim (bystanders own (w i)) a outs a1 -> (size (a_map a1) < fuel)%nat ->
        allowed lim (ev (m_env (w i))) a1 out a2 -> wp (S i) (given out own) (k out) a2 Q
  | Ask k => wp (S i) own (k (m_ctx (w i))) a Q
  | Send entry k =>
      if m_sent (w i) then wp (S i) own (k true) a (fun x sent => Q x (entry :: sent)) else wp (S i) own (k false) a Q
  | Stuck => False
  end.

Lemma wp_mono {A} i own (p : prog A) a (Q Q' : A -> list (bytes * bytes) -> astate -> Prop) :
  (forall x sent a', Q x sent a' -> Q' x sent a') -> wp i own p a Q -> wp i own p a Q'.
Proof.
  revert i own a Q Q'. induction p as [x | ev k IH | k IH | entry k IH |]; intros i own a Q Q' HQ H; cbn [wp] in *; eauto.
  destruct (m_sent (w i)); eapply IH; try exact H; eauto.
Qed.

Lemma wp_bind {A B} i own (p : prog A) (f : A -> prog B) a (Q : B -> list (bytes * bytes) -> astate -> Prop) :
  wp i own p a (fun x sent a' => forall j own', wp j own' (f x) a' (fun y sent' => Q y (sent ++ sent'))) -> wp i own (prog_bind p f) a Q.
Proof.
  revert i own a Q. induction p as [x | ev k IH | k IH | entry k IH |]; intros i own a Q H; cbn [wp prog_bind] in *; eauto.
  destruct (m_sent (w i)); by apply IH.
Qed.

End wp.

(** ** Adequacy *)

Section adequacy.
Context {lz : LZ4Codec} {laws : LZ4Laws} {C : Type} `{!Cache C}.
Context (Hash128 : bytes -> Z * Z) (math_Log : float64 -> float64) (conv : float64 -> Z) (fuel : nat).
Context (lim : LimitsOptions) (opts : WriteOptions) (n : Z).
Context (Hsizing : sizing_fits math_Log conv n opts).
Context (w : nat -> moment).
Local Abbreviation sys := (sys C).
Local Abbreviation sim := (sim Hash128 fuel lim opts).
Local Abbreviation interp := (interp Hash128 math_Log conv fuel w).
Local Abbreviation trace := (trace Hash128 math_Log conv fuel w).

Lemma wp_adequate {A} i own (p : prog A) (s : sys) a g (Q : A -> list (bytes * bytes) -> astate -> Prop) :
  sim s a g -> fits_trace fuel n (g_hist g) (trace i own p s) -> tame Hash128 math_Log conv fuel (trace i own p s) s = true ->
  wp lim fuel w i own p a Q ->
  exists x sent s' a' g', interp i own p s = Some (x, sent, s') /\ sim s' a' g' /\ Q x sent a'.
Proof.
  revert i own s a g Q. induction p as [x | ev k IH | k IH | entry k IH |]; intros i own s a g Q Hs Hf Ht Hwp; cbn [wp Service.trace Service.interp] in *.
  - by exists x, [], s, a, g.
  - rewrite <- app_assoc in Hf, Ht.
    destruct (run_sim_app Hash128 math_Log conv fuel lim opts n Hsizing _ _ s a g Hs Hf Ht) as (outs & s1 & a1 & g1 & E1 & Ha1 & Hs1 & Hf1 & Ht1).
    rewrite E1 in Hf1, Ht1 |- *. cbn [mbind option_bind app] in *. destruct (fits_trace_now _ _ _ _ Hf1) as (_ & _ & Hlen). pose proof (sim_size _ _ _ _ _ _ _ Hs1).
    destruct (tame_step Hash128 math_Log conv fuel lim opts n Hsizing _ _ s1 a1 g1 Hs1 Hf1 Ht1) as (out & s2 & a2 & g2 & E2 & Ha2 & Hs2 & _ & Hf2 & Ht2).
    rewrite E2 in Hf2, Ht2 |- *. cbn [mbind option_bind]. eapply IH; try done. eapply Hwp; try done. lia.
  - by eapply IH.
  - destruct (m_sent (w i)); [| by eapply IH].
    destruct (IH true (S i) own s a g _ Hs Hf Ht Hwp) as (x & sent & s' & a' & g' & -> & Hs' & HQ). by exists x, (entry :: sent), s', a', g'.
  - done.
Qed.

End adequacy.
