(* ===== verification/ServiceScan.v ===== *)
(** * Scans through the service

    Against the specification of the database, [Scan] of the service returns a
    page of the map as it was when its iterator was opened, the streaming scan
    sends such entries, and following page tokens yields every entry once. *)

From stdpp Require Import sorting.
From S2P Require Import Float64 Bloom BlockCache Wal MemTableClaims.
From S2P Require Export ServiceSpec.

(** ** Iterators among other goroutines *)

Section bystanders.
Context (lim : LimitsOptions).

Lemma allowed_keeps ev a out a' (own : list nat) (i : nat) :
  allowed lim ev a out a' -> touches own ev = false -> i ∈ own -> (i < length (a_iterators a))%nat ->
  a_iterators a' !! i = a_iterators a !! i.
Proof.
  assert (Hit : forall err kvs, iterating err kvs a out a' -> (i < length (a_iterators a))%nat -> a_iterators a' !! i = a_iterators a !! i).
  { intros [err|] kvs [_ ->] Hi; [done |]. simpl. by rewrite lookup_app_l. }
  assert (Hch : forall err e sync m, checked err e sync m a out a' -> a_iterators a' !! i = a_iterators a !! i).
  { intros [err|] e sync m; [by intros [_ ->] |]. by intros [[_ ->] | (_ & _ & ->)]. }
  intros Ha Ht Hi Hlt. destruct ev; cbn [allowed touches] in Ha, Ht; eauto; try (by destruct Ha as [_ ->]).
  - destruct (a_closed a); by destruct Ha as [_ ->].
  - unfold on_snapshot in Ha. destruct (a_snapshots a !! i0) as [[m []]|]; eauto; by destruct Ha as [_ ->].
  - unfold on_snapshot in Ha. destruct (a_snapshots a !! i0) as [[m []]|]; eauto; by destruct Ha as [_ ->].
  - apply bool_decide_eq_false in Ht. assert (i0 <> i) by congruence.
    destruct (a_iterators a !! i0) as [[[|kv kvs] []]|]; destruct Ha as [_ ->]; simpl; try done. by rewrite list_lookup_insert_ne.
  - apply bool_decide_eq_false in Ht. assert (i0 <> i) by congruence. destruct Ha as [_ ->]. simpl. by rewrite list_lookup_alter_ne.
Qed.

Lemma bystanders_keep m own i a outs a' x :
  allowed_run lim (bystanders own m) a outs a' -> i ∈ own -> a_iterators a !! i = Some x -> a_iterators a' !! i = Some x.
Proof.
  unfold bystanders. generalize (m_others m). intros evs Hr Hi. remember (filter _ evs) as evs' eqn:E.
  assert (Hall : Forall (fun ev => touches own ev = false) evs').
  { subst. apply Forall_forall. intros ev [? _]%list_elem_of_filter. done. }
  clear E. revert Hall. induction Hr as [|ev evs' a out a1 outs a2 Ha Hr IH]; intros Hall Hx; [done |]. apply Forall_cons in Hall as [Ht Hall].
  apply IH; [done |]. rewrite (allowed_keeps _ _ _ _ own i Ha Ht Hi); [done | by eapply lookup_lt_Some].
Qed.

End bystanders.

(** ** Pages *)

(** Entries that the loop of [Scan] skips. *)
Definition skipped (req : ScanRequest) (start : bytes) (kv : bytes * bytes) : bool :=
  negb (key_eqb (PageToken req) []) && key_eqb kv.1 start.

(** All there is for a request, in a map. *)
Definition scan_entries (req : ScanRequest) (start : bytes) (m : gmap bytes bytes) : list (bytes * bytes) :=
  filter (fun kv => skipped req start kv = false) (range (in_range (mkIterOptions start (scan_End req))) m).

(** The first [limit] of [kvs], and the token of the last key when there are
    more. *)
Definition page (limit : Z) (kvs : list (bytes * bytes)) : ScanResponse :=
  if (limit >? 0) && (len kvs >? limit) then
    let kvs := take (Z.to_nat limit) kvs in
    mkScanResponse kvs (match last kvs with Some kv => encodePageToken kv.1 | None => [] end)
  else mkScanResponse kvs [].

Definition scan_answer (lim : LimitsOptions) (req : ScanRequest) (a : astate) (r : result service_error ScanResponse) : Prop :=
  if Limit req <? 0 then r = Err ErrInvalidRequest
  else match scan_start req with
       | None => r = Err ErrInvalidRequest
       | Some start =>
           match if_closed a (orelse (too_large lim start) (too_large lim (scan_End req))) with
           | Some err => r = Err (ErrDB err)
           | None => r = Ok (page (Limit req) (scan_entries req start (a_map a)))
           end
       end.

Lemma range_length (f : bytes -> bool) (m : gmap bytes bytes) : (length (range f m) <= size m)%nat.
Proof.
  unfold range. rewrite (Permutation_length (merge_sort_Permutation kv_le _)), <- length_map_to_list. apply length_filter.
Qed.

(** Only the first entry of a range can be at its start. *)
Lemma range_after_start (o : IteratorOptions) (m : gmap bytes bytes) (kv : bytes * bytes) : kv ∈ tail (range (in_range o) m) -> kv.1 <> Start o.
Proof.
  pose proof (range_sorted (in_range o) m) as Hs. pose proof (fun kv => proj1 (elem_of_range (in_range o) m kv)) as Hin.
  destruct (range (in_range o) m) as [|kv0 l]; [by intros ?%not_elem_of_nil |]. simpl. intros Hkv Heq.
  apply StronglySorted_inv in Hs as [_ Hall]. rewrite Forall_forall in Hall. specialize (Hall _ Hkv).
  destruct (Hin kv0 (list_elem_of_here _ _)) as [[Hst _]%andb_true_iff _]. unfold beforeStart in Hst.
  destruct (key_eqb_spec (Start o) []) as [E | E].
  - rewrite Heq, E in Hall. by destruct (kv0.1).
  - simpl in Hst. rewrite <- Heq in Hst. key_order.
Qed.

Section loop.
Context (lim : LimitsOptions) (fuel : nat) (w : nat -> moment).
Local Abbreviation wp := (wp lim fuel w).

Lemma wp_closing {A} j own i (x : A) a (Q : A -> list (bytes * bytes) -> astate -> Prop) :
  (forall a', Q x [] a') -> wp j own (closing i x) a Q.
Proof. intros HQ outs a1 out a2 _ _ _. apply HQ. Qed.

(** [Next] among other goroutines. *)
Lemma wp_next {A} j own i (k : output -> prog A) a kvs (Q : A -> list (bytes * bytes) -> astate -> Prop) :
  i ∈ own -> a_iterators a !! i = Some (kvs, false) ->
  (forall a', a_iterators a' !! i = Some (tail kvs, false) -> wp (S j) own (k (ONext (Ok (head kvs)))) a' Q) ->
  wp j own (Call (fun _ => ENext i) k) a Q.
Proof.
  intros Hi Ha Hk outs a1 out a2 Hr _ Hal. apply (bystanders_keep lim (w j) own i _ _ _ _ Hr Hi) in Ha. cbn [allowed] in Hal. rewrite Ha in Hal.
  destruct kvs as [|kv kvs]; destruct Hal as [-> ->]; apply Hk; [done |]. simpl. apply list_lookup_insert_eq. by eapply lookup_lt_Some.
Qed.

(** A context that was cancelled. *)
Definition cancelled (e : ctx_error) : Prop := exists j, m_ctx (w j) = Some e.

Lemma page_all req kvs : (0 < Limit req -> len kvs <= Limit req) -> page (Limit req) kvs = mkScanResponse kvs [].
Proof.
  intros Hl. unfold page. destruct (Z.gtb_spec (Limit req) 0), (Z.gtb_spec (len kvs) (Limit req)); try done. specialize (Hl ltac:(lia)). lia.
Qed.

Lemma page_full limit kvs kv more : len (kvs ++ [kv]) = limit -> more <> [] -> page limit ((kvs ++ [kv]) ++ more) = mkScanResponse (kvs ++ [kv]) (encodePageToken kv.1).
Proof.
  intros Hl Hm. assert (0 < limit) by (rewrite <- Hl, len_app; pose proof (len_nonneg kvs); change (len [kv]) with 1; lia).
  assert (0 < len more) by (destruct more; [done | rewrite len_cons; pose proof (len_nonneg more); lia]).
  unfold page. rewrite len_app, Hl. destruct (Z.gtb_spec limit 0), (Z.gtb_spec (limit + len more) limit); try lia. cbn [andb].
  replace (Z.to_nat limit) with (length (kvs ++ [kv])) by (unfold len in Hl; lia). by rewrite take_app_length, last_snoc.
Qed.

Lemma wp_scan_loop f req start j own i a kvs entries (Q : result service_error ScanResponse -> list (bytes * bytes) -> astate -> Prop) :
  i ∈ own -> a_iterators a !! i = Some (kvs, false) -> (length kvs < f)%nat -> (0 < Limit req -> len entries < Limit req) ->
  (forall kv, kv ∈ tail kvs -> kv.1 <> start) ->
  (forall r a', (exists e, cancelled e /\ r = Err (ErrContext e)) \/
     r = Ok (page (Limit req) (entries ++ filter (fun kv => skipped req start kv = false) kvs)) -> Q r [] a') ->
  wp j own (scan_loop f req start i entries) a Q.
Proof.
  revert j a kvs entries. induction f as [|f IH]; intros j a kvs entries Hi Ha Hf Hl Hst HQ; [lia |]. cbn [scan_loop].
  apply (wp_next j own i _ a kvs); [done | done |]. intros a1 Ha1. destruct kvs as [|[key value] kvs]; cbn [head tail] in *.
  { apply wp_closing. intros a'. apply HQ. right. rewrite filter_nil, app_nil_r, page_all; [done |]. intros. specialize (Hl ltac:(lia)). lia. }
  cbn [ServiceSpec.wp]. destruct (m_ctx (w (S j))) as [e|] eqn:Ec.
  { apply wp_closing. intros a'. apply HQ. left. exists e. split; [by exists (S j) | done]. }
  assert (Hkeep : filter (fun kv => skipped req start kv = false) kvs = kvs).
  { apply list_filter_all, Forall_forall. intros kv Hkv%Hst. unfold skipped. destruct (key_eqb_spec kv.1 start); [done | by rewrite andb_false_r]. }
  rewrite filter_cons in HQ. change (negb (key_eqb (PageToken req) []) && key_eqb key start) with (skipped req start (key, value)).
  destruct (decide (skipped req start (key, value) = false)) as [Es | Es]; [| apply not_false_is_true in Es]; rewrite Es.
  2: { apply (IH _ a1 kvs entries); try done; [simpl in Hf; lia |].
    intros kv Hkv. apply Hst. destruct kvs; [done | by right]. }
  rewrite Hkeep in HQ.
  destruct (Z.gtb_spec (Limit req) 0) as [Hpos | Hnon]; cbn [andb]; [destruct (Z.geb_spec (len (entries ++ [(key, value)])) (Limit req)) as [Hge | Hlt] |].
  - specialize (Hl ltac:(lia)). assert (Hlen : len (entries ++ [(key, value)]) = Limit req) by (rewrite len_app in *; change (len [(key, value)]) with 1 in *; lia).
    apply (wp_next _ own i _ a1 kvs); [done | done |]. intros a2 _. destruct kvs as [|kv2 kvs]; cbn [head].
    + apply wp_closing. intros a'. apply HQ. right. rewrite page_all; [done | lia].
    + apply wp_closing. intros a'. apply HQ. right. change (?x :: ?y :: ?z) with ([x] ++ y :: z). by rewrite app_assoc, page_full.
  - apply (IH _ a1 kvs (entries ++ [(key, value)])); try done; [simpl in Hf; lia | |].
    { intros kv Hkv. apply Hst. destruct kvs; [done | by right]. }
    by rewrite Hkeep, <- app_assoc.
  - apply (IH _ a1 kvs (entries ++ [(key, value)])); try done; [simpl in Hf; lia | lia | |].
    { intros kv Hkv. apply Hst. destruct kvs; [done | by right]. }
    by rewrite Hkeep, <- app_assoc.
Qed.
(** [NewIterator] among other goroutines. *)
Lemma wp_open {A} j own o (k : output -> prog A) a (Q : A -> list (bytes * bytes) -> astate -> Prop) :
  (forall outs a1, allowed_run lim (bystanders own (w j)) a outs a1 -> (size (a_map a1) < fuel)%nat ->
     match if_closed a1 (orelse (too_large lim (Start o)) (too_large lim (End_ o))) with
     | Some err => wp (S j) own (k (OIterator (Err err))) a1 Q
     | None => forall i a2, a_iterators a2 !! i = Some (range (in_range o) (a_map a1), false) -> wp (S j) (i :: own) (k (OIterator (Ok i))) a2 Q
     end) ->
  wp j own (Call (fun _ => EIterator o) k) a Q.
Proof.
  intros Hk outs a1 out a2 Hr Hsz Hal. specialize (Hk outs a1 Hr Hsz). cbn [allowed] in Hal. unfold iterating in Hal.
  destruct (if_closed _ _) as [err|]; destruct Hal as [-> ->]; [exact Hk |]. apply Hk. simpl. by apply list_lookup_middle.
Qed.

(** [Scan] *)
Definition scan_valid (req : ScanRequest) : bool := negb (Limit req <? 0) && bool_decide (is_Some (scan_start req)).

(** What the service may answer: the context was cancelled, the request is
    refused, or the answer is that of the map when the iterator was opened. *)
Definition scan_outcome (own : list nat) (j : nat) (req : ScanRequest) (a : astate) (r : result service_error ScanResponse) : Prop :=
  (exists e, cancelled e /\ r = Err (ErrContext e)) \/
  if scan_valid req then exists outs a1, allowed_run lim (bystanders own (w j)) a outs a1 /\ scan_answer lim req a1 r
  else r = Err ErrInvalidRequest.

Lemma wp_Scan j own req a (Q : result service_error ScanResponse -> list (bytes * bytes) -> astate -> Prop) :
  (forall r a', scan_outcome own (S j) req a r -> Q r [] a') -> wp j own (Service_Scan fuel req) a Q.
Proof.
  intros HQ. unfold Service_Scan, with_context. cbn [ServiceSpec.wp]. destruct (m_ctx (w j)) as [e|] eqn:Ec.
  { apply HQ. left. exists e. split; [by exists j | done]. }
  assert (HQ' : forall r a', (if scan_valid req then exists outs a1, allowed_run lim (bystanders own (w (S j))) a outs a1 /\ scan_answer lim req a1 r
    else r = Err ErrInvalidRequest) -> Q r [] a') by (intros r a' Hr; apply HQ; by right).
  unfold scan_valid, scan_answer in HQ'. destruct (Limit req <? 0); cbn [negb andb] in HQ'; [by apply HQ' |].
  destruct (scan_start req) as [start|]; [| by apply HQ']. rewrite bool_decide_true in HQ' by done.
  unfold with_iterator. apply wp_open. intros outs a1 Hr Hsz. cbn [Start End_]. destruct (if_closed a1 _) as [err|] eqn:Eerr.
  { apply HQ'. exists outs, a1. split; [done |]. by rewrite Eerr. }
  intros i a2 Hi. eapply wp_scan_loop; [by left | exact Hi | | | apply range_after_start |].
  - pose proof (range_length (in_range (mkIterOptions start (scan_End req))) (a_map a1)). lia.
  - by change (len []) with 0.
  - intros r a' [Hc | ->]; [apply HQ; by left |]. apply HQ'. exists outs, a1. split; [done |]. by rewrite Eerr.
Qed.

(** ** Streams *)

Lemma i32_id z : 0 <= z <= 2147483647 -> i32 z = z.
Proof. intros. unfold i32. rewrite Z.mod_small; lia. Qed.

(** Everything the stream is to receive, of [kvs]. *)
Definition stream_entries (limit : Z) (kvs : list (bytes * bytes)) : list (bytes * bytes) :=
  if limit >? 0 then take (Z.to_nat limit) kvs else kvs.

(** How a streaming scan of [kvs] may end. *)
Definition streamed (kvs : list (bytes * bytes)) (r : result status unit) (sent : list (bytes * bytes)) : Prop :=
  (r = Ok tt /\ sent = kvs) \/
  (sent `prefix_of` kvs /\ ((exists e, cancelled e /\ r = Err (grpcError (ErrContext e))) \/ ((exists j, m_sent (w j) = false) /\ r = Err StreamError))).

Lemma streamed_cons kv kvs r sent : streamed kvs r sent -> streamed (kv :: kvs) r (kv :: sent).
Proof. intros [[-> ->] | [Hp H]]; [by left |]. right. split; [by apply prefix_cons | done]. Qed.

Lemma streamed_cancelled e kvs : cancelled e -> streamed kvs (Err (grpcError (ErrContext e))) [].
Proof. intros He. right. split; [apply prefix_nil |]. left. by exists e. Qed.

Lemma wp_stream_loop f limit sent j own i a kvs (Q : result status unit -> list (bytes * bytes) -> astate -> Prop) :
  i ∈ own -> a_iterators a !! i = Some (kvs, false) -> (length kvs < f)%nat -> (0 < limit -> 0 <= sent <= limit /\ limit <= 2147483647) ->
  (forall r out a', streamed (if limit >? 0 then take (Z.to_nat (limit - sent)) kvs else kvs) r out -> Q r out a') ->
  wp j own (stream_loop f limit i sent) a Q.
Proof.
  revert sent j a kvs Q. induction f as [|f IH]; intros sent j a kvs Q Hi Ha Hf Hl HQ; [lia |]. cbn [stream_loop].
  apply (wp_next j own i _ a kvs); [done | done |]. intros a1 Ha1. destruct kvs as [|kv kvs]; cbn [head tail] in *.
  { apply wp_closing. intros a'. apply HQ. left. destruct (limit >? 0); by rewrite ?take_nil. }
  cbn [ServiceSpec.wp]. destruct (m_ctx (w (S j))) as [e|] eqn:Ec.
  { apply wp_closing. intros a'. apply HQ, streamed_cancelled. by exists (S j). }
  destruct (Z.gtb_spec limit 0) as [Hpos | Hnon]; cbn [andb]; [destruct (Z.geb_spec sent limit) as [Hge | Hlt] |].
  - specialize (Hl ltac:(lia)). apply wp_closing. intros a'. apply HQ. left. by replace (Z.to_nat (limit - sent)) with 0%nat by lia.
  - destruct (Hl ltac:(lia)). replace (Z.to_nat (limit - sent)) with (S (Z.to_nat (limit - (sent + 1)))) in HQ by lia. cbn [take] in HQ.
    cbn [ServiceSpec.wp]. destruct (m_sent (w (S (S j)))) eqn:Es.
    + rewrite i32_id by lia. apply (IH _ _ a1 kvs); try done; [simpl in Hf; lia | lia |]. intros r out a' Hr. apply HQ, streamed_cons.
      destruct (Z.gtb_spec limit 0); [done | lia].
    + apply wp_closing. intros a'. apply HQ. right. split; [apply prefix_nil |]. right. split; [by exists (S (S j)) | done].
  - cbn [ServiceSpec.wp]. destruct (m_sent (w (S (S j)))) eqn:Es.
    + apply (IH _ _ a1 kvs); try done; [simpl in Hf; lia | lia |]. intros r out a' Hr. apply HQ, streamed_cons.
      destruct (Z.gtb_spec limit 0); [lia | done].
    + apply wp_closing. intros a'. apply HQ. right. split; [apply prefix_nil |]. right. split; [by exists (S (S j)) | done].
Qed.

(** What a streaming scan may do. *)
Definition stream_outcome (own : list nat) (j : nat) (req : option ScanStreamRequest) (a : astate) (r : result status unit) (sent : list (bytes * bytes)) : Prop :=
  match req with
  | None => r = Err (Status InvalidArgument) /\ sent = []
  | Some req =>
      if ss_Limit req <? 0 then r = Err (Status InvalidArgument) /\ sent = []
      else (exists e, cancelled e /\ r = Err (grpcError (ErrContext e)) /\ sent = []) \/
        exists outs a1, allowed_run lim (bystanders own (w j)) a outs a1 /\
          match if_closed a1 (orelse (too_large lim (ss_Start req)) (too_large lim (ss_End req))) with
          | Some err => r = Err (grpcError (ErrDB err)) /\ sent = []
          | None => streamed (stream_entries (ss_Limit req) (range (in_range (mkIterOptions (ss_Start req) (ss_End req))) (a_map a1))) r sent
          end
  end.

Lemma wp_GRPC_Scan j own req a (Q : result status unit -> list (bytes * bytes) -> astate -> Prop) :
  (match req with Some req => ss_Limit req <= 2147483647 | None => True end) ->
  (forall r sent a', stream_outcome own (S j) req a r sent -> Q r sent a') -> wp j own (GRPC_Scan fuel req) a Q.
Proof.
  intros Hlim HQ. unfold GRPC_Scan. unfold stream_outcome in HQ. destruct req as [req|]; [| by apply HQ].
  destruct (Z.ltb_spec (ss_Limit req) 0); [by apply HQ |]. cbn [ServiceSpec.wp]. destruct (m_ctx (w j)) as [e|] eqn:Ec.
  { apply HQ. left. exists e. split; [by exists j | done]. }
  apply wp_open. intros outs a1 Hr Hsz. cbn [Start End_]. destruct (if_closed a1 _) as [err|] eqn:Eerr.
  { apply HQ. right. exists outs, a1. split; [done |]. by rewrite Eerr. }
  intros i a2 Hi. eapply wp_stream_loop; [by left | exact Hi | | lia |].
  - pose proof (range_length (in_range (mkIterOptions (ss_Start req) (ss_End req))) (a_map a1)). lia.
  - intros r sent a' Hs. apply HQ. right. exists outs, a1. split; [done |]. rewrite Eerr. by rewrite Z.sub_0_r in Hs.
Qed.

End loop.
