(* ===== verification/ServicePages.v ===== *)
(** * Following page tokens

    A client that asks for the next page as long as it gets a token, while
    nobody writes, receives every entry of the range exactly once, in order -
    unless a page ends with the empty key, whose token looks like no token. *)

From S2P Require Import Float64 Bloom BlockCache Wal MemTableClaims.
From S2P Require Export ServiceScan.

(** [NextPageToken] as the [PageToken] of the next request. *)
Definition next_request (req : ScanRequest) (token : bytes) : ScanRequest :=
  mkScanRequest (scan_Start req) (scan_End req) (Limit req) token.

(** The client: [n] bounds the number of pages. *)
Fixpoint scan_all (n fuel : nat) (req : ScanRequest) : prog (result service_error (list (bytes * bytes))) :=
  match n with
  | O => Stuck
  | S n =>
      r ← Service_Scan fuel req;
      match r with
      | Err err => Ret (Err err)
      | Ok resp =>
          if key_eqb (NextPageToken resp) [] then Ret (Ok (Entries resp))
          else
            r ← scan_all n fuel (next_request req (NextPageToken resp));
            Ret (match r with Err err => Err err | Ok more => Ok (Entries resp ++ more) end)
      end
  end.

(** ** Sorted lists of entries *)

Local Abbreviation entry := (bytes * bytes)%type.
Local Abbreviation before := (fun a b : entry => (a.1 < b.1)%key).

Lemma before_NoDup (l : list entry) : StronglySorted before l -> NoDup l.
Proof.
  induction 1 as [|a l Hs IH Hall]; constructor; [| done]. intros Hin. rewrite Forall_forall in Hall. specialize (Hall _ Hin). simpl in Hall. key_order.
Qed.

(** Sorted lists with the same elements are equal. *)
Lemma before_ext (l k : list entry) :
  StronglySorted before l -> StronglySorted before k -> (forall kv, kv ∈ l <-> kv ∈ k) -> l = k.
Proof.
  intros Hl Hk Hel. assert (Hp : l ≡ₚ k) by (apply NoDup_Permutation; auto using before_NoDup).
  revert k Hk Hel Hp. induction Hl as [|a l Hl IH Hall]; intros k Hk Hel Hp; [by apply Permutation_nil_l in Hp |].
  destruct k as [|b k]; [by apply Permutation_nil_r in Hp |]. apply StronglySorted_inv in Hk as [Hk Hallk]. rewrite Forall_forall in Hall, Hallk.
  assert (a = b) as ->.
  { pose proof (proj1 (Hel a) (list_elem_of_here _ _)) as [-> | Ha]%elem_of_cons; [done |].
    pose proof (proj2 (Hel b) (list_elem_of_here _ _)) as [-> | Hb]%elem_of_cons; [done |].
    specialize (Hall _ Hb). specialize (Hallk _ Ha). simpl in *. key_order. }
  f_equal. apply IH; [done | | by apply Permutation_cons_inv in Hp]. intros kv. apply Permutation_cons_inv in Hp. by rewrite Hp.
Qed.

Lemma before_app (l k : list entry) x y : StronglySorted before (l ++ k) -> x ∈ l -> y ∈ k -> (x.1 < y.1)%key.
Proof.
  induction l as [|a l IH]; intros Hs Hx Hy; [by apply not_elem_of_nil in Hx |]. apply StronglySorted_inv in Hs as [Hs Hall].
  apply elem_of_cons in Hx as [-> | Hx]; [| by apply IH]. rewrite Forall_forall in Hall. apply Hall, elem_of_app. by right.
Qed.

Lemma scan_entries_sorted (req : ScanRequest) (start : bytes) (m : gmap bytes bytes) : StronglySorted before (scan_entries req start m).
Proof. eapply sublist_StronglySorted; [apply sublist_filter | apply range_sorted]. Qed.

Lemma elem_of_scan_entries (req : ScanRequest) (start : bytes) (m : gmap bytes bytes) (kv : entry) :
  kv ∈ scan_entries req start m <-> skipped req start kv = false /\ in_range (mkIterOptions start (scan_End req)) kv.1 = true /\ m !! kv.1 = Some kv.2.
Proof. unfold scan_entries. by rewrite list_elem_of_filter, elem_of_range. Qed.

Lemma from_start o key : in_range o key = true -> (Start o <= key)%key.
Proof.
  unfold in_range, beforeStart. intros [H _]%andb_true_iff. destruct (key_eqb_spec (Start o) []) as [-> | _]; [by destruct key |].
  simpl in H. key_order.
Qed.

(** Keys beyond [key] that are in the range. *)
Lemma in_range_after start end_ key key' :
  (start <= key)%key -> (key < key')%key -> in_range (mkIterOptions start end_) key' = in_range (mkIterOptions key end_) key'.
Proof.
  intros H1 H2. unfold in_range, beforeStart, atOrPastEnd. cbn [Start End_]. f_equal. f_equal.
  replace (key_ltb key' start) with false by (symmetry; key_order). replace (key_ltb key' key) with false by (symmetry; key_order).
  by rewrite !andb_false_r.
Qed.

(** What is left after a page that ends with [kv]. *)
Lemma scan_entries_rest (req : ScanRequest) (start : bytes) (m : gmap bytes bytes) (l : list entry) (kv : entry) (rest : list entry) :
  scan_entries req start m = (l ++ [kv]) ++ rest -> kv.1 <> [] ->
  scan_entries (next_request req (encodePageToken kv.1)) kv.1 m = rest.
Proof.
  intros E Hne. pose proof (scan_entries_sorted req start m) as Hs. rewrite E in Hs.
  assert (Hrest : StronglySorted before rest).
  { eapply sublist_StronglySorted; [| exact Hs]. apply sublist_inserts_l. done. }
  apply before_ext; [apply scan_entries_sorted | done |]. intros x.
  assert (Hkv : kv ∈ scan_entries req start m) by (rewrite E; set_solver). apply elem_of_scan_entries in Hkv as (_ & Hr & _).
  pose proof (from_start _ _ Hr) as Hge. cbn [Start] in Hge.
  assert (Htok : key_eqb (encodePageToken kv.1) [] = false) by (apply key_eqb_neq; by rewrite page_token_empty).
  assert (Hx : x ∈ rest <-> x ∈ scan_entries req start m /\ (kv.1 < x.1)%key).
  { rewrite E. split.
    - intros Hx. split; [set_solver |]. eapply before_app; [exact Hs | | done]. set_solver.
    - intros [[[Hx | ->%list_elem_of_singleton]%elem_of_app | Hx]%elem_of_app Hlt]; [| key_order | done].
      exfalso. apply (before_app (l) ([kv] ++ rest) x kv) in Hx; [key_order | by rewrite app_assoc | set_solver]. }
  rewrite Hx, !elem_of_scan_entries. unfold skipped. cbn [PageToken next_request scan_End]. rewrite Htok. cbn [negb andb]. split.
  - intros (H1 & H2 & H3). apply from_start in H2 as H4. cbn [Start] in H4. apply key_eqb_neq in H1. assert (Hlt : (kv.1 < x.1)%key) by key_order.
    split_and!; try done; [| by rewrite (in_range_after start _ kv.1)].
    destruct (key_eqb_spec x.1 start); [key_order | by rewrite andb_false_r].
  - intros ((H1 & H2 & H3) & Hlt). split_and!; try done; [apply key_eqb_neq; key_order |]. by rewrite <- (in_range_after start).
Qed.

(** The last key of a page is empty only if the page is the single entry of
    the empty key. *)
Lemma page_end_nonempty (req : ScanRequest) (start : bytes) (m : gmap bytes bytes) (l : list entry) (kv : entry) (rest : list entry) :
  scan_entries req start m = (l ++ [kv]) ++ rest -> l <> [] \/ m !! [] = None -> kv.1 <> [].
Proof.
  intros E Hor Hk. pose proof (scan_entries_sorted req start m) as Hs. rewrite E in Hs. destruct Hor as [Hl | Hm].
  - destruct l as [|x l]; [done |]. rewrite <- app_assoc in Hs. eapply (before_app (x :: l) _ x kv) in Hs; [| by left | set_solver].
    rewrite Hk in Hs. by destruct x.1.
  - assert (kv ∈ scan_entries req start m) as (_ & _ & Hin)%elem_of_scan_entries by (rewrite E; set_solver). rewrite Hk, Hm in Hin. done.
Qed.

(** ** While nobody writes *)

(** Events that leave the map as it is and the database open. *)
Definition reads (ev : event) : bool :=
  match ev with EPut _ _ _ | EDelete _ _ | EBatch _ _ _ | ECloser => false | _ => true end.

Fixpoint reads_only {A} (p : prog A) : Prop :=
  match p with
  | Ret _ | Stuck => True
  | Call ev k => (forall e, reads (ev e) = true) /\ forall out, reads_only (k out)
  | Ask k => forall c, reads_only (k c)
  | Send _ k => forall ok, reads_only (k ok)
  end.

Lemma scan_loop_reads f req start i entries : reads_only (scan_loop f req start i entries).
Proof.
  revert entries. induction f as [|f IH]; intros entries; [done |]. cbn [scan_loop reads_only]. split; [done |].
  intros [| | | | [[[key value]|]|err] |]; try done. intros [e|]; [done |]. destruct (_ && _); [done |]. destruct (_ && _); [| done].
  split; [done |]. by intros [| | | | [[]|err] |].
Qed.

Lemma Scan_reads f req : reads_only (Service_Scan f req).
Proof.
  intros [e|]; [done |]. destruct (_ <? _); [done |]. destruct (scan_start req); [| done]. split; [done |].
  intros [| | | [i|err] | |]; try done. apply scan_loop_reads.
Qed.

(** The same map, still open. *)
Definition same_map (a a' : astate) : Prop := a_map a' = a_map a /\ a_closed a' = a_closed a.

Section quiet.
Context (lim : LimitsOptions) (fuel : nat) (w : nat -> moment).
Context (Hctx : forall j, m_ctx (w j) = None) (Hquiet : forall j, Forall (fun ev => reads ev = true) (m_others (w j))).
Local Abbreviation wp := (wp lim fuel w).

Lemma iterating_same err kvs a out a' : iterating err kvs a out a' -> same_map a a'.
Proof. by destruct err; intros [_ ->]. Qed.

Lemma allowed_reads ev a out a' : allowed lim ev a out a' -> reads ev = true -> same_map a a'.
Proof.
  destruct ev; intros Ha Hr; cbn [allowed] in Ha; try done; try (by apply iterating_same in Ha); try (by destruct Ha as [_ ->]).
  - destruct (a_closed a) eqn:E; destruct Ha as [_ ->]; unfold same_map; simpl; by rewrite ?E.
  - unfold on_snapshot in Ha. destruct (a_snapshots a !! i) as [[m []]|]; [by destruct Ha as [_ ->] | by apply iterating_same in Ha | by destruct Ha as [_ ->]].
  - unfold on_snapshot in Ha. destruct (a_snapshots a !! i) as [[m []]|]; [by destruct Ha as [_ ->] | by apply iterating_same in Ha | by destruct Ha as [_ ->]].
  - destruct (a_iterators a !! i) as [[[|kv kvs] []]|]; by destruct Ha as [_ ->].
Qed.

Lemma bystanders_same own j a outs a' : allowed_run lim (bystanders own (w j)) a outs a' -> same_map a a'.
Proof.
  assert (Hall : Forall (fun ev => reads ev = true) (bystanders own (w j))).
  { unfold bystanders. apply Forall_forall. intros ev [_ Hev]%list_elem_of_filter. specialize (Hquiet j). rewrite Forall_forall in Hquiet. by apply Hquiet. }
  revert Hall. generalize (bystanders own (w j)). intros evs Hall Hr. revert Hall.
  induction Hr as [|ev evs a out a1 outs a2 Ha Hr IH]; intros Hall; [done |]. apply Forall_cons in Hall as [Hev Hall].
  apply allowed_reads in Ha as [H1 H2]; [| done]. destruct (IH Hall) as [H3 H4]. split; congruence.
Qed.

(** A program that only reads leaves the map alone. *)
Lemma wp_quiet {A} j own (p : prog A) a a0 (Q : A -> list (bytes * bytes) -> astate -> Prop) :
  reads_only p -> same_map a0 a -> wp j own p a Q -> wp j own p a (fun x sent a' => Q x sent a' /\ same_map a0 a').
Proof.
  revert j own a Q. induction p as [x | ev k IH | k IH | entry k IH |]; intros j own a Q Hr Ha H; cbn [ServiceSpec.wp reads_only] in *; eauto.
  - destruct Hr as [Hev Hk]. intros outs a1 out a2 H1 Hsz H2. apply IH; [done | | by eapply H]. apply bystanders_same in H1 as [? ?].
    apply allowed_reads in H2 as [? ?]; [| done]. destruct Ha. split; congruence.
  - destruct (m_sent (w j)); by apply IH.
Qed.

Lemma wp_scan_all n req start j own a (Q : result service_error (list (bytes * bytes)) -> list (bytes * bytes) -> astate -> Prop) :
  scan_start req = Some start -> 0 < Limit req -> a_closed a = false -> too_large lim start = None -> too_large lim (scan_End req) = None ->
  map_Forall (fun k _ => too_large lim k = None) (a_map a) -> Limit req <> 1 \/ a_map a !! [] = None ->
  (length (scan_entries req start (a_map a)) < n)%nat ->
  (forall a', Q (Ok (scan_entries req start (a_map a))) [] a') -> wp j own (scan_all n fuel req) a Q.
Proof.
  revert req start j own a Q. induction n as [|n IH]; intros req start j own a Q Hst Hpos Hop Hs He Hfit Hone Hn HQ; [lia |]. cbn [scan_all].
  apply wp_bind. eapply wp_mono; [| apply (wp_quiet j own (Service_Scan fuel req) a a (fun r sent _ => sent = [] /\ scan_outcome lim w own (S j) req a r));
    [apply Scan_reads | done | by apply wp_Scan]].
  intros r sent a' [[-> Ho] [Hm Hc]] j' own'. destruct Ho as [(e & [j0 Hj] & _) | Ho]; [by rewrite Hctx in Hj |].
  unfold scan_valid, scan_answer in Ho. rewrite Hst in Ho. destruct (Z.ltb_spec (Limit req) 0); [lia |]. rewrite bool_decide_true in Ho by done. cbn [negb andb] in Ho.
  destruct Ho as (outs & a1 & [Hm1 Hc1]%bystanders_same & Ho). unfold if_closed, orelse in Ho. rewrite Hc1, Hop, Hs, He, Hm1 in Ho. subst r.
  set (E := scan_entries req start (a_map a)) in *. unfold page. destruct (Z.gtb_spec (Limit req) 0); [cbn [andb] | lia].
  destruct (Z.gtb_spec (len E) (Limit req)) as [Hmore | Hall]; cbn [NextPageToken Entries]; [| apply HQ].
  assert (exists l kv, take (Z.to_nat (Limit req)) E = l ++ [kv]) as (l & kv & Etake).
  { destruct (take (Z.to_nat (Limit req)) E) as [|x l] eqn:Et using rev_ind; [| by exists l, x].
    apply (f_equal length) in Et. rewrite length_take in Et. unfold len in Hmore. simpl in Et. lia. }
  assert (HE : E = (l ++ [kv]) ++ drop (Z.to_nat (Limit req)) E) by (by rewrite <- Etake, take_drop).
  assert (Hlen : length (l ++ [kv]) = Z.to_nat (Limit req)) by (rewrite <- Etake, length_take; unfold len in Hmore; lia). rewrite length_app in Hlen. simpl in Hlen.
  assert (Hne : kv.1 <> []).
  { apply (page_end_nonempty req start (a_map a) l kv _ HE). destruct Hone as [Hone | Hone]; [left | by right]. intros ->. simpl in Hlen. lia. }
  rewrite Etake, last_snoc. destruct (key_eqb_spec (encodePageToken kv.1) []) as [Hk | Hk]; [by rewrite page_token_empty in Hk |].
  assert (Hin : kv ∈ E) by (rewrite HE; set_solver). apply elem_of_scan_entries in Hin as (_ & _ & Hin).
  pose proof (scan_entries_rest req start (a_map a) l kv _ HE Hne) as Hrest.
  apply wp_bind. apply (IH (next_request req (encodePageToken kv.1)) kv.1); try done.
  - unfold scan_start, next_request. cbn [PageToken]. apply key_eqb_neq in Hk. rewrite Hk. cbn [negb]. apply page_token_roundtrip.
  - by rewrite Hc.
  - by apply (map_Forall_lookup_1 _ _ _ _ Hfit Hin).
  - by rewrite Hm.
  - by rewrite Hm.
  - rewrite Hm, Hrest, length_drop. unfold len in Hmore. lia.
  - intros a2 j2 own2. cbn. rewrite Hm, Hrest, <- Etake, take_drop. apply HQ.
Qed.

End quiet.
