(* ===== verification/DbDurable.v ===== *)
(** * What the directory holds

    The files of the directory describe the database: every memtable has a log
    segment whose replay rebuilds it, the manifest file lists the tables, and
    there are no other segments.  The relation [durable] says so of the state of
    a running database, and every step of a run keeps it as long as no append
    to the log, no removal of a segment and no sync after a publication fails.
    The only exception is the last write of a run, whose append may be torn. *)

From S2P Require Import Float64 Bloom BlockCache Wal MemTableClaims SkipListRefine.
From S2P Require Export DbSimWorkers.

(** ** Appending to a log *)

(** The frames of [recs] cause the puts [puts], and a strict prefix of them
    none. *)
Definition all_or_nothing (recs puts : list record) : Prop :=
  forall pending, fst (log_run recs pending) = puts /\
    forall r1 r r2, recs = r1 ++ r :: r2 -> fst (log_run r1 pending) = [].

Lemma record_atomic rec : BatchKind rec = BatchNone -> all_or_nothing [rec] [rec].
Proof.
  intros Hk pending. split; [unfold log_run, log_step; by rewrite Hk |].
  intros r1 r r2 He. destruct r1 as [|x r1]; [done |]. apply (f_equal length) in He. rewrite length_app in He. simpl in He. lia.
Qed.

Lemma batch_atomic id ops : strip_batch <$> ops = ops -> all_or_nothing (batch_records id ops) ops.
Proof.
  intros Hs pending. split; [rewrite log_run_batch; done |]. intros r1 r r2 He. by eapply log_run_batch_prefix.
Qed.

(** Every number in the log leaves room for the next. *)
Definition numbered (rec : record) : Prop := Seq rec < u64_max /\ BatchID rec < u64_max.

Lemma log_max_bound recs m : m < u64_max -> Forall numbered recs -> log_max recs m < u64_max.
Proof.
  intros Hm H. revert m Hm. induction H as [|r recs [H1 H2] _ IH]; intros m Hm; [done |]. cbn [log_max fold_left].
  apply IH. unfold max_sequence. repeat case_match; lia.
Qed.

(** A segment whose replay into an empty table gives [l].  A [clean] one may be
    appended to. *)
Definition logged (clean : bool) (file : bytes) (l : list record) : Prop :=
  exists recs tail, file = writeWALHeader ++ frames recs ++ tail /\ Forall wf_record recs /\ log_max recs 0 < u64_max /\
    list_puts (log_puts recs) [] = l /\ torn tail /\ (clean = true -> tail = []).

Lemma logged_weaken c file l : logged c file l -> logged false file l.
Proof. intros (recs & tail & H1 & H2 & H3 & H4 & H5 & _). by exists recs, tail. Qed.

Lemma logged_new : logged true writeWALHeader [].
Proof. exists [], []. split_and!; try done. by left. Qed.

Lemma log_puts_app recs recs' puts : all_or_nothing recs' puts -> log_puts (recs ++ recs') = log_puts recs ++ puts.
Proof.
  intros Ha. unfold log_puts. rewrite log_run_app. destruct (log_run recs ∅) as [p1 pd]. destruct (Ha pd) as [<- _].
  by destruct (log_run recs' pd).
Qed.

Lemma list_puts_app a b l : list_puts (a ++ b) l = list_puts b (list_puts a l).
Proof. apply fold_left_app. Qed.

(** A whole group of frames. *)
Lemma logged_append file l recs puts :
  logged true file l -> Forall wf_record recs -> Forall numbered recs -> all_or_nothing recs puts ->
  logged true (file ++ frames recs) (list_puts puts l).
Proof.
  intros (recs0 & tail & -> & Hw & Hm & <- & _ & Ht) Hwf Hn Ha. rewrite (Ht eq_refl), app_nil_r. exists (recs0 ++ recs), [].
  rewrite frames_app, app_nil_r, <- app_assoc. split; [done |]. split; [by apply Forall_app |].
  split; [unfold log_max; rewrite fold_left_app; by apply log_max_bound |]. rewrite (log_puts_app _ _ _ Ha), list_puts_app.
  split; [done |]. split; [by left | done].
Qed.

(** What is there of it when the append is torn. *)
Lemma logged_torn file l recs puts p q :
  logged true file l -> Forall wf_record recs -> Forall numbered recs -> all_or_nothing recs puts -> frames recs = p ++ q -> q <> [] ->
  logged false (file ++ p) l.
Proof.
  intros (recs0 & tail & -> & Hw & Hm & <- & _ & Ht) Hwf Hn Ha He Hq. rewrite (Ht eq_refl), app_nil_r.
  destruct (frames_prefix _ _ _ He Hq) as (r1 & rec & r2 & p' & q' & -> & -> & Hf & Hq').
  apply Forall_app in Hwf as [Hw1 Hw2]. apply Forall_app in Hn as [Hn1 _]. apply Forall_cons in Hw2 as [Hrec _].
  exists (recs0 ++ r1), p'. rewrite frames_app, <- !app_assoc. split; [done |]. split; [by apply Forall_app |].
  split; [unfold log_max; rewrite fold_left_app; by apply log_max_bound |].
  split; [| split; [by eapply torn_wf | done]]. unfold log_puts. rewrite log_run_app. destruct (log_run recs0 ∅) as [p1 pd].
  destruct (Ha pd) as [_ Hn']. specialize (Hn' _ _ _ eq_refl). destruct (log_run r1 pd) as [p2 pd']. simpl in *. subst p2.
  by rewrite app_nil_r.
Qed.

(** ** Files that are not segments *)

Lemma not_segment path :
  (forall s, path <> str_wal ++ s) -> parseSegmentID path = None.
Proof.
  intros H. unfold parseSegmentID, HasPrefix. rewrite bool_decide_eq_false_2; [done |]. intros Heq.
  apply (H (drop (length str_wal) path)). by rewrite <- Heq at 1; rewrite take_drop.
Qed.

Lemma named_parse id path : named id path -> parseSegmentID path = None.
Proof. intros [-> | ->]; by apply not_segment. Qed.

Lemma manifest_parse : parseSegmentID manifest_path = None /\ parseSegmentID (tmp_path manifest_path) = None.
Proof. split; by apply not_segment. Qed.

(** The segments of both directories are the same. *)
Definition same_segments (d d' : fs) : Prop := forall path, is_Some (parseSegmentID path) -> d' !! path = d !! path.

Lemma same_segments_refl d : same_segments d d.
Proof. by intros path. Qed.

Lemma same_segments_trans d d1 d2 : same_segments d d1 -> same_segments d1 d2 -> same_segments d d2.
Proof. intros H1 H2 path Hp. by rewrite H2, H1. Qed.

Lemma same_segments_insert path file d : parseSegmentID path = None -> same_segments d (<[path := file]> d).
Proof. intros Hp p Hs. apply lookup_insert_ne. intros ->. rewrite Hp in Hs. by apply is_Some_None in Hs. Qed.

Lemma same_segments_delete path d : parseSegmentID path = None -> same_segments d (delete path d).
Proof. intros Hp p Hs. apply lookup_delete_ne. intros ->. rewrite Hp in Hs. by apply is_Some_None in Hs. Qed.

Lemma same_segments_Write o m d : same_segments d (snd (Write o manifest_path m d)).
Proof.
  destruct manifest_parse as [H1 H2]. intros p Hs. apply Write_frame; intros ->; rewrite ?H1, ?H2 in Hs; by apply is_Some_None in Hs.
Qed.

(** ** The manifest file *)

(** The file lists the tables of [mf], and counters that do not exceed its
    own. *)
Definition saved (d : fs) (mf : Manifest) : Prop :=
  (d !! manifest_path = None /\ SSTables mf = []) \/
  exists data m, d !! manifest_path = Some data /\ Manifest.encode (Some m) = Ok data /\ SSTables m = SSTables mf /\
    is_u64 (NextSSTableID m) /\ 0 <= NextWALSegmentID m <= NextWALSegmentID mf.

Lemma saved_same d mf d' mf' :
  saved d mf -> d' !! manifest_path = d !! manifest_path -> SSTables mf' = SSTables mf ->
  NextWALSegmentID mf <= NextWALSegmentID mf' -> saved d' mf'.
Proof.
  intros [[H1 H2] | (data & m & H1 & H2 & H3 & H4 & H5)] Hd Ht Hw; [left; by rewrite Hd, Ht |].
  right. exists data, m. rewrite Hd, Ht. split_and!; try done; lia.
Qed.

Lemma Write_saved o mf d :
  is_u64 (NextSSTableID mf) -> 0 <= NextWALSegmentID mf ->
  let '(err, d') := Write o manifest_path (Some mf) d in
  match err with
  | Some (WriteFailed _) => d' !! manifest_path = d !! manifest_path
  | Some PublishError => f_syncParent o = true /\ saved d' mf
  | None => saved d' mf
  end.
Proof.
  intros Hu Hw. rewrite Write_eq. destruct (Manifest.encode (Some mf)) as [data|err] eqn:E; [| done]. cbv zeta.
  pose proof (tmp_path_ne manifest_path) as Hne.
  assert (Hs : saved (<[manifest_path := data]> (delete (tmp_path manifest_path) (<[tmp_path manifest_path := data]> d))) mf).
  { right. exists data, mf. split_and!; done || lia || apply lookup_insert_eq. }
  revert Hs. generalize dependent (tmp_path manifest_path). intros tmp Hne Hs.
  destruct (f_create o); [done |].
  destruct (f_write o); [by destruct (f_remove o); simplify_map_eq |].
  destruct (f_sync o || f_close o || f_rename o); [by destruct (f_remove o); simplify_map_eq |].
  by destruct (f_syncParent o).
Qed.

Section durable.
Context {lz : LZ4Codec} {laws : LZ4Laws} {C : Type} `{!Cache C}.
Context (Hash128 : bytes -> Z * Z) (math_Log : float64 -> float64) (conv : float64 -> Z) (fuel : nat).
Local Abbreviation DB := (DB C).
Local Abbreviation sys := (sys C).
Local Abbreviation inv := (inv Hash128).

(** ** The relation *)

(** The segment [id] holds the records of the memtable at [addr]. *)
Definition log_ok (clean : bool) (d : fs) (heap : list MemTable) (addr : nat) (id : Z) : Prop :=
  exists mt l file, heap !! addr = Some mt /\ vt_repr mt l /\ d !! SegmentPath id = Some file /\ logged clean file l.

(** The segments of the directory: perhaps that of a memtable that was just
    flushed, those of the immutable memtables, the active one. *)
Definition live_segments (stale : option Z) (db : DB) : list Z :=
  option_list stale ++ (im_walID <$> immutableMemtables db) ++ [walID db].

Record durable (stale : option Z) (clean : bool) (db : DB) : Prop := mkDurable {
  du_manifest : saved (dir db) (manifest db);
  du_imms : Forall (fun imm => log_ok false (dir db) (memtables db) (im_table imm) (im_walID imm)) (immutableMemtables db);
  du_active : log_ok clean (dir db) (memtables db) (memtable db) (walID db);
  du_sorted : StronglySorted Z.lt (live_segments stale db);
  du_u64 : Forall is_u64 (live_segments stale db);
  du_only : forall path id, is_Some (dir db !! path) -> parseSegmentID path = Some id ->
    path = SegmentPath id /\ id ∈ live_segments stale db;
  du_next : walID db = NextWALSegmentID (manifest db);
}.

(** The part of the state that it depends on, besides the manifest. *)
Record same_logs (db db' : DB) : Prop := mkSameLogs {
  sl_heap : memtables db' = memtables db;
  sl_memtable : memtable db' = memtable db;
  sl_imms : immutableMemtables db' = immutableMemtables db;
  sl_wal : walID db' = walID db;
  sl_next : NextWALSegmentID (manifest db') = NextWALSegmentID (manifest db);
  sl_dir : same_segments (dir db) (dir db');
}.

Lemma SegmentPath_parsed id : is_u64 id -> is_Some (parseSegmentID (SegmentPath id)).
Proof. intros H. rewrite parse_SegmentPath by done. done. Qed.

Lemma log_ok_frame clean d d' heap addr id :
  is_u64 id -> same_segments d d' -> log_ok clean d heap addr id -> log_ok clean d' heap addr id.
Proof.
  intros Hu Hd (mt & l & file & H1 & H2 & H3 & H4). exists mt, l, file. by rewrite Hd by by apply SegmentPath_parsed.
Qed.

Lemma du_ids stale clean db :
  durable stale clean db -> is_u64 (walID db) /\ Forall (fun imm => is_u64 (im_walID imm)) (immutableMemtables db).
Proof.
  intros H. pose proof (du_u64 _ _ _ H) as Hu. unfold live_segments in Hu. rewrite !Forall_app, Forall_singleton, Forall_fmap in Hu. tauto.
Qed.

(** Tables and the manifest may change, as long as the file follows. *)
Lemma durable_frame stale clean db db' :
  durable stale clean db -> same_logs db db' -> saved (dir db') (manifest db') -> durable stale clean db'.
Proof.
  intros Hd [S1 S2 S3 S4 S5 S6] Hm. destruct (du_ids _ _ _ Hd) as [Hu1 Hu2]. destruct Hd.
  assert (Hl : live_segments stale db' = live_segments stale db) by (unfold live_segments; by rewrite S3, S4).
  constructor; rewrite ?Hl, ?S1, ?S2, ?S3, ?S4, ?S5; try done.
  - rewrite Forall_forall in du_imms0, Hu2 |- *. intros imm Hi. eapply log_ok_frame; [by apply Hu2 | exact S6 | by apply du_imms0].
  - by eapply log_ok_frame.
  - intros path id Hp Hid. apply du_only0; [| done]. by rewrite <- (S6 path) by by rewrite Hid.
Qed.

(** Reads do not touch any of it. *)
Definition core (db : DB) : list MemTable * nat * list immutable * Z * Manifest * fs :=
  (memtables db, memtable db, immutableMemtables db, walID db, manifest db, dir db).

Lemma durable_core stale clean db db' : core db' = core db -> durable stale clean db -> durable stale clean db'.
Proof.
  unfold core. intros [= H1 H2 H3 H4 H5 H6] Hd. apply (durable_frame _ _ db); [done | |].
  - constructor; rewrite ?H5, ?H6; done || apply same_segments_refl.
  - rewrite H5, H6. apply Hd.
Qed.

Lemma durable_weaken stale clean db : durable stale clean db -> durable stale false db.
Proof.
  intros []. constructor; try done. destruct du_active0 as (mt & l & file & H1 & H2 & H3 & H4). exists mt, l, file.
  split_and!; try done. by eapply logged_weaken.
Qed.

(** ** Reads *)

(** Takes an operation that returned apart. *)
Local Ltac op_inv H :=
  repeat (cbv zeta in H;
  match type of H with
  | (_ ≫= _) = Some _ => apply bind_Some in H as (? & ? & H)
  | (let '(_, _) := ?p in _) = _ => destruct p eqn:?
  | (match ?x with _ => _ end) = _ => destruct x eqn:?
  | Some _ = Some _ => injection H as H
  | (_, _) = (_, _) => injection H as ? H
  end); subst.

Lemma getAt_core key maxSeq (db : DB) r db' : getAt Hash128 key maxSeq db = Some (r, db') -> core db' = core db.
Proof. unfold getAt. intros H. op_inv H; done. Qed.

Lemma newIterator_core o maxSeq (db : DB) r db' : newIteratorLocked fuel o maxSeq db = Some (r, db') -> core db' = core db.
Proof. unfold newIteratorLocked. intros H. op_inv H; done. Qed.

Lemma unregister_core q (db : DB) : core (unregisterReaderLocked q db) = core db.
Proof. unfold unregisterReaderLocked. by destruct (_ <=? 1). Qed.

Lemma hand_out_core r (s : sys) out s' : hand_out r s = (out, s') -> s_db s' = s_db s /\ s_flusher s' = s_flusher s.
Proof. unfold hand_out. destruct r; by intros [= <- <-]. Qed.

(** Events that neither write nor belong to a worker. *)
Definition reading (ev : event) : bool :=
  match ev with
  | EPut _ _ _ | EDelete _ _ | EBatch _ _ _ | ECompact _ | EFlusher _ | ECompactor _ => false
  | _ => true
  end.

Lemma get_core key (db : DB) r db' : DB_Get Hash128 key db = Some (r, db') -> core db' = core db.
Proof. unfold DB_Get. intros H. op_inv H; try done. by eapply getAt_core. Qed.

Lemma snapshot_get_core sn key (db : DB) r db' : Snapshot_Get Hash128 sn key db = Some (r, db') -> core db' = core db.
Proof. unfold Snapshot_Get. intros H. op_inv H; try done. by eapply getAt_core. Qed.

Lemma iterator_core o (db : DB) r db' : DB_NewIterator fuel o db = Some (r, db') -> core db' = core db.
Proof. unfold DB_NewIterator. intros H. op_inv H; try done. by eapply newIterator_core. Qed.

Lemma snapshot_iterator_core sn o (db : DB) r db' : Snapshot_NewIterator fuel sn o db = Some (r, db') -> core db' = core db.
Proof. unfold Snapshot_NewIterator. intros H. op_inv H; try done. by eapply newIterator_core. Qed.

Lemma new_snapshot_core (db : DB) r db' : NewSnapshot db = (r, db') -> core db' = core db.
Proof. unfold NewSnapshot. destruct (closed db); by intros [= <- <-]. Qed.

Lemma snapshot_close_core sn sn' (db db' : DB) : Snapshot_Close sn db = (sn', db') -> core db' = core db.
Proof. unfold Snapshot_Close. destruct (sn_closed sn); intros [= <- <-]; [done | apply unregister_core]. Qed.

Lemma iterator_close_core it it' (db db' : DB) : Iterator_Close it db = (it', db') -> core db' = core db.
Proof. unfold Iterator_Close. destruct (i_closed it), (i_registered it); intros [= <- <-]; done || apply unregister_core. Qed.

Lemma exec_reading ev (s s' : sys) out :
  reading ev = true -> exec Hash128 math_Log conv fuel ev s = Some (out, s') ->
  core (s_db s') = core (s_db s) /\ s_flusher s' = s_flusher s.
Proof.
  destruct ev; try done; intros _; unfold exec, DB_ScanPrefix, Snapshot_ScanPrefix; intros H; op_inv H; try done; simpl;
    repeat match goal with
    | H : hand_out _ _ = _ |- _ => apply hand_out_core in H as [-> ->]
    | H : DB_Get _ _ _ = Some _ |- _ => apply get_core in H
    | H : Snapshot_Get _ _ _ _ = Some _ |- _ => apply snapshot_get_core in H
    | H : DB_NewIterator _ _ _ = Some _ |- _ => apply iterator_core in H
    | H : Snapshot_NewIterator _ _ _ _ = Some _ |- _ => apply snapshot_iterator_core in H
    | H : NewSnapshot _ = _ |- _ => apply new_snapshot_core in H
    | H : Snapshot_Close _ _ = _ |- _ => apply snapshot_close_core in H
    | H : Iterator_Close _ _ = _ |- _ => apply iterator_close_core in H
    end; try done. unfold closer_step. by repeat case_match.
Qed.

(** ** Compaction *)

Lemma remove_tables_frame (e : env) hs removed failed d (cache : option C) x p :
  remove_tables e hs removed failed d cache = Some x -> (forall h, h ∈ hs -> Path (h_meta h) <> p) -> x.1.2 !! p = d !! p.
Proof.
  revert removed failed d cache. induction hs as [|h hs IH]; intros removed failed d cache; cbn [remove_tables]; [by intros [= <-] |].
  intros H Hp. pose proof (Hp h ltac:(by left)) as Hh.
  destruct (match d !! Path (h_meta h) with Some _ => _ | None => _ end) as [[r' f'] d1] eqn:E.
  apply bind_Some in H as (c & _ & H). rewrite (IH _ _ _ _ H) by (intros h' Hh'; apply Hp; by right).
  destruct (d !! Path (h_meta h)) eqn:E1; [destruct (e_remove e (Path (h_meta h))) |]; injection E as <- <- <-; try done.
  by apply lookup_delete_ne.
Qed.

(** The names of the tables. *)
Definition tables_named (db : DB) : Prop := forall h, h ∈ sstables db -> exists id, named id (Path (h_meta h)).

Lemma inv_tables_named (db : DB) g : inv db g -> tables_named db.
Proof. intros Hi h Hh. destruct (inv_named _ _ _ _ Hi Hh) as (Hn & _). by exists (h_ID h). Qed.

(** Only files that are not segments change, and the counter of tables. *)
Lemma durable_unpublished stale clean (db db' : DB) :
  durable stale clean db -> same_logs db db' -> dir db' !! manifest_path = dir db !! manifest_path ->
  SSTables (manifest db') = SSTables (manifest db) -> durable stale clean db'.
Proof.
  intros Hd Hs Hm Ht. apply (durable_frame _ _ db); [done | done |]. eapply saved_same; [apply Hd | done | done |].
  rewrite (sl_next _ _ Hs). done.
Qed.

Lemma same_logs_refl (db : DB) : same_logs db db.
Proof. constructor; done || apply same_segments_refl. Qed.

Lemma named_ne id path : named id path -> path <> manifest_path.
Proof. intros [-> | ->]; apply (names_apart id id). Qed.

Lemma same_logs_dir (db : DB) d : same_segments (dir db) d -> same_logs db (set_dir d db).
Proof. intros H. by constructor. Qed.

Lemma publish_durable stale clean (e : env) plan id path meta (db : DB) r db' :
  publish_compaction e plan id path meta db = Some (r, db') -> tables_named db -> named id path -> durable stale clean db ->
  durable stale clean db'.
Proof.
  intros H Hn Hp Hd. unfold publish_compaction in H.
  cbn [manifest set_tables set_nextID set_manifest dir SSTables NextSSTableID NextWALSegmentID sstables set_dir] in H.
  assert (Hw : 0 <= NextWALSegmentID (manifest db)) by (rewrite <- (du_next _ _ _ Hd); apply (du_ids _ _ _ Hd)).
  match type of H with context [Write ?o ?p (Some ?m) ?d] =>
    pose proof (Write_saved o m d (u64_range _) Hw) as Hs; pose proof (same_segments_Write o (Some m) d) as Hseg;
    destruct (Write o p (Some m) d) as [err d1] end.
  cbn [snd] in Hseg. destruct err as [[err|]|].
  - destruct (e_remove e path); injection H as <- <-.
    + by apply (durable_unpublished _ _ db).
    + apply (durable_unpublished _ _ db); try done.
      * constructor; try done. eapply same_segments_trans; [exact Hseg |]. by eapply same_segments_delete, named_parse.
      * simpl. rewrite lookup_delete_ne; [done |]. by eapply named_ne.
  - injection H as <- <-. apply (durable_frame _ _ db); [done | by constructor | apply Hs].
  - apply bind_Some in H as ([[[rm fl] d2] c2] & E & H). injection H as <- <-.
    pose proof (fun p => remove_tables_frame _ _ _ _ _ _ _ p E) as Hf. cbn [fst snd] in Hf.
    assert (Hkeep : forall p, (forall i, named i p -> False) -> d2 !! p = d1 !! p).
    { intros p Hp'. apply Hf. intros h [_ Hh]%list_elem_of_filter Heq. destruct (Hn h Hh) as (i & Hi). rewrite Heq in Hi. by eapply Hp'. }
    apply (durable_frame _ _ db); [done | |].
    + constructor; try done. intros p Hseg'. simpl. rewrite Hkeep; [by apply Hseg |].
      intros i Hi%named_parse. rewrite Hi in Hseg'. by apply is_Some_None in Hseg'.
    + eapply saved_same; [exact Hs | | done | done]. simpl. apply Hkeep. intros i Hi. by apply (named_ne _ _ Hi).
Qed.

Lemma compact_durable stale clean (e : env) threshold (db : DB) g r db' :
  compactLocked Hash128 math_Log conv fuel e threshold db = Some (r, db') -> inv db g -> durable stale clean db -> durable stale clean db'.
Proof.
  unfold compactLocked. intros H Hi Hd. apply bind_Some in H as (plan & _ & H). destruct plan as [plan|]; [| by injection H as <- <-].
  destruct (negb _); [by injection H as <- <- |]. destruct (mapM _ _) as [inputs|]; [| by injection H as <- <-].
  apply bind_Some in H as ([m cache] & _ & H). cbn zeta in H. destruct m as [[meta file]|err]; [| injection H as <- <-; by destruct Hd].
  set (path := compact_path (NextSSTableID (manifest db))) in *. assert (Hp : named (NextSSTableID (manifest db)) path) by by right.
  assert (Hd1 : durable stale clean (set_blockCache cache db)) by by destruct Hd.
  assert (Hd2 : durable stale clean (set_dir (<[path := file]> (dir db)) (set_blockCache cache db))).
  { apply (durable_unpublished _ _ (set_blockCache cache db)); try done.
    - constructor; try done. by eapply same_segments_insert, named_parse.
    - simpl. apply lookup_insert_ne. by eapply named_ne. }
  unfold install in H. cbn [dir set_blockCache] in H. destruct (e_create e) as [[]|].
  - injection H as <- <-. by destruct Hd1.
  - by injection H as <- <-.
  - eapply publish_durable; [exact H | | exact Hp | exact Hd2]. exact (inv_tables_named _ _ Hi).
Qed.

Lemma rounds_durable (n : Z) stale clean k (es : nat -> env) (db : DB) g db' :
  compaction_rounds Hash128 math_Log conv k fuel es db = Some db' -> inv db g -> fits fuel n (g_hist g) ->
  sizing_fits math_Log conv n (sstableWriteOptions db) -> NextSSTableID (manifest db) + Z.of_nat k <= u64_max ->
  durable stale clean db -> durable stale clean db'.
Proof.
  revert db g. induction k as [|k IH]; intros db g; [done |]. cbn [compaction_rounds].
  intros H Hi Hf Hsz Hk Hd. pose proof Hf as (F1 & F2 & F3).
  apply bind_Some in H as (work & _ & H). destruct (negb work); [by injection H as <- |].
  apply bind_Some in H as ([r db1] & E & H). pose proof (compact_durable _ _ _ _ _ _ _ _ E Hi Hd) as Hd1.
  destruct (compactLocked_inv Hash128 math_Log conv n fuel (es k) (compactionThreshold db) db g Hi F1 F2 Hsz F3 ltac:(lia))
    as (r1 & db2 & g1 & E1 & Hi1 & [K1 (_ & _ & _ & _ & K2) _ K3 _] & _).
  rewrite E in E1. injection E1 as <- <-. destruct r; [| by injection H as <-].
  eapply IH; [exact H | exact Hi1 | by rewrite K1 | by rewrite K2 | lia | exact Hd1].
Qed.

(** ** Writes *)

(** The memtable of a write, with its log. *)
Lemma durable_replace stale clean c (db db' : DB) mt l file :
  durable stale clean db -> Forall (fun imm => im_table imm <> memtable db) (immutableMemtables db) ->
  vt_repr mt l -> logged c file l ->
  memtables db' = <[memtable db := mt]> (memtables db) -> memtable db' = memtable db -> immutableMemtables db' = immutableMemtables db ->
  walID db' = walID db -> manifest db' = manifest db -> dir db' = <[SegmentPath (walID db) := file]> (dir db) ->
  durable stale c db'.
Proof.
  intros Hd Hap Hr Hl E1 E2 E3 E4 E5 E6. destruct (du_ids _ _ _ Hd) as [Hu1 Hu2]. destruct Hd.
  assert (Hs : live_segments stale db' = live_segments stale db) by (unfold live_segments; by rewrite E3, E4).
  constructor; rewrite ?Hs, ?E1, ?E2, ?E3, ?E4, ?E5, ?E6; try done.
  - eapply saved_same; [done | | done | done]. apply lookup_insert_ne. apply (names_apart (walID db) 0).
  - rewrite Forall_forall in du_imms0, Hap, Hu2 |- *. intros imm Hi.
    destruct (du_imms0 imm Hi) as (mt1 & l1 & f1 & H1 & H2 & H3 & H4). exists mt1, l1, f1. specialize (Hap _ Hi).
    rewrite list_lookup_insert_ne by done. split; [done |]. split; [done |]. split; [| done]. rewrite lookup_insert_ne; [done |].
    intros Heq%SegmentPath_inj; [| done | by apply Hu2].
    apply StronglySorted_app in du_sorted0 as (_ & _ & Hss). apply StronglySorted_app in Hss as (Hlt & _ & _).
    specialize (Hlt (im_walID imm) (walID db) ltac:(by apply list_elem_of_fmap_2) ltac:(by left)). lia.
  - exists mt, l, file. split; [| by rewrite lookup_insert_eq]. destruct du_active0 as (mt0 & _ & _ & H0 & _).
    apply list_lookup_insert_eq. by eapply lookup_lt_Some.
  - intros path id Hp Hid. destruct (decide (path = SegmentPath (walID db))) as [-> | Hne].
    + rewrite parse_SegmentPath in Hid by done. injection Hid as <-. split; [done |]. unfold live_segments. set_solver.
    + apply du_only0; [| done]. by rewrite lookup_insert_ne in Hp.
Qed.

Lemma wal_write_spec (e : env) w recs puts stale (db : DB) mt l :
  durable stale true db -> memtables db !! memtable db = Some mt -> vt_repr mt l -> (forall file, w file = (None, file ++ frames recs)) ->
  Forall wf_record recs -> Forall numbered recs -> all_or_nothing recs puts ->
  exists r file, wal_write e w db = (r, set_dir (<[SegmentPath (walID db) := file]> (dir db)) db) /\
    match r with Ok _ => logged true file (list_puts puts l) | Err _ => is_Some (e_append e) /\ logged false file l end.
Proof.
  intros Hd Hm Hr Hw Hwf Hn Ha. destruct (du_active _ _ _ Hd) as (mt0 & l0 & file & H1 & H2 & H3 & H4).
  rewrite Hm in H1. injection H1 as <-. assert (l0 = l) as -> by (apply vt_records_ok in Hr, H2; congruence).
  unfold wal_write. rewrite H3. change (default [] (Some file)) with file. rewrite Hw. cbn zeta.
  pose proof (logged_append file l recs puts H4 Hwf Hn Ha) as Hall.
  destruct (e_append e) as [k|]; [| by eexists _, _].
  destruct (Nat.ltb_spec k (length (file ++ frames recs) - length file)) as [Hk | Hk]; [| by eexists _, _].
  eexists _, _. split; [reflexivity |]. split; [done |]. rewrite length_app in Hk. rewrite take_app_add.
  apply (logged_torn file l recs puts _ (drop k (frames recs))); try done; [by rewrite take_drop |].
  intros He. apply (f_equal length) in He. rewrite length_drop in He. simpl in He. lia.
Qed.

Lemma durable_any stale c (db : DB) : durable stale true db -> durable stale c db.
Proof. destruct c; [done | apply durable_weaken]. Qed.

(** The active segment is the last one. *)
Lemma live_bound stale clean (db : DB) id : durable stale clean db -> id ∈ live_segments stale db -> id <= walID db.
Proof.
  intros Hd Hin. pose proof (du_sorted _ _ _ Hd) as Hs. unfold live_segments in *. rewrite app_assoc in Hs, Hin.
  apply StronglySorted_app in Hs as (Hlt & _ & _). apply elem_of_app in Hin as [Hin | ->%list_elem_of_singleton]; [| done].
  specialize (Hlt id (walID db) Hin ltac:(by left)). lia.
Qed.

(** [db'] has a new memtable with a new segment. *)
Record rotated (db db' : DB) : Prop := mkRotated {
  ro_heap : exists mt, memtables db' = memtables db ++ [mt] /\ vt_repr mt [];
  ro_memtable : memtable db' = length (memtables db);
  ro_imms : exists addr, immutableMemtables db' = immutableMemtables db ++ [mkImm addr (memtable db) (walID db)];
  ro_wal : walID db' = walID db + 1;
  ro_next : NextWALSegmentID (manifest db') = walID db + 1;
  ro_tables : SSTables (manifest db') = SSTables (manifest db);
  ro_dir : dir db' = <[SegmentPath (walID db + 1) := writeWALHeader]> (dir db);
}.

Lemma next_segment_free stale clean (db : DB) :
  durable stale clean db -> walID db < u64_max -> dir db !! SegmentPath (walID db + 1) = None.
Proof.
  intros Hd Hw. destruct (du_ids _ _ _ Hd) as [Hu _]. unfold is_u64 in Hu.
  destruct (dir db !! SegmentPath (walID db + 1)) eqn:E; [| done].
  destruct (du_only _ _ _ Hd (SegmentPath (walID db + 1)) (walID db + 1)) as [_ Hin]; [by rewrite E | apply parse_SegmentPath; unfold is_u64; lia |].
  pose proof (live_bound _ _ _ _ Hd Hin). lia.
Qed.

Lemma rotate_rotated stale clean (e : env) (db : DB) :
  mild e = true -> NextWALSegmentID (manifest db) < u64_max -> closed db = false -> durable stale clean db ->
  exists db', rotateMemtable e db = Some (Ok tt, db') /\ rotated db db'.
Proof.
  intros [He Hc]%mild_true Hw Hcl Hd. pose proof (du_next _ _ _ Hd) as Hnx. destruct (du_ids _ _ _ Hd) as [Hu _]. unfold is_u64 in Hu.
  unfold rotateMemtable. cbn [set_nextWAL set_manifest set_allocated set_immutableMemtables manifest NextWALSegmentID dir walID allocated memtable].
  rewrite u64_id by (unfold is_u64; lia). rewrite <- Hnx. rewrite <- Hnx in Hw.
  rewrite NewSegmentInDir_new by (done || by eapply next_segment_free).
  destruct (vt_new_ok (T := MemTable) (e_seed e)) as (mt & Hnew & Hr). rewrite (Hnew : MemTable_New _ = _). cbn [mbind option_bind].
  rewrite Hc. unfold signalFlush. cbn [closed set_walID set_memTableSize set_memtables set_memtable set_dir set_nextWAL set_manifest set_allocated set_immutableMemtables].
  rewrite Hcl. cbn [mbind option_bind]. eexists. split; [reflexivity |]. constructor; simpl; try done; [by exists mt | by eexists].
Qed.

Lemma rotated_segments stale (db db' : DB) : rotated db db' -> live_segments stale db' = live_segments stale db ++ [walID db + 1].
Proof.
  intros []. unfold live_segments. destruct ro_imms0 as (addr & ->). rewrite ro_wal0, fmap_app, <- !app_assoc. done.
Qed.

Lemma durable_rotated stale clean (db db' : DB) :
  durable stale clean db -> walID db < u64_max -> rotated db db' -> durable stale true db'.
Proof.
  intros Hd Hw Hro. destruct (du_ids _ _ _ Hd) as [Hu1 Hu2]. pose proof Hu1 as Hu. unfold is_u64 in Hu.
  pose proof (rotated_segments stale db db' Hro) as Hs. destruct Hro as [(mt & R1 & Hr) R2 (addr & R3) R4 R5 R6 R7].
  assert (Hkeep : forall c addr id, is_u64 id -> id <= walID db -> log_ok c (dir db) (memtables db) addr id ->
    log_ok false (dir db') (memtables db') addr id).
  { intros c addr' id Hid Hle (mt1 & l1 & f1 & H1 & H2 & H3 & H4). exists mt1, l1, f1. rewrite R1, R7.
    rewrite lookup_app_l by (by eapply lookup_lt_Some). rewrite lookup_insert_ne by (intros Heq%SegmentPath_inj; done || (unfold is_u64; lia)).
    split_and!; try done. by eapply logged_weaken. }
  constructor; rewrite ?Hs.
  - eapply saved_same; [apply Hd | | done | rewrite R5, <- (du_next _ _ _ Hd); lia]. rewrite R7. apply lookup_insert_ne. apply (names_apart (walID db + 1) 0).
  - rewrite R3. apply Forall_app. split; [| constructor; [| constructor]].
    + pose proof (du_imms _ _ _ Hd) as Him. rewrite Forall_forall in Him, Hu2 |- *. intros imm Hi. eapply Hkeep; [by apply Hu2 | | by apply Him].
      apply (live_bound _ _ _ _ Hd). unfold live_segments. rewrite !elem_of_app. right. left. by apply list_elem_of_fmap_2.
    + eapply Hkeep; [done | done | apply Hd].
  - exists mt, [], writeWALHeader. rewrite R1, R2, R4, R7. split; [by apply list_lookup_middle |]. split; [done |].
    split; [apply lookup_insert_eq | apply logged_new].
  - apply StronglySorted_app. split; [| split; [apply Hd | repeat constructor]].
    intros x y Hx ->%list_elem_of_singleton. pose proof (live_bound _ _ _ _ Hd Hx). lia.
  - apply Forall_app. split; [apply Hd |]. constructor; [| constructor]. unfold is_u64. lia.
  - intros path id Hp Hid. rewrite elem_of_app. rewrite R7 in Hp. destruct (decide (path = SegmentPath (walID db + 1))) as [-> | Hne].
    + rewrite parse_SegmentPath in Hid by (unfold is_u64; lia). injection Hid as <-. split; [done |]. right. by left.
    + rewrite lookup_insert_ne in Hp by done. destruct (du_only _ _ _ Hd path id Hp Hid). split; [done | by left].
  - by rewrite R4, R5.
Qed.

Lemma rotate_durable stale clean (e : env) (db : DB) r db' :
  maybe_rotate e db = Some (r, db') -> mild e = true -> NextWALSegmentID (manifest db) < u64_max -> closed db = false ->
  durable stale clean db -> durable stale clean db'.
Proof.
  unfold maybe_rotate. destruct (_ >=? _); [| by intros [= <- <-]]. intros H Hm Hw Hcl Hd.
  destruct (rotate_rotated _ _ _ _ Hm Hw Hcl Hd) as (db1 & E & Hro). rewrite E in H. injection H as <- <-.
  apply durable_any. eapply durable_rotated; [exact Hd | by rewrite (du_next _ _ _ Hd) | exact Hro].
Qed.

Lemma memtable_puts_repr recs (db : DB) mt l :
  memtables db !! memtable db = Some mt -> vt_repr mt l ->
  exists mt' size, memtable_puts recs db = Some (set_memTableSize size (set_memtables (<[memtable db := mt']> (memtables db)) db)) /\
    vt_repr mt' (list_puts recs l).
Proof.
  revert db mt l. induction recs as [|rec recs IH]; intros db mt l Hm Hr.
  - exists mt, (memTableSize db). split; [| done]. cbn [memtable_puts]. rewrite list_insert_id by done. by destruct db.
  - cbn [memtable_puts]. unfold memtable_put. rewrite Hm. destruct (vt_put_ok rec mt l Hr) as (mt1 & E & Hr1).
    cbn [mbind option_bind]. rewrite (E : MemTable_Put _ _ = _). cbn [mbind option_bind].
    match goal with |- context [memtable_puts recs ?x] => destruct (IH x mt1 _ ltac:(apply list_lookup_insert_eq; by eapply lookup_lt_Some) Hr1)
      as (mt2 & size & -> & Hr2) end.
    exists mt2, size. split; [| done]. unfold set_memTableSize, set_memtables. simpl. by rewrite list_insert_insert_eq.
Qed.

(** The append to the log does not fail. *)
Definition append_ok (e : env) : bool := bool_decide (e_append e = None).

Lemma inv_apart (db : DB) g : inv db g -> Forall (fun imm => im_table imm <> memtable db) (immutableMemtables db).
Proof.
  intros Hi. destruct (inv_mem _ _ _ Hi) as [_ Him]. apply Forall_forall. intros imm [i Hl]%list_elem_of_lookup.
  destruct (Forall2_lookup_l _ _ _ _ _ Him Hl) as (l & _ & Hne & _). done.
Qed.

(** What every write does: frames, puts, rotation. *)
Section write.
Context (stale : option Z) (e : env) (db : DB) (g : ghost).
Context (Hi : inv db g) (Hd : durable stale true db) (Hcl : closed db = false) (Hm : mild e = true)
  (Hw : NextWALSegmentID (manifest db) < u64_max).
Context (w : bytes -> option wal_error * bytes) (recs puts : list record).
Context (Hfr : forall file, w file = (None, file ++ frames recs)) (Hwf : Forall wf_record recs) (Hn : Forall numbered recs)
  (Ha : all_or_nothing recs puts).

(** The log was written or not; in the first case the puts follow. *)
Lemma write_durable :
  exists r d, wal_write e w db = (r, set_dir d db) /\
    match r with
    | Err _ => durable stale (append_ok e) (set_dir d db)
    | Ok _ => exists heap size, memtable_puts puts (set_dir d db) = Some (set_memTableSize size (set_memtables heap (set_dir d db))) /\
        durable stale true (set_memtables heap (set_dir d db))
    end.
Proof.
  destruct (du_active _ _ _ Hd) as (mt & l & _ & H1 & H2 & _). pose proof (inv_apart _ _ Hi) as Hap.
  destruct (wal_write_spec e w recs puts stale db mt l Hd H1 H2 Hfr Hwf Hn Ha) as (r & file & E & Hr).
  exists r. eexists. split; [exact E |]. destruct r as [[]|err].
  - match goal with |- context [memtable_puts puts ?x] => destruct (memtable_puts_repr puts x mt l H1 H2) as (mt' & size & -> & Hr') end.
    eexists _, size. split; [reflexivity |]. by eapply (durable_replace stale true true db).
  - destruct Hr as [[n Hn'] Hl]. unfold append_ok. rewrite Hn'. simpl.
    eapply (durable_replace stale true false db _ mt l file); try done. simpl. symmetry. by apply list_insert_id.
Qed.

Lemma rotate_any (db' : DB) r db2 :
  maybe_rotate e db' = Some (r, db2) -> durable stale true db' -> closed db' = false -> manifest db' = manifest db ->
  durable stale (append_ok e) db2.
Proof. intros H H1 H2 H3. apply durable_any. eapply rotate_durable; try done. by rewrite H3. Qed.

End write.

Lemma write_one_durable stale (e : env) rec (db : DB) g r db' :
  inv db g -> durable stale true db -> closed db = false -> mild e = true -> NextWALSegmentID (manifest db) < u64_max ->
  fresh_record (nextSeq db) rec -> write_one e rec db = Some (r, db') -> durable stale (append_ok e) db'.
Proof.
  intros Hi Hd Hcl Hm Hw (Hwf & Hst & Hsq) H.
  assert (Hb : BatchKind rec = BatchNone /\ BatchID rec = 0) by (rewrite <- Hst; done).
  destruct (write_durable stale e db g Hi Hd (WriteRecord rec) [rec] [rec]) as (r1 & d & E & Hres).
  - intros file. unfold WriteRecord. rewrite frame_wf by done. unfold frames. cbn. by rewrite app_nil_r.
  - by constructor.
  - constructor; [| constructor]. split; [lia |]. rewrite (proj2 Hb). done.
  - apply record_atomic, Hb.
  - unfold write_one in H. rewrite E in H. destruct r1 as [[]|err]; [| by injection H as <- <-].
    destruct Hres as (heap & size & Ep & Hd1). cbn [memtable_puts] in Ep. cbn zeta in H. rewrite memtable_put_seq in H.
    destruct (memtable_put rec (set_dir d db)) as [db1|]; [| done]. cbn [mbind option_bind] in Ep. cbn [mbind option_bind fmap option_fmap option_map] in H.
    apply Some_inj in Ep. eapply (rotate_any stale e db Hm Hw); [exact H | | |].
    + apply (durable_core _ _ (set_memtables heap (set_dir d db))); [| done]. apply (f_equal core) in Ep. exact Ep.
    + apply (f_equal closed) in Ep. exact (eq_trans Ep Hcl).
    + apply (f_equal manifest) in Ep. exact Ep.
Qed.

Lemma batch_writes_strip ops n : strip_batch <$> batch_writes n ops = batch_writes n ops.
Proof. revert n. induction ops as [|op ops IH]; intros n; [done |]. cbn [batch_writes fmap list_fmap]. f_equal. apply IH. Qed.

Lemma batch_numbered ops n :
  0 <= n -> n + len ops < u64_max -> Forall numbered (batch_records n (batch_writes n ops)).
Proof.
  intros Hn Hlen. pose proof (len_nonneg ops). unfold batch_records.
  constructor; [split; done || simpl; lia |]. apply Forall_app. split; [| constructor; [split; done || simpl; lia | constructor]].
  apply Forall_fmap. eapply Forall_impl; [by apply batch_writes_range; lia |]. intros r Hr. cbn beta in Hr. split; unfold set_batch; rec_simpl; lia.
Qed.

Lemma applyBatch_durable stale (e : env) ops sync (db : DB) g r db' :
  inv db g -> durable stale true db -> mild e = true -> NextWALSegmentID (manifest db) < u64_max ->
  Forall op_ok ops -> nextSeq db + len ops < u64_max -> sync && e_sync e = false ->
  applyBatch e ops sync db = Some (r, db') -> durable stale (append_ok e) db'.
Proof.
  intros Hi Hd Hm Hw Hops Hlen Hsync H. unfold applyBatch in H. pose proof (inv_seq _ _ _ Hi) as Hsq.
  destruct (closed db) eqn:Hcl; [injection H as <- <-; by apply durable_any |].
  set (recs := batch_writes (nextSeq db) ops) in *.
  pose proof (batch_writes_wf ops (nextSeq db) Hops ltac:(lia) ltac:(lia)) as Hwf. fold recs in Hwf.
  destruct (write_durable stale e db g Hi Hd (WriteBatch (nextSeq db) recs) (batch_records (nextSeq db) recs) recs) as (r1 & d & E & Hres).
  - intros file. apply WriteRecords_wf, wf_batch_records; [unfold is_u64; lia | done].
  - apply wf_batch_records; [unfold is_u64; lia | done].
  - apply batch_numbered; lia.
  - apply batch_atomic, batch_writes_strip.
  - rewrite E in H. destruct r1 as [[]|err]; [| by injection H as <- <-]. rewrite Hsync in H. cbn [mbind result_bind guard_err] in H.
    destruct Hres as (heap & size & Ep & Hd1). rewrite Ep in H. cbn [mbind option_bind] in H.
    eapply (rotate_any stale e db Hm Hw); [exact H | | |].
    + apply (durable_core _ _ (set_memtables heap (set_dir d db))); [| done]. by destruct (len recs =? 0).
    + by destruct (len recs =? 0).
    + by destruct (len recs =? 0).
Qed.

(** ** Flushes *)

Lemma flush_begin_durable stale clean (db : DB) : durable stale clean db -> durable stale clean (flush_begin db).2.
Proof. intros Hd. by apply (durable_unpublished _ _ db). Qed.

Lemma flush_create_durable stale clean (e : env) imm id (db : DB) r db' :
  flush_create Hash128 math_Log conv e imm id db = Some (r, db') -> durable stale clean db -> durable stale clean db'.
Proof.
  unfold flush_create. intros H Hd. apply bind_Some in H as (mt & _ & H). apply bind_Some in H as (c & _ & H).
  destruct c as [[meta file]|err]; [| injection H as <- <-; by apply (durable_unpublished _ _ db)].
  assert (Hd1 : durable stale clean (set_dir (<[data_path id := file]> (dir db)) db)).
  { apply (durable_unpublished _ _ db); try done.
    - apply same_logs_dir, same_segments_insert, (named_parse id). by left.
    - simpl. apply lookup_insert_ne, (named_ne id). by left. }
  unfold install in H. destruct (e_create e) as [[]|]; injection H as <- <-.
  - by apply (durable_unpublished _ _ db).
  - by apply (durable_unpublished _ _ (set_dir (<[data_path id := file]> (dir db)) db)).
  - done.
Qed.

(** Publication makes the segment of the memtable superfluous. *)
Lemma durable_flushed clean (db db' : DB) imm imms :
  durable None clean db -> immutableMemtables db = imm :: imms -> memtables db' = memtables db -> memtable db' = memtable db ->
  immutableMemtables db' = imms -> walID db' = walID db -> NextWALSegmentID (manifest db') = NextWALSegmentID (manifest db) ->
  same_segments (dir db) (dir db') -> saved (dir db') (manifest db') -> durable (Some (im_walID imm)) clean db'.
Proof.
  intros Hd Himm E1 E2 E3 E4 E5 Hseg Hs. destruct (du_ids _ _ _ Hd) as [Hu1 Hu2]. destruct Hd.
  assert (Hl : live_segments (Some (im_walID imm)) db' = live_segments None db) by (unfold live_segments; by rewrite Himm, E3, E4).
  rewrite Himm in *. constructor; rewrite ?Hl, ?E1, ?E2, ?E3, ?E4, ?E5; try done.
  - apply Forall_cons in du_imms0 as [_ H]. apply Forall_cons in Hu2 as [_ Hu2]. rewrite Forall_forall in H, Hu2 |- *.
    intros imm' Hi'. eapply log_ok_frame; [by apply Hu2 | exact Hseg | by apply H].
  - by eapply log_ok_frame.
  - intros path id Hp' Hid. apply du_only0; [| done]. by rewrite <- (Hseg path) by by rewrite Hid.
Qed.

Lemma flush_publish_durable clean (e : env) imm imms meta (db : DB) g :
  immutableMemtables db = imm :: imms -> inv db g -> named (ID meta) (Path meta) ->
  f_syncParent (e_manifest e) = false -> durable None clean db ->
  exists r db', flush_publish e imm meta db = Some (r, db') /\
    match r with Ok _ => durable (Some (im_walID imm)) clean db' | Err _ => durable None clean db' end.
Proof.
  intros Himm Hi Hp Hsy Hd. unfold flush_publish.
  cbn [manifest set_tables set_nextID set_manifest dir SSTables NextSSTableID NextWALSegmentID sstables set_sstables set_dir immutableMemtables].
  assert (Hw : 0 <= NextWALSegmentID (manifest db)) by (rewrite <- (du_next _ _ _ Hd); apply (du_ids _ _ _ Hd)).
  match goal with |- context [Write ?o ?p (Some ?m) ?d] =>
    pose proof (Write_saved o m d (io_u64 _ _ (inv_ids _ _ _ Hi)) Hw) as Hs; pose proof (same_segments_Write o (Some m) d) as Hseg;
    destruct (Write o p (Some m) d) as [err d1] end.
  cbn [snd] in Hseg. destruct err as [[err|]|].
  - eexists _, _. split; [reflexivity |]. destruct (e_remove e (Path meta)).
    + by apply (durable_unpublished _ _ db).
    + apply (durable_unpublished _ _ db); try done.
      * constructor; try done. eapply same_segments_trans; [exact Hseg |]. by eapply same_segments_delete, named_parse.
      * simpl. rewrite lookup_delete_ne; [done |]. by eapply named_ne.
  - destruct Hs as [Hs _]. by rewrite Hsy in Hs.
  - rewrite Himm, Nat.eqb_refl. eexists _, _. split; [reflexivity |]. by apply (durable_flushed clean db _ imm imms).
Qed.

(** ... and it is removed. *)
Lemma flush_finish_durable clean (e : env) imm (db : DB) :
  (forall id, e_remove e (SegmentPath id) = false) -> durable (Some (im_walID imm)) clean db -> durable None clean (flush_finish e imm db).2.
Proof.
  intros He Hd. assert (Hrm : durable None clean (set_dir (delete (SegmentPath (im_walID imm)) (dir db)) db)).
  { destruct (du_ids _ _ _ Hd) as [Hu1 Hu2]. destruct Hd. unfold live_segments in *. cbn [option_list app] in *.
    apply Forall_cons in du_u65 as [Hu Hus]. apply StronglySorted_inv in du_sorted0 as [Hss Hlt].
    assert (Hne : forall id, is_u64 id -> id ∈ (im_walID <$> immutableMemtables db) ++ [walID db] -> SegmentPath (im_walID imm) <> SegmentPath id).
    { intros id Hid Hin Heq%SegmentPath_inj; [| done | done]. rewrite Forall_forall in Hlt. specialize (Hlt id Hin). lia. }
    constructor; simpl; try done.
    - eapply saved_same; [done | | done | done]. apply lookup_delete_ne. apply (names_apart (im_walID imm) 0).
    - rewrite Forall_forall in du_imms0, Hu2 |- *. intros imm' Hi'. destruct (du_imms0 imm' Hi') as (mt & l & f & H1 & H2 & H3 & H4).
      exists mt, l, f. rewrite lookup_delete_ne; [done |]. apply Hne; [by apply Hu2 |]. apply elem_of_app. left. by apply list_elem_of_fmap_2.
    - destruct du_active0 as (mt & l & f & H1 & H2 & H3 & H4). exists mt, l, f. rewrite lookup_delete_ne; [done |].
      apply Hne; [done |]. apply elem_of_app. right. by left.
    - intros path id [f Hp] Hid. apply lookup_delete_Some in Hp as [Hne' Hp].
      destruct (du_only0 path id ltac:(by eexists) Hid) as [-> [-> | Hin]%elem_of_cons]; done. }
  unfold flush_finish, RemoveSegmentInDir. rewrite He. destruct (dir db !! SegmentPath (im_walID imm)) eqn:E.
  - unfold RemoveSegment. destruct (e_removeSync e); simpl; [done |]. by destruct Hrm.
  - rewrite delete_id in Hrm by done. simpl. destruct Hrm. by constructor.
Qed.

(** ** Events *)

(** Between publication and removal a segment is superfluous. *)
Definition stale_segment (f : flusher) : option Z := match f with FPublished _ imm => Some (im_walID imm) | _ => None end.

Definition durable_sys (clean : bool) (s : sys) : Prop := durable (stale_segment (s_flusher s)) clean (s_db s).

(** No segment outlives its memtable, and no batch is in the log that was
    reported as failed. *)
Definition bearable (ev : event) : Prop :=
  match ev with
  | EBatch e _ sync => sync && e_sync e = false
  | EFlusher e => f_syncParent (e_manifest e) = false /\ forall id, e_remove e (SegmentPath id) = false
  | _ => True
  end.

Definition is_write (ev : event) : bool := match ev with EPut _ _ _ | EDelete _ _ | EBatch _ _ _ => true | _ => false end.

(** The append to the log, if any, does not fail. *)
Definition appends (ev : event) : bool := match ev with EPut e _ _ | EDelete e _ | EBatch e _ _ => append_ok e | _ => true end.

(** A write whose append fails is the last one. *)
Fixpoint bearable_run (clean : bool) (evs : list event) : Prop :=
  match evs with
  | [] => True
  | ev :: evs => bearable ev /\ (is_write ev = true -> clean = true) /\ bearable_run (clean && appends ev) evs
  end.

Section events.
Context (lim : LimitsOptions) (opts : WriteOptions) (n : Z) (Hsizing : sizing_fits math_Log conv n opts).
Context (s : sys) (a : astate) (g : ghost) (Hs : sim Hash128 fuel lim opts s a g).
Local Abbreviation exec := (exec Hash128 math_Log conv fuel).

Section writes.
Context (Hd : durable_sys true s).

Lemma single_durable (e : env) op r db' :
  let rec := mkRecord (op_Key op) (nextSeq (s_db s)) (mkEntry (op_Value op) (op_Deleted op)) 0 BatchNone in
  nextSeq (s_db s) < u64_max -> NextWALSegmentID (manifest (s_db s)) < u64_max -> mild e = true -> closed (s_db s) = false ->
  op_ok op -> write_one e rec (s_db s) = Some (r, db') -> durable_sys (append_ok e) (set_db db' s).
Proof.
  intros rec Hq Hw Hm Hcl Hop H. pose proof (inv_seq _ _ _ (sim_inv _ _ _ _ _ _ _ Hs)) as Hq'.
  eapply write_one_durable; [apply (sim_inv _ _ _ _ _ _ _ Hs) | exact Hd | done | exact Hm | done | | exact H].
  pose proof (batch_writes_wf [op] (nextSeq (s_db s)) ltac:(by apply Forall_singleton) ltac:(lia) ltac:(unfold len; simpl; lia)) as Hwf.
  cbn [batch_writes] in Hwf. rewrite u64_id in Hwf by (unfold is_u64; lia). apply Forall_cons in Hwf as [Hwf _].
  split; [exact Hwf |]. split; [done | subst rec; rec_simpl; lia].
Qed.

(** A write that is refused for its arguments. *)
Lemma refused_durable c : durable_sys c (set_db (s_db s) s).
Proof. rewrite set_db_same. by apply durable_any. Qed.

Lemma put_durable (e : env) key value out s' :
  headroom (EPut e key value) (s_db s) = true -> mild e = true -> exec (EPut e key value) s = Some (out, s') -> durable_sys (append_ok e) s'.
Proof.
  intros (Hq & Hw & _)%headroom_spec Hm H. rewrite Z.add_0_r in Hq. pose proof (sim_limits _ _ _ _ _ _ _ Hs) as Hl.
  cbn [DbSystem.exec] in H. apply bind_Some in H as ([r db'] & E & H). injection H as <- <-. unfold DB_Put in E.
  destruct (closed (s_db s)) eqn:Hcl; [injection E as <- <-; apply refused_durable |].
  rewrite (validateKey_spec lim), (validateValue_spec lim) in E by done.
  destruct (too_large lim key) eqn:Ek; [injection E as <- <-; apply refused_durable |].
  destruct (too_large_value lim value) eqn:Ev; [injection E as <- <-; apply refused_durable |].
  eapply (single_durable e (mkOp key value false)); try done.
  split; [by eapply key_fits | by eapply value_fits].
Qed.

Lemma delete_durable (e : env) key out s' :
  headroom (EDelete e key) (s_db s) = true -> mild e = true -> exec (EDelete e key) s = Some (out, s') -> durable_sys (append_ok e) s'.
Proof.
  intros (Hq & Hw & _)%headroom_spec Hm H. rewrite Z.add_0_r in Hq. pose proof (sim_limits _ _ _ _ _ _ _ Hs) as Hl.
  cbn [DbSystem.exec] in H. apply bind_Some in H as ([r db'] & E & H). injection H as <- <-. unfold DB_Delete in E.
  destruct (closed (s_db s)) eqn:Hcl; [injection E as <- <-; apply refused_durable |].
  rewrite (validateKey_spec lim) in E by done. destruct (too_large lim key) eqn:Ek; [injection E as <- <-; apply refused_durable |].
  eapply (single_durable e (mkOp key [] true)); try done. split; [by eapply key_fits | done].
Qed.

Lemma batch_durable (e : env) ops sync out s' :
  headroom (EBatch e ops sync) (s_db s) = true -> mild e = true -> sync && e_sync e = false ->
  exec (EBatch e ops sync) s = Some (out, s') -> durable_sys (append_ok e) s'.
Proof.
  intros (Hq & Hw & _)%headroom_spec Hm Hsync H. pose proof (sim_limits _ _ _ _ _ _ _ Hs) as Hl.
  cbn [DbSystem.exec] in H. apply bind_Some in H as ([r db'] & E & H). injection H as <- <-. unfold write_batch in E.
  pose proof (fill_batch_spec lim (s_db s) ops NewBatch Hl eq_refl) as Hfill. cbn [operations sizeBytes NewBatch] in Hfill.
  destruct (check_ops lim (len []) 0 ops) as [err|] eqn:Ec.
  { destruct Hfill as [b' Hfill]. rewrite Hfill in E. injection E as <- <-. apply refused_durable. }
  destruct Hfill as [size Hfill]. rewrite Hfill in E. unfold Batch_Commit in E. cbn [b_closed operations app] in E.
  apply bind_Some in E as ([[r1 b1] db1] & E & E1). injection E1 as <- <-. apply bind_Some in E as ([r2 db2] & E & E2).
  assert (db1 = db2) as -> by (by destruct r2; injection E2).
  eapply applyBatch_durable; [apply (sim_inv _ _ _ _ _ _ _ Hs) | exact Hd | exact Hm | exact Hw | by eapply check_ops_ok | | exact Hsync | exact E].
  unfold len in Hq |- *. rewrite length_fmap. lia.
Qed.

End writes.

Section workers.
Context (clean : bool) (Hd : durable_sys clean s) (Hfit : fits fuel n (g_hist g)).

Lemma return_durable final (db : DB) s' :
  durable None clean db -> flusher_return final (set_db db s) = Some s' -> durable_sys clean s'.
Proof.
  intros Hd'. unfold flusher_return, send_compaction. destruct final; [| by intros [= <-]].
  intros H. apply bind_Some in H as (s1 & E & H). injection H as <-. destruct (compactionClosed _); [done |]. injection E as <-.
  apply (durable_core _ _ db); [done | exact Hd'].
Qed.

Lemma flusher_durable (e : env) s' :
  bearable (EFlusher e) -> flusher_step Hash128 math_Log conv e s = Some s' -> durable_sys clean s'.
Proof.
  intros [He1 He2] H. pose proof (sim_flusher _ _ _ _ _ _ _ Hs) as Hok. pose proof (sim_inv _ _ _ _ _ _ _ Hs) as Hi.
  unfold durable_sys in Hd. unfold flusher_step in H. destruct (s_flusher s) as [|final|final imm|final imm id|final imm meta|final imm|] eqn:Ef; cbn [stale_segment] in Hd.
  - destruct (flushSignal (s_db s)); [| destruct (closed (s_db s))]; injection H as <-; unfold durable_sys; simpl; rewrite ?Ef; try done.
    by apply (durable_core _ _ (s_db s)).
  - destruct (immutableMemtables (s_db s)); [| injection H as <-; exact Hd]. eapply return_durable; [exact Hd |]. by rewrite set_db_same.
  - injection H as <-. exact (flush_begin_durable _ _ _ Hd).
  - apply bind_Some in H as ([r db'] & E & H). pose proof (flush_create_durable _ _ _ _ _ _ _ _ E Hd) as Hd'.
    destruct r; [injection H as <-; exact Hd' | by eapply return_durable].
  - destruct Hok as (Hh & _ & l & t & _ & Hcr). destruct (head_cons _ _ Hh) as [imms Himm].
    destruct (flush_publish_durable clean e imm imms meta (s_db s) g Himm Hi ltac:(left; apply (cr_path _ _ _ _ _ Hcr)) He1 Hd) as (r & db' & E & Hd').
    rewrite E in H. cbn [mbind option_bind] in H. destruct r; [injection H as <-; exact Hd' | by eapply return_durable].
  - destruct (compactionClosed s); [done |]. pose proof (flush_finish_durable clean e imm (s_db s) He2 Hd) as Hd'.
    destruct (flush_finish e imm (s_db s)) as [r db']. destruct r; [injection H as <-; exact Hd' | by eapply return_durable].
  - injection H as <-. unfold durable_sys. by rewrite Ef.
Qed.

Lemma compactor_durable (es : nat -> env) s' :
  headroom (ECompactor es) (s_db s) = true -> compactor_step Hash128 math_Log conv fuel es s = Some s' -> durable_sys clean s'.
Proof.
  intros (_ & _ & Hh)%headroom_spec H. unfold compactor_step in H. destruct (s_compactor s).
  - destruct (compactionSignal (s_db s)); [| destruct (compactionClosed s)]; injection H as <-; try exact Hd.
    apply (durable_core _ _ (s_db s)); [done | exact Hd].
  - apply bind_Some in H as (db' & E & H). injection H as <-.
    eapply (rounds_durable n); [exact E | apply (sim_inv _ _ _ _ _ _ _ Hs) | done | by rewrite (sim_options _ _ _ _ _ _ _ Hs) | lia | exact Hd].
  - by injection H as <-.
Qed.

End workers.

Lemma exec_durable clean ev out s' :
  fits fuel n (g_hist g) -> headroom ev (s_db s) = true -> rotates ev = true -> bearable ev -> (is_write ev = true -> clean = true) ->
  durable_sys clean s -> exec ev s = Some (out, s') -> durable_sys (clean && appends ev) s'.
Proof.
  intros Hfit Hh Hro Hb Hc Hd H. destruct (reading ev) eqn:Hrd.
  { destruct (exec_reading _ _ _ _ Hrd H) as [Hco Hf]. replace (clean && appends ev) with clean by (by destruct ev, clean).
    unfold durable_sys. rewrite Hf. eapply durable_core; [exact Hco | exact Hd]. }
  destruct ev; try done; cbn [appends is_write rotates] in *; rewrite ?andb_true_r; try (rewrite (Hc eq_refl) in Hd |- *; cbn [andb]).
  - by eapply put_durable.
  - by eapply delete_durable.
  - by eapply batch_durable.
  - cbn [DbSystem.exec] in H. apply bind_Some in H as ([r db'] & E & H). injection H as <- <-.
    eapply compact_durable; [exact E | apply (sim_inv _ _ _ _ _ _ _ Hs) | exact Hd].
  - cbn [DbSystem.exec] in H. apply bind_Some in H as (s1 & E & H). injection H as <- <-. by eapply flusher_durable.
  - cbn [DbSystem.exec] in H. apply bind_Some in H as (s1 & E & H). injection H as <- <-. by eapply compactor_durable.
Qed.

End events.

(** ** Runs *)

Section runs.
Context (lim : LimitsOptions) (opts : WriteOptions) (n : Z) (Hsizing : sizing_fits math_Log conv n opts).
Local Abbreviation run := (run Hash128 math_Log conv fuel).

(** A run leaves a directory that describes the database it stopped in. *)
Lemma run_durable evs rest clean (s : sys) a g :
  sim Hash128 fuel lim opts s a g -> durable_sys clean s -> fits_trace fuel n (g_hist g) (evs ++ rest) ->
  tame Hash128 math_Log conv fuel evs s = true -> bearable_run clean evs ->
  exists outs s' a' g', run evs s = Some (outs, s') /\ allowed_run lim evs a outs a' /\ sim Hash128 fuel lim opts s' a' g' /\
    durable_sys false s' /\ fits_trace fuel n (g_hist g') rest.
Proof.
  revert clean s a g. induction evs as [|ev evs IH]; intros clean s a g Hs Hd Hf Ht Hb.
  - exists [], s, a, g. split; [done |]. split; [constructor |]. split; [done |]. split; [by eapply durable_weaken | done].
  - cbn [tame] in Ht. apply andb_true_iff in Ht as [Ht1 Ht]. apply andb_true_iff in Ht1 as [Hh Hro]. destruct Hb as (Hb & Hc & Hbs).
    pose proof (fits_trace_now _ _ _ _ Hf) as Hfit.
    destruct (exec_sim Hash128 math_Log conv fuel lim opts n Hsizing ev s a g Hs Hfit Hh Hro) as (out & s1 & a1 & g1 & E & Ha & Hs1 & Hg).
    { intros out s1 E. rewrite E in Ht. by apply andb_true_iff in Ht as [? _]. }
    rewrite E in Ht. apply andb_true_iff in Ht as [_ Ht].
    pose proof (exec_durable lim opts n Hsizing s a g Hs clean ev out s1 Hfit Hh Hro Hb Hc Hd E) as Hd1.
    destruct (IH (clean && appends ev) s1 a1 g1 Hs1 Hd1) as (outs & s2 & a2 & g2 & E2 & Ha2 & H2); [by eapply fits_trace_step | done | done |].
    exists (out :: outs), s2, a2, g2. cbn [DbSystem.run]. rewrite E. cbn [mbind option_bind]. rewrite E2.
    split; [done |]. split; [by econstructor | done].
Qed.

End runs.
End durable.
