(* ===== verification/DbClaims.v ===== *)
(** * The correctness of the running database

    From an empty directory, every interleaving of client operations, flushes
    and compactions answers what the abstract database of [DbSpec] answers. *)

From S2P Require Import Float64 Bloom BlockCache Wal MemTableClaims.
From S2P Require Export DbOpen DbSimWorkers DbLiveness DbClose DbDurable.

Section open.
Context {lz : LZ4Codec} {laws : LZ4Laws}.
Context (Hash128 : bytes -> Z * Z) (math_Log : float64 -> float64) (conv : float64 -> Z).

Definition empty_ghost : ghost := mkGhost [] [] [] [] [].

Lemma normalizeOptions_limits opts o w :
  normalizeOptions opts = Ok (o, w) ->
  MaxKeyBytes (Limits o) <= MaxKeySize /\ MaxValueBytes (Limits o) <= MaxValueSize /\ 0 <= CapacityBytes o.
Proof.
  unfold normalizeOptions, normalizeLimits. intros H. bind_inv H. injection H as <- <-. rename Hx3 into Hl. bind_inv Hl.
  injection Hl as <-. cbn [Limits CapacityBytes MaxKeyBytes MaxValueBytes]. rewrite !orb_false_iff in *.
  repeat match goal with
  | H : _ /\ _ |- _ => destruct H
  | H : (_ <? _) = false |- _ => apply Z.ltb_ge in H
  | H : (_ >? _) = false |- _ => rewrite Z.gtb_ltb in H
  end.
  split; [done |]. split; [done |]. destruct (CapacityBytes opts =? 0); [done | lia].
Qed.

Lemma maxSeqFromMemTable_ok mt l :
  vt_repr mt l -> exists m, maxSeqFromMemTable mt = Some m /\ 0 <= m /\ (m = 0 \/ exists x, x ∈ l /\ Seq x = m) /\
    forall x, x ∈ l -> Seq x <= m.
Proof.
  intros Hr. unfold maxSeqFromMemTable. destruct (MemTable_Iterator_yields mt l Hr) as (it & -> & Hy). cbn [mbind option_bind].
  destruct (maxseq_yields (S (length (SkipList.arena (data mt)))) it l 0 Hy (repr_arena_length _ _ Hr)) as (m & it' & -> & H).
  by exists m.
Qed.

(** A directory with an empty log and nothing else. *)
Lemma durable_empty (db : DB LRU) mt :
  memtables db = [mt] -> vt_repr mt [] -> memtable db = 0%nat -> immutableMemtables db = [] -> walID db = 0 -> SSTables (manifest db) = [] ->
  NextWALSegmentID (manifest db) = 0 -> dir db = <[SegmentPath 0 := writeWALHeader]> ∅ -> durable None true db.
Proof.
  intros H1 Hr H2 H3 H4 H5 H6 H7. constructor; unfold live_segments; rewrite ?H1, ?H2, ?H3, ?H4, ?H6, ?H7; try done.
  - left. split; [| done]. rewrite lookup_insert_ne; [apply lookup_empty | apply (names_apart 0 0)].
  - exists mt, [], writeWALHeader. split; [done |]. split; [done |]. split; [apply lookup_insert_eq | apply logged_new].
  - repeat constructor.
  - by repeat constructor.
  - intros path id Hp Hid. destruct (decide (path = SegmentPath 0)) as [-> | Hne].
    + rewrite parse_SegmentPath in Hid by done. injection Hid as <-. split; [done | by left].
    + rewrite lookup_insert_ne, lookup_empty in Hp by done. by apply is_Some_None in Hp.
Qed.

(** Opening an empty directory. *)
Lemma open_empty fuel (e : env) opts o w :
  normalizeOptions opts = Ok (o, w) -> e_segment e = None ->
  exists db d, Open fuel e (Ok tt) opts ∅ = Some (Ok db, d) /\ inv Hash128 db empty_ghost /\ limits db = Limits o /\
    sstableWriteOptions db = w /\ closed db = false /\ activeReaders db = ∅ /\ nextSeq db = 1 /\ immutableMemtables db = [] /\
    durable None true db.
Proof.
  intros Ho He. pose proof (normalizeOptions_limits _ _ _ Ho) as (Hk & Hv & Hc). unfold Open. rewrite Ho. bind_step.
  unfold open_file. rewrite lookup_empty. cbn [Read map_err mbind result_bind].
  destruct (vt_new_ok (T := MemTable) (e_seed e)) as (mt & Hnew & Hr). rewrite (Hnew : MemTable_New _ = _). cbn [mbind option_bind].
  change (ListSegments ∅) with (@nil Segment). cbn [replay_segments mbind option_bind next_segment last].
  rewrite NewSegmentInDir_new by (done || apply lookup_empty). cbn [open_tables].
  unfold open_tables. cbn [emptyManifest SSTables fmap list_fmap maxSeqFromSSTables mbind option_bind].
  destruct (maxSeqFromMemTable_ok mt [] Hr) as (m & Hm & _ & [-> | (x & Hx%not_elem_of_nil & _)] & _); [| done]. rewrite Hm. cbn [mbind option_bind].
  eexists _, _. split; [reflexivity |]. split; [| split_and!; try done; by eapply durable_empty]. constructor; simpl; try done.
  - constructor; [by exists mt | constructor].
  - constructor; try done; [by apply NoDup_nil_2 | by intros t ?%not_elem_of_nil | by apply NoDup_nil_2].
  - by apply empty_cache_ok.
  - constructor; try (by intros ? ? ?%not_elem_of_nil); [repeat constructor |]. by intros l t _ ?%not_elem_of_nil.
  - constructor; [by apply Forall_nil | by apply Forall_nil | by apply NoDup_nil_2].
  - split; [lia |]. intros id Hid Hu. rewrite lookup_insert_ne; [apply lookup_empty |]. intros Heq%SegmentPath_inj; [lia | done | done].
Qed.

(** The workers of the opened database. *)
Lemma opened_sim fuel (e : env) opts o w :
  normalizeOptions opts = Ok (o, w) -> e_segment e = None ->
  exists db d, Open fuel e (Ok tt) opts ∅ = Some (Ok db, d) /\
    sim Hash128 fuel (Limits o) w (start db) (mkAstate ∅ [] [] false) empty_ghost /\ awake (start db) /\ durable_sys true (start db).
Proof.
  intros Ho He. destruct (open_empty fuel e opts o w Ho He) as (db & d & E & Hi & Hl & Hw & Hc & Hr & Hn & Him & Hd).
  exists db, d. split; [done |]. split; [apply start_sim; try done; by rewrite Hn |]. split; [| done]. constructor; try done. by left.
Qed.

(** C1: the database is correct.  From an empty directory, with options that
    [Open] accepts, every interleaving of puts, deletes, batches, gets,
    snapshots, iterators, prefix scans, explicit compactions, [Close] and steps
    of the two background workers runs without a panic, and every answer is one
    that the abstract database allows: a get answers the last value written and
    not deleted, a snapshot the value at the time it was taken, an iterator the
    entries of its range in key order as they were when it was opened; a write
    beyond a limit is refused, a write that the operating system fails changes
    nothing, and flushes and compactions, failing or not, are invisible.  The
    interleaving is [tame]: rotations are not refused by the operating system,
    no counter is exhausted, and a failed flush gives back the identifier that
    was taken last. *)
Theorem database_correct (n : Z) fuel (e : env) opts o w evs :
  normalizeOptions opts = Ok (o, w) -> e_segment e = None -> sizing_fits math_Log conv n w ->
  fits_trace fuel n [] evs ->
  exists db d, Open fuel e (Ok tt) opts ∅ = Some (Ok db, d) /\
    (tame Hash128 math_Log conv fuel evs (start db) = true ->
     exists outs s a, run Hash128 math_Log conv fuel evs (start db) = Some (outs, s) /\
       allowed_run (Limits o) evs (mkAstate ∅ [] [] false) outs a).
Proof.
  intros Ho He Hsz Hf. destruct (opened_sim fuel e opts o w Ho He) as (db & d & E & Hs & _).
  exists db, d. split; [done |]. intros Ht.
  destruct (run_sim Hash128 math_Log conv fuel (Limits o) w n Hsz evs _ _ _ Hs Hf Ht) as (outs & s' & a & g & E' & Ha & _).
  by exists outs, s', a.
Qed.

(** C8: the state of the database stays well-formed.  In every state that an
    interleaving from an empty directory reaches, the memtables are sorted
    lists of well-formed records, every table that the manifest lists is a file
    that reads back as the records it was written from, under an identifier of
    its own below the next one, the cache holds blocks of these tables only, no
    two stored records have the same sequence number, newer layers hold newer
    versions of a key than older ones, tables on the same level from level 1 on
    have no key in common, and every active reader is below the next sequence
    number.  The interleaving is [tame]. *)
Theorem reachable_wellformed (n : Z) fuel (e : env) opts o w evs :
  normalizeOptions opts = Ok (o, w) -> e_segment e = None -> sizing_fits math_Log conv n w ->
  fits_trace fuel n [] evs ->
  exists db d, Open fuel e (Ok tt) opts ∅ = Some (Ok db, d) /\
    (tame Hash128 math_Log conv fuel evs (start db) = true ->
     exists outs s g, run Hash128 math_Log conv fuel evs (start db) = Some (outs, s) /\ inv Hash128 (s_db s) g).
Proof.
  intros Ho He Hsz Hf. destruct (opened_sim fuel e opts o w Ho He) as (db & d & E & Hs & _).
  exists db, d. split; [done |]. intros Ht.
  destruct (run_sim Hash128 math_Log conv fuel (Limits o) w n Hsz evs _ _ _ Hs Hf Ht) as (outs & s' & a & g & E' & _ & Hs' & _).
  exists outs, s', g. split; [done | apply (sim_inv _ _ _ _ _ _ _ Hs')].
Qed.

(** C9: every memtable is flushed.  After any [tame] interleaving from an empty
    directory in which no flush failed, the flush worker needs at most
    [flush_work] more steps of its own until no immutable memtable is left, so
    long as these succeed: no wake-up was lost.  That the interleaving is tame
    matters: a rotation that opens the new log and fails to close the old one
    returns without waking the worker ([failed_log_close_loses_wakeup] in
    Incidents). *)
Theorem flushes_complete (n : Z) fuel (e : env) opts o w evs :
  normalizeOptions opts = Ok (o, w) -> e_segment e = None -> sizing_fits math_Log conv n w ->
  fits_trace fuel n [] evs ->
  exists db d, Open fuel e (Ok tt) opts ∅ = Some (Ok db, d) /\
    (tame Hash128 math_Log conv fuel evs (start db) = true -> flushes_succeed Hash128 math_Log conv fuel evs (start db) = true ->
     exists outs s, run Hash128 math_Log conv fuel evs (start db) = Some (outs, s) /\
       forall ef k, (flush_work s <= k)%nat -> tame Hash128 math_Log conv fuel (repeat (EFlusher ef) k) s = true ->
         flushes_succeed Hash128 math_Log conv fuel (repeat (EFlusher ef) k) s = true ->
         exists outs' s', run Hash128 math_Log conv fuel (repeat (EFlusher ef) k) s = Some (outs', s') /\
           immutableMemtables (s_db s') = []).
Proof.
  intros Ho He Hsz Hf. destruct (opened_sim fuel e opts o w Ho He) as (db & d & E & Hs & Hw & _).
  exists db, d. split; [done |]. intros Ht Hfl.
  destruct (awake_run Hash128 math_Log conv fuel (Limits o) w n Hsz evs _ _ _ Hs Hw Hf Ht Hfl) as (outs & s & a & g & E' & Hs' & Hw' & Hf').
  exists outs, s. split; [done |]. intros ef k Hk Ht' Hfl'.
  eapply (worker_drains Hash128 math_Log conv fuel (Limits o) w n Hsz ef k s a g); try done. by right.
Qed.

(** C10: compaction ends.  In every state that an interleaving from an empty
    directory reaches by a [tame] run, whatever the operating system does to the
    compactions from there on, the loop of the compaction worker ends after at most twice as many rounds as there are
    tables and one more: then nothing is left to compact, or the last
    compaction failed. *)
Theorem compaction_terminates (n : Z) fuel (e : env) opts o w evs :
  normalizeOptions opts = Ok (o, w) -> e_segment e = None -> sizing_fits math_Log conv n w ->
  fits_trace fuel n [] evs ->
  exists db d, Open fuel e (Ok tt) opts ∅ = Some (Ok db, d) /\
    (tame Hash128 math_Log conv fuel evs (start db) = true ->
     exists outs s, run Hash128 math_Log conv fuel evs (start db) = Some (outs, s) /\
       forall es, headroom (ECompactor es) (s_db s) = true ->
         exists db', compaction_rounds Hash128 math_Log conv (S (2 * length (SSTables (manifest (s_db s))))) fuel es (s_db s) = Some db' /\
           settled Hash128 math_Log conv fuel es db').
Proof.
  intros Ho He Hsz Hf. destruct (opened_sim fuel e opts o w Ho He) as (db & d & E & Hs & _).
  exists db, d. split; [done |]. intros Ht.
  destruct (run_sim Hash128 math_Log conv fuel (Limits o) w n Hsz evs _ _ _ Hs Hf Ht) as (outs & s & a & g & E' & _ & Hs' & Hfit).
  exists outs, s. split; [done |]. intros es (_ & _ & Hid)%headroom_spec. destruct Hfit as (Hb & Hn & Hfu).
  destruct (compaction_rounds_inv Hash128 math_Log conv n (rounds (s_db s)) fuel es (s_db s) g (sim_inv _ _ _ _ _ _ _ Hs') Hb Hn
    ltac:(by rewrite (sim_options _ _ _ _ _ _ _ Hs')) Hfu ltac:(apply pending_work_bound) ltac:(lia)) as (db' & g' & Ec & _ & _ & Hst).
  by exists db'.
Qed.

(** C11: [Close] returns.  In every state that an interleaving from an empty
    directory reaches by a [tame] run, [Close] has returned after at most
    [close_rank] turns of [Close] and the two workers, whose flushes and
    compactions may fail as long as the turns are tame, too: it does not wait for
    ever, and no worker sends on a channel that was closed. *)
Theorem close_returns (n : Z) fuel (e : env) opts o w evs :
  normalizeOptions opts = Ok (o, w) -> e_segment e = None -> sizing_fits math_Log conv n w ->
  fits_trace fuel n [] evs ->
  exists db d, Open fuel e (Ok tt) opts ∅ = Some (Ok db, d) /\
    (tame Hash128 math_Log conv fuel evs (start db) = true ->
     exists outs s, run Hash128 math_Log conv fuel evs (start db) = Some (outs, s) /\
       forall ts, (close_rank s <= length ts)%nat -> tame Hash128 math_Log conv fuel (turns ts) s = true ->
         exists outs' s', run Hash128 math_Log conv fuel (turns ts) s = Some (outs', s') /\ s_closer s' = CloseDone).
Proof.
  intros Ho He Hsz Hf. destruct (opened_sim fuel e opts o w Ho He) as (db & d & E & Hs & _).
  exists db, d. split; [done |]. intros Ht.
  destruct (run_sim Hash128 math_Log conv fuel (Limits o) w n Hsz evs _ _ _ Hs Hf Ht) as (outs & s & a & g & E' & _ & Hs' & Hfit).
  exists outs, s. split; [done |]. intros ts Hk Hts.
  by apply (turns_close Hash128 math_Log conv fuel (Limits o) w n Hsz ts s a g).
Qed.

End open.

(** ** A run *)

(** Rotation after every write, compaction of any table of level 0. *)
Definition run_options : Options := mkOptions 1 1 0 false f_zero (mkLimits 0 0 0 0).
Definition run_env : env := calm (mkRand (fun n => Z.of_nat n) 0).
Definition torn_env : env := mkEnv (Some 5%nat) false None false None no_faults (fun _ => false) false (mkRand (fun n => Z.of_nat n) 0).

(** A value is written, flushed, seen by a snapshot and an iterator, deleted
    and compacted; a write is torn; a batch is written and scanned; the database
    is closed. *)
Definition run_events : list event :=
  [EPut run_env [x61] [x01]] ++ repeat (EFlusher run_env) 6 ++ [ESnapshot; EIterator (mkIterOptions [] []); EDelete run_env [x61]] ++
  repeat (EFlusher run_env) 5 ++ [ECompactor (fun _ => run_env); ECompactor (fun _ => run_env); EGet [x61]; ESnapshotGet 0 [x61]; ENext 0; ENext 0;
   EPut torn_env [x62] [x02]; EGet [x62]; EBatch run_env [mkOp [x63] [x03] false; mkOp [x61] [x04] false] true; EGet [x61];
   EScanPrefix [x63]; ENext 1; ENext 1; ESnapshotIterator 0 (mkIterOptions [x61] [x63]); ENext 2; ESnapshotScan 0 [x61]; ENext 3; EIteratorClose 0; ENext 0;
   ESnapshotClose 0; ECompact run_env; ESnapshotGet 0 [x61]; ECloser; EGet [x63]] ++ repeat (EFlusher run_env) 9 ++ [EGet [x61]].

Definition run_opened : option (result db_error (DB LRU) * fs) := Open (lz := run_codec) 20 run_env (Ok tt) run_options ∅.

Definition on_opened {A} (f : DB LRU -> option A) : option A :=
  match run_opened with Some (Ok db, _) => f db | _ => None end.

Definition run_normalized : Options * WriteOptions :=
  match normalizeOptions run_options with Ok r => r | Err _ => (run_options, DefaultWriteOptions) end.

Lemma run_tame : on_opened (fun db => Some (tame (lz := run_codec) sum_hash log_hundredth (fun _ => 0) 20 run_events (start db))) = Some true.
Proof. vm_compute. reflexivity. Qed.

Lemma run_sizing : sizing_fits log_hundredth (fun _ => 0) 5 run_normalized.2.
Proof.
  intros hint f Hn H. assert (hint = 0 \/ hint = 1 \/ hint = 2 \/ hint = 3 \/ hint = 4 \/ hint = 5) as [-> | [-> | [-> | [-> | [-> | ->]]]]] by lia;
    vm_compute in H; try discriminate H; injection H as <-; unfold wf_filter; vm_compute; repeat split; congruence.
Qed.

Definition run_outputs : list DbSystem.output :=
  [ODone (Ok tt)] ++ repeat ONothing 6 ++ [OSnapshot (Ok 0%nat); OIterator (Ok 0%nat); ODone (Ok tt)] ++ repeat ONothing 7 ++
  [OValue (Err ErrNotFound); OValue (Ok [x01]); ONext (Ok (Some ([x61], [x01]))); ONext (Ok None);
   ODone (Err ErrOS); OValue (Err ErrNotFound); ODone (Ok tt); OValue (Ok [x04]);
   OIterator (Ok 1%nat); ONext (Ok (Some ([x63], [x03]))); ONext (Ok None); OIterator (Ok 2%nat); ONext (Ok (Some ([x61], [x01])));
   OIterator (Ok 3%nat); ONext (Ok (Some ([x61], [x01]))); ONothing; ONext (Ok None); ONothing; ODone (Ok tt); OValue (Err ErrSnapshotClosed); ONothing; OValue (Err ErrClosed)] ++ repeat ONothing 9 ++ [OValue (Err ErrClosed)].

Lemma run_answers :
  on_opened (fun db => fst <$> run (lz := run_codec) sum_hash log_hundredth (fun _ => 0) 20 run_events (start db)) = Some run_outputs.
Proof. vm_compute. reflexivity. Qed.

Lemma database_correct_witness :
  exists a, allowed_run (Limits run_normalized.1) run_events (mkAstate ∅ [] [] false) run_outputs a.
Proof.
  destruct (database_correct (lz := run_codec) (laws := run_codec_laws) sum_hash log_hundredth (fun _ => 0) 5 20 run_env run_options run_normalized.1 run_normalized.2
    run_events eq_refl eq_refl run_sizing) as (db & d & E & H).
  - split; [vm_compute; congruence |]. split; [vm_compute; congruence | vm_compute; lia].
  - pose proof run_tame as Ht. pose proof run_answers as Ha. unfold on_opened, run_opened in Ht, Ha. rewrite E in Ht, Ha.
    injection Ht as Ht. destruct (H Ht) as (outs & s & a & Er & Hal). rewrite Er in Ha. injection Ha as ->. by exists a.
Defined.

Lemma reachable_wellformed_witness :
  exists db d outs s g, run_opened = Some (Ok db, d) /\
    run (lz := run_codec) sum_hash log_hundredth (fun _ => 0) 20 run_events (start db) = Some (outs, s) /\ inv (lz := run_codec) sum_hash (s_db s) g.
Proof.
  destruct (reachable_wellformed (lz := run_codec) (laws := run_codec_laws) sum_hash log_hundredth (fun _ => 0) 5 20 run_env run_options run_normalized.1 run_normalized.2
    run_events eq_refl eq_refl run_sizing) as (db & d & E & H).
  - split; [vm_compute; congruence |]. split; [vm_compute; congruence | vm_compute; lia].
  - pose proof run_tame as Ht. unfold on_opened, run_opened in Ht. rewrite E in Ht. injection Ht as Ht.
    destruct (H Ht) as (outs & s & g & Er & Hi). by exists db, d, outs, s, g.
Defined.

(** Two memtables wait for the worker. *)
Definition wait_events : list event := [EPut run_env [x61] [x01]; EPut run_env [x62] [x02]].

Definition wait_checks (db : DB LRU) : option bool :=
  '(_, s) ← run (lz := run_codec) sum_hash log_hundredth (fun _ => 0) 20 wait_events (start db);
  Some (tame (lz := run_codec) sum_hash log_hundredth (fun _ => 0) 20 wait_events (start db) &&
    flushes_succeed (lz := run_codec) sum_hash log_hundredth (fun _ => 0) 20 wait_events (start db) && (flush_work s =? 11)%nat &&
    tame (lz := run_codec) sum_hash log_hundredth (fun _ => 0) 20 (repeat (EFlusher run_env) 11) s &&
    flushes_succeed (lz := run_codec) sum_hash log_hundredth (fun _ => 0) 20 (repeat (EFlusher run_env) 11) s).

Lemma wait_checked : on_opened wait_checks = Some true.
Proof. vm_compute. reflexivity. Qed.

Lemma flushes_complete_witness :
  exists db d outs s outs' s', run_opened = Some (Ok db, d) /\
    run (lz := run_codec) sum_hash log_hundredth (fun _ => 0) 20 wait_events (start db) = Some (outs, s) /\
    run (lz := run_codec) sum_hash log_hundredth (fun _ => 0) 20 (repeat (EFlusher run_env) 11) s = Some (outs', s') /\
    immutableMemtables (s_db s') = [].
Proof.
  destruct (flushes_complete (lz := run_codec) (laws := run_codec_laws) sum_hash log_hundredth (fun _ => 0) 5 20 run_env run_options
    run_normalized.1 run_normalized.2 wait_events eq_refl eq_refl run_sizing) as (db & d & E & H).
  - split; [vm_compute; congruence |]. split; [vm_compute; congruence | vm_compute; lia].
  - pose proof wait_checked as Hc. unfold on_opened, run_opened in Hc. rewrite E in Hc. unfold wait_checks in Hc.
    destruct (run _ _ _ _ wait_events (start db)) as [[outs s]|] eqn:Er; [| discriminate Hc]. apply (inj Some) in Hc.
    rewrite !andb_true_iff in Hc. destruct Hc as ((((H1 & H2) & H3) & H4) & H5).
    destruct (H H1 H2) as (outs0 & s0 & E0 & Hk). injection E0 as <- <-. apply Nat.eqb_eq in H3.
    destruct (Hk run_env 11%nat ltac:(rewrite H3; apply le_n) H4 H5) as (outs' & s' & E' & Hi).
    by exists db, d, outs, s, outs', s'.
Defined.

Definition compact_checks (db : DB LRU) : option bool :=
  '(_, s) ← run (lz := run_codec) sum_hash log_hundredth (fun _ => 0) 20 run_events (start db);
  Some (tame (lz := run_codec) sum_hash log_hundredth (fun _ => 0) 20 run_events (start db) &&
    headroom (ECompactor (fun _ => run_env)) (s_db s)).

Lemma compact_checked : on_opened compact_checks = Some true.
Proof. vm_compute. reflexivity. Qed.

Lemma compaction_terminates_witness :
  exists db d outs s db', run_opened = Some (Ok db, d) /\
    run (lz := run_codec) sum_hash log_hundredth (fun _ => 0) 20 run_events (start db) = Some (outs, s) /\
    compaction_rounds (lz := run_codec) sum_hash log_hundredth (fun _ => 0) (S (2 * length (SSTables (manifest (s_db s))))) 20 (fun _ => run_env) (s_db s) = Some db'.
Proof.
  destruct (compaction_terminates (lz := run_codec) (laws := run_codec_laws) sum_hash log_hundredth (fun _ => 0) 5 20 run_env run_options
    run_normalized.1 run_normalized.2 run_events eq_refl eq_refl run_sizing) as (db & d & E & H).
  - split; [vm_compute; congruence |]. split; [vm_compute; congruence | vm_compute; lia].
  - pose proof compact_checked as Hc. unfold on_opened, run_opened in Hc. rewrite E in Hc. unfold compact_checks in Hc.
    destruct (run _ _ _ _ run_events (start db)) as [[outs s]|] eqn:Er; [| discriminate Hc]. apply (inj Some) in Hc.
    rewrite !andb_true_iff in Hc. destruct Hc as (H1 & H2). destruct (H H1) as (outs0 & s0 & E0 & Hk). injection E0 as <- <-.
    destruct (Hk (fun _ => run_env) H2) as (db' & Ed & _). by exists db, d, outs, s, db'.
Defined.

(** The table of the first memtable cannot be written, that of the second can. *)
Definition full_env : env := mkEnv None false None false (Some CreateBefore) no_faults (fun _ => false) false (mkRand (fun n => Z.of_nat n) 0).
Definition close_turns : list (env * (nat -> env)) := (full_env, fun _ => full_env) :: (full_env, fun _ => full_env) :: (full_env, fun _ => full_env) ::
  repeat (run_env, fun _ => run_env) 30.

Definition close_checks (db : DB LRU) : option bool :=
  '(_, s) ← run (lz := run_codec) sum_hash log_hundredth (fun _ => 0) 20 wait_events (start db);
  Some (tame (lz := run_codec) sum_hash log_hundredth (fun _ => 0) 20 wait_events (start db) && (close_rank s <=? 33)%nat &&
    tame (lz := run_codec) sum_hash log_hundredth (fun _ => 0) 20 (turns close_turns) s).

Lemma close_checked : on_opened close_checks = Some true.
Proof. vm_compute. reflexivity. Qed.

Lemma close_returns_witness :
  exists db d outs s outs' s', run_opened = Some (Ok db, d) /\
    run (lz := run_codec) sum_hash log_hundredth (fun _ => 0) 20 wait_events (start db) = Some (outs, s) /\
    run (lz := run_codec) sum_hash log_hundredth (fun _ => 0) 20 (turns close_turns) s = Some (outs', s') /\
    s_closer s' = CloseDone.
Proof.
  destruct (close_returns (lz := run_codec) (laws := run_codec_laws) sum_hash log_hundredth (fun _ => 0) 5 20 run_env run_options
    run_normalized.1 run_normalized.2 wait_events eq_refl eq_refl run_sizing) as (db & d & E & H).
  - split; [vm_compute; congruence |]. split; [vm_compute; congruence | vm_compute; lia].
  - pose proof close_checked as Hc. unfold on_opened, run_opened in Hc. rewrite E in Hc. unfold close_checks in Hc.
    destruct (run _ _ _ _ wait_events (start db)) as [[outs s]|] eqn:Er; [| discriminate Hc]. apply (inj Some) in Hc.
    rewrite !andb_true_iff in Hc. destruct Hc as ((H1 & H2) & H3). destruct (H H1) as (outs0 & s0 & E0 & Hk). injection E0 as <- <-.
    apply Nat.leb_le in H2. destruct (Hk close_turns H2 H3) as (outs' & s' & E' & Hd). by exists db, d, outs, s, outs', s'.
Defined.
