(* ===== verification/DbRecovery.v ===== *)
(** * Recovery

    [Open] of the directory that a run has left, at whatever point it stopped:
    the manifest names the tables, the replay of the segments rebuilds the
    memtables, and the database that results shows the map of the run. *)

From stdpp Require Import sorting.
From S2P Require Import Float64 Bloom BlockCache Wal MemTableClaims SkipListRefine.
From S2P Require Export DbDurable DbClaims.

(** ** The manifest *)

(** The same table; its size may have been truncated or taken from the file. *)
Definition same_table (m m' : SSTableMetadata) : Prop :=
  ID m' = ID m /\ Path m' = Path m /\ Level m' = Level m /\ SmallestKey m' = SmallestKey m /\ LargestKey m' = LargestKey m.

(** The entry as it is decoded. *)
Definition wrap_size (m : SSTableMetadata) : SSTableMetadata :=
  mkMeta (ID m) (Path m) (Level m) (u64 (SizeBytes m)) (SmallestKey m) (LargestKey m).

Lemma PutUint64_wrap z : PutUint64 (u64 z) = PutUint64 z.
Proof.
  unfold PutUint64. apply le_Z_inj; [by rewrite !length_le_bytes |]. rewrite !le_Z_le_bytes.
  change (256 ^ Z.of_nat 8) with 18446744073709551616. apply Z.mod_mod. lia.
Qed.

Lemma encode_table_wrap m : encode_table (wrap_size m) = encode_table m.
Proof. unfold encode_table, wrap_size, writeUint64. cbn [ID Path Level SizeBytes SmallestKey LargestKey]. by rewrite PutUint64_wrap. Qed.

Definition wrap_manifest (m : Manifest) : Manifest := mkManifest (NextSSTableID m) (NextWALSegmentID m) (wrap_size <$> SSTables m).

Lemma encode_payload_wrap m : encode_payload (wrap_manifest m) = encode_payload m.
Proof.
  unfold encode_payload, wrap_manifest. cbn [NextSSTableID NextWALSegmentID SSTables].
  assert (Hl : len (wrap_size <$> SSTables m) = len (SSTables m)) by (unfold len; by rewrite length_fmap).
  rewrite Hl. do 4 f_equal. rewrite <- list_fmap_compose. apply list_fmap_ext. intros i x _. apply encode_table_wrap.
Qed.

(** What the manifest must satisfy to be read back. *)
Definition storable (m : SSTableMetadata) : Prop := 0 <= ID m < u64_max /\ is_u32 (Level m).

Lemma decode_saved m data :
  Manifest.encode (Some m) = Ok data -> Forall storable (SSTables m) -> is_u64 (NextSSTableID m) -> is_u64 (NextWALSegmentID m) ->
  wf_manifest (wrap_manifest m) /\ Manifest.encode (Some (wrap_manifest m)) = Ok data.
Proof.
  intros (Hst & Hcount & Hlen & ->)%encode_Ok Hw H1 H2. rewrite encode_Ok. unfold wf_manifest. rewrite encode_payload_wrap.
  cbn [wrap_manifest NextSSTableID NextWALSegmentID SSTables].
  assert (Hl : len (wrap_size <$> SSTables m) = len (SSTables m)) by (unfold len; by rewrite length_fmap). rewrite Hl.
  split_and!; try done.
  - apply Forall_fmap. rewrite Forall_forall in Hst, Hw |- *. intros t Ht. destruct (Hst t Ht) as (S1 & S2 & S3). destruct (Hw t Ht) as [[I1 I2] I3].
    unfold compose, wf_meta, wrap_size. cbn [ID Path Level SizeBytes SmallestKey LargestKey]. split_and!; try done; [unfold is_u64; lia | apply u64_range].
  - apply Forall_fmap. eapply Forall_impl; [exact Hst |]. by intros t (S1 & S2 & S3).
Qed.

Lemma Read_saved d mf :
  saved d mf -> Forall storable (SSTables mf) -> is_u64 (NextWALSegmentID mf) ->
  exists mf', Read (open_file d manifest_path) = Ok mf' /\ Forall2 same_table (SSTables mf) (SSTables mf') /\
    next_id_safe mf' /\ is_u64 (NextSSTableID mf') /\ 0 <= NextWALSegmentID mf' <= NextWALSegmentID mf.
Proof.
  intros [[Hd Ht] | (data & m & Hd & He & Ht & Hn & Hw)] Hst Hu; unfold open_file; rewrite Hd.
  - exists emptyManifest. rewrite Ht. split; [done |]. split; [constructor |]. split; [constructor |]. unfold is_u64 in *. simpl. lia.
  - destruct (decode_saved m data He ltac:(by rewrite Ht) Hn ltac:(unfold is_u64 in *; lia)) as [Hwf He'].
    rewrite (Read_Contents data _ Hwf He').
    assert (Hsafe : exists mf', ensureSafeNextSSTableID (wrap_manifest m) = Ok mf').
    { unfold ensureSafeNextSSTableID. pose proof (max_id_spec (SSTables (wrap_manifest m))) as Hmax.
      destruct (max_id _) as [k|]; [| by eexists]. destruct (_ <=? k); [| by eexists].
      destruct Hmax as [(t & Hin & <-) _]. cbn [wrap_manifest SSTables] in Hin. apply list_elem_of_fmap in Hin as (t0 & -> & Hin).
      rewrite Ht in Hin. rewrite Forall_forall in Hst. destruct (Hst t0 Hin) as [Hi _]. cbn [ID wrap_size].
      destruct (Z.eqb_spec (ID t0) u64_max); [lia | by eexists]. }
    destruct Hsafe as (mf' & E). exists mf'. split; [done |]. destruct (ensureSafe_spec _ _ E) as (S1 & S2 & S3 & S4 & _ & S5).
    split; [| split; [done |]; split; [by apply S5 | by rewrite S3]].
    rewrite S2, <- Ht. cbn [wrap_manifest SSTables]. apply Forall2_fmap_r. apply Forall_Forall2_diag, Forall_forall. intros t _. done.
Qed.

(** ** The segments *)

Lemma strict_NoDup {A} (R : relation A) `{!Irreflexive R} (l : list A) : StronglySorted R l -> NoDup l.
Proof.
  induction 1 as [|x l _ IH Hlt]; constructor; [| done]. intros Hin. rewrite Forall_forall in Hlt.
  by apply (irreflexivity R x), Hlt.
Qed.

Definition segment (id : Z) : Segment := mkSegment id (SegmentPath id).

Lemma ListSegments_NoDup (d : fs) : NoDup (ListSegments d).
Proof.
  unfold ListSegments. rewrite merge_sort_Permutation. pose proof (NoDup_fst_map_to_list d) as Hnd.
  induction (map_to_list d) as [|[path file] l IH]; [constructor |]. rewrite fmap_cons in Hnd. apply NoDup_cons in Hnd as [Hni Hnd].
  cbn [omap list_omap]. destruct (parseSegmentID path) as [id|]; [| by apply IH]. cbn [mbind option_bind]. constructor; [| by apply IH].
  intros ([path' file'] & Hin & E)%list_elem_of_omap. destruct (parseSegmentID path'); [| done]. injection E as -> ->.
  apply Hni, list_elem_of_fmap. by exists (path, file').
Qed.

Lemma seg_le_total : Total seg_le.
Proof. intros x y. unfold seg_le. lia. Qed.

Lemma seg_le_trans : Transitive seg_le.
Proof. intros x y z. unfold seg_le. lia. Qed.

Section recovery.
Context {lz : LZ4Codec} {laws : LZ4Laws} {C : Type} `{!Cache C}.
Local Abbreviation DB := (DB C).

(** The segments of a directory without a superfluous one. *)
Lemma ListSegments_live clean (db : DB) :
  durable None clean db ->
  ListSegments (dir db) = segment <$> live_segments None db.
Proof.
  intros Hd. destruct (du_ids _ _ _ Hd) as [Hu1 Hu2].
  assert (Hmem : forall s, s ∈ ListSegments (dir db) <-> s ∈ segment <$> live_segments None db).
  { intros s. rewrite elem_of_ListSegments, list_elem_of_fmap. split.
    - intros (file & Hf & Hp). destruct (du_only _ _ _ Hd _ _ ltac:(by eexists) Hp) as [E Hin]. exists (sg_ID s). split; [| done].
      destruct s. simpl in *. by subst.
    - intros (id & -> & Hin). cbn [segment sg_Path sg_ID]. pose proof (du_u64 _ _ _ Hd) as Hu. rewrite Forall_forall in Hu.
      rewrite parse_SegmentPath by by apply Hu. unfold live_segments in Hin.
      apply elem_of_app in Hin as [Hin | Hin]; [by apply elem_of_nil in Hin |].
      apply elem_of_app in Hin as [(imm & -> & Hi)%list_elem_of_fmap | ->%list_elem_of_singleton].
      + pose proof (du_imms _ _ _ Hd) as Him. rewrite Forall_forall in Him. destruct (Him imm Hi) as (_ & _ & file & _ & _ & Hf & _). by exists file.
      + destruct (du_active _ _ _ Hd) as (_ & _ & file & _ & _ & Hf & _). by exists file. }
  assert (Hlt : forall l, StronglySorted Z.lt l -> StronglySorted seg_le (segment <$> l)).
  { intros l Hl. induction Hl as [|x l _ IH Hx]; [constructor |]. constructor; [exact IH |]. apply Forall_fmap. eapply Forall_impl; [exact Hx |].
    intros y Hy. unfold compose, seg_le. cbn [segment sg_ID]. lia. }
  apply (StronglySorted_unique_strong seg_le).
  - intros x y Hx%Hmem (id2 & -> & _)%list_elem_of_fmap. apply list_elem_of_fmap in Hx as (id1 & -> & _).
    unfold seg_le. cbn [segment sg_ID]. intros H1 H2. by replace id2 with id1 by lia.
  - apply StronglySorted_merge_sort; [apply seg_le_trans | apply seg_le_total].
  - apply Hlt, Hd.
  - apply NoDup_Permutation; [apply ListSegments_NoDup | | exact Hmem]. apply NoDup_fmap_2_strong; [intros x y _ _ He; exact (f_equal sg_ID He) |].
    apply (strict_NoDup Z.lt), Hd.
Qed.

End recovery.

(** ** Replay *)

Lemma same_version_l x y r : same_version y r = true -> same_version x y = same_version x r.
Proof.
  rewrite same_version_spec. intros [Hk Hq]. unfold same_version. by rewrite Hk, Hq.
Qed.

(** Puts into a table that has other records. *)
Lemma elem_of_list_puts puts l x :
  sorted l -> x ∈ list_puts puts l <->
    x ∈ list_puts puts [] \/ (x ∈ l /\ forall y, y ∈ list_puts puts [] -> same_version x y = false).
Proof.
  intros Hs. assert (Hsort : forall ps l, sorted l -> sorted (list_puts ps l)).
  { intros ps. induction ps as [|p ps IH]; intros k Hk; [done |]. apply IH. by apply list_put_sorted. }
  induction puts as [|r puts IH] using rev_ind; [set_solver |]. rewrite !list_puts_app. cbn [list_puts fold_left].
  fold (list_puts puts l) (list_puts puts []). rewrite !elem_of_list_put by (apply Hsort; done || constructor). rewrite IH.
  assert (Hall : (forall y, y ∈ list_put r (list_puts puts []) -> same_version x y = false) <->
    same_version x r = false /\ forall y, y ∈ list_puts puts [] -> same_version x y = false).
  { split.
    - intros H. assert (Hr : same_version x r = false) by (apply H, elem_of_list_put; [apply Hsort; constructor | by left]). split; [done |].
      intros y Hy. destruct (same_version y r) eqn:E; [by rewrite (same_version_l _ _ _ E) |].
      apply H, elem_of_list_put; [apply Hsort; constructor | by right].
    - intros [Hr H] y [-> | [Hy _]]%elem_of_list_put; [done | by apply H | apply Hsort; constructor]. }
  rewrite Hall. tauto.
Qed.

(** The numbers of a log. *)
Lemma log_max_nonneg recs m : 0 <= m -> 0 <= log_max recs m.
Proof.
  revert m. induction recs as [|r recs IH]; intros m Hm; [done |]. apply IH. unfold max_sequence. repeat case_match; lia.
Qed.

(** Records of different layers have different numbers. *)
Lemma replay_segment c file l mt l0 :
  logged c file l -> vt_repr (T := MemTable) mt l0 -> NoDup (Seq <$> l0 ++ l) ->
  exists m mt' file' l', ReplayIntoWithStats (Some file) mt = Some (Ok m, mt', Some file') /\ 0 <= m < u64_max /\
    vt_repr mt' l' /\ l' ≡ₚ l0 ++ l /\ logged true file' l.
Proof.
  intros (recs & tail & -> & Hwf & Hmax & Hl & Ht & _) Hr Hnd.
  destruct (replay_written recs mt l0 Hwf Hr) as (mt' & Hr' & E).
  eexists _, mt', _, _. split; [by apply E |]. split; [split; [by apply log_max_nonneg | done] |]. split; [exact Hr' |]. split.
  - apply NoDup_Permutation; [apply (strict_NoDup rec_lt), (vt_sorted _ _ Hr') | by eapply NoDup_fmap_1 |].
    intros x. rewrite elem_of_list_puts by apply (vt_sorted _ _ Hr). rewrite Hl, elem_of_app.
    rewrite fmap_app in Hnd. apply NoDup_app in Hnd as (_ & Hdis & _). split; [tauto |]. intros [Hx | Hx]; [right | by left].
    split; [done |]. intros y Hy. destruct (same_version x y) eqn:E'; [| done]. apply same_version_spec in E' as [_ Hq].
    exfalso. apply (Hdis (Seq x)); [by apply list_elem_of_fmap_2 |]. rewrite Hq. by apply list_elem_of_fmap_2.
  - exists recs, []. rewrite app_nil_r. split_and!; try done. by left.
Qed.

(** A segment of the directory. *)
Definition holds_log (c : bool) (d : fs) (s : Segment) (l : list record) : Prop :=
  exists file, d !! sg_Path s = Some file /\ logged c file l.

Lemma replay_segments_ok segs ls d mt l0 m0 :
  Forall2 (holds_log false d) segs ls -> NoDup (sg_Path <$> segs) -> vt_repr mt l0 -> NoDup (Seq <$> l0 ++ concat ls) -> 0 <= m0 < u64_max ->
  exists m d' mt' l', replay_segments segs d mt m0 = Some (Ok m, d', mt') /\ m0 <= m < u64_max /\ vt_repr mt' l' /\ l' ≡ₚ l0 ++ concat ls /\
    (forall p, p ∉ sg_Path <$> segs -> d' !! p = d !! p) /\ Forall2 (holds_log true d') segs ls.
Proof.
  revert ls d mt l0 m0. induction segs as [|s segs IH]; intros ls d mt l0 m0 H Hnd Hr Hq Hm.
  - inversion H; subst. exists m0, d, mt, l0. cbn [concat]. rewrite app_nil_r. split_and!; try done; lia.
  - inversion H as [|s' l segs' ls' (file & Hf & Hl) Hrest]; subst. rewrite fmap_cons in Hnd. apply NoDup_cons in Hnd as [Hni Hnd].
    cbn [concat] in Hq |- *. cbn [replay_segments]. rewrite Hf.
    assert (Hq1 : NoDup (Seq <$> l0 ++ l)) by (rewrite app_assoc, fmap_app in Hq; by apply NoDup_app in Hq as [? _]).
    destruct (replay_segment _ _ _ _ _ Hl Hr Hq1) as (m1 & mt1 & f1 & l1 & -> & Hm1 & Hr1 & Hp1 & Hl1). cbn [mbind option_bind]. cbn zeta.
    assert (Hrest' : Forall2 (holds_log false (<[sg_Path s := f1]> d)) segs ls').
    { apply Forall2_same_length_lookup. split; [by eapply Forall2_length |]. intros i s1 k1 Hs1 Hk1.
      destruct (Forall2_lookup_lr _ _ _ _ _ _ Hrest Hs1 Hk1) as (f & Hf' & Hl'). exists f. rewrite lookup_insert_ne; [done |].
      intros He. apply Hni. rewrite He. apply list_elem_of_fmap_2. by eapply list_elem_of_lookup_2. }
    destruct (IH ls' (<[sg_Path s := f1]> d) mt1 l1 (if m1 >? m0 then m1 else m0) Hrest' Hnd Hr1) as (m & d' & mt' & l' & -> & Hm' & Hr' & Hp' & Hd' & Hc').
    { by rewrite Hp1, <- app_assoc. } { destruct (Z.gtb_spec m1 m0); lia. }
    exists m, d', mt', l'. split; [done |]. split; [destruct (Z.gtb_spec m1 m0); lia |]. split; [done |].
    split; [by rewrite Hp', Hp1, <- app_assoc |]. split.
    + intros p Hp. rewrite fmap_cons in Hp. apply not_elem_of_cons in Hp as [Hp1' Hp2]. rewrite Hd' by done. by apply lookup_insert_ne.
    + constructor; [| done]. exists f1. split; [| done]. rewrite Hd' by done. apply lookup_insert_eq.
Qed.

(** ** The tables *)

Section tables.
Context {lz : LZ4Codec} {laws : LZ4Laws} {C : Type} `{!Cache C} (Hash128 : bytes -> Z * Z).

(** An iterator stays with its table. *)
Lemma loadBlock_sst i (it it' : TIterator (C := C)) err : loadBlock i it = Some (err, it') -> ti_sst it' = ti_sst it.
Proof.
  unfold loadBlock. intros H. apply bind_Some in H as (entry & _ & H). apply bind_Some in H as ([r c] & _ & H). cbn zeta in H.
  destruct r; [| by injection H as <- <-]. apply bind_Some in H as (o & _ & H). destruct o; by injection H as <- <-.
Qed.

Lemma next_loop_sst n (it it' : TIterator (C := C)) b : next_loop n it = Some (b, it') -> ti_sst it' = ti_sst it.
Proof.
  revert it. induction n as [|n IH]; intros it H; [done |]. cbn [next_loop] in H. apply bind_Some in H as ([r c] & _ & H). cbn zeta in H.
  destruct r; [by injection H as <- <- |]. destruct (cerr c); [by injection H as <- <- |]. destruct (_ >=? _); [by injection H as <- <- |].
  apply bind_Some in H as ([err it1] & E & H). apply loadBlock_sst in E. destruct err; [by injection H as <- <- |]. by rewrite (IH _ H).
Qed.

Lemma Next_sst (it it' : TIterator (C := C)) b : TIterator_Next it = Some (b, it') -> ti_sst it' = ti_sst it.
Proof.
  unfold TIterator_Next. destruct (ti_err it); [by intros [= <- <-] |]. destruct (ti_pending it); [by intros [= <- <-] | apply next_loop_sst].
Qed.

(** The loop over a table leaves a coherent cache. *)
Lemma maxseq_frame d (Hok : disk_ok Hash128 d) allowed (Hal : disk_in allowed d) n (it : TIterator (C := C)) rest m r it' :
  ahead (d_filter d) (d_blocks d) (d_file d) allowed (d_id d) it rest -> maxseq_loop n it m = Some (r, it') ->
  ti_sst it' = ti_sst it /\ cache_ok allowed (ti_cache it').
Proof.
  revert it rest m. induction n as [|n IH]; intros it rest m Hah H; [done |]. cbn [maxseq_loop] in H.
  apply bind_Some in H as ([b it1] & E & H). pose proof (Next_sst _ _ _ E) as Hsst. change (it_next it) with (TIterator_Next it) in E.
  pose proof (ahead_next Hash128 _ _ _ _ _ _ Hok allowed (d_id d) Hal it rest Hah) as Hn. destruct rest as [|x rest].
  - destruct Hn as (it2 & E2 & _ & Hc). rewrite E in E2. injection E2 as -> <-. by injection H as <- <-.
  - destruct Hn as (it2 & E2 & _ & Hah2). rewrite E in E2. injection E2 as -> <-. destruct (IH _ _ _ Hah2 H) as [-> Hc]. done.
Qed.

(** The greatest sequence number of a table. *)
Lemma table_maxseq d all h t fuel (cache : option C) :
  table_ok Hash128 d h t -> t.2 ∈ all -> NoDup (d_id <$> all) -> cache_ok (knows all) cache -> (length (d_records t.2) < fuel)%nat ->
  exists m s cache', MaxSeq fuel (d_file t.2) (h_sst h) cache = Some (Ok m, s, cache') /\ 0 <= m /\
    (m = 0 \/ exists x, x ∈ t_records t.2 /\ Seq x = m) /\ (forall x, x ∈ t_records t.2 -> Seq x <= m) /\
    cache_ok (knows all) cache' /\ table_ok Hash128 d (mkHandle (h_meta h) s) t.
Proof.
  intros [T1 T2 T3 T4 T5 T6 T7 T8] Hin Hnd Hc Hf. pose proof (knows_in Hash128 all t.2 Hnd Hin T1) as Hal.
  destruct (Iterator_od Hash128 _ _ _ _ _ _ T1 (knows all) (d_id t.2) (h_sst h) cache) as (it & E & Hrest & Hah);
    [destruct T5 as [-> | ->]; [by left | right; unfold fresh_table; eauto] | done |].
  unfold MaxSeq. rewrite E.
  destruct (maxseq_yields fuel it _ 0 (ahead_yields Hash128 _ _ _ _ _ _ T1 _ (d_id t.2) Hal _ _ Hah) ltac:(by rewrite length_fmap))
    as (m & it' & E2 & H1 & H2 & H3).
  destruct (maxseq_frame t.2 T1 (knows all) Hal _ _ _ _ _ _ Hah E2) as [Hsst Hc']. rewrite E2. cbn [mbind option_bind].
  exists m, (ti_sst it'), (ti_cache it'). split; [done |]. split; [done |]. split; [done |]. split; [done |]. split; [done |].
  constructor; try done. left. cbn [h_sst]. rewrite Hsst. apply (ir_sst _ _ _ _ _ _ _ _ Hrest).
Qed.

(** ... and of all of them. *)
Lemma maxSeqFromSSTables_ok d all hs ts fuel (cache : option C) m0 :
  Forall2 (table_ok Hash128 d) hs ts -> (forall t, t ∈ ts -> t.2 ∈ all) -> NoDup (d_id <$> all) -> cache_ok (knows all) cache ->
  (forall t, t ∈ ts -> (length (d_records t.2) < fuel)%nat) -> 0 <= m0 ->
  exists m hs' cache', maxSeqFromSSTables fuel d hs cache m0 = Some (Ok m, hs', cache') /\ m0 <= m /\
    (m = m0 \/ exists t x, t ∈ ts /\ x ∈ t_records t.2 /\ Seq x = m) /\ (forall t x, t ∈ ts -> x ∈ t_records t.2 -> Seq x <= m) /\
    Forall2 (table_ok Hash128 d) hs' ts /\ h_meta <$> hs' = h_meta <$> hs /\ cache_ok (knows all) cache'.
Proof.
  intros H Hall Hnd. revert cache m0. induction H as [|h t hs ts Ht Hts IH]; intros cache m0 Hc Hf Hm0.
  - exists m0, [], cache. split; [done |]. split; [lia |]. split; [by left |]. split; [| done]. by intros t x ?%not_elem_of_nil.
  - cbn [maxSeqFromSSTables]. rewrite (to_file _ _ _ _ Ht).
    destruct (table_maxseq d all h t fuel cache Ht (Hall t ltac:(by left)) Hnd Hc (Hf t ltac:(by left))) as (m1 & s & c1 & -> & M1 & M2 & M3 & Hc1 & Ht1).
    cbn [mbind option_bind]. cbn zeta.
    destruct (IH ltac:(intros t' Ht'; apply Hall; by right) c1 (if m1 >? m0 then m1 else m0) Hc1 ltac:(intros t' Ht'; apply Hf; by right) ltac:(destruct (m1 >? m0); lia))
      as (m & hs' & c2 & -> & N1 & N2 & N3 & N4 & N5 & N6).
    cbn [mbind option_bind]. exists m, (mkHandle (h_meta h) s :: hs'), c2. split; [done |].
    assert (Hle : m0 <= m /\ m1 <= m) by (destruct (Z.gtb_spec m1 m0); lia). split; [lia |]. split; [| split].
    + destruct N2 as [-> | (t' & x & Hin & Hx)]; [| right; exists t', x; split; [by right | done]].
      destruct (Z.gtb_spec m1 m0); [| by left]. destruct M2 as [-> | (x & Hx & <-)]; [| right; exists t, x; split; [by left | done]].
      left. lia.
    + intros t' x [-> | Hin]%elem_of_cons Hx; [specialize (M3 x Hx); lia | by eapply N3].
    + split; [by constructor |]. split; [by rewrite !fmap_cons, N5 | done].
Qed.
End tables.

(** ** Opening *)

Section opening.
Context {lz : LZ4Codec} {laws : LZ4Laws} (Hash128 : bytes -> Z * Z).
Local Abbreviation DB := (DB LRU).
Local Abbreviation inv := (inv (C := LRU) Hash128).

(** Every memtable with its segment. *)
Lemma live_layers clean (db : DB) g :
  inv db g -> durable None clean db ->
  Forall2 (holds_log false (dir db)) (segment <$> live_segments None db) (g_imms g ++ [g_mem g]).
Proof.
  intros Hi Hd. destruct (inv_mem _ _ _ Hi) as [(mt & Hm & Hr) Him]. 
  change (live_segments None db) with ((im_walID <$> immutableMemtables db) ++ [walID db]). rewrite fmap_app. apply Forall2_app.
  - pose proof (du_imms _ _ _ Hd) as Hl. revert Hl. induction Him as [|imm l imms ls (_ & mt1 & Hm1 & Hr1) _ IH]; intros Hl; [constructor |].
    apply Forall_cons in Hl as [(mt2 & l2 & file & H1 & H2 & H3 & H4) Hl]. rewrite fmap_cons. constructor; [| by apply IH].
    exists file. split; [done |]. rewrite Hm1 in H1. injection H1 as <-. replace l with l2; [done |].
    apply vt_records_ok in Hr1, H2. congruence.
  - constructor; [| constructor]. destruct (du_active _ _ _ Hd) as (mt2 & l2 & file & H1 & H2 & H3 & H4). exists file. split; [done |].
    rewrite Hm in H1. injection H1 as <-. replace (g_mem g) with l2; [by eapply logged_weaken |]. apply vt_records_ok in Hr, H2. congruence.
Qed.

(** The records of the memtables. *)
Definition g_layers (g : ghost) : list record := concat (g_imms g ++ [g_mem g]).

Lemma g_layers_records g : g_records g ≡ₚ g_layers g ++ concat (g_disks g).
Proof.
  unfold g_records, g_layers. rewrite concat_app. cbn [concat]. rewrite app_nil_r, app_assoc.
  rewrite (reverse_Permutation (g_disks g)), (reverse_Permutation (g_imms g)). by rewrite (Permutation_app_comm (g_mem g)).
Qed.

Lemma records_NoDup (db : DB) g : inv db g -> NoDup (Seq <$> g_records g).
Proof.
  intros Hi. pose proof (inv_sub _ _ _ Hi) as Hsub. pose proof (ho_nodup _ _ (inv_hist _ _ _ Hi)) as Hnd.
  apply submseteq_Permutation in Hsub as [k Hk]. rewrite Hk, fmap_app in Hnd. by apply NoDup_app in Hnd as [? _].
Qed.

(** The ghost state of the recovered database: what is stored is all there ever
    was. *)
Definition g_recovered (mem : list record) (g : ghost) : ghost :=
  mkGhost mem [] (g_tables g) ((g_tables g).*2) (mem ++ concat (reverse (g_disks g))).

Lemma g_recovered_records mem g : g_records (g_recovered mem g) = g_hist (g_recovered mem g).
Proof. done. Qed.

Lemma g_recovered_perm mem g : mem ≡ₚ g_layers g -> g_hist (g_recovered mem g) ≡ₚ g_records g.
Proof. intros Hp. rewrite g_layers_records. cbn [g_hist g_recovered]. by rewrite Hp, (reverse_Permutation (g_disks g)). Qed.

Lemma order_recovered mem g : order_ok g -> mem ≡ₚ g_layers g -> order_ok (g_recovered mem g).
Proof.
  intros [O1 O2 O3 O4] Hp. constructor; try done; cbn [g_recovered g_imms g_mem g_tables app].
  - repeat constructor.
  - intros l t ->%list_elem_of_singleton Ht x y Hx Hy. rewrite Hp in Hx. unfold g_layers in Hx.
    apply list_elem_of_In, in_concat in Hx as (k & Hk & Hx). apply (O2 k t); [by apply list_elem_of_In | done | by apply list_elem_of_In | done].
Qed.

Lemma inv_recovered (db db' : DB) g mem mt :
  inv db g -> mem ≡ₚ g_layers g ->
  memtables db' = [mt] -> memtable db' = 0%nat -> immutableMemtables db' = [] -> vt_repr mt mem ->
  Forall2 (table_ok Hash128 (dir db')) (sstables db') (g_tables g) -> h_meta <$> sstables db' = SSTables (manifest db') ->
  next_id_safe (manifest db') -> is_u64 (NextSSTableID (manifest db')) -> cache_ok (knows (g_tables g).*2) (blockCache db') ->
  (forall x, x ∈ g_records g -> Seq x < nextSeq db') -> 1 <= nextSeq db' <= u64_max -> activeReaders db' = ∅ ->
  (0 <= NextWALSegmentID (manifest db') /\ forall id, NextWALSegmentID (manifest db') < id -> is_u64 id -> dir db' !! SegmentPath id = None) ->
  (MaxKeyBytes (limits db') <= MaxKeySize /\ MaxValueBytes (limits db') <= MaxValueSize) ->
  inv db' (g_recovered mem g).
Proof.
  intros Hi Hp M1 M2 M3 Hr Ht Hmeta Hsafe Hu Hc Hlt Hseq Hrd Hsg Hlim. pose proof (g_recovered_perm mem g Hp) as Hperm.
  destruct (inv_ids _ _ _ Hi) as [I1 I2 I3 I4 I5].
  constructor; try done; cbn [g_recovered g_mem g_imms g_tables g_all]; rewrite ?M1, ?M2, ?M3, ?Hrd.
  - constructor; [by exists mt | constructor].
  - constructor; try done; cbn [g_recovered g_all g_tables].
    + by rewrite <- list_fmap_compose.
    + apply Forall_fmap, Forall_forall. intros t Hin. pose proof (I3 t Hin) as Hall. rewrite Forall_forall in I2. destruct (I2 _ Hall) as [H0 _].
      split; [done |]. apply list_elem_of_lookup in Hin as [i Hl]. destruct (Forall2_lookup_r _ _ _ _ _ Ht Hl) as (h & Hh & Hok).
      unfold compose. rewrite <- (to_id _ _ _ _ Hok). unfold next_id_safe in Hsafe. rewrite <- Hmeta, Forall_fmap, Forall_forall in Hsafe.
      apply Hsafe. by eapply list_elem_of_lookup_2.
    + intros t Hin. by apply list_elem_of_fmap_2.
  - apply order_recovered; [apply (inv_order _ _ _ Hi) | done].
  - constructor.
    + rewrite Hperm. apply Forall_forall. intros x Hx. pose proof (ho_wf _ _ (inv_hist _ _ _ Hi)) as Hw. rewrite Forall_forall in Hw.
      apply Hw. by apply (inv_in_hist _ _ _ _ Hi).
    + rewrite Hperm. by apply Forall_forall.
    + rewrite Hperm. by apply (records_NoDup db).
  - intros q c Hq. by rewrite lookup_empty in Hq.
Qed.

(** Reads are the same. *)
Lemma recovered_reads fuel lim wopts (s : sys LRU) a g mem next key :
  sim Hash128 fuel lim wopts s a g -> mem ≡ₚ g_layers g -> (forall x, x ∈ g_records g -> Seq x < next) ->
  read_at (g_hist (g_recovered mem g)) key (next - 1) = a_map a !! key.
Proof.
  intros Hs Hp Hlt. pose proof (sim_inv _ _ _ _ _ _ _ Hs) as Hi. pose proof (g_recovered_perm mem g Hp) as Hperm.
  rewrite <- (sim_map _ _ _ _ _ _ _ Hs). set (M := Z.max next (nextSeq (s_db s)) - 1).
  rewrite <- (read_top next _ key M) by (rewrite ?Hperm; (by apply Forall_forall) || (unfold M; lia)).
  rewrite <- (read_top (nextSeq (s_db s)) (g_hist g) key M) by (apply (ho_seq _ _ (inv_hist _ _ _ Hi)) || (unfold M; lia)).
  rewrite <- (inv_reads _ _ _ Hi) by (eapply readable_top; [exact Hs | unfold M; lia]).
  unfold read_at. f_equal. apply newest_same.
  - eapply uniq_sub; [apply (inv_uniq _ _ _ Hi) |]. intros x. by rewrite Hperm.
  - intros x _. by rewrite Hperm.
Qed.

(** The counter of segments is taken from the last one. *)
Lemma next_segment_last segs mf s :
  last segs = Some s -> NextWALSegmentID mf <= sg_ID s -> next_segment segs mf = mkManifest (NextSSTableID mf) (sg_ID s) (SSTables mf).
Proof.
  intros Hl Hle. unfold next_segment. rewrite Hl. destruct (Z.gtb_spec (sg_ID s) (NextWALSegmentID mf)); [done |].
  destruct mf as [a b c]. simpl in *. by replace b with (sg_ID s) by lia.
Qed.

(** The active segment is opened again. *)
Lemma reopen_segment (e : env) id d l : e_segment e = None -> holds_log true d (segment id) l -> NewSegmentInDir e id d = (Ok tt, d).
Proof.
  intros He (file & Hf & recs & tail & -> & _). cbn [segment sg_Path] in Hf. unfold NewSegmentInDir. rewrite He, Hf.
  change (default [] (Some ?x)) with x. unfold NewSegment. destruct (Z.eqb_spec (len (writeWALHeader ++ frames recs ++ tail)) 0) as [H0 | _].
  { unfold len in H0. rewrite length_app in H0. simpl in H0. lia. }
  rewrite validate_written. bind_step. by rewrite insert_id.
Qed.

Lemma same_table_recover d m m' : same_table m m' -> same_table m (recover_size d m').
Proof. intros (H1 & H2 & H3 & H4 & H5). unfold recover_size. destruct (_ =? 0); [destruct (stat d (Path m')) |]; done. Qed.

(** The handles of the tables. *)
Lemma fresh_handles d d' hs ts (ms : list SSTableMetadata) :
  Forall2 (table_ok Hash128 d) hs ts -> Forall2 same_table (h_meta <$> hs) ms ->
  (forall id path, named id path -> d' !! path = d !! path) -> Forall2 (table_ok Hash128 d') (newSSTable <$> ms) ts.
Proof.
  intros H Hm Hd. revert ms Hm. induction H as [|h t hs ts [T1 T2 T3 T4 T5 T6 T7 T8] _ IH]; intros ms Hm; inversion Hm as [|? m ? ms' (H1 & H2 & H3 & H4 & H5) Hm']; subst;
    [constructor |].
  rewrite fmap_cons. constructor; [| by apply IH]. unfold h_ID in T2. constructor; cbn [newSSTable h_meta h_sst]; try done.
  - unfold h_ID. cbn [newSSTable h_meta]. congruence.
  - congruence.
  - right. unfold fresh_table. congruence.
  - rewrite H2, (Hd (d_id t.2)); done.
  - by rewrite H2.
  - intros r Hr. rewrite H4, H5. by apply T8.
Qed.

Lemma storable_tables (db : DB) g : inv db g -> Forall storable (SSTables (manifest db)).
Proof.
  intros Hi. rewrite <- (inv_meta _ _ _ Hi), Forall_fmap, Forall_forall. intros h Hh.
  destruct (inv_named _ _ _ _ Hi Hh) as (_ & Hr & t & Ht & Hok). pose proof (io_u64 _ _ (inv_ids _ _ _ Hi)) as Hu. unfold is_u64 in Hu.
  unfold compose, storable. change (ID (h_meta h)) with (h_ID h). split; [lia |]. rewrite (to_level _ _ _ _ Hok). pose proof (to_range _ _ _ _ Hok) as Hl.
  unfold is_u32, u32_max, HighestSupportedLevel, L0 in *. lia.
Qed.

(** Replaying the segments of a database. *)
Lemma replay_database (db : DB) g (seed : SkipList.rand) :
  inv db g -> durable None false db ->
  exists mt0 m d' mt mem, MemTable_New seed = Some mt0 /\ replay_segments (ListSegments (dir db)) (dir db) mt0 0 = Some (Ok m, d', mt) /\
    0 <= m < u64_max /\ vt_repr mt mem /\ mem ≡ₚ g_layers g /\ holds_log true d' (segment (walID db)) (g_mem g) /\
    (forall p, parseSegmentID p = None -> d' !! p = dir db !! p) /\ (forall p, dir db !! p = None -> d' !! p = None).
Proof.
  intros Hi Hd. destruct (vt_new_ok (T := MemTable) seed) as (mt0 & Hnew & Hr0). rewrite (ListSegments_live _ _ Hd).
  pose proof (live_layers _ _ _ Hi Hd) as Hl. pose proof (du_u64 _ _ _ Hd) as Hu. rewrite Forall_forall in Hu.
  assert (Hpaths : sg_Path <$> (segment <$> live_segments None db) = SegmentPath <$> live_segments None db) by by rewrite <- list_fmap_compose.
  destruct (replay_segments_ok (segment <$> live_segments None db) (g_imms g ++ [g_mem g]) (dir db) mt0 [] 0 Hl)
    as (m & d' & mt & mem & E & Hm & Hr & Hp & Hd' & Hc); [| exact Hr0 | | done |].
  - rewrite Hpaths. apply NoDup_fmap_2_strong; [| apply (strict_NoDup Z.lt), Hd]. intros x y Hx Hy. by apply SegmentPath_inj; apply Hu.
  - pose proof (records_NoDup db g Hi) as Hnd. rewrite g_layers_records, fmap_app in Hnd. by apply NoDup_app in Hnd as [? _].
  - exists mt0, m, d', mt, mem. rewrite Hpaths in Hd'. split; [done |]. split; [done |]. split; [done |]. split; [done |]. split; [done |]. split; [| split].
    + change (live_segments None db) with ((im_walID <$> immutableMemtables db) ++ [walID db]) in Hc. rewrite fmap_app in Hc.
      apply Forall2_app_inv in Hc as [_ Hc]; [by apply Forall2_cons in Hc as [? _] |].
      rewrite !length_fmap. apply (Forall2_length _ _ _ (mo_imms _ _ _ _ (inv_mem _ _ _ Hi))).
    + intros p Hp'. apply Hd'. intros (id & -> & Hin)%list_elem_of_fmap. by rewrite parse_SegmentPath in Hp' by by apply Hu.
    + intros p Hp'. destruct (decide (p ∈ SegmentPath <$> live_segments None db)) as [Hin | Hin]; [| by rewrite Hd'].
      exfalso. apply list_elem_of_fmap in Hin as (id & -> & Hin). apply (list_elem_of_fmap_2 segment) in Hin. apply list_elem_of_lookup in Hin as [i Hin].
      destruct (Forall2_lookup_l _ _ _ _ _ Hl Hin) as (l & _ & file & Hf & _). cbn [segment sg_Path] in Hf. congruence.
Qed.

Lemma table_length g t : t ∈ g_tables g -> (length (d_records t.2) <= length (g_records g))%nat.
Proof.
  intros Ht. rewrite g_layers_records, length_app. unfold g_disks. induction (g_tables g) as [|u ts IH]; [by apply elem_of_nil in Ht |].
  rewrite fmap_cons. cbn [concat]. rewrite length_app. apply elem_of_cons in Ht as [-> | Ht]; [| specialize (IH Ht); lia].
  unfold t_records. rewrite length_fmap. lia.
Qed.

(** [Open] after a run: the same map. *)
Lemma open_recovers fuel (e : env) opts o w lim wopts (s : sys LRU) a g :
  normalizeOptions opts = Ok (o, w) -> e_segment e = None -> sim Hash128 fuel lim wopts s a g -> durable None false (s_db s) ->
  (length (g_hist g) < fuel)%nat ->
  exists db' d' g', Open fuel e (Ok tt) opts (dir (s_db s)) = Some (Ok db', d') /\
    sim Hash128 fuel (Limits o) w (start db') (mkAstate (a_map a) [] [] false) g' /\ g_hist g' ⊆+ g_hist g.
Proof.
  intros Ho He Hs Hd Hfuel. pose proof (normalizeOptions_limits _ _ _ Ho) as (Hk & Hv & Hc). pose proof (sim_inv _ _ _ _ _ _ _ Hs) as Hi.
  set (db := s_db s) in *. destruct (du_ids _ _ _ Hd) as [Hu _]. pose proof (du_next _ _ _ Hd) as Hnx.
  destruct (Read_saved (dir db) (manifest db) (du_manifest _ _ _ Hd) (storable_tables _ _ Hi) ltac:(by rewrite <- Hnx))
    as (mf & Hread & Hsame & Hsafe & Hun & Hwal). rewrite <- Hnx in Hwal.
  destruct (replay_database db g (e_seed e) Hi Hd) as (mt0 & m & d' & mt & mem & Hnew & Hrep & Hm & Hr & Hmem & Hact & Hother & Hnone).
  unfold Open. rewrite Ho. bind_step. rewrite Hread. bind_step. rewrite Hnew. cbn [mbind option_bind]. rewrite Hrep. cbn [mbind option_bind].
  rewrite (next_segment_last (ListSegments (dir db)) mf (segment (walID db))); [| | exact (proj2 Hwal)].
  2: { rewrite (ListSegments_live _ _ Hd). unfold live_segments. rewrite app_assoc, fmap_app. apply last_snoc. }
  cbn [NextWALSegmentID segment sg_ID]. rewrite (reopen_segment e _ _ _ He Hact). unfold open_tables. cbn [NextWALSegmentID NextSSTableID SSTables].
  set (ms := recover_size d' <$> SSTables mf).
  assert (Hms : Forall2 same_table (h_meta <$> sstables db) ms).
  { unfold ms. rewrite (inv_meta _ _ _ Hi). apply Forall2_fmap_r. eapply Forall2_impl; [exact Hsame |]. intros x y. apply same_table_recover. }
  pose proof (fresh_handles (dir db) d' _ _ ms (inv_tables _ _ _ Hi) Hms ltac:(intros id path Hn; eapply Hother, named_parse, Hn)) as Hts.
  destruct (inv_ids _ _ _ Hi) as [I1 I2 I3 I4 I5].
  assert (Hrec : forall t x, t ∈ g_tables g -> x ∈ t_records t.2 -> x ∈ g_records g) by (intros t x Ht Hx; apply elem_of_g_records; right; eauto).
  destruct (maxSeqFromSSTables_ok Hash128 d' (g_tables g).*2 (newSSTable <$> ms) (g_tables g) fuel (Some (NewLRU (CapacityBytes o))) 0 Hts)
    as (m1 & hs' & c' & E1 & N1 & N2 & N3 & N4 & N5 & N6); [by intros t Ht; apply list_elem_of_fmap_2 | by rewrite <- list_fmap_compose | by apply empty_cache_ok | | done |].
  { intros t Ht. pose proof (table_length g t Ht). pose proof (submseteq_length _ _ (inv_sub _ _ _ Hi)). lia. }
  rewrite E1. cbn [mbind option_bind].
  destruct (maxSeqFromMemTable_ok mt mem Hr) as (m2 & E2 & P1 & P2 & P3). rewrite E2. cbn [mbind option_bind].
  set (next := Z.max (Z.max m1 m2) m + 1).
  assert (Hbound : forall x, x ∈ g_records g -> Seq x < u64_max).
  { intros x Hx%(inv_in_hist _ _ _ _ Hi). pose proof (ho_seq _ _ (inv_hist _ _ _ Hi)) as Hq. rewrite Forall_forall in Hq. specialize (Hq x Hx).
    pose proof (inv_seq _ _ _ Hi). lia. }
  assert (Hmrec : forall x, x ∈ mem -> x ∈ g_records g) by (intros x; rewrite Hmem, g_layers_records, elem_of_app; by left).
  assert (Hnext : 1 <= next <= u64_max).
  { assert (m1 < u64_max) by (destruct N2 as [-> | (t & x & Ht & Hx & <-)]; [done | by eapply Hbound, Hrec]).
    assert (m2 < u64_max) by (destruct P2 as [-> | (x & Hx & <-)]; [done | by apply Hbound, Hmrec]). unfold next. lia. }
  assert (Hlt : forall x, x ∈ g_records g -> Seq x < next).
  { intros x Hx. rewrite g_layers_records, elem_of_app, <- Hmem in Hx. unfold next. destruct Hx as [Hx | Hx]; [specialize (P3 x Hx); lia |].
    apply list_elem_of_In, in_concat in Hx as (l & Hl & Hx). apply list_elem_of_In, list_elem_of_fmap in Hl as (t & -> & Ht).
    apply list_elem_of_In in Hx. specialize (N3 t x Ht Hx). lia. }
  rewrite u64_id by (unfold is_u64; lia). eexists _, d', (g_recovered mem g). split; [reflexivity |].
  split; [| rewrite g_recovered_perm by done; apply (inv_sub _ _ _ Hi)].
  apply start_sim; try done; [| intros key; by eapply recovered_reads].
  eapply (inv_recovered db _ g mem mt); try done; cbn [dir sstables manifest SSTables NextSSTableID NextWALSegmentID].
  - rewrite N5, <- list_fmap_compose. apply list_fmap_id.
  - unfold next_id_safe in *. cbn [SSTables NextSSTableID]. unfold ms. apply Forall_fmap. eapply Forall_impl; [exact Hsafe |].
    intros x Hx. unfold compose, recover_size. destruct (_ =? 0); [destruct (stat _ _) |]; done.
  - split; [unfold is_u64 in Hu; lia |]. intros id Hid Hu'. apply Hnone. apply (inv_segs _ _ _ Hi); [by rewrite <- Hnx | done].
Qed.

End opening.

Section claims.
Context {lz : LZ4Codec} {laws : LZ4Laws}.
Context (Hash128 : bytes -> Z * Z) (math_Log : float64 -> float64) (conv : float64 -> Z).

(** C2: acknowledged writes survive the first crash.  Take a [tame]
    interleaving of client operations, flushes and compactions from an empty
    directory that is bearable ([bearable_run]): compactions may fail in every
    way, flushes in all ways but the two that leave a flushed segment behind, the
    append of the last write may be torn anywhere, and no synced batch fails to
    sync.  Wherever it stops, but for the moment between the publication of a
    flushed memtable and the removal of its segment ([stale_segment]), one
    [Open] of the files it leaves succeeds, with any options, if it can create its
    log segment, and every tame run from there answers as the abstract database that starts with the map at the
    stop: no acknowledged write is lost, no deleted key is back, no batch is in
    part.  A second recovery is not covered, nor is a run outside of these
    conditions: [deleted_key_returns] and [torn_frame_blocks_open] in Incidents
    are such. *)
Theorem recovery_correct (n : Z) fuel (e e' : env) opts opts' o o' w w' evs evs' :
  normalizeOptions opts = Ok (o, w) -> normalizeOptions opts' = Ok (o', w') -> e_segment e = None -> e_segment e' = None ->
  sizing_fits math_Log conv n w -> sizing_fits math_Log conv n w' -> fits_trace fuel n [] (evs ++ evs') -> bearable_run true evs ->
  exists db d, Open fuel e (Ok tt) opts ∅ = Some (Ok db, d) /\
    (tame Hash128 math_Log conv fuel evs (start db) = true ->
     exists outs s a, run Hash128 math_Log conv fuel evs (start db) = Some (outs, s) /\
       allowed_run (Limits o) evs (mkAstate ∅ [] [] false) outs a /\
       (stale_segment (s_flusher s) = None ->
        exists db' d', Open fuel e' (Ok tt) opts' (dir (s_db s)) = Some (Ok db', d') /\
          (tame Hash128 math_Log conv fuel evs' (start db') = true ->
           exists outs' s' a', run Hash128 math_Log conv fuel evs' (start db') = Some (outs', s') /\
             allowed_run (Limits o') evs' (mkAstate (a_map a) [] [] false) outs' a'))).
Proof.
  intros Ho Ho' He He' Hsz Hsz' Hf Hb. destruct (opened_sim Hash128 fuel e opts o w Ho He) as (db & d & E & Hs & _ & Hd).
  exists db, d. split; [done |]. intros Ht.
  destruct (run_durable Hash128 math_Log conv fuel (Limits o) w n Hsz evs evs' true _ _ _ Hs Hd Hf Ht Hb)
    as (outs & s & a & g & Er & Ha & Hs' & Hd' & Hf').
  exists outs, s, a. split; [done |]. split; [done |]. intros Hst. unfold durable_sys in Hd'. rewrite Hst in Hd'.
  destruct (open_recovers Hash128 fuel e' opts' o' w' _ _ s a g Ho' He' Hs' Hd' (proj2 (proj2 (fits_trace_now _ _ _ _ Hf'))))
    as (db' & d' & g' & E' & Hs2 & Hsub).
  exists db', d'. split; [done |]. intros Ht'.
  assert (Hf2 : fits_trace fuel n (g_hist g') evs').
  { eapply fits_less; [| | exact Hf']; rewrite ?key_cost_app, ?length_app; [apply key_cost_submseteq in Hsub | apply submseteq_length in Hsub]; lia. }
  destruct (run_sim Hash128 math_Log conv fuel (Limits o') w' n Hsz' evs' _ _ _ Hs2 Hf2 Ht') as (outs' & s' & a' & g2 & E2 & Ha2 & _).
  by exists outs', s', a'.
Qed.

End claims.

(** ** A crash *)

(** A value, a batch, a flush of the first memtable, a deletion, and a write
    that is torn. *)
Definition crash_events : list event :=
  [EPut run_env [x61] [x01]; EBatch run_env [mkOp [x62] [x02] false; mkOp [x63] [x03] false] true] ++ repeat (EFlusher run_env) 6 ++
  [EDelete run_env [x61]; EPut torn_env [x62] [x09]; EGet [x62]].

(** Afterwards everything is read. *)
Definition recovery_events : list event :=
  [EGet [x61]; EGet [x62]; EIterator (mkIterOptions [] []); ENext 0; ENext 0; ENext 0].

Definition recovery_outputs : list DbSystem.output :=
  [OValue (Err ErrNotFound); OValue (Ok [x02]); OIterator (Ok 0%nat); ONext (Ok (Some ([x62], [x02]))); ONext (Ok (Some ([x63], [x03]))); ONext (Ok None)].

Definition crash_checks (db : DB LRU) : option (bool * list DbSystem.output) :=
  '(_, s) ← run (lz := run_codec) sum_hash log_hundredth (fun _ => 0) 20 crash_events (start db);
  '(r, _) ← Open (lz := run_codec) 20 run_env (Ok tt) run_options (dir (s_db s));
  match r with
  | Err _ => None
  | Ok db' =>
      '(outs, _) ← run (lz := run_codec) sum_hash log_hundredth (fun _ => 0) 20 recovery_events (start db');
      Some (tame (lz := run_codec) sum_hash log_hundredth (fun _ => 0) 20 crash_events (start db) &&
        bool_decide (stale_segment (s_flusher s) = None) &&
        tame (lz := run_codec) sum_hash log_hundredth (fun _ => 0) 20 recovery_events (start db'), outs)
  end.

Lemma crash_checked : on_opened crash_checks = Some (true, recovery_outputs).
Proof. vm_compute. reflexivity. Qed.

Lemma recovery_correct_witness :
  exists a a', allowed_run (Limits run_normalized.1) recovery_events (mkAstate (a_map a) [] [] false) recovery_outputs a'.
Proof.
  destruct (recovery_correct (lz := run_codec) (laws := run_codec_laws) sum_hash log_hundredth (fun _ => 0) 5 20 run_env run_env run_options run_options
    run_normalized.1 run_normalized.1 run_normalized.2 run_normalized.2 crash_events recovery_events eq_refl eq_refl eq_refl eq_refl run_sizing run_sizing)
    as (db & d & E & H).
  - split; [vm_compute; congruence |]. split; [vm_compute; congruence | vm_compute; lia].
  - by repeat split.
  - pose proof crash_checked as Hc. unfold on_opened, run_opened in Hc. rewrite E in Hc. unfold crash_checks in Hc.
    destruct (run _ _ _ _ crash_events (start db)) as [[outs s]|] eqn:Er; [| discriminate Hc]. cbn [mbind option_bind] in Hc.
    destruct (Open _ _ _ _ (dir (s_db s))) as [[r d1]|] eqn:Eo; [| discriminate Hc]. cbn [mbind option_bind] in Hc.
    destruct r as [db'|]; [| discriminate Hc]. destruct (run _ _ _ _ recovery_events (start db')) as [[outs' s']|] eqn:Er'; [| discriminate Hc].
    apply (inj Some) in Hc. apply pair_equal_spec in Hc as [Hc ->]. rewrite !andb_true_iff in Hc. destruct Hc as ((H1 & H2%bool_decide_eq_true) & H3).
    destruct (H H1) as (outs0 & s0 & a & E0 & _ & Hk). injection E0 as <- <-. destruct (Hk H2) as (db2 & d2 & E2 & Hk2).
    rewrite Eo in E2. injection E2 as <- <-. destruct (Hk2 H3) as (outs2 & s2 & a2 & E3 & Ha). rewrite Er' in E3. injection E3 as <- <-. by exists a, a2.
Defined.
