(* ===== verification/Api.v ===== *)
(** * The public API

    Models [hyphadb.go]: the functions clients call, which forward to
    [internal/db] and copy byte slices on the way in and out.  Byte slices are
    references to arrays of one memory that clients and the database share; a
    client may write to any array it holds at any time.  What the database was
    given and what it returned may be kept by it (a memtable keeps the value it
    is given, [Get] returns the value of the memtable), so it is only known to
    behave as the model of [internal/db] says while these arrays have the
    contents they had when they changed hands; in any other case the model has
    no answer ([None]). *)

From S2P Require Import Float64 Bloom BlockCache Wal.
From S2P Require Export DbSystem DbOpen.

(** ** Byte slices *)

(** The arrays, by address. *)
Abbreviation memory := (gmap nat bytes).

(** A slice that is not [nil]. *)
Record byte_slice := mkSlice { s_array : nat; s_off : nat; s_len : nat }.

Definition array (h : memory) (a : nat) : bytes := default [] (h !! a).

Definition contents (h : memory) (value : option byte_slice) : bytes :=
  match value with
  | None => []
  | Some s => take (s_len s) (drop (s_off s) (array h (s_array s)))
  end.

Definition alloc (bs : bytes) (h : memory) : nat * memory :=
  let a := fresh (dom h) in (a, <[a := bs]> h).

(** [append([]byte(nil), value...)] of nothing is [nil]. *)
Definition cloneBytes (value : option byte_slice) (h : memory) : option byte_slice * memory :=
  match value with
  | None => (None, h)
  | Some _ =>
      let bs := contents h value in
      if decide (bs = []) then (None, h)
      else let '(a, h) := alloc bs h in (Some (mkSlice a 0 (length bs)), h)
  end.

(** ** Options *)

Record MemtableOptions := mkMemtableOptions { api_MaxEntries : Z }.
Record CompactionOptions := mkCompactionOptions { api_TableCountThreshold : Z }.
Record BlockCacheOptions := mkBlockCacheOptions { api_CapacityBytes : Z }.
Record ApiBloomFilterOptions := mkApiBloomFilter { api_Disabled : bool; api_FalsePositiveRate : float64 }.
Record SSTableOptions := mkSSTableOptions { api_BloomFilter : ApiBloomFilterOptions }.
Record ApiLimitsOptions := mkApiLimits {
  api_MaxKeyBytes : Z;
  api_MaxValueBytes : Z;
  api_MaxBatchOperations : Z;
  api_MaxBatchBytes : Z;
}.

(** [DataDir] is the directory whose files [API_Open] is given. *)
Record ApiOptions := mkApiOptions {
  api_Memtable : MemtableOptions;
  api_Compaction : CompactionOptions;
  api_BlockCache : BlockCacheOptions;
  api_SSTable : SSTableOptions;
  api_Limits : ApiLimitsOptions;
}.

(** The argument of [internaldb.Open]. *)
Definition inner_options (opts : ApiOptions) : Options :=
  mkOptions (api_MaxEntries (api_Memtable opts)) (api_TableCountThreshold (api_Compaction opts))
    (api_CapacityBytes (api_BlockCache opts))
    (api_Disabled (api_BloomFilter (api_SSTable opts))) (api_FalsePositiveRate (api_BloomFilter (api_SSTable opts)))
    (mkLimits (api_MaxKeyBytes (api_Limits opts)) (api_MaxValueBytes (api_Limits opts))
       (api_MaxBatchOperations (api_Limits opts)) (api_MaxBatchBytes (api_Limits opts))).

Section open.
Context {lz : LZ4Codec}.

Definition API_Open (fuel : nat) (e : env) (lock : result db_error unit) (opts : ApiOptions) (d : fs)
    : option (result db_error (DB LRU) * fs) :=
  '(r, d) ← Open fuel e lock (inner_options opts) d;
  match r with
  | Err err => Some (Err err, d)
  | Ok inner => Some (Ok inner, d)
  end.

Definition API_New (fuel : nat) (e : env) (lock : result db_error unit) (maxMemtableSize compactionThreshold : Z) (d : fs)
    : option (result db_error (DB LRU) * fs) :=
  API_Open fuel e lock
    (mkApiOptions (mkMemtableOptions maxMemtableSize) (mkCompactionOptions compactionThreshold) (mkBlockCacheOptions 0)
       (mkSSTableOptions (mkApiBloomFilter false f_zero)) (mkApiLimits 0 0 0 0)) d.

End open.

(** ** The database behind the API *)

Section api.
Context {lz : LZ4Codec} {C : Type} `{!Cache C}.
Context (Hash128 : bytes -> Z * Z) (math_Log : float64 -> float64) (conv : float64 -> Z).
Context (fuel : nat).
Local Abbreviation sys := (sys C).
Local Abbreviation DB := (DB C).

(** [w_kept] are the arrays the database may refer to, with their contents when
    they changed hands; [w_arrays] are the arrays the client holds.  A public
    snapshot, iterator or batch is the number of the inner one. *)
Record world := mkWorld {
  w_memory : memory;
  w_kept : memory;
  w_arrays : list nat;
  w_sys : sys;
  w_batches : list Batch;
}.

Definition set_memory (h : memory) (w : world) : world := mkWorld h (w_kept w) (w_arrays w) (w_sys w) (w_batches w).
Definition set_kept (k : memory) (w : world) : world := mkWorld (w_memory w) k (w_arrays w) (w_sys w) (w_batches w).
Definition set_arrays (l : list nat) (w : world) : world := mkWorld (w_memory w) (w_kept w) l (w_sys w) (w_batches w).
Definition set_sys (s : sys) (w : world) : world := mkWorld (w_memory w) (w_kept w) (w_arrays w) s (w_batches w).
Definition set_batches (l : list Batch) (w : world) : world := mkWorld (w_memory w) (w_kept w) (w_arrays w) (w_sys w) l.

(** The array of a slice is kept by the database. *)
Definition retain_array (value : option byte_slice) (w : world) : world :=
  match value with
  | None => w
  | Some s => set_kept (<[s_array s := array (w_memory w) (s_array s)]> (w_kept w)) w
  end.

(** A call of the database, provided the arrays it keeps are as they were. *)
Definition inner {A} (f : sys -> option (A * sys)) (w : world) : option (A * world) :=
  if bool_decide (w_kept w ⊆ w_memory w) then '(x, s) ← f (w_sys w); Some (x, set_sys s w) else None.

(** A call of an operation that only concerns [internaldb.DB]. *)
Definition on_db {A} (f : DB -> option (A * DB)) (s : sys) : option (A * sys) :=
  '(x, db) ← f (s_db s); Some (x, set_db db s).

(** A value that the database returns is one it keeps. *)
Definition lend (r : result db_error bytes) (w : world) : result db_error (option byte_slice) * world :=
  match r with
  | Err err => (Err err, w)
  | Ok bs =>
      let '(a, h) := alloc bs (w_memory w) in
      let value := Some (mkSlice a 0 (length bs)) in
      (Ok value, retain_array value (set_memory h w))
  end.

Definition clone (value : option byte_slice) (w : world) : option byte_slice * world :=
  let '(value, h) := cloneBytes value (w_memory w) in (value, set_memory h w).

(** [if err != nil { return nil, err }; return cloneBytes(value), nil] *)
Definition clone_result (r : result db_error (option byte_slice)) (w : world) : result db_error (option byte_slice) * world :=
  match r with
  | Err err => (Err err, w)
  | Ok value => let '(value, w) := clone value w in (Ok value, w)
  end.

(** ** [DB] *)

Definition API_Get (key : bytes) (w : world) : option (result db_error (option byte_slice) * world) :=
  '(r, w) ← inner (on_db (DB_Get Hash128 key)) w;
  let '(value, w) := lend r w in
  Some (clone_result value w).

Definition API_Put (e : env) (key : bytes) (value : option byte_slice) (w : world) : option (result db_error unit * world) :=
  let '(value, w) := clone value w in
  '(r, w) ← inner (on_db (DB_Put e key (contents (w_memory w) value))) w;
  Some (r, retain_array value w).

Definition API_Delete (e : env) (key : bytes) (w : world) : option (result db_error unit * world) :=
  inner (on_db (DB_Delete e key)) w.

Definition API_NewBatch (w : world) : nat * world :=
  (length (w_batches w), set_batches (w_batches w ++ [NewBatch]) w).

Definition API_NewSnapshot (w : world) : option (result db_error nat * world) :=
  inner (fun s =>
    match NewSnapshot (s_db s) with
    | (Err err, db) => Some (Err err, set_db db s)
    | (Ok sn, db) => Some (Ok (length (s_snapshots s)), set_snapshots (s_snapshots s ++ [sn]) (set_db db s))
    end) w.

(** The new iterator, by its number. *)
Definition iterator_made (r : result db_error (Iterator (C := C))) (s : sys) : result db_error nat * sys :=
  match r with
  | Err err => (Err err, s)
  | Ok it => (Ok (length (s_iterators s)), set_iterators (s_iterators s ++ [it]) s)
  end.

Definition API_NewIterator (o : IteratorOptions) (w : world) : option (result db_error nat * world) :=
  inner (fun s => '(r, db) ← DB_NewIterator fuel o (s_db s); Some (iterator_made r (set_db db s))) w.

Definition API_ScanPrefix (prefix : bytes) (w : world) : option (result db_error nat * world) :=
  inner (fun s => '(r, db) ← DB_ScanPrefix fuel prefix (s_db s); Some (iterator_made r (set_db db s))) w.

Definition API_Compact (e : env) (w : world) : option (result db_error unit * world) :=
  inner (on_db (DB_Compact Hash128 math_Log conv fuel e)) w.

(** One step of [Close]. *)
Definition API_Close (w : world) : option (unit * world) :=
  inner (fun s => Some (tt, closer_step s)) w.

(** ** [Batch] *)

Definition on_batch {A} (i : nat) (f : Batch -> sys -> option (A * Batch * sys)) (w : world) : option (A * world) :=
  b ← w_batches w !! i;
  '(x, b, w) ← inner (fun s => '(x, b, s) ← f b s; Some ((x, b), s)) w;
  Some (x, set_batches (<[i := b]> (w_batches w)) w).

Definition API_Batch_Put (i : nat) (key : bytes) (value : option byte_slice) (w : world) : option (result db_error unit * world) :=
  let '(value, w) := clone value w in
  '(r, w) ← on_batch i (fun b s =>
    let '(r, b) := Batch_Put (s_db s) key (contents (w_memory w) value) b in Some (r, b, s)) w;
  Some (r, retain_array value w).

Definition API_Batch_Delete (i : nat) (key : bytes) (w : world) : option (result db_error unit * world) :=
  on_batch i (fun b s => let '(r, b) := Batch_Delete (s_db s) key b in Some (r, b, s)) w.

Definition API_Batch_Commit (e : env) (i : nat) (sync : bool) (w : world) : option (result db_error unit * world) :=
  on_batch i (fun b s => '(r, b, db) ← Batch_Commit e sync b (s_db s); Some (r, b, set_db db s)) w.

Definition API_Batch_Cancel (i : nat) (w : world) : option (result db_error unit * world) :=
  on_batch i (fun b s => Some (Ok tt, Batch_Cancel b, s)) w.

(** ** [Snapshot] *)

Definition API_Snapshot_Get (i : nat) (key : bytes) (w : world) : option (result db_error (option byte_slice) * world) :=
  '(r, w) ← inner (fun s => sn ← s_snapshots s !! i; on_db (Snapshot_Get Hash128 sn key) s) w;
  let '(value, w) := lend r w in
  Some (clone_result value w).

Definition API_Snapshot_NewIterator (i : nat) (o : IteratorOptions) (w : world) : option (result db_error nat * world) :=
  inner (fun s =>
    sn ← s_snapshots s !! i;
    '(r, db) ← Snapshot_NewIterator fuel sn o (s_db s);
    Some (iterator_made r (set_db db s))) w.

Definition API_Snapshot_ScanPrefix (i : nat) (prefix : bytes) (w : world) : option (result db_error nat * world) :=
  inner (fun s =>
    sn ← s_snapshots s !! i;
    '(r, db) ← Snapshot_ScanPrefix fuel sn prefix (s_db s);
    Some (iterator_made r (set_db db s))) w.

Definition API_Sequence (i : nat) (w : world) : option (Z * world) :=
  inner (fun s => sn ← s_snapshots s !! i; Some (sn_sequence sn, s)) w.

Definition API_Snapshot_Close (i : nat) (w : world) : option (unit * world) :=
  inner (fun s =>
    sn ← s_snapshots s !! i;
    let '(sn, db) := Snapshot_Close sn (s_db s) in
    Some (tt, set_snapshots (<[i := sn]> (s_snapshots s)) (set_db db s))) w.

(** ** [Iterator] *)

Definition API_Next (i : nat) (w : world) : option (bool * world) :=
  inner (fun s =>
    it ← s_iterators s !! i;
    '(ok, it, cache) ← Iterator_Next fuel it (blockCache (s_db s));
    Some (ok, set_iterators (<[i := it]> (s_iterators s)) (set_db (set_blockCache cache (s_db s)) s))) w.

Definition API_Key (i : nat) (w : world) : option (bytes * world) :=
  inner (fun s => it ← s_iterators s !! i; Some (Key (i_current it), s)) w.

Definition API_Value (i : nat) (w : world) : option (option byte_slice * world) :=
  '(bs, w) ← inner (fun s => it ← s_iterators s !! i; Some (rValue (i_current it), s)) w;
  match lend (Ok bs) w with
  | (Ok value, w) => Some (clone value w)
  | (Err _, _) => None
  end.

Definition API_Err (i : nat) (w : world) : option (option read_error * world) :=
  inner (fun s => it ← s_iterators s !! i; Some (i_err it, s)) w.

(** What closing the files reports is not modelled. *)
Definition API_Iterator_Close (i : nat) (w : world) : option (unit * world) :=
  inner (fun s =>
    it ← s_iterators s !! i;
    let '(it, db) := Iterator_Close it (s_db s) in
    Some (tt, set_iterators (<[i := it]> (s_iterators s)) (set_db db s))) w.

End api.
