(* ===== verification/ApiClients.v ===== *)
(** * Clients do not share memory with the database

    A client that calls the public API and writes to its arrays as it likes,
    and the same client against a database that is given and returns values.
    The copies that the API makes are what makes the two agree. *)

From S2P Require Import Float64 Bloom BlockCache Wal.
From S2P Require Export Api.

(** ** Calls *)

(** What a client passes as a value: [nil], or a part of one of its arrays. *)
Abbreviation arg := (option (nat * nat * nat)).

(** Handles are numbers.  A client may also make an array and write to one; the
    steps of the workers are among the calls. *)
Inductive client_call :=
| CMake (bs : bytes)
| CStore (i j : nat) (b : Byte.byte)
| CGet (key : bytes)
| CPut (e : env) (key : bytes) (value : arg)
| CDelete (e : env) (key : bytes)
| CNewBatch
| CBatchPut (i : nat) (key : bytes) (value : arg)
| CBatchDelete (i : nat) (key : bytes)
| CBatchCommit (e : env) (i : nat) (sync : bool)
| CBatchCancel (i : nat)
| CNewSnapshot
| CSnapshotGet (i : nat) (key : bytes)
| CSnapshotIterator (i : nat) (o : IteratorOptions)
| CSnapshotScan (i : nat) (prefix : bytes)
| CSequence (i : nat)
| CSnapshotClose (i : nat)
| CNewIterator (o : IteratorOptions)
| CScanPrefix (prefix : bytes)
| CNext (i : nat)
| CKey (i : nat)
| CValue (i : nat)
| CErr (i : nat)
| CIteratorClose (i : nat)
| CCompact (e : env)
| CClose
| CFlusher (e : env)
| CCompactor (es : nat -> env).

Inductive answer :=
| ADone (r : result db_error unit)
| AValue (r : result db_error (option nat))   (** [nil], or the number the array has among the client's *)
| AHandle (r : result db_error nat)
| ABool (b : bool)
| AKey (key : bytes)
| ASequence (n : Z)
| AErr (err : option read_error)
| ANothing.

(** ** What a step leaves of an iterator *)

Section iterators.
Context {lz : LZ4Codec} {C : Type} `{!Cache C}.
Local Abbreviation Iterator := (Iterator (C := C)).

(** The current record and the error are as they were. *)
Definition same_current (it it' : Iterator) : Prop := i_current it' = i_current it /\ i_err it' = i_err it.

Lemma advanceSource_current fuel i (it : Iterator) cache err it' cache' :
  advanceSource fuel i it cache = Some (err, it', cache') -> same_current it it'.
Proof.
  unfold advanceSource. destruct (i_sources it !! i); [| done]. cbn [mbind option_bind].
  destruct (advance_loop _ _ _ _ _) as [[[r s1] c1]|]; [| done]. cbn [mbind option_bind].
  destruct r as [[rec|]|e]; [| by intros [= _ <- _] ..]. cbn [mbind option_bind].
  destruct (heap_Push _ _ _); [| done]. by intros [= _ <- _].
Qed.

Lemma resolve_loop_current fuel key n best (it : Iterator) cache r it' cache' :
  resolve_loop n fuel key best it cache = Some (r, it', cache') -> same_current it it'.
Proof.
  revert best it cache. induction n as [|n IH]; intros best it cache; cbn [resolve_loop]; [done |].
  destruct (i_heap it) as [|top h]; [by intros [= _ <- _] |]. destruct (key_eqb _ _); [| by intros [= _ <- _]].
  destruct (heap_Pop _ _) as [[x h']|]; [| done]. cbn [mbind option_bind].
  destruct (advanceSource _ _ _ _) as [[[err it1] c1]|] eqn:E; [| done]. apply advanceSource_current in E as [E1 E2].
  cbn [set_heap i_current i_err] in E1, E2. cbn [mbind option_bind]. destruct err as [e|]; [by intros [= _ <- _] |]. intros [H1 H2]%IH. by split; congruence.
Qed.

Lemma resolveNextKey_current n fuel (it : Iterator) cache r it' cache' :
  resolveNextKey n fuel it cache = Some (r, it', cache') -> same_current it it'.
Proof.
  unfold resolveNextKey. destruct (heap_Pop _ _) as [[x h']|]; [| done]. cbn [mbind option_bind].
  destruct (advanceSource _ _ _ _) as [[[err it1] c1]|] eqn:E; [| done]. apply advanceSource_current in E as [E1 E2].
  cbn [set_heap i_current i_err] in E1, E2. cbn [mbind option_bind]. destruct err as [e|]; [by intros [= _ <- _] |]. intros [H1 H2]%resolve_loop_current. by split; congruence.
Qed.

Lemma iter_loop_current k n fuel (it : Iterator) cache ok it' cache' :
  iter_loop k n fuel it cache = Some (ok, it', cache') ->
  if ok then i_err it' = i_err it else i_current it' = i_current it.
Proof.
  revert it cache. induction k as [|k IH]; intros it cache; cbn [iter_loop]; [done |].
  destruct (_ =? _)%nat; [by intros [= <- <- _] |].
  destruct (resolveNextKey _ _ _ _) as [[[r it1] c1]|] eqn:E; [| done]. apply resolveNextKey_current in E as [E1 E2].
  cbn [mbind option_bind]. destruct r as [best|e]; [| by intros [= <- <- _]].
  destruct (rDeleted best); [| by intros [= <- <- _]]. intros H%IH. destruct ok; congruence.
Qed.

(** [Next] reports an error only when it returns [false], and then the current
    record stays. *)
Lemma Iterator_Next_current fuel (it : Iterator) cache ok it' cache' :
  Iterator_Next fuel it cache = Some (ok, it', cache') ->
  if ok then i_err it' = None else i_current it' = i_current it.
Proof.
  unfold Iterator_Next. destruct (i_closed it || _) eqn:Hc; [by intros [= <- <- _] |].
  apply orb_false_iff in Hc as [_ Hc]. apply bool_decide_eq_false in Hc. apply eq_None_not_Some in Hc.
  intros H%iter_loop_current. destruct ok; congruence.
Qed.

End iterators.

Section clients.
Context {lz : LZ4Codec} {C : Type} `{!Cache C}.
Context (Hash128 : bytes -> Z * Z) (math_Log : float64 -> float64) (conv : float64 -> Z).
Context (fuel : nat).
Local Abbreviation sys := (sys C).
Local Abbreviation world := (world (C := C)).
Local Abbreviation exec := (exec Hash128 math_Log conv fuel).

(** The client has the handle it calls. *)
Definition valid (c : client_call) (s : sys) (bs : list Batch) : bool :=
  match c with
  | CBatchPut i _ _ | CBatchDelete i _ | CBatchCommit _ i _ | CBatchCancel i => (i <? length bs)%nat
  | CSnapshotGet i _ | CSnapshotIterator i _ | CSnapshotScan i _ | CSequence i | CSnapshotClose i => (i <? length (s_snapshots s))%nat
  | CNext i | CKey i | CValue i | CErr i | CIteratorClose i => (i <? length (s_iterators s))%nat
  | _ => true
  end.

(** ** Through the API *)

Definition arg_slice (arrays : list nat) (value : arg) : option byte_slice :=
  '(i, off, n) ← value; a ← arrays !! i; Some (mkSlice a off n).

(** The client gets hold of the array of a slice it is returned. *)
Definition receive (r : result db_error (option byte_slice)) (w : world) : answer * world :=
  match r with
  | Err err => (AValue (Err err), w)
  | Ok None => (AValue (Ok None), w)
  | Ok (Some s) => (AValue (Ok (Some (length (w_arrays w)))), set_arrays (w_arrays w ++ [s_array s]) w)
  end.

Definition answer_with {A} (f : A -> answer) (r : option (A * world)) : option (answer * world) :=
  '(x, w) ← r; Some (f x, w).

Definition nothing {A} (_ : A) : answer := ANothing.

Definition api_step (c : client_call) (w : world) : option (answer * world) :=
  match c with
  | CMake bs => let '(a, h) := alloc bs (w_memory w) in Some (ANothing, set_arrays (w_arrays w ++ [a]) (set_memory h w))
  | CStore i j b =>
      match w_arrays w !! i with
      | None => Some (ANothing, w)
      | Some a => Some (ANothing, set_memory (alter (fun bs => <[j := b]> bs) a (w_memory w)) w)
      end
  | CGet key => '(r, w) ← API_Get Hash128 key w; Some (receive r w)
  | CPut e key value => answer_with ADone (API_Put e key (arg_slice (w_arrays w) value) w)
  | CDelete e key => answer_with ADone (API_Delete e key w)
  | CNewBatch => let '(i, w) := API_NewBatch w in Some (AHandle (Ok i), w)
  | CBatchPut i key value => answer_with ADone (API_Batch_Put i key (arg_slice (w_arrays w) value) w)
  | CBatchDelete i key => answer_with ADone (API_Batch_Delete i key w)
  | CBatchCommit e i sync => answer_with ADone (API_Batch_Commit e i sync w)
  | CBatchCancel i => answer_with ADone (API_Batch_Cancel i w)
  | CNewSnapshot => answer_with AHandle (API_NewSnapshot w)
  | CSnapshotGet i key => '(r, w) ← API_Snapshot_Get Hash128 i key w; Some (receive r w)
  | CSnapshotIterator i o => answer_with AHandle (API_Snapshot_NewIterator fuel i o w)
  | CSnapshotScan i prefix => answer_with AHandle (API_Snapshot_ScanPrefix fuel i prefix w)
  | CSequence i => answer_with ASequence (API_Sequence i w)
  | CSnapshotClose i => answer_with nothing (API_Snapshot_Close i w)
  | CNewIterator o => answer_with AHandle (API_NewIterator fuel o w)
  | CScanPrefix prefix => answer_with AHandle (API_ScanPrefix fuel prefix w)
  | CNext i => answer_with ABool (API_Next fuel i w)
  | CKey i => answer_with AKey (API_Key i w)
  | CValue i => '(value, w) ← API_Value i w; Some (receive (Ok value) w)
  | CErr i => answer_with AErr (API_Err i w)
  | CIteratorClose i => answer_with nothing (API_Iterator_Close i w)
  | CCompact e => answer_with ADone (API_Compact Hash128 math_Log conv fuel e w)
  | CClose => answer_with nothing (API_Close w)
  | CFlusher e => answer_with nothing (inner (exec (EFlusher e)) w)
  | CCompactor es => answer_with nothing (inner (exec (ECompactor es)) w)
  end.

Definition api_call (c : client_call) (w : world) : option (answer * world) :=
  if valid c (w_sys w) (w_batches w) then api_step c w else Some (ANothing, w).

Fixpoint run_api (cs : list client_call) (w : world) : option (list answer * world) :=
  match cs with
  | [] => Some ([], w)
  | c :: cs => '(x, w) ← api_call c w; '(xs, w) ← run_api cs w; Some (x :: xs, w)
  end.

(** A client that holds nothing yet. *)
Definition boot (s : sys) : world := mkWorld ∅ ∅ [] s [].

(** ** With values instead of references *)

Record client := mkClient {
  c_arrays : list bytes;
  c_sys : sys;
  c_batches : list Batch;
}.

Definition arg_bytes (arrays : list bytes) (value : arg) : bytes :=
  match value with
  | None => []
  | Some (i, off, n) => take n (drop off (default [] (arrays !! i)))
  end.

(** An array of the client's own with the value, unless it is empty. *)
Definition deliver (r : result db_error bytes) (arrays : list bytes) : answer * list bytes :=
  match r with
  | Err err => (AValue (Err err), arrays)
  | Ok [] => (AValue (Ok None), arrays)
  | Ok bs => (AValue (Ok (Some (length arrays))), arrays ++ [bs])
  end.

(** The answer of the model of [internal/db]. *)
Definition told (out : DbSystem.output) (arrays : list bytes) : answer * list bytes :=
  match out with
  | ODone r => (ADone r, arrays)
  | OValue r => deliver r arrays
  | OSnapshot r | OIterator r => (AHandle r, arrays)
  | ONext r => (ABool (match r with Ok (Some _) => true | _ => false end), arrays)
  | ONothing => (ANothing, arrays)
  end.

Definition by_event (ev : event) (k : client) : option (answer * client) :=
  '(out, s) ← exec ev (c_sys k);
  let '(x, arrays) := told out (c_arrays k) in
  Some (x, mkClient arrays s (c_batches k)).

Definition by_batch (i : nat) (f : Batch -> sys -> option (result db_error unit * Batch * sys)) (k : client) : option (answer * client) :=
  b ← c_batches k !! i;
  '(r, b, s) ← f b (c_sys k);
  Some (ADone r, mkClient (c_arrays k) s (<[i := b]> (c_batches k))).

(** What is read off an iterator. *)
Definition by_iterator (i : nat) (f : Iterator (C := C) -> list bytes -> answer * list bytes) (k : client) : option (answer * client) :=
  it ← s_iterators (c_sys k) !! i;
  let '(x, arrays) := f it (c_arrays k) in
  Some (x, mkClient arrays (c_sys k) (c_batches k)).

Definition spec_step (c : client_call) (k : client) : option (answer * client) :=
  match c with
  | CMake bs => Some (ANothing, mkClient (c_arrays k ++ [bs]) (c_sys k) (c_batches k))
  | CStore i j b => Some (ANothing, mkClient (alter (fun bs => <[j := b]> bs) i (c_arrays k)) (c_sys k) (c_batches k))
  | CGet key => by_event (EGet key) k
  | CPut e key value => by_event (EPut e key (arg_bytes (c_arrays k) value)) k
  | CDelete e key => by_event (EDelete e key) k
  | CNewBatch => Some (AHandle (Ok (length (c_batches k))), mkClient (c_arrays k) (c_sys k) (c_batches k ++ [NewBatch]))
  | CBatchPut i key value =>
      by_batch i (fun b s => let '(r, b) := Batch_Put (s_db s) key (arg_bytes (c_arrays k) value) b in Some (r, b, s)) k
  | CBatchDelete i key => by_batch i (fun b s => let '(r, b) := Batch_Delete (s_db s) key b in Some (r, b, s)) k
  | CBatchCommit e i sync => by_batch i (fun b s => '(r, b, db) ← Batch_Commit e sync b (s_db s); Some (r, b, set_db db s)) k
  | CBatchCancel i => by_batch i (fun b s => Some (Ok tt, Batch_Cancel b, s)) k
  | CNewSnapshot => by_event ESnapshot k
  | CSnapshotGet i key => by_event (ESnapshotGet i key) k
  | CSnapshotIterator i o => by_event (ESnapshotIterator i o) k
  | CSnapshotScan i prefix => by_event (ESnapshotScan i prefix) k
  | CSequence i => sn ← s_snapshots (c_sys k) !! i; Some (ASequence (sn_sequence sn), k)
  | CSnapshotClose i => by_event (ESnapshotClose i) k
  | CNewIterator o => by_event (EIterator o) k
  | CScanPrefix prefix => by_event (EScanPrefix prefix) k
  | CNext i => by_event (ENext i) k
  | CKey i => by_iterator i (fun it arrays => (AKey (Key (i_current it)), arrays)) k
  | CValue i => by_iterator i (fun it => deliver (Ok (rValue (i_current it)))) k
  | CErr i => by_iterator i (fun it arrays => (AErr (i_err it), arrays)) k
  | CIteratorClose i => by_event (EIteratorClose i) k
  | CCompact e =>
      '(r, db) ← DB_Compact Hash128 math_Log conv fuel e (s_db (c_sys k));
      Some (ADone r, mkClient (c_arrays k) (set_db db (c_sys k)) (c_batches k))
  | CClose => by_event ECloser k
  | CFlusher e => by_event (EFlusher e) k
  | CCompactor es => by_event (ECompactor es) k
  end.

Definition spec_call (c : client_call) (k : client) : option (answer * client) :=
  if valid c (c_sys k) (c_batches k) then spec_step c k else Some (ANothing, k).

Fixpoint run_spec (cs : list client_call) (k : client) : option (list answer * client) :=
  match cs with
  | [] => Some ([], k)
  | c :: cs => '(x, k) ← spec_call c k; '(xs, k) ← run_spec cs k; Some (x :: xs, k)
  end.

(** The client of a world. *)
Definition view (w : world) : client := mkClient (array (w_memory w) <$> w_arrays w) (w_sys w) (w_batches w).

(** ** Separation *)

(** The arrays of the client are its own, and what the database keeps is as it
    was. *)
Record separate (w : world) : Prop := mkSeparate {
  sp_kept : w_kept w ⊆ w_memory w;
  sp_distinct : NoDup (w_arrays w);
  sp_own : forall a, a ∈ w_arrays w -> w_kept w !! a = None;
  sp_known : forall a, a ∈ w_arrays w -> is_Some (w_memory w !! a);
}.

Lemma fresh_arrays w : separate w -> fresh (dom (w_memory w)) ∉ w_arrays w.
Proof. intros Hs Hin. apply (sp_known w Hs), elem_of_dom in Hin. by apply is_fresh in Hin. Qed.

Lemma fresh_memory (h : memory) : h !! fresh (dom h) = None.
Proof. apply not_elem_of_dom, is_fresh. Qed.

Lemma arrays_fresh (h : memory) a bs (l : list nat) : a ∉ l -> array (<[a := bs]> h) <$> l = array h <$> l.
Proof.
  intros Ha. apply list_fmap_ext. intros i b Hb. unfold array. rewrite lookup_insert_ne; [done |].
  intros ->. by apply list_elem_of_lookup_2 in Hb.
Qed.

Lemma contents_whole (h : memory) a bs : contents (<[a := bs]> h) (Some (mkSlice a 0 (length bs))) = bs.
Proof. cbn. unfold array. rewrite lookup_insert. case_decide; [|done]. cbn. rewrite drop_0. by apply firstn_all. Qed.

(** A new array that nobody holds changes nothing for the client. *)
Lemma alloc_separate bs w :
  separate w ->
  let w' := set_memory (<[fresh (dom (w_memory w)) := bs]> (w_memory w)) w in
  separate w' /\ view w' = view w.
Proof.
  intros Hs. pose proof (fresh_arrays w Hs) as Hf. destruct Hs as [H1 H2 H3 H4]. cbn. split.
  - constructor; cbn; [| done | done |].
    + etrans; [exact H1 |]. apply insert_subseteq, fresh_memory.
    + intros a Ha. rewrite lookup_insert_is_Some. destruct (decide (fresh (dom (w_memory w)) = a)); [by left | right; auto].
  - unfold view. cbn. by rewrite arrays_fresh.
Qed.

(** The database may keep an array that the client does not hold. *)
Lemma keep_separate a off n w :
  separate w -> a ∉ w_arrays w -> is_Some (w_memory w !! a) ->
  separate (retain_array (Some (mkSlice a off n)) w) /\ view (retain_array (Some (mkSlice a off n)) w) = view w.
Proof.
  intros [H1 H2 H3 H4] Ha [bs Hbs]. split; [|done]. constructor; cbn; [| done | | done].
  - unfold array. rewrite Hbs. cbn. by apply insert_subseteq_l.
  - intros b Hb. rewrite lookup_insert_ne; [auto |]. by intros ->.
Qed.

(** The client may be given an array that the database does not keep. *)
Lemma give_separate a w :
  separate w -> a ∉ w_arrays w -> is_Some (w_memory w !! a) -> w_kept w !! a = None ->
  separate (set_arrays (w_arrays w ++ [a]) w).
Proof.
  intros [H1 H2 H3 H4] Ha Hm Hk. constructor; cbn; [done | | |].
  - apply NoDup_app. split; [done |]. split; [by intros b Hb ->%list_elem_of_singleton | apply NoDup_singleton].
  - intros b [Hb | ->%list_elem_of_singleton]%elem_of_app; auto.
  - intros b [Hb | ->%list_elem_of_singleton]%elem_of_app; auto.
Qed.

Lemma set_sys_separate s w : separate w -> separate (set_sys s w).
Proof. by intros []. Qed.

Lemma set_batches_separate l w : separate w -> separate (set_batches l w).
Proof. by intros []. Qed.

(** A slice that neither the client nor the database has yet. *)
Definition unshared (value : option byte_slice) (w : world) : Prop :=
  match value with
  | None => True
  | Some s => (s_array s ∉ w_arrays w) /\ w_kept w !! s_array s = None /\
      array (w_memory w) (s_array s) = contents (w_memory w) value /\ contents (w_memory w) value <> [] /\ is_Some (w_memory w !! s_array s)
  end.

Lemma clone_separate value w :
  separate w ->
  exists value' w', clone value w = (value', w') /\ separate w' /\ view w' = view w /\ unshared value' w' /\
    contents (w_memory w') value' = contents (w_memory w) value.
Proof.
  intros Hs. unfold clone, cloneBytes.
  assert (Hsame : set_memory (w_memory w) w = w) by by destruct w.
  destruct value as [sl|]; [| exists None, w; rewrite Hsame; by split_and!].
  case_decide as Hbs; [exists None, w; rewrite Hsame; by split_and! |].
  set (bs := contents (w_memory w) (Some sl)) in *. cbn [alloc].
  destruct (alloc_separate bs w Hs) as [Hs' Hv]. eexists _, _. split; [done |]. split; [exact Hs' |]. split; [exact Hv |].
  pose proof (contents_whole (w_memory w) (fresh (dom (w_memory w))) bs) as Hc. split; [| exact Hc].
  cbn [unshared s_array set_memory w_memory w_arrays w_kept]. rewrite Hc. split; [by apply fresh_arrays |].
  split; [| split; [| split; [done |]]].
  - destruct (w_kept w !! _) eqn:E; [| done]. eapply lookup_weaken in E; [| apply Hs]. by rewrite fresh_memory in E.
  - unfold array. by rewrite lookup_insert, decide_True.
  - rewrite lookup_insert, decide_True by done. by eexists.
Qed.

Lemma keep_unshared value w : separate w -> unshared value w -> separate (retain_array value w) /\ view (retain_array value w) = view w.
Proof. destruct value as [[a off n]|]; [| done]. intros Hs (H1 & _ & _ & _ & H2). by apply keep_separate. Qed.

Lemma lend_separate bs w :
  separate w ->
  exists value w', lend (Ok bs) w = (Ok value, w') /\ separate w' /\ view w' = view w /\ contents (w_memory w') value = bs.
Proof.
  intros Hs. cbn [lend alloc]. destruct (alloc_separate bs w Hs) as [Hs' Hv]. eexists _, _. split; [done |].
  destruct (keep_separate (fresh (dom (w_memory w))) 0 (length bs) _ Hs') as [H1 H2].
  - exact (fresh_arrays w Hs).
  - cbn. rewrite lookup_insert, decide_True by done. by eexists.
  - split; [exact H1 |]. split; [by rewrite H2 |]. apply contents_whole.
Qed.

(** ** Agreement *)

Definition agrees (r : option (answer * world)) (q : option (answer * client)) : Prop :=
  match r with
  | Some (x, w) => separate w /\ q = Some (x, view w)
  | None => q = None
  end.

Lemma inner_separate {A} (f : sys -> option (A * sys)) w : separate w -> inner f w = '(x, s) ← f (w_sys w); Some (x, set_sys s w).
Proof. intros Hs. unfold inner. by rewrite bool_decide_true by apply Hs. Qed.

(** The client receives the value. *)
Lemma receive_agrees value w : separate w -> unshared value w ->
  agrees (Some (receive (Ok value) w))
    (let '(x, arrays) := deliver (Ok (contents (w_memory w) value)) (c_arrays (view w)) in Some (x, mkClient arrays (w_sys w) (w_batches w))).
Proof.
  intros Hs Hu. destruct value as [s|]; [| by split].
  destruct Hu as (H1 & H2 & H3 & H4 & H5). cbn [receive agrees]. split; [by apply give_separate |].
  unfold view. cbn [c_arrays w_arrays set_arrays w_memory w_sys w_batches deliver].
  rewrite fmap_app, length_fmap. cbn [fmap list_fmap]. rewrite H3. by destruct (contents _ _) eqn:E.
Qed.

(** A call that answers by an event. *)
Lemma event_agrees {A} (f : sys -> option (A * sys)) (g : A -> answer) (out : A -> DbSystem.output) ev w :
  separate w -> exec ev (w_sys w) = ('(x, s) ← f (w_sys w); Some (out x, s)) ->
  (forall x, told (out x) = fun arrays => (g x, arrays)) ->
  agrees (answer_with g (inner f w)) (by_event ev (view w)).
Proof.
  intros Hs Hex Hout. rewrite inner_separate by done. unfold by_event. cbn [c_sys view]. rewrite Hex.
  destruct (f (w_sys w)) as [[x s]|]; [| done]. cbn [mbind option_bind answer_with]. rewrite Hout.
  split; [by apply set_sys_separate | done].
Qed.

(** A call that returns a value. *)
Lemma value_agrees (f : sys -> option (result db_error bytes * sys)) ev w :
  separate w -> exec ev (w_sys w) = ('(r, s) ← f (w_sys w); Some (OValue r, s)) ->
  agrees ('(r, w) ← ('(r, w) ← inner f w; let '(value, w) := lend r w in Some (clone_result value w)); Some (receive r w))
    (by_event ev (view w)).
Proof.
  intros Hs Hex. rewrite inner_separate by done. unfold by_event. cbn [c_sys view]. rewrite Hex.
  destruct (f (w_sys w)) as [[r s]|]; [| done]. cbn [mbind option_bind told].
  pose proof (set_sys_separate s w Hs) as Hs1. destruct r as [bs|err]; [| by split].
  destruct (lend_separate bs _ Hs1) as (v1 & w1 & E1 & Hs2 & Hv1 & Hc1). rewrite E1. cbn [clone_result].
  destruct (clone_separate v1 w1 Hs2) as (v2 & w2 & E2 & Hs3 & Hv2 & Hu & Hc2). rewrite E2. cbn [mbind option_bind].
  pose proof (receive_agrees v2 w2 Hs3 Hu) as Hr. rewrite Hc2, Hc1, Hv2, Hv1 in Hr.
  assert (Hsys : view w2 = view (set_sys s w)) by congruence. injection Hsys as _ Hsys Hb. by rewrite Hsys, Hb in Hr.
Qed.

(** A call on a batch. *)
Lemma batch_agrees i f w :
  separate w -> agrees (answer_with ADone (on_batch i f w)) (by_batch i f (view w)).
Proof.
  intros Hs. unfold on_batch, by_batch. cbn [c_batches view c_sys]. destruct (w_batches w !! i) as [b|]; [| done]. cbn [mbind option_bind].
  rewrite inner_separate by done. destruct (f b (w_sys w)) as [[[r b'] s]|]; [| done]. cbn [mbind option_bind answer_with].
  split; [by apply set_batches_separate, set_sys_separate | done].
Qed.

(** What is read off an iterator without a copy. *)
Lemma iterator_agrees {A} i (f : Iterator (C := C) -> A) (g : A -> answer) w :
  separate w ->
  agrees (answer_with g (inner (fun s => it ← s_iterators s !! i; Some (f it, s)) w))
    (by_iterator i (fun it arrays => (g (f it), arrays)) (view w)).
Proof.
  intros Hs. rewrite inner_separate by done. unfold by_iterator. cbn [c_sys view].
  destruct (s_iterators _ !! i); [| done]. cbn [mbind option_bind answer_with]. split; [by apply set_sys_separate | done].
Qed.

Lemma arg_view value w : contents (w_memory w) (arg_slice (w_arrays w) value) = arg_bytes (c_arrays (view w)) value.
Proof.
  destruct value as [[[i off] n]|]; [| done]. cbn [arg_slice arg_bytes mbind option_bind view c_arrays].
  rewrite list_lookup_fmap. destruct (w_arrays w !! i); cbn; [done |]. by rewrite drop_nil, take_nil.
Qed.

(** A call that passes a value: the copy is the database's. *)
Lemma passing_agrees value (f : bytes -> world -> option (result db_error unit * world)) (q : bytes -> client -> option (answer * client)) w :
  separate w ->
  (forall bs w, separate w -> agrees (answer_with ADone (f bs w)) (q bs (view w))) ->
  (forall bs w r w', f bs w = Some (r, w') -> w_memory w' = w_memory w /\ w_arrays w' = w_arrays w /\ w_kept w' = w_kept w) ->
  agrees (answer_with ADone (let '(value, w) := clone (arg_slice (w_arrays w) value) w in
    '(r, w) ← f (contents (w_memory w) value) w; Some (r, retain_array value w))) (q (arg_bytes (c_arrays (view w)) value) (view w)).
Proof.
  intros Hs Hf Hkeeps. destruct (clone_separate (arg_slice (w_arrays w) value) w Hs) as (v & w1 & E & Hs1 & Hv & Hu & Hc).
  rewrite E, Hc, arg_view, <- Hv. specialize (Hf (arg_bytes (c_arrays (view w1)) value) w1 Hs1).
  destruct (f _ w1) as [[r w2]|] eqn:E2; [| done]. apply Hkeeps in E2 as (H1 & H2 & H3).
  cbn [mbind option_bind answer_with agrees] in *. destruct Hf as [Hs2 Hq].
  destruct (keep_unshared v w2 Hs2) as [Hs3 Hv3]; [unfold unshared in *; by rewrite H1, H2, H3 |].
  split; [done |]. by rewrite Hv3.
Qed.

Lemma value_read_agrees i w :
  separate w ->
  agrees ('(value, w) ← API_Value i w; Some (receive (Ok value) w))
    (by_iterator i (fun it => deliver (Ok (rValue (i_current it)))) (view w)).
Proof.
  intros Hs. unfold API_Value, by_iterator. rewrite inner_separate by done. cbn [c_sys view].
  destruct (s_iterators _ !! i) as [it|]; [| done]. cbn [mbind option_bind].
  pose proof (set_sys_separate (w_sys w) w Hs) as Hs1.
  destruct (lend_separate (rValue (i_current it)) _ Hs1) as (v1 & w1 & E1 & Hs2 & Hv1 & Hc1). rewrite E1. cbn [mbind option_bind].
  destruct (clone_separate v1 w1 Hs2) as (v2 & w2 & E2 & Hs3 & Hv2 & Hu & Hc2). rewrite E2.
  pose proof (receive_agrees v2 w2 Hs3 Hu) as Hr. rewrite Hc2, Hc1, Hv2, Hv1 in Hr.
  assert (Hsys : view w2 = view w) by (rewrite Hv2, Hv1; by destruct w). injection Hsys as _ Hsys Hb. by rewrite Hsys, Hb in Hr.
Qed.

(** Making an array, and writing to one. *)
Lemma make_agrees bs w : separate w -> agrees (api_step (CMake bs) w) (spec_step (CMake bs) (view w)).
Proof.
  intros Hs. cbn [api_step spec_step alloc]. destruct (alloc_separate bs w Hs) as [Hs1 Hv]. split.
  - eapply give_separate in Hs1; [exact Hs1 | exact (fresh_arrays w Hs) | |].
    + cbn. rewrite lookup_insert, decide_True by done. by eexists.
    + cbn. destruct (w_kept w !! _) eqn:E; [| done]. eapply lookup_weaken in E; [| apply Hs]. by rewrite fresh_memory in E.
  - injection Hv as Hv. unfold view. cbn. rewrite fmap_app, Hv. cbn. unfold array at 3. by rewrite lookup_insert, decide_True.
Qed.

Lemma store_agrees i j b w : separate w -> agrees (api_step (CStore i j b) w) (spec_step (CStore i j b) (view w)).
Proof.
  intros Hs. cbn [api_step spec_step]. unfold view at 1. cbn [c_arrays].
  destruct (w_arrays w !! i) as [a|] eqn:Ha.
  - destruct Hs as [H1 H2 H3 H4]. pose proof (list_elem_of_lookup_2 _ _ _ Ha) as Hin. split.
    + constructor; cbn; [| done | done |].
      * apply map_subseteq_spec. intros a' bs Hl. rewrite lookup_alter_ne; [by eapply lookup_weaken |]. intros <-.
        by rewrite H3 in Hl.
      * intros a' Ha'. destruct (decide (a = a')) as [<-|Hne]; [rewrite lookup_alter, decide_True by done | rewrite lookup_alter_ne by done; auto].
        destruct (H4 _ Hin) as [bs ->]. by eexists.
    + unfold view. cbn. do 2 f_equal. f_equal. apply list_eq. intros i'. rewrite list_lookup_alter, !list_lookup_fmap.
      case_decide as Hi; [subst i'; rewrite Ha; cbn; unfold array; rewrite lookup_alter, decide_True by done; destruct (H4 _ Hin) as [bs ->]; done |].
      destruct (w_arrays w !! i') as [a'|] eqn:Ha'; [| done]. cbn. unfold array. rewrite lookup_alter_ne; [done |].
      intros <-. apply Hi. by eapply NoDup_lookup.
  - split; [done |]. unfold view. cbn. do 2 f_equal. f_equal. apply list_eq. intros i'. rewrite list_lookup_alter, !list_lookup_fmap.
    case_decide; [| done]. subst i'. by rewrite Ha.
Qed.

Lemma next_agrees i w :
  separate w -> (i < length (s_iterators (w_sys w)))%nat ->
  agrees (answer_with ABool (API_Next fuel i w)) (by_event (ENext i) (view w)).
Proof.
  intros Hs [it Hit]%lookup_lt_is_Some. unfold API_Next, by_event. rewrite inner_separate by done. cbn [c_sys view DbSystem.exec].
  rewrite Hit. cbn [mbind option_bind]. destruct (Iterator_Next _ _ _) as [[[ok it'] cache]|] eqn:E; [| done].
  cbn [mbind option_bind answer_with told]. split; [by apply set_sys_separate |]. do 2 f_equal. f_equal.
  apply Iterator_Next_current in E. destruct ok; [by rewrite E | by destruct (i_err it')].
Qed.

Lemma step_agrees c w : separate w -> agrees (api_call c w) (spec_call c (view w)).
Proof.
  intros Hs. unfold api_call, spec_call. cbn [view c_sys c_batches]. destruct (valid c _ _) eqn:Hval; [| by split].
  destruct c; cbn [valid] in Hval; try apply Nat.ltb_lt in Hval; cbn [api_step spec_step].
  - by apply make_agrees.
  - by apply store_agrees.
  - apply (value_agrees (on_db (DB_Get Hash128 key))); [done |]. cbn. unfold on_db. by destruct (DB_Get _ _ _) as [[]|].
  - apply (passing_agrees value (fun bs => inner (on_db (DB_Put e key bs))) (fun bs => by_event (EPut e key bs))); [done | |].
    + intros bs w' Hs'. apply (event_agrees _ _ ODone); [done | | done]. cbn. unfold on_db. by destruct (DB_Put _ _ _ _) as [[]|].
    + intros bs w' r w2. unfold inner. case_bool_decide; [| done]. destruct (on_db _ _) as [[]|]; [| done]. by intros [= _ <-].
  - apply (event_agrees _ _ ODone); [done | | done]. cbn. unfold on_db. by destruct (DB_Delete _ _ _) as [[]|].
  - by split; [apply set_batches_separate |].
  - apply (passing_agrees value (fun bs => on_batch i (fun b s => let '(r, b) := Batch_Put (s_db s) key bs b in Some (r, b, s)))
      (fun bs => by_batch i (fun b s => let '(r, b) := Batch_Put (s_db s) key bs b in Some (r, b, s)))); [done | by intros; apply batch_agrees |].
    intros bs w' r w2. unfold on_batch, inner. destruct (w_batches w' !! i); [| done]. cbn [mbind option_bind].
    case_bool_decide; [| done]. destruct (Batch_Put _ _ _ _). by intros [= _ <-].
  - by apply batch_agrees.
  - by apply batch_agrees.
  - by apply batch_agrees.
  - apply (event_agrees _ _ OSnapshot); [done | | done]. cbn. by destruct (NewSnapshot _) as [[] ?].
  - apply lookup_lt_is_Some in Hval as [sn Hsn].
    apply (value_agrees (fun s => sn ← s_snapshots s !! i; on_db (Snapshot_Get Hash128 sn key) s)); [done |].
    cbn. rewrite Hsn. cbn. unfold on_db. by destruct (Snapshot_Get _ _ _ _) as [[]|].
  - apply lookup_lt_is_Some in Hval as [sn Hsn]. apply (event_agrees _ _ OIterator); [done | | done].
    cbn. rewrite Hsn. cbn. by destruct (Snapshot_NewIterator _ _ _ _) as [[[] ?]|].
  - apply lookup_lt_is_Some in Hval as [sn Hsn]. apply (event_agrees _ _ OIterator); [done | | done].
    cbn. rewrite Hsn. cbn. by destruct (Snapshot_ScanPrefix _ _ _ _) as [[[] ?]|].
  - unfold API_Sequence. rewrite inner_separate by done. cbn [view c_sys]. apply lookup_lt_is_Some in Hval as [sn ->]. cbn.
    split; [by apply set_sys_separate | by destruct w].
  - apply lookup_lt_is_Some in Hval as [sn Hsn]. apply (event_agrees _ _ (fun _ => ONothing)); [done | | done].
    cbn. rewrite Hsn. cbn. by destruct (Snapshot_Close _ _).
  - apply (event_agrees _ _ OIterator); [done | | done]. cbn. unfold on_db. by destruct (DB_NewIterator _ _ _) as [[[] ?]|].
  - apply (event_agrees _ _ OIterator); [done | | done]. cbn. unfold on_db. by destruct (DB_ScanPrefix _ _ _) as [[[] ?]|].
  - by apply next_agrees.
  - by apply iterator_agrees.
  - by apply value_read_agrees.
  - by apply iterator_agrees.
  - apply lookup_lt_is_Some in Hval as [it Hit]. apply (event_agrees _ _ (fun _ => ONothing)); [done | | done].
    cbn. rewrite Hit. cbn. by destruct (Iterator_Close _ _).
  - unfold API_Compact. rewrite inner_separate by done. unfold on_db. cbn [view c_sys].
    destruct (DB_Compact _ _ _ _ _ _) as [[r db]|]; [| done]. cbn. split; [by apply set_sys_separate | done].
  - by apply (event_agrees _ _ (fun _ => ONothing)).
  - apply (event_agrees _ _ (fun _ => ONothing)); [done | | done]. cbn. by destruct (flusher_step _ _ _ _ _).
  - apply (event_agrees _ _ (fun _ => ONothing)); [done | | done]. cbn. by destruct (compactor_step _ _ _ _ _ _).
Qed.

Lemma boot_separate s : separate (boot s).
Proof. by constructor; cbn; [| constructor | set_solver | set_solver]. Qed.

Lemma run_agrees cs w :
  separate w -> (fun r => (r.1, view r.2)) <$> run_api cs w = run_spec cs (view w).
Proof.
  revert w. induction cs as [|c cs IH]; intros w Hs; [done |]. cbn [run_api run_spec].
  pose proof (step_agrees c w Hs) as Hc. destruct (api_call c w) as [[x w1]|]; cbn [agrees] in Hc; [| by rewrite Hc].
  destruct Hc as [Hs1 ->]. cbn [mbind option_bind]. rewrite <- (IH w1 Hs1). by destruct (run_api cs w1) as [[]|].
Qed.

(** C12: clients and the database do not share memory.  Whatever a client does
    with its arrays, before or after it passed them to the API or received them
    from it, every sequence of calls on the public API answers, and leaves in the
    arrays of the client, exactly what the database answers when it is given and
    returns values: no write of the client reaches what is stored, and no array
    the client holds is changed by the database. *)
Theorem api_isolated (cs : list client_call) (s : sys) :
  (fun r => (r.1, view r.2)) <$> run_api cs (boot s) = run_spec cs (mkClient [] s []).
Proof. apply (run_agrees cs (boot s)), boot_separate. Qed.

End clients.
