(* ===== verification/ApiClaims.v ===== *)
(** * The public API is correct

    The abstract database of [DbSpec] as the clients of the public API see it:
    with arrays of their own, batches that are filled call by call, and
    iterators whose current entry can be read. *)

From S2P Require Import Float64 Bloom BlockCache Wal MemTableClaims.
From S2P Require Export DbBatch DbClaims ApiClients.

(** ** What the API promises *)

Record aclient := mkAclient {
  k_arrays : list bytes;
  k_batches : list (list batch_op * bool);   (** with whether it was closed *)
  k_current : list (bytes * bytes);          (** the current entry of every iterator *)
  k_db : astate;
}.

(** The event a call of the database is. *)
Definition event_of (c : client_call) (arrays : list bytes) (batches : list (list batch_op * bool)) : option event :=
  match c with
  | CGet key => Some (EGet key)
  | CPut e key value => Some (EPut e key (arg_bytes arrays value))
  | CDelete e key => Some (EDelete e key)
  | CBatchCommit e i sync =>
      match batches !! i with
      | Some (ops, false) => Some (EBatch e ops sync)
      | _ => None
      end
  | CNewSnapshot => Some ESnapshot
  | CSnapshotGet i key => Some (ESnapshotGet i key)
  | CSnapshotIterator i o => Some (ESnapshotIterator i o)
  | CSnapshotScan i prefix => Some (ESnapshotScan i prefix)
  | CSnapshotClose i => Some (ESnapshotClose i)
  | CNewIterator o => Some (EIterator o)
  | CScanPrefix prefix => Some (EScanPrefix prefix)
  | CNext i => Some (ENext i)
  | CIteratorClose i => Some (EIteratorClose i)
  | CCompact e => Some (ECompact e)
  | CClose => Some ECloser
  | CFlusher e => Some (EFlusher e)
  | CCompactor es => Some (ECompactor es)
  | _ => None
  end.

(** The client has the handle it calls. *)
Definition has_handle (c : client_call) (k : aclient) : bool :=
  match c with
  | CBatchPut i _ _ | CBatchDelete i _ | CBatchCommit _ i _ | CBatchCancel i => (i <? length (k_batches k))%nat
  | CSnapshotGet i _ | CSnapshotIterator i _ | CSnapshotScan i _ | CSequence i | CSnapshotClose i =>
      (i <? length (a_snapshots (k_db k)))%nat
  | CNext i | CKey i | CValue i | CErr i | CIteratorClose i => (i <? length (a_iterators (k_db k)))%nat
  | _ => true
  end.

Section promises.
Context (lim : LimitsOptions).

(** The current entries after an event. *)
Definition current_after (ev : event) (out : DbSystem.output) (current : list (bytes * bytes)) : list (bytes * bytes) :=
  match ev, out with
  | ENext i, ONext (Ok (Some kv)) => <[i := kv]> current
  | _, OIterator (Ok _) => current ++ [([], [])]
  | _, _ => current
  end.

(** The batches after an event: one that was committed is closed. *)
Definition batches_after (c : client_call) (out : DbSystem.output) (batches : list (list batch_op * bool)) : list (list batch_op * bool) :=
  match c, out with
  | CBatchCommit _ i _, ODone (Ok _) => alter (fun b => (b.1, true)) i batches
  | _, _ => batches
  end.

(** The answer to a call, and the arrays of the client after it.  Whether an
    explicit compaction fails is open. *)
Definition answers (c : client_call) (out : DbSystem.output) (arrays : list bytes) (x : answer) (arrays' : list bytes) : Prop :=
  match c with
  | CCompact _ => exists r, x = ADone r /\ arrays' = arrays
  | _ => told out arrays = (x, arrays')
  end.

(** An operation is added to a batch, unless a limit forbids it. *)
Definition adds (i : nat) (op : batch_op) (k : aclient) (x : answer) (k' : aclient) : Prop :=
  match k_batches k !! i with
  | None => False
  | Some (ops, true) => x = ADone (Err ErrBatchClosed) /\ k' = k
  | Some (ops, false) =>
      match check_ops lim 0 0 (ops ++ [op]) with
      | Some err => x = ADone (Err err) /\ k' = k
      | None => x = ADone (Ok tt) /\ k' = mkAclient (k_arrays k) (<[i := (ops ++ [op], false)]> (k_batches k)) (k_current k) (k_db k)
      end
  end.

(** A call that is no event of the database. *)
Definition locally (c : client_call) (k : aclient) (x : answer) (k' : aclient) : Prop :=
  match c with
  | CMake bs => x = ANothing /\ k' = mkAclient (k_arrays k ++ [bs]) (k_batches k) (k_current k) (k_db k)
  | CStore i j b =>
      x = ANothing /\ k' = mkAclient (alter (fun bs => <[j := b]> bs) i (k_arrays k)) (k_batches k) (k_current k) (k_db k)
  | CNewBatch =>
      x = AHandle (Ok (length (k_batches k))) /\ k' = mkAclient (k_arrays k) (k_batches k ++ [([], false)]) (k_current k) (k_db k)
  | CBatchPut i key value => adds i (mkOp key (arg_bytes (k_arrays k) value) false) k x k'
  | CBatchDelete i key => adds i (mkOp key [] true) k x k'
  | CBatchCommit _ _ _ => x = ADone (Err ErrBatchClosed) /\ k' = k
  | CBatchCancel i =>
      x = ADone (Ok tt) /\ k' = mkAclient (k_arrays k) (alter (fun b => (b.1, true)) i (k_batches k)) (k_current k) (k_db k)
  | CSequence i => (exists n, x = ASequence n) /\ k' = k
  | CKey i => exists kv, k_current k !! i = Some kv /\ x = AKey kv.1 /\ k' = k
  | CValue i =>
      exists kv arrays, k_current k !! i = Some kv /\ deliver (Ok kv.2) (k_arrays k) = (x, arrays) /\
        k' = mkAclient arrays (k_batches k) (k_current k) (k_db k)
  | CErr i => x = AErr None /\ k' = k
  | _ => False
  end.

Definition promised (c : client_call) (k : aclient) (x : answer) (k' : aclient) : Prop :=
  if has_handle c k then
    match event_of c (k_arrays k) (k_batches k) with
    | Some ev =>
        exists out arrays a, allowed lim ev (k_db k) out a /\ answers c out (k_arrays k) x arrays /\
          k' = mkAclient arrays (batches_after c out (k_batches k)) (current_after ev out (k_current k)) a
    | None => locally c k x k'
    end
  else x = ANothing /\ k' = k.

Inductive promised_run : list client_call -> aclient -> list answer -> aclient -> Prop :=
| promised_nil k : promised_run [] k [] k
| promised_cons c cs k x k1 xs k2 :
    promised c k x k1 -> promised_run cs k1 xs k2 -> promised_run (c :: cs) k (x :: xs) k2.

End promises.

(** ** The representation *)

(** Adding to a batch, by what it holds. *)
Lemma check_ops_app lim i size ops ops' :
  check_ops lim i size (ops ++ ops') =
    match check_ops lim i size ops with
    | Some err => Some err
    | None => check_ops lim (i + len ops) (size + total_size ops) ops'
    end.
Proof.
  revert i size. induction ops as [|op ops IH]; intros i size; cbn [app check_ops total_size foldr].
  - change (len []) with 0. by rewrite !Z.add_0_r.
  - destruct (too_large lim (op_Key op)); [done |]. destruct (if op_Deleted op then None else _); [done |].
    destruct (_ >=? _); [done |]. destruct (_ >? _); [done |]. rewrite IH, len_cons.
    unfold total_size. by rewrite !Z.add_assoc.
Qed.

(** A batch that holds [ops], none of which exceeds a limit. *)
Definition batch_shows (lim : LimitsOptions) (b : Batch) (a : list batch_op * bool) : Prop :=
  b_closed b = a.2 /\
  (a.2 = false -> operations b = a.1 /\ sizeBytes b = total_size a.1 /\ check_ops lim 0 0 a.1 = None /\ kept_op <$> a.1 = a.1).

Lemma alter_closed {X} (l : list (X * bool)) i b : l !! i = Some b -> alter (fun b => (b.1, true)) i l = <[i := (b.1, true)]> l.
Proof.
  intros Hi. apply list_eq. intros j. rewrite list_lookup_alter, list_lookup_insert. case_decide; subst.
  - rewrite Hi, decide_True; [done |]. split; [done |]. by eapply lookup_lt_Some.
  - rewrite decide_False; [done |]. by intros [? _].
Qed.

Section batches.
Context {C : Type} (db : DB C) (lim : LimitsOptions) (Hlim : limits db = lim).

Lemma add_shows op b ops :
  batch_shows lim b (ops, false) -> kept_op op = op ->
  exists b', (if op_Deleted op then Batch_Delete db (op_Key op) b else Batch_Put db (op_Key op) (op_Value op) b) =
    (match check_ops lim 0 0 (ops ++ [op]) with Some err => Err err | None => Ok tt end, b') /\
    batch_shows lim b' (match check_ops lim 0 0 (ops ++ [op]) with Some _ => ops | None => ops ++ [op] end, false).
Proof.
  intros [Hc [H1 (H2 & H3 & H4)]%(fun H => H eq_refl)] Hop. cbn [fst snd] in *.
  pose proof (check_ops_app lim 0 0 ops [op]) as Happ. rewrite H3, !Z.add_0_l in Happ. cbn [check_ops] in Happ.
  assert (Hsame : batch_shows lim b (ops, false)) by by split.
  unfold Batch_Delete, Batch_Put. rewrite Hc, (validateKey_spec lim), (validateValue_spec lim) by exact Hlim.
  destruct (too_large lim (op_Key op)) as [err|]; [rewrite Happ; exists b; by destruct (op_Deleted op) |].
  assert (Hres : reserveOperation db (op_size op) b = if len ops >=? MaxBatchOperations lim then (Err (ErrBatchOperations (MaxBatchOperations lim)), b)
    else if total_size ops + op_size op >? MaxBatchBytes lim then (Err (ErrBatchBytes (MaxBatchBytes lim)), b)
    else (Ok tt, mkBatch ops (total_size ops + op_size op) false)) by (rewrite (reserve_spec lim) by done; by rewrite H1, H2, Hc).
  assert (Hnew : check_ops lim 0 0 (ops ++ [op]) = None -> batch_shows lim (append_op op (mkBatch ops (total_size ops + op_size op) false)) (ops ++ [op], false)).
  { intros Hn. split; [done |]. intros _. cbn [append_op operations sizeBytes fst]. split_and!; try done; [by rewrite total_size_snoc |].
    by rewrite fmap_app, H4, list_fmap_singleton, Hop. }
  unfold op_size in *. destruct (op_Deleted op) eqn:Ed.
  - rewrite Z.add_0_r in *. rewrite Hres. rewrite Happ in *. destruct (_ >=? _); [by exists b |]. destruct (_ >? _); [by exists b |].
    eexists. split; [reflexivity |]. replace (mkOp (op_Key op) [] true) with op; [by apply Hnew |].
    unfold kept_op in Hop. by rewrite Ed in Hop.
  - destruct (too_large_value lim (op_Value op)) as [err|]; [rewrite Happ; by exists b |].
    rewrite Hres. rewrite Happ in *. destruct (_ >=? _); [by exists b |]. destruct (_ >? _); [by exists b |].
    eexists. split; [reflexivity |]. replace (mkOp (op_Key op) (op_Value op) false) with op; [by apply Hnew |].
    destruct op; cbn in Ed; by subst.
Qed.

(** Committing it is writing its operations as one batch. *)
Lemma commit_shows `{!Cache C} e sync b ops :
  batch_shows lim b (ops, false) ->
  Batch_Commit e sync b db = ('(r, db') ← write_batch e ops sync db; Some (r, match r with Ok _ => mkBatch (operations b) (sizeBytes b) true | Err _ => b end, db')).
Proof.
  intros [Hc [H1 (H2 & H3 & H4)]%(fun H => H eq_refl)]. cbn [fst snd] in *.
  pose proof (fill_batch_spec lim db ops NewBatch Hlim eq_refl) as Hfill. cbn [operations sizeBytes NewBatch] in Hfill.
  change (len []) with 0 in Hfill. rewrite H3 in Hfill. destruct Hfill as [size Hfill].
  unfold write_batch, Batch_Commit. rewrite Hfill, Hc. cbn [b_closed operations app]. rewrite H4, H1.
  by destruct (applyBatch e ops sync db) as [[[[]|err] db']|].
Qed.

End batches.

(** ** Current entries *)

Section current.
Context {lz : LZ4Codec} {C : Type} `{!Cache C}.
Context (Hash128 : bytes -> Z * Z) (math_Log : float64 -> float64) (conv : float64 -> Z).
Context (fuel : nat).
Local Abbreviation sys := (sys C).
Local Abbreviation exec := (exec Hash128 math_Log conv fuel).

Definition entry_of (it : Iterator (C := C)) : bytes * bytes := (Key (i_current it), rValue (i_current it)).

Lemma prime_sources_current todo i (it : Iterator (C := C)) cache err it' cache' :
  prime_sources fuel todo i it cache = Some (err, it', cache') -> i_current it' = i_current it.
Proof.
  revert i it cache. induction todo as [|todo IH]; intros i it cache; cbn [prime_sources]; [by intros [= _ <- _] |].
  destruct (i_sources it !! i) as [s|]; [| done]. cbn [mbind option_bind].
  destruct (if negb _ then _ else _) as [[[err1 s1] c1]|]; [| done]. cbn [mbind option_bind]. destruct err1; [by intros [= _ <- _] |].
  destruct (advanceSource _ _ _ _) as [[[err2 it2] c2]|] eqn:E; [| done]. apply advanceSource_current in E as [E _].
  cbn [mbind option_bind]. destruct err2; [by intros [= _ <- _] |]. intros H%IH. by rewrite H, E.
Qed.

Lemma new_iterator_current o q (db : DB C) it db' : newIteratorLocked fuel o q db = Some (Ok it, db') -> entry_of it = ([], []).
Proof.
  unfold newIteratorLocked. destruct (memtables db !! _); [| done]. cbn [mbind option_bind]. destruct (MemTable_SnapshotIterator _); [| done].
  cbn [mbind option_bind]. destruct (memtable_sources _ _); [| done]. cbn [mbind option_bind]. destruct (table_sources _ _ _) as [[tables|?] hs]; [| done].
  destruct (prime_sources _ _ _ _ _) as [[[err it1] c1]|] eqn:E; [| done]. apply prime_sources_current in E.
  cbn [mbind option_bind]. destruct err; [done |]. intros [= <- _]. unfold entry_of. cbn [i_current]. by rewrite E.
Qed.

Lemma hand_out_current (r : result db_error (Iterator (C := C))) (s : sys) out s' :
  (forall it, r = Ok it -> entry_of it = ([], [])) -> hand_out r s = (out, s') ->
  entry_of <$> s_iterators s' = match out with OIterator (Ok _) => (entry_of <$> s_iterators s) ++ [([], [])] | _ => entry_of <$> s_iterators s end.
Proof.
  intros Hr. destruct r as [it|err]; intros [= <- <-]; [| done]. cbn [set_iterators s_iterators]. rewrite fmap_app. cbn. by rewrite Hr.
Qed.

Lemma DB_NewIterator_current o (db : DB C) it db' : DB_NewIterator fuel o db = Some (Ok it, db') -> entry_of it = ([], []).
Proof.
  unfold DB_NewIterator. destruct (closed db); [done |]. destruct (_ ← validateKey _ _; _) as [|]; [| done]. apply new_iterator_current.
Qed.

Lemma Snapshot_NewIterator_current sn o (db : DB C) it db' : Snapshot_NewIterator fuel sn o db = Some (Ok it, db') -> entry_of it = ([], []).
Proof.
  unfold Snapshot_NewIterator. destruct (sn_closed sn); [done |]. destruct (closed db); [done |].
  destruct (_ ← validateKey _ _; _) as [|]; [| done]. apply new_iterator_current.
Qed.

Lemma flusher_iterators e (s s' : sys) : flusher_step Hash128 math_Log conv e s = Some s' -> s_iterators s' = s_iterators s.
Proof.
  assert (Hret : forall final (s s' : sys), flusher_return final s = Some s' -> s_iterators s' = s_iterators s).
  { intros final s1 s1'. unfold flusher_return, send_compaction. destruct final; [| by intros [= <-]].
    destruct (compactionClosed s1); [done |]. by intros [= <-]. }
  unfold flusher_step. destruct (s_flusher s).
  - destruct (flushSignal _); [by intros [= <-] |]. destruct (closed _); by intros [= <-].
  - destruct (immutableMemtables _); [apply Hret | by intros [= <-]].
  - destruct (flush_begin _). by intros [= <-].
  - destruct (flush_create _ _ _ _ _ _ _) as [[[] ?]|]; [| | done]; cbn [mbind option_bind]; [by intros [= <-] | by intros ->%Hret].
  - destruct (flush_publish _ _ _ _) as [[[] ?]|]; [| | done]; cbn [mbind option_bind]; [by intros [= <-] | by intros ->%Hret].
  - destruct (compactionClosed s); [done |]. destruct (flush_finish _ _ _) as [[] ?]; [by intros [= <-] | by intros ->%Hret].
  - by intros [= <-].
Qed.

Lemma compactor_iterators es (s s' : sys) : compactor_step Hash128 math_Log conv fuel es s = Some s' -> s_iterators s' = s_iterators s.
Proof.
  unfold compactor_step. destruct (s_compactor s).
  - destruct (compactionSignal _); [by intros [= <-] |]. destruct (compactionClosed s); by intros [= <-].
  - destruct (compaction_rounds _ _ _ _ _ _ _); [| done]. by intros [= <-].
  - by intros [= <-].
Qed.

Lemma closer_iterators (s : sys) : s_iterators (closer_step s) = s_iterators s.
Proof. unfold closer_step. destruct (s_closer s); [done | by destruct (s_flusher s) | by destruct (s_compactor s) | done]. Qed.

Lemma next_current i (s : sys) out s' :
  exec (ENext i) s = Some (out, s') -> entry_of <$> s_iterators s' = current_after (ENext i) out (entry_of <$> s_iterators s).
Proof.
  cbn [DbSystem.exec]. destruct (s_iterators s !! i) as [it|] eqn:Hi; [| by intros [= <- <-]].
  destruct (Iterator_Next _ _ _) as [[[ok it'] c]|] eqn:E; [| done]. cbn [mbind option_bind]. intros [= <- <-].
  cbn [set_iterators s_iterators]. rewrite list_fmap_insert. apply Iterator_Next_current in E. destruct ok.
  - by rewrite E.
  - assert (Hsame : <[i := entry_of it']> (entry_of <$> s_iterators s) = entry_of <$> s_iterators s).
    { apply list_insert_id. rewrite list_lookup_fmap, Hi. cbn. unfold entry_of. by rewrite E. }
    rewrite Hsame. by destruct (i_err it').
Qed.

(** Only [Next] changes a current entry; a new iterator has none yet. *)
Lemma exec_current ev (s : sys) out s' :
  exec ev s = Some (out, s') -> entry_of <$> s_iterators s' = current_after ev out (entry_of <$> s_iterators s).
Proof.
  destruct ev; cbn [DbSystem.exec current_after].
  - destruct (DB_Put _ _ _ _) as [[]|]; [| done]. by intros [= <- <-].
  - destruct (DB_Delete _ _ _) as [[]|]; [| done]. by intros [= <- <-].
  - destruct (write_batch _ _ _ _) as [[]|]; [| done]. by intros [= <- <-].
  - destruct (DB_Get _ _ _) as [[]|]; [| done]. by intros [= <- <-].
  - destruct (NewSnapshot _) as [[] ?]; by intros [= <- <-].
  - destruct (s_snapshots s !! i); [| by intros [= <- <-]]. destruct (Snapshot_Get _ _ _ _) as [[]|]; [| done]. by intros [= <- <-].
  - destruct (s_snapshots s !! i); [| by intros [= <- <-]]. destruct (Snapshot_Close _ _). by intros [= <- <-].
  - destruct (DB_NewIterator _ _ _) as [[r db]|] eqn:E; [| done]. cbn [mbind option_bind]. intros [= Hh].
    apply hand_out_current in Hh; [done |]. intros it ->. by eapply DB_NewIterator_current.
  - unfold DB_ScanPrefix. destruct (DB_NewIterator _ _ _) as [[r db]|] eqn:E; [| done]. cbn [mbind option_bind]. intros [= Hh].
    apply hand_out_current in Hh; [done |]. intros it ->. by eapply DB_NewIterator_current.
  - destruct (s_snapshots s !! i); [| by intros [= <- <-]]. destruct (Snapshot_NewIterator _ _ _ _) as [[r db]|] eqn:E; [| done].
    cbn [mbind option_bind]. intros [= Hh]. apply hand_out_current in Hh; [done |]. intros it ->. by eapply Snapshot_NewIterator_current.
  - destruct (s_snapshots s !! i); [| by intros [= <- <-]]. unfold Snapshot_ScanPrefix.
    destruct (Snapshot_NewIterator _ _ _ _) as [[r db]|] eqn:E; [| done].
    cbn [mbind option_bind]. intros [= Hh]. apply hand_out_current in Hh; [done |]. intros it ->. by eapply Snapshot_NewIterator_current.
  - apply next_current.
  - destruct (s_iterators s !! i) as [it|] eqn:Hi; [| by intros [= <- <-]]. destruct (Iterator_Close it _) as [it' db] eqn:E.
    intros [= <- <-]. cbn [set_iterators s_iterators]. rewrite list_fmap_insert. apply list_insert_id. rewrite list_lookup_fmap, Hi.
    cbn. unfold Iterator_Close in E. destruct (i_closed it); by injection E as <- _.
  - destruct (DB_Compact _ _ _ _ _ _) as [[]|]; [| done]. by intros [= <- <-].
  - destruct (flusher_step _ _ _ _ _) eqn:E; [| done]. apply flusher_iterators in E. intros [= <- <-]. by rewrite E.
  - destruct (compactor_step _ _ _ _ _ _) eqn:E; [| done]. apply compactor_iterators in E. intros [= <- <-]. by rewrite E.
  - intros [= <- <-]. by rewrite closer_iterators.
Qed.

End current.

(** ** Simulation *)

Section claims.
Context {lz : LZ4Codec} {laws : LZ4Laws} {C : Type} `{!Cache C}.
Context (Hash128 : bytes -> Z * Z) (math_Log : float64 -> float64) (conv : float64 -> Z) (n : Z) (fuel : nat).
Context (lim : LimitsOptions) (wo : WriteOptions) (Hsizing : sizing_fits math_Log conv n wo).
Local Abbreviation client := (client (C := C)).
Local Abbreviation exec := (exec Hash128 math_Log conv fuel).
Local Abbreviation tame := (tame Hash128 math_Log conv fuel).
Local Abbreviation spec_call := (spec_call Hash128 math_Log conv fuel).
Local Abbreviation spec_step := (spec_step Hash128 math_Log conv fuel).

(** The event a call of the client is, and the events of a sequence of calls. *)
Definition held (k : client) : list (list batch_op * bool) := (fun b => (operations b, b_closed b)) <$> c_batches k.

Definition call_event (c : client_call) (k : client) : option event :=
  if valid c (c_sys k) (c_batches k) then event_of c (c_arrays k) (held k) else None.

Fixpoint events (cs : list client_call) (k : client) : list event :=
  match cs with
  | [] => []
  | c :: cs => option_list (call_event c k) ++ match spec_call c k with Some (_, k') => events cs k' | None => [] end
  end.

Record shows (k : client) (a : aclient) (g : ghost) : Prop := mkShows {
  sh_sim : sim Hash128 fuel lim wo (c_sys k) (k_db a) g;
  sh_arrays : c_arrays k = k_arrays a;
  sh_batches : Forall2 (batch_shows lim) (c_batches k) (k_batches a);
  sh_current : k_current a = entry_of <$> s_iterators (c_sys k);
}.

Lemma valid_shows c k a g : shows k a g -> valid c (c_sys k) (c_batches k) = has_handle c a.
Proof.
  intros [Hs _ Hb _]. pose proof (Forall2_length _ _ _ (sim_snapshots _ _ _ _ _ _ _ Hs)) as H1.
  pose proof (Forall2_length _ _ _ (sim_iterators _ _ _ _ _ _ _ Hs)) as H2. pose proof (Forall2_length _ _ _ Hb) as H3.
  destruct c; cbn [valid has_handle]; by rewrite ?H1, ?H2, ?H3.
Qed.

Lemma event_shows c k a g : shows k a g -> event_of c (c_arrays k) (held k) = event_of c (k_arrays a) (k_batches a).
Proof.
  intros [_ Ha Hb _]. rewrite Ha. destruct c; try done. cbn [event_of]. unfold held. rewrite list_lookup_fmap.
  destruct (c_batches k !! i) as [b|] eqn:E.
  - destruct (Forall2_lookup_l _ _ _ _ _ Hb E) as ([ops closed] & -> & Hc & Ho). cbn in *. rewrite Hc. destruct closed; [done |].
    by destruct (Ho eq_refl) as [-> _].
  - apply lookup_ge_None in E. rewrite (Forall2_length _ _ _ Hb) in E. by rewrite lookup_ge_None_2.
Qed.

(** The calls that are answered by an event directly. *)
Lemma spec_event c k bs ev :
  event_of c (c_arrays k) bs = Some ev -> (match c with CBatchCommit _ _ _ | CCompact _ => False | _ => True end) ->
  spec_step c k = by_event Hash128 math_Log conv fuel ev k.
Proof. destruct c; cbn [event_of]; try done; by intros [= <-]. Qed.

(** A call that is an event. *)
Lemma event_step c k a g ev rest :
  shows k a g -> valid c (c_sys k) (c_batches k) = true -> event_of c (c_arrays k) (held k) = Some ev ->
  fits_trace fuel n (g_hist g) (ev :: rest) -> tame (ev :: rest) (c_sys k) = true ->
  exists x k' a' g', spec_call c k = Some (x, k') /\ promised lim c a x a' /\ shows k' a' g' /\
    fits_trace fuel n (g_hist g') rest /\ tame rest (c_sys k') = true.
Proof.
  intros Hsh Hval Hev Hf Ht. pose proof (valid_shows c k a g Hsh) as Hh. pose proof (event_shows c k a g Hsh) as He.
  pose proof Hsh as [Hs Harr Hb Hcur]. rewrite Hval in Hh. rewrite Hev in He.
  destruct (tame_step Hash128 math_Log conv fuel lim wo n Hsizing ev rest _ _ g Hs Hf Ht) as (out & s1 & a1 & g1 & E & Ha & Hs1 & _ & Hf1 & Ht1).
  pose proof (exec_current _ _ _ _ _ _ _ _ E) as Hcur1. unfold ApiClients.spec_call. rewrite Hval.
  assert (Hprom : forall x arrays', answers c out (k_arrays a) x arrays' ->
    promised lim c a x (mkAclient arrays' (batches_after c out (k_batches a)) (current_after ev out (k_current a)) a1)).
  { intros x arrays' Hx. unfold promised. rewrite <- Hh, <- He. by exists out, arrays', a1. }
  assert (Hshow : forall arrays' bs', Forall2 (batch_shows lim) bs' (batches_after c out (k_batches a)) ->
    shows (mkClient arrays' s1 bs') (mkAclient arrays' (batches_after c out (k_batches a)) (current_after ev out (k_current a)) a1) g1).
  { intros arrays' bs' Hbs. constructor; cbn; try done. by rewrite Hcur1, Hcur. }
  destruct c; try (rewrite (spec_event _ _ _ _ Hev I); unfold by_event; rewrite E; cbn [mbind option_bind];
    destruct (told out (c_arrays k)) as [x arrays'] eqn:Htold; rewrite Harr in Htold;
    exists x, (mkClient arrays' s1 (c_batches k)); eexists _, g1; split; [done |];
    split; [by apply Hprom | split; [by apply Hshow | done]]).
  - cbn [event_of valid] in Hev, Hval. unfold held in Hev. rewrite list_lookup_fmap in Hev.
    cbn [ApiClients.spec_step]. unfold by_batch. destruct (c_batches k !! i) as [b|] eqn:Eb; [| done]. cbn in Hev.
    destruct (Forall2_lookup_l _ _ _ _ _ Hb Eb) as ([ops closed] & Ei & Hbs).
    destruct (b_closed b) eqn:Ec; [done |]. injection Hev as <-. pose proof Hbs as [Hc Ho]. cbn in Hc, Ho. rewrite Ec in Hc. subst closed.
    destruct (Ho eq_refl) as (Hops & _). cbn [mbind option_bind].
    rewrite (commit_shows (s_db (c_sys k)) lim (sim_limits _ _ _ _ _ _ _ Hs) e sync b ops) by done.
    cbn [DbSystem.exec] in E. rewrite Hops in E. destruct (write_batch e ops sync _) as [[r db']|]; [| done].
    cbn [mbind option_bind] in E |- *. injection E as <- <-. eexists _, _, _, g1. split; [done |].
    split; [by apply Hprom |]. split; [| by split]. rewrite <- Harr. apply Hshow. cbn [batches_after]. destruct r as [u|err].
    + rewrite (alter_closed _ _ _ Ei). apply Forall2_insert; [done |]. by split.
    + rewrite list_insert_id by done. done.
  - cbn [event_of] in Hev. injection Hev as <-. cbn [ApiClients.spec_step DbSystem.exec] in *.
    destruct (DB_Compact _ _ _ _ _ _) as [[r db']|]; [| done]. cbn [mbind option_bind] in *. injection E as <- <-.
    eexists _, _, _, g1. split; [done |]. split; [apply Hprom; by exists r |]. split; [| by split]. 
    by apply Hshow.
Qed.

(** A call that adds to a batch. *)
Lemma adds_step i op k a g :
  shows k a g -> (i < length (c_batches k))%nat -> kept_op op = op ->
  exists x k' a', by_batch i (fun b s => let '(r, b) := (if op_Deleted op then Batch_Delete (s_db s) (op_Key op) b
      else Batch_Put (s_db s) (op_Key op) (op_Value op) b) in Some (r, b, s)) k = Some (x, k') /\
    adds lim i op a x a' /\ shows k' a' g /\ c_sys k' = c_sys k.
Proof.
  intros Hsh [b Eb]%lookup_lt_is_Some Hop. pose proof Hsh as [Hs Harr Hb Hcur].
  destruct (Forall2_lookup_l _ _ _ _ _ Hb Eb) as ([ops closed] & Ei & Hbs). unfold by_batch, adds. rewrite Eb, Ei. cbn [mbind option_bind].
  destruct closed.
  - assert (Hcl : (if op_Deleted op then Batch_Delete (s_db (c_sys k)) (op_Key op) b else Batch_Put (s_db (c_sys k)) (op_Key op) (op_Value op) b)
      = (Err ErrBatchClosed, b)) by (unfold Batch_Delete, Batch_Put; rewrite (proj1 Hbs); by destruct (op_Deleted op)).
    rewrite Hcl. cbn [mbind option_bind]. eexists _, _, a. split; [done |]. split; [done |]. rewrite list_insert_id by done. by destruct k.
  - destruct (add_shows (s_db (c_sys k)) lim (sim_limits _ _ _ _ _ _ _ Hs) op b ops Hbs Hop) as (b' & E & Hb'). rewrite E. cbn [mbind option_bind].
    destruct (check_ops lim 0 0 (ops ++ [op])) as [err|].
    + eexists _, _, a. split; [done |]. split; [done |]. split; [| done]. constructor; cbn; try done.
      rewrite <- (list_insert_id (k_batches a) i (ops, false)) by done. by apply Forall2_insert.
    + eexists _, _, _. split; [done |]. split; [done |]. split; [| done]. constructor; cbn; try done. by apply Forall2_insert.
Qed.

(** A call that is no event. *)
Lemma local_step c k a g :
  shows k a g -> valid c (c_sys k) (c_batches k) = true -> event_of c (c_arrays k) (held k) = None ->
  exists x k' a', spec_call c k = Some (x, k') /\ promised lim c a x a' /\ shows k' a' g /\ c_sys k' = c_sys k.
Proof.
  intros Hsh Hval Hev. pose proof (valid_shows c k a g Hsh) as Hh. pose proof (event_shows c k a g Hsh) as He.
  pose proof Hsh as [Hs Harr Hb Hcur]. rewrite Hval in Hh. rewrite Hev in He. unfold ApiClients.spec_call, promised. rewrite Hval, <- Hh, <- He.
  destruct c; try done; cbn [valid] in Hval; try apply Nat.ltb_lt in Hval; cbn [ApiClients.spec_step locally]; cbn [event_of] in Hev.
  - eexists _, _, _. split; [done |]. split; [done |]. split; [| done]. constructor; cbn; try done. by rewrite Harr.
  - eexists _, _, _. split; [done |]. split; [done |]. split; [| done]. constructor; cbn; try done. by rewrite Harr.
  - eexists _, _, _. split; [done |]. split; [by rewrite (Forall2_length _ _ _ Hb) |]. split; [| done]. constructor; cbn; try done.
    apply Forall2_app; [done |]. by repeat constructor.
  - rewrite <- Harr. by apply (adds_step i (mkOp key (arg_bytes (c_arrays k) value) false)).
  - by apply (adds_step i (mkOp key [] true)).
  - unfold by_batch, held in *. rewrite list_lookup_fmap in Hev. apply lookup_lt_is_Some in Hval as [b Eb]. rewrite Eb in Hev |- *.
    cbn in Hev |- *. unfold Batch_Commit. destruct (b_closed b); [| done]. cbn [mbind option_bind]. eexists _, _, a. split; [done |].
    split; [done |]. rewrite list_insert_id by done. rewrite set_db_same. by destruct k.
  - unfold by_batch. apply lookup_lt_is_Some in Hval as [b Eb]. rewrite Eb. cbn [mbind option_bind]. eexists _, _, _. split; [done |].
    split; [done |]. split; [| done]. constructor; cbn; try done. destruct (Forall2_lookup_l _ _ _ _ _ Hb Eb) as ([ops closed] & Ei & Hbs).
    rewrite (alter_closed _ _ _ Ei). apply Forall2_insert; [done |]. split; [| done]. unfold Batch_Cancel. by destruct (b_closed b) eqn:?.
  - apply lookup_lt_is_Some in Hval as [sn ->]. cbn. eexists _, _, a. split; [done |]. split; [by eauto | done].
  - unfold by_iterator. apply lookup_lt_is_Some in Hval as [it Ei]. rewrite Ei. cbn. eexists _, _, a. split; [done |].
    split; [exists (entry_of it); by rewrite Hcur, list_lookup_fmap, Ei | by destruct k].
  - unfold by_iterator. apply lookup_lt_is_Some in Hval as [it Ei]. rewrite Ei. cbn [mbind option_bind].
    destruct (deliver _ _) as [x arrays] eqn:Ed. eexists _, _, _. split; [done |].
    split; [exists (entry_of it), arrays; rewrite Hcur, list_lookup_fmap, Ei, <- Harr; by split |]. split; [| done]. by constructor.
  - unfold by_iterator. apply lookup_lt_is_Some in Hval as [it Ei]. rewrite Ei. cbn [mbind option_bind].
    destruct (Forall2_lookup_l _ _ _ _ _ (sim_iterators _ _ _ _ _ _ _ Hs) Ei) as (copy & _ & _ & Herr & _). rewrite Herr.
    eexists _, _, a. split; [done |]. split; [done | by destruct k].
Qed.

Lemma client_step c k a g rest :
  shows k a g -> fits_trace fuel n (g_hist g) (option_list (call_event c k) ++ rest) ->
  tame (option_list (call_event c k) ++ rest) (c_sys k) = true ->
  exists x k' a' g', spec_call c k = Some (x, k') /\ promised lim c a x a' /\ shows k' a' g' /\
    fits_trace fuel n (g_hist g') rest /\ tame rest (c_sys k') = true.
Proof.
  intros Hsh. unfold call_event. destruct (valid c (c_sys k) (c_batches k)) eqn:Hval.
  - destruct (event_of c (c_arrays k) (held k)) as [ev|] eqn:Hev; cbn [option_list app]; intros Hf Ht; [by eapply event_step |].
    destruct (local_step c k a g Hsh Hval Hev) as (x & k' & a' & E & Hp & Hsh' & Hsys). exists x, k', a', g. by rewrite Hsys.
  - cbn [option_list app]. intros Hf Ht. exists ANothing, k, a, g. unfold ApiClients.spec_call, promised.
    by rewrite Hval, <- (valid_shows c k a g Hsh), Hval.
Qed.

Lemma client_run cs k a g :
  shows k a g -> fits_trace fuel n (g_hist g) (events cs k) -> tame (events cs k) (c_sys k) = true ->
  exists xs k' a' g', run_spec Hash128 math_Log conv fuel cs k = Some (xs, k') /\ promised_run lim cs a xs a' /\ shows k' a' g'.
Proof.
  revert k a g. induction cs as [|c cs IH]; intros k a g Hsh Hf Ht; cbn [events run_spec] in *.
  - exists [], k, a, g. split; [done |]. split; [constructor | done].
  - destruct (client_step c k a g _ Hsh Hf Ht) as (x & k1 & a1 & g1 & E & Hp & Hsh1 & Hf1 & Ht1). rewrite E in Hf1, Ht1 |- *.
    destruct (IH k1 a1 g1 Hsh1 Hf1 Ht1) as (xs & k2 & a2 & g2 & E2 & Hp2 & Hsh2). cbn [mbind option_bind]. rewrite E2.
    exists (x :: xs), k2, a2, g2. split; [done |]. split; [by econstructor | done].
Qed.

End claims.

(** ** On the opened database *)

Section opened.
Context {lz : LZ4Codec} {laws : LZ4Laws}.
Context (Hash128 : bytes -> Z * Z) (math_Log : float64 -> float64) (conv : float64 -> Z).

(** C3: the public API is correct.  [Open] of the API succeeds on an empty
    directory with options that pass the checks.  Whatever sequence of calls
    clients then make, with the steps of the workers anywhere in between and
    with their arrays written to at any time, every call returns, and what it
    answers and leaves in the arrays of the client is what the abstract database
    promises: a value passed to [Put] is stored as it was at the call, what [Get],
    [Value] and snapshots return is an array of the client's own, batches are
    filled call by call within their limits and committed as a whole, and the key
    and the value of an iterator are those of the entry [Next] moved to.  The
    events of the calls and the workers form a [tame] run. *)
Theorem api_correct (n : Z) fuel (e : env) opts o w cs :
  normalizeOptions (inner_options opts) = Ok (o, w) -> e_segment e = None -> sizing_fits math_Log conv n w ->
  exists db d, API_Open fuel e (Ok tt) opts ∅ = Some (Ok db, d) /\
    let evs := events Hash128 math_Log conv fuel cs (mkClient [] (start db) []) in
    (fits_trace fuel n [] evs -> tame Hash128 math_Log conv fuel evs (start db) = true ->
     exists xs w' a, run_api Hash128 math_Log conv fuel cs (boot (start db)) = Some (xs, w') /\
       promised_run (Limits o) cs (mkAclient [] [] [] (mkAstate ∅ [] [] false)) xs a /\ c_arrays (view w') = k_arrays a).
Proof.
  intros Hn He Hsz. destruct (opened_sim Hash128 fuel e (inner_options opts) o w Hn He) as (db & d & Eo & Hsim & _).
  exists db, d. split; [unfold API_Open; by rewrite Eo |]. intros evs Hf Ht.
  assert (Hsh : shows Hash128 fuel (Limits o) w (mkClient [] (start db) []) (mkAclient [] [] [] (mkAstate ∅ [] [] false)) empty_ghost)
    by by constructor.
  destruct (client_run Hash128 math_Log conv n fuel (Limits o) w Hsz cs _ _ _ Hsh Hf Ht) as (xs & k & a & g & E & Hp & Hsh').
  pose proof (run_agrees Hash128 math_Log conv fuel cs _ (boot_separate (start db))) as Hiso. change (view (boot (start db))) with (mkClient [] (start db) []) in Hiso. rewrite E in Hiso.
  destruct (run_api _ _ _ _ cs _) as [[xs' w']|]; [| done]. cbn in Hiso. injection Hiso as -> Hv.
  exists xs, w', a. split; [done |]. split; [done |]. rewrite Hv. by apply Hsh'.
Qed.

End opened.

(** ** A client *)

Definition api_options : ApiOptions :=
  mkApiOptions (mkMemtableOptions 1) (mkCompactionOptions 1) (mkBlockCacheOptions 0) (mkSSTableOptions (mkApiBloomFilter false f_zero))
    (mkApiLimits 0 0 0 0).

(** The client overwrites the array it stored, and the one it received; it fills
    a batch from a part of an array, overwrites that, and commits; it reads the
    result through an iterator, and an older value through a snapshot. *)
Definition client_calls : list client_call :=
  [CMake [x01; x02]; CPut run_env [x61] (Some (0, 0, 1)%nat); CStore 0 0 x09; CGet [x61]; CStore 1 0 x07; CGet [x61]] ++
  repeat (CFlusher run_env) 6 ++
  [CNewSnapshot; CNewBatch; CBatchPut 0 [x62] (Some (0, 1, 1)%nat); CStore 0 1 x08; CBatchPut 0 [x61] None; CBatchCommit run_env 0 true;
   CBatchCancel 0; CBatchDelete 0 [x61]; CNewIterator (mkIterOptions [] []); CNext 0; CKey 0; CValue 0; CNext 0; CKey 0; CValue 0; CStore 3 0 x05; CNext 0; CKey 0; CErr 0;
   CSnapshotGet 0 [x61]; CSnapshotGet 7 [x61]; CGet [x62]; CIteratorClose 0; CSnapshotClose 0; CClose; CGet [x62]].

Definition client_answers : list answer :=
  [ANothing; ADone (Ok tt); ANothing; AValue (Ok (Some 1%nat)); ANothing; AValue (Ok (Some 2%nat))] ++ repeat ANothing 6 ++
  [AHandle (Ok 0%nat); AHandle (Ok 0%nat); ADone (Ok tt); ANothing; ADone (Ok tt); ADone (Ok tt);
   ADone (Ok tt); ADone (Err ErrBatchClosed); AHandle (Ok 0%nat); ABool true; AKey [x61]; AValue (Ok None); ABool true; AKey [x62]; AValue (Ok (Some 3%nat)); ANothing;
   ABool false; AKey [x62]; AErr None;
   AValue (Ok (Some 4%nat)); ANothing; AValue (Ok (Some 5%nat)); ANothing; ANothing; ANothing; AValue (Err ErrClosed)].

(** What the client's arrays hold in the end. *)
Definition client_arrays : list bytes := [[x09; x08]; [x07]; [x01]; [x05]; [x01]; [x02]].

Definition client_events : list event :=
  [EPut run_env [x61] [x01]; EGet [x61]; EGet [x61]] ++ repeat (EFlusher run_env) 6 ++
  [ESnapshot; EBatch run_env [mkOp [x62] [x02] false; mkOp [x61] [] false] true; EIterator (mkIterOptions [] []); ENext 0; ENext 0; ENext 0;
   ESnapshotGet 0 [x61]; EGet [x62]; EIteratorClose 0; ESnapshotClose 0; ECloser; EGet [x62]].

Definition client_check (db : DB LRU) : option (list event * bool * list answer * list bytes) :=
  let evs := events (lz := run_codec) sum_hash log_hundredth (fun _ => 0) 20 client_calls (mkClient [] (start db) []) in
  '(xs, w) ← run_api (lz := run_codec) sum_hash log_hundredth (fun _ => 0) 20 client_calls (boot (start db));
  Some (evs, tame (lz := run_codec) sum_hash log_hundredth (fun _ => 0) 20 evs (start db), xs, c_arrays (view w)).

Lemma client_checked : on_opened client_check = Some (client_events, true, client_answers, client_arrays).
Proof. vm_compute. reflexivity. Qed.

Lemma api_correct_witness :
  exists a, promised_run (Limits run_normalized.1) client_calls (mkAclient [] [] [] (mkAstate ∅ [] [] false)) client_answers a /\
    k_arrays a = client_arrays.
Proof.
  destruct (api_correct (lz := run_codec) (laws := run_codec_laws) sum_hash log_hundredth (fun _ => 0) 5 20 run_env api_options
    run_normalized.1 run_normalized.2 client_calls eq_refl eq_refl run_sizing) as (db & d & E & H).
  pose proof client_checked as Hc. unfold on_opened, run_opened in Hc.
  assert (E' : Open (lz := run_codec) 20 run_env (Ok tt) run_options ∅ = Some (Ok db, d)).
  { unfold API_Open in E. change (inner_options api_options) with run_options in E.
    destruct (Open _ _ _ _ _) as [[[] ?]|]; [| done | done]. exact E. }
  rewrite E' in Hc. unfold client_check in Hc. destruct (run_api _ _ _ _ _ _) as [[xs w]|] eqn:Er; [| done].
  cbn [mbind option_bind] in Hc. apply (inj Some) in Hc. apply pair_eq in Hc as [[[Hev Ht]%pair_eq Hxs]%pair_eq Harr].
  rewrite Hev in H, Ht.
  destruct H as (xs' & w' & a & Er' & Hp & Ha).
  - split; [vm_compute; congruence |]. split; [vm_compute; congruence | vm_compute; lia].
  - exact Ht.
  - injection Er' as -> ->. exists a. split; congruence.
Defined.
