(* ===== verification/Processes.v ===== *)
(** * Processes that share a disk

    Several processes open databases in directories of one disk, use them, close
    them, or are killed.  Every step works on the files that the directory has at
    that moment, whoever wrote them.  Models how [Open] and [Close] of
    [internal/db/db.go] use the lock of [internal/filelock]: taken after the
    options were checked and before anything is read, given up when [Open] fails
    and at the end of [Close]. *)

From S2P Require Import Float64 Bloom BlockCache Wal MemTableClaims DbClaims.
From S2P Require Export FileLock DbSystem DbOpen DbLiveness.

(** ** The machine *)

Section machine.
Context {lz : LZ4Codec}.
Context (Hash128 : bytes -> Z * Z) (math_Log : float64 -> float64) (conv : float64 -> Z).
Context (fuel : nat).
Local Abbreviation sys := (sys LRU).
Local Abbreviation exec := (exec Hash128 math_Log conv fuel).

(** An opened database: its directory, [db.directoryLock], and the rest. *)
Record session := mkSession { se_path : bytes; se_lock : Lock; se_sys : sys; se_alive : bool }.

Record machine := mkMachine {
  mc_disk : gmap bytes fs;      (** the files of every directory *)
  mc_os : lock_os;
  mc_sessions : list session;
}.

Definition files (disk : gmap bytes fs) (path : bytes) : fs := default ∅ (disk !! path).

(** [filepath.Join(opts.DataDir, "LOCK")] *)
Definition lock_file (path : bytes) : bytes := path ++ [x2f; x4c; x4f; x43; x4b].

Definition of_lock_error (err : lock_error) : db_error :=
  match err with ErrLocked _ => ErrDatabaseLocked | ErrLockOS => ErrOS end.

(** [Open] of a directory.  [mkdir] says that [MkdirAll] fails; the deferred
    function gives the lock up when the rest fails. *)
Definition open_session (f : lock_faults) (mkdir : bool) (e : env) (opts : Options) (path : bytes) (m : machine)
    : option (result db_error nat * machine) :=
  match normalizeOptions opts with
  | Err err => Some (Err err, m)
  | Ok _ =>
      if mkdir then Some (Err ErrOS, m)
      else
        match Acquire f (lock_file path) (mc_os m) with
        | (Err err, os) => Some (Err (of_lock_error err), mkMachine (mc_disk m) os (mc_sessions m))
        | (Ok lock, os) =>
            '(r, d) ← Open fuel e (Ok tt) opts (files (mc_disk m) path);
            let disk := <[path := d]> (mc_disk m) in
            match r with
            | Err err => let '(_, _, os) := Lock_Close f lock os in Some (Err err, mkMachine disk os (mc_sessions m))
            | Ok db =>
                Some (Ok (length (mc_sessions m)), mkMachine disk os (mc_sessions m ++ [mkSession path lock (start db) true]))
            end
        end
  end.

(** The database with the files of its directory as they are. *)
Definition load (d : fs) (s : sys) : sys := set_db (set_dir d (s_db s)) s.

(** The last section of [Close]. *)
Definition close_lock (f : lock_faults) (before after : sys) (lock : Lock) (os : lock_os) : Lock * lock_os :=
  match s_closer before, s_closer after with
  | CloseDone, _ => (lock, os)
  | _, CloseDone => let '(_, lock, os) := Lock_Close f lock os in (lock, os)
  | _, _ => (lock, os)
  end.

(** A step of an opened database. *)
Definition session_step (f : lock_faults) (i : nat) (ev : event) (m : machine) : option (DbSystem.output * machine) :=
  match mc_sessions m !! i with
  | None => Some (ONothing, m)
  | Some se =>
      if se_alive se then
        '(out, s) ← exec ev (load (files (mc_disk m) (se_path se)) (se_sys se));
        let '(lock, os) := close_lock f (se_sys se) s (se_lock se) (mc_os m) in
        Some (out, mkMachine (<[se_path se := dir (s_db s)]> (mc_disk m)) os
                     (<[i := mkSession (se_path se) lock s true]> (mc_sessions m)))
      else Some (ONothing, m)
  end.

(** The process is killed: its descriptions are closed. *)
Definition kill_session (i : nat) (m : machine) : machine :=
  match mc_sessions m !! i with
  | None => m
  | Some se =>
      mkMachine (mc_disk m) (match lk_file (se_lock se) with Some fd => os_Close fd (mc_os m) | None => mc_os m end)
        (<[i := mkSession (se_path se) (mkLock None) (se_sys se) false]> (mc_sessions m))
  end.

Inductive action :=
| AOpen (f : lock_faults) (mkdir : bool) (e : env) (opts : Options) (path : bytes)
| AStep (f : lock_faults) (i : nat) (ev : event)
| AKill (i : nat).

Inductive effect :=
| ROpen (r : result db_error nat)
| RStep (out : DbSystem.output)
| RKill.

Definition act (x : action) (m : machine) : option (effect * machine) :=
  match x with
  | AOpen f mkdir e opts path => '(r, m) ← open_session f mkdir e opts path m; Some (ROpen r, m)
  | AStep f i ev => '(out, m) ← session_step f i ev m; Some (RStep out, m)
  | AKill i => Some (RKill, kill_session i m)
  end.

Fixpoint acts (xs : list action) (m : machine) : option (list effect * machine) :=
  match xs with
  | [] => Some ([], m)
  | x :: xs => '(r, m) ← act x m; '(rs, m) ← acts xs m; Some (r :: rs, m)
  end.

(** ** Directories with an owner *)

(** The database of a process that has its directory for itself. *)
Inductive ownership := Owns | Closed | Dead.
Global Instance ownership_eq_dec : EqDecision ownership.
Proof. solve_decision. Defined.

Record owner := mkOwner { ow_path : bytes; ow_sys : sys; ow_state : ownership }.

(** [ac_disk] has the files of the directories that have no owner. *)
Record owners := mkOwners { ac_disk : gmap bytes fs; ac_owners : list owner }.

Definition owns (path : bytes) (o : owner) : bool := bool_decide (ow_state o = Owns /\ ow_path o = path).

Definition owned (path : bytes) (p : owners) : bool := existsb (owns path) (ac_owners p).

Definition open_owner (f : lock_faults) (mkdir : bool) (e : env) (opts : Options) (path : bytes) (p : owners)
    : option (result db_error nat * owners) :=
  match normalizeOptions opts with
  | Err err => Some (Err err, p)
  | Ok _ =>
      if mkdir || lf_open f || lf_flock f then Some (Err ErrOS, p)
      else if owned path p then Some (Err ErrDatabaseLocked, p)
      else
        '(r, d) ← Open fuel e (Ok tt) opts (files (ac_disk p) path);
        match r with
        | Err err => Some (Err err, mkOwners (<[path := d]> (ac_disk p)) (ac_owners p))
        | Ok db => Some (Ok (length (ac_owners p)), mkOwners (ac_disk p) (ac_owners p ++ [mkOwner path (start db) Owns]))
        end
  end.

(** The files go back to the disk. *)
Definition hand_back (o : owner) (p : owners) : gmap bytes fs :=
  match ow_state o with Owns => <[ow_path o := dir (s_db (ow_sys o))]> (ac_disk p) | _ => ac_disk p end.

Definition owner_step (i : nat) (ev : event) (p : owners) : option (DbSystem.output * owners) :=
  match ac_owners p !! i with
  | None => Some (ONothing, p)
  | Some o =>
      match ow_state o with
      | Dead => Some (ONothing, p)
      | Closed => '(out, s) ← exec ev (ow_sys o); Some (out, mkOwners (ac_disk p) (<[i := mkOwner (ow_path o) s Closed]> (ac_owners p)))
      | Owns =>
          '(out, s) ← exec ev (ow_sys o);
          match s_closer s with
          | CloseDone =>
              Some (out, mkOwners (hand_back (mkOwner (ow_path o) s Owns) p) (<[i := mkOwner (ow_path o) s Closed]> (ac_owners p)))
          | _ => Some (out, mkOwners (ac_disk p) (<[i := mkOwner (ow_path o) s Owns]> (ac_owners p)))
          end
      end
  end.

Definition kill_owner (i : nat) (p : owners) : owners :=
  match ac_owners p !! i with
  | None => p
  | Some o => mkOwners (hand_back o p) (<[i := mkOwner (ow_path o) (ow_sys o) Dead]> (ac_owners p))
  end.

Definition owner_act (x : action) (p : owners) : option (effect * owners) :=
  match x with
  | AOpen f mkdir e opts path => '(r, p) ← open_owner f mkdir e opts path p; Some (ROpen r, p)
  | AStep f i ev => '(out, p) ← owner_step i ev p; Some (RStep out, p)
  | AKill i => Some (RKill, kill_owner i p)
  end.

Fixpoint owner_acts (xs : list action) (p : owners) : option (list effect * owners) :=
  match xs with
  | [] => Some ([], p)
  | x :: xs => '(r, p) ← owner_act x p; '(rs, p) ← owner_acts xs p; Some (r :: rs, p)
  end.

(** Nobody compacts a database that was closed. *)
Definition orderly_act (x : action) (p : owners) : bool :=
  match x with
  | AStep _ i (ECompact _) =>
      match ac_owners p !! i with Some o => negb (bool_decide (ow_state o = Closed)) | None => true end
  | _ => true
  end.

Fixpoint orderly (xs : list action) (p : owners) : bool :=
  match xs with
  | [] => true
  | x :: xs => orderly_act x p && match owner_act x p with Some (_, p) => orderly xs p | None => true end
  end.

(** ** A database that is being closed *)

Record close_order (s : sys) : Prop := mkClosing {
  cl_closed : s_closer s <> NotClosing -> closed (s_db s) = true;
  cl_flusher : compactionClosed s = true -> s_flusher s = FDone;
  cl_compactor : s_closer s = CloseDone -> s_compactor s = KDone;
}.

Lemma closed_batch e ops sync (db : DB LRU) : closed db = true -> exists err, write_batch e ops sync db = Some (Err err, db).
Proof.
  intros Hc. unfold write_batch. destruct (fill_batch db ops NewBatch) as [[u|err] b]; [| by exists err].
  unfold Batch_Commit, applyBatch. rewrite Hc. destruct (b_closed b); by eexists.
Qed.

Lemma compactLocked_closed e threshold (db : DB LRU) r db' :
  compactLocked Hash128 math_Log conv fuel e threshold db = Some (r, db') -> closed db' = closed db.
Proof.
  unfold compactLocked. destruct (choose_plan _ _ _) as [[plan|]|]; [| by intros [= _ <-] | done]. cbn [mbind option_bind].
  destruct (negb _); [by intros [= _ <-] |]. destruct (mapM _ _) as [inputs|]; [| by intros [= _ <-]].
  destruct (MergeSSTablesWithOptions _ _ _ _ _ _ _) as [[[[meta file]|err] cache]|]; [| by intros [= _ <-] | done]. cbn [mbind option_bind].
  destruct (install _ _ _ _) as [[u|err] d]; [| by intros [= _ <-]]. unfold publish_compaction.
  destruct (Write _ _ _ _) as [[[err|]|] d']; [destruct (e_remove _ _); by intros [= _ <-] | by intros [= _ <-] |].
  destruct (remove_tables _ _ _ _ _ _) as [[[[removed failed] d2] cache2]|]; [| done]. by intros [= _ <-].
Qed.

Lemma rounds_closed k es (db db' : DB LRU) :
  compaction_rounds Hash128 math_Log conv k fuel es db = Some db' -> closed db' = closed db.
Proof.
  revert db. induction k as [|k IH]; intros db; cbn [compaction_rounds]; [done |].
  destruct (hasCompactionWork _ _ _) as [[]|]; [| by intros [= <-] | done]. cbn [mbind option_bind negb].
  destruct (compactLocked _ _ _ _ _ _ _) as [[r db1]|] eqn:E; [| done]. apply compactLocked_closed in E. cbn [mbind option_bind].
  destruct r; [intros H%IH; congruence | intros [= <-]; done].
Qed.

Lemma publish_closed e imm meta (db : DB LRU) r db' : flush_publish e imm meta db = Some (r, db') -> closed db' = closed db.
Proof.
  unfold flush_publish. cbn [set_tables set_sstables manifest dir set_manifest].
  destruct (Write _ _ _ _) as [[[err|]|] d]; [destruct (e_remove e (Path meta)); by intros [= _ <-] | |];
    cbn [immutableMemtables set_dir set_tables set_sstables set_manifest]; destruct (immutableMemtables db) as [|imm' imms];
    try destruct (_ =? _)%nat; by intros [= _ <-].
Qed.

(** What a step of a worker leaves as it is. *)
Record same_closing (s s' : sys) : Prop := mkSameClosing {
  sc_closed : closed (s_db s') = closed (s_db s);
  sc_closer : s_closer s' = s_closer s;
  sc_flusher : s_flusher s = FDone -> s_flusher s' = FDone;
  sc_compactor : s_compactor s = KDone -> s_compactor s' = KDone;
}.

Lemma flusher_closing e (s s' : sys) : flusher_step Hash128 math_Log conv e s = Some s' -> same_closing s s'.
Proof.
  assert (Hret : forall final (s s' : sys), s_flusher s <> FDone -> flusher_return final s = Some s' ->
    closed (s_db s') = closed (s_db s) /\ s_closer s' = s_closer s /\ s_compactor s' = s_compactor s).
  { intros final s1 s1' _. unfold flusher_return, send_compaction. destruct final; [| by intros [= <-]].
    destruct (compactionClosed s1); [done |]. by intros [= <-]. }
  unfold flusher_step. destruct (s_flusher s) eqn:Ef.
  - destruct (flushSignal _); [by intros [= <-]; constructor; rewrite ?Ef |].
    destruct (closed _) eqn:Ec; intros [= <-]; by constructor; cbn; rewrite ?Ef, ?Ec.
  - destruct (immutableMemtables _); [| by intros [= <-]; constructor; rewrite ?Ef].
    intros (H1 & H2 & H3)%Hret; [| by rewrite Ef]. constructor; rewrite ?Ef; congruence.
  - destruct (flush_begin _) eqn:E. injection E as _ <-. intros [= <-]. by constructor; cbn; rewrite ?Ef.
  - destruct (flush_create _ _ _ _ _ _ _) as [[r db]|] eqn:E; [| done]. apply flush_create_frame in E as (_ & Hc & _).
    destruct r; cbn [mbind option_bind]; [intros [= <-]; by constructor; cbn; rewrite ?Ef |].
    intros (H1 & H2 & H3)%Hret; [| cbn; by rewrite Ef]. constructor; rewrite ?Ef; cbn in *; congruence.
  - destruct (flush_publish _ _ _ _) as [[r db]|] eqn:E; [| done]. apply publish_closed in E.
    destruct r; cbn [mbind option_bind]; [intros [= <-]; by constructor; cbn; rewrite ?Ef |].
    intros (H1 & H2 & H3)%Hret; [| cbn; by rewrite Ef]. constructor; rewrite ?Ef; cbn in *; congruence.
  - destruct (compactionClosed s); [done |]. destruct (flush_finish _ _ _) as [r db] eqn:E. apply flush_finish_frame in E as (_ & Hc & _).
    destruct r; [intros [= <-]; by constructor; cbn; rewrite ?Ef |].
    intros (H1 & H2 & H3)%Hret; [| cbn; by rewrite Ef]. constructor; rewrite ?Ef; cbn in *; congruence.
  - intros [= <-]. by constructor.
Qed.

Lemma compactor_closing es (s s' : sys) : compactor_step Hash128 math_Log conv fuel es s = Some s' -> same_closing s s'.
Proof.
  unfold compactor_step. destruct (s_compactor s) eqn:Ek.
  - destruct (compactionSignal _); [by intros [= <-]; constructor; rewrite ?Ek |].
    destruct (compactionClosed s); intros [= <-]; by constructor; cbn; rewrite ?Ek.
  - destruct (compaction_rounds _ _ _ _ _ _ _) eqn:E; [| done]. apply rounds_closed in E. intros [= <-].
    by constructor; cbn; rewrite ?Ek.
  - intros [= <-]. by constructor.
Qed.

(** The calls of clients. *)
Definition client_event (ev : event) : bool := match ev with EFlusher _ | ECompactor _ | ECloser => false | _ => true end.

Lemma hand_out_workers (r : result db_error (Iterator (C := LRU))) (s : sys) :
  s_flusher (hand_out r s).2 = s_flusher s /\ s_compactor (hand_out r s).2 = s_compactor s /\ s_closer (hand_out r s).2 = s_closer s /\
  s_db (hand_out r s).2 = s_db s.
Proof. by destruct r. Qed.

Lemma client_workers ev (s : sys) out s' :
  client_event ev = true -> exec ev s = Some (out, s') ->
  s_flusher s' = s_flusher s /\ s_compactor s' = s_compactor s /\ s_closer s' = s_closer s.
Proof.
  destruct ev; cbn [client_event DbSystem.exec]; intros Hev; try done.
  - destruct (DB_Put _ _ _ _) as [[]|]; [| done]. by intros [= <- <-].
  - destruct (DB_Delete _ _ _) as [[]|]; [| done]. by intros [= <- <-].
  - destruct (write_batch _ _ _ _) as [[]|]; [| done]. by intros [= <- <-].
  - destruct (DB_Get _ _ _) as [[]|]; [| done]. by intros [= <- <-].
  - destruct (NewSnapshot _) as [[] ?]; by intros [= <- <-].
  - destruct (s_snapshots s !! i); [| by intros [= <- <-]]. destruct (Snapshot_Get _ _ _ _) as [[]|]; [| done]. by intros [= <- <-].
  - destruct (s_snapshots s !! i); [| by intros [= <- <-]]. destruct (Snapshot_Close _ _). by intros [= <- <-].
  - destruct (DB_NewIterator _ _ _) as [[r db]|]; [| done]. cbn [mbind option_bind]. intros [= Hh].
    pose proof (hand_out_workers r (set_db db s)) as Hw. rewrite Hh in Hw. naive_solver.
  - destruct (DB_ScanPrefix _ _ _) as [[r db]|]; [| done]. cbn [mbind option_bind]. intros [= Hh].
    pose proof (hand_out_workers r (set_db db s)) as Hw. rewrite Hh in Hw. naive_solver.
  - destruct (s_snapshots s !! i); [| by intros [= <- <-]]. destruct (Snapshot_NewIterator _ _ _ _) as [[r db]|]; [| done].
    cbn [mbind option_bind]. intros [= Hh]. pose proof (hand_out_workers r (set_db db s)) as Hw. rewrite Hh in Hw. naive_solver.
  - destruct (s_snapshots s !! i); [| by intros [= <- <-]]. destruct (Snapshot_ScanPrefix _ _ _ _) as [[r db]|]; [| done].
    cbn [mbind option_bind]. intros [= Hh]. pose proof (hand_out_workers r (set_db db s)) as Hw. rewrite Hh in Hw. naive_solver.
  - destruct (s_iterators s !! i); [| by intros [= <- <-]]. destruct (Iterator_Next _ _ _) as [[[ok it] c]|]; [| done]. by intros [= <- <-].
  - destruct (s_iterators s !! i) as [it|]; [| by intros [= <- <-]]. destruct (Iterator_Close it _). by intros [= <- <-].
  - destruct (DB_Compact _ _ _ _ _ _) as [[]|]; [| done]. by intros [= <- <-].
Qed.

(** On a closed database they do not depend on the directory, nor do they
    change it; only an explicit compaction does. *)
Definition is_compact (ev : event) : bool := match ev with ECompact _ => true | _ => false end.

Lemma client_closed d ev (s : sys) :
  client_event ev = true -> is_compact ev = false -> closed (s_db s) = true ->
  match exec ev s with
  | Some (out, s') => exec ev (load d s) = Some (out, load d s') /\ dir (s_db s') = dir (s_db s) /\ closed (s_db s') = true
  | None => exec ev (load d s) = None
  end.
Proof.
  intros Hev Hcomp Hc. assert (Hc' : closed (s_db (load d s)) = true) by done.
  destruct ev; cbn [client_event is_compact] in Hev, Hcomp; try done; cbn [DbSystem.exec].
  - unfold DB_Put. rewrite Hc, Hc'. by split.
  - unfold DB_Delete. rewrite Hc, Hc'. by split.
  - destruct (closed_batch e ops sync _ Hc) as [err E]. destruct (closed_batch e ops sync _ Hc') as [err' E'].
    assert (Herr : err = err').
    { unfold write_batch in E, E'. change (fill_batch (s_db (load d s)) ops NewBatch) with (fill_batch (s_db (load d s)) ops NewBatch) in E'.
      assert (Hfill : forall b, fill_batch (s_db (load d s)) ops b = fill_batch (s_db s) ops b).
      { clear. induction ops as [|op ops IH]; intros b; [done |]. cbn [fill_batch].
        change (Batch_Delete (s_db (load d s))) with (Batch_Delete (s_db s)). change (Batch_Put (s_db (load d s))) with (Batch_Put (s_db s)).
        destruct (if op_Deleted op then _ else _) as [[] b']; [apply IH | done]. }
      rewrite Hfill in E'. destruct (fill_batch (s_db s) ops NewBatch) as [[u|?] b]; [| congruence].
      unfold Batch_Commit, applyBatch in E, E'. rewrite Hc in E. rewrite Hc' in E'. destruct (b_closed b); cbn in E, E'; congruence. }
    rewrite E, E'. subst err'. by split.
  - unfold DB_Get. rewrite Hc, Hc'. by split.
  - unfold NewSnapshot. rewrite Hc, Hc'. by split.
  - cbn [load set_db s_snapshots]. destruct (s_snapshots s !! i) as [sn|]; [| by split]. unfold Snapshot_Get.
    destruct (sn_closed sn); [by split |]. rewrite Hc, Hc'. by split.
  - cbn [load set_db s_snapshots]. destruct (s_snapshots s !! i) as [sn|]; [| by split]. unfold Snapshot_Close.
    destruct (sn_closed sn); [by split |]. unfold unregisterReaderLocked. cbn [s_db set_db set_dir activeReaders].
    destruct (_ <=? _); by split.
  - unfold DB_NewIterator. rewrite Hc, Hc'. by split.
  - unfold DB_ScanPrefix, DB_NewIterator. rewrite Hc, Hc'. by split.
  - cbn [load set_db s_snapshots]. destruct (s_snapshots s !! i) as [sn|]; [| by split]. unfold Snapshot_NewIterator.
    destruct (sn_closed sn); [by split |]. rewrite Hc, Hc'. by split.
  - cbn [load set_db s_snapshots]. destruct (s_snapshots s !! i) as [sn|]; [| by split]. unfold Snapshot_ScanPrefix, Snapshot_NewIterator.
    destruct (sn_closed sn); [by split |]. rewrite Hc, Hc'. by split.
  - cbn [load set_db s_iterators s_db set_dir blockCache]. destruct (s_iterators s !! i) as [it|]; [| by split].
    destruct (Iterator_Next _ _ _) as [[[ok it'] c]|]; [| done]. by split.
  - cbn [load set_db s_iterators s_db]. destruct (s_iterators s !! i) as [it|]; [| by split]. unfold Iterator_Close, unregisterReaderLocked.
    destruct (i_closed it); [by split |]. destruct (i_registered it); [| by split]. cbn [set_dir activeReaders]. destruct (_ <=? _); by split.
Qed.

Lemma exec_closing ev (s : sys) out s' : close_order s -> exec ev s = Some (out, s') -> close_order s'.
Proof.
  intros [H1 H2 H3] E. assert (Hkeep : same_closing s s' -> close_order s').
  { intros [K1 K2 K3 K4]. constructor; unfold compactionClosed in *; rewrite ?K2; rewrite ?K1; auto. }
  destruct (client_event ev) eqn:Hev.
  - destruct (client_workers ev s out s' Hev E) as (W1 & W2 & W3). constructor; unfold compactionClosed in *; rewrite ?W1, ?W2, ?W3; auto.
    intros Hc%H1. destruct (is_compact ev) eqn:Hcomp.
    + destruct ev; try done. cbn [DbSystem.exec] in E. destruct (DB_Compact _ _ _ _ _ _) as [[r db]|] eqn:Ed; [| done].
      injection E as <- <-. cbn. unfold DB_Compact in Ed. apply compactLocked_closed in Ed. congruence.
    + pose proof (client_closed ∅ ev s Hev Hcomp Hc) as Hcl. rewrite E in Hcl. by destruct Hcl as (_ & _ & Hcl).
  - destruct ev; try done; cbn [DbSystem.exec] in E.
    + destruct (flusher_step _ _ _ _ _) eqn:Ef; [| done]. injection E as <- <-. by apply flusher_closing in Ef; auto.
    + destruct (compactor_step _ _ _ _ _ _) eqn:Ek; [| done]. injection E as <- <-. by apply compactor_closing in Ek; auto.
    + injection E as <- <-. unfold closer_step. destruct (s_closer s) eqn:Ec.
      * by constructor; cbn.
      * destruct (s_flusher s) eqn:Ef; constructor; unfold compactionClosed; cbn; rewrite ?Ec, ?Ef; try done; intros; by apply H1.
      * destruct (s_compactor s) eqn:Ek; constructor; unfold compactionClosed in *; cbn; rewrite ?Ec, ?Ek in *; try done; intros; by first [apply H1 | apply H2].
      * constructor; unfold compactionClosed; rewrite ?Ec; intros; by first [apply H1 | apply H2; unfold compactionClosed; rewrite Ec | apply H3].
Qed.

(** After [Close] has returned, only a compaction touches the directory. *)
Lemma ended_exec d ev (s : sys) :
  close_order s -> s_closer s = CloseDone -> is_compact ev = false ->
  match exec ev s with
  | Some (out, s') => exec ev (load d s) = Some (out, load d s') /\ dir (s_db s') = dir (s_db s) /\ s_closer s' = CloseDone
  | None => exec ev (load d s) = None
  end.
Proof.
  intros [H1 H2 H3] Hd Hcomp. pose proof (H3 Hd) as Hk. assert (Hf : s_flusher s = FDone) by (apply H2; unfold compactionClosed; by rewrite Hd).
  destruct (client_event ev) eqn:Hev.
  - pose proof (client_closed d ev s Hev Hcomp) as Hc. destruct (exec ev s) as [[out s']|] eqn:E; [| by apply Hc, H1; rewrite Hd].
    destruct (client_workers ev s out s' Hev E) as (_ & _ & W). destruct Hc as (Hc1 & Hc2 & _); [by apply H1; rewrite Hd |]. split; [done |]. by split; [| congruence].
  - destruct ev; try done; cbn [DbSystem.exec].
    + unfold flusher_step. cbn [load set_db s_flusher]. by rewrite Hf.
    + unfold compactor_step. cbn [load set_db s_compactor]. by rewrite Hk.
    + unfold closer_step. cbn [load set_db s_closer]. by rewrite Hd.
Qed.

(** Opening gives a database nobody closes yet. *)
Lemma start_closing (db : DB LRU) : close_order (start db).
Proof. by constructor. Qed.

(** ** Agreement *)

Lemma load_same (s : sys) : load (dir (s_db s)) s = s.
Proof. by destruct s as [[] ? ? ? ? ?]. Qed.

Lemma load_load d d' (s : sys) : load d (load d' s) = load d s.
Proof. done. Qed.

Lemma open_files e opts d db d' : Open fuel e (Ok tt) opts d = Some (Ok db, d') -> dir db = d'.
Proof.
  unfold Open. destruct (normalizeOptions opts) as [[o w]|]; [| done]. cbn [mbind result_bind].
  destruct (map_err _ _) as [mf|]; [| done]. cbn [mbind result_bind]. destruct (MemTable_New _); [| done]. cbn [mbind option_bind].
  destruct (replay_segments _ _ _ _) as [[[[recovered|] d1] mt]|]; [| done | done]. cbn [mbind option_bind].
  cbn [result_bind]. destruct (NewSegmentInDir e _ _) as [[|] d2]; [| done]. destruct (open_tables _ _ _ _ _ _ _) as [[db2|]|] eqn:E; [| done | done].
  cbn [mbind option_bind]. intros [= <- <-]. unfold open_tables in E. destruct (maxSeqFromSSTables _ _ _ _ _) as [[[[|] hs] c]|]; [| done | done].
  cbn [mbind option_bind] in E. destruct (maxSeqFromMemTable _); [| done]. by injection E as <-.
Qed.

(** The lock a database holds. *)
Definition held_lock (o : owner) : option bytes := match ow_state o with Owns => Some (lock_file (ow_path o)) | _ => None end.

Lemma lock_file_inj path path' : lock_file path = lock_file path' -> path = path'.
Proof. apply app_inj_2. done. Qed.

Lemma owned_iff path p : owned path p = true <-> Some (lock_file path) ∈ held_lock <$> ac_owners p.
Proof.
  unfold owned. rewrite existsb_exists, list_elem_of_fmap. split.
  - intros (o & Ho & H). apply bool_decide_eq_true in H as [H1 H2]. exists o. unfold held_lock. rewrite H1, H2.
    split; [done |]. by apply list_elem_of_In.
  - intros (o & H & Ho%list_elem_of_In). exists o. split; [done |]. apply bool_decide_eq_true. unfold held_lock in H.
    destruct (ow_state o); [| done..]. injection H as H%lock_file_inj. done.
Qed.

Definition same_session (disk : gmap bytes fs) (se : session) (o : owner) : Prop :=
  se_path se = ow_path o /\ close_order (ow_sys o) /\
  match ow_state o with
  | Owns => se_alive se = true /\ se_sys se = ow_sys o /\ files disk (ow_path o) = dir (s_db (ow_sys o)) /\ s_closer (ow_sys o) <> CloseDone
  | Closed => se_alive se = true /\ (exists d, se_sys se = load d (ow_sys o)) /\ s_closer (ow_sys o) = CloseDone
  | Dead => se_alive se = false
  end.

Record same (m : machine) (p : owners) : Prop := mkSame {
  sm_locks : locks_ok (mkLockWorld (mc_os m) (se_lock <$> mc_sessions m)) (held_lock <$> ac_owners p);
  sm_sessions : Forall2 (same_session (mc_disk m)) (mc_sessions m) (ac_owners p);
  sm_disk : forall path, owned path p = false -> files (mc_disk m) path = files (ac_disk p) path;
}.

Lemma files_insert (disk : gmap bytes fs) path d path' : files (<[path := d]> disk) path' = if decide (path = path') then d else files disk path'.
Proof. unfold files. rewrite lookup_insert. by case_decide. Qed.

(** Files of a directory that nobody owns may change. *)
Lemma sessions_unowned disk path d p ses :
  owned path p = false -> Forall2 (same_session disk) ses (ac_owners p) -> Forall2 (same_session (<[path := d]> disk)) ses (ac_owners p).
Proof.
  intros Ho Hf. apply Forall2_same_length_lookup. split; [by eapply Forall2_length |]. intros i se o Hse Ho'.
  destruct (Forall2_lookup_lr _ _ _ _ _ _ Hf Hse Ho') as (H1 & H2 & H3). split; [done |]. split; [done |].
  destruct (ow_state o) eqn:Es; [| done..]. rewrite files_insert. case_decide as Hp; [| done]. exfalso.
  assert (Ht : owned path p = true); [| congruence]. apply owned_iff, list_elem_of_fmap. exists o. unfold held_lock. rewrite Es, Hp.
  split; [done |]. by eapply list_elem_of_lookup_2.
Qed.

Definition agreeing {A} (r : option (A * machine)) (q : option (A * owners)) : Prop :=
  match r, q with
  | Some (x, m), Some (y, p) => x = y /\ same m p
  | None, None => True
  | _, _ => False
  end.

Lemma open_agrees f mkdir e opts path m p :
  same m p -> agreeing (open_session f mkdir e opts path m) (open_owner f mkdir e opts path p).
Proof.
  intros Hs. unfold open_session, open_owner. destruct (normalizeOptions opts) as [?|err]; [| by split]. destruct mkdir; cbn [orb]; [by split |].
  pose proof (acquire_spec _ _ _ f (lock_file path) (sm_locks _ _ Hs)) as Ha.
  destruct (Acquire f (lock_file path) (mc_os m)) as [[l|err] os].
  - destruct Ha as (Hf & Hno & Hl). rewrite <- owned_iff in Hno. rewrite Hf. apply not_true_iff_false in Hno. rewrite Hno. rewrite <- (sm_disk _ _ Hs) by done.
    destruct (Open fuel e (Ok tt) opts _) as [[[db|err] d]|] eqn:Eo; [| | done]; cbn [mbind option_bind].
    + apply open_files in Eo. split; [by rewrite (Forall2_length _ _ _ (sm_sessions _ _ Hs)) |]. constructor; cbn.
      * rewrite !fmap_app. cbn. exact Hl.
      * apply Forall2_app; [by apply sessions_unowned, Hs |]. constructor; [| constructor]. split; [done |]. split; [apply start_closing |].
        cbn. rewrite files_insert, decide_True by done. by split_and!.
      * intros path' Hp'. unfold owned in Hp'. cbn in Hp'. rewrite existsb_app in Hp'. apply orb_false_iff in Hp' as [Hp1 Hp2]. cbn in Hp2.
        apply orb_false_iff in Hp2 as [Hp2 _]. unfold owns in Hp2. cbn in Hp2. apply bool_decide_eq_false in Hp2. rewrite files_insert, decide_False by naive_solver.
        by apply (sm_disk _ _ Hs).
    + pose proof (Forall2_length _ _ _ (sm_sessions _ _ Hs)) as Hlen.
      assert (Hlast : forall {A B} (g : A -> B) (l : list A) x, ((g <$> l) ++ [x]) !! length l = Some x)
        by (intros A B g l0 x; apply list_lookup_middle; by rewrite length_fmap).
      assert (Hput : forall {A B} (g : A -> B) (l : list A) x y, <[length l := y]> ((g <$> l) ++ [x]) = (g <$> l) ++ [y])
        by (intros A B g l0 x y; rewrite <- (length_fmap g l0) at 1; rewrite insert_app_r_alt, Nat.sub_diag by done; done).
      pose proof (close_spec os _ _ f (length (mc_sessions m)) l (Some (lock_file path)) Hl (Hlast _ _ _ _ _)) as Hc.
      rewrite Hlen in Hc at 1. specialize (Hc (Hlast _ _ _ _ _)).
      destruct (Lock_Close f l os) as [[r l'] os']. destruct Hc as [-> Hc]. split; [done |]. constructor; cbn.
      * rewrite Hput in Hc. rewrite Hlen, Hput in Hc. by apply locks_drop.
      * by apply (sessions_unowned _ path d p), Hs.
      * intros path' Hp'. rewrite !files_insert. case_decide; [done |]. by apply (sm_disk _ _ Hs).
  - destruct Ha as [Hl [[Hf ->] | (Hf & Ho%owned_iff & ->)]]; rewrite Hf; [| rewrite Ho]; (split; [done |]; constructor; [exact Hl | apply Hs | apply Hs]).
Qed.

Lemma owned_ext path p p' : held_lock <$> ac_owners p = held_lock <$> ac_owners p' -> owned path p = owned path p'.
Proof. intros H. apply eq_iff_eq_true. by rewrite !owned_iff, H. Qed.

(** Nobody else owns the directory of an owner. *)
Lemma owner_alone m p i j o o' :
  same m p -> ac_owners p !! i = Some o -> ow_state o = Owns -> ac_owners p !! j = Some o' -> ow_state o' = Owns -> j <> i -> ow_path o <> ow_path o'.
Proof.
  intros Hs Hi Ho Hj Ho' Hne Hp. apply Hne. eapply (locks_unique _ _ j i (lock_file (ow_path o)) (sm_locks _ _ Hs));
    rewrite list_lookup_fmap; [rewrite Hj | rewrite Hi]; cbn; unfold held_lock; by rewrite ?Ho, ?Ho', ?Hp.
Qed.

Lemma sessions_update disk disk' ses os i se' o' :
  Forall2 (same_session disk) ses os ->
  (forall j o, os !! j = Some o -> ow_state o = Owns -> j <> i -> files disk' (ow_path o) = files disk (ow_path o)) ->
  same_session disk' se' o' -> Forall2 (same_session disk') (<[i := se']> ses) (<[i := o']> os).
Proof.
  intros Hf Hd Hs. apply Forall2_same_length_lookup. split; [rewrite !length_insert; by eapply Forall2_length |]. intros j se o.
  rewrite !list_lookup_insert, (Forall2_length _ _ _ Hf). case_decide as Hc; [by intros [= <-] [= <-] |]. intros Hse Ho.
  destruct (Forall2_lookup_lr _ _ _ _ _ _ Hf Hse Ho) as (H1 & H2 & H3). split; [done |]. split; [done |]. destruct (ow_state o) eqn:Es; [| done..].
  rewrite (Hd j o); [done | done | done |]. intros ->. apply Hc. split; [done |]. by eapply lookup_lt_Some.
Qed.

(** The owner goes on. *)
Lemma owns_on m p i se o s' :
  same m p -> mc_sessions m !! i = Some se -> ac_owners p !! i = Some o -> ow_state o = Owns -> close_order s' -> s_closer s' <> CloseDone ->
  same (mkMachine (<[ow_path o := dir (s_db s')]> (mc_disk m)) (mc_os m) (<[i := mkSession (ow_path o) (se_lock se) s' true]> (mc_sessions m)))
    (mkOwners (ac_disk p) (<[i := mkOwner (ow_path o) s' Owns]> (ac_owners p))).
Proof.
  intros Hs Hse Ho Es Hcl Hnd.
  assert (Hheld : held_lock <$> <[i := mkOwner (ow_path o) s' Owns]> (ac_owners p) = held_lock <$> ac_owners p).
  { rewrite list_fmap_insert. apply list_insert_id. rewrite list_lookup_fmap, Ho. cbn. unfold held_lock. by rewrite Es. }
  constructor; cbn [mc_os mc_sessions mc_disk ac_owners ac_disk].
  - rewrite Hheld, list_fmap_insert, list_insert_id; [apply Hs |]. by rewrite list_lookup_fmap, Hse.
  - apply (sessions_update (mc_disk m)); [apply Hs | |].
    + intros j o' Hj Hs' Hne. rewrite files_insert, decide_False; [done |]. by eapply owner_alone.
    + split; [done |]. split; [done |]. cbn. by rewrite files_insert, decide_True.
  - intros path Hp. rewrite (owned_ext path _ p) in Hp by exact Hheld. rewrite files_insert, decide_False; [by apply (sm_disk _ _ Hs) |].
    intros <-. apply not_true_iff_false in Hp. apply Hp, owned_iff, list_elem_of_fmap. exists o. unfold held_lock. rewrite Es.
    split; [done |]. by eapply list_elem_of_lookup_2.
Qed.

(** The owner gives its directory up: the files are there for the next one. *)
Lemma owns_up m p i se o o' se' os' :
  same m p -> mc_sessions m !! i = Some se -> ac_owners p !! i = Some o -> ow_state o = Owns ->
  ow_path o' = ow_path o -> ow_state o' <> Owns -> se_lock se' = mkLock None ->
  locks_ok (mkLockWorld os' (<[i := mkLock None]> (se_lock <$> mc_sessions m))) (<[i := None]> (held_lock <$> ac_owners p)) ->
  (forall d, same_session d se' o') ->
  same (mkMachine (<[ow_path o := dir (s_db (ow_sys o'))]> (mc_disk m)) os' (<[i := se']> (mc_sessions m)))
    (mkOwners (<[ow_path o := dir (s_db (ow_sys o'))]> (ac_disk p)) (<[i := o']> (ac_owners p))).
Proof.
  intros Hs Hse Ho Es Hpath Hst Hlock Hl Hse'.
  assert (Hheld : held_lock <$> <[i := o']> (ac_owners p) = <[i := None]> (held_lock <$> ac_owners p)).
  { rewrite list_fmap_insert. f_equal. unfold held_lock. by destruct (ow_state o'). }
  constructor; cbn [mc_os mc_sessions mc_disk ac_owners ac_disk].
  - by rewrite Hheld, list_fmap_insert, Hlock.
  - apply (sessions_update (mc_disk m)); [apply Hs | | done].
    intros j o2 Hj Hs' Hne. rewrite files_insert, decide_False; [done |]. by eapply owner_alone.
  - intros path Hp. rewrite !files_insert. case_decide as Hc; [done |]. apply (sm_disk _ _ Hs).
    apply not_true_iff_false. intros Hx%owned_iff%list_elem_of_lookup. destruct Hx as [j Hj]. apply not_true_iff_false in Hp. apply Hp, owned_iff. cbn.
    rewrite Hheld. apply (list_elem_of_lookup_2 _ j). rewrite list_lookup_insert_ne; [done |]. intros <-.
    rewrite list_lookup_fmap, Ho in Hj. cbn in Hj. unfold held_lock in Hj. rewrite Es in Hj. injection Hj as Hj%lock_file_inj. done.
Qed.

Lemma step_same f i ev m p :
  same m p -> orderly_act (AStep f i ev) p = true -> agreeing (session_step f i ev m) (owner_step i ev p).
Proof.
  intros Hs Hord. unfold session_step, owner_step. destruct (mc_sessions m !! i) as [se|] eqn:Ese.
  2: { apply lookup_ge_None in Ese. rewrite (Forall2_length _ _ _ (sm_sessions _ _ Hs)) in Ese. by rewrite lookup_ge_None_2. }
  destruct (Forall2_lookup_l _ _ _ _ _ (sm_sessions _ _ Hs) Ese) as (o & Eo & Hpath & Hcl & Hst). rewrite Eo.
  destruct (ow_state o) eqn:Es.
  - destruct Hst as (Ha & Hsys & Hfiles & Hnd). rewrite Ha, Hsys, Hpath, Hfiles, load_same.
    destruct (exec ev (ow_sys o)) as [[out s']|] eqn:Ex; [| done]. cbn [mbind option_bind]. pose proof (exec_closing _ _ _ _ Hcl Ex) as Hcl'.
    unfold close_lock. destruct (s_closer s') eqn:Ed.
    1-3: destruct (s_closer (ow_sys o)); try done; (split; [done | apply owns_on; congruence]).
    pose proof (close_spec _ _ _ f i (se_lock se) (Some (lock_file (ow_path o))) (sm_locks _ _ Hs)) as Hc.
    rewrite !list_lookup_fmap, Ese, Eo in Hc. cbn in Hc. unfold held_lock in Hc at 1. rewrite Es in Hc. specialize (Hc eq_refl eq_refl).
    destruct (Lock_Close f (se_lock se) (mc_os m)) as [[r l] os]. destruct Hc as [-> Hc].
    assert (Hdone : same (mkMachine (<[ow_path o := dir (s_db s')]> (mc_disk m)) os (<[i := mkSession (ow_path o) (mkLock None) s' true]> (mc_sessions m)))
      (mkOwners (<[ow_path o := dir (s_db s')]> (ac_disk p)) (<[i := mkOwner (ow_path o) s' Closed]> (ac_owners p)))).
    { eapply (owns_up m p i se o (mkOwner (ow_path o) s' Closed)); try done. intros d. split; [done |]. split; [done |]. cbn. split; [done |].
      split; [exists (dir (s_db s')); by rewrite load_same | done]. }
    destruct (s_closer (ow_sys o)); try done; by split.
  - destruct Hst as (Ha & [d0 Hsys] & Hd). rewrite Ha, Hsys, Hpath, load_load.
    assert (Hcomp : is_compact ev = false).
    { unfold orderly_act in Hord. rewrite Eo, Es in Hord. by destruct ev. }
    pose proof (ended_exec (files (mc_disk m) (ow_path o)) ev (ow_sys o) Hcl Hd Hcomp) as He.
    destruct (exec ev (ow_sys o)) as [[out s']|] eqn:Ex; [| by rewrite He]. destruct He as (-> & Hdir & Hd'). cbn [mbind option_bind].
    unfold close_lock. cbn [load set_db s_closer]. rewrite Hd. split; [done |].
    assert (Hheld : held_lock <$> <[i := mkOwner (ow_path o) s' Closed]> (ac_owners p) = held_lock <$> ac_owners p).
    { rewrite list_fmap_insert. apply list_insert_id. rewrite list_lookup_fmap, Eo. cbn. unfold held_lock. by rewrite Es. }
    assert (Hf : forall path, files (<[ow_path o := files (mc_disk m) (ow_path o)]> (mc_disk m)) path = files (mc_disk m) path)
      by (intros path; rewrite files_insert; case_decide; by subst).
    constructor; cbn [mc_os mc_sessions mc_disk ac_owners ac_disk].
    + rewrite Hheld, list_fmap_insert, list_insert_id; [apply Hs |]. by rewrite list_lookup_fmap, Ese.
    + apply (sessions_update (mc_disk m)); [apply Hs | intros; apply Hf |]. split; [done |]. split; [by eapply exec_closing |]. cbn.
      split; [done |]. split; [by eexists | done].
    + intros path Hp. rewrite (owned_ext path _ p) in Hp by exact Hheld. rewrite Hf. by apply (sm_disk _ _ Hs).
  - rewrite Hst. by split.
Qed.

(** Killing a process that owns nothing. *)
Lemma idle_killed m p i se o :
  same m p -> mc_sessions m !! i = Some se -> ac_owners p !! i = Some o -> ow_state o <> Owns -> close_order (ow_sys o) -> se_path se = ow_path o ->
  same (mkMachine (mc_disk m) (match lk_file (se_lock se) with Some fd => os_Close fd (mc_os m) | None => mc_os m end)
      (<[i := mkSession (se_path se) (mkLock None) (se_sys se) false]> (mc_sessions m)))
    (mkOwners (hand_back o p) (<[i := mkOwner (ow_path o) (ow_sys o) Dead]> (ac_owners p))).
Proof.
  intros Hs Ese Eo Es Hcl Hpath. assert (El : (se_lock <$> mc_sessions m) !! i = Some (se_lock se)) by by rewrite list_lookup_fmap, Ese.
  assert (Hno : held_lock o = None) by (unfold held_lock; by destruct (ow_state o)).
  assert (Ea : (held_lock <$> ac_owners p) !! i = Some None) by by rewrite list_lookup_fmap, Eo; cbn; rewrite Hno.
  pose proof (Forall2_lookup_lr _ _ _ _ _ _ (lo_locks _ _ (sm_locks _ _ Hs)) El Ea) as Hlock. cbn in Hlock.
  assert (Hnone : se_lock se = mkLock None) by by destruct (se_lock se) as [[fd|]].
  rewrite Hnone. cbn [lk_file]. assert (Hback : hand_back o p = ac_disk p) by (unfold hand_back; by destruct (ow_state o)). rewrite Hback.
  assert (Hheld : held_lock <$> <[i := mkOwner (ow_path o) (ow_sys o) Dead]> (ac_owners p) = held_lock <$> ac_owners p)
    by (rewrite list_fmap_insert; by apply list_insert_id).
  constructor; cbn [mc_os mc_sessions mc_disk ac_owners ac_disk].
  - rewrite Hheld, list_fmap_insert, list_insert_id; [apply Hs |]. by rewrite El, Hnone.
  - by apply (sessions_update (mc_disk m)); [apply Hs | done |].
  - intros path Hp. rewrite (owned_ext path _ p) in Hp by exact Hheld. by apply (sm_disk _ _ Hs).
Qed.

Lemma kill_same i m p : same m p -> same (kill_session i m) (kill_owner i p).
Proof.
  intros Hs. unfold kill_session, kill_owner. destruct (mc_sessions m !! i) as [se|] eqn:Ese.
  2: { apply lookup_ge_None in Ese. rewrite (Forall2_length _ _ _ (sm_sessions _ _ Hs)) in Ese. by rewrite lookup_ge_None_2. }
  destruct (Forall2_lookup_l _ _ _ _ _ (sm_sessions _ _ Hs) Ese) as (o & Eo & Hpath & Hcl & Hst). rewrite Eo.
  pose proof (sm_locks _ _ Hs) as Hl. assert (El : (se_lock <$> mc_sessions m) !! i = Some (se_lock se)) by by rewrite list_lookup_fmap, Ese.
  assert (Ea : (held_lock <$> ac_owners p) !! i = Some (held_lock o)) by by rewrite list_lookup_fmap, Eo.
  pose proof (Forall2_lookup_lr _ _ _ _ _ _ (lo_locks _ _ Hl) El Ea) as Hlock. cbn in Hlock.
  destruct (ow_state o) eqn:Es.
  - destruct Hst as (Ha & Hsys & Hfiles & Hnd).
    pose proof (close_spec _ _ _ (mkLockFaults false false true false) i (se_lock se) (held_lock o) Hl El Ea) as Hc.
    unfold Lock_Close in Hc. unfold held_lock in Hlock. rewrite Es in Hlock. destruct (lk_file (se_lock se)) as [fd|] eqn:Efd; [| done].
    cbn [lf_unlock] in Hc. destruct Hc as [_ Hc]. unfold hand_back. rewrite Es.
    assert (Hdisk : forall path, files (<[ow_path o := dir (s_db (ow_sys o))]> (mc_disk m)) path = files (mc_disk m) path)
      by (intros path; rewrite files_insert; case_decide; by subst).
    destruct (owns_up m p i se o (mkOwner (ow_path o) (ow_sys o) Dead) (mkSession (se_path se) (mkLock None) (se_sys se) false) (os_Close fd (mc_os m)))
      as [K1 K2 K3]; try done.
    constructor; cbn [mc_os mc_sessions mc_disk ac_owners ac_disk] in *; [done | |].
    + eapply Forall2_impl; [exact K2 |]. intros se' o' (P1 & P2 & P3). split; [done |]. split; [done |]. destruct (ow_state o'); [| done..].
      by rewrite Hdisk in P3.
    + intros path Hp%K3. cbn in Hp. by rewrite Hdisk in Hp.
  - apply idle_killed; by rewrite ?Es.
  - apply idle_killed; by rewrite ?Es.
Qed.

Lemma acts_same xs m p : same m p -> orderly xs p = true -> agreeing (acts xs m) (owner_acts xs p).
Proof.
  revert m p. induction xs as [|x xs IH]; intros m p Hs Hord; [by split |]. cbn [acts owner_acts orderly] in *.
  apply andb_true_iff in Hord as [Hx Hord].
  assert (Hact : agreeing (act x m) (owner_act x p)).
  { destruct x as [f mkdir e opts path | f i ev | i]; cbn [act owner_act].
    - pose proof (open_agrees f mkdir e opts path m p Hs) as Ho.
      destruct (open_session _ _ _ _ _ _) as [[r m1]|], (open_owner _ _ _ _ _ _) as [[r' p1]|]; cbn in *; try done. destruct Ho as [-> ?]. done.
    - pose proof (step_same f i ev m p Hs Hx) as Ho.
      destruct (session_step _ _ _ _) as [[r m1]|], (owner_step _ _ _) as [[r' p1]|]; cbn in *; try done. destruct Ho as [-> ?]. done.
    - split; [done | by apply kill_same]. }
  destruct (act x m) as [[r m1]|], (owner_act x p) as [[r' p1]|]; cbn [mbind option_bind] in *; try done. destruct Hact as [<- Hs1].
  pose proof (IH m1 p1 Hs1 Hord) as Hrest.
  destruct (acts xs m1) as [[rs m2]|], (owner_acts xs p1) as [[rs' p2]|]; cbn in *; try done. by destruct Hrest as [<- ?].
Qed.


End machine.

(** ** Four processes *)

Definition sound : lock_faults := no_lock_faults.

(** The turns that [Close] needs here. *)
Definition close_turns (i : nat) : list action :=
  [AStep sound i ECloser] ++ repeat (AStep sound i (EFlusher run_env)) 9 ++ [AStep sound i ECloser] ++
  repeat (AStep sound i (ECompactor (fun _ => run_env))) 4 ++ [AStep sound i ECloser].

(** A directory is written, refused to a second process while a third one uses
    another directory, closed, and taken over twice. *)
Definition shared_actions : list action :=
  [AOpen sound false run_env run_options [x41]; AStep sound 0 (EPut run_env [x61] [x01]);
   AOpen sound false run_env run_options [x41]; AOpen sound false run_env run_options [x42]; AStep sound 1 (EPut run_env [x61] [x09])] ++
  close_turns 0 ++
  [AOpen sound false run_env run_options [x41]; AStep sound 2 (EGet [x61]); AStep sound 0 (EGet [x61]); AStep sound 2 (EPut run_env [x61] [x02]);
   AKill 2; AOpen sound false run_env run_options [x41]; AStep sound 3 (EGet [x61]); AStep sound 1 (EGet [x61])].

Definition machine_acts (xs : list action) : option (list effect * machine) :=
  acts (lz := run_codec) sum_hash log_hundredth (fun _ => 0) 20 xs (mkMachine ∅ (mkLockOs ∅ ∅) []).

Definition shared_effects : list effect :=
  [ROpen (Ok 0%nat); RStep (ODone (Ok tt)); ROpen (Err ErrDatabaseLocked); ROpen (Ok 1%nat); RStep (ODone (Ok tt))] ++
  repeat (RStep ONothing) 16 ++
  [ROpen (Ok 2%nat); RStep (OValue (Ok [x01])); RStep (OValue (Err ErrClosed)); RStep (ODone (Ok tt)); RKill; ROpen (Ok 3%nat);
   RStep (OValue (Ok [x02])); RStep (OValue (Ok [x09]))].

Lemma shared_orderly : orderly (lz := run_codec) sum_hash log_hundredth (fun _ => 0) 20 shared_actions (mkOwners ∅ []) = true.
Proof. vm_compute. reflexivity. Qed.

Lemma shared_acted : fst <$> machine_acts shared_actions = Some shared_effects.
Proof. vm_compute. reflexivity. Qed.

