(* ===== verification/ServiceClaims.v ===== *)
(** * The service is correct

    The handlers on the running database: from an empty directory, after any
    run, among other goroutines. *)

From S2P Require Import Float64 Bloom BlockCache Wal MemTableClaims.
From S2P Require Export ServicePages DbBatch DbClaims.

(** ** Keys that were written are within the limits *)

Section bounded.
Context (lim : LimitsOptions).

Definition bounded (m : gmap bytes bytes) : Prop := map_Forall (fun k _ => too_large lim k = None) m.

Lemma apply_op_bounded (m : gmap bytes bytes) (op : batch_op) : bounded m -> too_large lim (op_Key op) = None -> bounded (apply_op m op).
Proof. intros Hm Ho. unfold apply_op. destruct (op_Deleted op); [by apply map_Forall_delete | by apply map_Forall_insert_2]. Qed.

Lemma check_ops_bounded (ops : list batch_op) (i size : Z) (m : gmap bytes bytes) : bounded m -> check_ops lim i size ops = None -> bounded (foldl apply_op m ops).
Proof.
  revert i size m. induction ops as [|op ops IH]; intros i size m Hm Hc; [done |]. cbn [check_ops] in Hc.
  destruct (too_large lim (op_Key op)) eqn:Ek; [done |]. destruct (if op_Deleted op then None else _); [done |].
  destruct (_ >=? _); [done |]. destruct (_ >? _); [done |]. cbn [foldl]. eapply IH; [| exact Hc]. by apply apply_op_bounded.
Qed.

Lemma checked_bounded (err : option db_error) (e : env) (sync : bool) (m : gmap bytes bytes) a out a' :
  bounded (a_map a) -> (err = None -> bounded m) -> checked err e sync m a out a' -> bounded (a_map a').
Proof. intros Ha Hm. destruct err; [by intros [_ ->] |]. intros [[_ ->] | (_ & _ & ->)]; [by apply Hm | done]. Qed.

Lemma allowed_bounded ev a out a' : allowed lim ev a out a' -> bounded (a_map a) -> bounded (a_map a').
Proof.
  intros Ha Hb. destruct (reads ev) eqn:Er; [by destruct (allowed_reads lim ev a out a' Ha Er) as [-> _] |].
  destruct ev; try done; cbn [allowed] in Ha.
  - eapply checked_bounded; [done | | exact Ha]. unfold if_closed, orelse. destruct (a_closed a); [done |].
    destruct (too_large lim key) eqn:Ek; [done |]. intros _. by apply map_Forall_insert_2.
  - eapply checked_bounded; [done | | exact Ha]. intros _. by apply map_Forall_delete.
  - eapply checked_bounded; [done | | exact Ha]. unfold orelse. destruct (check_ops lim 0 0 ops) eqn:Ec; [done |]. intros _. by eapply check_ops_bounded.
  - by destruct Ha as [_ ->].
Qed.

Lemma allowed_run_bounded evs a outs a' : allowed_run lim evs a outs a' -> bounded (a_map a) -> bounded (a_map a').
Proof. induction 1 as [|ev evs a out a1 outs a2 Ha Hr IH]; intros Hb; [done |]. apply IH. by eapply allowed_bounded. Qed.

(** The answers determine the state. *)
Lemma iterating_det err kvs a out a1 a2 : iterating err kvs a out a1 -> iterating err kvs a out a2 -> a1 = a2.
Proof. destruct err; by intros [_ ->] [_ ->]. Qed.

Lemma checked_det (err : option db_error) (e : env) (sync : bool) (m : gmap bytes bytes) a out a1 a2 :
  checked err e sync m a out a1 -> checked err e sync m a out a2 -> a1 = a2.
Proof. destruct err; [by intros [_ ->] [_ ->] |]. by intros [[-> ->] | (_ & -> & ->)] [[? ->] | (_ & ? & ->)]. Qed.

Lemma allowed_det ev a out a1 a2 : allowed lim ev a out a1 -> allowed lim ev a out a2 -> a1 = a2.
Proof.
  destruct ev; cbn [allowed]; eauto using iterating_det, checked_det; try (by intros [_ ->] [_ ->]).
  - destruct (a_closed a); by intros [_ ->] [_ ->].
  - unfold on_snapshot. destruct (a_snapshots a !! i) as [[m []]|]; eauto using iterating_det; by intros [_ ->] [_ ->].
  - unfold on_snapshot. destruct (a_snapshots a !! i) as [[m []]|]; eauto using iterating_det; by intros [_ ->] [_ ->].
  - destruct (a_iterators a !! i) as [[[|kv kvs] []]|]; by intros [_ ->] [_ ->].
Qed.

Lemma allowed_run_det evs a outs a1 a2 : allowed_run lim evs a outs a1 -> allowed_run lim evs a outs a2 -> a1 = a2.
Proof.
  intros H. revert a2. induction H as [|ev evs a out a1' outs a2' Ha Hr IH]; intros a2 H2; inversion H2 as [|? ? ? ? a3 ? ? Ha' Hr']; simplify_eq; [done |].
  apply IH. by rewrite (allowed_det ev a out a1' a3).
Qed.

End bounded.

(** ** Batches of mutations *)

Definition op_of (m : option Mutation) : option batch_op :=
  m ← m;
  match mu_Type m with
  | PUT => Some (mkOp (mu_Key m) (mu_Value m) false)
  | DELETE => Some (mkOp (mu_Key m) [] true)
  | TYPE_UNSPECIFIED => None
  end.

Section write.
Context {C : Type} (db : DB C) (lim : LimitsOptions) (fuel : nat) (w : nat -> moment).
Local Abbreviation wp := (wp lim fuel w).

Lemma Batch_Put_ops key value b b' : Batch_Put db key value b = (Ok tt, b') -> operations b' = operations b ++ [mkOp key value false].
Proof.
  unfold Batch_Put. destruct (b_closed b); [done |]. destruct (validateKey db key); [| done]. destruct (validateValue db value); [| done].
  unfold reserveOperation. destruct (_ >=? _); [done |]. destruct (_ >? _); [done |]. by intros [= <-].
Qed.

Lemma Batch_Delete_ops key b b' : Batch_Delete db key b = (Ok tt, b') -> operations b' = operations b ++ [mkOp key [] true].
Proof.
  unfold Batch_Delete. destruct (b_closed b); [done |]. destruct (validateKey db key); [| done].
  unfold reserveOperation. destruct (_ >=? _); [done |]. destruct (_ >? _); [done |]. by intros [= <-].
Qed.

(** Filling the batch changes nothing and collects the operations. *)
Lemma wp_fill {B} ms b (f : result status Batch -> prog B) j own a (Q : B -> list (bytes * bytes) -> astate -> Prop) :
  (forall j err, wp j own (f (Err err)) a Q) ->
  (forall j b' ops, mapM op_of ms = Some ops -> operations b' = operations b ++ ops -> wp j own (f (Ok b')) a Q) ->
  wp j own (prog_bind (fill_mutations db ms b) f) a Q.
Proof.
  revert b j. induction ms as [|m ms IH]; intros b j Herr Hok; cbn [fill_mutations prog_bind].
  { apply (Hok j b []); [done | by rewrite app_nil_r]. }
  cbn [ServiceSpec.wp]. destruct (m_ctx (w j)); [apply Herr |]. destruct m as [[[] key value]|]; cbn [mu_Type mu_Key mu_Value]; try apply Herr.
  - destruct (Batch_Put db key value b) as [[[]|err] b1] eqn:E; [| apply Herr]. apply IH; [done |]. intros j' b' ops Hms Hb'.
    apply (Hok j' b' (mkOp key value false :: ops)); [cbn; by rewrite Hms |]. rewrite Hb', (Batch_Put_ops _ _ _ _ E). by rewrite <- app_assoc.
  - destruct (Batch_Delete db key b) as [[[]|err] b1] eqn:E; [| apply Herr]. apply IH; [done |]. intros j' b' ops Hms Hb'.
    apply (Hok j' b' (mkOp key [] true :: ops)); [cbn; by rewrite Hms |]. rewrite Hb', (Batch_Delete_ops _ _ _ E). by rewrite <- app_assoc.
Qed.

(** All of the mutations or none. *)
Definition batch_outcome (req : option WriteBatchRequest) (a : astate) (r : result status unit) (a' : astate) : Prop :=
  match r with
  | Ok _ => exists wb ops j outs a1, req = Some wb /\ mapM op_of (Mutations wb) = Some ops /\
      allowed_run lim (bystanders [] (w j)) a outs a1 /\ a' = with_map (foldl apply_op (a_map a1) ops) a1
  | Err _ => a' = a \/ exists j outs, allowed_run lim (bystanders [] (w j)) a outs a'
  end.

Lemma wp_WriteBatch req a (Q : result status unit -> list (bytes * bytes) -> astate -> Prop) :
  (forall r a', batch_outcome req a r a' -> Q r [] a') -> wp 0 [] (GRPC_WriteBatch db req) a Q.
Proof.
  intros HQ. unfold GRPC_WriteBatch, grpc_request. destruct req as [wb|]; [| apply HQ; by left].
  cbn [ServiceSpec.wp]. destruct (m_ctx (w 0)); [apply HQ; by left |]. apply wp_fill; [intros j err; apply HQ; by left |].
  intros j b ops Hops Hb. simpl in Hb. unfold serve, commit. intros outs a1 out a2 Hr _ Hal. cbn [prog_bind given] in *. rewrite Hb in Hal. cbn [allowed] in Hal.
  unfold checked in Hal. destruct (orelse _ _) as [err|].
  { destruct Hal as [-> ->]. apply HQ. right. by exists j, outs. }
  destruct Hal as [[-> ->] | (_ & -> & ->)]; apply HQ; [by exists wb, ops, j, outs, a1 |]. right. by exists j, outs.
Qed.

End write.

(** ** On the running database *)

Section claims.
Context {lz : LZ4Codec} {laws : LZ4Laws}.
Context (Hash128 : bytes -> Z * Z) (math_Log : float64 -> float64) (conv : float64 -> Z) (n : Z) (fuel : nat).
Context (opts o : Options) (wo : WriteOptions) (w : nat -> moment).
Local Abbreviation run := (run Hash128 math_Log conv fuel).
Local Abbreviation interp := (interp Hash128 math_Log conv fuel w).
Local Abbreviation trace := (trace Hash128 math_Log conv fuel w).
Local Abbreviation tame := (tame Hash128 math_Log conv fuel).

(** The database was opened on an empty directory with accepted options and
    went through the events [evs] to [s]; then a handler [p] is started. *)
Record serving {A} (e : env) (evs : list event) (outs : list output) (db : DB LRU) (s : sys LRU) (p : prog A) : Prop := mkServing {
  sv_options : normalizeOptions opts = Ok (o, wo);
  sv_segment : e_segment e = None;
  sv_sizing : sizing_fits math_Log conv n wo;
  sv_open : exists d, Open fuel e (Ok tt) opts ∅ = Some (Ok db, d);
  sv_run : run evs (start db) = Some (outs, s);
  sv_fits : fits_trace fuel n [] (evs ++ trace 0 [] p s);
  sv_tame : tame (evs ++ trace 0 [] p s) (start db) = true;
}.

(** The state of the abstract database after [evs]. *)
Definition reached (evs : list event) (outs : list output) (a : astate) : Prop :=
  allowed_run (Limits o) evs (mkAstate ∅ [] [] false) outs a.

Lemma reached_det evs outs a a' : reached evs outs a -> reached evs outs a' -> a = a'.
Proof. apply allowed_run_det. Qed.

Lemma served {A} (e : env) evs outs db s (p : prog A) (Q : astate -> A -> list (bytes * bytes) -> astate -> Prop) :
  serving e evs outs db s p ->
  (forall a, reached evs outs a -> (size (a_map a) < fuel)%nat -> wp (Limits o) fuel w 0 [] p a (Q a)) ->
  exists a x sent s' a', reached evs outs a /\ interp 0 [] p s = Some (x, sent, s') /\ Q a x sent a' /\
    exists g, sim Hash128 fuel (Limits o) wo s' a' g.
Proof.
  intros [Ho He Hsz [d Hop] Hrun Hf Ht] Hwp. destruct (opened_sim Hash128 fuel e opts o wo Ho He) as (db' & d' & E & Hs & _).
  rewrite Hop in E. injection E as <- <-.
  destruct (run_sim_app Hash128 math_Log conv fuel (Limits o) wo n Hsz evs _ _ _ _ Hs Hf Ht) as (outs' & s1 & a & g & E & Ha & Hs1 & Hf1 & Ht1).
  rewrite Hrun in E. injection E as <- <-. destruct (fits_trace_now _ _ _ _ Hf1) as (_ & _ & Hlen). pose proof (sim_size _ _ _ _ _ _ _ Hs1).
  destruct (wp_adequate Hash128 math_Log conv fuel (Limits o) wo n Hsz w 0 [] p s a g (Q a) Hs1 Hf1 Ht1) as (x & sent & s' & a' & g' & E & Hs' & HQ);
    [apply Hwp; [done | lia] |].
  exists a, x, sent, s', a'. split_and!; try done. by exists g'.
Qed.

(** C19: a scan answers a page.  On the running database, whatever the other
    goroutines do meanwhile, [Scan] returns; unless its context is cancelled,
    it refuses a negative limit or a page token that is no token, reports the
    error of the database, or answers the first [Limit] entries of the range
    after the token in key order, as the map was when the iterator was opened,
    with the token of the last key exactly when there are more. *)
Theorem service_scan_page (e : env) evs outs db s (req : ScanRequest) :
  serving e evs outs db s (Service_Scan fuel req) ->
  exists a r s', reached evs outs a /\ interp 0 [] (Service_Scan fuel req) s = Some (r, [], s') /\
    scan_outcome (Limits o) w [] 1 req a r.
Proof.
  intros Hsv. destruct (served e evs outs db s _ (fun a r sent _ => sent = [] /\ scan_outcome (Limits o) w [] 1 req a r) Hsv)
    as (a & r & sent & s' & a' & Ha & E & [-> Hr] & _); [by intros a _ _; apply wp_Scan |]. by exists a, r, s'.
Qed.

(** C20: pages are complete.  A client that follows page tokens until there is
    none, while no one writes or closes the database and its context lives,
    receives exactly the entries of the range, each once, in key order; only a
    page that ends with the empty key would end the scan early, which needs a
    limit of one. *)
Theorem scan_pages_complete (e : env) evs outs db s (req : ScanRequest) (a : astate) :
  serving e evs outs db s (scan_all fuel fuel req) -> reached evs outs a ->
  (forall j, m_ctx (w j) = None) -> (forall j, Forall (fun ev => reads ev = true) (m_others (w j))) ->
  PageToken req = [] -> 0 < Limit req -> orelse (too_large (Limits o) (scan_Start req)) (too_large (Limits o) (scan_End req)) = None ->
  a_closed a = false -> Limit req <> 1 \/ a_map a !! [] = None ->
  exists s', interp 0 [] (scan_all fuel fuel req) s =
    Some (Ok (range (in_range (mkIterOptions (scan_Start req) (scan_End req))) (a_map a)), [], s').
Proof.
  intros Hsv Ha Hctx Hq Htok Hpos Hlarge Hop Hone. unfold orelse in Hlarge. destruct (too_large _ (scan_Start req)) eqn:Hs; [done |].
  assert (Hent : scan_entries req (scan_Start req) (a_map a) = range (in_range (mkIterOptions (scan_Start req) (scan_End req))) (a_map a)).
  { apply list_filter_all, Forall_forall. intros kv _. unfold skipped. by rewrite Htok. }
  destruct (served e evs outs db s _ (fun _ r sent _ => r = Ok (range (in_range (mkIterOptions (scan_Start req) (scan_End req))) (a_map a)) /\ sent = []) Hsv)
    as (a0 & r & sent & s' & a' & _ & E & [-> ->] & _); [| by exists s'].
  intros a0 Ha0 Hsz. rewrite (reached_det _ _ _ _ Ha0 Ha) in *. rewrite <- Hent. apply (wp_scan_all _ _ _ Hctx Hq fuel req (scan_Start req)); try done.
  - unfold scan_start. by rewrite Htok.
  - apply (allowed_run_bounded _ _ _ _ _ Ha). apply map_Forall_empty.
  - rewrite Hent. pose proof (range_length (in_range (mkIterOptions (scan_Start req) (scan_End req))) (a_map a)). lia.
Qed.

(** C21: streams are right.  On the running database, whatever the other
    goroutines do meanwhile, the streaming scan returns; it sends the entries
    of the range in key order as the map was when its iterator was opened, the
    first [limit] of them if there is a limit; only a cancelled context or a
    failed send ends it early, with the entries up to there sent. *)
Theorem grpc_scan_stream (e : env) evs outs db s (req : option ScanStreamRequest) :
  serving e evs outs db s (GRPC_Scan fuel req) ->
  (match req with Some req => ss_Limit req <= 2147483647 | None => True end) ->
  exists a r sent s', reached evs outs a /\ interp 0 [] (GRPC_Scan fuel req) s = Some (r, sent, s') /\
    stream_outcome (Limits o) w [] 1 req a r sent.
Proof.
  intros Hsv Hlim. destruct (served e evs outs db s _ (fun a r sent _ => stream_outcome (Limits o) w [] 1 req a r sent) Hsv)
    as (a & r & sent & s' & a' & Ha & E & Hr & _); [by intros a _ _; apply wp_GRPC_Scan |]. by exists a, r, sent, s'.
Qed.

(** C22: a batch of mutations is all or nothing.  On the running database, on
    runs that are [tame] with the calls of the handler included ([serving]),
    whatever the other goroutines do meanwhile, [WriteBatch] returns: with
    success when all mutations of a well-formed request have been applied in
    order at one moment, with an error when none has; the database it leaves
    behind represents the map that results.  A tame run has no rotation that
    the operating system fails: such a one reports an error after the batch was
    applied ([refused_batch_applied] in Incidents). *)
Theorem grpc_batch_atomic (e : env) evs outs db s (req : option WriteBatchRequest) :
  serving e evs outs db s (GRPC_WriteBatch db req) ->
  exists a r s' a', reached evs outs a /\ interp 0 [] (GRPC_WriteBatch db req) s = Some (r, [], s') /\
    batch_outcome (Limits o) w req a r a' /\ exists g, sim Hash128 fuel (Limits o) wo s' a' g.
Proof.
  intros Hsv. destruct (served e evs outs db s _ (fun a r sent a' => sent = [] /\ batch_outcome (Limits o) w req a r a') Hsv)
    as (a & r & sent & s' & a' & Ha & E & [-> Hr] & Hs'); [by intros a _ _; apply wp_WriteBatch |]. by exists a, r, s', a'.
Qed.

End claims.

(** ** Requests on a run *)

Definition still : nat -> moment := fun _ => mkMoment [] run_env None true.

(** Another client deletes a key while the handler is at its third step. *)
Definition busy_world (j : nat) : moment := mkMoment (if (j =? 2)%nat then [EDelete run_env [x62]] else []) run_env None true.

Definition serve_events : list event := [EPut run_env [x61] [x01]; EPut run_env [x62] [x02]; EPut run_env [x63] [x03]].

Section check.
Context {A : Type} (w : nat -> moment) (evs : list event) (p : DB LRU -> prog A).

(** Whether the run is tame, its events, and the results. *)
Definition serve_check (db : DB LRU) : option (bool * list event * list output * A * list (bytes * bytes)) :=
  '(outs, s) ← run (lz := run_codec) sum_hash log_hundredth (fun _ => 0) 20 evs (start db);
  '(x, sent, _) ← interp (lz := run_codec) sum_hash log_hundredth (fun _ => 0) 20 w 0 [] (p db) s;
  let tr := trace (lz := run_codec) sum_hash log_hundredth (fun _ => 0) 20 w 0 [] (p db) s in
  Some (tame (lz := run_codec) sum_hash log_hundredth (fun _ => 0) 20 (evs ++ tr) (start db), tr, outs, x, sent).

Lemma check_serving tr outs x sent :
  on_opened serve_check = Some (true, tr, outs, x, sent) -> fits_trace 20 5 [] (evs ++ tr) ->
  exists db s s', serving (lz := run_codec) sum_hash log_hundredth (fun _ => 0) 5 20 run_options run_normalized.1 run_normalized.2 w run_env evs outs db s (p db) /\
    interp (lz := run_codec) sum_hash log_hundredth (fun _ => 0) 20 w 0 [] (p db) s = Some (x, sent, s').
Proof.
  unfold on_opened. destruct run_opened as [[[db|err] d]|] eqn:E; [| done | done]. unfold serve_check.
  destruct (run _ _ _ _ evs (start db)) as [[outs' s]|] eqn:Er; [| done]. cbn [mbind option_bind].
  destruct (interp _ _ _ _ w 0 [] (p db) s) as [[[x' sent'] s']|] eqn:Ei; [| done]. cbn [mbind option_bind].
  intros H Hf. injection H as Ht Htr <- <- <-. exists db, s, s'. split; [| done].
  constructor; try done; [apply run_sizing | by exists d | by rewrite Htr].
Qed.

End check.

Definition page_request : ScanRequest := mkScanRequest [x61] [] 2 [].
Definition page_trace : list event := [EIterator (mkIterOptions [x61] []); EDelete run_env [x62]; ENext 0; ENext 0; ENext 0; EIteratorClose 0].

Lemma page_checked :
  on_opened (serve_check busy_world serve_events (fun _ => Service_Scan 20 page_request)) =
    Some (true, page_trace, repeat (ODone (Ok tt)) 3, Ok (mkScanResponse [([x61], [x01]); ([x62], [x02])] (encodePageToken [x62])), []).
Proof. vm_compute. reflexivity. Qed.

Lemma service_scan_page_witness :
  exists a s', reached run_normalized.1 serve_events (repeat (ODone (Ok tt)) 3) a /\
    exists s, interp (lz := run_codec) sum_hash log_hundredth (fun _ => 0) 20 busy_world 0 [] (Service_Scan 20 page_request) s =
      Some (Ok (mkScanResponse [([x61], [x01]); ([x62], [x02])] (encodePageToken [x62])), [], s') /\
    scan_outcome (Limits run_normalized.1) busy_world [] 1 page_request a
      (Ok (mkScanResponse [([x61], [x01]); ([x62], [x02])] (encodePageToken [x62]))).
Proof.
  destruct (check_serving _ _ _ _ _ _ _ page_checked) as (db & s & s' & Hsv & E);
    [split; [vm_compute; congruence |]; split; [vm_compute; congruence | vm_compute; lia] |].
  destruct (service_scan_page (lz := run_codec) (laws := run_codec_laws) _ _ _ _ _ _ _ _ _ _ _ _ _ _ page_request Hsv) as (a & r & s1 & Ha & E1 & Hr).
  rewrite E in E1. injection E1 as <- <-. exists a, s'. split; [done |]. by exists s.
Defined.

(** Pages of two entries, nobody else. *)
Definition all_request : ScanRequest := mkScanRequest [] [] 2 [].

Definition all_trace : list event :=
  [EIterator (mkIterOptions [] []); ENext 0; ENext 0; ENext 0; EIteratorClose 0;
   EIterator (mkIterOptions [x62] []); ENext 1; ENext 1; ENext 1; EIteratorClose 1].

Definition all_entries : list (bytes * bytes) := [([x61], [x01]); ([x62], [x02]); ([x63], [x03])].

Lemma all_checked :
  on_opened (serve_check still serve_events (fun _ => scan_all 20 20 all_request)) =
    Some (true, all_trace, repeat (ODone (Ok tt)) 3, Ok all_entries, []).
Proof. vm_compute. reflexivity. Qed.

Definition abc : gmap bytes bytes := <[[x63] := [x03]]> (<[[x62] := [x02]]> (<[[x61] := [x01]]> ∅)).

Lemma abc_reached : reached run_normalized.1 serve_events (repeat (ODone (Ok tt)) 3) (mkAstate abc [] [] false).
Proof. repeat (eapply allowed_cons; [left; by split |]). constructor. Qed.

Lemma scan_pages_complete_witness : range (in_range (mkIterOptions [] [])) abc = all_entries.
Proof.
  destruct (check_serving _ _ _ _ _ _ _ all_checked) as (db & s & s' & Hsv & E);
    [split; [vm_compute; congruence |]; split; [vm_compute; congruence | vm_compute; lia] |].
  destruct (scan_pages_complete (lz := run_codec) (laws := run_codec_laws) _ _ _ _ _ _ _ _ _ _ _ _ _ _ all_request _ Hsv abc_reached) as (s1 & E1).
  - done.
  - intros j. constructor.
  - done.
  - done.
  - vm_compute. reflexivity.
  - done.
  - by left.
  - rewrite E in E1. apply (f_equal (fun z => match z with Some (Ok l, _, _) => l | _ => [] end)) in E1. symmetry. exact E1.
Defined.

Definition stream_request : ScanStreamRequest := mkScanStream [] [x63] 2.

Definition stream_trace : list event :=
  [EIterator (mkIterOptions [] [x63]); EDelete run_env [x62]; ENext 0; ENext 0; ENext 0; EIteratorClose 0].

Lemma stream_checked :
  on_opened (serve_check busy_world serve_events (fun _ => GRPC_Scan 20 (Some stream_request))) =
    Some (true, stream_trace, repeat (ODone (Ok tt)) 3, Ok tt, [([x61], [x01]); ([x62], [x02])]).
Proof. vm_compute. reflexivity. Qed.

Lemma grpc_scan_stream_witness :
  exists a, reached run_normalized.1 serve_events (repeat (ODone (Ok tt)) 3) a /\
    stream_outcome (Limits run_normalized.1) busy_world [] 1 (Some stream_request) a (Ok tt) [([x61], [x01]); ([x62], [x02])].
Proof.
  destruct (check_serving _ _ _ _ _ _ _ stream_checked) as (db & s & s' & Hsv & E);
    [split; [vm_compute; congruence |]; split; [vm_compute; congruence | vm_compute; lia] |].
  destruct (grpc_scan_stream (lz := run_codec) (laws := run_codec_laws) _ _ _ _ _ _ _ _ _ _ _ _ _ _ (Some stream_request) Hsv) as (a & r & sent & s1 & Ha & E1 & Hr);
    [done |].
  rewrite E in E1. injection E1 as <- <- <-. by exists a.
Defined.

(** A put and a delete. *)
Definition batch_request : WriteBatchRequest :=
  mkWriteBatch [Some (mkMutation PUT [x64] [x04]); Some (mkMutation DELETE [x61] [])] false.

Definition batch_trace : list event := [EBatch run_env [mkOp [x64] [x04] false; mkOp [x61] [] true] false].

Lemma batch_checked :
  on_opened (serve_check still serve_events (fun db => GRPC_WriteBatch db (Some batch_request))) =
    Some (true, batch_trace, repeat (ODone (Ok tt)) 3, Ok tt, []).
Proof. vm_compute. reflexivity. Qed.

Lemma grpc_batch_atomic_witness :
  exists a a', reached run_normalized.1 serve_events (repeat (ODone (Ok tt)) 3) a /\
    batch_outcome (Limits run_normalized.1) still (Some batch_request) a (Ok tt) a'.
Proof.
  destruct (check_serving _ _ _ _ _ _ _ batch_checked) as (db & s & s' & Hsv & E);
    [split; [vm_compute; congruence |]; split; [vm_compute; congruence | vm_compute; lia] |].
  destruct (grpc_batch_atomic (lz := run_codec) (laws := run_codec_laws) _ _ _ _ _ _ _ _ _ _ _ _ _ _ (Some batch_request) Hsv) as (a & r & s1 & a' & Ha & E1 & Hr & _).
  rewrite E in E1. injection E1 as <- <-. by exists a, a'.
Defined.

(** A page that ends with the empty key has no token although there are more
    entries: the client cannot go on. *)
Lemma empty_key_ends_scan :
  on_opened (serve_check still [EPut run_env [] [x00]; EPut run_env [x61] [x01]] (fun _ => scan_all 20 20 (mkScanRequest [] [] 1 []))) =
    Some (true, [EIterator (mkIterOptions [] []); ENext 0; ENext 0; EIteratorClose 0], repeat (ODone (Ok tt)) 2, Ok [([], [x00])], []).
Proof. vm_compute. reflexivity. Qed.
