(* ===== verification/Incidents.v ===== *)
(** * Incidents

    Runs on which the database loses an acknowledged write, brings back a
    deleted or a refused one, gives two tables one identifier, or refuses a
    write that it has applied.  They leave
    the tame runs of the correctness theorems: a call to the operating system
    fails at the wrong moment, or the process stops and the directory is opened
    again.  Each is executed. *)

From S2P Require Import Float64 Bloom BlockCache Wal MemTableClaims.
From S2P Require Export DbClaims ServiceClaims Processes.

Local Abbreviation run_from db evs := (run (lz := run_codec) sum_hash log_hundredth (fun _ => 0) 20 evs (start db)).

(** [Open] on the directory that is left when the process stops, or after
    [Close]. *)
Definition reopen (opts : Options) (d : fs) : option (DB LRU) :=
  match Open (lz := run_codec) 20 run_env (Ok tt) opts d with
  | Some (Ok db, _) => Some db
  | _ => None
  end.

(** The events of the lives of the process, one after the other, with the
    answers of each, and the database at the end. *)
Fixpoint lives (opts : Options) (d : fs) (evss : list (list event)) : option (list (list output) * DB LRU) :=
  match evss with
  | [] => db ← reopen opts d; Some ([], db)
  | evs :: evss =>
      db ← reopen opts d;
      '(outs, s) ← run_from db evs;
      '(outss, db) ← lives opts (dir (s_db s)) evss;
      Some (outs :: outss, db)
  end.

(** What the lives answer, and what a read of the key says in the last one. *)
Definition after_lives (opts : Options) (evss : list (list event)) (key : bytes) : option (list (list output) * result db_error bytes) :=
  '(outss, db) ← lives opts ∅ evss;
  '(r, _) ← DB_Get (lz := run_codec) sum_hash key db;
  Some (outss, r).

(** Memtables that do not fill up. *)
Definition large_options : Options := mkOptions 10 1 0 false f_zero (mkLimits 0 0 0 0).

Definition torn_after (k : nat) : env := mkEnv (Some k) false None false None no_faults (fun _ => false) false (mkRand (fun n => Z.of_nat n) 0).

(** A write whose frame is torn fails; the next write is acknowledged and
    follows the torn frame in the log.  Recovery stops at the torn frame. *)
Lemma torn_frame_hides_later_writes :
  after_lives large_options [[EPut (torn_after 1) [x61] [x01]; EPut run_env [x62] [x02]; EGet [x62]]] [x62] =
    Some ([[ODone (Err ErrOS); ODone (Ok tt); OValue (Ok [x02])]], Err ErrNotFound).
Proof. vm_compute. reflexivity. Qed.

(** With more of the frame, its checksum is compared with other bytes: the
    directory cannot be opened at all. *)
Lemma torn_frame_blocks_open :
  (db ← reopen large_options ∅;
   '(_, s) ← run_from db [EPut (torn_after 5) [x61] [x01]; EPut run_env [x62] [x02]];
   '(r, _) ← Open (lz := run_codec) 20 run_env (Ok tt) large_options (dir (s_db s));
   Some (match r with Ok _ => None | Err err => Some err end)) = Some (Some (ErrWal (WalChecksum 12))).
Proof. vm_compute. reflexivity. Qed.

(** A batch whose [Sync] fails is refused, and not there; after a restart it
    is. *)
Definition unsynced_env : env := mkEnv None true None false None no_faults (fun _ => false) false (mkRand (fun n => Z.of_nat n) 0).

Lemma refused_batch_returns :
  after_lives large_options [[EBatch unsynced_env [mkOp [x61] [x01] false] true; EGet [x61]]] [x61] =
    Some ([[ODone (Err ErrOS); OValue (Err ErrNotFound)]], Ok [x01]).
Proof. vm_compute. reflexivity. Qed.

(** A rotation that cannot open the next segment leaves the memtable active
    and waiting to be flushed.  Once the worker, still busy with an earlier
    memtable, has flushed it, its log is removed although it is the log in use:
    what is written next is in no file. *)
Definition no_segment_env : env := mkEnv None false (Some SegOpen) false None no_faults (fun _ => false) false (mkRand (fun n => Z.of_nat n) 0).
Definition two_options : Options := mkOptions 2 4 0 false f_zero (mkLimits 0 0 0 0).

Lemma failed_rotation_loses_writes :
  after_lives two_options
    [[EPut run_env [x61] [x01]; EPut run_env [x62] [x02]; EPut run_env [x63] [x03]; EPut no_segment_env [x64] [x04]] ++
     repeat (EFlusher run_env) 12 ++ [EPut run_env [x65] [x05]; EGet [x65]]] [x65] =
    Some ([[ODone (Ok tt); ODone (Ok tt); ODone (Ok tt); ODone (Err ErrOS)] ++ repeat ONothing 12 ++ [ODone (Ok tt); OValue (Ok [x05])]], Err ErrNotFound).
Proof. vm_compute. reflexivity. Qed.

(** A rotation that cannot close the old log returns before it wakes the flush
    worker.  The write that filled the memtable is refused, although it has been
    applied and reads see it; no flush fails, and the worker, which nobody woke,
    leaves the memtable where it is. *)
Definition unclosed_env : env := mkEnv None false None true None no_faults (fun _ => false) false (mkRand (fun n => Z.of_nat n) 0).

Definition unclosed_events : list event := EPut unclosed_env [x61] [x01] :: repeat (EFlusher run_env) 30 ++ [EGet [x61]].

Lemma failed_log_close_loses_wakeup :
  (db ← reopen run_options ∅;
   '(outs, s) ← run_from db unclosed_events;
   Some (outs, length (immutableMemtables (s_db s)), flushSignal (s_db s),
     flushes_succeed (lz := run_codec) sum_hash log_hundredth (fun _ => 0) 20 unclosed_events (start db))) =
    Some ([ODone (Err ErrOS)] ++ repeat ONothing 30 ++ [OValue (Ok [x01])], 1%nat, false, true).
Proof. vm_compute. reflexivity. Qed.

(** So a batch of the service can be refused with [Internal] and be there. *)
Definition unclosed_world (_ : nat) : moment := mkMoment [] unclosed_env None true.

Lemma refused_batch_applied :
  (db ← reopen run_options ∅;
   '(r, _, s) ← interp (lz := run_codec) sum_hash log_hundredth (fun _ => 0) 20 unclosed_world 0 [] (GRPC_WriteBatch db (Some batch_request)) (start db);
   '(v, _) ← DB_Get (lz := run_codec) sum_hash [x64] (s_db s);
   Some (r, v)) = Some (Err (Status Internal), Ok [x04]).
Proof. vm_compute. reflexivity. Qed.

(** A write is replayed from the log of an earlier life, deleted, flushed and
    compacted away with its tombstone.  The flush removed only the last log, so
    the next life replays the write again. *)
Lemma deleted_key_returns :
  after_lives run_options
    [[EPut run_env [x61] [x01]];
     [EDelete run_env [x61]] ++ repeat (EFlusher run_env) 6 ++ repeat (ECompactor (fun _ => run_env)) 2 ++ [EGet [x61]]] [x61] =
    Some ([[ODone (Ok tt)]; [ODone (Ok tt)] ++ repeat ONothing 8 ++ [OValue (Err ErrNotFound)]], Ok [x01]).
Proof. vm_compute. reflexivity. Qed.

(** While a flush works on the table with identifier 1, a compaction takes 2
    and 3.  The flush fails and puts the counter back to 1; after two more
    flushes the next compaction takes 3 again, writes its output over the table
    of the old identifier, and then removes it as an input. *)
Definition reuse_events : list event :=
  [EPut run_env [x61] [x01]] ++ repeat (EFlusher run_env) 7 ++ [EPut run_env [x62] [x02]] ++ repeat (EFlusher run_env) 3 ++
  repeat (ECompactor (fun _ => run_env)) 2 ++ [EFlusher full_env; EPut run_env [x63] [x03]] ++ repeat (EFlusher run_env) 12 ++
  repeat (ECompactor (fun _ => run_env)) 2.

Lemma reused_identifier_loses_table :
  after_lives run_options [reuse_events] [x61] =
    Some ([[ODone (Ok tt)] ++ repeat ONothing 7 ++ [ODone (Ok tt)] ++ repeat ONothing 6 ++ [ODone (Ok tt)] ++ repeat ONothing 14],
      Err ErrNotFound).
Proof. vm_compute. reflexivity. Qed.

(** Memtables that fill up at once, tables that are compacted on demand only. *)
Definition demand_options : Options := mkOptions 1 4 0 false f_zero (mkLimits 0 0 0 0).

(** A process closes its database, so that another one may open the directory,
    writes to it and has the write flushed.  Then the first one calls [Compact]
    on the closed database: it replaces the manifest by its own.  When the
    directory is opened again, the write of the second process is gone. *)
Definition late_compaction : list action :=
  [AOpen sound false run_env demand_options [x41]; AStep sound 0 (EPut run_env [x61] [x01])] ++ close_turns 0 ++
  [AOpen sound false run_env demand_options [x41]; AStep sound 1 (EPut run_env [x62] [x02])] ++
  repeat (AStep sound 1 (EFlusher run_env)) 6 ++
  [AStep sound 1 (EGet [x62]); AStep sound 0 (ECompact run_env)] ++ close_turns 1 ++
  [AOpen sound false run_env demand_options [x41]; AStep sound 2 (EGet [x62])].

Lemma late_compaction_loses_writes :
  fst <$> machine_acts late_compaction =
    Some ([ROpen (Ok 0%nat); RStep (ODone (Ok tt))] ++ repeat (RStep ONothing) 16 ++ [ROpen (Ok 1%nat); RStep (ODone (Ok tt))] ++
      repeat (RStep ONothing) 6 ++ [RStep (OValue (Ok [x02])); RStep (ODone (Ok tt))] ++ repeat (RStep ONothing) 16 ++
      [ROpen (Ok 2%nat); RStep (OValue (Err ErrNotFound))]).
Proof. vm_compute. reflexivity. Qed.
